(* ===== verification/_CoqProject ===== *)
-Q . S2P
Prelude.v
GoStrings.v
GoNumbers.v
GoStd.v
GoTime.v
Schema.v
Topology.v
ShardKey.v
PgQuery.v
Ddl.v
Router.v
RoutePlan.v
CopyRouter.v
Nest.v
Session.v
FleetDdl.v
Wire.v
TwoPhase.v
QueryHandler.v
Statistics.v
Config.v
Backend.v
Pool.v
Barrier.v
Startup.v
Fanout.v
Statements.v
PooledQuery.v
Extended.v
CopyHandlers.v
Serve.v
Pipeline.v
Traffic.v
Requests.v
CopySessions.v
Report.v
Status.v
