(* ===== verification/Prelude.v ===== *)
(** Verification of the Hamstergres proxy.

    * The program

    Hamstergres is a PostgreSQL sharding gateway.  Clients speak the PostgreSQL
    protocol to the Proxy (src/internal/proxy), which parses every statement,
    decides on which of the PostgreSQL servers ("Burrows") it runs
    (src/internal/router, src/internal/copyrouter), sends it there over pooled
    connections (src/internal/backend), merges the replies and keeps the state of
    the client's session.  The placement of data comes from a versioned catalog
    (src/internal/topology) and a registry of tables and shard keys
    (src/internal/schema), both stored in etcd ("Nest", src/internal/nest) and
    shared by all Proxies.  src/internal/statistics collects telemetry,
    src/internal/status and src/internal/observability show it,
    src/internal/config reads the configuration file, and src/internal/pgcompat
    with src/tools/pgcompat judges runs of PostgreSQL's regression tests.

    * The files, in dependency order

    Foundations.
    - Prelude: the type [result] and its monad for Go's [(value, error)], the
      order of map iteration ([MapOrder]), lemmas on lists, maps and results,
      hint databases and tactics used everywhere.
    - GoStrings, GoNumbers: the functions of [strings], [strconv] and [math/big]
      the program calls, on byte strings, and their facts.
    - GoTime: [time.ParseDuration] on 64-bit integers with its overflow checks,
      and the [float64] operations of the statistics as [spec_float]s.
    - GoStd: classes for the library functions whose results are only stored or
      compared (SHA-256, JSON, URL parsing, conversion of floats).
    - PgQuery: syntax trees as pg_query_go delivers them, and its parser and
      deparser as a class.

    Placement of data.
    - Schema (internal/schema/registry.go): [Registry], [EqualSchema],
      [Snapshot], [FromJSON].
    - Topology (internal/topology/catalog.go): [Catalog], [Validate],
      [ValidateTransition], [Bootstrap], [TablePlacements].
    - ShardKey, Router (internal/router/router.go): canonical key values, FNV-1a
      and vshards; [Prepare], [Analyze], the predicate and INSERT analysis,
      scatter safety, generated keys.
    - CopyRouter (internal/copyrouter/copy.go): [Parse], [Stream] and
      [OutputStream] in text, CSV and binary format, and the decoding of rows.
    - Nest (internal/nest): the sequence, topology, registry and maintenance
      stores as trees of etcd requests; a step relation interleaves any number
      of them, with lost replies.
    - Backend (internal/backend/backend.go): [loadSchema], [New],
      [RefreshSchema] over the Nest programs and the catalogs of the Burrows.

    One client's session.
    - Session (internal/proxy/server.go): transaction state, temporary relations
      with savepoints, session settings and their replay.
    - Ddl, FleetDdl, RoutePlan: normalisation of DDL (internal/ddl/normalize.go),
      its classification and admission, and the policy that turns a routing
      decision into a list of Burrows (proxy/server.go).
    - Wire: protocol messages and the merging of the replies of several Burrows.
    - TwoPhase: [commitTwoPhase], fleet-wide DDL, the handling of COMMIT.
    - QueryHandler, PooledQuery: [handleSessionQuery] and [handleQuery], the
      simple protocol with and without a session.
    - Statements, Extended: [prepareStatement], [prepareBind], routing parameters;
      Bind, Describe, Execute, Sync and [flushPendingExtended].
    - CopyHandlers: COPY in both directions, server-side COPY included.
    - Startup, Serve: the negotiation of a connection, and the message loop
      [serveQueries] over all of the above.
    - Pipeline, Traffic, Requests, CopySessions: what whole sessions guarantee;
      Traffic says what every message of a client makes the handlers send.

    Between sessions.
    - Pool, Fanout (internal/backend/backend.go): sessions on pooled connections,
      the caches of prepared statements and parameters, reset and release, the
      gate of fleet-wide writes; reading replies and querying all Burrows.
    - Barrier (proxy/server.go): the schema refresh barrier that all sessions of
      a process share, in small steps; the connections of the pools are counted,
      because [loadSchema] waits for a free one.

    Around the data path.
    - Statistics, Config, Status, Report: the packages of these names; Status has
      the health checks, the metrics and the status command; Report the
      compatibility report and its command.

    * How state and effects are represented

    A Go struct is a [Record] with the fields' Go names, a tagged union an
    [Inductive], a method that mutates its receiver a function that returns the
    new value.  Maps are [gmap]s, and code that ranges over one takes the order
    from the class [MapOrder], so a theorem holds for every order.  An error is
    the [Err] of a [result] or of an error type of the component.  Integers are
    [Z]s with the wrap-around or the bounds check of their width written out
    (hashes modulo 2^64, durations, COPY lengths of 32 bits).  Where the code
    exchanges messages with servers, the server is a function of the whole
    history so far, so no theorem depends on what it answers.  Where goroutines
    or processes share state (Nest, Pool, Barrier) the code is a step relation
    and the theorems are invariants of everything reachable.

    Third-party code is behind classes, with documented behaviour as laws where a
    proof needs it, and concrete instances to evaluate: [GoStd], [Floats],
    [PgQuery], [Etcd] with [EtcdLaws], [Codec], [Connections], [PgConn] with
    [PgLaws], [Files], and the YAML decoder of Config.

    * What the theorems show

    - Rows go where they belong: a routed statement and a simple or prepared
      write reach the Burrow that owns the vshard of their shard key and no
      other.  The key is that of the text that is sent, after a generated key was
      added, and of the values PostgreSQL reads from the bound message.  Every
      row of a COPY reaches its owner, too; rows are defined by a grammar of their
      own ([csv_line], [data_line], [binary_tuple]), and the claim about a whole
      COPY goes through the message loop and says what the client is told.
      Values that are equal as numbers hash alike, and the flags the router
      derives from a tree are exact.  That the rows of a scattered SELECT may be
      concatenated is not claimed: [unlisted_aggregates_scattered].
    - Transactions: [commitTwoPhase] refines an abstract atomic commit as long as
      no participant has failed, and reports success only when all have
      committed in any case; fleet DDL runs on all Burrows or none, under the
      fleet lock.
    - Shared state: catalogs, registries and global IDs stay coherent under every
      interleaving of Proxies and every lost reply; pooled connections leak
      nothing from one session to the next, unless a query without a session
      changed a setting ([keeps_settings]); caches of prepared statements tell
      the truth exactly while no statement was dropped unseen
      ([keeps_statements]); a commit of DDL is never hidden by a refresh that
      began before it, and the mutex of the barrier is given back when lock waits
      end and the pools have room ([lock_wait_deadlock] and [pool_wait_deadlock]
      show that both are needed).
    - Protocol: a query that a session handles or a Sync is answered by exactly
      one ReadyForQuery, last and truthful, with two exceptions the theorems
      state: a blank query announces the idle status always, and a forwarded Sync
      that a Burrow failed gets an error only.  What is sent for a message of the
      client is the pending batch, or what the message names, to its Burrows.
      Results are merged only when they agree and in Burrow order; the settings
      told at start-up are compared with those of the connections.
    - Data formats: rows round-trip through the COPY formats, fragmentation does
      not matter, no slice expression is out of range (those of the streams are
      checked in the model, [slice] and [cut]), loops end.
    - Validation accepts exactly the well-formed values; telemetry counts exactly
      the queries of its windows; the compatibility report passes exactly the
      runs it should.
    Where the code departs from what it means to do, the theorem states what it
    does (for instance [failed_participant_splits_commit],
    [pipelined_execute_lost], the last disjuncts of [sync_answered_once] and
    [startup_status_exact], and the empty parameters of
    [generated_parameter_bound]).

    * Fuel and bounds

    Recursion is structural except where the code loops over a text or follows
    pointers in a syntax tree.  There the fuel is the length of the text plus one,
    or the size of the tree ([msize]) plus one, each round consumes a byte or
    descends to a proper part ([msize_submessage]), and more fuel gives the same
    result: [run_done], [run_loop] and [row_loops_end] for the row loops of COPY
    streams, [visited_flatten] and [flatten_elem] for the walk over trees.  The
    retries of the sequence store are bounded in the code itself.

    * Not modelled

    - [serveCommand] of cmd/hamstergres-proxy/main.go: it wires configuration,
      pools, listeners, signals and logging together; and the accept loop of
      [Serve] with its goroutines, deadlines and cancellation by contexts.
      A client that disconnects is the end of the message list; a context that
      ends while waiting for a lock is an oracle's answer.
    - Tracing spans, log records and metrics calls inside handlers: they feed
      nothing the program reads back.
    - HTML, JSON and YAML: templates, encoders and decoders are libraries.
    - The text of error messages is kept where a client or a test reads it and is
      a constructor elsewhere.
    - There is no authentication in the source, and TLS is refused.

    * Plan

    Modelled first: placement, routing, two-phase commit, COPY; then Nest and
    start-up, the extended protocol, pools and the views.  Left for later: a
    refinement of whole sessions against one logical PostgreSQL server, and the
    accept loop with shutdown. *)
From Stdlib Require Export ZArith Lia.
From stdpp Require Export base tactics option list gmap strings sorting fin_maps.

(** * Scopes, results and the error monad *)

#[export] Set Warnings "-clear-no-such-hyp".
Declare Scope go_scope.
Delimit Scope go_scope with go.
Open Scope Z_scope.
Open Scope go_scope.

(** A Go call returning [(value, error)]: the error alternative carries a
    value of the component's own error type instead of a formatted string. *)
Inductive result (E A : Type) : Type :=
| Ok (a : A)
| Err (e : E).
Arguments Ok {E A} a.
Arguments Err {E A} e.

#[export] Instance result_ret E : MRet (result E) := λ A a, Ok a.
#[export] Instance result_bind E : MBind (result E) := λ A B k m,
  match m with Ok a => k a | Err e => Err e end.
#[export] Instance result_fmap E : FMap (result E) := λ A B f m,
  match m with Ok a => Ok (f a) | Err e => Err e end.
#[export] Instance result_eq_dec {E A} `{EqDecision E, EqDecision A} :
  EqDecision (result E A).
Proof. solve_decision. Defined.

Definition is_ok {E A} (r : result E A) : bool :=
  match r with Ok _ => true | Err _ => false end.

Definition to_option {E A} (r : result E A) : option A :=
  match r with Ok a => Some a | Err _ => None end.

Definition map_err {E F A} (f : E → F) (r : result E A) : result F A :=
  match r with Ok a => Ok a | Err e => Err (f e) end.

(** [if cond { return error }] *)
Definition fail_if {E} (cond : bool) (e : E) : result E unit :=
  if cond then Err e else Ok tt.

(** [value, ok := ...; if !ok { return error }] *)
Definition or_fail {E A} (o : option A) (e : E) : result E A :=
  match o with Some a => Ok a | None => Err e end.

(** A loop with an accumulator and an early error return. *)
Fixpoint mfold {E A B} (f : A → B → result E A) (a : A) (l : list B) : result E A :=
  match l with
  | [] => Ok a
  | b :: l => a' ← f a b; mfold f a' l
  end.

(** A loop whose body only checks. *)
Fixpoint check_all {E B} (f : B → result E unit) (l : list B) : result E unit :=
  match l with
  | [] => Ok tt
  | b :: l => f b;; check_all f l
  end.

(** [for index, value := range slice] from a starting index. *)
Fixpoint enumerate_from {B} (i : nat) (l : list B) : list (nat * B) :=
  match l with
  | [] => []
  | b :: l => (i, b) :: enumerate_from (S i) l
  end.
Definition enumerate {B} (l : list B) : list (nat * B) := enumerate_from 0 l.

(** A loop that appends one computed element per iteration. *)
Fixpoint mmap {E A B} (f : A → result E B) (l : list A) : result E (list B) :=
  match l with
  | [] => Ok []
  | a :: l => b ← f a; bs ← mmap f l; Ok (b :: bs)
  end.

(** [for _, item := range l { m[key(item)] = val(item) }] *)
Definition index_by {A B} (key : A → string) (val : A → B) (l : list A)
    (m : gmap string B) : gmap string B :=
  fold_left (λ m a, <[key a := val a]> m) l m.

(** * Go maps: iteration order

    [for k, v := range m] visits every entry once in an unspecified order.
    The order is a parameter of every function that ranges over a map. *)
Class MapOrder := {
  map_range : ∀ {K} `{Countable K} {A}, gmap K A → list (K * A);
  map_range_perm : ∀ {K} `{Countable K} {A} (m : gmap K A),
    map_range m ≡ₚ map_to_list m;
}.

(** One concrete order, for evaluation on concrete inputs. *)
Definition canonical_order : MapOrder := {|
  map_range := λ K _ _ A m, map_to_list m;
  map_range_perm := λ K _ _ A m, reflexivity _;
|}.

(** * Machine integers *)

Definition wrap (w z : Z) : Z := z mod 2 ^ w.
Definition swrap (w z : Z) : Z :=
  let u := wrap w z in if decide (u < 2 ^ (w - 1)) then u else u - 2 ^ w.
Definition max_int64 : Z := 2 ^ 63 - 1.
Definition min_int64 : Z := - 2 ^ 63.

(** * Sorting and searching *)

(** [sort.Strings]: Go compares strings bytewise, as [String.le] does. *)
Definition sort_strings (l : list string) : list string := merge_sort String.le l.

(** The loop of [sort.Search] specialised by [sort.SearchStrings]. *)
Fixpoint search_strings_loop (fuel : nat) (l : list string) (x : string) (i j : nat) : nat :=
  match fuel with
  | O => i
  | S fuel =>
    if decide (i < j)%nat then
      let h := ((i + j) / 2)%nat in
      if decide (String.le x (default ""%string (l !! h)))
      then search_strings_loop fuel l x i h
      else search_strings_loop fuel l x (S h) j
    else i
  end.
Definition search_strings (l : list string) (x : string) : nat :=
  search_strings_loop (S (length l)) l x 0 (length l).

(** * Tactics *)

(** Decompose a successful run of a monadic function. *)
Ltac result_step :=
  match goal with
  | H : mbind _ ?m = Ok _ |- _ =>
      let E := fresh "E" in destruct m eqn:E; [cbn [mbind result_bind] in H | discriminate H]
  | H : fail_if ?b _ = Ok _ |- _ =>
      let E := fresh "E" in
      unfold fail_if in H; destruct b eqn:E; [discriminate H | clear H]
  | H : or_fail ?o _ = Ok _ |- _ =>
      let E := fresh "E" in
      unfold or_fail in H; destruct o eqn:E; [| discriminate H]
  | H : Ok _ = Ok _ |- _ => injection H as H; subst
  | H : mret _ = Ok _ |- _ => injection H as H; subst
  | H : Err _ = Ok _ |- _ => discriminate H
  end.
Ltac result_inv := repeat (result_step; cbn beta iota in *).

(** Close a decidable closed goal by evaluating its decision procedure. *)
Ltac by_computation := refine (bool_decide_unpack _ _); vm_compute; exact I.

Create HintDb hamster.
Create Rewrite HintDb hamster.

(** * Lemmas: results and loops *)

Section results.
Context {E : Type}.

Lemma bind_ok {A B} (m : result E A) (k : A → result E B) b :
  m ≫= k = Ok b ↔ ∃ a, m = Ok a ∧ k a = Ok b.
Proof.
  destruct m; cbn; split; [eauto | by intros (? & [= ->] & ?) | done |].
  by intros (? & ? & ?).
Qed.

Lemma fail_if_ok (b : bool) (e : E) : fail_if b e = Ok tt ↔ b = false.
Proof. unfold fail_if. destruct b; naive_solver. Qed.

Lemma fail_if_ne_ok {A} `{EqDecision A} (a b : A) (e : E) :
  fail_if (bool_decide (a ≠ b)) e = Ok tt ↔ a = b.
Proof.
  rewrite fail_if_ok, bool_decide_eq_false. split; [by apply dec_stable | by intros -> ?].
Qed.

Lemma seq_ok {B} (m : result E unit) (k : result E B) b :
  (m;; k) = Ok b ↔ m = Ok tt ∧ k = Ok b.
Proof. rewrite bind_ok. split; [intros ([] & ? & ?); done | intros [? ?]; by exists tt]. Qed.

(** A call whose value is dropped. *)
Lemma then_ok {A B} (m : result E A) (k : result E B) b :
  (m;; k) = Ok b ↔ (∃ a, m = Ok a) ∧ k = Ok b.
Proof. rewrite bind_ok. naive_solver. Qed.

Lemma or_fail_ok {A} (o : option A) (e : E) a : or_fail o e = Ok a ↔ o = Some a.
Proof. destruct o; cbn; naive_solver. Qed.

Lemma check_all_ok {B} (f : B → result E unit) l :
  check_all f l = Ok tt ↔ Forall (λ b, f b = Ok tt) l.
Proof.
  induction l as [|b l IH]; cbn; [by split; [constructor|]|].
  rewrite bind_ok, Forall_cons, <- IH.
  split; [intros ([] & ? & ?); done | intros [? ?]; by exists tt].
Qed.

Lemma mfold_app {A B} (f : A → B → result E A) a l1 l2 :
  mfold f a (l1 ++ l2) = (a' ← mfold f a l1; mfold f a' l2).
Proof. revert a. induction l1 as [|b l1 IH]; intros a; cbn; [done|]. destruct (f a b); cbn; auto. Qed.

Lemma mfold_cons_ok {A B} (f : A → B → result E A) a b l a2 :
  mfold f a (b :: l) = Ok a2 ↔ ∃ a1, f a b = Ok a1 ∧ mfold f a1 l = Ok a2.
Proof. cbn. apply bind_ok. Qed.

Lemma mfold_snoc_ok {A B} (f : A → B → result E A) a b l a2 :
  mfold f a (l ++ [b]) = Ok a2 ↔ ∃ a1, mfold f a l = Ok a1 ∧ f a1 b = Ok a2.
Proof.
  rewrite mfold_app, bind_ok. cbn.
  split; intros (a1 & ? & H); exists a1; (split; [done|]).
  - by destruct (f a1 b); cbn in *.
  - by rewrite H.
Qed.

(** Induction over a successful loop, knowing the elements consumed so far. *)
Lemma mfold_ind {A B} (f : A → B → result E A) (P : list B → A → Prop) a0 l a :
  mfold f a0 l = Ok a →
  P [] a0 →
  (∀ done b rest x y, l = done ++ b :: rest → P done x → f x b = Ok y → P (done ++ [b]) y) →
  P l a.
Proof.
  intros Hf H0 Hstep.
  assert (∀ rest done x, l = done ++ rest → P done x → mfold f x rest = Ok a → P l a) as Hgen.
  { induction rest as [|b rest IH]; intros ds x Hl HP Hx.
    - cbn in Hx. injection Hx as ->. by rewrite app_nil_r in Hl; subst.
    - apply mfold_cons_ok in Hx as (y & Hy & Hx).
      eapply (IH (ds ++ [b])); [by rewrite <- app_assoc | eauto | done]. }
  eapply (Hgen l []); eauto.
Qed.

Lemma mmap_ok {A B} (f : A → result E B) l bs :
  mmap f l = Ok bs ↔ Forall2 (λ a b, f a = Ok b) l bs.
Proof.
  revert bs. induction l as [|a l IH]; intros bs; cbn.
  - split; [by intros [= <-] | by intros ->%Forall2_nil_inv_l].
  - rewrite bind_ok. setoid_rewrite bind_ok. split.
    + intros (b & Hb & bs' & Hbs & [= <-]). constructor; [done | by apply IH].
    + intros (b & bs' & Hb & Hbs & ->)%Forall2_cons_inv_l.
      exists b. split; [done|]. exists bs'. by rewrite IH.
Qed.

Lemma mmap_pure {A B} (f : A → result E B) (g : A → B) l :
  (∀ a, a ∈ l → f a = Ok (g a)) → mmap f l = Ok (g <$> l).
Proof.
  intros Hf. apply mmap_ok. induction l as [|a l IH]; cbn; constructor.
  - apply Hf. by left.
  - apply IH. intros a' Ha'. apply Hf. by right.
Qed.

(** A loop that rejects an element clashing with an earlier one: it succeeds
    exactly when every element passes its own check, no element clashes with
    the initial state, and the elements are pairwise apart. *)
Lemma guarded_loop {B S} (f : S → B → result E S) (P : B → Prop)
    (fresh : S → B → Prop) (apart : B → B → Prop) (upd : S → B → S) :
  (∀ s b s', f s b = Ok s' ↔ P b ∧ fresh s b ∧ s' = upd s b) →
  (∀ s b b', fresh (upd s b) b' ↔ fresh s b' ∧ apart b b') →
  ∀ l s s', mfold f s l = Ok s' ↔
    Forall P l ∧ Forall (fresh s) l ∧ ForallOrdPairs apart l ∧ s' = fold_left upd l s.
Proof.
  intros Hf Hfresh. induction l as [|b l IH]; intros s s'.
  - cbn. split; [intros [= <-]; repeat split; constructor | by intros (_ & _ & _ & ->)].
  - rewrite mfold_cons_ok, !Forall_cons. split.
    + intros (s1 & (HP & Hs & ->)%Hf & (HPl & Hl & Hap & ->)%IH).
      repeat split; try done.
      * eapply Forall_impl; [exact Hl|]. intros b' ?%Hfresh. tauto.
      * constructor; [|done]. eapply Forall_impl; [exact Hl|]. intros b' ?%Hfresh. tauto.
    + intros ([HP HPl] & [Hs Hl] & Hap & ->). inversion Hap as [|? ? Hb Hap']; subst.
      exists (upd s b). split; [by apply Hf|]. apply IH. repeat split; try done.
      rewrite Forall_forall in Hl, Hb |- *. intros b' Hin. apply Hfresh. auto.
Qed.

(** A loop that builds a map with one computed entry per visited key. *)
Lemma build_map_ok {A B} (f : string * A → result E B) (g : string * A → B) l (m : gmap string B) :
  NoDup l.*1 → (∀ p, p ∈ l → f p = Ok (g p)) →
  ∃ m', mfold (λ m p, b ← f p; Ok (<[p.1 := b]> m)) m l = Ok m' ∧
    (∀ k a, (k, a) ∈ l → m' !! k = Some (g (k, a))) ∧
    (∀ k, k ∉ l.*1 → m' !! k = m !! k).
Proof.
  revert m. induction l as [|[k a] l IH]; intros m Hnd Hf; cbn.
  - exists m. split; [done|]. split; [by intros ??[]%elem_of_nil | done].
  - apply NoDup_cons in Hnd as [Hk Hnd].
    rewrite (Hf (k, a)) by by left. cbn.
    destruct (IH (<[k:=g (k, a)]> m)) as (m' & Hm' & Hin & Hout); [done | set_solver|].
    exists m'. split; [done|]. split.
    + intros k' a' [[= -> ->]|Hin']%elem_of_cons; [|by apply Hin].
      rewrite Hout by done. apply lookup_insert_eq.
    + intros k' Hk'. rewrite not_elem_of_cons in Hk'. destruct Hk' as [Hne Hk'].
      rewrite Hout by done. by rewrite lookup_insert_ne.
Qed.

Lemma is_ok_true {A} (r : result E A) : is_ok r = true ↔ ∃ a, r = Ok a.
Proof. destruct r; cbn; naive_solver. Qed.
End results.

#[export] Hint Rewrite @seq_ok @bind_ok @fail_if_ne_ok @fail_if_ok @or_fail_ok @check_all_ok : hamster.

Section enumerates.
Context {B : Type}.
Implicit Types l : list B.

Lemma enumerate_from_snd i l : (enumerate_from i l).*2 = l.
Proof. revert i. induction l as [|b l IH]; intros i; cbn; [done|]. by f_equal. Qed.

Lemma enumerate_from_elem i l j b :
  (j, b) ∈ enumerate_from i l ↔ (i ≤ j)%nat ∧ l !! (j - i)%nat = Some b.
Proof.
  revert i. induction l as [|c l IH]; intros i; cbn.
  - rewrite elem_of_nil. naive_solver.
  - rewrite elem_of_cons, IH. split.
    + intros [[= -> ->] | [? ?]]; [rewrite Nat.sub_diag; auto|].
      split; [lia|]. by replace (j - i)%nat with (S (j - S i)) by lia.
    + intros [? ?]. destruct (decide (j = i)) as [->|].
      { left. rewrite Nat.sub_diag in *. naive_solver. }
      right. replace (j - i)%nat with (S (j - S i)) in * by lia. split; [lia | done].
Qed.

Lemma enumerate_elem l j b : (j, b) ∈ enumerate l ↔ l !! j = Some b.
Proof. unfold enumerate. rewrite enumerate_from_elem, Nat.sub_0_r. naive_solver lia. Qed.

Lemma enumerate_from_app i l1 l2 :
  enumerate_from i (l1 ++ l2) = enumerate_from i l1 ++ enumerate_from (i + length l1) l2.
Proof.
  revert i. induction l1 as [|b l1 IH]; intros i; cbn; [by rewrite Nat.add_0_r|].
  rewrite IH. by rewrite Nat.add_succ_r.
Qed.

Lemma length_enumerate_from i l : length (enumerate_from i l) = length l.
Proof. revert i. induction l; intros; cbn; auto. Qed.
End enumerates.

(** * Lemmas: indexes over lists *)

Lemma index_by_lookup_ne {A B} (key : A → string) (val : A → B) l m k :
  k ∉ key <$> l → index_by key val l m !! k = m !! k.
Proof.
  unfold index_by. revert m. induction l as [|a l IH]; intros m Hk; cbn in *; [done|].
  rewrite not_elem_of_cons in Hk. rewrite IH by tauto. by rewrite lookup_insert_ne by naive_solver.
Qed.

Lemma index_by_lookup {A B} (key : A → string) (val : A → B) l k b :
  NoDup (key <$> l) →
  index_by key val l ∅ !! k = Some b ↔ ∃ a, a ∈ l ∧ key a = k ∧ val a = b.
Proof.
  assert (∀ m, NoDup (key <$> l) → (∀ a, a ∈ l → m !! key a = None) →
    index_by key val l m !! k = Some b ↔
      m !! k = Some b ∨ ∃ a, a ∈ l ∧ key a = k ∧ val a = b) as Hgen.
  { induction l as [|a l IH]; intros m Hnd Hfresh.
    - cbn. set_solver.
    - apply NoDup_cons in Hnd as [Ha Hnd].
      change (index_by key val (a :: l) m) with (index_by key val l (<[key a := val a]> m)).
      destruct (decide (key a = k)) as [<-|Hne].
      + rewrite index_by_lookup_ne, lookup_insert_eq by done.
        rewrite (Hfresh a) by by left. split.
        * intros [= <-]. right. exists a. split; [by left | done].
        * intros [?|(a' & [->|Hin]%elem_of_cons & Hk & <-)]; [done..|].
          destruct Ha. rewrite <- Hk. by apply list_elem_of_fmap_2.
      + rewrite IH; [|done|].
        * rewrite lookup_insert_ne by done. split.
          -- intros [?|(a' & ? & ? & ?)]; [by left | right]. exists a'. split; [by right | done].
          -- intros [?|(a' & [->|Hin]%elem_of_cons & ? & ?)]; [by left | done | right; eauto].
        * intros a' Hin. rewrite lookup_insert_ne; [apply Hfresh; by right|].
          intros Heq. destruct Ha. rewrite Heq. by apply list_elem_of_fmap_2. }
  intros Hnd. rewrite Hgen; [|done|by intros; apply lookup_empty].
  rewrite lookup_empty. naive_solver.
Qed.

Lemma apart_NoDup {A B} (key : A → B) l :
  ForallOrdPairs (λ a b, key a ≠ key b) l ↔ NoDup (key <$> l).
Proof.
  induction l as [|a l IH]; [split; constructor|].
  rewrite fmap_cons, NoDup_cons, <- IH. split.
  - inversion 1 as [|? ? Ha Hl]; subst. split; [|done].
    intros (b & Hb & Hin)%list_elem_of_fmap. rewrite Forall_forall in Ha. by apply (Ha b).
  - intros [Ha Hl]. constructor; [|done]. apply Forall_forall. intros b Hin Heq.
    apply Ha. rewrite Heq. by apply list_elem_of_fmap_2.
Qed.

Lemma apart_and {A} (P Q : A → A → Prop) l :
  ForallOrdPairs (λ a b, P a b ∧ Q a b) l ↔ ForallOrdPairs P l ∧ ForallOrdPairs Q l.
Proof.
  induction l as [|a l IH]; [split; [split|]; constructor|]. split.
  - inversion 1 as [|? ? Ha Hl]; subst. apply IH in Hl as [? ?]. apply Forall_and in Ha as [? ?].
    by repeat constructor.
  - intros [HP HQ]. inversion HP; inversion HQ; subst. constructor; [by apply Forall_and | by apply IH].
Qed.

(** * Lemmas: map iteration *)

Section map_order.
Context `{MapOrder}.

Lemma elem_of_map_range `{Countable K} {A} (m : gmap K A) k a :
  (k, a) ∈ map_range m ↔ m !! k = Some a.
Proof. by rewrite map_range_perm, elem_of_map_to_list. Qed.

Lemma NoDup_fst_map_range `{Countable K} {A} (m : gmap K A) : NoDup (map_range m).*1.
Proof. rewrite map_range_perm. apply NoDup_fst_map_to_list. Qed.

Lemma Forall_map_range `{Countable K} {A} (m : gmap K A) (P : K * A → Prop) :
  Forall P (map_range m) ↔ ∀ k a, m !! k = Some a → P (k, a).
Proof.
  rewrite Forall_forall. split.
  - intros HP k a Hk. apply HP, elem_of_map_range, Hk.
  - intros HP [k a] Hin. apply HP, elem_of_map_range, Hin.
Qed.
End map_order.

(** * Lemmas: sorting and searching *)

Lemma sort_strings_perm l : sort_strings l ≡ₚ l.
Proof. apply merge_sort_Permutation. Qed.

Lemma sort_strings_sorted l : StronglySorted String.le (sort_strings l).
Proof. apply StronglySorted_merge_sort; apply _. Qed.

Lemma sort_strings_unique l1 l2 : l1 ≡ₚ l2 → sort_strings l1 = sort_strings l2.
Proof.
  intros Hp. apply (StronglySorted_unique String.le); try apply sort_strings_sorted.
  by rewrite !sort_strings_perm.
Qed.

Lemma sort_strings_id l : StronglySorted String.le l → sort_strings l = l.
Proof.
  intros. apply (StronglySorted_unique String.le); [apply sort_strings_sorted | done | apply sort_strings_perm].
Qed.

Lemma sorted_lookup_le l i j x y :
  StronglySorted String.le l → (i ≤ j)%nat → l !! i = Some x → l !! j = Some y → String.le x y.
Proof.
  intros Hs. revert i j. induction Hs as [|z l Hs IH Hz]; intros i j Hij Hx Hy; [done|].
  destruct i as [|i], j as [|j]; cbn in *; [naive_solver| |lia|].
  - injection Hx as ->. rewrite Forall_forall in Hz. apply Hz.
    apply list_elem_of_lookup. eauto.
  - apply (IH i j); [lia | done..].
Qed.

(** The binary search returns the first position holding a value not below [x]. *)
Lemma search_strings_loop_spec fuel l x i j :
  StronglySorted String.le l →
  (j - i < fuel)%nat → (i ≤ j ≤ length l)%nat →
  (∀ k y, (k < i)%nat → l !! k = Some y → ¬ String.le x y) →
  (∀ k y, (j ≤ k)%nat → l !! k = Some y → String.le x y) →
  let r := search_strings_loop fuel l x i j in
  (r ≤ length l)%nat ∧
  (∀ k y, (k < r)%nat → l !! k = Some y → ¬ String.le x y) ∧
  (∀ k y, (r ≤ k)%nat → l !! k = Some y → String.le x y).
Proof.
  intros Hs. revert i j. induction fuel as [|fuel IH]; intros i j Hfuel Hij Hlo Hhi; [lia|].
  cbn [search_strings_loop]. case_decide as Hlt.
  2:{ assert (i = j) as -> by lia. cbn. split; [lia | auto]. }
  pose proof (Nat.div_mod_eq (i + j) 2) as Hdm.
  pose proof (Nat.mod_upper_bound (i + j) 2 ltac:(lia)).
  set (h := ((i + j) / 2)%nat) in *.
  destruct (lookup_lt_is_Some_2 l h) as [z Hz]; [lia|].
  rewrite Hz. cbn [default from_option]. case_decide as Hx.
  - apply IH; [lia | lia | done |].
    intros k y Hk Hy. trans z; [done|]. by eapply (sorted_lookup_le l h k).
  - apply IH; [lia | lia | | done].
    intros k y Hk Hy Hxy. apply Hx. trans y; [done|].
    eapply (sorted_lookup_le l k h); eauto; lia.
Qed.

Lemma search_strings_spec l x :
  StronglySorted String.le l →
  (search_strings l x ≤ length l)%nat ∧
  (l !! search_strings l x = Some x ↔ x ∈ l).
Proof.
  intros Hs. destruct (search_strings_loop_spec (S (length l)) l x 0 (length l)) as (Hr & Hlo & Hhi);
    [done | lia | lia | lia | intros k y Hk Hy; apply lookup_lt_Some in Hy; lia |].
  unfold search_strings. set (r := search_strings_loop _ _ _ _ _) in *.
  split; [done|]. split; [intros; apply list_elem_of_lookup; eauto|].
  intros [k Hk]%list_elem_of_lookup.
  destruct (decide (k < r)%nat) as [Hkr|Hkr]; [by destruct (Hlo k x Hkr Hk)|].
  destruct (lookup_lt_is_Some_2 l r) as [z Hz]; [pose proof (lookup_lt_Some _ _ _ Hk); lia|].
  assert (x = z) as ->; [|done].
  apply (anti_symm String.le); [by apply (Hhi r)|].
  eapply (sorted_lookup_le l r k); eauto. lia.
Qed.

(** * Lemmas: machine integers *)

Lemma swrap_small z : min_int64 ≤ z ≤ max_int64 → swrap 64 z = z.
Proof.
  unfold swrap, wrap, min_int64, max_int64. intros Hz. destruct (decide (0 ≤ z)).
  - rewrite Z.mod_small by lia. rewrite decide_True by lia. done.
  - assert (z mod 2 ^ 64 = z + 2 ^ 64) as ->.
    { symmetry. apply (Z.mod_unique_pos _ _ (-1)); lia. }
    rewrite decide_False by lia. lia.
Qed.
Lemma swrap_bounds z : min_int64 ≤ swrap 64 z ≤ max_int64.
Proof.
  unfold swrap, wrap, min_int64, max_int64. pose proof (Z.mod_pos_bound z (2 ^ 64)) as Hb.
  cbv zeta. destruct (decide _); lia.
Qed.

(** Wrapping after every addition is wrapping once at the end. *)
Lemma swrap_mod z : swrap 64 z mod 2 ^ 64 = z mod 2 ^ 64.
Proof.
  unfold swrap, wrap. cbv zeta. destruct (decide _); [by rewrite Z.mod_mod by lia|].
  rewrite <- (Z.mod_add (z mod 2 ^ 64 - 2 ^ 64) 1 (2 ^ 64)) by lia.
  rewrite Z.mul_1_l, Z.sub_add. by rewrite Z.mod_mod by lia.
Qed.
Lemma swrap_congr x y : x mod 2 ^ 64 = y mod 2 ^ 64 → swrap 64 x = swrap 64 y.
Proof. unfold swrap, wrap. by intros ->. Qed.
Lemma swrap_add_l x y : swrap 64 (swrap 64 x + y) = swrap 64 (x + y).
Proof. apply swrap_congr. by rewrite Z.add_mod, swrap_mod, <- Z.add_mod by lia. Qed.
Lemma swrap_add_r x y : swrap 64 (x + swrap 64 y) = swrap 64 (x + y).
Proof. by rewrite Z.add_comm, swrap_add_l, Z.add_comm. Qed.
Lemma swrap_idem x : swrap 64 (swrap 64 x) = swrap 64 x.
Proof. apply swrap_congr, swrap_mod. Qed.

Lemma mfold_ext {E A B} (f g : A → B → result E A) a l :
  (∀ a b, b ∈ l → f a b = g a b) → mfold f a l = mfold g a l.
Proof.
  revert a. induction l as [|b l IH]; intros a Hfg; [done|]. cbn [mfold].
  rewrite Hfg by left. destruct (g a b); cbn; [|done]. apply IH. intros ???. apply Hfg. by right.
Qed.

Lemma mmap_err {E A B} (f : A → result E B) l e :
  mmap f l = Err e → ∃ a, a ∈ l ∧ f a = Err e.
Proof.
  induction l as [|a l IH]; cbn [mmap]; [done|]. destruct (f a) as [b|] eqn:Ha; cbn [mbind result_bind].
  - destruct (mmap f l); [done|]. intros [= ->]. destruct IH as (x & ? & ?); [done|].
    exists x. split; [by right | done].
  - intros [= ->]. exists a. split; [left | done].
Qed.
Lemma bind_err {E A B} (m : result E A) (k : A → result E B) e :
  mbind k m = Err e → m = Err e ∨ ∃ a, m = Ok a ∧ k a = Err e.
Proof. destruct m; cbn; [eauto | intros [= ->]; by left]. Qed.

(** A key without duplicates identifies the element. *)
Lemma NoDup_fmap_unique {A B} (f : A → B) l x y :
  NoDup (f <$> l) → x ∈ l → y ∈ l → f x = f y → x = y.
Proof.
  induction l as [|z l IH]; cbn; [by intros _ ?%elem_of_nil|].
  intros [Hnot Hnd]%NoDup_cons. rewrite !elem_of_cons.
  intros [->|Hx] [->|Hy] E; [done | | | by apply IH]; destruct Hnot.
  - rewrite E. by apply list_elem_of_fmap_2.
  - rewrite <- E. by apply list_elem_of_fmap_2.
Qed.

Lemma filter_ext_in {A} (P Q : A → Prop) `{∀ x, Decision (P x), ∀ x, Decision (Q x)} (l : list A) :
  (∀ x, x ∈ l → (P x ↔ Q x)) → filter P l = filter Q l.
Proof.
  induction l as [|x l IH]; intros HPQ; [done|]. rewrite !filter_cons, IH by (intros; apply HPQ; by right).
  pose proof (HPQ x ltac:(by left)). case_decide; case_decide; tauto.
Qed.
