(* ===== verification/GoStrings.v ===== *)
(** Go strings as byte sequences, and the functions of the packages
    [strings], [strconv] and [math/big] the program calls.  A Go string is a
    [string] (a list of bytes), a [[]byte] is a [list ascii].

    Case mapping is Go's restricted to what can produce an ASCII letter: the
    ASCII letters, and the four non-ASCII runes whose lower- or upper-case
    form is ASCII.  Every call site compares the result with ASCII text, for
    which this is exact; other non-ASCII letters are left as they are. *)
From Stdlib Require Export Ascii.
From stdpp Require Import pretty.
From S2P Require Import Prelude.

Abbreviation byte := ascii.
Abbreviation bytes := (list ascii).

Definition byte_val (c : byte) : Z := Z.of_N (N_of_ascii c).
Definition byte_of (z : Z) : byte := ascii_of_N (Z.to_N (z mod 256)).
Definition bytes_of (s : string) : bytes := String.list_ascii_of_string s.
Definition string_of (b : bytes) : string := String.string_of_list_ascii b.

(** * Package strings *)

Fixpoint HasPrefix (s p : string) {struct p} : bool :=
  match p, s with
  | EmptyString, _ => true
  | String c p, String d s => bool_decide (c = d) && HasPrefix s p
  | String _ _, EmptyString => false
  end.

Fixpoint TrimPrefix_go (s p : string) {struct p} : option string :=
  match p, s with
  | EmptyString, _ => Some s
  | String c p, String d s => if decide (c = d) then TrimPrefix_go s p else None
  | String _ _, EmptyString => None
  end.
Definition TrimPrefix (s p : string) : string := default s (TrimPrefix_go s p).

Definition reverse (s : string) : string := string_of (rev (bytes_of s)).
Definition HasSuffix (s p : string) : bool := HasPrefix (reverse s) (reverse p).
Definition TrimSuffix (s p : string) : string :=
  if HasSuffix s p then reverse (TrimPrefix (reverse s) (reverse p)) else s.

Fixpoint take_string (n : nat) (s : string) : string :=
  match n, s with
  | S n, String c s => String c (take_string n s)
  | _, _ => ""
  end.
Fixpoint drop_string (n : nat) (s : string) : string :=
  match n, s with
  | S n, String _ s => drop_string n s
  | _, _ => s
  end.

Fixpoint IndexFunc (f : byte → bool) (s : string) : option nat :=
  match s with
  | EmptyString => None
  | String c s => if f c then Some 0%nat else S <$> IndexFunc f s
  end.
Definition IndexByte (s : string) (c : byte) : option nat :=
  IndexFunc (λ d, bool_decide (c = d)) s.
Definition IndexAny (s : string) (cs : list byte) : option nat :=
  IndexFunc (λ d, bool_decide (d ∈ cs)) s.
Definition ContainsByte (s : string) (c : byte) : bool :=
  match IndexByte s c with Some _ => true | None => false end.

(** [strings.Index]: the first position at which [p] occurs. *)
Fixpoint Index (s p : string) : option nat :=
  if HasPrefix s p then Some 0%nat else
  match s with
  | EmptyString => None
  | String _ s => S <$> Index s p
  end.

(** [strings.Cut] at a one-byte separator. *)
Definition Cut (s : string) (c : byte) : string * string * bool :=
  match IndexByte s c with
  | Some i => (take_string i s, drop_string (S i) s, true)
  | None => (s, "", false)
  end.

Fixpoint TrimLeftFunc (f : byte → bool) (s : string) : string :=
  match s with
  | String c s' => if f c then TrimLeftFunc f s' else s
  | EmptyString => ""
  end.
Definition TrimRightFunc (f : byte → bool) (s : string) : string :=
  reverse (TrimLeftFunc f (reverse s)).
Definition TrimFunc (f : byte → bool) (s : string) : string :=
  TrimRightFunc f (TrimLeftFunc f s).

(** [strings.ReplaceAll(s, c, "")] for one byte. *)
Fixpoint RemoveByte (s : string) (c : byte) : string :=
  match s with
  | EmptyString => ""
  | String d s => if decide (c = d) then RemoveByte s c else String d (RemoveByte s c)
  end.

Fixpoint Repeat (s : string) (n : nat) : string :=
  match n with O => "" | S n => s +:+ Repeat s n end.

Fixpoint Join (l : list string) (sep : string) : string :=
  match l with
  | [] => ""
  | [s] => s
  | s :: l => s +:+ sep +:+ Join l sep
  end.

(** The UTF-8 encodings of the runes [unicode.IsSpace] accepts. *)
Definition space_encodings : list (list N) :=
  [[9]; [10]; [11]; [12]; [13]; [32]; [194; 133]; [194; 160]; [225; 154; 128];
   [226; 128; 128]; [226; 128; 129]; [226; 128; 130]; [226; 128; 131];
   [226; 128; 132]; [226; 128; 133]; [226; 128; 134]; [226; 128; 135];
   [226; 128; 136]; [226; 128; 137]; [226; 128; 138]; [226; 128; 168];
   [226; 128; 169]; [226; 128; 175]; [226; 129; 159]; [227; 128; 128]]%N.
Definition spaces : list string := (λ l, string_of (ascii_of_N <$> l)) <$> space_encodings.
Definition rev_spaces : list string := reverse <$> spaces.

(** Remove one leading encoding of [encs], if there is one. *)
Fixpoint strip_one (encs : list string) (s : string) : option string :=
  match encs with
  | [] => None
  | e :: encs => match TrimPrefix_go s e with Some r => Some r | None => strip_one encs s end
  end.
Fixpoint strip_all (encs : list string) (fuel : nat) (s : string) : string :=
  match fuel with
  | O => s
  | S fuel => match strip_one encs s with Some r => strip_all encs fuel r | None => s end
  end.
Definition TrimSpace (s : string) : string :=
  let l := strip_all spaces (String.length s) s in
  reverse (strip_all rev_spaces (String.length l) (reverse l)).

(** [strings.Fields]: maximal runs of bytes outside space runes. *)
Fixpoint Fields_go (fuel : nat) (cur : string) (s : string) : list string :=
  let flush := if decide (cur = "") then [] else [reverse cur] in
  match fuel with
  | O => flush
  | S fuel =>
    match s with
    | EmptyString => flush
    | String c s' =>
      match strip_one spaces s with
      | Some r => flush ++ Fields_go fuel "" r
      | None => Fields_go fuel (String c cur) s'
      end
    end
  end.
Definition Fields (s : string) : list string := Fields_go (S (String.length s)) "" s.

Definition is_upper (c : byte) : bool := (65 <=? byte_val c) && (byte_val c <=? 90).
Definition is_lower (c : byte) : bool := (97 <=? byte_val c) && (byte_val c <=? 122).
Definition is_digit (c : byte) : bool := (48 <=? byte_val c) && (byte_val c <=? 57).
Definition lower_byte (c : byte) : byte := if is_upper c then byte_of (byte_val c + 32) else c.
Definition upper_byte (c : byte) : byte := if is_lower c then byte_of (byte_val c - 32) else c.

(** U+212A (Kelvin sign) and U+0130 lower to "k" and "i"; U+0131 and U+017F
    (long s) upper to "I" and "S"; U+212A and U+017F fold to "k" and "s". *)
Definition kelvin : string := string_of (ascii_of_N <$> [226; 132; 170]%N).
Definition dotted_I : string := string_of (ascii_of_N <$> [196; 176]%N).
Definition dotless_i : string := string_of (ascii_of_N <$> [196; 177]%N).
Definition long_s : string := string_of (ascii_of_N <$> [197; 191]%N).

Fixpoint map_runes (special : list (string * byte)) (f : byte → byte) (fuel : nat) (s : string) : string :=
  match fuel, s with
  | S fuel, String c s' =>
    match list_find (λ p, HasPrefix s p.1) special with
    | Some (_, (p, d)) => String d (map_runes special f fuel (drop_string (String.length p) s))
    | None => String (f c) (map_runes special f fuel s')
    end
  | _, _ => ""
  end.
Definition ToLower (s : string) : string :=
  map_runes [(kelvin, "k"%char); (dotted_I, "i"%char)] lower_byte (String.length s) s.
Definition ToUpper (s : string) : string :=
  map_runes [(dotless_i, "I"%char); (long_s, "S"%char)] upper_byte (String.length s) s.
Definition fold_case (s : string) : string :=
  map_runes [(kelvin, "k"%char); (long_s, "s"%char)] lower_byte (String.length s) s.
Definition EqualFold (s t : string) : bool := bool_decide (fold_case s = fold_case t).

(** * Packages strconv and math/big *)

Definition digit_val (c : byte) : option Z :=
  if is_digit c then Some (byte_val c - 48) else None.

Fixpoint digits_val (acc : Z) (s : string) : option Z :=
  match s with
  | EmptyString => Some acc
  | String c s => d ← digit_val c; digits_val (10 * acc + d) s
  end.

Definition unsigned_decimal (s : string) : option Z :=
  match s with EmptyString => None | _ => digits_val 0 s end.

(** [new(big.Int).SetString(s, 10)]: an optional sign and at least one digit. *)
Definition SetString10 (s : string) : option Z :=
  match s with
  | String "+" s => unsigned_decimal s
  | String "-" s => Z.opp <$> unsigned_decimal s
  | _ => unsigned_decimal s
  end.

(** [strconv.ParseInt(s, 10, 64)], and [strconv.Atoi] on a 64-bit platform. *)
Definition ParseInt (s : string) : option Z :=
  z ← SetString10 s;
  if decide (min_int64 ≤ z ≤ max_int64) then Some z else None.
Definition Atoi := ParseInt.

Definition FormatInt (z : Z) : string := pretty z.
Definition FormatBool (b : bool) : string := if b then "true" else "false".

(** [strconv.ParseBool] *)
Definition ParseBool (s : string) : option bool :=
  if decide (s ∈ ["1"; "t"; "T"; "true"; "TRUE"; "True"]) then Some true else
  if decide (s ∈ ["0"; "f"; "F"; "false"; "FALSE"; "False"]) then Some false else None.

(** * Big-endian integers, package encoding/binary *)

Definition be_val (b : bytes) : Z := fold_left (λ acc c, acc * 256 + byte_val c) b 0.
Fixpoint be_bytes (n : nat) (z : Z) : bytes :=
  match n with
  | O => []
  | S n => byte_of (z / 256 ^ Z.of_nat n) :: be_bytes n z
  end.

(** [utf8.Valid] *)
Definition byte_in (lo hi : Z) (c : byte) : bool := (lo <=? byte_val c) && (byte_val c <=? hi).
Definition cont := byte_in 128 191.
Fixpoint utf8_valid (b : bytes) : bool :=
  match b with
  | [] => true
  | c0 :: r0 =>
    if byte_in 0 127 c0 then utf8_valid r0 else
    match r0 with
    | [] => false
    | c1 :: r1 =>
      if byte_in 194 223 c0 then cont c1 && utf8_valid r1 else
      match r1 with
      | [] => false
      | c2 :: r2 =>
        if byte_in 224 239 c0 then
          (if byte_in 224 224 c0 then byte_in 160 191 c1
           else if byte_in 237 237 c0 then byte_in 128 159 c1 else cont c1)
          && cont c2 && utf8_valid r2
        else
        match r2 with
        | [] => false
        | c3 :: r3 =>
          byte_in 240 244 c0 &&
          (if byte_in 240 240 c0 then byte_in 144 191 c1
           else if byte_in 244 244 c0 then byte_in 128 143 c1 else cont c1)
          && cont c2 && cont c3 && utf8_valid r3
        end
      end
    end
  end.

(** * Hexadecimal digits *)

Definition hex_digit (z : Z) : byte := if z <? 10 then byte_of (48 + z) else byte_of (87 + z).
Definition hex_byte (c : byte) : string :=
  String (hex_digit (byte_val c / 16)) (String (hex_digit (byte_val c mod 16)) "").
Fixpoint EncodeHex (b : bytes) : string :=
  match b with [] => "" | c :: b => hex_byte c +:+ EncodeHex b end.

(** * Lemmas *)

Lemma byte_val_bounds c : 0 ≤ byte_val c < 256.
Proof. unfold byte_val. pose proof (N_ascii_bounded c). lia. Qed.

Lemma byte_of_val c : byte_of (byte_val c) = c.
Proof.
  unfold byte_of. rewrite Z.mod_small by apply byte_val_bounds.
  unfold byte_val. by rewrite N2Z.id, ascii_N_embedding.
Qed.

Lemma byte_val_of z : byte_val (byte_of z) = z mod 256.
Proof.
  unfold byte_val, byte_of. pose proof (Z.mod_pos_bound z 256 ltac:(lia)).
  rewrite N_ascii_embedding by lia. lia.
Qed.

(** Big-endian integers. *)
Lemma be_val_acc b acc : fold_left (λ acc c, acc * 256 + byte_val c) b acc = acc * 256 ^ Z.of_nat (length b) + be_val b.
Proof.
  unfold be_val. revert acc. induction b as [|c b IH]; intros acc; cbn [fold_left length]; [lia|].
  rewrite IH, (IH (0 * 256 + _)), Nat2Z.inj_succ, Z.pow_succ_r by lia. ring.
Qed.
Lemma be_val_cons c b : be_val (c :: b) = byte_val c * 256 ^ Z.of_nat (length b) + be_val b.
Proof. unfold be_val at 1. cbn [fold_left]. rewrite be_val_acc. ring. Qed.
Lemma be_val_bounds b : 0 ≤ be_val b < 256 ^ Z.of_nat (length b).
Proof.
  induction b as [|c b IH]; [done|]. rewrite be_val_cons. cbn [length].
  rewrite Nat2Z.inj_succ, Z.pow_succ_r by lia. pose proof (byte_val_bounds c). nia.
Qed.
Lemma be_bytes_add n k z : be_bytes n (k * 256 ^ Z.of_nat n + z) = be_bytes n z.
Proof.
  revert k. induction n as [|n IH]; intros k; [done|]. cbn [be_bytes].
  rewrite Nat2Z.inj_succ, Z.pow_succ_r by lia.
  replace (k * (256 * 256 ^ Z.of_nat n) + z) with ((k * 256) * 256 ^ Z.of_nat n + z) by ring. rewrite IH. f_equal.
  rewrite Z.div_add_l by lia. unfold byte_of. by rewrite Z.add_comm, Z.mod_add by lia.
Qed.
(** Every block of bytes is the encoding of its value. *)
Lemma be_bytes_val b : be_bytes (length b) (be_val b) = b.
Proof.
  induction b as [|c b IH]; [done|]. cbn [length be_bytes]. rewrite be_val_cons, be_bytes_add, IH.
  pose proof (be_val_bounds b). rewrite Z.div_add_l, (Z.div_small (be_val b)), Z.add_0_r by lia. by rewrite byte_of_val.
Qed.
Lemma be_bytes_of n b z : length b = n → be_val b = z → b = be_bytes n z.
Proof. intros <- <-. by rewrite be_bytes_val. Qed.

Lemma byte_val_inj c d : byte_val c = byte_val d → c = d.
Proof. intros H. by rewrite <- (byte_of_val c), <- (byte_of_val d), H. Qed.

Lemma string_of_bytes_of s : string_of (bytes_of s) = s.
Proof. apply String.string_of_list_ascii_of_string. Qed.
Lemma bytes_of_string_of b : bytes_of (string_of b) = b.
Proof. apply String.list_ascii_of_string_of_list_ascii. Qed.
Lemma bytes_of_app s t : bytes_of (s +:+ t) = bytes_of s ++ bytes_of t.
Proof. induction s as [|c s IH]; [done|]. change (c :: bytes_of (s +:+ t) = (c :: bytes_of s) ++ bytes_of t). by rewrite IH. Qed.
#[export] Instance bytes_of_inj : Inj (=) (=) bytes_of.
Proof. intros s t H. by rewrite <- (string_of_bytes_of s), <- (string_of_bytes_of t), H. Qed.
#[export] Instance string_of_inj : Inj (=) (=) string_of.
Proof. intros s t H. by rewrite <- (bytes_of_string_of s), <- (bytes_of_string_of t), H. Qed.
Lemma string_of_app b c : string_of (b ++ c) = string_of b +:+ string_of c.
Proof. apply (inj bytes_of). by rewrite bytes_of_app, !bytes_of_string_of. Qed.
Lemma length_bytes_of s : length (bytes_of s) = String.length s.
Proof. induction s; cbn; auto. Qed.
Lemma app_string_assoc s t u : (s +:+ t) +:+ u = s +:+ t +:+ u.
Proof. apply (inj bytes_of). rewrite !bytes_of_app. by rewrite app_assoc. Qed.
Lemma app_string_nil_r s : s +:+ "" = s.
Proof. apply (inj bytes_of). by rewrite bytes_of_app, app_nil_r. Qed.

Lemma app_string_nil_l s : "" +:+ s = s.
Proof. done. Qed.
Lemma app_string_cons c s t : String c s +:+ t = String c (s +:+ t).
Proof. done. Qed.

Lemma reverse_involutive s : reverse (reverse s) = s.
Proof. unfold reverse. by rewrite bytes_of_string_of, rev_involutive, string_of_bytes_of. Qed.

Lemma HasPrefix_spec s p : HasPrefix s p = true ↔ ∃ t, s = p +:+ t.
Proof.
  revert s. induction p as [|c p IH]; intros s; cbn.
  - split; [by exists s | done].
  - destruct s as [|d s]; [split; [done | intros [t ?]; done]|].
    rewrite andb_true_iff, bool_decide_eq_true, IH. split.
    + intros [-> [t ->]]. by exists t.
    + intros [t [= -> ->]]. eauto.
Qed.

Lemma ContainsByte_spec s c : ContainsByte s c = true ↔ c ∈ bytes_of s.
Proof.
  unfold ContainsByte, IndexByte. induction s as [|d s IH].
  - cbn. split; [done | by intros ?%elem_of_nil].
  - change (bytes_of (String d s)) with (d :: bytes_of s). rewrite elem_of_cons, <- IH.
    cbn. case_bool_decide as Hc; [naive_solver|].
    destruct (IndexFunc _ s); cbn; naive_solver.
Qed.

(** Joining with a separator byte that no element contains is injective on
    lists of the same length. *)
Lemma app_sep_inj c (s1 s2 t1 t2 : string) :
  c ∉ bytes_of s1 → c ∉ bytes_of s2 →
  s1 +:+ String c t1 = s2 +:+ String c t2 → s1 = s2 ∧ t1 = t2.
Proof.
  revert s2. induction s1 as [|d s1 IH]; intros [|e s2] H1 H2 Heq;
    rewrite ?app_string_cons, ?app_string_nil_l in Heq.
  - by injection Heq as ->.
  - injection Heq as -> Heq. destruct H2. by left.
  - injection Heq as -> Heq. destruct H1. by left.
  - injection Heq as -> Heq.
    change (bytes_of (String e s1)) with (e :: bytes_of s1) in *.
    change (bytes_of (String e s2)) with (e :: bytes_of s2) in *.
    destruct (IH s2) as [-> ->]; [set_solver | set_solver | done | done].
Qed.

Lemma Join_inj c (l1 l2 : list string) :
  length l1 = length l2 →
  Forall (λ s, c ∉ bytes_of s) l1 → Forall (λ s, c ∉ bytes_of s) l2 →
  Join l1 (String c "") = Join l2 (String c "") → l1 = l2.
Proof.
  revert l2. induction l1 as [|s1 l1 IH]; intros [|s2 l2] Hlen H1 H2; cbn; try done.
  apply Forall_cons in H1 as [Hs1 H1], H2 as [Hs2 H2]. injection Hlen as Hlen.
  destruct l1 as [|t1 l1], l2 as [|t2 l2]; try done; [by intros ->|].
  intros Heq. apply app_sep_inj in Heq as [-> Heq]; [|done..]. f_equal. by apply IH.
Qed.
