(* ===== verification/GoNumbers.v ===== *)
(** Facts about Go strings read as numbers: cutting a string at a byte, digit
    strings and their value, and white-space trimming of ASCII text. *)
From stdpp Require Import pretty.
From S2P Require Import Prelude.
From S2P Require Import GoStrings.

(** * Cutting strings *)

Definition all_bytes (P : byte → bool) (s : string) : Prop := Forall (λ c, P c = true) (bytes_of s).

Lemma all_bytes_nil P : all_bytes P "".
Proof. by apply Forall_nil. Qed.
Lemma all_bytes_cons P c s : all_bytes P (String c s) ↔ P c = true ∧ all_bytes P s.
Proof. unfold all_bytes. change (bytes_of (String c s)) with (c :: bytes_of s). by rewrite Forall_cons. Qed.
Lemma all_bytes_app P s t : all_bytes P (s +:+ t) ↔ all_bytes P s ∧ all_bytes P t.
Proof. unfold all_bytes. by rewrite bytes_of_app, Forall_app. Qed.
Lemma all_bytes_forallb P s : forallb P (bytes_of s) = true ↔ all_bytes P s.
Proof. unfold all_bytes. induction (bytes_of s); cbn; [naive_solver|]. rewrite andb_true_iff, Forall_cons. naive_solver. Qed.
Lemma all_bytes_impl (P Q : byte → bool) s :
  (∀ c, P c = true → Q c = true) → all_bytes P s → all_bytes Q s.
Proof. intros HPQ Hs. exact (Forall_impl _ _ _ Hs HPQ). Qed.
#[export] Hint Resolve all_bytes_nil : hamster.

Lemma length_app_string s t : String.length (s +:+ t) = (String.length s + String.length t)%nat.
Proof. by rewrite <- !length_bytes_of, bytes_of_app, length_app. Qed.
Lemma length_cons_string c s : String.length (String c s) = S (String.length s).
Proof. done. Qed.
Lemma length_Repeat_byte c n : String.length (Repeat (String c "") n) = n.
Proof. induction n as [|n IH]; [done|]. cbn [Repeat]. rewrite length_app_string, IH. done. Qed.
Lemma bytes_of_Repeat c n : bytes_of (Repeat (String c "") n) = replicate n c.
Proof. induction n as [|n IH]; [done|]. cbn [Repeat]. by rewrite bytes_of_app, IH. Qed.
Lemma Repeat_snoc s n : Repeat s (S n) = Repeat s n +:+ s.
Proof.
  induction n as [|n IH]; [cbn; by rewrite app_string_nil_r|].
  change (Repeat s (S (S n))) with (s +:+ Repeat s (S n)). rewrite IH at 1. cbn [Repeat].
  by rewrite app_string_assoc.
Qed.

Lemma IndexFunc_None f s : IndexFunc f s = None ↔ all_bytes (λ c, negb (f c)) s.
Proof.
  induction s as [|c s IH]; [split; eauto with hamster|].
  rewrite all_bytes_cons, <- IH. cbn. destruct (f c); cbn; [naive_solver|].
  destruct (IndexFunc f s); cbn; naive_solver.
Qed.
Lemma IndexFunc_app f s c t :
  all_bytes (λ c, negb (f c)) s → f c = true →
  IndexFunc f (s +:+ String c t) = Some (String.length s).
Proof.
  intros Hs Hc. induction s as [|d s IH].
  - rewrite app_string_nil_l. cbn. by rewrite Hc.
  - apply all_bytes_cons in Hs as [Hd Hs]. rewrite app_string_cons. cbn.
    rewrite IH by done. by destruct (f d).
Qed.
Lemma IndexFunc_split f s i :
  IndexFunc f s = Some i →
  ∃ t c u, s = t +:+ String c u ∧ i = String.length t ∧ f c = true ∧ all_bytes (λ c, negb (f c)) t.
Proof.
  revert i. induction s as [|d s IH]; intros i; cbn; [done|]. destruct (f d) eqn:Hd.
  - intros [= <-]. exists "", d, s. eauto with hamster.
  - destruct (IndexFunc f s) as [j|]; [|done]. cbn. intros [= <-].
    destruct (IH j eq_refl) as (t & c & u & -> & -> & Hc & Ht).
    exists (String d t), c, u. split_and!; [done..|]. apply all_bytes_cons. by rewrite Hd.
Qed.

Lemma take_string_app s t : take_string (String.length s) (s +:+ t) = s.
Proof. induction s as [|c s IH]; [by destruct t|]. rewrite app_string_cons. cbn. by rewrite IH. Qed.
Lemma drop_string_app s t : drop_string (String.length s) (s +:+ t) = t.
Proof. induction s as [|c s IH]; [done|]. rewrite app_string_cons. cbn. done. Qed.
Lemma drop_string_app_S s c t : drop_string (S (String.length s)) (s +:+ String c t) = t.
Proof. induction s as [|d s IH]; [done|]. rewrite app_string_cons. cbn [String.length drop_string]. done. Qed.
Lemma take_drop_string n s : take_string n s +:+ drop_string n s = s.
Proof.
  revert s. induction n as [|n IH]; intros [|c s]; try done.
  cbn [take_string drop_string]. by rewrite app_string_cons, IH.
Qed.
Lemma length_take_string n s : (n ≤ String.length s)%nat → String.length (take_string n s) = n.
Proof. revert s. induction n as [|n IH]; intros [|c s]; cbn; intros; try lia. rewrite IH; lia. Qed.
Lemma length_drop_string n s : String.length (drop_string n s) = (String.length s - n)%nat.
Proof. revert s. induction n as [|n IH]; intros [|c s]; cbn; try done. Qed.

Lemma bytes_of_reverse s : bytes_of (reverse s) = rev (bytes_of s).
Proof. apply bytes_of_string_of. Qed.
Lemma reverse_app s t : reverse (s +:+ t) = reverse t +:+ reverse s.
Proof. apply (inj bytes_of). by rewrite bytes_of_app, !bytes_of_reverse, bytes_of_app, rev_app_distr. Qed.
Lemma reverse_one c : reverse (String c "") = String c "".
Proof. done. Qed.
Lemma length_reverse s : String.length (reverse s) = String.length s.
Proof. rewrite <- !length_bytes_of, bytes_of_reverse. apply length_rev. Qed.
Lemma string_snoc_cases s : s = "" ∨ ∃ t c, s = t +:+ String c "".
Proof.
  rewrite <- (reverse_involutive s). destruct (reverse s) as [|c t]; [by left|]. right.
  exists (reverse t), c. change (String c t) with (String c "" +:+ t). by rewrite reverse_app.
Qed.

Lemma HasSuffix_snoc s c d : HasSuffix (s +:+ String c "") (String d "") = bool_decide (d = c).
Proof.
  unfold HasSuffix. rewrite reverse_app, !reverse_one.
  change (HasPrefix (String c (reverse s)) (String d "") = bool_decide (d = c)). cbn.
  by rewrite andb_true_r.
Qed.
Lemma TrimSuffix_snoc s c : TrimSuffix (s +:+ String c "") (String c "") = s.
Proof.
  unfold TrimSuffix. rewrite HasSuffix_snoc, bool_decide_eq_true_2 by done.
  rewrite reverse_app, !reverse_one. unfold TrimPrefix.
  change (reverse (default (String c (reverse s)) (if decide (c = c) then Some (reverse s) else None)) = s).
  rewrite decide_True by done. apply reverse_involutive.
Qed.

Lemma TrimLeftFunc_split f s :
  ∃ t, s = t +:+ TrimLeftFunc f s ∧ all_bytes f t ∧
    match TrimLeftFunc f s with EmptyString => True | String c _ => f c = false end.
Proof.
  induction s as [|c s (t & Hs & Ht & Hh)]; [exists ""; split_and!; [done | apply all_bytes_nil | done]|].
  cbn. destruct (f c) eqn:Hc.
  - exists (String c t). rewrite app_string_cons, <- Hs, all_bytes_cons. done.
  - exists "". split_and!; [done | apply all_bytes_nil | done].
Qed.

(** * Digit strings *)

Definition num_step (acc : Z) (c : byte) : Z := 10 * acc + (byte_val c - 48).
(** The value of a string of decimal digits. *)
Definition num (s : string) : Z := fold_left num_step (bytes_of s) 0.

Lemma is_digit_val c : is_digit c = true ↔ 48 ≤ byte_val c ≤ 57.
Proof. unfold is_digit. rewrite andb_true_iff, !Z.leb_le. done. Qed.

Lemma num_fold acc s :
  fold_left num_step (bytes_of s) acc = acc * 10 ^ Z.of_nat (String.length s) + num s.
Proof.
  unfold num. rewrite <- length_bytes_of. generalize (bytes_of s) as l. clear s. intros l.
  revert acc. induction l as [|c l IH]; intros acc; cbn [fold_left length]; [cbn; lia|].
  rewrite IH. rewrite (IH (num_step 0 c)). rewrite Nat2Z.inj_succ, Z.pow_succ_r by lia.
  unfold num_step. lia.
Qed.
Lemma num_app s t : num (s +:+ t) = num s * 10 ^ Z.of_nat (String.length t) + num t.
Proof. unfold num at 1. rewrite bytes_of_app, fold_left_app. apply num_fold. Qed.
Lemma num_cons c s : num (String c s) = (byte_val c - 48) * 10 ^ Z.of_nat (String.length s) + num s.
Proof. change (String c s) with (String c "" +:+ s). rewrite num_app.
  replace (num (String c "")) with (byte_val c - 48) by (unfold num; cbn; unfold num_step; lia). done. Qed.
Lemma num_zeros n : num (Repeat "0" n) = 0.
Proof.
  induction n as [|n IH]; [done|]. cbn [Repeat]. rewrite num_app, IH.
  replace (num "0") with 0 by reflexivity. lia.
Qed.
Lemma all_zeros s : all_bytes (λ c, bool_decide (c = "0"%char)) s → s = Repeat "0" (String.length s).
Proof.
  induction s as [|c s IH]; [done|]. rewrite all_bytes_cons, bool_decide_eq_true.
  intros [-> Hs]. change (String "0" s = String "0" (Repeat "0" (String.length s))).
  by rewrite <- IH.
Qed.

Lemma num_bounds s : all_bytes is_digit s → 0 ≤ num s < 10 ^ Z.of_nat (String.length s).
Proof.
  induction s as [|c s IH]; [done|]. intros [Hc%is_digit_val Hs%IH]%all_bytes_cons.
  rewrite num_cons, length_cons_string, Nat2Z.inj_succ, Z.pow_succ_r by lia. nia.
Qed.
Lemma num_inj s t :
  all_bytes is_digit s → all_bytes is_digit t → String.length s = String.length t →
  num s = num t → s = t.
Proof.
  revert t. induction s as [|c s IH]; intros [|d t] Hs Ht Hlen Heq; try done.
  apply all_bytes_cons in Hs as [Hc Hs], Ht as [Hd Ht]. injection Hlen as Hlen.
  rewrite !num_cons, Hlen in Heq. apply num_bounds in Hs as Bs, Ht as Bt. rewrite Hlen in Bs.
  assert (byte_val c = byte_val d) as Hcd by nia.
  apply byte_val_inj in Hcd as ->. f_equal. apply IH; [done..|]. lia.
Qed.
Lemma num_pos c s :
  is_digit c = true → c ≠ "0"%char → all_bytes is_digit s →
  10 ^ Z.of_nat (String.length s) ≤ num (String c s).
Proof.
  intros Hc H0 Hs%num_bounds. rewrite num_cons. apply is_digit_val in Hc.
  assert (byte_val c ≠ 48) by (intros E; apply H0, byte_val_inj; rewrite E; done). nia.
Qed.

Lemma digits_val_num acc s :
  all_bytes is_digit s → digits_val acc s = Some (acc * 10 ^ Z.of_nat (String.length s) + num s).
Proof.
  revert acc. induction s as [|c s IH]; intros acc Hs; [cbn; f_equal; unfold num; cbn; lia|].
  apply all_bytes_cons in Hs as [Hc Hs]. cbn [digits_val]. unfold digit_val. rewrite Hc.
  cbn [mbind option_bind]. rewrite IH by done. f_equal.
  rewrite num_cons, length_cons_string, Nat2Z.inj_succ, Z.pow_succ_r by lia. lia.
Qed.
Lemma digits_val_Some acc s z : digits_val acc s = Some z → all_bytes is_digit s.
Proof.
  revert acc. induction s as [|c s IH]; intros acc; [eauto with hamster|].
  cbn [digits_val]. unfold digit_val. destruct (is_digit c) eqn:Hc; [|done]. cbn.
  intros Hs%IH. by apply all_bytes_cons.
Qed.
Lemma unsigned_decimal_spec s z :
  unsigned_decimal s = Some z ↔ s ≠ "" ∧ all_bytes is_digit s ∧ z = num s.
Proof.
  unfold unsigned_decimal. destruct s as [|c s]; [naive_solver|]. split.
  - intros H. pose proof (digits_val_Some _ _ _ H) as Hd. rewrite digits_val_num in H by done.
    injection H as <-. split_and!; [done..|lia].
  - intros (_ & Hd & ->). rewrite digits_val_num by done. f_equal.
Qed.

(** * Trimming white space *)

(** Bytes that neither start nor end the encoding of a space. *)
Definition plain (c : byte) : bool := (33 <=? byte_val c) && (byte_val c <=? 126).

Lemma strip_one_plain encs c s :
  Forall (λ e, match e with EmptyString => False | String d _ => plain d = false end) encs →
  plain c = true → strip_one encs (String c s) = None.
Proof.
  intros H Hc. induction H as [|e encs He _ IH]; [done|]. cbn.
  destruct e as [|d e]; [done|]. cbn. rewrite decide_False by (intros ->; congruence). done.
Qed.
Lemma spaces_not_plain :
  Forall (λ e, match e with EmptyString => False | String d _ => plain d = false end) spaces ∧
  Forall (λ e, match e with EmptyString => False | String d _ => plain d = false end) rev_spaces.
Proof. split; repeat (apply Forall_cons; split; [reflexivity|]); apply Forall_nil; exact I. Qed.

Lemma strip_all_plain encs n c s :
  strip_one encs (String c s) = None → strip_all encs n (String c s) = String c s.
Proof. destruct n; cbn [strip_all]; [done|]. by intros ->. Qed.

Lemma TrimSpace_plain s : all_bytes plain s → TrimSpace s = s.
Proof.
  intros Hs. unfold TrimSpace. destruct spaces_not_plain as [H1 H2].
  assert (strip_all spaces (String.length s) s = s) as ->.
  { destruct s as [|c s]; [done|]. apply all_bytes_cons in Hs as [Hc _].
    apply strip_all_plain, strip_one_plain; done. }
  destruct (string_snoc_cases s) as [->|(t & c & ->)]; [done|].
  apply all_bytes_app in Hs as [_ [Hc _]%all_bytes_cons].
  rewrite reverse_app, reverse_one, app_string_cons, app_string_nil_l.
  rewrite strip_all_plain by (apply strip_one_plain; done).
  change (String c (reverse t)) with (String c "" +:+ reverse t).
  by rewrite reverse_app, reverse_involutive.
Qed.

Lemma TrimPrefix_go_split s p r : TrimPrefix_go s p = Some r → s = p +:+ r.
Proof.
  revert s. induction p as [|c p IH]; intros s; cbn; [by intros [= ->]|].
  destruct s as [|d s]; [done|]. destruct (decide (c = d)) as [->|]; [|done].
  intros ->%IH. done.
Qed.
Lemma strip_one_length encs s r : strip_one encs s = Some r → (String.length r ≤ String.length s)%nat.
Proof.
  induction encs as [|e encs IH]; cbn; [done|].
  destruct (TrimPrefix_go s e) as [r'|] eqn:E; [|done]. intros [= <-].
  apply TrimPrefix_go_split in E as ->. rewrite length_app_string. lia.
Qed.
Lemma strip_all_length encs n s : (String.length (strip_all encs n s) ≤ String.length s)%nat.
Proof.
  revert s. induction n as [|n IH]; intros s; cbn [strip_all]; [done|].
  destruct (strip_one encs s) as [r|] eqn:E; [|done].
  apply strip_one_length in E. specialize (IH r). lia.
Qed.
Lemma TrimSpace_length s : (String.length (TrimSpace s) ≤ String.length s)%nat.
Proof.
  unfold TrimSpace. rewrite length_reverse. etrans; [apply strip_all_length|].
  rewrite length_reverse. apply strip_all_length.
Qed.

(** ** Integers in decimal *)

Lemma SetString10_plain s z : SetString10 s = Some z → all_bytes plain s.
Proof.
  assert (∀ t y, unsigned_decimal t = Some y → all_bytes plain t) as Hu.
  { intros t y (_ & Hd & _)%unsigned_decimal_spec. eapply all_bytes_impl, Hd.
    unfold plain. intros c. rewrite is_digit_val, andb_true_iff, !Z.leb_le. lia. }
  unfold SetString10. destruct s as [|c s]; [done|].
  destruct (decide (c = "+"%char)) as [->|Hp].
  { intros ?%Hu. by apply all_bytes_cons. }
  destruct (decide (c = "-"%char)) as [->|Hm].
  { destruct (unsigned_decimal s) eqn:E; [|done]. apply Hu in E. intros _. by apply all_bytes_cons. }
  intros H. apply (Hu _ z). destruct c as [[] [] [] [] [] [] [] []]; try exact H; done.
Qed.

Lemma pretty_N_char_digit x :
  (x < 10)%N → is_digit (pretty_N_char x) = true ∧ byte_val (pretty_N_char x) - 48 = Z.of_N x.
Proof.
  intros Hx. assert (x = 0 ∨ x = 1 ∨ x = 2 ∨ x = 3 ∨ x = 4 ∨ x = 5 ∨ x = 6 ∨ x = 7 ∨ x = 8 ∨ x = 9)%N
    as Hc by lia. naive_solver.
Qed.

Lemma pretty_N_go_digits x s :
  (0 < x)%N → ∃ d w, pretty_N_go x s = String d w +:+ s ∧ d ≠ "0"%char ∧
    all_bytes is_digit (String d w) ∧ num (String d w) = Z.of_N x.
Proof.
  revert s. induction (N.lt_wf_0 x) as [x _ IH]; intros s Hx.
  rewrite pretty_N_go_step by done.
  destruct (pretty_N_char_digit (x `mod` 10)) as [Hdig Hval]; [by apply N.mod_lt|].
  assert (x = 10 * (x `div` 10) + x `mod` 10)%N as Hdm by (by apply N.div_mod).
  destruct (decide (x `div` 10 = 0)%N) as [H0|H0].
  - rewrite H0, pretty_N_go_0. exists (pretty_N_char (x `mod` 10)), "". split_and!.
    + done.
    + intros E. rewrite E in Hval. change (byte_val "0" - 48) with 0 in Hval. lia.
    + apply all_bytes_cons. split; [done | apply all_bytes_nil].
    + rewrite num_cons. change (num "") with 0. cbn [String.length]. rewrite Z.pow_0_r. lia.
  - destruct (IH (x `div` 10)%N) with (s := String (pretty_N_char (x `mod` 10)) s)
      as (d & w & -> & Hd & Hw & Hn); [by apply N.div_lt | by apply N.neq_0_lt_0 |].
    exists d, (w +:+ String (pretty_N_char (x `mod` 10)) ""). split_and!.
    + by rewrite app_string_cons, app_string_cons, app_string_assoc.
    + done.
    + rewrite <- app_string_cons. apply all_bytes_app. split; [done|].
      apply all_bytes_cons. split; [done | apply all_bytes_nil].
    + rewrite <- app_string_cons, num_app, Hn. cbn [String.length]. rewrite num_cons.
      change (num "") with 0. cbn [String.length]. change (10 ^ Z.of_nat 1) with 10.
      change (10 ^ Z.of_nat 0) with 1. lia.
Qed.

(** The text [strconv.FormatInt] and [big.Int.String] produce. *)
Lemma FormatInt_spec z :
  ∃ sign w, FormatInt z = sign +:+ w ∧ (sign = "" ∨ sign = "-") ∧ all_bytes is_digit w ∧
    (w = "0" ∨ ∃ d u, w = String d u ∧ d ≠ "0"%char) ∧ (sign = "-" → w ≠ "0") ∧
    z = (if decide (sign = "-") then -1 else 1) * num w.
Proof.
  assert (∀ p, ∃ d u, pretty (N.pos p) = String d u ∧ d ≠ "0"%char ∧
    all_bytes is_digit (String d u) ∧ num (String d u) = Z.pos p) as Hpos.
  { intros p. unfold pretty, pretty_N. rewrite decide_False by done.
    destruct (pretty_N_go_digits (N.pos p) "") as (d & u & -> & Hd); [lia|].
    exists d, u. by rewrite app_string_nil_r. }
  unfold FormatInt. destruct z as [|p|p].
  - exists "", "0". split_and!; [done | by left | | by left | done | done].
    apply all_bytes_cons. split; [done | apply all_bytes_nil].
  - destruct (Hpos p) as (d & u & Hp & Hd & Hu & Hn). exists "", (String d u).
    split_and!; [done | by left | done | right; eauto | done | cbn [decide]; rewrite Hn; done].
  - destruct (Hpos p) as (d & u & Hp & Hd & Hu & Hn). exists "-", (String d u).
    split_and!; [change (pretty (Z.neg p)) with ("-" +:+ pretty (N.pos p)); by rewrite Hp
                | by right | done | right; eauto | | rewrite Hn; done].
    intros _ [= -> ->]. done.
Qed.

Lemma digit_head_SetString10 w :
  all_bytes is_digit w → SetString10 w = unsigned_decimal w.
Proof.
  destruct w as [|c w]; [done|]. intros [Hc _]%all_bytes_cons.
  destruct c as [[] [] [] [] [] [] [] []]; done.
Qed.

(** Printing and parsing an integer. *)
Lemma SetString10_FormatInt z : SetString10 (FormatInt z) = Some z.
Proof.
  destruct (FormatInt_spec z) as (sign & w & -> & Hsign & Hw & Hlead & _ & ->).
  assert (unsigned_decimal w = Some (num w)) as Hu.
  { apply unsigned_decimal_spec. split; [|done].
    destruct Hlead as [->|(d & u & -> & _)]; done. }
  destruct Hsign as [-> | ->].
  - rewrite app_string_nil_l, digit_head_SetString10 by done. rewrite Hu.
    rewrite decide_False by done. f_equal; lia.
  - change (SetString10 ("-" +:+ w)) with (Z.opp <$> unsigned_decimal w). rewrite Hu.
    rewrite decide_True by done. cbn. f_equal; lia.
Qed.
#[export] Instance FormatInt_inj : Inj (=) (=) FormatInt.
Proof. intros x y E. apply (f_equal SetString10) in E. rewrite !SetString10_FormatInt in E. by injection E. Qed.

Lemma ParseInt_FormatInt z : min_int64 ≤ z ≤ max_int64 → ParseInt (FormatInt z) = Some z.
Proof.
  intros Hz. unfold ParseInt. rewrite SetString10_FormatInt. cbn [mbind option_bind].
  by rewrite decide_True.
Qed.

Lemma ParseInt_of_FormatInt r z : ParseInt (FormatInt r) = Some z → z = r.
Proof.
  unfold ParseInt. rewrite SetString10_FormatInt. cbn [mbind option_bind].
  case_decide; [by intros [= <-] | done].
Qed.
Lemma ParseInt_bounds s z : ParseInt s = Some z → min_int64 ≤ z ≤ max_int64.
Proof.
  unfold ParseInt. intros (z' & _ & Hz)%bind_Some. revert Hz.
  case_decide; [by intros [= <-] | done].
Qed.
