(* ===== verification/GoStd.v ===== *)
(** Functions of the Go standard library whose results the program only
    stores, compares or hashes: SHA-256, the JSON image of the routing contract,
    [net/url] parsing, quoting for messages and float conversion.  They are parameters of the model,
    grouped in classes; [toy_std] and [toy_floats] are concrete instances for
    evaluation on concrete inputs. *)
From S2P Require Import Prelude.
From S2P Require Import GoStrings.

(** [url.Parse] as [tunnelMetadata] uses it: the host and escaped path. *)
Record URL := { Host : string; EscapedPath : string }.

Class GoStd := {
  (** [sha256.Sum256], a 32-byte digest. *)
  sha256 : bytes → bytes;
  (** [json.Marshal] of the struct with the fields [tables] and
      [shard_key_types]. *)
  marshal_contract : gmap string (list string) → gmap string (list string) → bytes;
  (** [url.Parse]; [None] when it returns an error. *)
  url_parse : string → option URL;
  (** The [%q] form of a string, [strconv.Quote]. *)
  quote_message : string → string;
}.

(** [strconv.ParseFloat] and [strconv.FormatFloat(_, 'g', -1, bits)]; a parsed
    float is abstract. *)
Class Floats := {
  float : Type;
  ParseFloat : string → Z → option float;
  FormatFloat : float → Z → string;
  (** [math.Float32frombits] and [math.Float64frombits]. *)
  FloatFromBits : Z → Z → float;
}.

Definition toy_std : GoStd := {|
  sha256 := λ b, rev b;
  marshal_contract := λ t k,
    bytes_of (Join ((λ p, p.1 +:+ Join p.2 ",") <$> map_to_list t ++ map_to_list k) ";");
  url_parse := λ s, Some {| Host := s; EscapedPath := "" |};
  quote_message := λ s, s;
|}.

(** Decimal integers as floats, for evaluation. *)
Definition toy_floats : Floats := {|
  float := Z;
  ParseFloat := λ s _, SetString10 s;
  FormatFloat := λ f _, FormatInt f;
  FloatFromBits := λ z _, z;
|}.
