(* ===== verification/GoTime.v ===== *)
(** [time.ParseDuration] of the Go standard library, and the double-precision
    operations it and the statistics use, as [spec_float]s of 53 bits.

    A duration is its number of nanoseconds, a 64-bit integer; the parser works
    on 64-bit unsigned integers and rejects every overflow, as the library does (the sum of the
    components wraps around before it is compared). *)
From Stdlib Require Import SpecFloat.
From S2P Require Import Prelude.
From S2P Require Import GoStrings.
From S2P Require Import GoNumbers.

Module gotime.

(** * float64 *)

Definition float : Type := spec_float.
Definition float_add : float → float → float := SFadd 53 1024.
Definition float_mul : float → float → float := SFmul 53 1024.
Definition float_div : float → float → float := SFdiv 53 1024.
Definition float_of_int (z : Z) : float := binary_normalize 53 1024 z 0 false.

(** [uint64(f)] for a finite [f ≥ 0]: towards zero. *)
Definition truncate (f : float) : Z :=
  match f with
  | S754_finite _ m e => Z.shiftl (Z.pos m) e
  | _ => 0
  end.

(** * ParseDuration *)

(** [leadingInt]: the value of the leading digits and the rest; [None] when it
    exceeds [1<<63]. *)
Fixpoint leadingInt_go (x : Z) (s : bytes) : option (Z * bytes) :=
  match s with
  | c :: rest =>
    if negb (is_digit c) then Some (x, s)
    else if 2 ^ 63 / 10 <? x then None
    else let y := x * 10 + (byte_val c - 48) in
         if 2 ^ 63 <? y then None else leadingInt_go y rest
  | [] => Some (x, [])
  end.
Definition leadingInt (s : bytes) : option (Z * bytes) := leadingInt_go 0 s.

(** [leadingFraction]: digits beyond the precision are skipped. *)
Fixpoint leadingFraction_go (overflow : bool) (x : Z) (scale : float) (s : bytes) : Z * float * bytes :=
  match s with
  | c :: rest =>
    if negb (is_digit c) then (x, scale, s)
    else if overflow then leadingFraction_go true x scale rest
    else if (2 ^ 63 - 1) / 10 <? x then leadingFraction_go true x scale rest
    else let y := x * 10 + (byte_val c - 48) in
         if 2 ^ 63 <? y then leadingFraction_go true x scale rest
         else leadingFraction_go false y (float_mul scale (float_of_int 10)) rest
  | [] => (x, scale, [])
  end.
Definition leadingFraction (s : bytes) : Z * float * bytes :=
  leadingFraction_go false 0 (float_of_int 1) s.

(** The two spellings of the micro sign: U+00B5 and U+03BC. *)
Definition micro_sign : string := string_of (byte_of <$> [194; 181]).
Definition greek_mu : string := string_of (byte_of <$> [206; 188]).

Definition unitMap (u : string) : option Z :=
  if decide (u = "ns") then Some 1
  else if decide (u = "us" ∨ u = micro_sign +:+ "s" ∨ u = greek_mu +:+ "s") then Some 1000
  else if decide (u = "ms") then Some 1000000
  else if decide (u = "s") then Some 1000000000
  else if decide (u = "m") then Some 60000000000
  else if decide (u = "h") then Some 3600000000000
  else None.

(** The unit: everything before the next digit or point. *)
Fixpoint unit_of (s : bytes) : bytes * bytes :=
  match s with
  | c :: rest =>
    if is_digit c || bool_decide (c = "."%char) then ([], s)
    else let '(u, rest) := unit_of rest in (c :: u, rest)
  | [] => ([], [])
  end.

Definition is_point (s : bytes) : bool :=
  match s with c :: _ => bool_decide (c = "."%char) | [] => false end.
Definition starts_number (s : bytes) : bool :=
  match s with c :: _ => is_digit c || bool_decide (c = "."%char) | [] => false end.

(** One iteration of the loop: the value of a number with its unit. *)
Definition parse_component (s : bytes) : option (Z * bytes) :=
  if negb (starts_number s) then None else
  '(v, rest) ← leadingInt s;
  let pre := negb (length rest =? length s)%nat in
  let '(f, scale, rest, post) :=
    if is_point rest then
      let '(f, scale, rest') := leadingFraction (tail rest) in
      (f, scale, rest', negb (length rest' =? length (tail rest))%nat)
    else (0, float_of_int 1, rest, false) in
  if negb pre && negb post then None else
  let '(u, rest) := unit_of rest in
  if (length u =? 0)%nat then None else
  unit ← unitMap (string_of u);
  if 2 ^ 63 / unit <? v then None else
  let v := v * unit in
  let v := if 0 <? f then
      v + truncate (float_mul (float_of_int f) (float_div (float_of_int unit) scale))
    else v in
  if 2 ^ 63 <? v then None else Some (v, rest).

(** The loop; every iteration consumes at least one byte, so the length of the
    text is enough fuel. *)
Fixpoint parse_components (fuel : nat) (d : Z) (s : bytes) : option Z :=
  match s with
  | [] => Some d
  | _ =>
    match fuel with
    | O => None
    | S fuel =>
      '(v, rest) ← parse_component s;
      let d := wrap 64 (d + v) in
      if 2 ^ 63 <? d then None else parse_components fuel d rest
    end
  end.

Definition sign_of (s : bytes) : bool * bytes :=
  match s with
  | c :: rest =>
    if bool_decide (c = "-"%char) then (true, rest)
    else if bool_decide (c = "+"%char) then (false, rest) else (false, s)
  | [] => (false, s)
  end.

Definition ParseDuration (text : string) : option Z :=
  let '(neg, s) := sign_of (bytes_of text) in
  if bool_decide (s = ["0"%char]) then Some 0
  else if (length s =? 0)%nat then None else
  d ← parse_components (length s) 0 s;
  if neg : bool then Some (- d) else if 2 ^ 63 - 1 <? d then None else Some d.

Lemma leadingInt_length s x y rest : leadingInt_go x s = Some (y, rest) → (length rest ≤ length s)%nat.
Proof.
  revert x. induction s as [|c s IH]; intros x; cbn; [by intros [= _ <-]|].
  repeat case_match; intros; simplify_eq; cbn; [lia|]. by etrans; [eapply IH|lia].
Qed.
Lemma leadingFraction_length o x scale s f scale' rest :
  leadingFraction_go o x scale s = (f, scale', rest) → (length rest ≤ length s)%nat.
Proof.
  revert o x scale. induction s as [|c s IH]; intros o x scale; cbn; [by intros [= _ _ <-]|].
  repeat case_match; intros; simplify_eq; cbn; try lia; by (etrans; [eapply IH|lia]).
Qed.
Lemma unit_of_length s u rest : unit_of s = (u, rest) → (length u + length rest = length s)%nat.
Proof.
  revert u rest. induction s as [|c s IH]; intros u rest; cbn; [by intros [= <- <-]|].
  case_match; [by intros [= <- <-]|]. destruct (unit_of s) as [v w]. intros [= <- <-]. cbn.
  by rewrite (IH v w).
Qed.

(** A component is not empty, so the loop ends. *)
Lemma parse_component_progress s v rest :
  parse_component s = Some (v, rest) → (length rest < length s)%nat.
Proof.
  unfold parse_component. destruct (negb (starts_number s)); [done|].
  destruct (leadingInt s) as [[x r]|] eqn:Ei; [|done]. cbn [mbind option_bind].
  apply leadingInt_length in Ei.
  destruct (if is_point r then _ else _) as [[[f scale] r'] post] eqn:Ef.
  assert (length r' ≤ length r)%nat as Hr.
  { destruct (is_point r) eqn:Ep; [|by simplify_eq]. destruct (leadingFraction (tail r)) as [[f' sc'] r''] eqn:El.
    apply leadingFraction_length in El. simplify_eq. destruct r; cbn in *; lia. }
  destruct (_ && _); [done|]. destruct (unit_of r') as [u r3] eqn:Eu. apply unit_of_length in Eu.
  destruct (length u =? 0)%nat eqn:E0; [done|]. apply Nat.eqb_neq in E0.
  destruct (unitMap _); [|done]. cbn [mbind option_bind]. repeat case_match; intros; simplify_eq; lia.
Qed.

(** More fuel than the length of the text changes nothing. *)
Lemma parse_components_fuel n m d s :
  (length s ≤ n)%nat → (length s ≤ m)%nat → parse_components n d s = parse_components m d s.
Proof.
  revert m d s. induction n as [|n IH]; intros m d [|c s] Hn Hm; cbn in Hn, Hm; try lia; [by destruct m..|].
  destruct m as [|m]; [lia|]. cbn. destruct (parse_component (c :: s)) as [[v rest]|] eqn:E; [|done].
  apply parse_component_progress in E. cbn in E |- *. case_match; [done|]. apply IH; lia.
Qed.

Lemma truncate_nonneg f : 0 ≤ truncate f.
Proof. destruct f; cbn; try done. rewrite Z.shiftl_nonneg. lia. Qed.
Lemma unitMap_pos u z : unitMap u = Some z → 0 < z.
Proof. unfold unitMap. repeat case_match; intros; simplify_eq; lia. Qed.
Lemma digit_nonneg c : is_digit c = true → 0 ≤ byte_val c - 48.
Proof. unfold is_digit. lia. Qed.
Lemma leadingInt_nonneg s x y rest : 0 ≤ x → leadingInt_go x s = Some (y, rest) → 0 ≤ y.
Proof.
  revert x. induction s as [|c s IH]; intros x Hx; cbn; [by intros [= <- _]|].
  destruct (is_digit c) eqn:E; cbn; [|by intros [= <- _]]. apply digit_nonneg in E.
  repeat case_match; intros; simplify_eq. eapply IH; [|done]. lia.
Qed.
Lemma parse_component_nonneg s v rest : parse_component s = Some (v, rest) → 0 ≤ v ≤ 2 ^ 63.
Proof.
  unfold parse_component. destruct (negb (starts_number s)); [done|].
  destruct (leadingInt s) as [[x r]|] eqn:Ei; [|done]. cbn [mbind option_bind].
  apply leadingInt_nonneg in Ei; [|done].
  destruct (if is_point r then _ else _) as [[[f scale] r'] post]. destruct (_ && _); [done|].
  destruct (unit_of r') as [u r3]. destruct (_ =? _)%nat; [done|].
  destruct (unitMap _) as [unit|] eqn:Eu; [|done]. apply unitMap_pos in Eu. cbn [mbind option_bind].
  destruct (2 ^ 63 / unit <? x); [done|]. destruct (2 ^ 63 <? _) eqn:E2; [done|]. intros [= <- _].
  split; [|lia]. pose proof (truncate_nonneg (float_mul (float_of_int f) (float_div (float_of_int unit) scale))).
  destruct (0 <? f); nia.
Qed.

(** A duration that is accepted fits in 64 bits. *)
Lemma parse_components_bounds n d s r : 0 ≤ d ≤ 2 ^ 63 → parse_components n d s = Some r → 0 ≤ r ≤ 2 ^ 63.
Proof.
  revert d s. induction n as [|n IH]; intros d [|c s] Hd; cbn [parse_components];
    [by intros [= <-] | done | by intros [= <-] |].
  destruct (parse_component (c :: s)) as [[v rest]|] eqn:E; [|done]. apply parse_component_nonneg in E.
  cbn [mbind option_bind]. destruct (2 ^ 63 <? wrap 64 (d + v)) eqn:E2; [done|]. apply IH.
  unfold wrap in *. pose proof (Z.mod_pos_bound (d + v) (2 ^ 64)). lia.
Qed.
Lemma ParseDuration_bounds text d : ParseDuration text = Some d → min_int64 ≤ d ≤ max_int64.
Proof.
  unfold ParseDuration, min_int64, max_int64. destruct (sign_of _) as [neg s].
  case_bool_decide; [intros [= <-]; lia|]. case_match; [done|].
  destruct (parse_components _ _ _) as [r|] eqn:E; [|done]. cbn [mbind option_bind].
  apply parse_components_bounds in E; [|lia]. destruct neg; [intros [= <-]; lia|].
  destruct (_ <? r) eqn:E2; [done|]. intros [= <-]. lia.
Qed.

Example one_and_a_half_hours : ParseDuration "1.5h" = Some 5400000000000.
Proof. vm_compute. reflexivity. Qed.
Example mixed_units : ParseDuration "-2m3.25s" = Some (-123250000000).
Proof. vm_compute. reflexivity. Qed.
Example too_long : ParseDuration "9223372036854775808ns" = None.
Proof. vm_compute. reflexivity. Qed.

End gotime.
