(* ===== verification/Schema.v ===== *)
(** The schema contract shared by all Burrows: [internal/schema/registry.go]. *)
From S2P Require Import Prelude.
From S2P Require Import GoStrings.
From S2P Require Import GoStd.

Module schema.

Definition CurrentFormatVersion : Z := 4.

Definition NUL : string := String (ascii_of_N 0) "".

Record GeneratedPrimary := { Column : string; Kind : string }.
#[export] Instance GeneratedPrimary_eq_dec : EqDecision GeneratedPrimary.
Proof. solve_decision. Defined.
Definition zero_generated : GeneratedPrimary := {| Column := ""; Kind := "" |}.

(** The durable representation; [FromJSON] receives it after [json.Unmarshal]. *)
Record Snapshot := {
  s_FormatVersion : Z;
  s_Revision : Z;
  s_Tables : gmap string (list string);
  s_ShardKeyTypes : gmap string (list string);
  s_Generated : gmap string GeneratedPrimary;
  s_VShards : list string;
  s_AllTables : list string;
}.

(** [tableVShards] is the only map whose nil value differs from an empty map. *)
Record Registry := {
  formatVersion : Z;
  revision : Z;
  tables : gmap string (list string);
  shardKeyTypes : gmap string (list string);
  generated : gmap string GeneratedPrimary;
  vshards : list string;
  tableVShards : option (gmap string (list string));
  allTables : list string;
}.

Definition zero_registry : Registry := {|
  formatVersion := 0; revision := 0; tables := ∅; shardKeyTypes := ∅;
  generated := ∅; vshards := []; tableVShards := None; allTables := [];
|}.

Definition NewWithGeneratedAndTypes (t : gmap string (list string))
    (g : gmap string GeneratedPrimary) (types : gmap string (list string)) : Registry := {|
  formatVersion := CurrentFormatVersion; revision := 0;
  tables := t; shardKeyTypes := types; generated := g;
  vshards := []; tableVShards := None; allTables := [];
|}.

Definition New (t : gmap string (list string)) : Registry :=
  NewWithGeneratedAndTypes t ∅ ∅.
Definition NewWithGenerated (t : gmap string (list string))
    (g : gmap string GeneratedPrimary) : Registry := NewWithGeneratedAndTypes t g ∅.
Definition NewWithTypes (t types : gmap string (list string)) : Registry :=
  NewWithGeneratedAndTypes t ∅ types.

Definition WithRevision (r : Registry) (rev : Z) : Registry := {|
  formatVersion := formatVersion r; revision := rev; tables := tables r;
  shardKeyTypes := shardKeyTypes r; generated := generated r; vshards := vshards r;
  tableVShards := tableVShards r; allTables := allTables r;
|}.

Definition WithVShards (r : Registry) (owners : list string) : Registry := {|
  formatVersion := formatVersion r; revision := revision r; tables := tables r;
  shardKeyTypes := shardKeyTypes r; generated := generated r; vshards := owners;
  tableVShards := tableVShards r; allTables := allTables r;
|}.

Definition WithTableVShards (r : Registry) (placements : gmap string (list string)) : Registry := {|
  formatVersion := formatVersion r; revision := revision r; tables := tables r;
  shardKeyTypes := shardKeyTypes r; generated := generated r; vshards := vshards r;
  tableVShards := Some placements; allTables := allTables r;
|}.

Definition WithAllTables (r : Registry) (all : list string) : Registry := {|
  formatVersion := formatVersion r; revision := revision r; tables := tables r;
  shardKeyTypes := shardKeyTypes r; generated := generated r; vshards := vshards r;
  tableVShards := tableVShards r; allTables := sort_strings all;
|}.

Definition HasTopologyPlacement (r : Registry) : bool :=
  match tableVShards r with Some _ => true | None => false end.

Definition PrimaryKey (r : Registry) (table : string) : option (list string) :=
  tables r !! table.
Definition ShardKey (r : Registry) (table : string) : option (list string) :=
  PrimaryKey r table.
Definition ShardKeyTypes (r : Registry) (table : string) : option (list string) :=
  shardKeyTypes r !! table.
Definition GeneratedPrimaryKey (r : Registry) (table : string) : option GeneratedPrimary :=
  generated r !! table.
Definition IsSharded (r : Registry) (table : string) : bool :=
  match ShardKey r table with Some _ => true | None => false end.

(** [index < len(r.allTables) && r.allTables[index] == x] after the binary search. *)
Definition inventory_has (r : Registry) (x : string) : bool :=
  bool_decide (allTables r !! search_strings (allTables r) x = Some x).

Definition CanonicalTable (r : Registry) (table : string) : string :=
  if ContainsByte table "."%char then table else
  let qualified := "public." +:+ table in
  if inventory_has r qualified then qualified else table.

Definition HasTable (r : Registry) (table : string) : bool :=
  inventory_has r (CanonicalTable r table).

Definition VShardOwners (r : Registry) : list string := vshards r.

(** A lookup in the possibly nil map [tableVShards]. *)
Definition table_placement (r : Registry) (table : string) : option (list string) :=
  m ← tableVShards r; m !! CanonicalTable r table.

Definition TableVShardOwners (r : Registry) (table : string) : option (list string) :=
  table_placement r table.

Definition VShardCount (r : Registry) : Z := Z.of_nat (length (vshards r)).

Definition VShardCountFor (r : Registry) (table : string) : Z :=
  match table_placement r table with
  | Some owners => Z.of_nat (length owners)
  | None => Z.of_nat (length (vshards r))
  end.

(** [if i < 0 || i >= len(l) { return "", false }; return l[i], true] *)
Definition slice_at (l : list string) (i : Z) : option string :=
  if (i <? 0) || (Z.of_nat (length l) <=? i) then None else l !! Z.to_nat i.

Definition VShardOwner (r : Registry) (vshard : Z) : option string :=
  slice_at (vshards r) vshard.

Definition VShardOwnerFor (r : Registry) (table : string) (vshard : Z) : option string :=
  match table_placement r table with
  | Some owners => slice_at owners vshard
  | None => VShardOwner r vshard
  end.

Definition CanonicalShardedTables (r : Registry) : list string :=
  filter (λ t, IsSharded r t = true) (allTables r).

Record TableInventory := {
  Table : string; Sharded : bool; ShardKeys : list string;
}.
Definition Inventory (r : Registry) : list TableInventory :=
  (λ t, {| Table := t; Sharded := IsSharded r t;
           ShardKeys := default [] (ShardKey r t) |}) <$> allTables r.

Inductive difference :=
| ShardKeyCountDiffers (n m : nat)
| ShardKeyDiffers (table : string)
| TypeCountDiffers (n m : nat)
| TypesDiffer (table : string)
| GeneratedCountDiffers (n m : nat)
| GeneratedDiffers (table : string)
| InventoryDiffers
| PlacementDiffers.

Section with_order.
Context `{MapOrder, GoStd}.

Definition MaximumVShardCount (r : Registry) : Z :=
  fold_left (λ maximum p, if maximum <? Z.of_nat (length p.2)
                          then Z.of_nat (length (p.2 : list string)) else maximum)
    (match tableVShards r with Some m => map_range m | None => [] end)
    (Z.of_nat (length (vshards r))).

(** One comparison loop of [EqualSchema] over two maps of string lists. *)
Definition same_lists (other : gmap string (list string)) (e : string → difference)
    (p : string * list string) : result difference unit :=
  match other !! p.1 with
  | None => Err (e p.1)
  | Some columns => fail_if (bool_decide (Join p.2 NUL ≠ Join columns NUL)) (e p.1)
  end.

Definition EqualSchema (r other : Registry) : result difference unit :=
  fail_if (bool_decide (size (tables r) ≠ size (tables other)))
    (ShardKeyCountDiffers (size (tables r)) (size (tables other)));;
  check_all (same_lists (tables other) ShardKeyDiffers) (map_range (tables r));;
  fail_if (bool_decide (size (shardKeyTypes r) ≠ size (shardKeyTypes other)))
    (TypeCountDiffers (size (shardKeyTypes r)) (size (shardKeyTypes other)));;
  check_all (same_lists (shardKeyTypes other) TypesDiffer) (map_range (shardKeyTypes r));;
  fail_if (bool_decide (size (generated r) ≠ size (generated other)))
    (GeneratedCountDiffers (size (generated r)) (size (generated other)));;
  check_all (λ p, fail_if (bool_decide (default zero_generated (generated other !! p.1) ≠ p.2))
                    (GeneratedDiffers p.1)) (map_range (generated r));;
  fail_if (bool_decide (Join (allTables r) NUL ≠ Join (allTables other) NUL)) InventoryDiffers.

Definition Equal (r other : Registry) : result difference unit :=
  EqualSchema r other;;
  fail_if (bool_decide (Join (vshards r) NUL ≠ Join (vshards other) NUL)) PlacementDiffers.

Definition Fingerprint (r : Registry) : string :=
  "sha256:" +:+ EncodeHex (sha256 (marshal_contract (tables r) (shardKeyTypes r))).

(** [Registry.Tables]: the sorted table names. *)
Definition Tables (r : Registry) : list string := sort_strings (map_range (tables r)).*1.
End with_order.

(** [Registry.Snapshot], the value [MarshalJSON] encodes. *)
Definition to_snapshot (r : Registry) : Snapshot := {|
  s_FormatVersion := CurrentFormatVersion; s_Revision := revision r;
  s_Tables := tables r; s_ShardKeyTypes := shardKeyTypes r; s_Generated := generated r;
  s_VShards := []; s_AllTables := allTables r;
|}.

(** [FromJSON] after decoding. *)
Definition FromJSON (s : Snapshot) : Registry :=
  let version := if decide (s_FormatVersion s = 0) then 3 else s_FormatVersion s in
  let rev := if decide (s_Revision s = 0) then 1 else s_Revision s in
  let r := WithAllTables (WithVShards (WithRevision
             (NewWithGeneratedAndTypes (s_Tables s) (s_Generated s) (s_ShardKeyTypes s))
             rev) (s_VShards s)) (s_AllTables s) in
  {| formatVersion := version; revision := revision r; tables := tables r;
     shardKeyTypes := shardKeyTypes r; generated := generated r; vshards := vshards r;
     tableVShards := tableVShards r; allTables := allTables r |}.

(** * Invariant and lemmas *)

(** The inventory is sorted: established by [WithAllTables], the only
    function that sets it. *)
Definition sorted_inventory (r : Registry) : Prop :=
  StronglySorted String.le (allTables r).

(** Names PostgreSQL can produce: non-empty and without NUL bytes. *)
Definition catalog_name (s : string) : Prop := s ≠ "" ∧ ascii_of_N 0 ∉ bytes_of s.

Record catalog_registry (r : Registry) : Prop := {
  cr_tables : map_Forall (λ _ l, Forall catalog_name l) (tables r);
  cr_types : map_Forall (λ _ l, Forall catalog_name l) (shardKeyTypes r);
  cr_generated : map_Forall (λ _ g, g ≠ zero_generated) (generated r);
  cr_all : Forall catalog_name (allTables r);
}.

(** The part of the registry that two Burrows must agree on. *)
Definition contract (r : Registry) :=
  (tables r, shardKeyTypes r, generated r, allTables r).

Lemma inventory_has_spec r x :
  sorted_inventory r → inventory_has r x = true ↔ x ∈ allTables r.
Proof.
  intros Hs. unfold inventory_has. rewrite bool_decide_eq_true.
  apply search_strings_spec, Hs.
Qed.

Lemma WithAllTables_sorted r all : sorted_inventory (WithAllTables r all).
Proof. apply sort_strings_sorted. Qed.

Lemma slice_at_spec l i x :
  slice_at l i = Some x ↔ 0 ≤ i < Z.of_nat (length l) ∧ l !! Z.to_nat i = Some x.
Proof.
  unfold slice_at. destruct (Z.ltb_spec i 0), (Z.leb_spec (Z.of_nat (length l)) i);
    cbn; naive_solver lia.
Qed.

Lemma slice_at_is_Some l i : is_Some (slice_at l i) ↔ 0 ≤ i < Z.of_nat (length l).
Proof.
  split; [by intros [x [? _]%slice_at_spec]|]. intros Hi.
  destruct (lookup_lt_is_Some_2 l (Z.to_nat i)) as [x Hx]; [lia|].
  exists x. by apply slice_at_spec.
Qed.

Lemma Join_NUL_inj l1 l2 :
  Forall catalog_name l1 → Forall catalog_name l2 → Join l1 NUL = Join l2 NUL → l1 = l2.
Proof.
  revert l2. induction l1 as [|s1 l1 IH]; intros [|s2 l2] H1 H2; [done | | |].
  - apply Forall_cons in H2 as [[Hs2 _] _]. cbn. destruct l2; [done|].
    destruct s2; done.
  - apply Forall_cons in H1 as [[Hs1 _] _]. cbn. destruct l1; [done|].
    destruct s1; done.
  - apply Forall_cons in H1 as [Hs1 H1], H2 as [Hs2 H2].
    assert (∀ s t u, catalog_name s → s ≠ t +:+ NUL +:+ u) as Hnot.
    { intros s t u [_ Hn] ->. apply Hn. rewrite !bytes_of_app. set_solver. }
    destruct l1 as [|t1 l1], l2 as [|t2 l2]; cbn; [by intros -> | | |].
    + intros Heq. by destruct (Hnot _ _ _ Hs1 Heq).
    + intros Heq. by destruct (Hnot _ _ _ Hs2 (eq_sym Heq)).
    + intros Heq. apply app_sep_inj in Heq as [-> Heq]; [|apply Hs1 | apply Hs2].
      f_equal. by apply IH.
Qed.

Lemma same_dom_of_size {A B} (m1 : gmap string A) (m2 : gmap string B) :
  size m1 = size m2 → (∀ k a, m1 !! k = Some a → is_Some (m2 !! k)) → dom m1 = dom m2.
Proof.
  intros Hsize Hsub. apply set_subseteq_size_eq.
  - intros k [a Hk]%elem_of_dom. apply elem_of_dom. eauto.
  - by rewrite !size_dom, Hsize.
Qed.

Lemma map_eq_of_dom {A} (m1 m2 : gmap string A) :
  dom m1 = dom m2 → (∀ k a b, m1 !! k = Some a → m2 !! k = Some b → a = b) → m1 = m2.
Proof.
  intros Hdom Heq. apply map_eq. intros k.
  destruct (m1 !! k) as [a|] eqn:E1, (m2 !! k) as [b|] eqn:E2; [|exfalso..|done].
  - f_equal. eauto.
  - apply (elem_of_dom_2 (D:=gset string)) in E1. rewrite Hdom in E1.
    apply not_elem_of_dom in E2. done.
  - apply (elem_of_dom_2 (D:=gset string)) in E2. rewrite <- Hdom in E2.
    apply not_elem_of_dom in E1. done.
Qed.

Section order_lemmas.
Context `{MapOrder, GoStd}.

(** A comparison loop over one map succeeds exactly on equal maps. *)
Lemma same_lists_spec (m1 m2 : gmap string (list string)) e :
  map_Forall (λ _ l, Forall catalog_name l) m1 →
  map_Forall (λ _ l, Forall catalog_name l) m2 →
  size m1 = size m2 ∧ check_all (same_lists m2 e) (map_range m1) = Ok tt ↔ m1 = m2.
Proof.
  intros H1 H2. rewrite check_all_ok, Forall_map_range. unfold same_lists; cbn.
  split.
  - intros [Hsize Hall]. apply map_eq_of_dom.
    + apply same_dom_of_size; [done|]. intros k a Hk. specialize (Hall k a Hk).
      destruct (m2 !! k); [eauto | done].
    + intros k a b Ha Hb. specialize (Hall k a Ha). rewrite Hb in Hall.
      apply fail_if_ne_ok in Hall. apply Join_NUL_inj; [by eapply H1 | by eapply H2 | done].
  - intros ->. split; [done|]. intros k a Hk. rewrite Hk. by apply fail_if_ne_ok.
Qed.

Lemma same_generated_spec (m1 m2 : gmap string GeneratedPrimary) :
  map_Forall (λ _ g, g ≠ zero_generated) m1 →
  size m1 = size m2 ∧
  check_all (λ p, fail_if (bool_decide (default zero_generated (m2 !! p.1) ≠ p.2))
                    (GeneratedDiffers p.1)) (map_range m1) = Ok tt ↔ m1 = m2.
Proof.
  intros H1. rewrite check_all_ok, Forall_map_range. cbn. split.
  - intros [Hsize Hall].
    assert (∀ k a, m1 !! k = Some a → m2 !! k = Some a) as Hsub.
    { intros k a Hk. specialize (Hall k a Hk).
      apply fail_if_ne_ok in Hall. destruct (m2 !! k); cbn in Hall; [by subst|]. by destruct (H1 k a Hk). }
    apply map_eq_of_dom; [|naive_solver].
    apply same_dom_of_size; [done|]. intros k a Hk. rewrite (Hsub k a Hk). eauto.
  - intros ->. split; [done|]. intros k a Hk. rewrite Hk. by apply fail_if_ne_ok.
Qed.

Lemma Fingerprint_contract r1 r2 :
  tables r1 = tables r2 → shardKeyTypes r1 = shardKeyTypes r2 → Fingerprint r1 = Fingerprint r2.
Proof. intros Ht Hk. unfold Fingerprint. by rewrite Ht, Hk. Qed.
End order_lemmas.

Lemma CanonicalShardedTables_elem r t :
  t ∈ CanonicalShardedTables r ↔ t ∈ allTables r ∧ IsSharded r t = true.
Proof. unfold CanonicalShardedTables. rewrite list_elem_of_filter. naive_solver. Qed.

Lemma CanonicalTable_cases r t :
  CanonicalTable r t = t ∨
  (CanonicalTable r t = "public." +:+ t ∧ inventory_has r (CanonicalTable r t) = true).
Proof.
  unfold CanonicalTable. destruct (ContainsByte t _); [by left|].
  destruct (inventory_has r ("public." +:+ t)) eqn:E; [right | left]; auto.
Qed.

Lemma CanonicalTable_idemp r t : CanonicalTable r (CanonicalTable r t) = CanonicalTable r t.
Proof.
  destruct (CanonicalTable_cases r t) as [H | [H _]]; rewrite H; [done|].
  unfold CanonicalTable at 1.
  assert (ContainsByte ("public." +:+ t) "."%char = true) as ->; [|done].
  apply ContainsByte_spec. rewrite bytes_of_app. apply elem_of_app; left. cbn. set_solver.
Qed.

Lemma EqualSchema_same `{MapOrder} r1 r2 :
  contract r1 = contract r2 → EqualSchema r1 r2 = Ok tt.
Proof.
  unfold EqualSchema. intros [= -> -> -> ->]. rewrite !seq_ok, !fail_if_ne_ok, !check_all_ok.
  assert (∀ (m : gmap string (list string)) e,
    Forall (λ p, same_lists m e p = Ok tt) (map_range m)) as Hsame.
  { intros m e. apply Forall_map_range. intros k l Hk. unfold same_lists. cbn. rewrite Hk.
    by apply fail_if_ne_ok. }
  split_and!; try done. apply Forall_map_range. intros k g Hk. cbn. rewrite Hk. by apply fail_if_ne_ok.
Qed.

Lemma decoded_snapshot r :
  sorted_inventory r → revision r ≠ 0 →
  FromJSON (to_snapshot r) =
    {| formatVersion := CurrentFormatVersion; revision := revision r; tables := tables r;
       shardKeyTypes := shardKeyTypes r; generated := generated r; vshards := [];
       tableVShards := None; allTables := allTables r |}.
Proof.
  intros Hs Hrev. unfold FromJSON, to_snapshot; cbn.
  rewrite !decide_False by done. f_equal. by apply sort_strings_id.
Qed.

(** * Properties *)

Section properties.
Context `{MapOrder, GoStd}.

Lemma EqualSchema_contract r1 r2 :
  catalog_registry r1 → catalog_registry r2 →
  EqualSchema r1 r2 = Ok tt ↔ contract r1 = contract r2.
Proof.
  intros [Ht1 Hk1 Hg1 Ha1] [Ht2 Hk2 Hg2 Ha2]. unfold EqualSchema, contract.
  transitivity (tables r1 = tables r2 ∧ shardKeyTypes r1 = shardKeyTypes r2 ∧
    generated r1 = generated r2 ∧ allTables r1 = allTables r2);
    [|split; [by intros (-> & -> & -> & ->) | by intros [= -> -> -> ->]]].
  rewrite <- (same_lists_spec (tables r1) (tables r2) ShardKeyDiffers) by done.
  rewrite <- (same_lists_spec (shardKeyTypes r1) (shardKeyTypes r2) TypesDiffer) by done.
  rewrite <- (same_generated_spec (generated r1) (generated r2)) by done.
  assert (allTables r1 = allTables r2 ↔ Join (allTables r1) NUL = Join (allTables r2) NUL) as ->.
  { split; [by intros ->|]. by apply Join_NUL_inj. }
  rewrite !seq_ok, !fail_if_ne_ok. tauto.
Qed.

(** C30: on registries whose names PostgreSQL could have
    produced, [EqualSchema] returns no error exactly when the two registries
    carry the same schema contract (tables, key types, generated keys and
    inventory), whatever the order in which the maps are visited. *)
Theorem EqualSchema_iff_contract r1 r2 :
  catalog_registry r1 → catalog_registry r2 →
  EqualSchema r1 r2 = Ok tt ↔ contract r1 = contract r2.
Proof. apply EqualSchema_contract. Qed.

(** [VShardOwnerFor] answers exactly inside the bounds
    [VShardCountFor] reports, with the owner the topology projection lists for
    the canonical table, or the legacy fleet-wide owner when the projection
    has no entry for it. *)
Theorem VShardOwnerFor_in_bounds r table vshard :
  (is_Some (VShardOwnerFor r table vshard) ↔ 0 ≤ vshard < VShardCountFor r table) ∧
  ∀ owner, VShardOwnerFor r table vshard = Some owner →
    default (vshards r) (table_placement r table) !! Z.to_nat vshard = Some owner.
Proof.
  unfold VShardOwnerFor, VShardOwner, VShardCountFor.
  by destruct (table_placement r table); cbn;
    (split; [apply slice_at_is_Some | intros owner [_ ?]%slice_at_spec]).
Qed.
End properties.

(** decoding the snapshot of a registry with a positive
    revision gives back its schema contract, revision and inventory, and drops
    the placement, which format 4 keeps in the topology catalog. *)
Theorem FromJSON_to_snapshot r :
  sorted_inventory r → revision r ≠ 0 →
  FromJSON (to_snapshot r) =
    {| formatVersion := CurrentFormatVersion; revision := revision r; tables := tables r;
       shardKeyTypes := shardKeyTypes r; generated := generated r; vshards := [];
       tableVShards := None; allTables := allTables r |}.
Proof. apply decoded_snapshot. Qed.

(** on a sorted inventory the binary searches of [HasTable] and
    [CanonicalTable] are exact: a relation is known when its own name, or for
    an unqualified name its [public] form, is in the inventory. *)
Theorem HasTable_iff r table :
  sorted_inventory r →
  HasTable r table = true ↔
    table ∈ allTables r ∨
    (ContainsByte table "."%char = false ∧ ("public." +:+ table) ∈ allTables r).
Proof.
  intros Hs. unfold HasTable. rewrite inventory_has_spec by done.
  unfold CanonicalTable. destruct (ContainsByte table _); [naive_solver|].
  destruct (inventory_has r _) eqn:E.
  - apply inventory_has_spec in E; [|done]. naive_solver.
  - assert ("public." +:+ table ∉ allTables r) by (by rewrite <- inventory_has_spec, E).
    naive_solver.
Qed.

(** * Witnesses *)

#[export] Instance catalog_name_dec s : Decision (catalog_name s).
Proof. unfold catalog_name. apply _. Defined.

Definition accounts : Registry :=
  WithAllTables (WithRevision (NewWithGeneratedAndTypes
    {["public.accounts" := ["tenant_id"; "region"]; "accounts" := ["tenant_id"; "region"]]}
    ∅ {["public.accounts" := ["bigint"; "text"]; "accounts" := ["bigint"; "text"]]}) 7)
    ["public.orders"; "public.accounts"].

Lemma EqualSchema_iff_contract_witness :
  @EqualSchema canonical_order accounts (WithRevision accounts 9) = Ok tt.
Proof.
  refine (proj2 (@EqualSchema_iff_contract canonical_order _ _ _ _) _).
  - constructor; by_computation.
  - constructor; by_computation.
  - reflexivity.
Defined.

Lemma FromJSON_to_snapshot_witness : allTables (FromJSON (to_snapshot accounts)) = allTables accounts.
Proof.
  rewrite FromJSON_to_snapshot; [reflexivity | apply WithAllTables_sorted | vm_compute; discriminate].
Defined.

Lemma HasTable_iff_witness : HasTable accounts "orders" = true.
Proof.
  apply HasTable_iff; [apply WithAllTables_sorted|].
  right. split; [reflexivity | by_computation].
Defined.

End schema.
