(* ===== verification/Topology.v ===== *)
(** The versioned routing catalog: [internal/topology/catalog.go]. *)
From S2P Require Import Prelude.
From S2P Require Import GoStrings.
From S2P Require Import GoStd.
From S2P Require Import Schema.

Module topology.

Definition CurrentFormatVersion : Z := 1.
Definition DefaultVShardCount : nat := Z.to_nat 65536.
Definition BootstrapDistribution : string := "distribution-bootstrap-0001".

(** [BurrowState] is a string type in the source; a value outside the four
    constants is carried by [OtherState]. *)
Inductive BurrowState :=
| BurrowAdding | BurrowReady | BurrowDraining | BurrowRemoved
| OtherState (s : string).
#[export] Instance BurrowState_eq_dec : EqDecision BurrowState.
Proof. solve_decision. Defined.

Record SchemaCompatibility := {
  RegistryFormat : Z; SchemaRevision : Z; SchemaFingerprint : string;
}.
Record TunnelEndpoint := {
  TunnelName : string; Address : string; ConfigurationFingerprint : string;
}.
Record Burrow := {
  BurrowID : string; Name : string; State : BurrowState;
  Tunnels : list TunnelEndpoint; Weight : Z; CapacityBytes : Z;
  Labels : gmap string string;
}.
Record Distribution := {
  DistributionID : string; VShardCount : Z;
  BurrowIDs : list string; OwnerIndexes : list N;
}.
(** Instants are nanoseconds; 0 is Go's zero time. *)
Record ChangeMetadata := { Actor : string; Reason : string; Timestamp : Z }.
Record Catalog := {
  FormatVersion : Z; Revision : Z; Schema : SchemaCompatibility;
  Burrows : list Burrow; Distributions : list Distribution;
  TableDistributions : gmap string string; Change : ChangeMetadata;
}.
Record BootstrapBurrow := { ConfiguredName : string; DSN : string }.

#[export] Instance SchemaCompatibility_eq_dec : EqDecision SchemaCompatibility.
Proof. solve_decision. Defined.
#[export] Instance TunnelEndpoint_eq_dec : EqDecision TunnelEndpoint.
Proof. solve_decision. Defined.
#[export] Instance Burrow_eq_dec : EqDecision Burrow.
Proof. solve_decision. Defined.
#[export] Instance Distribution_eq_dec : EqDecision Distribution.
Proof. solve_decision. Defined.
#[export] Instance ChangeMetadata_eq_dec : EqDecision ChangeMetadata.
Proof. solve_decision. Defined.
#[export] Instance Catalog_eq_dec : EqDecision Catalog.
Proof. solve_decision. Defined.

(** The errors of the package; [IndexPanic] is a run-time index panic. *)
Inductive error :=
| NoConfiguredBurrow | BootstrapIncomplete | DuplicateConfigured (name : string)
| LegacyUnconfigured (vshard : nat) (owner : string) | TooManyOwners
| UnsupportedFormat (v : Z) | RevisionNotPositive | SchemaIncomplete | AuditIncomplete
| BurrowIncomplete | DuplicateBurrowID (id : string) | DuplicateBurrowName (n : string)
| InvalidState (n : string) (s : BurrowState) | WeightNotPositive (n : string)
| NegativeCapacity (n : string) | NoTunnel (n : string) | TunnelIncomplete (n : string)
| DuplicateTunnel (n t : string) | EmptyLabelKey (n : string)
| DistributionIDRequired | DuplicateDistribution (d : string)
| IncompleteCoverage (d : string) (owners : nat) (count : Z)
| InvalidOwnerDictionary (d : string) | RepeatedOwner (d o : string)
| UnknownOwner (d o : string) | OwnerNotRoutable (d n : string) (s : BurrowState)
| UnknownOwnerIndex (d : string) (vshard : nat) (i : N)
| EmptyTable | UnknownDistribution (table d : string)
| SchemaFormatTooNew (f : Z) | SchemaRevisionTooOld (have : Z)
| FingerprintMismatch (f : string) | TableWithoutDistribution (table : string)
| TableNotSharded (table : string)
| BurrowNotConfigured (n : string) | TunnelDiffers (n : string)
| CurrentInvalid (e : error) | RevisionMustAdvance | TimestampMustAdvance
| NewBurrowNotAdding (n : string) | InvalidTransition (n : string) (from to : BurrowState)
| BurrowLeftCatalog | VShardCountChanged (d : string)
| IndexPanic.

Definition validState (state : BurrowState) : bool :=
  match state with OtherState _ => false | _ => true end.

(** Owners of vshards and routable Burrows are in one of these states. *)
Definition routableState (state : BurrowState) : bool :=
  match state with BurrowReady | BurrowDraining => true | _ => false end.

Definition validTransition (from to : BurrowState) : bool :=
  if decide (from = to) then true else
  match from with
  | BurrowAdding => bool_decide (to = BurrowReady ∨ to = BurrowRemoved)
  | BurrowReady => bool_decide (to = BurrowDraining)
  | BurrowDraining => bool_decide (to = BurrowReady ∨ to = BurrowRemoved)
  | BurrowRemoved => false
  | OtherState _ => false
  end.

(** [LegacyModuloOwners]: one-indexed modulo placement over the sorted names. *)
Definition modulo_owner (sorted : list string) (vshard : nat) : string :=
  let remainder := (vshard mod length sorted)%nat in
  if decide (remainder = 0%nat) then default "" (last sorted)
  else default "" (sorted !! (remainder - 1)%nat).
Definition LegacyModuloOwners (names : list string) (count : nat) : list string :=
  let sorted := sort_strings names in
  if decide (length sorted = 0%nat) then replicate count ""
  else modulo_owner sorted <$> seq 0 count.

(** ** Validation *)

Definition blank (s : string) : bool := bool_decide (TrimSpace s = "").

Definition validate_tunnel (burrow : string) (seen : gset string) (t : TunnelEndpoint)
    : result error (gset string) :=
  fail_if (bool_decide (TunnelName t = "" ∨ Address t = "" ∨ ConfigurationFingerprint t = ""))
    (TunnelIncomplete burrow);;
  fail_if (bool_decide (TunnelName t ∈ seen)) (DuplicateTunnel burrow (TunnelName t));;
  mret ({[TunnelName t]} ∪ seen).

Section with_order.
Context `{MapOrder}.

Definition validate_burrow (acc : gmap string Burrow * gset string) (b : Burrow)
    : result error (gmap string Burrow * gset string) :=
  let '(burrows, names) := acc in
  fail_if (bool_decide (BurrowID b = "" ∨ Name b = "")) BurrowIncomplete;;
  fail_if (bool_decide (is_Some (burrows !! BurrowID b))) (DuplicateBurrowID (BurrowID b));;
  fail_if (bool_decide (Name b ∈ names)) (DuplicateBurrowName (Name b));;
  fail_if (negb (validState (State b))) (InvalidState (Name b) (State b));;
  fail_if (bool_decide (Weight b = 0)) (WeightNotPositive (Name b));;
  fail_if (bool_decide (CapacityBytes b < 0)) (NegativeCapacity (Name b));;
  fail_if (bool_decide (State b ≠ BurrowRemoved ∧ Tunnels b = [])) (NoTunnel (Name b));;
  mfold (validate_tunnel (Name b)) ∅ (Tunnels b);;
  check_all (λ p, fail_if (blank p.1) (EmptyLabelKey (Name b))) (map_range (Labels b));;
  mret (<[BurrowID b := b]> burrows, {[Name b]} ∪ names).

Definition validate_owner (burrows : gmap string Burrow) (d : string) (seen : gset string)
    (owner : string) : result error (gset string) :=
  fail_if (bool_decide (owner ∈ seen)) (RepeatedOwner d owner);;
  burrow ← or_fail (burrows !! owner) (UnknownOwner d owner);
  fail_if (negb (routableState (State burrow))) (OwnerNotRoutable d (Name burrow) (State burrow));;
  mret ({[owner]} ∪ seen).

Definition validate_distribution (burrows : gmap string Burrow)
    (distributions : gmap string Distribution) (d : Distribution)
    : result error (gmap string Distribution) :=
  let id := DistributionID d in
  fail_if (bool_decide (id = "")) DistributionIDRequired;;
  fail_if (bool_decide (is_Some (distributions !! id))) (DuplicateDistribution id);;
  fail_if (bool_decide (VShardCount d ≤ 0 ∨ Z.of_nat (length (OwnerIndexes d)) ≠ VShardCount d))
    (IncompleteCoverage id (length (OwnerIndexes d)) (VShardCount d));;
  fail_if (bool_decide (length (BurrowIDs d) = 0%nat ∨ 2 ^ 16 < Z.of_nat (length (BurrowIDs d))))
    (InvalidOwnerDictionary id);;
  mfold (validate_owner burrows id) ∅ (BurrowIDs d);;
  check_all (λ p, fail_if (bool_decide (N.of_nat (length (BurrowIDs d)) ≤ p.2)%N)
                    (UnknownOwnerIndex id p.1 p.2)) (enumerate (OwnerIndexes d));;
  mret (<[id := d]> distributions).

Definition validate_table (distributions : gmap string Distribution) (p : string * string)
    : result error unit :=
  fail_if (blank p.1) EmptyTable;;
  fail_if (bool_decide (distributions !! p.2 = None)) (UnknownDistribution p.1 p.2).

Definition Validate (c : Catalog) : result error unit :=
  fail_if (bool_decide (FormatVersion c ≠ CurrentFormatVersion)) (UnsupportedFormat (FormatVersion c));;
  fail_if (bool_decide (Revision c = 0)) RevisionNotPositive;;
  fail_if (bool_decide (RegistryFormat (Schema c) ≤ 0 ∨ SchemaRevision (Schema c) = 0
                        ∨ SchemaFingerprint (Schema c) = "")) SchemaIncomplete;;
  fail_if (bool_decide (Actor (Change c) = "" ∨ Reason (Change c) = "" ∨ Timestamp (Change c) = 0))
    AuditIncomplete;;
  acc ← mfold validate_burrow (∅, ∅) (Burrows c);
  distributions ← mfold (validate_distribution acc.1) ∅ (Distributions c);
  check_all (validate_table distributions) (map_range (TableDistributions c)).
End with_order.

(** ** Compatibility with the schema registry and the configuration *)

Section with_std.
Context `{MapOrder, GoStd}.

Definition StableBurrowID (name : string) : string :=
  "burrow-" +:+ EncodeHex (take 10
    (sha256 (bytes_of ("hamstergres-burrow" +:+ schema.NUL +:+ name)))).

Definition tunnelMetadata (dsn : string) : string * string :=
  let fingerprint := "sha256:" +:+ EncodeHex (sha256 (bytes_of dsn)) in
  match url_parse dsn with
  | None => ("configured-endpoint", fingerprint)
  | Some parsed =>
    if decide (Host parsed = "") then ("configured-endpoint", fingerprint)
    else (Host parsed +:+ TrimSuffix (EscapedPath parsed) "/", fingerprint)
  end.

Definition ValidateSchema (c : Catalog) (registry : schema.Registry) : result error unit :=
  fail_if (bool_decide (schema.CurrentFormatVersion < RegistryFormat (Schema c)))
    (SchemaFormatTooNew (RegistryFormat (Schema c)));;
  fail_if (bool_decide (schema.revision registry < SchemaRevision (Schema c)))
    (SchemaRevisionTooOld (schema.revision registry));;
  fail_if (bool_decide (schema.Fingerprint registry ≠ SchemaFingerprint (Schema c)))
    (FingerprintMismatch (schema.Fingerprint registry));;
  check_all (λ table, fail_if (bool_decide (TableDistributions c !! table = None))
                        (TableWithoutDistribution table))
    (schema.CanonicalShardedTables registry);;
  check_all (λ p, fail_if (negb (schema.IsSharded registry p.1)) (TableNotSharded p.1))
    (map_range (TableDistributions c)).

Definition ValidateConfigured (c : Catalog) (configured : gmap string string)
    : result error unit :=
  check_all (λ b,
    if negb (routableState (State b)) then Ok tt else
    dsn ← or_fail (configured !! Name b) (BurrowNotConfigured (Name b));
    let '(address, fingerprint) := tunnelMetadata dsn in
    match Tunnels b with
    | [] => Err (TunnelDiffers (Name b))
    | t :: _ => fail_if (bool_decide (Address t ≠ address ∨ ConfigurationFingerprint t ≠ fingerprint))
                  (TunnelDiffers (Name b))
    end) (Burrows c).

(** ** Placement projection *)

Definition zero_distribution : Distribution :=
  {| DistributionID := ""; VShardCount := 0; BurrowIDs := []; OwnerIndexes := [] |}.

(** [burrowNames[distribution.BurrowIDs[ownerIndex]]] *)
Definition owner_name (burrowNames : gmap string string) (d : Distribution) (i : N)
    : result error string :=
  id ← or_fail (BurrowIDs d !! N.to_nat i) IndexPanic;
  mret (default "" (burrowNames !! id)).

Definition burrow_names (c : Catalog) : gmap string string :=
  index_by BurrowID Name (Burrows c) ∅.
Definition distribution_index (ds : list Distribution) : gmap string Distribution :=
  index_by DistributionID id ds ∅.

(** The owner names of one table, in vshard order. *)
Definition table_owners (burrowNames : gmap string string)
    (distributions : gmap string Distribution) (p : string * string) : result error (list string) :=
  let distribution := default zero_distribution (distributions !! p.2) in
  mmap (owner_name burrowNames distribution) (OwnerIndexes distribution).

Definition TablePlacements (c : Catalog) : result error (gmap string (list string)) :=
  Validate c;;
  let burrowNames := burrow_names c in
  let distributions := distribution_index (Distributions c) in
  mfold (λ placements p,
    owners ← table_owners burrowNames distributions p;
    Ok (<[p.1 := owners]> placements)) ∅ (map_range (TableDistributions c)).

Definition RoutableBurrowNames (c : Catalog) : list string :=
  sort_strings (Name <$> filter (λ b, routableState (State b) = true) (Burrows c)).

(** ** Bootstrap *)

Definition configured_le (a b : BootstrapBurrow) : Prop :=
  String.le (ConfiguredName a) (ConfiguredName b).
#[export] Instance configured_le_dec : RelDecision configured_le.
Proof. intros a b. unfold configured_le. apply _. Defined.

Definition bootstrap_burrow (acc : gmap string string * list Burrow) (b : BootstrapBurrow)
    : result error (gmap string string * list Burrow) :=
  let '(byName, burrows) := acc in
  let name := ConfiguredName b in
  fail_if (bool_decide (name = "" ∨ DSN b = "")) BootstrapIncomplete;;
  fail_if (bool_decide (is_Some (byName !! name))) (DuplicateConfigured name);;
  let id := StableBurrowID name in
  let '(address, fingerprint) := tunnelMetadata (DSN b) in
  mret (<[name := id]> byName,
        burrows ++ [{| BurrowID := id; Name := name; State := BurrowReady;
          Tunnels := [{| TunnelName := "primary"; Address := address;
                         ConfigurationFingerprint := fingerprint |}];
          Weight := 1; CapacityBytes := 0; Labels := ∅ |}]).

Definition bootstrap_owner (byName : gmap string string)
    (acc : list string * gmap string N * list N) (p : nat * string)
    : result error (list string * gmap string N * list N) :=
  let '(ownerDictionary, ownerIndexesByID, ownerIndexes) := acc in
  id ← or_fail (byName !! p.2) (LegacyUnconfigured p.1 p.2);
  match ownerIndexesByID !! id with
  | Some ownerIndex => mret (ownerDictionary, ownerIndexesByID, ownerIndexes ++ [ownerIndex])
  | None =>
    fail_if (bool_decide (2 ^ 16 ≤ Z.of_nat (length ownerDictionary))) TooManyOwners;;
    let ownerIndex := (N.of_nat (length ownerDictionary) mod 2 ^ 16)%N in
    mret (ownerDictionary ++ [id], <[id := ownerIndex]> ownerIndexesByID,
          ownerIndexes ++ [ownerIndex])
  end.

Definition Bootstrap (registry : schema.Registry) (configured : list BootstrapBurrow)
    (legacyOwners : list string) (now : Z) : result error Catalog :=
  fail_if (bool_decide (length configured = 0%nat)) NoConfiguredBurrow;;
  let configured := merge_sort configured_le configured in
  acc ← mfold bootstrap_burrow (∅, []) configured;
  let '(byName, burrows) := acc in
  let legacyOwners :=
    if decide (length legacyOwners = 0%nat)
    then LegacyModuloOwners (ConfiguredName <$> configured) DefaultVShardCount
    else legacyOwners in
  owners ← mfold (bootstrap_owner byName) ([], ∅, []) (enumerate legacyOwners);
  let '(ownerDictionary, _, ownerIndexes) := owners in
  let tableDistributions : gmap string string :=
    index_by id (λ _, BootstrapDistribution) (schema.CanonicalShardedTables registry) ∅ in
  let revision := if decide (schema.revision registry = 0) then 1 else schema.revision registry in
  let catalog := {|
    FormatVersion := CurrentFormatVersion; Revision := 1;
    Schema := {| RegistryFormat := schema.CurrentFormatVersion; SchemaRevision := revision;
                 SchemaFingerprint := schema.Fingerprint registry |};
    Burrows := burrows;
    Distributions := [{| DistributionID := BootstrapDistribution;
      VShardCount := Z.of_nat (length ownerIndexes);
      BurrowIDs := ownerDictionary; OwnerIndexes := ownerIndexes |}];
    TableDistributions := tableDistributions;
    Change := {| Actor := "hamstergres-proxy";
      Reason := "bootstrap schema-registry v3 placement"; Timestamp := now |} |} in
  Validate catalog;;
  mret catalog.

(** ** Transitions between published catalogs *)

Definition transition_burrow (previous : gmap string Burrow) (b : Burrow)
    : result error (gmap string Burrow) :=
  match previous !! BurrowID b with
  | None =>
    fail_if (bool_decide (State b ≠ BurrowAdding)) (NewBurrowNotAdding (Name b));;
    mret previous
  | Some old =>
    fail_if (negb (validTransition (State old) (State b)))
      (InvalidTransition (Name b) (State old) (State b));;
    mret (delete (BurrowID b) previous)
  end.

Definition burrow_index (bs : list Burrow) : gmap string Burrow :=
  index_by BurrowID id bs ∅.

Definition ValidateTransition (previous next : Catalog) : result error unit :=
  map_err CurrentInvalid (Validate previous);;
  Validate next;;
  fail_if (bool_decide (Revision next ≠ wrap 64 (Revision previous + 1))) RevisionMustAdvance;;
  fail_if (negb (Timestamp (Change previous) <? Timestamp (Change next))) TimestampMustAdvance;;
  remaining ← mfold transition_burrow (burrow_index (Burrows previous)) (Burrows next);
  fail_if (bool_decide (size remaining ≠ 0%nat)) BurrowLeftCatalog;;
  check_all (λ d,
    match distribution_index (Distributions previous) !! DistributionID d with
    | Some old => fail_if (bool_decide (VShardCount old ≠ VShardCount d))
                    (VShardCountChanged (DistributionID d))
    | None => Ok tt
    end) (Distributions next).
End with_std.

(** * The well-formedness the validator decides *)

Definition tunnel_wf (t : TunnelEndpoint) : Prop :=
  TunnelName t ≠ "" ∧ Address t ≠ "" ∧ ConfigurationFingerprint t ≠ "".

Record burrow_wf (b : Burrow) : Prop := {
  bw_id : BurrowID b ≠ ""; bw_name : Name b ≠ "";
  bw_state : validState (State b) = true;
  bw_weight : Weight b ≠ 0; bw_capacity : 0 ≤ CapacityBytes b;
  bw_reachable : State b = BurrowRemoved ∨ Tunnels b ≠ [];
  bw_tunnels : Forall tunnel_wf (Tunnels b);
  bw_tunnel_names : NoDup (TunnelName <$> Tunnels b);
  bw_labels : map_Forall (λ k _, blank k = false) (Labels b);
}.

(** An owner of vshards is a Burrow of the catalog that can serve them. *)
Definition owner_wf (bs : list Burrow) (owner : string) : Prop :=
  ∃ b, b ∈ bs ∧ BurrowID b = owner ∧ routableState (State b) = true.

Record distribution_wf (bs : list Burrow) (d : Distribution) : Prop := {
  dw_id : DistributionID d ≠ "";
  dw_count : 0 < VShardCount d;
  dw_cover : Z.of_nat (length (OwnerIndexes d)) = VShardCount d;
  dw_dict : (0 < length (BurrowIDs d))%nat ∧ Z.of_nat (length (BurrowIDs d)) ≤ 2 ^ 16;
  dw_nodup : NoDup (BurrowIDs d);
  dw_owners : Forall (owner_wf bs) (BurrowIDs d);
  dw_indexes : Forall (λ i, (i < N.of_nat (length (BurrowIDs d)))%N) (OwnerIndexes d);
}.

Record catalog_wf (c : Catalog) : Prop := {
  cw_format : FormatVersion c = CurrentFormatVersion;
  cw_revision : Revision c ≠ 0;
  cw_schema : 0 < RegistryFormat (Schema c) ∧ SchemaRevision (Schema c) ≠ 0
              ∧ SchemaFingerprint (Schema c) ≠ "";
  cw_change : Actor (Change c) ≠ "" ∧ Reason (Change c) ≠ "" ∧ Timestamp (Change c) ≠ 0;
  cw_burrows : Forall burrow_wf (Burrows c);
  cw_ids : NoDup (BurrowID <$> Burrows c);
  cw_names : NoDup (Name <$> Burrows c);
  cw_distributions : Forall (distribution_wf (Burrows c)) (Distributions c);
  cw_distribution_ids : NoDup (DistributionID <$> Distributions c);
  cw_tables : map_Forall (λ t d, blank t = false ∧ d ∈ (DistributionID <$> Distributions c))
                (TableDistributions c);
}.

(** * Lemmas *)

Lemma validate_tunnel_ok n s t s' :
  validate_tunnel n s t = Ok s' ↔ tunnel_wf t ∧ (TunnelName t ∉ s) ∧ s' = {[TunnelName t]} ∪ s.
Proof.
  unfold validate_tunnel, tunnel_wf. rewrite !seq_ok, !fail_if_ok, !bool_decide_eq_false.
  split; [intros (? & ? & [= <-]) | intros (? & ? & ->)]; repeat split; try done; tauto.
Qed.

Section validation_lemmas.
Context `{MapOrder}.

Lemma labels_ok n (labels : gmap string string) :
  check_all (λ p, fail_if (blank p.1) (EmptyLabelKey n)) (map_range labels) = Ok tt ↔
  map_Forall (λ k _, blank k = false) labels.
Proof. rewrite check_all_ok, Forall_map_range. by setoid_rewrite fail_if_ok. Qed.

Lemma tunnels_ok n l :
  (∃ s, mfold (validate_tunnel n) ∅ l = Ok s) ↔
  Forall tunnel_wf l ∧ NoDup (TunnelName <$> l).
Proof.
  rewrite <- apart_NoDup. setoid_rewrite (guarded_loop _ _ (λ s t, TunnelName t ∉ s)
    (λ t t', TunnelName t ≠ TunnelName t') _ (validate_tunnel_ok n)).
  2:{ intros ???. cbn. rewrite not_elem_of_union, not_elem_of_singleton. naive_solver. }
  split; [by intros (s & ? & _ & ? & _)|].
  intros [? ?]. eexists. repeat split; try done. apply Forall_forall. set_solver.
Qed.

Lemma validate_burrow_ok acc b acc' :
  validate_burrow acc b = Ok acc' ↔
  burrow_wf b ∧ acc.1 !! BurrowID b = None ∧ (Name b ∉ acc.2) ∧
  acc' = (<[BurrowID b := b]> acc.1, {[Name b]} ∪ acc.2).
Proof.
  destruct acc as [m s]. unfold validate_burrow. cbn [fst snd].
  rewrite !seq_ok, !fail_if_ok, !bool_decide_eq_false, negb_false_iff, then_ok, tunnels_ok,
    seq_ok, labels_ok, <- eq_None_not_Some. split.
  - intros (Hid & Hfresh & Hn & Hst & Hw & Hc & Ht & [HF Hnd] & Hl & [= <-]).
    repeat split; try done; try lia; try tauto.
    destruct (decide (State b = BurrowRemoved)); tauto.
  - intros ([] & Hfresh & Hn & ->).
    repeat match goal with |- _ ∧ _ => split end; try done; try tauto; try lia.
Qed.

Lemma validate_burrows_ok l acc :
  mfold validate_burrow (∅, ∅) l = Ok acc ↔
  (Forall burrow_wf l ∧ NoDup (BurrowID <$> l) ∧ NoDup (Name <$> l)) ∧
  acc = fold_left (λ acc b, (<[BurrowID b := b]> acc.1, {[Name b]} ∪ acc.2)) l (∅, ∅).
Proof.
  rewrite <- !apart_NoDup, <- apart_and.
  rewrite (guarded_loop _ burrow_wf (λ acc b, acc.1 !! BurrowID b = None ∧ Name b ∉ acc.2)
    (λ b b', BurrowID b ≠ BurrowID b' ∧ Name b ≠ Name b')
    (λ acc b, (<[BurrowID b := b]> acc.1, {[Name b]} ∪ acc.2))).
  - assert (Forall (λ b, (∅ : gmap string Burrow) !! BurrowID b = None ∧ Name b ∉ (∅ : gset string)) l)
      by (apply Forall_forall; set_solver). cbn [fst snd]. tauto.
  - intros s b s'. rewrite validate_burrow_ok. tauto.
  - intros [m s] b b'. cbn. rewrite lookup_insert_None. set_solver.
Qed.
(** The Burrow map of [Validate] after its first loop. *)
Lemma validated_index l :
  (fold_left (λ (acc : gmap string Burrow * gset string) b,
     (<[BurrowID b := b]> acc.1, {[Name b]} ∪ acc.2)) l (∅, ∅)).1 = burrow_index l.
Proof.
  unfold burrow_index, index_by.
  assert (∀ m s, (fold_left (λ (acc : gmap string Burrow * gset string) b,
     (<[BurrowID b := b]> acc.1, {[Name b]} ∪ acc.2)) l (m, s)).1 =
     fold_left (λ m a, <[BurrowID a := id a]> m) l m) as ->; [|done].
  induction l as [|b l IH]; intros m s; cbn; [done|]. apply IH.
Qed.

Lemma validate_owner_ok bs d s o s' :
  NoDup (BurrowID <$> bs) →
  validate_owner (burrow_index bs) d s o = Ok s' ↔
  owner_wf bs o ∧ (o ∉ s) ∧ s' = {[o]} ∪ s.
Proof.
  intros Hnd. unfold validate_owner, owner_wf, burrow_index.
  rewrite seq_ok, fail_if_ok, bool_decide_eq_false, bind_ok.
  setoid_rewrite or_fail_ok. setoid_rewrite (index_by_lookup BurrowID id bs o _ Hnd).
  split.
  - intros (Hs & b & (b' & Hin & Hid & <-) & Hk). cbn in Hk.
    apply seq_ok in Hk as [Hr%fail_if_ok [= <-]]. apply negb_false_iff in Hr. eauto 10.
  - intros ((b & Hin & Hid & Hr) & Hs & ->). split; [done|].
    exists b. split; [eauto|]. apply seq_ok. by rewrite fail_if_ok, Hr.
Qed.

Lemma validate_distribution_ok bs m d m' :
  NoDup (BurrowID <$> bs) →
  validate_distribution (burrow_index bs) m d = Ok m' ↔
  distribution_wf bs d ∧ m !! DistributionID d = None ∧ m' = <[DistributionID d := d]> m.
Proof.
  intros Hnd. unfold validate_distribution.
  rewrite !seq_ok, then_ok, seq_ok, !fail_if_ok, !bool_decide_eq_false, <- eq_None_not_Some.
  rewrite check_all_ok. setoid_rewrite fail_if_ok. setoid_rewrite bool_decide_eq_false.
  setoid_rewrite (guarded_loop _ _ (λ s o, o ∉ s) (λ o o', id o ≠ id o') _
    (λ s o s', validate_owner_ok bs (DistributionID d) s o s' Hnd)).
  2:{ intros ???. cbn. rewrite not_elem_of_union, not_elem_of_singleton. naive_solver. }
  setoid_rewrite (apart_NoDup (@id string)). rewrite list_fmap_id.
  assert (Forall (λ p, ¬ (N.of_nat (length (BurrowIDs d)) ≤ p.2)%N) (enumerate (OwnerIndexes d)) ↔
          Forall (λ i, (i < N.of_nat (length (BurrowIDs d)))%N) (OwnerIndexes d)) as ->.
  { rewrite <- (enumerate_from_snd 0 (OwnerIndexes d)) at 2. rewrite Forall_fmap.
    apply Forall_iff. intros p. cbn. lia. }
  split.
  - intros (Hid & Hfresh & Hcov & Hdict & (s' & How & _ & Hnd' & _) & Hix & [= <-]).
    repeat split; try done; lia.
  - intros ([? ? ? ? ? ? ?] & Hfresh & ->).
    repeat match goal with |- _ ∧ _ => split end; try done; try lia.
    eexists. repeat split; try done. apply Forall_forall. set_solver.
Qed.

Lemma validate_distributions_ok bs l m :
  NoDup (BurrowID <$> bs) →
  mfold (validate_distribution (burrow_index bs)) ∅ l = Ok m ↔
  Forall (distribution_wf bs) l ∧ NoDup (DistributionID <$> l) ∧ m = distribution_index l.
Proof.
  intros Hnd. rewrite <- apart_NoDup.
  rewrite (guarded_loop _ (distribution_wf bs) (λ m d, m !! DistributionID d = None)
    (λ d d', DistributionID d ≠ DistributionID d') (λ m d, <[DistributionID d := d]> m)).
  - assert (Forall (λ d, (∅ : gmap string Distribution) !! DistributionID d = None) l)
      by by apply Forall_forall. unfold distribution_index, index_by. cbn [id]. tauto.
  - intros. by apply validate_distribution_ok.
  - intros ???. cbn. by rewrite lookup_insert_None.
Qed.

Lemma validate_tables_ok ds (t : gmap string string) :
  NoDup (DistributionID <$> ds) →
  check_all (validate_table (distribution_index ds)) (map_range t) = Ok tt ↔
  map_Forall (λ t d, blank t = false ∧ d ∈ (DistributionID <$> ds)) t.
Proof.
  intros Hnd. rewrite check_all_ok, Forall_map_range. unfold map_Forall, validate_table; cbn.
  apply forall_proper; intros k. apply forall_proper; intros d.
  rewrite seq_ok, !fail_if_ok, bool_decide_eq_false, not_eq_None_Some.
  assert (is_Some (distribution_index ds !! d) ↔ d ∈ (DistributionID <$> ds)) as Hd; [|tauto].
  unfold distribution_index, is_Some.
  setoid_rewrite (index_by_lookup DistributionID id ds d _ Hnd).
  rewrite list_elem_of_fmap. naive_solver.
Qed.

Lemma Validate_wf c : Validate c = Ok tt ↔ catalog_wf c.
Proof.
  unfold Validate. rewrite !seq_ok, fail_if_ne_ok, !fail_if_ok, !bool_decide_eq_false, bind_ok.
  setoid_rewrite validate_burrows_ok. split.
  - intros (Hf & Hr & Hs & Hc & acc & [(HB & Hid & Hn) ->] & Hk).
    rewrite validated_index in Hk. apply bind_ok in Hk as (m & Hm & Ht).
    apply validate_distributions_ok in Hm as (HD & Hdid & ->); [|done].
    apply validate_tables_ok in Ht; [|done].
    apply Decidable.not_or in Hs as [Hs1 Hs2].
    constructor; try done; repeat split; try tauto; lia.
  - intros [Hf Hr Hs Hc HB Hid Hn HD Hdid Ht].
    repeat match goal with |- _ ∧ _ => split end; try done; try tauto.
    { intros [?|?]; [lia | tauto]. }
    eexists. split; [done|]. rewrite validated_index. apply bind_ok.
    exists (distribution_index (Distributions c)). split.
    + by apply validate_distributions_ok.
    + by apply validate_tables_ok.
Qed.
End validation_lemmas.

(** ** Placement projection *)

(** Vshard [v] of distribution [d] is served by the Burrow named [name]. *)
Definition owner_at (c : Catalog) (d : Distribution) (v : nat) (name : string) : Prop :=
  ∃ i b, OwnerIndexes d !! v = Some i ∧ BurrowIDs d !! N.to_nat i = Some (BurrowID b) ∧
    b ∈ Burrows c ∧ Name b = name ∧ routableState (State b) = true.

Lemma burrow_names_lookup c b :
  NoDup (BurrowID <$> Burrows c) → b ∈ Burrows c → burrow_names c !! BurrowID b = Some (Name b).
Proof. intros Hnd Hin. apply index_by_lookup; eauto. Qed.

Lemma distribution_index_lookup ds d :
  NoDup (DistributionID <$> ds) → d ∈ ds → distribution_index ds !! DistributionID d = Some d.
Proof. intros Hnd Hin. apply index_by_lookup; [done|]. exists d. auto. Qed.

Lemma routable_name c b :
  b ∈ Burrows c → routableState (State b) = true → Name b ∈ RoutableBurrowNames c.
Proof.
  intros Hin Hr. unfold RoutableBurrowNames. rewrite sort_strings_perm.
  apply list_elem_of_fmap_2, list_elem_of_filter. done.
Qed.

(** Every index of a well-formed distribution resolves to a serving Burrow. *)
Lemma owner_name_wf c d i :
  catalog_wf c → d ∈ Distributions c → i ∈ OwnerIndexes d →
  ∃ b, BurrowIDs d !! N.to_nat i = Some (BurrowID b) ∧ b ∈ Burrows c ∧
    routableState (State b) = true ∧ owner_name (burrow_names c) d i = Ok (Name b).
Proof.
  intros [_ _ _ _ _ Hnd _ HD _ _] Hd Hi. rewrite Forall_forall in HD.
  destruct (HD d Hd) as [_ _ _ _ _ Ho Hix]. rewrite Forall_forall in Hix. rewrite Forall_forall in Ho.
  destruct (lookup_lt_is_Some_2 (BurrowIDs d) (N.to_nat i)) as [o Hlook]; [specialize (Hix i Hi); lia|].
  destruct (Ho o) as (b & Hb & <- & Hr); [apply list_elem_of_lookup; eauto|].
  exists b. repeat split; try done. unfold owner_name. rewrite Hlook. cbn.
  by rewrite (burrow_names_lookup c b).
Qed.

Lemma table_owners_eq c d t :
  catalog_wf c → d ∈ Distributions c →
  table_owners (burrow_names c) (distribution_index (Distributions c)) (t, DistributionID d) =
  mmap (owner_name (burrow_names c) d) (OwnerIndexes d).
Proof.
  intros Hwf Hd. unfold table_owners. cbn [snd].
  by rewrite (distribution_index_lookup _ d) by (by destruct Hwf).
Qed.

Lemma table_owners_wf c d t :
  catalog_wf c → d ∈ Distributions c →
  ∃ owners, table_owners (burrow_names c) (distribution_index (Distributions c))
      (t, DistributionID d) = Ok owners ∧
    Z.of_nat (length owners) = VShardCount d ∧
    ∀ v name, owners !! v = Some name → owner_at c d v name.
Proof.
  intros Hwf Hd. rewrite table_owners_eq by done.
  assert (∀ ixs, (∀ i, i ∈ ixs → i ∈ OwnerIndexes d) → ∃ owners,
    mmap (owner_name (burrow_names c) d) ixs = Ok owners) as Hgen.
  { induction ixs as [|i ixs IH]; intros Hin; [by exists []|]. cbn.
    destruct (owner_name_wf c d i) as (b & _ & _ & _ & Hb); [done|done|apply Hin; by left|].
    destruct IH as [owners Ho]; [intros; apply Hin; by right|].
    rewrite Hb, Ho. cbn. eauto. }
  destruct (Hgen (OwnerIndexes d)) as [owners Ho]; [done|]. exists owners.
  pose proof (proj1 (mmap_ok _ _ _) Ho) as Hall. split; [done|].
  pose proof (proj1 (Forall_forall _ _) (cw_distributions _ Hwf) d Hd) as Hdw. split.
  - rewrite <- (dw_cover _ _ Hdw). f_equal. symmetry. by eapply Forall2_length.
  - intros v name Hv. destruct (Forall2_lookup_r _ _ _ _ _ Hall Hv) as (i & Hi & Hname).
    destruct (owner_name_wf c d i) as (b & Hlook & Hb & Hr & Hok);
      [done | done | apply list_elem_of_lookup; eauto |].
    rewrite Hok in Hname. injection Hname as <-. exists i, b. done.
Qed.

Section placement_lemmas.
Context `{MapOrder}.

Lemma TablePlacements_wf c :
  catalog_wf c →
  ∃ p, TablePlacements c = Ok p ∧
    ∀ t d, d ∈ Distributions c → TableDistributions c !! t = Some (DistributionID d) →
      ∃ owners, p !! t = Some owners ∧
        table_owners (burrow_names c) (distribution_index (Distributions c))
          (t, DistributionID d) = Ok owners.
Proof.
  intros Hwf. unfold TablePlacements. rewrite (proj2 (Validate_wf c) Hwf). cbn.
  set (f := table_owners _ _).
  assert (∀ q, q ∈ map_range (TableDistributions c) → ∃ owners, f q = Ok owners) as Hf.
  { intros [t did] Hin%elem_of_map_range. destruct (cw_tables _ Hwf t did Hin) as [_ Hd].
    apply list_elem_of_fmap in Hd as (d & -> & Hd).
    destruct (table_owners_wf c d t Hwf Hd) as (owners & Ho & _). eauto. }
  destruct (build_map_ok f (λ q, default [] (to_option (f q))) (map_range (TableDistributions c)) ∅)
    as (p & Hp & Hin & _).
  { apply NoDup_fst_map_range. }
  { intros q Hq. destruct (Hf q Hq) as [owners ->]. done. }
  exists p. split; [exact Hp|]. intros t d Hd Ht.
  destruct (table_owners_wf c d t Hwf Hd) as (owners & Ho & _). exists owners. split; [|done].
  rewrite (Hin t (DistributionID d)) by by apply elem_of_map_range.
  by rewrite (Ho : f (t, DistributionID d) = _).
Qed.
End placement_lemmas.

(** ** Bootstrap *)

Section bootstrap_lemmas.
Context `{MapOrder, GoStd}.

Lemma bootstrap_burrows_inv l acc :
  mfold bootstrap_burrow (∅, []) l = Ok acc →
  ∀ n id, acc.1 !! n = Some id → ∃ b, b ∈ acc.2 ∧ Name b = n ∧ BurrowID b = id.
Proof.
  intros Hl. eapply (mfold_ind _ (λ _ acc, ∀ n id, acc.1 !! n = Some id →
    ∃ b, b ∈ acc.2 ∧ Name b = n ∧ BurrowID b = id) _ _ _ Hl); [done|].
  intros _ b _ [m bs] acc' _ IH Hstep. unfold bootstrap_burrow in Hstep.
  destruct (tunnelMetadata (DSN b)) as [address fingerprint].
  rewrite !seq_ok in Hstep. destruct Hstep as (_ & _ & [= <-]). cbn [fst snd] in *.
  intros n id Hn. apply lookup_insert_Some in Hn as [[<- <-]|[_ Hn]].
  - eexists. split; [apply elem_of_app; right; by apply list_elem_of_singleton | done].
  - destruct (IH n id Hn) as (b' & Hin & ? & ?). exists b'. split; [set_solver | done].
Qed.

(** The dictionary encodes the owner array: index [i] of a vshard resolves
    to the ID of its owner. *)
Lemma bootstrap_owners_inv byName owners dict ix idxs :
  mfold (bootstrap_owner byName) ([], ∅, []) (enumerate owners) = Ok (dict, ix, idxs) →
  Forall2 (λ owner i, ∃ id, byName !! owner = Some id ∧ dict !! N.to_nat i = Some id) owners idxs.
Proof.
  intros Hl.
  cut (Forall2 (λ (p : nat * string) i, ∃ id, byName !! p.2 = Some id ∧ dict !! N.to_nat i = Some id)
    (enumerate owners) idxs).
  { intros Hall. rewrite <- (enumerate_from_snd 0 owners). by apply Forall2_fmap_l. }
  pose (P := λ (visited : list (nat * string)) (acc : list string * gmap string N * list N),
    Forall2 (λ p i, ∃ id, byName !! p.2 = Some id ∧ acc.1.1 !! N.to_nat i = Some id) visited acc.2 ∧
    (∀ id i, acc.1.2 !! id = Some i → acc.1.1 !! N.to_nat i = Some id)).
  cut (P (enumerate owners) (dict, ix, idxs)); [by intros [? _]|].
  eapply (mfold_ind _ P _ _ _ Hl); [split; [constructor | done]|].
  intros visited p rest [[dict0 ix0] idxs0] acc' _ [Hall Hix] Hstep. unfold bootstrap_owner in Hstep.
  apply bind_ok in Hstep as (id & Hid%or_fail_ok & Hstep). cbn [fst snd] in *.
  destruct (ix0 !! id) as [i|] eqn:Ei.
  - injection Hstep as <-. split; [|done]. apply Forall2_app; [done|].
    constructor; [|constructor]. eauto.
  - apply seq_ok in Hstep as [Hlen [= <-]]. apply fail_if_ok, bool_decide_eq_false in Hlen.
    rewrite N.mod_small by lia. split; cbn.
    + apply Forall2_app.
      * eapply Forall2_impl; [exact Hall|]. intros q i (id' & ? & ?). exists id'.
        split; [done | by apply lookup_app_l_Some].
      * constructor; [|constructor]. exists id. split; [done|].
        rewrite Nat2N.id. by apply list_lookup_middle.
    + intros id' i' [[<- <-]|[_ Hi']]%lookup_insert_Some.
      * rewrite Nat2N.id. by apply list_lookup_middle.
      * by apply lookup_app_l_Some, Hix.
Qed.

(** The owner array the published catalog must reproduce. *)
Definition bootstrap_owners (configured : list BootstrapBurrow) (legacyOwners : list string)
    : list string :=
  if decide (length legacyOwners = 0%nat)
  then LegacyModuloOwners (ConfiguredName <$> configured) DefaultVShardCount
  else legacyOwners.

Lemma LegacyModuloOwners_perm l1 l2 n :
  l1 ≡ₚ l2 → LegacyModuloOwners l1 n = LegacyModuloOwners l2 n.
Proof. intros Hp. unfold LegacyModuloOwners. by rewrite (sort_strings_unique l1 l2). Qed.

Lemma Bootstrap_inv registry configured legacy now c :
  Bootstrap registry configured legacy now = Ok c →
  ∃ byName burrows dict ix idxs,
    mfold bootstrap_burrow (∅, []) (merge_sort configured_le configured) = Ok (byName, burrows) ∧
    mfold (bootstrap_owner byName) ([], ∅, [])
      (enumerate (bootstrap_owners configured legacy)) = Ok (dict, ix, idxs) ∧
    catalog_wf c ∧ Burrows c = burrows ∧
    Distributions c = [{| DistributionID := BootstrapDistribution;
      VShardCount := Z.of_nat (length idxs); BurrowIDs := dict; OwnerIndexes := idxs |}] ∧
    TableDistributions c =
      index_by id (λ _, BootstrapDistribution) (schema.CanonicalShardedTables registry) ∅.
Proof.
  unfold Bootstrap. intros [_ Hb]%seq_ok.
  apply bind_ok in Hb as ([byName burrows] & Hburrows & Hb).
  apply bind_ok in Hb as ([[dict ix] idxs] & Howners & Hb).
  apply seq_ok in Hb as [Hv [= Hc]]. exists byName, burrows, dict, ix, idxs.
  split; [done|]. split.
  - rewrite <- Howners. unfold bootstrap_owners. destruct (decide (length legacy = 0%nat)); [|done].
    do 2 f_equal. apply LegacyModuloOwners_perm. by rewrite merge_sort_Permutation.
  - apply Validate_wf in Hv. rewrite <- Hc. split; [exact Hv | repeat split; done].
Qed.
End bootstrap_lemmas.

Lemma index_by_const {B} (l : list string) (b : B) k :
  k ∈ l → index_by id (λ _, b) l ∅ !! k = Some b.
Proof.
  assert (∀ (m : gmap string B), k ∈ l ∨ m !! k = Some b →
    index_by id (λ _, b) l m !! k = Some b) as Hgen; [|auto].
  unfold index_by. induction l as [|a l IH]; intros m Hk; cbn; [set_solver|].
  apply IH. rewrite elem_of_cons in Hk. destruct (decide (a = k)) as [<-|].
  - right. apply lookup_insert_eq.
  - rewrite lookup_insert_ne by done. naive_solver.
Qed.

(** ** Transitions *)

Lemma transition_burrows_ok l (m m' : gmap string Burrow) :
  NoDup (BurrowID <$> l) →
  mfold transition_burrow m l = Ok m' ↔
  (∀ b, b ∈ l → match m !! BurrowID b with
                | None => State b = BurrowAdding
                | Some old => validTransition (State old) (State b) = true
                end) ∧
  m' = filter (λ p, p.1 ∉ (BurrowID <$> l)) m.
Proof.
  revert m. induction l as [|b l IH]; intros m Hnd.
  - cbn. rewrite map_filter_id by (intros; apply not_elem_of_nil).
    split; [intros [= <-]; set_solver | by intros [_ ->]].
  - apply NoDup_cons in Hnd as [Hb Hnd]. rewrite mfold_cons_ok.
    assert (∀ m1, transition_burrow m b = Ok m1 ↔
      match m !! BurrowID b with
      | None => State b = BurrowAdding
      | Some old => validTransition (State old) (State b) = true
      end ∧ m1 = delete (BurrowID b) m) as Hstep.
    { intros m1. unfold transition_burrow. destruct (m !! BurrowID b) eqn:E; rewrite seq_ok.
      - rewrite fail_if_ok, negb_false_iff. split; [intros [? [= <-]]; done | by intros [? ->]].
      - rewrite fail_if_ne_ok, delete_id by done.
        split; [intros [? [= <-]]; done | by intros [? ->]]. }
    setoid_rewrite Hstep. setoid_rewrite IH; [|done].
    assert (filter (λ p, p.1 ∉ (BurrowID <$> l)) (delete (BurrowID b) m) =
            filter (λ p, p.1 ∉ (BurrowID <$> b :: l)) m) as Hfilter.
    { apply map_eq. intros k. apply option_eq. intros b'.
      rewrite !map_lookup_filter_Some, lookup_delete_Some. cbn. set_solver. }
    rewrite <- Hfilter. split.
    + intros (m1 & (Hs & ->) & Hall & ->). split; [|done].
      intros b' [->|Hin]%elem_of_cons; [done|]. specialize (Hall b' Hin).
      rewrite lookup_delete_ne in Hall; [done|]. intros Heq. destruct Hb. rewrite Heq.
      by apply list_elem_of_fmap_2.
    + intros (Hall & ->). eexists. split; [split; [apply Hall; by left | done]|].
      split; [|done]. intros b' Hin. rewrite lookup_delete_ne.
      * apply Hall. by right.
      * intros Heq. destruct Hb. rewrite Heq. by apply list_elem_of_fmap_2.
Qed.

Lemma burrow_index_lookup bs k b :
  NoDup (BurrowID <$> bs) → burrow_index bs !! k = Some b ↔ b ∈ bs ∧ BurrowID b = k.
Proof. intros Hnd. unfold burrow_index. rewrite index_by_lookup by done. cbn. naive_solver. Qed.

(** What one accepted transition guarantees. *)
Record transition_wf (previous next : Catalog) : Prop := {
  tw_revision : Revision next = wrap 64 (Revision previous + 1);
  tw_time : Timestamp (Change previous) < Timestamp (Change next);
  tw_kept : ∀ b, b ∈ Burrows previous → ∃ b', b' ∈ Burrows next ∧ BurrowID b' = BurrowID b;
  tw_state : ∀ b b', b ∈ Burrows previous → b' ∈ Burrows next → BurrowID b' = BurrowID b →
    validTransition (State b) (State b') = true;
  tw_new : ∀ b', b' ∈ Burrows next → BurrowID b' ∉ (BurrowID <$> Burrows previous) →
    State b' = BurrowAdding;
  tw_count : ∀ d d', d ∈ Distributions previous → d' ∈ Distributions next →
    DistributionID d' = DistributionID d → VShardCount d' = VShardCount d;
}.

Lemma transition_burrows_wf ps ns :
  NoDup (BurrowID <$> ps) → NoDup (BurrowID <$> ns) →
  (∃ m', mfold transition_burrow (burrow_index ps) ns = Ok m' ∧ size m' = 0%nat) ↔
  (∀ b, b ∈ ps → ∃ b', b' ∈ ns ∧ BurrowID b' = BurrowID b) ∧
  (∀ b b', b ∈ ps → b' ∈ ns → BurrowID b' = BurrowID b →
    validTransition (State b) (State b') = true) ∧
  (∀ b', b' ∈ ns → BurrowID b' ∉ (BurrowID <$> ps) → State b' = BurrowAdding).
Proof.
  intros Hp Hn. setoid_rewrite transition_burrows_ok; [|done].
  setoid_rewrite map_size_empty_iff.
  assert ((∀ b, b ∈ ns → match burrow_index ps !! BurrowID b with
      | None => State b = BurrowAdding
      | Some old => validTransition (State old) (State b) = true end) ↔
    (∀ b b', b ∈ ps → b' ∈ ns → BurrowID b' = BurrowID b →
      validTransition (State b) (State b') = true) ∧
    (∀ b', b' ∈ ns → BurrowID b' ∉ (BurrowID <$> ps) → State b' = BurrowAdding)) as Hmatch.
  { split.
    - intros Hall. split.
      + intros b b' Hb Hb' Hid. specialize (Hall b' Hb'). rewrite Hid in Hall.
        by rewrite (proj2 (burrow_index_lookup ps _ b Hp)) in Hall.
      + intros b' Hb' Hnot. specialize (Hall b' Hb'). unfold burrow_index in Hall.
        rewrite index_by_lookup_ne in Hall by done. by rewrite lookup_empty in Hall.
    - intros [Hs Hnew] b' Hb'. destruct (burrow_index ps !! BurrowID b') as [b|] eqn:E.
      + apply burrow_index_lookup in E as [Hb Hid]; [|done]. by apply Hs.
      + apply Hnew; [done|]. intros (b & Hid & Hb)%list_elem_of_fmap.
        rewrite (proj2 (burrow_index_lookup ps _ b Hp)) in E; naive_solver. }
  assert (filter (λ p, p.1 ∉ (BurrowID <$> ns)) (burrow_index ps) = ∅ ↔
    (∀ b, b ∈ ps → ∃ b', b' ∈ ns ∧ BurrowID b' = BurrowID b)) as Hkept.
  { split.
    - intros He b Hb. destruct (decide (BurrowID b ∈ (BurrowID <$> ns))) as [Hin|Hnot].
      + apply list_elem_of_fmap in Hin as (b' & ? & ?). eauto.
      + exfalso. assert (filter (λ p, p.1 ∉ (BurrowID <$> ns)) (burrow_index ps) !! BurrowID b = Some b)
          as Hl; [|by rewrite He, lookup_empty in Hl]. apply map_lookup_filter_Some. split; [by apply burrow_index_lookup | done].
    - intros Hk. apply map_empty. intros k. apply eq_None_not_Some. intros [b Hb].
      apply map_lookup_filter_Some in Hb as [Hb Hnot]. cbn in Hnot.
      apply burrow_index_lookup in Hb as [Hb <-]; [|done].
      destruct (Hk b Hb) as (b' & Hb' & Hid). apply Hnot. rewrite <- Hid.
      by apply list_elem_of_fmap_2. }
  split; [intros (m' & [Hs%Hmatch ->] & He) | intros (Hk & Hs)].
  - split; [by apply Hkept | done].
  - eexists. split; [split; [by apply Hmatch | done]|]. by apply Hkept.
Qed.

Section transition_lemmas.
Context `{MapOrder}.

Lemma ValidateTransition_wf p n :
  ValidateTransition p n = Ok tt ↔ catalog_wf p ∧ catalog_wf n ∧ transition_wf p n.
Proof.
  unfold ValidateTransition. rewrite !seq_ok, fail_if_ne_ok, fail_if_ok, negb_false_iff, Z.ltb_lt.
  rewrite (Validate_wf n).
  assert (map_err CurrentInvalid (Validate p) = Ok tt ↔ catalog_wf p) as ->.
  { rewrite <- Validate_wf. by destruct (Validate p) as [[]|]; split. }
  destruct (decide (NoDup (BurrowID <$> Burrows p) ∧ NoDup (BurrowID <$> Burrows n)
    ∧ NoDup (DistributionID <$> Distributions p))) as [(Hp & Hn & Hd)|Hnd].
  2:{ split; [intros ([] & [] & _) | intros ([] & [] & _)]; destruct Hnd; done. }
  assert (∀ k : result error unit,
    (remaining ← mfold transition_burrow (burrow_index (Burrows p)) (Burrows n);
     fail_if (bool_decide (size remaining ≠ 0%nat)) BurrowLeftCatalog;; k) = Ok tt ↔
    (∃ m', mfold transition_burrow (burrow_index (Burrows p)) (Burrows n) = Ok m' ∧ size m' = 0%nat)
    ∧ k = Ok tt) as ->.
  { intros k. rewrite bind_ok. setoid_rewrite seq_ok. setoid_rewrite fail_if_ne_ok. naive_solver. }
  rewrite transition_burrows_wf, check_all_ok, Forall_forall by done.
  assert ((∀ d', d' ∈ Distributions n →
      match distribution_index (Distributions p) !! DistributionID d' with
      | Some old => fail_if (bool_decide (VShardCount old ≠ VShardCount d'))
                      (VShardCountChanged (DistributionID d'))
      | None => Ok tt end = Ok tt) ↔
    (∀ d d', d ∈ Distributions p → d' ∈ Distributions n →
      DistributionID d' = DistributionID d → VShardCount d' = VShardCount d)) as ->.
  { split.
    - intros Hall d d' Hin Hin' Hid. specialize (Hall d' Hin').
      rewrite Hid, distribution_index_lookup in Hall by done. by apply fail_if_ne_ok in Hall.
    - intros Hall d' Hin'. destruct (distribution_index _ !! _) as [d|] eqn:E; [|done].
      unfold distribution_index in E. apply index_by_lookup in E as (d0 & Hin & Hid & <-); [|done].
      apply fail_if_ne_ok. cbn. symmetry. by apply Hall. }
  split; [intros (? & ? & ? & ? & (? & ? & ?) & ?) | intros (? & ? & [])]; split_and!; try done; by constructor.
Qed.
End transition_lemmas.

(** ** Histories of published catalogs *)

Definition lifecycle (from to : BurrowState) : Prop := validTransition from to = true.

Lemma lifecycle_removed s : rtc lifecycle BurrowRemoved s → s = BurrowRemoved.
Proof.
  intros Hs. remember BurrowRemoved as r eqn:Hr. induction Hs as [|s t u Hst _ IH]; [done|].
  subst. destruct t; cbn in Hst; try discriminate. auto.
Qed.

Lemma lifecycle_not_adding s t : rtc lifecycle s t → t = BurrowAdding → s = BurrowAdding.
Proof.
  intros Hs ->. remember BurrowAdding as r eqn:Hr. induction Hs as [|s t u Hst _ IH]; [done|].
  specialize (IH Hr). subst. destruct s; cbn in Hst; try discriminate; done.
Qed.

Section history.
Context `{MapOrder}.

(** [next] was published over [previous]. *)
Definition publishes (previous next : Catalog) : Prop :=
  ValidateTransition previous next = Ok tt.

(** What a whole history preserves of its first catalog. *)
Record history_wf (first last : Catalog) (n : nat) : Prop := {
  hw_valid : catalog_wf last;
  hw_revision : Revision last = wrap 64 (Revision first + Z.of_nat n);
  hw_time : Timestamp (Change first) + Z.of_nat n ≤ Timestamp (Change last);
  hw_kept : ∀ b, b ∈ Burrows first → ∃ b', b' ∈ Burrows last ∧ BurrowID b' = BurrowID b ∧
    rtc lifecycle (State b) (State b');
  hw_new : ∀ b', b' ∈ Burrows last → BurrowID b' ∉ (BurrowID <$> Burrows first) →
    rtc lifecycle BurrowAdding (State b');
}.

Lemma history_refl c : catalog_wf c → 0 ≤ Revision c < 2 ^ 64 → history_wf c c 0.
Proof.
  intros Hwf Hr. constructor; [done | | lia | |].
  - unfold wrap. rewrite Z.mod_small; lia.
  - intros b Hb. exists b. split; [done|]. split; [done | constructor].
  - intros b Hb []. by apply list_elem_of_fmap_2.
Qed.

Lemma history_step c c1 c2 n :
  history_wf c c1 n → publishes c1 c2 → history_wf c c2 (S n).
Proof.
  intros [Hwf Hr Ht Hk Hnew] (_ & Hwf2 & [Hr2 Ht2 Hk2 Hs2 Hn2 _])%ValidateTransition_wf.
  constructor; [done | | lia | |].
  - rewrite Hr2, Hr. unfold wrap. rewrite Zplus_mod_idemp_l. f_equal. lia.
  - intros b Hb. destruct (Hk b Hb) as (b1 & Hb1 & Hid1 & Hrtc).
    destruct (Hk2 b1 Hb1) as (b2 & Hb2 & Hid2). exists b2.
    split; [done|]. split; [by rewrite Hid2|].
    eapply rtc_r; [exact Hrtc | by apply Hs2].
  - intros b2 Hb2 Hnot. destruct (decide (BurrowID b2 ∈ (BurrowID <$> Burrows c1))) as [Hin|Hout].
    + apply list_elem_of_fmap in Hin as (b1 & Hid & Hb1).
      eapply rtc_r; [apply (Hnew b1 Hb1); by rewrite <- Hid | by apply Hs2].
    + rewrite (Hn2 b2 Hb2 Hout). constructor.
Qed.
End history.

(** * Properties *)

Section properties.
Context `{MapOrder, GoStd}.

(** C29: [Catalog.Validate] accepts exactly the well-formed
    catalogs: positive revision, complete audit metadata, unique Burrow IDs
    and names in known lifecycle states, and distributions that cover every
    vshard with in-range indexes into a duplicate-free dictionary of Burrows
    that are ready or draining. *)
Theorem Validate_iff_well_formed c : Validate c = Ok tt ↔ catalog_wf c.
Proof. apply Validate_wf. Qed.

Lemma TablePlacements_only c p t owners :
  TablePlacements c = Ok p → p !! t = Some owners → is_Some (TableDistributions c !! t).
Proof.
  unfold TablePlacements. intros [_ Hp]%seq_ok Ht.
  assert (∀ k o, p !! k = Some o → k ∈ (map_range (TableDistributions c)).*1) as Hin.
  { refine (mfold_ind _ (λ l m, ∀ k o, m !! k = Some o → k ∈ l.*1) _ _ _ Hp _ _); [by intros k o|].
    intros l [t' d] rest m m' _ IH (o' & _ & [= <-])%bind_ok k o. rewrite fmap_app, elem_of_app.
    destruct (decide (t' = k)) as [->|Hne]; [right; by left|]. cbn. rewrite lookup_insert_ne by done. eauto. }
  apply Hin in Ht. apply list_elem_of_fmap in Ht as ([k d] & -> & Hd%elem_of_map_range). by exists d.
Qed.

Lemma TablePlacements_total c :
  Validate c = Ok tt →
  ∃ p, TablePlacements c = Ok p ∧
    ∀ t did, TableDistributions c !! t = Some did →
      ∃ d owners, d ∈ Distributions c ∧ DistributionID d = did ∧ p !! t = Some owners ∧
        Z.of_nat (length owners) = VShardCount d ∧
        ∀ v name, owners !! v = Some name →
          owner_at c d v name ∧ name ∈ RoutableBurrowNames c.
Proof.
  intros Hwf%Validate_wf. destruct (TablePlacements_wf c Hwf) as (p & Hp & Hall).
  exists p. split; [done|]. intros t did Ht.
  destruct (cw_tables _ Hwf t did Ht) as [_ (d & -> & Hd)%list_elem_of_fmap].
  destruct (Hall t d Hd Ht) as (owners & Hpt & Ho).
  destruct (table_owners_wf c d t Hwf Hd) as (owners' & Ho' & Hlen & Hat).
  rewrite Ho in Ho'. injection Ho' as <-.
  exists d, owners. do 4 (split; [done|]). intros v name Hv. split; [by apply Hat|].
  destruct (Hat v name Hv) as (i & b & _ & _ & Hb & <- & Hr). by apply routable_name.
Qed.

(** on a catalog that validates, [TablePlacements]
    returns (no index is out of range), covers every mapped table with one
    owner per vshard of its distribution, and each owner is the name the
    owner dictionary resolves to, which is a routable Burrow. *)
Theorem TablePlacements_complete c :
  Validate c = Ok tt →
  ∃ p, TablePlacements c = Ok p ∧
    ∀ t did, TableDistributions c !! t = Some did →
      ∃ d owners, d ∈ Distributions c ∧ DistributionID d = did ∧ p !! t = Some owners ∧
        Z.of_nat (length owners) = VShardCount d ∧
        ∀ v name, owners !! v = Some name →
          owner_at c d v name ∧ name ∈ RoutableBurrowNames c.
Proof. apply TablePlacements_total. Qed.

(** a catalog that [Bootstrap] publishes routes every sharded
    table exactly as before: its placement is the legacy owner array, or the
    old modulo array when there is none, although it is stored as a
    dictionary of Burrow IDs and 16-bit indexes. *)
Theorem Bootstrap_preserves_placement registry configured legacy now c t :
  Bootstrap registry configured legacy now = Ok c →
  t ∈ schema.CanonicalShardedTables registry →
  ∃ p, TablePlacements c = Ok p ∧ p !! t = Some (bootstrap_owners configured legacy).
Proof.
  intros (byName & burrows & dict & ix & idxs & Hb & Ho & Hwf & Hbs & Hds & Hts)%Bootstrap_inv Ht.
  destruct (TablePlacements_wf c Hwf) as (p & Hp & Hall). exists p. split; [done|].
  set (d := {| DistributionID := BootstrapDistribution |}) in Hds.
  assert (d ∈ Distributions c) as Hd by (rewrite Hds; by apply list_elem_of_singleton).
  destruct (Hall t d Hd) as (owners & Hpt & Hok).
  { rewrite Hts. by apply index_by_const. }
  rewrite Hpt. f_equal. rewrite table_owners_eq in Hok by done. apply mmap_ok in Hok.
  pose proof (bootstrap_owners_inv _ _ _ _ _ Ho) as Hinv.
  pose proof (bootstrap_burrows_inv _ _ Hb) as Hnames. cbn in Hnames.
  apply list_eq_Forall2, Forall2_same_length_lookup. split.
  { rewrite <- (Forall2_length _ _ _ Hok). symmetry. by eapply Forall2_length. }
  intros v name owner Hname Howner.
  destruct (Forall2_lookup_l _ _ _ _ _ Hinv Howner) as (i & Hi & id & Hid & Hdict).
  destruct (Forall2_lookup_l _ _ _ _ _ Hok Hi) as (name' & Hname' & Heq).
  rewrite Hname in Hname'. injection Hname' as <-.
  unfold owner_name in Heq. cbn in Heq. rewrite Hdict in Heq. injection Heq as <-.
  destruct (Hnames owner id Hid) as (b & Hbin & <- & <-). rewrite <- Hbs in Hbin.
  by rewrite (burrow_names_lookup c b (cw_ids _ Hwf) Hbin).
Qed.

(** C14: along any sequence of accepted publications the catalog
    stays valid, its revision advances by one each time, its timestamp
    strictly advances, no Burrow leaves it, every Burrow's state follows the
    lifecycle, a removed Burrow stays removed, and a Burrow that joins later
    started in state adding. *)
Theorem published_history_safe n c0 c :
  Validate c0 = Ok tt → 0 ≤ Revision c0 < 2 ^ 64 → nsteps publishes n c0 c →
  history_wf c0 c n ∧
  (∀ b, b ∈ Burrows c0 → State b = BurrowRemoved →
    ∃ b', b' ∈ Burrows c ∧ BurrowID b' = BurrowID b ∧ State b' = BurrowRemoved).
Proof.
  intros Hwf%Validate_wf Hr Hn.
  assert (history_wf c0 c n) as Hh.
  { assert (∀ k c1, history_wf c0 c1 k → nsteps publishes n c1 c → history_wf c0 c (k + n)) as Hgen.
    { clear. induction n as [|n IH]; intros k c1 Hh Hs; inversion Hs; subst.
      - by rewrite Nat.add_0_r.
      - rewrite Nat.add_succ_r, <- Nat.add_succ_l. eapply IH; [|done]. by eapply history_step. }
    apply (Hgen 0%nat c0); [by apply history_refl | done]. }
  split; [done|]. intros b Hb Hrem. destruct (hw_kept _ _ _ Hh b Hb) as (b' & ? & ? & Hrtc).
  rewrite Hrem in Hrtc. exists b'. split; [done|]. split; [done|]. by apply lifecycle_removed.
Qed.

End properties.

(** * Witnesses *)

Definition sample_burrow (n : string) (s : BurrowState) : Burrow := {|
  BurrowID := "id-" +:+ n; Name := n; State := s;
  Tunnels := [{| TunnelName := "primary"; Address := n; ConfigurationFingerprint := "f" |}];
  Weight := 1; CapacityBytes := 0; Labels := ∅ |}.
Definition sample_catalog (rev : Z) (bs : list Burrow) : Catalog := {|
  FormatVersion := 1; Revision := rev;
  Schema := {| RegistryFormat := 4; SchemaRevision := 1; SchemaFingerprint := "f" |};
  Burrows := bs;
  Distributions := [{| DistributionID := "d"; VShardCount := 3; BurrowIDs := ["id-b"; "id-a"];
                       OwnerIndexes := [0%N; 1%N; 0%N] |}];
  TableDistributions := {["public.accounts" := "d"]};
  Change := {| Actor := "op"; Reason := "r"; Timestamp := rev |} |}.
Definition catalog1 : Catalog :=
  sample_catalog 1 [sample_burrow "a" BurrowReady; sample_burrow "b" BurrowReady].
Definition catalog2 : Catalog :=
  sample_catalog 2 [sample_burrow "a" BurrowReady; sample_burrow "b" BurrowDraining;
                    sample_burrow "c" BurrowAdding].

Lemma TablePlacements_complete_witness :
  is_ok (@TablePlacements canonical_order catalog1) = true ∧
  to_option (@TablePlacements canonical_order catalog1) =
    Some {["public.accounts" := ["b"; "a"; "b"]]}.
Proof.
  split; [|vm_compute; reflexivity].
  destruct (@TablePlacements_complete canonical_order catalog1) as (p & Hp & _); [vm_compute; reflexivity|].
  apply is_ok_true. exists p. exact Hp.
Defined.

Lemma Bootstrap_preserves_placement_witness :
  ∃ c p, @Bootstrap canonical_order toy_std schema.accounts
      [{| ConfiguredName := "b"; DSN := "pg-b" |}; {| ConfiguredName := "a"; DSN := "pg-a" |}]
      ["a"; "b"; "a"] 5 = Ok c ∧
    @TablePlacements canonical_order c = Ok p ∧ p !! "public.accounts" = Some ["a"; "b"; "a"].
Proof.
  destruct (@Bootstrap canonical_order toy_std schema.accounts
    [{| ConfiguredName := "b"; DSN := "pg-b" |}; {| ConfiguredName := "a"; DSN := "pg-a" |}]
    ["a"; "b"; "a"] 5) as [c|e] eqn:E; [|vm_compute in E; discriminate].
  destruct (@Bootstrap_preserves_placement canonical_order toy_std schema.accounts _ _ _ c
    "public.accounts" E) as (p & Hp & Ht); [by_computation|].
  exists c, p. exact (conj eq_refl (conj Hp Ht)).
Defined.

Lemma published_history_safe_witness :
  @history_wf catalog1 catalog2 1.
Proof.
  refine (proj1 (@published_history_safe canonical_order 1 catalog1 catalog2 _ _ _)).
  - vm_compute; reflexivity.
  - cbn; lia.
  - apply nsteps_once. vm_compute. reflexivity.
Defined.

End topology.
