(* ===== verification/ShardKey.v ===== *)
(** Shard-key values: the part of [internal/router/router.go] that canonicalises
    scalars, hashes a key tuple and finds the Burrow that owns its vshard. *)
From S2P Require Import Prelude.
From S2P Require Import GoStrings.
From S2P Require Import GoNumbers.
From S2P Require Import GoStd.
From S2P Require Import Schema.
From S2P Require Import Topology.

Module shardkey.
Import schema.

Definition VirtualShards : Z := 65536.

(** * Scalars

    A value either has a canonical form, or the Go result is [ok = false], or
    the call panics: [strings.Repeat] does on a negative count and on one that
    exceeds the largest allocation (2^48 bytes on 64-bit platforms).  The
    program recovers from no panic. *)
Inductive no_value := Unroutable | Panicked.
#[export] Instance no_value_eq_dec : EqDecision no_value.
Proof. solve_decision. Defined.

Definition max_alloc : Z := 2 ^ 48.
Definition repeat_zeros (count : Z) : result no_value string :=
  if decide (0 ≤ count ≤ max_alloc) then Ok (Repeat "0" (Z.to_nat count)) else Err Panicked.

Definition allDigits (value : string) : bool := forallb is_digit (bytes_of value).
Definition is_hex (c : byte) : bool :=
  is_digit c || ((97 <=? byte_val c) && (byte_val c <=? 102)).
Definition allHex (value : string) : bool := forallb is_hex (bytes_of value).

Definition slice (a b : nat) (s : string) : string := take_string (b - a) (drop_string a s).
Definition slen (s : string) : Z := Z.of_nat (String.length s).

(** [for scale > 0 && strings.HasSuffix(digits, "0")] *)
Fixpoint trim_scale (fuel : nat) (digits : string) (scale : Z) : string * Z :=
  match fuel with
  | O => (digits, scale)
  | S fuel =>
    if (0 <? scale) && HasSuffix digits "0"
    then trim_scale fuel (TrimSuffix digits "0") (scale - 1)
    else (digits, scale)
  end.

(** The last part of [canonicalDecimal]: the digits of a significand, and how
    many of them follow the decimal point. *)
Definition render_decimal (sign digits : string) (scale : Z) : result no_value string :=
  let '(digits, scale) := trim_scale (String.length digits) digits scale in
  if scale <=? 0 then
    zeros ← repeat_zeros (swrap 64 (- scale)); Ok (sign +:+ digits +:+ zeros)
  else if slen digits <=? scale then
    zeros ← repeat_zeros (scale - slen digits); Ok (sign +:+ "0." +:+ zeros +:+ digits)
  else
    let point := Z.to_nat (slen digits - scale) in
    Ok (sign +:+ take_string point digits +:+ "." +:+ drop_string point digits).

(** A decimal literal taken apart: sign, integral and fractional digits, and
    the exponent, [strconv.Atoi] of what follows the first [e] or [E]. *)
Definition split_decimal (value : string) : option (string * string * string * Z) :=
  let value := TrimSpace value in
  if decide (value = "") then None else
  let '(sign, value) :=
    match value with
    | String "+" rest => ("", rest)
    | String "-" rest => ("-", rest)
    | _ => ("", value)
    end in
  '(value, exponent) ←
    match IndexAny value ["e"%char; "E"%char] with
    | Some index =>
      parsed ← Atoi (drop_string (S index) value);
      Some (take_string index value, parsed)
    | None => Some (value, 0)
    end;
  '(whole, fraction) ←
    match IndexByte value "."%char with
    | Some index =>
      let rest := drop_string (S index) value in
      if ContainsByte rest "."%char then None else Some (take_string index value, rest)
    | None => Some (value, "")
    end;
  if bool_decide (whole = "" ∧ fraction = "") || negb (allDigits whole) || negb (allDigits fraction)
  then None else Some (sign, whole, fraction, exponent).

Definition canonicalDecimal (value : string) : result no_value string :=
  '(sign, whole, fraction, exponent) ← or_fail (split_decimal value) Unroutable;
  let digits := TrimLeftFunc (λ c, bool_decide (c = "0"%char)) (whole +:+ fraction) in
  if decide (digits = "") then Ok "0" else
  render_decimal sign digits (swrap 64 (slen fraction - exponent)).

Definition integer_types : list string :=
  ["int2"; "smallint"; "smallserial"; "serial2"; "int4"; "int"; "integer"; "serial";
   "serial4"; "int8"; "bigint"; "bigserial"; "serial8"; "oid"].

(** The type name as the switch of [canonicalScalar] sees it. *)
Definition type_key (dataType : string) : string :=
  let typeKey := ToLower (TrimSpace dataType) in
  let typeKey := TrimPrefix typeKey "pg_catalog." in
  match IndexByte typeKey "("%char with
  | Some index => TrimSpace (take_string index typeKey)
  | None => typeKey
  end.

Section scalars.
Context `{Floats}.

Definition canonical_float (bits : Z) (value : string) : option string :=
  parsed ← ParseFloat (TrimSpace value) bits; Some (FormatFloat parsed bits).

Definition canonical_bool (value : string) : option string :=
  let v := ToLower (TrimSpace value) in
  if decide (v ∈ ["true"; "t"; "yes"; "y"; "on"; "1"]) then Some "true" else
  if decide (v ∈ ["false"; "f"; "no"; "n"; "off"; "0"]) then Some "false" else None.

Definition canonical_uuid (value : string) : option string :=
  let compact := ToLower (TrimFunc (λ c, bool_decide (c ∈ ["{"; "}"]%char)) (TrimSpace value)) in
  let compact := RemoveByte compact "-"%char in
  if bool_decide (String.length compact ≠ 32%nat) || negb (allHex compact) then None else
  Some (slice 0 8 compact +:+ "-" +:+ slice 8 12 compact +:+ "-" +:+ slice 12 16 compact
        +:+ "-" +:+ slice 16 20 compact +:+ "-" +:+ slice 20 32 compact).

Definition canonicalScalar (value dataType : string) : result no_value string :=
  if decide (dataType = "") then Ok value else
  let typeKey := type_key dataType in
  if decide (typeKey ∈ integer_types) then or_fail (FormatInt <$> SetString10 (TrimSpace value)) Unroutable
  else if decide (typeKey ∈ ["numeric"; "decimal"]) then canonicalDecimal value
  else if decide (typeKey ∈ ["float4"; "real"]) then or_fail (canonical_float 32 value) Unroutable
  else if decide (typeKey ∈ ["float8"; "double precision"]) then or_fail (canonical_float 64 value) Unroutable
  else if decide (typeKey ∈ ["bool"; "boolean"]) then or_fail (canonical_bool value) Unroutable
  else if decide (typeKey = "uuid") then or_fail (canonical_uuid value) Unroutable
  else if decide (typeKey ∈ ["text"; "varchar"; "character varying"; "name"]) then Ok value
  else if decide (typeKey ∈ ["bpchar"; "char"; "character"])
  then Ok (TrimRightFunc (λ c, bool_decide (c = " "%char)) value)
  else Err Unroutable.
End scalars.

(** * Hashing and ownership *)

(** FNV-1a, 64 bits ([hash/fnv.New64a]). *)
Definition fnv_offset : Z := 14695981039346656037.
Definition fnv_prime : Z := 1099511628211.
Definition fnv_step (h : Z) (c : byte) : Z := wrap 64 (Z.lxor h (byte_val c) * fnv_prime).
Definition HashKey (key : string) : Z := fold_left fnv_step (bytes_of key) fnv_offset.

Definition BurrowForKey (key : string) (burrows : list string) : string :=
  if decide (burrows = []) then "" else
  let vshard := HashKey key mod VirtualShards in
  let remainder := vshard mod Z.of_nat (length burrows) in
  if remainder =? 0 then default "" (last burrows)
  else default "" (burrows !! Z.to_nat (remainder - 1)).

(** The [dataType] of one key position: the i-th of [types] when the two lists
    have the same length, none otherwise. *)
Definition type_at {A} (types : list string) (values : list A) (index : nat) : string :=
  if decide (length types = length values) then default "" (types !! index) else "".

Section targets.
Context `{Floats}.

Definition canonical_tuple (values types : list string) : result no_value (list string) :=
  mmap (λ p, canonicalScalar p.2 (type_at types values p.1)) (enumerate values).

Definition tuple_key (canonical : list string) : string := Join canonical NUL.

Definition TargetForTableShardKey (table : string) (values types : list string)
    (registry : Registry) (burrows : list string) : result no_value string :=
  if bool_decide (values = [])
     || (bool_decide (types ≠ []) && bool_decide (length values ≠ length types))
     || bool_decide (burrows = [])
  then Err Unroutable else
  canonical ← canonical_tuple values types;
  let key := tuple_key canonical in
  let vshard := HashKey key mod VirtualShards in
  if VShardCountFor registry table =? VirtualShards
  then or_fail (VShardOwnerFor registry table vshard) Unroutable
  else if HasTopologyPlacement registry then Err Unroutable
  else Ok (BurrowForKey key burrows).

Definition TargetForShardKey := TargetForTableShardKey "".
End targets.

(** * Decimal values

    [(m, k)] stands for the rational number m·10^-k. *)
Definition scaled_eq (a b : Z * Z) : Prop :=
  let K := Z.max a.2 b.2 in a.1 * 10 ^ (K - a.2) = b.1 * 10 ^ (K - b.2).

Definition sign_val (sign : string) : Z := if decide (sign = "-") then -1 else 1.

(** The number a decimal literal denotes. *)
Definition decimal_value (value : string) : option (Z * Z) :=
  '(sign, whole, fraction, exponent) ← split_decimal value;
  Some (sign_val sign * num (whole +:+ fraction), slen fraction - exponent).

Lemma scaled_eq_at a b K :
  a.2 ≤ K → b.2 ≤ K → scaled_eq a b ↔ a.1 * 10 ^ (K - a.2) = b.1 * 10 ^ (K - b.2).
Proof.
  intros Ha Hb. unfold scaled_eq. cbv zeta. set (M := Z.max a.2 b.2).
  assert (a.2 ≤ M ∧ b.2 ≤ M ∧ M ≤ K) as (H1 & H2 & H3) by lia.
  replace (K - a.2) with ((M - a.2) + (K - M)) by lia.
  replace (K - b.2) with ((M - b.2) + (K - M)) by lia.
  rewrite !Z.pow_add_r by lia. pose proof (Z.pow_pos_nonneg 10 (K - M)) as Hp. nia.
Qed.
#[export] Instance scaled_eq_equiv : Equivalence scaled_eq.
Proof.
  split.
  - intros a. unfold scaled_eq. lia.
  - intros a b. unfold scaled_eq. rewrite (Z.max_comm b.2). done.
  - intros a b c. set (K := Z.max a.2 (Z.max b.2 c.2)).
    rewrite (scaled_eq_at a b K), (scaled_eq_at b c K), (scaled_eq_at a c K) by lia. congruence.
Qed.

(** The shape of the strings [canonicalDecimal] returns: an integral part
    without leading zeros, a fraction that does not end in zero, and no
    negative zero.  [(m, k)] is the number, [k] the length of the fraction. *)
Definition point (fraction : string) : string :=
  if decide (fraction = "") then "" else "." +:+ fraction.
Record decimal_shape (c sign whole fraction : string) : Prop := {
  ds_text : c = sign +:+ whole +:+ point fraction;
  ds_sign : sign = "" ∨ sign = "-";
  ds_whole : all_bytes is_digit whole;
  ds_fraction : all_bytes is_digit fraction;
  ds_lead : whole = "0" ∨ ∃ d w, whole = String d w ∧ d ≠ "0"%char;
  ds_trail : ∀ t d, fraction = t +:+ String d "" → d ≠ "0"%char;
  ds_zero : sign = "-" → whole = "0" → fraction ≠ "";
}.
Definition shape_value (sign whole fraction : string) : Z * Z :=
  (sign_val sign * num (whole +:+ fraction), slen fraction).

Lemma digit_not_sign c : is_digit c = true → c ≠ "+"%char ∧ c ≠ "-"%char ∧ c ≠ "."%char
  ∧ c ≠ "e"%char ∧ c ≠ "E"%char.
Proof. intros H. split_and!; intros ->; discriminate. Qed.
Lemma digit_plain c : is_digit c = true → plain c = true.
Proof. unfold plain. rewrite is_digit_val, andb_true_iff, !Z.leb_le. lia. Qed.

(** Reading a canonical decimal finds its parts and its value again. *)
Lemma split_shape c sign whole fraction :
  decimal_shape c sign whole fraction → split_decimal c = Some (sign, whole, fraction, 0).
Proof.
  intros [-> Hsign Hw Hf Hlead _ _].
  assert (∃ d w, whole = String d w ∧ is_digit d = true) as (d & w & Hdw & Hd).
  { destruct Hlead as [->|(d & w & -> & _)]; [by exists "0"%char, ""|].
    exists d, w. by apply all_bytes_cons in Hw as [? _]. }
  assert (all_bytes plain (sign +:+ whole +:+ point fraction)) as Hplain.
  { rewrite !all_bytes_app. split_and!.
    - destruct Hsign as [-> | ->]; [apply all_bytes_nil|].
      apply all_bytes_cons. split; [done | apply all_bytes_nil].
    - eapply all_bytes_impl, Hw. exact digit_plain.
    - unfold point. destruct (decide _); [apply all_bytes_nil|].
      apply all_bytes_cons. split; [done|]. eapply all_bytes_impl, Hf. exact digit_plain. }
  unfold split_decimal. rewrite TrimSpace_plain by done.
  rewrite decide_False by (rewrite Hdw; destruct Hsign as [-> | ->]; done).
  assert ((match sign +:+ whole +:+ point fraction with
    | String "+" rest => ("", rest)
    | String "-" rest => ("-", rest)
    | _ => ("", sign +:+ whole +:+ point fraction)
    end : string * string) = (sign, whole +:+ point fraction)) as ->.
  { destruct Hsign as [-> | ->]; [|done]. rewrite app_string_nil_l, Hdw, app_string_cons.
    apply digit_not_sign in Hd as (? & ? & _).
    destruct d as [[] [] [] [] [] [] [] []]; done. }
  assert (IndexAny (whole +:+ point fraction) ["e"%char; "E"%char] = None) as ->.
  { apply IndexFunc_None, all_bytes_app.
    assert (∀ s, all_bytes is_digit s →
      all_bytes (λ d, negb (bool_decide (d ∈ ["e"%char; "E"%char]))) s) as Hany.
    { intros s. apply all_bytes_impl. intros x Hx%digit_not_sign.
      apply negb_true_iff, bool_decide_eq_false. set_solver. }
    split; [by apply Hany|]. unfold point. destruct (decide _); [apply all_bytes_nil|].
    apply all_bytes_cons. split; [done | by apply Hany]. }
  assert (∀ s, all_bytes is_digit s →
    all_bytes (λ d, negb (bool_decide ("."%char = d))) s) as Hdot.
  { intros s. apply all_bytes_impl. intros x Hx%digit_not_sign.
    apply negb_true_iff, bool_decide_eq_false. naive_solver. }
  cbn [mbind option_bind]. unfold point. destruct (decide (fraction = "")) as [->|Hne].
  - rewrite app_string_nil_r. assert (IndexByte whole "." = None) as ->
      by (apply IndexFunc_None, Hdot, Hw). cbn [mbind option_bind].
    rewrite bool_decide_eq_false_2 by (intros [? _]; subst whole; done).
    unfold allDigits. apply all_bytes_forallb in Hw. rewrite Hw. done.
  - change ("." +:+ fraction) with (String "." fraction).
    unfold IndexByte at 1. rewrite IndexFunc_app by auto.
    rewrite take_string_app, drop_string_app_S. unfold ContainsByte.
    assert (IndexByte fraction "." = None) as -> by (apply IndexFunc_None, Hdot, Hf).
    cbn [mbind option_bind]. rewrite bool_decide_eq_false_2 by naive_solver.
    unfold allDigits. apply all_bytes_forallb in Hw, Hf. rewrite Hw, Hf. done.
Qed.

Lemma trim_scale_spec fuel digits scale :
  (String.length digits ≤ fuel)%nat →
  ∃ n, let '(digits', scale') := trim_scale fuel digits scale in
    digits = digits' +:+ Repeat "0" n ∧ scale' = scale - Z.of_nat n ∧
    (scale ≤ 0 → n = O) ∧ (0 ≤ scale → 0 ≤ scale') ∧
    (scale' ≤ 0 ∨ ∀ t d, digits' = t +:+ String d "" → d ≠ "0"%char).
Proof.
  revert digits scale. induction fuel as [|fuel IH]; intros digits scale Hlen; cbn [trim_scale].
  - exists O. destruct digits; cbn in Hlen; [|lia]. split_and!; try done; [lia|].
    right. intros t d Heq. apply (f_equal String.length) in Heq.
    rewrite length_app_string in Heq. cbn in Heq. lia.
  - destruct (Z.ltb_spec 0 scale) as [Hs|Hs]; cbn [andb];
      [|exists O; rewrite app_string_nil_r; split_and!; try done; [lia | by left]].
    destruct (string_snoc_cases digits) as [->|(t & c & ->)].
    + exists O. split_and!; try done; [lia|]. right. intros t d Heq.
      apply (f_equal String.length) in Heq. rewrite length_app_string in Heq. cbn in Heq. lia.
    + rewrite HasSuffix_snoc. case_bool_decide as Hc.
      * subst c. rewrite TrimSuffix_snoc. rewrite length_app_string in Hlen. cbn in Hlen.
        destruct (IH t (scale - 1)) as (n & Hn); [lia|]. exists (S n).
        destruct (trim_scale fuel t (scale - 1)) as [t' s']. destruct Hn as (-> & -> & Hz & Hp & Ht).
        rewrite Repeat_snoc, app_string_assoc. split_and!; try done; lia.
      * exists O. rewrite app_string_nil_r. split_and!; try done; [lia|]. right.
        intros t' d Heq. apply (f_equal reverse) in Heq. rewrite !reverse_app, !reverse_one in Heq.
        injection Heq as -> _. congruence.
Qed.

Lemma all_bytes_Repeat P c n : P c = true → all_bytes P (Repeat (String c "") n).
Proof.
  intros Hc. unfold all_bytes. rewrite bytes_of_Repeat. apply Forall_replicate, Hc.
Qed.
Lemma not_snoc_empty t d : "" ≠ t +:+ String d "".
Proof.
  intros E. apply (f_equal String.length) in E. rewrite length_app_string in E. cbn in E. lia.
Qed.
Lemma snoc_inj t u c d : t +:+ String c "" = u +:+ String d "" → t = u ∧ c = d.
Proof.
  intros E. apply (f_equal reverse) in E. rewrite !reverse_app, !reverse_one in E.
  rewrite !app_string_cons, !app_string_nil_l in E. injection E as -> E. split; [|done].
  by rewrite <- (reverse_involutive t), E, reverse_involutive.
Qed.

(** The three layouts of [render_decimal], for a significand [String d w]
    without a leading zero. *)
Section layouts.
Context (sign : string) (d : byte) (w : string) (scale : Z).
Context (Hsign : sign = "" ∨ sign = "-") (Hdig : all_bytes is_digit (String d w)).
Context (Hd : d ≠ "0"%char).
Let digits := String d w.

Lemma integral_shape n :
  scale = - Z.of_nat n →
  decimal_shape (sign +:+ digits +:+ Repeat "0" n) sign (digits +:+ Repeat "0" n) "" ∧
  scaled_eq (sign_val sign * num digits, scale) (shape_value sign (digits +:+ Repeat "0" n) "").
Proof.
  intros Hn. split.
  - split; [by rewrite app_string_nil_r | done | | apply all_bytes_nil | | | ].
    + apply all_bytes_app. split; [done | by apply all_bytes_Repeat].
    + right. exists d, (w +:+ Repeat "0" n). done.
    + intros t d' []%not_snoc_empty.
    + intros _ E. unfold digits in E. rewrite app_string_cons in E. injection E as -> _. done.
  - unfold shape_value. rewrite app_string_nil_r, num_app, num_zeros, length_Repeat_byte.
    rewrite (scaled_eq_at _ _ 0); cbn [fst snd]; [|lia|unfold slen; cbn; lia].
    rewrite Hn. replace (slen "") with 0 by done. rewrite Z.sub_diag, Z.sub_0_l, Z.opp_involutive. lia.
Qed.

Lemma fractional_shape n :
  (∀ t c, digits = t +:+ String c "" → c ≠ "0"%char) →
  scale = Z.of_nat n + slen digits →
  decimal_shape (sign +:+ "0." +:+ Repeat "0" n +:+ digits) sign "0" (Repeat "0" n +:+ digits) ∧
  shape_value sign "0" (Repeat "0" n +:+ digits) = (sign_val sign * num digits, scale).
Proof.
  intros Htrail Hscale. assert (slen (Repeat "0" n +:+ digits) = scale) as Hlen.
  { unfold slen in *. rewrite length_app_string, length_Repeat_byte, Nat2Z.inj_add. lia. }
  assert (0 < slen digits) as Hpos by (unfold slen, digits; cbn; lia).
  assert (Repeat "0" n +:+ digits ≠ "") as Hne.
  { intros E. rewrite E in Hlen. change (slen "") with 0 in Hlen. lia. }
  split.
  - split; [ | done | by apply all_bytes_cons; split; [|apply all_bytes_nil] | | by left | | done].
    + unfold point. rewrite decide_False by done. done.
    + apply all_bytes_app. split; [by apply all_bytes_Repeat | done].
    + intros t c E. destruct (string_snoc_cases digits) as [?|(u & e & Hu)]; [done|].
      rewrite Hu, <- app_string_assoc in E. apply snoc_inj in E as [_ <-]. by eapply Htrail.
  - unfold shape_value. rewrite Hlen. f_equal. rewrite num_app. change (num "0") with 0.
    rewrite num_app, num_zeros. lia.
Qed.

Lemma pointed_shape p :
  (∀ t c, digits = t +:+ String c "" → c ≠ "0"%char) →
  (0 < p)%nat → Z.of_nat p = slen digits - scale → 0 < scale →
  decimal_shape (sign +:+ take_string p digits +:+ "." +:+ drop_string p digits) sign
    (take_string p digits) (drop_string p digits) ∧
  shape_value sign (take_string p digits) (drop_string p digits) = (sign_val sign * num digits, scale).
Proof.
  intros Htrail Hp Hscale Hpos. assert (slen (drop_string p digits) = scale) as Hlen.
  { unfold slen in *. rewrite length_drop_string. lia. }
  pose proof (take_drop_string p digits) as Htd. unfold digits in Hdig.
  assert (take_string p digits = String d (take_string (pred p) w)) as Htake
    by (destruct p; [lia | done]).
  change (String d w) with digits in Hdig. rewrite <- Htd in Hdig.
  apply all_bytes_app in Hdig as [Hd1 Hd2]. split.
  - split; [ | done | done | done | right; rewrite Htake; eauto | | ].
    + unfold point. rewrite decide_False; [done|]. intros E. rewrite E in Hlen.
      change (slen "") with 0 in Hlen. lia.
    + intros t c E. rewrite E, <- app_string_assoc in Htd. symmetry in Htd. by eapply Htrail.
    + rewrite Htake. intros _ [= -> _]. done.
  - unfold shape_value. by rewrite Hlen, Htd.
Qed.
End layouts.

Lemma render_decimal_shape sign d w scale c :
  sign = "" ∨ sign = "-" → all_bytes is_digit (String d w) → d ≠ "0"%char →
  min_int64 ≤ scale →
  render_decimal sign (String d w) scale = Ok c →
  - max_alloc ≤ scale ∧
  ∃ whole fraction, decimal_shape c sign whole fraction ∧
    scaled_eq (sign_val sign * num (String d w), scale) (shape_value sign whole fraction).
Proof.
  intros Hsign Hdig Hd Hscale. unfold render_decimal.
  destruct (trim_scale_spec (String.length (String d w)) (String d w) scale) as (n & Hn); [done|].
  destruct (trim_scale _ _ _) as [digits' scale']. destruct Hn as (Heq & Hsc & Hz & Hp & Htrail).
  assert (∃ w', digits' = String d w') as (w' & ->).
  { destruct digits' as [|d' w']; [|rewrite app_string_cons in Heq; injection Heq as -> _; eauto].
    rewrite app_string_nil_l in Heq. destruct n as [|n]; [done|]. cbn [Repeat] in Heq.
    rewrite app_string_cons in Heq. injection Heq as -> _. done. }
  rewrite Heq in Hdig. apply all_bytes_app in Hdig as [Hdig _].
  assert (scaled_eq (sign_val sign * num (String d w), scale)
            (sign_val sign * num (String d w'), scale')) as Hval.
  { rewrite (scaled_eq_at _ _ scale) by (cbn; lia). cbn [fst snd].
    rewrite Heq, num_app, num_zeros, length_Repeat_byte.
    replace (scale - scale') with (Z.of_nat n) by lia. rewrite Z.sub_diag, Z.pow_0_r. lia. }
  setoid_rewrite Hval. unfold repeat_zeros. destruct (Z.leb_spec scale' 0) as [H0|H0].
  - destruct (decide (scale' = min_int64)) as [->|Hmin]; [by intros|].
    rewrite swrap_small by (unfold min_int64, max_int64 in *; lia).
    destruct (decide _) as [[Hr1 Hr2]|]; [intros [= <-] | done].
    split; [unfold max_alloc in *; lia|]. eexists _, "". apply integral_shape; [done..|]. lia.
  - destruct Htrail as [?|Htrail]; [lia|]. intros Hc. split; [unfold max_alloc; lia|]. revert Hc.
    destruct (Z.leb_spec (slen (String d w')) scale') as [H1|H1].
    + destruct (decide _); [intros [= <-] | done].
      eexists "0", _. destruct (fractional_shape sign d w' scale' Hsign Hdig
        (Z.to_nat (scale' - slen (String d w'))) Htrail) as [Hs Hv]; [lia|].
      split; [exact Hs | by rewrite Hv].
    + intros [= <-]. eexists _, _. destruct (pointed_shape sign d w' scale' Hsign Hdig Hd
        (Z.to_nat (slen (String d w') - scale')) Htrail) as [Hs Hv]; [lia..|].
      split; [exact Hs | by rewrite Hv].
Qed.

(** What [split_decimal] accepts. *)
Lemma split_decimal_inv s sign whole fraction exponent :
  split_decimal s = Some (sign, whole, fraction, exponent) →
  (sign = "" ∨ sign = "-") ∧ all_bytes is_digit (whole +:+ fraction) ∧
  min_int64 ≤ exponent ≤ max_int64 ∧ slen fraction ≤ slen s.
Proof.
  unfold split_decimal. pose proof (TrimSpace_length s) as Hlen.
  destruct (decide (TrimSpace s = "")); [done|].
  assert (∃ sg v, (match TrimSpace s with
    | String "+" rest => ("", rest) | String "-" rest => ("-", rest) | _ => ("", TrimSpace s)
    end : string * string) = (sg, v) ∧ (sg = "" ∨ sg = "-") ∧
    (String.length v ≤ String.length (TrimSpace s))%nat) as (sg & v & -> & Hsg & Hv).
  { destruct (TrimSpace s) as [|[[] [] [] [] [] [] [] []] t]; eexists _, _; split_and!;
      try reflexivity; cbn; auto. }
  assert (∀ i t, (String.length (take_string i t) ≤ String.length t)%nat) as Htake.
  { intros i t. rewrite <- (take_drop_string i t) at 2. rewrite length_app_string. lia. }
  intros H. assert (∃ v' e, (match IndexAny v ["e"%char; "E"%char] with
    | Some index => parsed ← Atoi (drop_string (S index) v); Some (take_string index v, parsed)
    | None => Some (v, 0) end) = Some (v', e) ∧ min_int64 ≤ e ≤ max_int64 ∧
    (String.length v' ≤ String.length v)%nat) as (v' & e & He & Hb & Hv').
  { revert H. destruct (IndexAny v _) as [i|]; [|intros _; eexists _, _; split_and!; done].
    destruct (Atoi _) as [e|] eqn:Ha; [|done]. intros _. eexists _, _. split; [done|].
    split; [|apply Htake]. unfold Atoi, ParseInt in Ha. destruct (SetString10 _); [|done].
    cbn in Ha. destruct (decide _); [|done]. by injection Ha as <-. }
  rewrite He in H. cbn [mbind option_bind] in H.
  assert (∀ w f, bool_decide (w = "" ∧ f = "") || negb (allDigits w) || negb (allDigits f) = false →
    all_bytes is_digit (w +:+ f)) as Hdig.
  { intros w f. rewrite !orb_false_iff, !negb_false_iff. intros [[_ Hw] Hf].
    apply all_bytes_app. split; by apply all_bytes_forallb. }
  destruct (IndexByte v' ".") as [i|].
  - destruct (ContainsByte _ _); [done|]. cbn [mbind option_bind] in H.
    destruct (_ || _ || _) eqn:Hd; [done|]. injection H as <- <- <- <-. apply Hdig in Hd.
    split_and!; [done..| lia | lia |]. 
    change (slen (drop_string (S i) v') ≤ slen s). unfold slen. rewrite length_drop_string. lia.
  - cbn [mbind option_bind] in H. destruct (_ || _ || _) eqn:Hd; [done|].
    injection H as <- <- <- <-. apply Hdig in Hd. split_and!; [done..| lia | lia | unfold slen; cbn; lia].
Qed.

(** The result is in canonical shape and denotes the same number. *)
Lemma canonicalDecimal_shape s c :
  slen s ≤ max_alloc → canonicalDecimal s = Ok c →
  ∃ sign whole fraction v, decimal_shape c sign whole fraction ∧
    decimal_value s = Some v ∧ scaled_eq v (shape_value sign whole fraction).
Proof.
  intros Hlen Hc. unfold canonicalDecimal, decimal_value in *.
  destruct (split_decimal s) as [[[[sign whole] fraction] exponent]|] eqn:Hs; [|done].
  cbn [mbind result_bind or_fail option_bind] in *.
  apply split_decimal_inv in Hs as (Hsign & Hdig & Hexp & Hfr).
  destruct (TrimLeftFunc_split (λ c, bool_decide (c = "0"%char)) (whole +:+ fraction))
    as (zeros & Heq & Hz & Hhead). apply all_zeros in Hz.
  assert (num (whole +:+ fraction) =
    num (TrimLeftFunc (λ c, bool_decide (c = "0"%char)) (whole +:+ fraction))) as Hnum.
  { rewrite Heq at 1. rewrite num_app, Hz, num_zeros. lia. }
  rewrite Hnum. rewrite Heq in Hdig. apply all_bytes_app in Hdig as [_ Hdig].
  destruct (TrimLeftFunc _ (whole +:+ fraction)) as [|d w].
  - injection Hc as <-. exists "", "0", "", (sign_val sign * num "", slen fraction - exponent).
    split_and!; [|done|].
    + split; try done; [by left | | by left | by intros t d []%not_snoc_empty].
      apply all_bytes_cons. split; [done | apply all_bytes_nil].
    + unfold scaled_eq, shape_value. cbn [fst snd]. change (num "") with 0. change (num ("0" +:+ "")) with 0. rewrite !Z.mul_0_r, !Z.mul_0_l. done.
  - apply bool_decide_eq_false in Hhead. rewrite decide_False in Hc by done.
    pose proof (swrap_bounds (slen fraction - exponent)) as Hsb.
    apply render_decimal_shape in Hc as (Hmin & w' & f' & Hshape & Hval); [|done..|lia].
    exists sign, w', f', (sign_val sign * num (String d w), slen fraction - exponent).
    split_and!; [done..|]. destruct (decide (slen fraction - exponent ≤ max_int64)) as [Hle|Hgt].
    + rewrite swrap_small in Hval; [done|]. unfold min_int64, max_int64, max_alloc, slen in *. lia.
    + exfalso. assert (swrap 64 (slen fraction - exponent) = slen fraction - exponent - 2 ^ 64) as Hw;
        [|unfold min_int64, max_int64, max_alloc, slen in *; lia].
      unfold swrap, wrap. rewrite Z.mod_small by (unfold min_int64, max_int64, max_alloc, slen in *; lia).
      cbv zeta. rewrite decide_False; [done|]. unfold max_int64 in *. lia.
Qed.

Lemma shape_num_lead c sign whole fraction :
  decimal_shape c sign whole fraction →
  num (whole +:+ fraction) = num whole * 10 ^ slen fraction + num fraction ∧
  0 ≤ num whole ∧ 0 ≤ num fraction < 10 ^ slen fraction ∧
  (num whole = 0 → whole = "0") ∧
  (whole ≠ "0" → 10 ^ (slen whole - 1) ≤ num whole < 10 ^ slen whole).
Proof.
  intros [_ _ Hw Hf Hlead _ _]. rewrite num_app.
  pose proof (num_bounds _ Hw). pose proof (num_bounds _ Hf). unfold slen.
  split_and!; try done; [lia..| |].
  - intros Hz0. destruct Hlead as [?|(d & w & -> & Hd)]; [done|].
    apply all_bytes_cons in Hw as [Hdd Hw]. pose proof (num_pos _ _ Hdd Hd Hw).
    pose proof (Z.pow_pos_nonneg 10 (Z.of_nat (String.length w))). lia.
  - intros Hne. destruct Hlead as [?|(d & w & -> & Hd)]; [done|]. split; [|lia].
    apply all_bytes_cons in Hw as [Hdd Hw]. pose proof (num_pos _ _ Hdd Hd Hw).
    replace (Z.of_nat (String.length (String d w)) - 1) with (Z.of_nat (String.length w)) by (cbn; lia). lia.
Qed.

(** A fraction that does not end in zero is as short as its number allows. *)
Lemma trail_mod fraction :
  all_bytes is_digit fraction → (∀ t d, fraction = t +:+ String d "" → d ≠ "0"%char) →
  fraction ≠ "" → num fraction mod 10 ≠ 0.
Proof.
  intros Hf Ht Hne. destruct (string_snoc_cases fraction) as [?|(t & d & ->)]; [done|].
  apply all_bytes_app in Hf as [_ [Hd _]%all_bytes_cons]. specialize (Ht t d eq_refl).
  apply is_digit_val in Hd. rewrite num_app. change (String.length (String d "")) with 1%nat.
  change (num (String d "")) with (num_step 0 d). unfold num_step.
  replace (num t * 10 ^ Z.of_nat 1 + (10 * 0 + (byte_val d - 48))) with ((byte_val d - 48) + num t * 10) by lia.
  rewrite Z.mod_add, Z.mod_small by lia. intros E. apply Ht, byte_val_inj. change (byte_val "0") with 48. lia.
Qed.

Lemma shape_scale_le c1 s1 w1 f1 c2 s2 w2 f2 :
  decimal_shape c1 s1 w1 f1 → decimal_shape c2 s2 w2 f2 →
  scaled_eq (shape_value s1 w1 f1) (shape_value s2 w2 f2) → ¬ slen f1 < slen f2.
Proof.
  intros H1 H2 Heq Hlt.
  assert (num (w2 +:+ f2) mod 10 ≠ 0) as Hm.
  { pose proof (trail_mod f2 (ds_fraction _ _ _ _ H2) (ds_trail _ _ _ _ H2)) as Ht.
    rewrite num_app. assert (String.length f2 ≠ O) by (unfold slen in Hlt; lia).
    rewrite <- (Nat.succ_pred_pos (String.length f2)) by lia. rewrite Nat2Z.inj_succ, Z.pow_succ_r by lia.
    replace (num w2 * (10 * 10 ^ Z.of_nat (pred (String.length f2))) + num f2) with
      (num f2 + (num w2 * 10 ^ Z.of_nat (pred (String.length f2))) * 10) by lia.
    rewrite Z.mod_add by lia. apply Ht. intros ->. done. }
  revert Heq. unfold scaled_eq, shape_value. cbn [fst snd]. rewrite Z.max_r by lia.
  rewrite Z.sub_diag, Z.pow_0_r. set (k := slen f2 - slen f1).
  replace k with (Z.succ (k - 1)) by lia. rewrite Z.pow_succ_r by lia.
  set (q := 10 ^ (k - 1)). intros Heq. apply Hm. unfold sign_val in Heq.
  apply Z.mod_divide; [lia|].
  destruct (decide (s1 = "-")), (decide (s2 = "-")).
  - exists (num (w1 +:+ f1) * q). lia.
  - exists (- num (w1 +:+ f1) * q). lia.
  - exists (- num (w1 +:+ f1) * q). lia.
  - exists (num (w1 +:+ f1) * q). lia.
Qed.

(** Two canonical decimals that denote the same number are the same string. *)
Lemma shape_value_inj c1 s1 w1 f1 c2 s2 w2 f2 :
  decimal_shape c1 s1 w1 f1 → decimal_shape c2 s2 w2 f2 →
  scaled_eq (shape_value s1 w1 f1) (shape_value s2 w2 f2) → c1 = c2.
Proof.
  intros H1 H2 Heq.
  assert (slen f1 = slen f2) as Hl.
  { pose proof (shape_scale_le _ _ _ _ _ _ _ _ H1 H2 Heq). symmetry in Heq.
    pose proof (shape_scale_le _ _ _ _ _ _ _ _ H2 H1 Heq). lia. }
  unfold scaled_eq, shape_value in Heq. cbn [fst snd] in Heq.
  rewrite Hl, Z.max_id, Z.sub_diag, Z.pow_0_r, !Z.mul_1_r in Heq.
  destruct (shape_num_lead _ _ _ _ H1) as (E1 & P1 & B1 & Z1 & L1).
  destruct (shape_num_lead _ _ _ _ H2) as (E2 & P2 & B2 & Z2 & L2).
  pose proof (ds_zero _ _ _ _ H1) as N1. pose proof (ds_zero _ _ _ _ H2) as N2.
  assert (∀ c s w f, decimal_shape c s w f → num w = 0 → num f = 0 → s = "") as Hneg.
  { intros c s w f H Hw Hf. destruct (ds_sign _ _ _ _ H) as [?|Hs]; [done|].
    destruct (shape_num_lead _ _ _ _ H) as (_ & _ & _ & Hw0 & _).
    pose proof (ds_zero _ _ _ _ H Hs (Hw0 Hw)) as Hne.
    pose proof (trail_mod _ (ds_fraction _ _ _ _ H) (ds_trail _ _ _ _ H) Hne). by rewrite Hf in *. }
  rewrite E1, E2 in Heq. rewrite Hl in *. set (p := 10 ^ slen f2) in *.
  assert (num w1 * p + num f1 = num w2 * p + num f2 ∧ s1 = s2) as [Hn ->].
  { pose proof (ds_sign _ _ _ _ H1) as S1. pose proof (ds_sign _ _ _ _ H2) as S2.
    unfold sign_val in Heq. assert (0 ≤ num w1 * p ∧ 0 ≤ num w2 * p) as [? ?] by nia.
    destruct (decide (s1 = "-")) as [->|], (decide (s2 = "-")) as [->|]; [split; [lia|done]|..|split; [lia|naive_solver]].
    - assert (num w1 * p = 0 ∧ num f1 = 0) as [? ?] by lia. exfalso.
      assert (num w1 = 0) by nia. by specialize (Hneg _ _ _ _ H1 ltac:(done) ltac:(done)).
    - assert (num w2 * p = 0 ∧ num f2 = 0) as [? ?] by lia. exfalso.
      assert (num w2 = 0) by nia. by specialize (Hneg _ _ _ _ H2 ltac:(done) ltac:(done)). }
  assert (num w1 = num w2 ∧ num f1 = num f2) as [Hw Hf].
  { apply (Z.div_mod_unique p); [by left | by left | lia]. }
  assert (f1 = f2) as ->.
  { apply num_inj; [apply H1 | apply H2 | unfold slen in Hl; lia | done]. }
  assert (w1 = w2) as ->.
  { destruct (decide (w1 = "0")) as [->|Hn1]; [change (num "0") with 0 in Hw; symmetry; auto|].
    destruct (decide (w2 = "0")) as [->|Hn2]; [change (num "0") with 0 in Hw; auto|].
    apply num_inj; [apply H1 | apply H2 | | done]. specialize (L1 Hn1). specialize (L2 Hn2).
    assert (slen w1 = slen w2) as Hlw; [|unfold slen in Hlw; lia].
    assert (slen w1 - 1 < slen w2) by (apply (Z.pow_lt_mono_r_iff 10); unfold slen in *; lia).
    assert (slen w2 - 1 < slen w1) by (apply (Z.pow_lt_mono_r_iff 10); unfold slen in *; lia). lia. }
  by rewrite (ds_text _ _ _ _ H1), (ds_text _ _ _ _ H2).
Qed.

Lemma shape_decimal_value c sign whole fraction :
  decimal_shape c sign whole fraction → decimal_value c = Some (shape_value sign whole fraction).
Proof.
  intros H. unfold decimal_value. rewrite (split_shape _ _ _ _ H). cbn. unfold shape_value.
  by rewrite Z.sub_0_r.
Qed.

Lemma render_decimal_ok sign digits scale :
  - max_alloc ≤ scale ≤ max_alloc → ∃ c, render_decimal sign digits scale = Ok c.
Proof.
  intros Hs. unfold render_decimal, repeat_zeros.
  destruct (trim_scale_spec (String.length digits) digits scale) as (n & Hn); [done|].
  destruct (trim_scale _ _ _) as [digits' scale']. destruct Hn as (_ & Hsc & Hz & Hp & _).
  destruct (Z.leb_spec scale' 0).
  - assert (- max_alloc ≤ scale') by (destruct (decide (scale ≤ 0)); [rewrite Hsc, Hz; lia | lia]).
    rewrite swrap_small by (unfold min_int64, max_int64, max_alloc in *; lia).
    rewrite decide_True by lia. by eexists.
  - destruct (Z.leb_spec (slen digits') scale'); [|by eexists].
    rewrite decide_True; [by eexists|]. unfold slen in *. lia.
Qed.

(** An integer literal is a decimal literal without fraction and exponent. *)
Lemma split_integer s z :
  SetString10 (TrimSpace s) = Some z →
  ∃ sign w, split_decimal s = Some (sign, w, "", 0) ∧ (sign = "" ∨ sign = "-") ∧
    all_bytes is_digit w ∧ z = sign_val sign * num w.
Proof.
  assert (∀ (sg : string) w, w ≠ "" → all_bytes is_digit w →
    ('(value, exponent) ← (match IndexAny w ["e"%char; "E"%char] with
      | Some index => parsed ← Atoi (drop_string (S index) w); Some (take_string index w, parsed)
      | None => Some (w, 0) end);
     '(whole, fraction) ← (match IndexByte value "."%char with
      | Some index => let rest := drop_string (S index) value in
          if ContainsByte rest "."%char then None else Some (take_string index value, rest)
      | None => Some (value, "") end);
     if bool_decide (whole = "" ∧ fraction = "") || negb (allDigits whole) || negb (allDigits fraction)
     then None else Some (sg, whole, fraction, exponent)) = Some (sg, w, "", 0)) as Hrest.
  { intros sg w Hne Hw.
    assert (IndexAny w ["e"%char; "E"%char] = None) as ->.
    { apply IndexFunc_None. eapply all_bytes_impl, Hw. intros x Hx%digit_not_sign.
      apply negb_true_iff, bool_decide_eq_false. set_solver. }
    cbn [mbind option_bind]. assert (IndexByte w "." = None) as ->.
    { apply IndexFunc_None. eapply all_bytes_impl, Hw. intros x Hx%digit_not_sign.
      apply negb_true_iff, bool_decide_eq_false. naive_solver. }
    cbn [mbind option_bind]. rewrite bool_decide_eq_false_2 by naive_solver.
    unfold allDigits. apply all_bytes_forallb in Hw. by rewrite Hw. }
  unfold split_decimal. destruct (TrimSpace s) as [|c t]; [done|]. rewrite decide_False by done.
  destruct (decide (c = "+"%char)) as [->|Hp].
  { intros (Hne & Hw & ->)%unsigned_decimal_spec. exists "", t. split_and!; [by apply Hrest | by left | done |].
    unfold sign_val. rewrite decide_False by done. lia. }
  destruct (decide (c = "-"%char)) as [->|Hm].
  { cbn [SetString10]. destruct (unsigned_decimal t) as [y|] eqn:Hu; [|done]. cbn. intros [= <-].
    apply unsigned_decimal_spec in Hu as (Hne & Hw & ->).
    exists "-", t. split_and!; [by apply Hrest | by right | done |].
    unfold sign_val. rewrite decide_True by done. lia. }
  intros H. assert (unsigned_decimal (String c t) = Some z) as (Hne & Hw & ->)%unsigned_decimal_spec.
  { rewrite <- H. destruct c as [[] [] [] [] [] [] [] []]; done. }
  exists "", (String c t). split_and!; [|by left|done|unfold sign_val; rewrite decide_False by done; lia].
  specialize (Hrest "" _ Hne Hw). rewrite <- Hrest. destruct c as [[] [] [] [] [] [] [] []]; done.
Qed.

Lemma FormatInt_shape z :
  ∃ sign w, decimal_shape (FormatInt z) sign w "" ∧ shape_value sign w "" = (z, 0).
Proof.
  destruct (FormatInt_spec z) as (sign & w & Hz & Hsign & Hw & Hlead & Hneg & Hval).
  exists sign, w. split.
  - split; try done; [by rewrite Hz, app_string_nil_r | apply all_bytes_nil | by intros t d []%not_snoc_empty | naive_solver].
  - unfold shape_value, sign_val. rewrite app_string_nil_r. f_equal. congruence.
Qed.

Lemma repeat_zeros_panics n : max_alloc < n → repeat_zeros n = Err Panicked.
Proof. intros Hn. unfold repeat_zeros. rewrite decide_False by lia. done. Qed.

(** ** Routing one tuple *)

Lemma BurrowForKey_elem key burrows : burrows ≠ [] → BurrowForKey key burrows ∈ burrows.
Proof.
  intros Hne. unfold BurrowForKey. rewrite decide_False by done.
  assert (0 < Z.of_nat (length burrows)) as Hlen by (destruct burrows; [done | cbn; lia]).
  set (r := HashKey key mod VirtualShards mod Z.of_nat (length burrows)).
  assert (0 ≤ r < Z.of_nat (length burrows)) as Hr by (apply Z.mod_pos_bound; done).
  cbv zeta. fold r. destruct (Z.eqb_spec r 0).
  - destruct (last burrows) as [b|] eqn:Hl; [by apply last_Some_elem_of in Hl | by apply last_None in Hl].
  - destruct (lookup_lt_is_Some_2 burrows (Z.to_nat (r - 1))) as [b Hb]; [lia|].
    rewrite Hb. by eapply list_elem_of_lookup_2.
Qed.

(** The Burrow that owns a key tuple: the owner of its vshard in the table's
    Nest placement, or without any placement the legacy modulo choice. *)
Definition owns `{Floats} (table : string) (values types : list string) (registry : Registry)
    (burrows : list string) (target : string) : Prop :=
  ∃ canonical, canonical_tuple values types = Ok canonical ∧
    let vshard := HashKey (tuple_key canonical) mod VirtualShards in
    (VShardCountFor registry table = VirtualShards ∧
       VShardOwnerFor registry table vshard = Some target) ∨
    (VShardCountFor registry table ≠ VirtualShards ∧ HasTopologyPlacement registry = false ∧
       target = BurrowForKey (tuple_key canonical) burrows ∧ target ∈ burrows).

Lemma TargetForTableShardKey_inv `{Floats} table values types registry burrows target :
  TargetForTableShardKey table values types registry burrows = Ok target →
  owns table values types registry burrows target ∧ values ≠ [] ∧
  (types ≠ [] → length values = length types).
Proof.
  unfold TargetForTableShardKey, owns.
  destruct (_ || _ || _) eqn:Hg; [done|].
  apply orb_false_iff in Hg as [[Hv Ht]%orb_false_iff Hb].
  apply bool_decide_eq_false in Hv, Hb. apply andb_false_iff in Ht.
  intros Hok. split; [|split; [done|]].
  - destruct (canonical_tuple values types) as [canonical|]; [|done].
    cbn [mbind result_bind] in Hok. exists canonical. split; [done|].
    destruct (Z.eqb_spec (VShardCountFor registry table) VirtualShards) as [E|E].
    + left. split; [done|]. destruct (VShardOwnerFor _ _ _); [by injection Hok as <- | done].
    + right. destruct (HasTopologyPlacement registry); [done|]. injection Hok as <-.
      split_and!; [done..|]. by apply BurrowForKey_elem.
  - intros Hne. destruct Ht as [Ht|Ht].
    + by apply bool_decide_eq_false in Ht.
    + apply bool_decide_eq_false in Ht. destruct (decide (length values = length types)); tauto.
Qed.

(** * Properties *)

(** C15: two [numeric] shard-key values that can be routed have
    the same canonical form, and so the same hash, exactly when they denote the
    same number: [1.50], [+1.5] and [15e-1] meet, [1.5] and [1.05] do not. *)
Theorem canonicalDecimal_by_value s1 s2 c1 c2 :
  slen s1 ≤ max_alloc → slen s2 ≤ max_alloc →
  canonicalDecimal s1 = Ok c1 → canonicalDecimal s2 = Ok c2 →
  c1 = c2 ↔ ∃ v1 v2, decimal_value s1 = Some v1 ∧ decimal_value s2 = Some v2 ∧ scaled_eq v1 v2.
Proof.
  intros L1 L2 H1 H2.
  destruct (canonicalDecimal_shape _ _ L1 H1) as (sg1 & w1 & f1 & v1 & S1 & V1 & E1).
  destruct (canonicalDecimal_shape _ _ L2 H2) as (sg2 & w2 & f2 & v2 & S2 & V2 & E2).
  split.
  - intros ->. exists v1, v2. split_and!; [done..|]. rewrite E1, E2.
    apply shape_decimal_value in S1, S2. rewrite S1 in S2.
    by apply Some_inj in S2 as ->.
  - intros (v1' & v2' & V1' & V2' & E). rewrite V1 in V1'. rewrite V2 in V2'.
    injection V1' as <-. injection V2' as <-.
    eapply shape_value_inj; [exact S1 | exact S2 |]. by rewrite <- E1, <- E2.
Qed.

(** canonicalising a canonical decimal changes
    nothing, so a key computed from a stored canonical form is the same key. *)
Theorem canonicalDecimal_idempotent s c :
  slen s ≤ max_alloc → slen c ≤ max_alloc →
  canonicalDecimal s = Ok c → canonicalDecimal c = Ok c.
Proof.
  intros L1 L2 H1. destruct (canonicalDecimal_shape _ _ L1 H1) as (sg & w & f & v & S & _ & _).
  assert (∃ c', canonicalDecimal c = Ok c') as (c' & H2).
  { unfold canonicalDecimal. rewrite (split_shape _ _ _ _ S). cbn [mbind result_bind or_fail].
    destruct (decide _); [by eexists|].
    assert (slen f ≤ slen c) as Hf.
    { rewrite (ds_text _ _ _ _ S). unfold slen, point. rewrite !length_app_string.
      destruct (decide (f = "")) as [->|]; [cbn; lia|]. rewrite length_app_string. lia. }
    rewrite Z.sub_0_r, swrap_small by (unfold min_int64, max_int64, max_alloc, slen in *; lia).
    apply render_decimal_ok. unfold slen in *. unfold max_alloc in *. lia. }
  rewrite H2. f_equal.
  destruct (canonicalDecimal_shape _ _ L2 H2) as (sg2 & w2 & f2 & v2 & S2 & V2 & E2).
  rewrite (shape_decimal_value _ _ _ _ S) in V2. apply Some_inj in V2 as <-.
  symmetry in E2. eapply shape_value_inj; [exact S2 | exact S | exact E2].
Qed.

(** an integer literal has the same canonical form as
    an integer and as a [numeric], so it is routed alike for both column types. *)
Theorem integer_decimal_agree s z :
  slen s ≤ max_alloc → SetString10 (TrimSpace s) = Some z →
  canonicalDecimal s = Ok (FormatInt z).
Proof.
  intros L Hz. destruct (split_integer _ _ Hz) as (sign & w & Hs & Hsign & Hw & Hv).
  assert (∃ c, canonicalDecimal s = Ok c) as (c & Hc).
  { unfold canonicalDecimal. rewrite Hs. cbn [mbind result_bind or_fail]. destruct (decide _); [by eexists|].
    rewrite swrap_small by done. by apply render_decimal_ok. }
  rewrite Hc. f_equal. destruct (canonicalDecimal_shape _ _ L Hc) as (s' & w' & f' & v & S & V & E).
  destruct (FormatInt_shape z) as (s2 & w2 & S2 & E2).
  eapply shape_value_inj; [exact S | exact S2 |]. rewrite E2, <- E.
  unfold decimal_value in V. rewrite Hs in V. cbn in V. injection V as <-.
  rewrite app_string_nil_r, <- Hv. reflexivity.
Qed.

(** a short literal with a large exponent makes
    [canonicalDecimal] panic: it asks [strings.Repeat] for as many zeros as the
    exponent says. *)
Theorem huge_exponent_panics n :
  max_alloc < n ≤ max_int64 → canonicalDecimal ("1e" +:+ FormatInt n) = Err Panicked.
Proof.
  intros Hn. assert (all_bytes plain ("1e" +:+ FormatInt n)) as Hplain.
  { apply all_bytes_app. split; [|eapply SetString10_plain, SetString10_FormatInt].
    do 2 (apply all_bytes_cons; split; [done|]). apply all_bytes_nil. }
  unfold canonicalDecimal, split_decimal. rewrite TrimSpace_plain by done.
  change ("1e" +:+ FormatInt n) with (String "1" (String "e" (FormatInt n))).
  rewrite decide_False by done. cbn [IndexAny IndexFunc].
  change (bool_decide ("1"%char ∈ ["e"%char; "E"%char])) with false.
  change (bool_decide ("e"%char ∈ ["e"%char; "E"%char])) with true.
  cbn [mbind option_bind fmap option_fmap option_map drop_string]. unfold Atoi. rewrite ParseInt_FormatInt
    by (unfold max_alloc, min_int64 in *; lia).
  cbn [mbind option_bind result_bind or_fail take_string].
  change (IndexByte "1" ".") with (@None nat). cbn [mbind option_bind result_bind or_fail].
  change (bool_decide ("1" = "" ∧ "" = "") || negb (allDigits "1") || negb (allDigits "")) with false.
  cbn [mbind result_bind or_fail]. change (slen "") with 0. rewrite Z.sub_0_l, swrap_small
    by (unfold max_alloc, min_int64, max_int64 in *; lia).
  change (TrimLeftFunc _ ("1" +:+ "")) with "1". rewrite decide_False by done.
  unfold render_decimal. cbn [trim_scale String.length].
  assert ((0 <? - n) = false) as -> by (apply Z.ltb_ge; unfold max_alloc in *; lia). cbn [andb].
  assert ((- n <=? 0) = true) as -> by (apply Z.leb_le; unfold max_alloc in *; lia).
  rewrite Z.opp_involutive, swrap_small by (unfold max_alloc, min_int64, max_int64 in *; lia).
  by rewrite repeat_zeros_panics by lia.
Qed.

(** tuples of the same number of key columns are hashed under
    the same text only when they are equal; PostgreSQL values hold no NUL. *)
Theorem tuple_key_injective canonical1 canonical2 :
  length canonical1 = length canonical2 →
  Forall (λ s, (ascii_of_N 0) ∉ (bytes_of s)) canonical1 →
  Forall (λ s, (ascii_of_N 0) ∉ (bytes_of s)) canonical2 →
  tuple_key canonical1 = tuple_key canonical2 → canonical1 = canonical2.
Proof. apply Join_inj. Qed.

(** publishing the legacy modulo owners of a table as a
    Nest placement moves no row: every key is routed to the Burrow that modulo
    placement over the sorted Burrow names chose before. *)
Theorem modulo_placement_equivalence `{Floats} registry table names values types burrows :
  tableVShards registry = None → VShardCount registry ≠ VirtualShards →
  names ≠ [] → burrows ≠ [] →
  TargetForTableShardKey table values types
    (WithTableVShards registry
      {[ CanonicalTable registry table := topology.LegacyModuloOwners names (Z.to_nat VirtualShards) ]})
    burrows
  = TargetForTableShardKey table values types registry (sort_strings names).
Proof.
  intros Hnone Hcount Hnames Hburrows.
  assert (sort_strings names ≠ []) as Hsorted.
  { intros E. apply Hnames. apply Permutation_nil_r. rewrite <- E. symmetry. apply sort_strings_perm. }
  assert (length (sort_strings names) ≠ 0%nat) as Hlen by (by destruct (sort_strings names)).
  unfold TargetForTableShardKey. rewrite (bool_decide_eq_false_2 (burrows = [])) by done.
  rewrite (bool_decide_eq_false_2 (sort_strings names = [])) by done.
  destruct (_ || _ || _); [done|]. destruct (canonical_tuple values types) as [canonical|]; [|done].
  cbn [mbind result_bind]. set (v := HashKey (tuple_key canonical) mod VirtualShards).
  assert (0 ≤ v < VirtualShards) as Hv by (apply Z.mod_pos_bound; done).
  unfold VShardCountFor, VShardOwnerFor, table_placement. rewrite Hnone.
  change (CanonicalTable (WithTableVShards registry _) table) with (CanonicalTable registry table).
  cbn [tableVShards WithTableVShards mbind option_bind]. rewrite lookup_singleton_eq.
  unfold topology.LegacyModuloOwners. rewrite decide_False by done.
  rewrite length_fmap, length_seq. rewrite Z2Nat.id by done. rewrite Z.eqb_refl.
  change (Z.of_nat (length (vshards registry))) with (VShardCount registry).
  rewrite (proj2 (Z.eqb_neq _ _) Hcount). unfold HasTopologyPlacement. rewrite Hnone.
  unfold slice_at. rewrite length_fmap, length_seq, Z2Nat.id by done.
  rewrite (proj2 (Z.ltb_ge _ _)) by lia. rewrite (proj2 (Z.leb_gt _ _)) by lia. cbn [orb].
  rewrite list_lookup_fmap, lookup_seq_lt by lia. cbn [fmap option_fmap option_map or_fail].
  f_equal. unfold BurrowForKey. rewrite decide_False by done. fold v. unfold topology.modulo_owner.
  cbv zeta. rewrite Nat.add_0_l.
  assert (v mod Z.of_nat (length (sort_strings names)) =
    Z.of_nat (Z.to_nat v mod length (sort_strings names))) as ->.
  { rewrite Nat2Z.inj_mod, Z2Nat.id; lia. }
  destruct (decide _) as [->|Hr]; [done|].
  rewrite (proj2 (Z.eqb_neq _ _)) by lia. do 2 f_equal. lia.
Qed.

(** * Witnesses *)

Lemma canonicalDecimal_by_value_witness :
  ∃ v1 v2, decimal_value "+01.50" = Some v1 ∧ decimal_value " 15E-1" = Some v2 ∧ scaled_eq v1 v2.
Proof.
  refine (proj1 (canonicalDecimal_by_value "+01.50" " 15E-1" "1.5" "1.5" _ _ _ _) eq_refl);
    [vm_compute; discriminate .. | reflexivity | reflexivity].
Defined.

Lemma canonicalDecimal_idempotent_witness : canonicalDecimal "-0.12" = Ok "-0.12".
Proof.
  refine (canonicalDecimal_idempotent "-12e-2" "-0.12" _ _ _);
    [vm_compute; discriminate .. | reflexivity].
Defined.

Lemma integer_decimal_agree_witness : canonicalDecimal " +0120 " = Ok "120".
Proof.
  refine (integer_decimal_agree " +0120 " 120 _ _); [vm_compute; discriminate | reflexivity].
Defined.

Lemma huge_exponent_panics_witness : canonicalDecimal "1e999999999999999" = Err Panicked.
Proof.
  refine (huge_exponent_panics 999999999999999 _). unfold max_alloc, max_int64. lia.
Defined.

Lemma tuple_key_injective_witness : ["a"; "bc"] = ["a"; "bc"].
Proof.
  refine (tuple_key_injective ["a"; "bc"] ["a"; "bc"] eq_refl _ _ eq_refl); by_computation.
Defined.

Lemma modulo_placement_equivalence_witness :
  @TargetForTableShardKey toy_floats "public.accounts" ["42"] ["bigint"]
    (WithTableVShards accounts
      {[ CanonicalTable accounts "public.accounts" :=
         topology.LegacyModuloOwners ["b"; "a"; "c"] (Z.to_nat VirtualShards) ]}) ["a"]
  = Ok "a".
Proof.
  refine (eq_trans (@modulo_placement_equivalence toy_floats accounts "public.accounts"
    ["b"; "a"; "c"] ["42"] ["bigint"] ["a"] _ _ _ _) _);
    [reflexivity | vm_compute; discriminate | discriminate | discriminate | vm_compute; reflexivity].
Defined.

End shardkey.
