(* ===== verification/PgQuery.v ===== *)
(** PostgreSQL syntax trees as [pg_query_go] delivers them: protobuf messages.
    Parsing and deparsing are third-party code and parameters of the model; the
    tree is data.  A message carries its Go type name and its populated fields
    under their Go names, in the order in which protobuf reflection ranges over
    them.  The getters are the generated nil-safe ones. *)
From S2P Require Import Prelude.
From S2P Require Import GoStrings.

Inductive message : Type :=
| Msg (name : string) (fields : list (string * field))
with field : Type :=
| FString (s : string)
| FInt (z : Z)
| FBool (b : bool)
| FEnum (s : string)
| FMsg (m : message)
| FList (l : list message).

Definition msg_name (m : message) : string := match m with Msg n _ => n end.
Definition msg_fields (m : message) : list (string * field) := match m with Msg _ fs => fs end.

(** The messages stored in one field, in order. *)
Definition field_messages (f : field) : list message :=
  match f with FMsg m => [m] | FList l => l | _ => [] end.
Definition submessages (m : message) : list message :=
  flat_map (λ p, field_messages p.2) (msg_fields m).

(** The first entry with the given name; a message has one per field. *)
Fixpoint assoc_field (f : string) (l : list (string * field)) : option field :=
  match l with
  | [] => None
  | (g, v) :: l => if decide (f = g) then Some v else assoc_field f l
  end.

(** A nil message has every field at its zero value. *)
Definition get (m : option message) (f : string) : option field :=
  m ← m; assoc_field f (msg_fields m).
Definition get_msg (m : option message) (f : string) : option message :=
  match get m f with Some (FMsg x) => Some x | _ => None end.
Definition get_list (m : option message) (f : string) : list message :=
  match get m f with Some (FList l) => l | _ => [] end.
Definition get_string (m : option message) (f : string) : string :=
  match get m f with Some (FString s) => s | _ => "" end.
Definition get_int (m : option message) (f : string) : Z :=
  match get m f with Some (FInt z) => z | _ => 0 end.
Definition get_bool (m : option message) (f : string) : bool :=
  match get m f with Some (FBool b) => b | _ => false end.
Definition get_enum (m : option message) (f : string) : string :=
  match get m f with Some (FEnum s) => s | _ => "UNDEFINED" end.

(** A [pg_query.Node] is a message whose only field is the oneof [Node].
    [as_node k n] is the getter [n.Get<k>()]. *)
Definition GetNode (n : option message) : option message := get_msg n "Node".
Definition as_node (k : string) (n : option message) : option message :=
  m ← GetNode n; if decide (msg_name m = k) then Some m else None.
Definition mk_node (m : message) : message := Msg "Node" [("Node", FMsg m)].

(** Assign one field of a message: the pointer write [m.f = v]. *)
Fixpoint assign_field (f : string) (v : field) (l : list (string * field)) : list (string * field) :=
  match l with
  | [] => [(f, v)]
  | (g, w) :: l => if decide (f = g) then (f, v) :: l else (g, w) :: assign_field f v l
  end.
Definition set_field (f : string) (v : field) (m : message) : message :=
  match m with Msg n fs => Msg n (assign_field f v fs) end.
(** Mutate the message a field points to, and the message a node wraps. *)
Definition in_field (f : string) (g : message → message) (m : message) : message :=
  match get_msg (Some m) f with Some x => set_field f (FMsg (g x)) m | None => m end.
Definition in_node (g : message → message) (n : message) : message := in_field "Node" g n.
(** Mutate the element a list field has at one index. *)
Definition in_elem (f : string) (i : nat) (g : message → message) (m : message) : message :=
  set_field f (FList (alter g i (get_list (Some m) f))) m.

Class PgQuery := {
  (** [pg_query.Parse]; [None] when the SQL is rejected. *)
  Parse : string → option message;
  Deparse : message → option string;
}.

(** * Reflection: [walkMessage]

    The visitor is a closure over mutable variables: a state transformer. *)
Fixpoint walkMessage {S} (visit : message → S → S) (m : message) (s : S) : S :=
  match m with
  | Msg n fs =>
    fold_left (λ s p,
      match p with
      | (_, FList l) => fold_left (λ s x, walkMessage visit x s) l s
      | (_, FMsg x) => walkMessage visit x s
      | _ => s
      end) fs (visit (Msg n fs) s)
  end.

(** The messages a walk visits, in order. *)
Definition visited (m : message) : list message :=
  rev (walkMessage (λ x l, x :: l) m []).

(** The size of a message, a measure for recursion through the getters. *)
Fixpoint msize (m : message) : nat :=
  match m with
  | Msg _ fs => S (list_sum ((λ p,
      match p with
      | (_, FMsg x) => msize x
      | (_, FList l) => list_sum (msize <$> l)
      | _ => O
      end) <$> fs))
  end.
Definition osize (m : option message) : nat := match m with Some m => msize m | None => O end.

(** * Lemmas *)

Definition field_size (p : string * field) : nat :=
  match p with
  | (_, FMsg x) => msize x
  | (_, FList l) => list_sum (msize <$> l)
  | _ => O
  end.

Lemma list_sum_cons n l : list_sum (n :: l) = (n + list_sum l)%nat.
Proof. done. Qed.

Lemma msize_fields m : msize m = S (list_sum (field_size <$> msg_fields m)).
Proof. by destruct m. Qed.

Lemma list_sum_elem {A} (f : A → nat) (a : A) (l : list A) : a ∈ l → (f a ≤ list_sum (f <$> l))%nat.
Proof. induction 1 as [a l|a b l _ IH]; rewrite fmap_cons, list_sum_cons; lia. Qed.

Lemma submessages_elem m x :
  x ∈ submessages m ↔ ∃ p, p ∈ msg_fields m ∧ x ∈ field_messages p.2.
Proof.
  unfold submessages. rewrite list_elem_of_In, in_flat_map.
  split; intros (p & Hp & Hx); exists p; split; by apply list_elem_of_In.
Qed.

(** Every message nested directly in [m] is smaller. *)
Lemma msize_submessage m x : x ∈ submessages m → (msize x < msize m)%nat.
Proof.
  intros ([g f] & Hp & Hx)%submessages_elem. rewrite (msize_fields m).
  pose proof (list_sum_elem field_size _ _ Hp) as Hle. cbn in Hx.
  destruct f as [| | | |y|l]; cbn in Hx; try by apply elem_of_nil in Hx.
  - apply list_elem_of_singleton in Hx as ->. cbn [field_size] in Hle. lia.
  - pose proof (list_sum_elem msize _ _ Hx). cbn [field_size] in Hle. lia.
Qed.

Lemma message_tree_ind (P : message → Prop) :
  (∀ m, (∀ x, x ∈ submessages m → P x) → P m) → ∀ m, P m.
Proof.
  intros step. refine (well_founded_induction (well_founded_ltof _ msize) P _).
  intros m IH. apply step. intros x Hx. apply IH. by apply msize_submessage.
Qed.

Lemma assoc_field_elem f l v : assoc_field f l = Some v → (f, v) ∈ l.
Proof.
  induction l as [|[g w] l IH]; cbn; [done|].
  destruct (decide (f = g)) as [->|]; [intros [= ->]; by left | intros ?; right; auto].
Qed.
Lemma get_elem m f v : get (Some m) f = Some v → (f, v) ∈ msg_fields m.
Proof. apply assoc_field_elem. Qed.

Lemma get_msg_sub m f x : get_msg (Some m) f = Some x → x ∈ submessages m.
Proof.
  unfold get_msg. intros H. destruct (get (Some m) f) as [[]|] eqn:Hg; try done. injection H as ->.
  apply submessages_elem. exists (f, FMsg x). split; [by apply get_elem | by apply list_elem_of_singleton].
Qed.
Lemma get_list_sub m f x : x ∈ get_list (Some m) f → x ∈ submessages m.
Proof.
  unfold get_list. destruct (get (Some m) f) as [[]|] eqn:Hg; try by intros ?%elem_of_nil.
  intros Hx. apply submessages_elem. exists (f, FList l). split; [by apply get_elem | done].
Qed.
Lemma as_node_sub k n x : as_node k (Some n) = Some x → x ∈ submessages n.
Proof.
  unfold as_node, GetNode. intros H. destruct (get_msg (Some n) "Node") as [y|] eqn:Hg; [|done].
  cbn in H. destruct (decide _); [|done]. injection H as ->. by eapply get_msg_sub.
Qed.

(** ** Descendants and walks *)

(** Everything reachable through message fields, the root included. *)
Inductive within : message → message → Prop :=
| within_refl m : within m m
| within_sub m x y : x ∈ submessages m → within x y → within m y.
#[export] Hint Constructors within : hamster.

Lemma within_trans m x y : within m x → within x y → within m y.
Proof. induction 1; eauto with hamster. Qed.
Lemma within_step m x : x ∈ submessages m → within m x.
Proof. eauto with hamster. Qed.

Lemma walkMessage_step {S} (visit : message → S → S) m s :
  walkMessage visit m s = fold_left (λ s x, walkMessage visit x s) (submessages m) (visit m s).
Proof.
  destruct m as [n fs]. cbn [walkMessage]. unfold submessages. cbn [msg_fields].
  generalize (visit (Msg n fs) s). induction fs as [|[g f] l IH]; intros t; [done|].
  cbn [flat_map fold_left]. rewrite fold_left_app, <- IH. by destruct f.
Qed.

(** A walk is a fold of the visitor over the visited messages. *)
Fixpoint flatten (fuel : nat) (m : message) : list message :=
  match fuel with
  | O => []
  | S fuel => m :: flat_map (flatten fuel) (submessages m)
  end.

Lemma walkMessage_flatten {S} (visit : message → S → S) fuel m s :
  (msize m ≤ fuel)%nat → walkMessage visit m s = fold_left (λ s x, visit x s) (flatten fuel m) s.
Proof.
  revert m s. induction fuel as [|fuel IH]; intros m s Hm; [rewrite msize_fields in Hm; lia|].
  rewrite walkMessage_step. cbn [flatten fold_left].
  assert (∀ x, x ∈ submessages m → (msize x ≤ fuel)%nat) as Hsub
    by (intros x ?%msize_submessage; lia).
  revert Hsub. generalize (submessages m) (visit m s). intros l.
  induction l as [|x l IHl]; intros t Hsub; [done|].
  cbn [fold_left flat_map]. rewrite fold_left_app, <- IH by (apply Hsub; by left).
  apply IHl. intros y Hy. apply Hsub. by right.
Qed.

Lemma visited_flatten m : visited m = flatten (msize m) m.
Proof.
  unfold visited. rewrite (walkMessage_flatten _ (msize m)) by done.
  rewrite <- fold_left_rev_right.
  assert (∀ l : list message, foldr (λ x l, x :: l) [] l = l) as ->.
  { induction l as [|x l IH]; [done | cbn; by f_equal]. }
  apply rev_involutive.
Qed.

Lemma walkMessage_visited {S} (visit : message → S → S) m s :
  walkMessage visit m s = fold_left (λ s x, visit x s) (visited m) s.
Proof. rewrite visited_flatten. by apply walkMessage_flatten. Qed.

Lemma flatten_elem fuel m x : (msize m ≤ fuel)%nat → x ∈ flatten fuel m ↔ within m x.
Proof.
  revert m. induction fuel as [|fuel IH]; intros m Hm; [rewrite msize_fields in Hm; lia|].
  cbn [flatten]. rewrite elem_of_cons, list_elem_of_In, in_flat_map. split.
  - intros [->|(y & Hy%list_elem_of_In & Hx%list_elem_of_In)]; [constructor|].
    pose proof (msize_submessage _ _ Hy). apply IH in Hx; [eauto with hamster | lia].
  - inversion 1 as [|? y ? Hy Hw]; subst; [by left|]. right. exists y. rewrite <- !list_elem_of_In.
    pose proof (msize_submessage _ _ Hy). split; [done|]. apply IH; [lia | done].
Qed.
Lemma visited_elem m x : x ∈ visited m ↔ within m x.
Proof. rewrite visited_flatten. by apply flatten_elem. Qed.

(** A flag set by a walk is set iff some nested message sets it. *)
Lemma walk_flag (visit : message → bool → bool) (test : message → bool) m :
  (∀ x b, visit x b = b || test x) →
  walkMessage visit m false = true ↔ ∃ x, within m x ∧ test x = true.
Proof.
  intros Hv. rewrite walkMessage_visited. setoid_rewrite <- visited_elem.
  assert (∀ l b, fold_left (λ s x, visit x s) l b = true ↔ b = true ∨ ∃ x, x ∈ l ∧ test x = true) as H.
  { induction l as [|x l IH]; intros b; cbn.
    - split; [by left | intros [?|(x & Hx%elem_of_nil & _)]; done].
    - rewrite IH, Hv, orb_true_iff. setoid_rewrite elem_of_cons. naive_solver. }
  rewrite H. naive_solver.
Qed.

(** The messages of a walk that pass a test, collected or counted. *)
Lemma walk_filter {S} (visit : message → S → S) (test : message → bool) (add : message → S → S) m s :
  (∀ x s, visit x s = if test x then add x s else s) →
  walkMessage visit m s = fold_left (λ s x, add x s) (filter (λ x, test x = true) (visited m)) s.
Proof.
  intros Hv. rewrite walkMessage_visited. generalize (visited m) as l. intros l. revert s.
  induction l as [|x l IH]; intros s; [done|]. cbn [fold_left]. rewrite Hv, filter_cons, IH.
  destruct (test x) eqn:E; [by rewrite decide_True | by rewrite decide_False].
Qed.

(** ** Reading after a pointer write *)

Lemma assoc_assign_same f v l : assoc_field f (assign_field f v l) = Some v.
Proof.
  induction l as [|[g w] l IH]; cbn; [by rewrite decide_True|].
  destruct (decide (f = g)) as [->|]; cbn; [by rewrite decide_True | by rewrite decide_False].
Qed.
Lemma assoc_assign_other f g v l : f ≠ g → assoc_field g (assign_field f v l) = assoc_field g l.
Proof.
  intros Hfg. induction l as [|[h w] l IH]; cbn; [by rewrite decide_False|].
  destruct (decide (f = h)) as [->|]; cbn; [by rewrite !decide_False|].
  destruct (decide (g = h)); [done | apply IH].
Qed.
Lemma assign_field_id f v l : assoc_field f l = Some v → assign_field f v l = l.
Proof.
  induction l as [|[g w] l IH]; cbn; [done|]. destruct (decide (f = g)) as [->|]; [by intros [= ->]|].
  intros H. by rewrite IH.
Qed.

Lemma set_field_id f v m : get (Some m) f = Some v → set_field f v m = m.
Proof. destruct m as [n fs]. cbn. intros H. by rewrite assign_field_id. Qed.
Lemma set_field_twice f v w m : set_field f v (set_field f w m) = set_field f v m.
Proof.
  destruct m as [n fs]. cbn. f_equal. induction fs as [|[g x] fs IH]; cbn; [by rewrite decide_True|].
  destruct (decide (f = g)) as [->|]; cbn; [by rewrite decide_True | by rewrite decide_False, IH].
Qed.
Lemma get_set_same f v m : get (Some (set_field f v m)) f = Some v.
Proof. destruct m. apply assoc_assign_same. Qed.
Lemma get_set_other f g v m : f ≠ g → get (Some (set_field f v m)) g = get (Some m) g.
Proof. destruct m. apply assoc_assign_other. Qed.
Lemma msg_name_set f v m : msg_name (set_field f v m) = msg_name m.
Proof. by destruct m. Qed.

Lemma get_list_set_same f l m : get_list (Some (set_field f (FList l) m)) f = l.
Proof. unfold get_list. by rewrite get_set_same. Qed.
Lemma get_list_set_other f g v m : f ≠ g → get_list (Some (set_field f v m)) g = get_list (Some m) g.
Proof. intros ?. unfold get_list. by rewrite get_set_other. Qed.
Lemma get_msg_set_other f g v m : f ≠ g → get_msg (Some (set_field f v m)) g = get_msg (Some m) g.
Proof. intros ?. unfold get_msg. by rewrite get_set_other. Qed.

Lemma get_msg_in_field f g m x :
  get_msg (Some m) f = Some x → get_msg (Some (in_field f g m)) f = Some (g x).
Proof. intros Hx. unfold in_field. rewrite Hx. unfold get_msg. by rewrite get_set_same. Qed.
Lemma get_list_in_field_other f h g m : f ≠ h → get_list (Some (in_field f g m)) h = get_list (Some m) h.
Proof.
  intros ?. unfold in_field. destruct (get_msg (Some m) f); [by apply get_list_set_other | done].
Qed.
Lemma get_msg_in_field_other f h g m : f ≠ h → get_msg (Some (in_field f g m)) h = get_msg (Some m) h.
Proof.
  intros ?. unfold in_field. destruct (get_msg (Some m) f); [by apply get_msg_set_other | done].
Qed.
Lemma msg_name_in_field f g m : msg_name (in_field f g m) = msg_name m.
Proof. unfold in_field. destruct (get_msg _ _); [apply msg_name_set | done]. Qed.
Lemma get_list_in_elem f i g m : get_list (Some (in_elem f i g m)) f = alter g i (get_list (Some m) f).
Proof. apply get_list_set_same. Qed.
Lemma msg_name_in_elem f i g m : msg_name (in_elem f i g m) = msg_name m.
Proof. apply msg_name_set. Qed.

Lemma as_node_in_node k g n m :
  as_node k (Some n) = Some m → msg_name (g m) = k → as_node k (Some (in_node g n)) = Some (g m).
Proof.
  unfold as_node, in_node, GetNode. destruct (get_msg (Some n) "Node") as [x|] eqn:Hx; [|done].
  cbn. destruct (decide _); [|done]. intros [= ->] Hg.
  rewrite (get_msg_in_field _ _ _ _ Hx). cbn. by rewrite decide_True.
Qed.
Lemma as_node_name k n m : as_node k n = Some m → msg_name m = k.
Proof.
  unfold as_node. destruct (GetNode n); [|done]. cbn. destruct (decide _); [|done]. by intros [= <-].
Qed.
