(* ===== verification/Ddl.v ===== *)
(** Normalisation of schema statements: [internal/ddl/normalize.go].  Every
    generated integer column becomes BIGINT GENERATED BY DEFAULT AS IDENTITY.

    The source mutates the parse tree through pointers while it walks it and
    reports whether it changed anything; a [rewriting] is such a step. *)
From S2P Require Import Prelude.
From S2P Require Import GoStrings.
From S2P Require Import PgQuery.

Module ddl.

(** * Rewriting a tree in place *)

Definition rewriting : Type := message → message * bool.

(** [if x := n.Get<k>(); x != nil { ... }] *)
Definition on_node (k : string) (f : rewriting) : rewriting := λ n,
  match as_node k (Some n) with
  | Some m => (set_field "Node" (FMsg (f m).1) n, (f m).2)
  | None => (n, false)
  end.
(** The message a pointer field holds. *)
Definition on_field (field : string) (f : rewriting) : rewriting := λ m,
  match get_msg (Some m) field with
  | Some x => (set_field field (FMsg (f x).1) m, (f x).2)
  | None => (m, false)
  end.
(** A loop over the elements of a repeated field. *)
Definition on_list (field : string) (f : rewriting) : rewriting := λ m,
  match get (Some m) field with
  | Some (FList l) => (set_field field (FList ((λ x, (f x).1) <$> l)) m, existsb (λ x, (f x).2) l)
  | _ => (m, false)
  end.
Definition when (P : message → bool) (f : rewriting) : rewriting := λ m,
  if P m then f m else (m, false).
Definition and_then (f g : rewriting) : rewriting := λ m,
  ((g (f m).1).1, (f m).2 || (g (f m).1).2).

(** * Columns *)

Definition lastTypeName (value : option message) : string :=
  match rev (get_list value "Names") with
  | last :: _ => get_string (as_node "String" (Some last)) "Sval"
  | [] => ""
  end.
Definition serialType (value : option message) : bool :=
  bool_decide (lastTypeName value ∈ ["serial"; "serial2"; "serial4"; "serial8"; "smallserial"; "bigserial"]).
Definition bigintType (value : option message) : bool :=
  bool_decide (lastTypeName value ∈ ["int8"; "bigint"]).

Definition is_identity (node : message) : bool :=
  match as_node "Constraint" (Some node) with
  | Some constraint => bool_decide (get_enum (Some constraint) "Contype" = "CONSTR_IDENTITY")
  | None => false
  end.
(** The index of the constraint [identityConstraint] points to. *)
Fixpoint identityConstraint (nodes : list message) : option nat :=
  match nodes with
  | [] => None
  | node :: nodes => if is_identity node then Some O else S <$> identityConstraint nodes
  end.

Definition constraintNode (value : message) : message := mk_node value.
Definition default_identity : message :=
  Msg "Constraint" [("Contype", FEnum "CONSTR_IDENTITY"); ("GeneratedWhen", FString "d")].

(** [if constraint.GeneratedWhen != "d" { constraint.GeneratedWhen = "d" }] *)
Definition generate_by_default : rewriting :=
  when (λ constraint, bool_decide (get_string (Some constraint) "GeneratedWhen" ≠ "d"))
    (λ constraint, (set_field "GeneratedWhen" (FString "d") constraint, true)).

Definition generated_when (node : message) : string :=
  get_string (as_node "Constraint" (Some node)) "GeneratedWhen".

Section with_library.
(** [pg_query.MakeStrNode] *)
Context (MakeStrNode : string → message).

Definition use_int8 : message → message :=
  in_field "TypeName" (set_field "Names" (FList [MakeStrNode "pg_catalog"; MakeStrNode "int8"])).

Definition normalizeColumnDefinition : rewriting := λ column,
  let type := get_msg (Some column) "TypeName" in
  let constraints := get_list (Some column) "Constraints" in
  match type with
  | None => (column, false)
  | Some _ =>
    if serialType type then
      (set_field "Constraints" (FList (constraints ++ [constraintNode default_identity]))
         (use_int8 column), true)
    else
      match identityConstraint constraints with
      | None => (column, false)
      | Some index =>
        let changed := negb (bigintType type) in
        let column := if changed then use_int8 column else column in
        if bool_decide (generated_when (default (Msg "" []) (constraints !! index)) ≠ "d")
        then (in_elem "Constraints" index (in_node (set_field "GeneratedWhen" (FString "d"))) column, true)
        else (column, changed)
      end
  end.

(** * Statements *)

Definition normalize_create : rewriting :=
  on_list "TableElts" (on_node "ColumnDef" normalizeColumnDefinition).

(** The value of a [SET GENERATED] option is the character 'd'. *)
Definition normalize_option : rewriting :=
  when (λ option, bool_decide (get_string (Some option) "Defname" = "generated"))
    (on_field "Arg" (on_node "Integer"
      (when (λ value, bool_decide (get_int (Some value) "Ival" ≠ 100))
        (λ value, (set_field "Ival" (FInt 100) value, true))))).

Definition subtype_is (t : string) (command : message) : bool :=
  bool_decide (get_enum (Some command) "Subtype" = t).
Definition normalize_command : rewriting :=
  and_then (when (subtype_is "AT_AddColumn")
              (on_field "Def" (on_node "ColumnDef" normalizeColumnDefinition)))
  (and_then (when (subtype_is "AT_AddIdentity")
              (on_field "Def" (on_node "Constraint" generate_by_default)))
            (when (subtype_is "AT_SetIdentity")
              (on_field "Def" (on_node "List" (on_list "Items" (on_node "DefElem" normalize_option)))))).
Definition normalize_alter : rewriting := on_list "Cmds" (on_node "AlterTableCmd" normalize_command).

(** One iteration of the loop of [Normalize]. *)
Definition normalize_raw : rewriting :=
  on_field "Stmt" (and_then (on_node "CreateStmt" normalize_create)
                            (on_node "AlterTableStmt" normalize_alter)).
Definition is_schema (raw : message) : bool :=
  match get_msg (Some raw) "Stmt" with
  | Some stmt => bool_decide (is_Some (as_node "CreateStmt" (Some stmt)))
                 || bool_decide (is_Some (as_node "AlterTableStmt" (Some stmt)))
  | None => false
  end.
Definition normalize_tree : rewriting := on_list "Stmts" normalize_raw.

Record Result := { SQL : string; Schema : bool; Changed : bool }.
Inductive error := ParseError | DeparseError.

Definition Normalize `{PgQuery} (sql : string) : result error Result :=
  match PgQuery.Parse sql with
  | None => Err ParseError
  | Some tree =>
    let schema := existsb is_schema (get_list (Some tree) "Stmts") in
    let '(tree, changed) := normalize_tree tree in
    if changed then
      match Deparse tree with
      | Some sql => Ok {| SQL := sql; Schema := schema; Changed := true |}
      | None => Err DeparseError
      end
    else Ok {| SQL := sql; Schema := schema; Changed := false |}
  end.
End with_library.

(** * Lemmas: rewritings that settle

    A rewriting settles a message when it changes nothing more on its own
    result, and keeps it when reporting no change means there was none. *)

Definition settles (f : rewriting) (m : message) : Prop := f (f m).1 = ((f m).1, false).
Definition keeps (f : rewriting) : Prop := ∀ m, (f m).2 = false → (f m).1 = m.
(** The result is still the same kind of message. *)
Definition same_kind (f : rewriting) : Prop := ∀ m, msg_name (f m).1 = msg_name m.

Lemma get_msg_get f m x : get_msg m f = Some x → get m f = Some (FMsg x).
Proof. unfold get_msg. destruct (get m f) as [[]|]; try done. by intros [= ->]. Qed.
Lemma as_node_get k n m : as_node k (Some n) = Some m → get (Some n) "Node" = Some (FMsg m).
Proof.
  unfold as_node. intros (x & Hx & H)%bind_Some. case_decide; [|done]. injection H as <-.
  by apply get_msg_get.
Qed.
Lemma as_node_set k n m m' :
  as_node k (Some n) = Some m → msg_name m' = msg_name m →
  as_node k (Some (set_field "Node" (FMsg m') n)) = Some m'.
Proof.
  intros H E. pose proof (as_node_name _ _ _ H) as Hk. unfold as_node, GetNode, get_msg.
  rewrite get_set_same. cbn [mbind option_bind]. by rewrite decide_True by congruence.
Qed.
Lemma get_msg_set f m x : get_msg (Some (set_field f (FMsg x) m)) f = Some x.
Proof. unfold get_msg. by rewrite get_set_same. Qed.

Lemma settles_on_node k f n :
  same_kind f → (∀ m, as_node k (Some n) = Some m → settles f m) → settles (on_node k f) n.
Proof.
  intros Hk Hf. unfold settles, on_node. destruct (as_node k (Some n)) as [m|] eqn:E; cbn [fst].
  - rewrite (as_node_set k n m) by done. rewrite Hf by done. cbn. by rewrite set_field_twice.
  - by rewrite E.
Qed.
Lemma settles_on_field fld f m :
  (∀ x, get_msg (Some m) fld = Some x → settles f x) → settles (on_field fld f) m.
Proof.
  intros Hf. unfold settles, on_field. destruct (get_msg (Some m) fld) as [x|] eqn:E; cbn [fst].
  - rewrite get_msg_set, Hf by done. cbn. by rewrite set_field_twice.
  - by rewrite E.
Qed.
Lemma settles_on_list fld f m :
  (∀ x, x ∈ get_list (Some m) fld → settles f x) → settles (on_list fld f) m.
Proof.
  intros Hf. unfold settles, on_list, get_list in *. destruct (get (Some m) fld) as [[| | | | |l]|] eqn:E;
    cbn [fst]; try by rewrite E.
  rewrite get_set_same. rewrite set_field_twice.
  assert ((λ x, (f x).1) <$> ((λ x, (f x).1) <$> l) = (λ x, (f x).1) <$> l ∧
          existsb (λ x, (f x).2) ((λ x, (f x).1) <$> l) = false) as [-> ->]; [|done].
  clear E. induction l as [|x l IH]; [done|]. destruct IH as [IH1 IH2]; [intros; apply Hf; by right|].
  pose proof (Hf x ltac:(left)) as Hx. unfold settles in Hx. cbn. by rewrite Hx, IH1, IH2.
Qed.
Lemma settles_when P f m : (P m = true → settles f m) → settles (when P f) m.
Proof.
  intros H. unfold settles, when in *. destruct (P m) eqn:E; cbn [fst]; [|by rewrite E].
  destruct (P (f m).1); [by apply H | done].
Qed.
(** Two rewritings of disjoint parts; [g] may not undo [f]. *)
Lemma settles_and_then f g m :
  settles g (f m).1 → f (g (f m).1).1 = ((g (f m).1).1, false) → settles (and_then f g) m.
Proof. intros Hg Hf. unfold settles, and_then in *. cbn. rewrite Hf. cbn. by rewrite Hg. Qed.

Lemma keeps_on_node k f : keeps f → keeps (on_node k f).
Proof.
  intros Hf n. unfold on_node. destruct (as_node k (Some n)) as [m|] eqn:E; cbn; [|done].
  intros ->%Hf. apply as_node_get in E. by apply set_field_id.
Qed.
Lemma keeps_on_field fld f : keeps f → keeps (on_field fld f).
Proof.
  intros Hf m. unfold on_field. destruct (get_msg (Some m) fld) as [x|] eqn:E; cbn; [|done].
  intros ->%Hf. by apply set_field_id, get_msg_get.
Qed.
Lemma keeps_on_list fld f : keeps f → keeps (on_list fld f).
Proof.
  intros Hf m. unfold on_list. destruct (get (Some m) fld) as [[| | | | |l]|] eqn:E; cbn; try done.
  intros H. rewrite set_field_id; [done|]. rewrite E. do 2 f_equal. clear E.
  induction l as [|x l IH]; [done|]. cbn in *. apply orb_false_iff in H as [Hx Hl].
  rewrite Hf by done. by f_equal; apply IH.
Qed.
Lemma keeps_when P f : keeps f → keeps (when P f).
Proof. intros Hf m. unfold when. destruct (P m); [apply Hf | done]. Qed.
Lemma keeps_and_then f g : keeps f → keeps g → keeps (and_then f g).
Proof. intros Hf Hg m. cbn. intros [H1%Hf H2%Hg]%orb_false_iff. by rewrite H2. Qed.

Lemma same_kind_on_node k f : same_kind (on_node k f).
Proof. intros n. unfold on_node. destruct (as_node _ _); [apply msg_name_set | done]. Qed.
Lemma same_kind_on_field fld f : same_kind (on_field fld f).
Proof. intros n. unfold on_field. destruct (get_msg _ _); [apply msg_name_set | done]. Qed.
Lemma same_kind_on_list fld f : same_kind (on_list fld f).
Proof. intros n. unfold on_list. destruct (get _ _) as [[]|]; try done. apply msg_name_set. Qed.
Lemma same_kind_when P f : same_kind f → same_kind (when P f).
Proof. intros Hf n. unfold when. by destruct (P n). Qed.
Lemma same_kind_and_then f g : same_kind f → same_kind g → same_kind (and_then f g).
Proof. intros Hf Hg n. cbn. by rewrite Hg, Hf. Qed.
Create HintDb rewriting.
#[local] Hint Resolve same_kind_on_node same_kind_on_field same_kind_on_list same_kind_when
  same_kind_and_then : rewriting.

(** * Lemmas: columns *)

Section columns.
Context (MakeStrNode : string → message)
  (MakeStrNode_Sval : ∀ s, get_string (as_node "String" (Some (MakeStrNode s))) "Sval" = s).
Local Abbreviation normalizeColumnDefinition := (normalizeColumnDefinition MakeStrNode).
Local Abbreviation use_int8 := (use_int8 MakeStrNode).

Definition normalized_column (column : message) : Prop :=
  get_msg (Some column) "TypeName" = None ∨
  (serialType (get_msg (Some column) "TypeName") = false ∧
   ∀ i node, identityConstraint (get_list (Some column) "Constraints") = Some i →
     get_list (Some column) "Constraints" !! i = Some node →
     bigintType (get_msg (Some column) "TypeName") = true ∧ generated_when node = "d").
(** PostgreSQL rejects a serial column that also has an identity clause. *)
Definition plain_column (column : message) : Prop :=
  serialType (get_msg (Some column) "TypeName") = true →
  identityConstraint (get_list (Some column) "Constraints") = None.

Lemma identityConstraint_lookup nodes i :
  identityConstraint nodes = Some i → ∃ node, nodes !! i = Some node ∧ is_identity node = true.
Proof.
  revert i. induction nodes as [|node nodes IH]; intros i; cbn; [done|].
  destruct (is_identity node) eqn:E; [intros [= <-]; eauto|].
  destruct (identityConstraint nodes) as [j|]; [|done]. intros [= <-]. cbn. by apply IH.
Qed.
Lemma identityConstraint_app nodes node :
  identityConstraint nodes = None → is_identity node = true →
  identityConstraint (nodes ++ [node]) = Some (length nodes).
Proof.
  intros Hn Hi. induction nodes as [|m nodes IH]; cbn in *; [by rewrite Hi|].
  destruct (is_identity m); [done|]. destruct (identityConstraint nodes); [done|]. by rewrite IH.
Qed.
Lemma identityConstraint_alter g nodes i :
  (∀ node, is_identity (g node) = is_identity node) →
  identityConstraint (alter g i nodes) = identityConstraint nodes.
Proof.
  intros Hg. revert i. induction nodes as [|node nodes IH]; intros [|i]; cbn; [done..| |].
  - by rewrite Hg.
  - change (list_alter g i nodes) with (alter g i nodes). by rewrite IH.
Qed.

Definition by_default : message → message := in_node (set_field "GeneratedWhen" (FString "d")).
Lemma as_node_by_default node :
  as_node "Constraint" (Some (by_default node)) =
  set_field "GeneratedWhen" (FString "d") <$> as_node "Constraint" (Some node).
Proof.
  destruct (as_node "Constraint" (Some node)) as [c|] eqn:E; cbn.
  - apply (as_node_in_node _ (set_field "GeneratedWhen" (FString "d"))) in E; [done|].
    rewrite msg_name_set. by eapply as_node_name.
  - unfold by_default, in_node, in_field, as_node, GetNode in *. destruct (get_msg (Some node) "Node") as [x|] eqn:Hx.
    + rewrite get_msg_set. cbn in *. rewrite msg_name_set. by case_decide.
    + by rewrite Hx.
Qed.
Lemma is_identity_by_default node : is_identity (by_default node) = is_identity node.
Proof.
  unfold is_identity. rewrite as_node_by_default. destruct (as_node "Constraint" (Some node)) as [c|]; [|done].
  cbn. unfold get_enum. by rewrite get_set_other.
Qed.
Lemma generated_when_by_default node :
  is_identity node = true → generated_when (by_default node) = "d".
Proof.
  unfold is_identity, generated_when. rewrite as_node_by_default. destruct (as_node "Constraint" (Some node)); [|done].
  intros _. cbn. unfold get_string. by rewrite get_set_same.
Qed.

Lemma type_use_int8 column t :
  get_msg (Some column) "TypeName" = Some t →
  ∃ t', get_msg (Some (use_int8 column)) "TypeName" = Some t' ∧ lastTypeName (Some t') = "int8".
Proof.
  intros H. unfold ddl.use_int8. rewrite (get_msg_in_field _ _ _ _ H). eexists. split; [done|].
  unfold lastTypeName. rewrite get_list_set_same. cbn. apply MakeStrNode_Sval.
Qed.
Lemma constraints_use_int8 column :
  get_list (Some (use_int8 column)) "Constraints" = get_list (Some column) "Constraints".
Proof. by apply get_list_in_field_other. Qed.

Lemma normalizeColumnDefinition_unchanged column :
  (normalizeColumnDefinition column).2 = false ↔ normalized_column column.
Proof.
  unfold ddl.normalizeColumnDefinition, normalized_column.
  destruct (get_msg (Some column) "TypeName") as [t|]; [|naive_solver].
  destruct (serialType (Some t)); [naive_solver|].
  destruct (identityConstraint _) as [i|] eqn:Ei; [|naive_solver].
  apply identityConstraint_lookup in Ei as (node & Hnode & _). rewrite Hnode. cbn [default from_option].
  case_bool_decide as Hw; cbn; [split; [done|]; intros [|[_ H]]; [done|]; by destruct (H i node) |].
  destruct (bigintType (Some t)); cbn; [|split; [done|]; intros [|[_ H]]; [done|]; by destruct (H i node)].
  cbn in Hw. split; [|done]. intros _. right. split; [done|]. naive_solver.
Qed.

Lemma keeps_normalizeColumnDefinition : keeps normalizeColumnDefinition.
Proof.
  intros column. unfold ddl.normalizeColumnDefinition.
  destruct (get_msg _ _) as [t|]; [|done]. destruct (serialType _); [done|].
  destruct (identityConstraint _); [|done]. case_bool_decide; [done|].
  by destruct (bigintType _).
Qed.
Lemma same_kind_normalizeColumnDefinition : same_kind normalizeColumnDefinition.
Proof.
  intros column. unfold ddl.normalizeColumnDefinition, ddl.use_int8.
  destruct (get_msg _ _) as [t|]; [|done]. destruct (serialType _).
  { cbn. by rewrite msg_name_set, msg_name_in_field. }
  destruct (identityConstraint _); [|done].
  case_bool_decide; destruct (bigintType _); cbn; by rewrite ?msg_name_in_elem, ?msg_name_in_field.
Qed.

Lemma normalizeColumnDefinition_normalized column :
  plain_column column → normalized_column (normalizeColumnDefinition column).1.
Proof.
  intros Hplain. unfold plain_column in Hplain.
  destruct (normalizeColumnDefinition column).2 eqn:Hch.
  2: { rewrite (keeps_normalizeColumnDefinition _ Hch). by apply normalizeColumnDefinition_unchanged. }
  unfold ddl.normalizeColumnDefinition in *. unfold normalized_column.
  destruct (get_msg (Some column) "TypeName") as [t|] eqn:Ht; [|done].
  assert (∀ t', lastTypeName (Some t') = "int8" → serialType (Some t') = false ∧ bigintType (Some t') = true) as Hint8.
  { intros t' E. unfold serialType, bigintType. by rewrite E. }
  destruct (type_use_int8 column t Ht) as (t' & Ht' & Hlast). destruct (Hint8 t' Hlast) as [Hs' Hb'].
  destruct (serialType (Some t)) eqn:Hs.
  - cbn. right. rewrite get_msg_set_other, Ht', get_list_set_same by done. split; [done|].
    intros i node. rewrite identityConstraint_app by (auto using Hplain; done). intros [= <-].
    rewrite list_lookup_middle by done. by intros [= <-].
  - destruct (identityConstraint (get_list (Some column) "Constraints")) as [i|] eqn:Ei; [|done].
    destruct (identityConstraint_lookup _ _ Ei) as (node & Hnode & Hid). rewrite Hnode in *. cbn [default from_option] in *.
    set (column' := if negb (bigintType (Some t)) then use_int8 column else column).
    assert (∃ t'', get_msg (Some column') "TypeName" = Some t'' ∧ serialType (Some t'') = false
              ∧ bigintType (Some t'') = true) as (t'' & Ht'' & Hs'' & Hb'').
    { unfold column'. destruct (bigintType (Some t)) eqn:Hb; cbn; eauto. }
    assert (get_list (Some column') "Constraints" = get_list (Some column) "Constraints") as Hc.
    { unfold column'. destruct (negb _); [apply constraints_use_int8 | done]. }
    assert (∀ column'', get_msg (Some column'') "TypeName" = Some t'' →
      (∃ node', identityConstraint (get_list (Some column'') "Constraints") = Some i ∧
        get_list (Some column'') "Constraints" !! i = Some node' ∧ generated_when node' = "d") →
      normalized_column column'') as Hfinish.
    { intros column'' E (node' & Ei' & Hn' & Hg). right. rewrite E. split; [done|].
      intros j nd Ej Hnd. rewrite Ei' in Ej. injection Ej as <-. rewrite Hn' in Hnd. by injection Hnd as <-. }
    fold (normalized_column (if bool_decide (generated_when node ≠ "d")
      then (in_elem "Constraints" i by_default column', true)
      else (column', negb (bigintType (Some t)))).1).
    case_bool_decide as Hw; cbn [fst]; apply Hfinish.
    + unfold in_elem. by rewrite get_msg_set_other.
    + exists (by_default node). rewrite get_list_in_elem, Hc.
      rewrite identityConstraint_alter by apply is_identity_by_default.
      rewrite list_lookup_alter_eq, Hnode. split_and!; [done..|]. by apply generated_when_by_default.
    + done.
    + exists node. by rewrite Hc.
Qed.

Lemma settles_column column : plain_column column → settles normalizeColumnDefinition column.
Proof.
  intros Hc%normalizeColumnDefinition_normalized. apply normalizeColumnDefinition_unchanged in Hc.
  unfold settles. pose proof (keeps_normalizeColumnDefinition _ Hc) as E.
  by rewrite (surjective_pairing (normalizeColumnDefinition _)), E, Hc.
Qed.

(** * Lemmas: statements *)

(** All column definitions of a tree are plain. *)
Definition plain_columns (m : message) : Prop :=
  ∀ column, within m column → msg_name column = "ColumnDef" → plain_column column.

Lemma plain_columns_sub m x : x ∈ submessages m → plain_columns m → plain_columns x.
Proof. intros Hx Hm c Hc. apply Hm. eapply within_trans; [by apply within_step | done]. Qed.

Lemma subtype_on_def f t m : subtype_is t (on_field "Def" f m).1 = subtype_is t m.
Proof.
  unfold subtype_is, on_field. destruct (get_msg (Some m) "Def"); [|done]. cbn.
  unfold get_enum. by rewrite get_set_other.
Qed.
Lemma subtype_unique t u m : t ≠ u → subtype_is t m = true → subtype_is u m = false.
Proof. unfold subtype_is. rewrite bool_decide_eq_true, bool_decide_eq_false. by intros ? ->. Qed.

Lemma normalize_command_cases m :
  normalize_command MakeStrNode m =
  if subtype_is "AT_AddColumn" m then on_field "Def" (on_node "ColumnDef" normalizeColumnDefinition) m
  else if subtype_is "AT_AddIdentity" m then on_field "Def" (on_node "Constraint" generate_by_default) m
  else when (subtype_is "AT_SetIdentity")
    (on_field "Def" (on_node "List" (on_list "Items" (on_node "DefElem" normalize_option)))) m.
Proof.
  unfold normalize_command, and_then, when.
  destruct (subtype_is "AT_AddColumn" m) eqn:E1; cbn [fst snd].
  - rewrite !subtype_on_def. rewrite (subtype_unique "AT_AddColumn" "AT_AddIdentity") by done. cbn [fst snd].
    rewrite subtype_on_def, (subtype_unique "AT_AddColumn" "AT_SetIdentity") by done. cbn.
    by rewrite orb_false_r, <- surjective_pairing.
  - destruct (subtype_is "AT_AddIdentity" m) eqn:E2; cbn [fst snd orb].
    + rewrite subtype_on_def, (subtype_unique "AT_AddIdentity" "AT_SetIdentity") by done. cbn.
      by rewrite orb_false_r, <- surjective_pairing.
    + by rewrite <- surjective_pairing.
Qed.

Lemma settles_when_done P f m : (P m = true → P (f m).1 = false) → settles (when P f) m.
Proof.
  intros H. unfold settles, when. destruct (P m) eqn:E; cbn [fst]; [by rewrite H | by rewrite E].
Qed.
Lemma settles_generate_by_default m : settles generate_by_default m.
Proof.
  apply settles_when_done. intros _. cbn. unfold get_string. rewrite get_set_same.
  reflexivity.
Qed.
Lemma settles_option m : settles normalize_option m.
Proof.
  apply settles_when. intros _. apply settles_on_field. intros arg _. apply settles_on_node.
  - intros value. unfold when. destruct (bool_decide _); [apply msg_name_set | done].
  - intros value _. apply settles_when_done. intros _. cbn. unfold get_int. rewrite get_set_same.
    reflexivity.
Qed.
Lemma keeps_set f v P : keeps (when P (λ m, (set_field f v m, true))).
Proof. intros m. unfold when. by destruct (P m). Qed.
Lemma same_kind_set f v P : same_kind (when P (λ m, (set_field f v m, true))).
Proof. intros m. unfold when. destruct (P m); [apply msg_name_set | done]. Qed.
Hint Resolve same_kind_set same_kind_normalizeColumnDefinition
  settles_generate_by_default settles_option : rewriting.

Lemma same_kind_option : same_kind normalize_option.
Proof. unfold normalize_option. eauto with rewriting. Qed.
Lemma same_kind_command : same_kind (normalize_command MakeStrNode).
Proof. unfold normalize_command. eauto 10 with rewriting. Qed.
Hint Resolve same_kind_option same_kind_command : rewriting.

Ltac keep_rewriting := repeat first [apply keeps_and_then | apply keeps_set | apply keeps_when
  | apply keeps_on_field | apply keeps_on_list | apply keeps_on_node | apply keeps_normalizeColumnDefinition].
Lemma keeps_command : keeps (normalize_command MakeStrNode).
Proof. unfold normalize_command, normalize_option, generate_by_default. keep_rewriting. Qed.
Lemma keeps_tree : keeps (normalize_tree MakeStrNode).
Proof.
  unfold normalize_tree, normalize_raw, normalize_create, normalize_alter.
  keep_rewriting; apply keeps_command.
Qed.

Lemma settles_command m : plain_columns m → settles (normalize_command MakeStrNode) m.
Proof.
  intros Hm.
  assert (∀ f, settles (on_field "Def" f) m →
    normalize_command MakeStrNode m = on_field "Def" f m →
    normalize_command MakeStrNode (on_field "Def" f m).1 = on_field "Def" f (on_field "Def" f m).1 →
    settles (normalize_command MakeStrNode) m) as Hgo.
  { intros f Hf E1 E2. unfold settles. by rewrite E1, E2. }
  pose proof (normalize_command_cases m) as E.
  destruct (subtype_is "AT_AddColumn" m) eqn:E1.
  { eapply Hgo; [|exact E|by rewrite normalize_command_cases, subtype_on_def, E1].
    apply settles_on_field. intros def Hdef. apply settles_on_node; [apply same_kind_normalizeColumnDefinition|].
    intros column Hcol. apply settles_column, Hm; [|by eapply as_node_name].
    eapply within_trans; apply within_step; [by eapply get_msg_sub | by eapply as_node_sub]. }
  destruct (subtype_is "AT_AddIdentity" m) eqn:E2.
  { eapply Hgo; [|exact E|by rewrite normalize_command_cases, !subtype_on_def, E1, E2].
    apply settles_on_field. intros def _. apply settles_on_node; [apply same_kind_set|].
    eauto with rewriting. }
  unfold when in E. destruct (subtype_is "AT_SetIdentity" m) eqn:E3.
  - eapply Hgo; [|exact E|by rewrite normalize_command_cases; unfold when; rewrite !subtype_on_def, E1, E2, E3].
    apply settles_on_field. intros def _. apply settles_on_node; [apply same_kind_on_list|].
    intros l _. apply settles_on_list. intros item _. apply settles_on_node; eauto with rewriting.
  - unfold settles. rewrite E. cbn [fst]. by rewrite E.
Qed.

Lemma as_node_unique k1 k2 n m : as_node k1 (Some n) = Some m → k1 ≠ k2 → as_node k2 (Some n) = None.
Proof.
  unfold as_node. intros (x & Hx & H)%bind_Some Hk. rewrite Hx. cbn.
  case_decide as E; [|done]. case_decide; congruence.
Qed.

Lemma settles_raw m : plain_columns m → settles (normalize_raw MakeStrNode) m.
Proof.
  intros Hm. apply settles_on_field. intros stmt Hstmt.
  assert (plain_columns stmt) as Hs by (eapply plain_columns_sub; [by eapply get_msg_sub | done]).
  clear Hm Hstmt. set (c := on_node "CreateStmt" (normalize_create MakeStrNode)).
  set (a := on_node "AlterTableStmt" (normalize_alter MakeStrNode)).
  assert (settles c stmt) as Hc.
  { apply settles_on_node; [apply same_kind_on_list|]. intros create Hcreate. apply settles_on_list.
    intros x Hx. apply settles_on_node; [apply same_kind_normalizeColumnDefinition|]. intros column Hcol.
    apply settles_column, Hs; [|by eapply as_node_name].
    eapply within_trans; [apply within_step; by eapply as_node_sub|].
    eapply within_trans; apply within_step; [by eapply get_list_sub | by eapply as_node_sub]. }
  assert (settles a stmt) as Ha.
  { apply settles_on_node; [apply same_kind_on_list|]. intros alter Halter. apply settles_on_list.
    intros x Hx. apply settles_on_node; [apply same_kind_command|]. intros command Hcmd.
    apply settles_command. eapply plain_columns_sub; [by eapply as_node_sub|].
    eapply plain_columns_sub; [by eapply get_list_sub|]. eapply plain_columns_sub; [by eapply as_node_sub | done]. }
  unfold settles, and_then in *. cbn [fst snd].
  destruct (as_node "CreateStmt" (Some stmt)) as [create|] eqn:Ec.
  - assert (∀ n, (∃ m, as_node "CreateStmt" (Some n) = Some m) → a n = (n, false)) as Hskip.
    { intros n [x Hn]. unfold a, on_node. by rewrite (as_node_unique _ "AlterTableStmt" _ _ Hn). }
    assert (∃ m, as_node "CreateStmt" (Some (c stmt).1) = Some m) as Hex.
    { unfold c, on_node. rewrite Ec. cbn [fst]. eexists. eapply as_node_set; [done|]. apply same_kind_on_list. }
    rewrite (Hskip (c stmt).1) by done. cbn [fst]. rewrite Hc. cbn [fst snd]. by rewrite Hskip.
  - assert (c stmt = (stmt, false)) as E by (unfold c, on_node; by rewrite Ec).
    rewrite E. cbn [fst]. assert (c (a stmt).1 = ((a stmt).1, false)) as ->.
    { unfold c, on_node. destruct (as_node "CreateStmt" (Some (a stmt).1)) as [y|] eqn:Em; [|done].
      exfalso. revert Em. unfold a, on_node. destruct (as_node "AlterTableStmt" (Some stmt)) as [alter|] eqn:Ea;
        cbn [fst]; [|by rewrite Ec]. intros Em.
      assert (as_node "AlterTableStmt" (Some (set_field "Node" (FMsg (normalize_alter MakeStrNode alter).1) stmt))
        = Some (normalize_alter MakeStrNode alter).1) as Ea'.
      { eapply as_node_set; [done|]. apply same_kind_on_list. }
      by rewrite (as_node_unique _ "CreateStmt" _ _ Ea') in Em. }
    cbn [fst snd]. by rewrite Ha.
Qed.

Lemma settles_tree tree : plain_columns tree → settles (normalize_tree MakeStrNode) tree.
Proof.
  intros Ht. apply settles_on_list. intros raw Hraw. apply settles_raw.
  eapply plain_columns_sub; [by eapply get_list_sub | done].
Qed.

(** after normalisation a column is either inherited (it has no
    type), or it is not serial and its identity, if any, is BIGINT GENERATED
    BY DEFAULT; a column that already was so is left exactly as it was, and
    only such a column is reported unchanged. *)
Theorem normalizeColumnDefinition_contract column :
  plain_column column →
  normalized_column (normalizeColumnDefinition column).1 ∧
  ((normalizeColumnDefinition column).2 = false ↔ normalized_column column) ∧
  (normalized_column column → normalizeColumnDefinition column = (column, false)).
Proof.
  intros Hc. split_and!; [by apply normalizeColumnDefinition_normalized|apply normalizeColumnDefinition_unchanged|].
  intros Hn%normalizeColumnDefinition_unchanged. pose proof (keeps_normalizeColumnDefinition _ Hn) as E.
  rewrite (surjective_pairing (normalizeColumnDefinition _)). by rewrite E, Hn.
Qed.

(** normalising a batch is idempotent: on the tree it
    produces, a second pass changes nothing; and SQL that is reported
    unchanged comes from a tree in which nothing was changed. *)
Theorem Normalize_idempotent tree :
  plain_columns tree →
  normalize_tree MakeStrNode (normalize_tree MakeStrNode tree).1 = ((normalize_tree MakeStrNode tree).1, false) ∧
  ((normalize_tree MakeStrNode tree).2 = false → (normalize_tree MakeStrNode tree).1 = tree).
Proof. intros Ht. split; [by apply settles_tree | apply keeps_tree]. Qed.
End columns.

(** * Witnesses *)

Definition str_node (s : string) : message := mk_node (Msg "String" [("Sval", FString s)]).
Lemma str_node_Sval s : get_string (as_node "String" (Some (str_node s))) "Sval" = s.
Proof. reflexivity. Qed.

(** [id serial] and [v int GENERATED ALWAYS AS IDENTITY]. *)
Definition column_def (n type : string) (constraints : list message) : message :=
  Msg "ColumnDef" [("Colname", FString n);
    ("TypeName", FMsg (Msg "TypeName" [("Names", FList [str_node type])]));
    ("Constraints", FList constraints)].
Definition always_identity : message :=
  mk_node (Msg "Constraint" [("Contype", FEnum "CONSTR_IDENTITY"); ("GeneratedWhen", FString "a")]).
Definition id_serial : message := column_def "id" "serial" [].
Definition v_identity : message := column_def "v" "int4" [always_identity].
Definition create_accounts : message :=
  Msg "ParseResult" [("Stmts", FList [Msg "RawStmt" [("Stmt", FMsg (mk_node
    (Msg "CreateStmt" [("TableElts", FList [mk_node id_serial; mk_node v_identity])])))]])].

Lemma normalizeColumnDefinition_contract_witness :
  normalizeColumnDefinition str_node id_serial =
    (Msg "ColumnDef" [("Colname", FString "id");
      ("TypeName", FMsg (Msg "TypeName" [("Names", FList [str_node "pg_catalog"; str_node "int8"])]));
      ("Constraints", FList [mk_node default_identity])], true) ∧
  normalized_column (normalizeColumnDefinition str_node id_serial).1.
Proof.
  split; [reflexivity|].
  apply (normalizeColumnDefinition_contract str_node str_node_Sval id_serial). by intros _.
Defined.

Lemma create_accounts_plain : plain_columns create_accounts.
Proof.
  intros column Hin Hname. apply visited_elem in Hin. revert Hname.
  assert (Forall (λ c, msg_name c = "ColumnDef" → plain_column c) (visited create_accounts)) as H;
    [|by rewrite Forall_forall in H; apply H].
  assert (∀ l, forallb (λ c, negb (bool_decide (msg_name c = "ColumnDef"))
    || negb (serialType (get_msg (Some c) "TypeName"))
    || bool_decide (identityConstraint (get_list (Some c) "Constraints") = None)) l = true →
    Forall (λ c, msg_name c = "ColumnDef" → plain_column c) l) as Hb; [|by apply Hb].
  clear. intros l. rewrite forallb_forall. intros H. apply Forall_forall. intros c Hc E Hs.
  apply list_elem_of_In, H in Hc. rewrite bool_decide_eq_true_2, Hs in Hc by done.
  cbn in Hc. by apply bool_decide_eq_true in Hc.
Qed.

Lemma Normalize_idempotent_witness :
  (normalize_tree str_node create_accounts).2 = true ∧
  normalize_tree str_node (normalize_tree str_node create_accounts).1
  = ((normalize_tree str_node create_accounts).1, false).
Proof.
  split; [reflexivity|].
  apply (Normalize_idempotent str_node str_node_Sval create_accounts create_accounts_plain).
Defined.

End ddl.
