(* ===== verification/Router.v ===== *)
(** SQL routing on syntax trees: the part of [internal/router/router.go] that
    prepares a statement, analyses predicates and INSERT rows, decides when a
    read may be scattered, and rewrites INSERTs with generated keys. *)
From S2P Require Import Prelude.
From S2P Require Import GoStrings.
From S2P Require Import GoNumbers.
From S2P Require Import GoStd.
From S2P Require Import PgQuery.
From S2P Require Import Schema.
From S2P Require Import ShardKey.

Module router.
Import schema shardkey.

(** * Plans *)

Record Plan := {
  Table : string;
  Write : bool;
  Sharded : bool;
  Target : string;
  Routed : bool;
  SingleBurrow : bool;
  Deterministic : bool;
  ScatterError : string;
}.
Definition zero_plan : Plan := {|
  Table := ""; Write := false; Sharded := false; Target := ""; Routed := false;
  SingleBurrow := false; Deterministic := false; ScatterError := "";
|}.

Record Prepared := {
  plan : Plan;
  relation : option message;
  predicate : option message;
  insert : option message;
  update : option message;
  physicalRelations : nat;
  maximumParameter : Z;
  read : bool;
  relations : list string;
  scatterError : string;
}.

(** * Reading syntax trees *)

Definition relationName (relation : option message) : string :=
  match relation with
  | None => ""
  | Some _ =>
    if decide (get_string relation "Schemaname" = "") then get_string relation "Relname"
    else get_string relation "Schemaname" +:+ "." +:+ get_string relation "Relname"
  end.

(** [node.GetString_()] followed by [.Sval]. *)
Definition node_sval (node : message) : option string :=
  (λ m, get_string (Some m) "Sval") <$> as_node "String" (Some node).

Definition operatorName (nodes : list message) : string :=
  match nodes with [node] => default "" (node_sval node) | _ => "" end.

Definition rowItems (node : option message) : list message :=
  match as_node "RowExpr" node with
  | Some row => get_list (Some row) "Args"
  | None =>
    match as_node "List" node with
    | Some list => get_list (Some list) "Items"
    | None => []
    end
  end.

Definition functionName (nodes : list message) : string :=
  match mapM node_sval nodes with
  | Some parts => default "" (last parts)
  | None => ""
  end.

Definition typeName (name : option message) : option string :=
  if bool_decide (name = None) || bool_decide (get_list name "Names" = [])
     || negb (bool_decide (get_list name "ArrayBounds" = []))
  then None else
  parts ← mapM node_sval (get_list name "Names");
  Some (Join parts ".").

Definition validQualifier (parts : list string) (relation : option message) : bool :=
  match relation with
  | None => false
  | Some _ =>
    match get_msg relation "Alias", parts with
    | Some alias, [part] => bool_decide (part = get_string (Some alias) "Aliasname")
    | _, [part] => bool_decide (part = get_string relation "Relname")
    | _, [part1; part2] =>
      bool_decide (part1 = get_string relation "Schemaname") &&
      bool_decide (part2 = get_string relation "Relname")
    | _, _ => false
    end
  end.

Definition columnName (node relation : option message) : option string :=
  column ← as_node "ColumnRef" node;
  let fields := get_list (Some column) "Fields" in
  if bool_decide (fields = []) || (3 <? length fields)%nat then None else
  parts ← mapM node_sval fields;
  if (1 <? length parts)%nat && negb (validQualifier (take (length parts - 1) parts) relation)
  then None else last parts.

(** * Constant values *)

Section values.
Context `{Floats}.
Variable parameters : list (option string).

Definition constant_value (constant : message) : option string :=
  if get_bool (Some constant) "Isnull" then None else
  match get_msg (Some constant) "Sval" with
  | Some v => Some (get_string (Some v) "Sval")
  | None =>
    match get_msg (Some constant) "Ival" with
    | Some v => Some (FormatInt (get_int (Some v) "Ival"))
    | None =>
      match get_msg (Some constant) "Fval" with
      | Some v => Some (get_string (Some v) "Fval")
      | None =>
        match get_msg (Some constant) "Boolval" with
        | Some v => Some (FormatBool (get_bool (Some v) "Boolval"))
        | None => None
        end
      end
    end
  end.

(** One call; [rec] are the recursive calls on [TypeCast.Arg],
    [CollateClause.Arg] and [A_Expr.Rexpr]. *)
Definition rawScalarValue_step (rec : option message → result no_value (string * string))
    (node : option message) : result no_value (string * string) :=
  match as_node "TypeCast" node with
  | Some cast =>
    dataType ← or_fail (typeName (get_msg (Some cast) "TypeName")) Unroutable;
    '(value, _) ← rec (get_msg (Some cast) "Arg");
    value ← canonicalScalar value dataType;
    Ok (value, dataType)
  | None =>
  match as_node "CollateClause" node with
  | Some collate => rec (get_msg (Some collate) "Arg")
  | None =>
  match as_node "ParamRef" node with
  | Some parameter =>
    let index := get_int (Some parameter) "Number" - 1 in
    if index <? 0 then Err Unroutable else
    value ← or_fail (mjoin (parameters !! Z.to_nat index)) Unroutable;
    Ok (value, "")
  | None =>
  match (constant ← as_node "A_Const" node; constant_value constant) with
  | Some value => Ok (value, "")
  | None =>
    expression ← or_fail (as_node "A_Expr" node) Unroutable;
    if bool_decide (get_enum (Some expression) "Kind" = "AEXPR_OP")
       && bool_decide (get_msg (Some expression) "Lexpr" = None)
    then
      let operator := operatorName (get_list (Some expression) "Name") in
      if decide (operator = "+" ∨ operator = "-") then
        '(value, dataType) ← rec (get_msg (Some expression) "Rexpr");
        Ok (operator +:+ value, dataType)
      else Err Unroutable
    else Err Unroutable
  end end end end.

(** Each recursive call is inside the node: its size is enough fuel. *)
Fixpoint rawScalarValue_go (fuel : nat) (node : option message) : result no_value (string * string) :=
  match fuel with
  | O => Err Unroutable
  | S fuel => rawScalarValue_step (rawScalarValue_go fuel) node
  end.
Definition rawScalarValue (node : option message) : result no_value (string * string) :=
  rawScalarValue_go (S (osize node)) node.

Definition scalarValue (node : option message) (targetType : string) : result no_value string :=
  '(value, explicitType) ← rawScalarValue node;
  canonicalScalar value (if decide (explicitType = "") then targetType else explicitType).

(** One value per shard-key column, in key order. *)
Definition orderedValues (values : gmap string (option message))
    (columns types : list string) : result no_value (list string) :=
  mmap (λ p,
    node ← or_fail (values !! p.2) Unroutable;
    scalarValue node (type_at types columns p.1)) (enumerate columns).
End values.

(** * Equalities of a predicate *)

Definition collectEquality (left right relation : option message)
    (values : gmap string (option message)) : result no_value (gmap string (option message)) :=
  let add (column : string) (value : option message) :=
    match values !! column with
    | Some _ => Err Unroutable
    | None => Ok (<[column := value]> values)
    end in
  match columnName left relation with
  | Some column => add column right
  | None =>
    match columnName right relation with
    | Some column => add column left
    | None => Ok values
    end
  end.

(** One call; [rec] are the recursive calls on [BoolExpr.Args].
    [Err Unroutable] is the Go result [false]. *)
Definition collectEqualities_step
    (rec : option message → option message → gmap string (option message) →
           result no_value (gmap string (option message)))
    (node relation : option message) (values : gmap string (option message))
    : result no_value (gmap string (option message)) :=
  if bool_decide (node = None) then Ok values else
  match as_node "BoolExpr" node with
  | Some boolean =>
    if negb (bool_decide (get_enum (Some boolean) "Boolop" = "AND_EXPR")) then Err Unroutable
    else mfold (λ values item, rec (Some item) relation values)
           values (get_list (Some boolean) "Args")
  | None =>
  match as_node "A_Expr" node with
  | None => Ok values
  | Some expression =>
    if negb (bool_decide (get_enum (Some expression) "Kind" = "AEXPR_OP"))
       || negb (bool_decide (operatorName (get_list (Some expression) "Name") = "="))
    then Ok values else
    let left := get_msg (Some expression) "Lexpr" in
    let right := get_msg (Some expression) "Rexpr" in
    let leftRow := rowItems left in
    let rightRow := rowItems right in
    if bool_decide (leftRow = []) && bool_decide (rightRow = [])
    then collectEquality left right relation values
    else if bool_decide (leftRow = []) || bool_decide (length leftRow ≠ length rightRow)
    then Err Unroutable
    else mfold (λ values p, collectEquality (Some p.1) (Some p.2) relation values)
           values (zip leftRow rightRow)
  end end.

Fixpoint collectEqualities_go (fuel : nat) (node relation : option message)
    (values : gmap string (option message)) : result no_value (gmap string (option message)) :=
  match fuel with
  | O => Err Unroutable
  | S fuel => collectEqualities_step (collectEqualities_go fuel) node relation values
  end.
Definition collectEqualities (node : option message) :=
  collectEqualities_go (S (osize node)) node.

(** * INSERT and UPDATE targets *)

(** [byColumn] of [insertKeyValues]: one value per distinct plain column. *)
Definition insert_columns (cols items : list message) : result no_value (gmap string (option message)) :=
  mfold (λ byColumn p,
    match as_node "ResTarget" (Some p.1) with
    | None => Err Unroutable
    | Some column =>
      let name := get_string (Some column) "Name" in
      fail_if (bool_decide (name = "") ||
               negb (bool_decide (get_list (Some column) "Indirection" = []))) Unroutable;;
      match byColumn !! name with
      | Some _ => Err Unroutable
      | None => Ok (<[name := Some p.2]> byColumn)
      end
    end) ∅ (zip cols items).

(** The single VALUES row of an INSERT. *)
Definition insert_row (statement : message) : option (list message) :=
  let values := as_node "SelectStmt" (get_msg (Some statement) "SelectStmt") in
  match get_list values "ValuesLists" with
  | [l] =>
    row ← as_node "List" (Some l);
    let items := get_list (Some row) "Items" in
    if decide (length items = length (get_list (Some statement) "Cols"))
    then Some items else None
  | _ => None
  end.

Definition updatesShardKey (statement : message) (columns : list string) : bool :=
  existsb (λ node,
    match as_node "ResTarget" (Some node) with
    | None => false
    | Some target =>
      bool_decide (get_list (Some target) "Indirection" = []) &&
      bool_decide (get_string (Some target) "Name" ∈ columns)
    end) (get_list (Some statement) "TargetList").

Section key_values.
Context `{Floats}.

Definition insertKeyValues (statement : message) (parameters : list (option string))
    (columns types : list string) : result no_value (list string) :=
  if bool_decide (get_msg (Some statement) "SelectStmt" = None)
     || negb (bool_decide (get_msg (Some statement) "WithClause" = None))
  then Err Unroutable else
  items ← or_fail (insert_row statement) Unroutable;
  byColumn ← insert_columns (get_list (Some statement) "Cols") items;
  orderedValues parameters byColumn columns types.

Definition predicateKeyValues (predicate : option message) (parameters : list (option string))
    (columns types : list string) (relation : option message) : result no_value (list string) :=
  if bool_decide (predicate = None) then Err Unroutable else
  byColumn ← collectEqualities predicate relation ∅;
  orderedValues parameters byColumn columns types.
End key_values.

(** * Walks over whole trees *)

Definition maxParameterInTree (tree : message) : Z :=
  walkMessage (λ m maximum,
    if decide (msg_name m = "ParamRef") then
      let number := get_int (Some m) "Number" in
      if maximum <? number then number else maximum
    else maximum) tree 0.

Definition write_nodes : list string := ["InsertStmt"; "UpdateStmt"; "DeleteStmt"; "MergeStmt"].
Definition containsWrite (tree : message) : bool :=
  walkMessage (λ m found, if decide (msg_name m ∈ write_nodes) then true else found) tree false.

Definition physicalRelationNames (statement : message) : list string :=
  walkMessage (λ m names,
    if decide (msg_name m = "RangeVar") then names ++ [relationName (Some m)] else names)
    statement [].

Definition countSelectStatements (statement : message) : nat :=
  walkMessage (λ m count, if decide (msg_name m = "SelectStmt") then S count else count) statement O.

Definition aggregate_names : list string :=
  ["any_value"; "array_agg"; "avg"; "bit_and"; "bit_or"; "bit_xor";
   "bool_and"; "bool_or"; "count"; "every"; "json_agg"; "json_agg_strict";
   "json_arrayagg"; "json_objectagg"; "jsonb_agg"; "jsonb_agg_strict";
   "json_object_agg"; "json_object_agg_strict"; "json_object_agg_unique";
   "json_object_agg_unique_strict"; "jsonb_object_agg"; "jsonb_object_agg_strict";
   "jsonb_object_agg_unique"; "jsonb_object_agg_unique_strict"; "max"; "min";
   "range_agg"; "range_intersect_agg"; "string_agg"; "sum"; "xmlagg";
   "corr"; "covar_pop"; "covar_samp"; "regr_avgx"; "regr_avgy"; "regr_count";
   "regr_intercept"; "regr_r2"; "regr_slope"; "regr_sxx"; "regr_sxy"; "regr_syy";
   "stddev"; "stddev_pop"; "stddev_samp"; "variance"; "var_pop"; "var_samp"].
Definition isBuiltInAggregateName (name : string) : bool :=
  bool_decide (ToLower name ∈ aggregate_names).

(** The test the visitor of [hasAggregateOrWindow] applies to one call. *)
Definition aggregate_call (call : message) : bool :=
  let c := Some call in
  negb (bool_decide (get_msg c "Over" = None)) || get_bool c "AggStar" || get_bool c "AggDistinct"
  || negb (bool_decide (get_msg c "AggFilter" = None))
  || negb (bool_decide (get_list c "AggOrder" = [])) || get_bool c "AggWithinGroup"
  || isBuiltInAggregateName (functionName (get_list c "Funcname")).
Definition hasAggregateOrWindow (statement : message) : bool :=
  walkMessage (λ m found,
    if negb (bool_decide (msg_name m = "FuncCall")) || found then found
    else if aggregate_call m then true else found) statement false.

Definition merge_suffix : string := " require a PostgreSQL-equivalent global result merge".
Definition merge_suffix1 : string := " requires a PostgreSQL-equivalent global result merge".
Definition unsafeScatterReason (statement : message) (physicalRelations : nat) : string :=
  let s := Some statement in
  let some f := negb (bool_decide (get_list s f = [])) in
  let set f := negb (bool_decide (get_msg s f = None)) in
  if negb (bool_decide (get_enum s "Op" = "SETOP_NONE"))
  then "set operations over sharded tables" +:+ merge_suffix
  else if set "WithClause" || (1 <? countSelectStatements statement)%nat
  then "CTEs and subqueries over sharded tables" +:+ merge_suffix
  else if (1 <? physicalRelations)%nat
  then "joins over sharded tables" +:+ merge_suffix
  else if some "DistinctClause" || get_bool s "GroupDistinct"
  then "DISTINCT over sharded tables" +:+ merge_suffix1
  else if hasAggregateOrWindow statement || some "GroupClause" || set "HavingClause"
          || some "WindowClause"
  then "aggregates, grouping, and window functions over sharded tables" +:+ merge_suffix
  else if some "SortClause"
  then "ORDER BY over sharded tables" +:+ merge_suffix1
  else if set "LimitCount" || set "LimitOffset"
          || negb (bool_decide (get_enum s "LimitOption" = "LIMIT_OPTION_DEFAULT"))
  then "LIMIT and OFFSET over sharded tables" +:+ merge_suffix
  else if some "LockingClause"
  then "row locking over sharded tables" +:+ merge_suffix1
  else "".

(** * Prepare *)

(** The assignments [Prepare] makes to the record it builds. *)
Definition new_prepared (write : bool) (maximum : Z) : Prepared := {|
  plan := {| Table := ""; Write := write; Sharded := false; Target := ""; Routed := false;
             SingleBurrow := false; Deterministic := false; ScatterError := "" |};
  relation := None; predicate := None; insert := None; update := None;
  physicalRelations := 0; maximumParameter := maximum; read := false;
  relations := []; scatterError := "";
|}.
Definition set_write (w : bool) (p : Plan) : Plan := {|
  Table := Table p; Write := w; Sharded := Sharded p; Target := Target p; Routed := Routed p;
  SingleBurrow := SingleBurrow p; Deterministic := Deterministic p;
  ScatterError := ScatterError p |}.
Definition set_single (b : bool) (p : Plan) : Plan := {|
  Table := Table p; Write := Write p; Sharded := Sharded p; Target := Target p;
  Routed := Routed p; SingleBurrow := b; Deterministic := Deterministic p;
  ScatterError := ScatterError p |}.
Definition set_table (t : string) (p : Plan) : Plan := {|
  Table := t; Write := Write p; Sharded := Sharded p; Target := Target p; Routed := Routed p;
  SingleBurrow := SingleBurrow p; Deterministic := Deterministic p;
  ScatterError := ScatterError p |}.

(** Record the plan, relation, predicate and statement of one DML target. *)
Definition set_target (p : Prepared) (pl : Plan) (rel pred ins upd : option message)
    (rd : bool) : Prepared := {|
  plan := pl; relation := rel; predicate := pred; insert := ins; update := upd;
  physicalRelations := physicalRelations p; maximumParameter := maximumParameter p;
  read := rd; relations := relations p; scatterError := scatterError p;
|}.
Definition set_relations (p : Prepared) (names : list string) (reason : string) (pl : Plan) : Prepared := {|
  plan := pl; relation := relation p; predicate := predicate p; insert := insert p;
  update := update p; physicalRelations := length names;
  maximumParameter := maximumParameter p; read := read p;
  relations := names; scatterError := reason;
|}.

(** The predicate of an UPDATE or DELETE without [WITH] and without further
    tables ([FROM] or [USING]). *)
Definition dml_predicate (statement : message) (others : string) : option message :=
  if bool_decide (get_msg (Some statement) "WithClause" = None)
     && bool_decide (get_list (Some statement) others = [])
  then get_msg (Some statement) "WhereClause" else None.

(** The INSERT, UPDATE and DELETE cases, shared by [Prepare] and
    [prepareExplainWrite]. *)
Definition prepare_dml (p : Prepared) (node : option message) : option Prepared :=
  m ← GetNode node;
  let write := set_write true (plan p) in
  let rel := get_msg (Some m) "Relation" in
  if decide (msg_name m = "InsertStmt") then
    Some (set_target p write rel (predicate p) (Some m) (update p) (read p))
  else if decide (msg_name m = "UpdateStmt") then
    Some (set_target p write rel (dml_predicate m "FromClause") (insert p) (Some m) (read p))
  else if decide (msg_name m = "DeleteStmt") then
    Some (set_target p write rel (dml_predicate m "UsingClause") (insert p) (update p) (read p))
  else if decide (msg_name m = "MergeStmt") then
    Some (set_target p write rel (predicate p) (insert p) (update p) (read p))
  else None.

Definition prepareExplainWrite (p : Prepared) (statement : option message) : Prepared * bool :=
  match prepare_dml p statement with Some p => (p, true) | None => (p, false) end.

(** The first [analyze] option of an EXPLAIN decides. *)
Fixpoint explain_option (options : list message) : bool :=
  match options with
  | [] => false
  | optionNode :: options =>
    match as_node "DefElem" (Some optionNode) with
    | None => explain_option options
    | Some option =>
      if negb (EqualFold (get_string (Some option) "Defname") "analyze")
      then explain_option options else
      match get_msg (Some option) "Arg" with
      | None => true
      | Some arg =>
        match as_node "Boolean" (Some arg) with
        | Some value => get_bool (Some value) "Boolval"
        | None =>
          match node_sval arg with
          | Some s => negb (bool_decide (ToLower s ∈ ["false"; "off"; "no"; "0"]))
          | None => true
          end
        end
      end
    end
  end.
Definition explainAnalyze (statement : message) : bool :=
  explain_option (get_list (Some statement) "Options").

(** The type switch of [Prepare]. *)
Definition prepare_statement (p : Prepared) (statement : message) : Prepared :=
  match GetNode (Some statement) with
  | None => p
  | Some m =>
    match prepare_dml p (Some statement) with
    | Some p => p
    | None =>
      let s := Some m in
      if decide (msg_name m = "CopyStmt") then
        set_target p (set_write (get_bool s "IsFrom") (plan p)) (get_msg s "Relation")
          (predicate p) (insert p) (update p) (read p)
      else if decide (msg_name m = "SelectStmt") then
        let rd := bool_decide (get_msg s "IntoClause" = None) in
        match get_list s "FromClause" with
        | [from] =>
          if bool_decide (get_msg s "WithClause" = None) && bool_decide (get_enum s "Op" = "SETOP_NONE")
          then set_target p (plan p) (as_node "RangeVar" (Some from)) (get_msg s "WhereClause")
                 (insert p) (update p) rd
          else set_target p (plan p) (relation p) (predicate p) (insert p) (update p) rd
        | _ => set_target p (plan p) (relation p) (predicate p) (insert p) (update p) rd
        end
      else if decide (msg_name m = "VariableShowStmt") then
        set_target p (plan p) (relation p) (predicate p) (insert p) (update p) true
      else if decide (msg_name m = "ExplainStmt") then
        if explainAnalyze m && Write (plan p)
        then (prepareExplainWrite p (get_msg s "Query")).1
        else set_target p (set_single true (plan p)) (relation p) (predicate p) (insert p) (update p) (read p)
      else p
    end
  end.

(** What follows the switch: relation names, the scatter reason, the table. *)
Definition finish_prepare (p : Prepared) (statement : message) : Prepared :=
  let names := physicalRelationNames statement in
  let reason :=
    match as_node "SelectStmt" (Some statement) with
    | Some selectStatement => unsafeScatterReason selectStatement (length names)
    | None => scatterError p
    end in
  let pl := match relation p with
            | None => plan p
            | Some _ => set_table (relationName (relation p)) (plan p)
            end in
  set_relations p names reason pl.

(** The only statement of a tree. *)
Definition single_statement (tree : message) : option message :=
  match get_list (Some tree) "Stmts" with
  | [raw] => get_msg (Some raw) "Stmt"
  | _ => None
  end.

Definition prepare_tree (tree : message) : Prepared :=
  let prepared := new_prepared (containsWrite tree) (maxParameterInTree tree) in
  match single_statement tree with
  | None => prepared
  | Some statement => finish_prepare (prepare_statement prepared statement) statement
  end.

(** * Analyze *)

Section analyze.
Context `{Floats}.

(** The part of [Analyze] after the unsharded reads; [None] when the call
    panics. *)
Definition resolve (p : Prepared) (parameters : list (option string))
    (registry : Registry) (burrows : list string) : option Plan :=
  let pl := plan p in
  match relation p with
  | None => Some pl
  | Some _ =>
    let columns := default [] (ShardKey registry (Table pl)) in
    let types := default [] (ShardKeyTypes registry (Table pl)) in
    let sharded := IsSharded registry (Table pl) in
    let pl := {| Table := Table pl; Write := Write pl; Sharded := sharded;
                 Target := Target pl; Routed := Routed pl; SingleBurrow := SingleBurrow pl;
                 Deterministic := Deterministic pl; ScatterError := ScatterError pl |} in
    if negb sharded || bool_decide (columns = []) || bool_decide (burrows = []) then Some pl else
    if negb (bool_decide (physicalRelations p = 1%nat)) then Some pl else
    if negb (bool_decide (get_msg (insert p) "OnConflictClause" = None)) then Some pl else
    if (match update p with Some u => updatesShardKey u columns | None => false end) then Some pl else
    let values :=
      match insert p with
      | Some i => insertKeyValues i parameters columns types
      | None => predicateKeyValues (predicate p) parameters columns types (relation p)
      end in
    let target := values ← values; TargetForTableShardKey (Table pl) values types registry burrows in
    let routed target ok :=
      {| Table := Table pl; Write := Write pl; Sharded := Sharded pl;
         Target := target; Routed := ok; SingleBurrow := SingleBurrow pl;
         Deterministic := Deterministic pl; ScatterError := ScatterError pl |} in
    match values, target with
    | Err Unroutable, _ => Some pl
    | _, Ok target => Some (routed target true)
    | _, Err Unroutable => Some (routed "" false)
    | _, Err Panicked => None
    end
  end.

Definition readsShardedRelation (p : Prepared) (registry : Registry) : bool :=
  existsb (λ table, IsSharded registry table || IsSharded registry (CanonicalTable registry table))
    (relations p).

(** [(p *Prepared).Analyze]; the deferred assignment comes last. *)
Definition Analyze (p : option Prepared) (parameters : list (option string))
    (registry : Registry) (burrows : list string) : option Plan :=
  match p with
  | None => Some zero_plan
  | Some p =>
    if read p then
      if negb (readsShardedRelation p registry) then
        let pl := plan p in
        Some {| Table := Table pl; Write := Write pl; Sharded := Sharded pl; Target := Target pl;
           Routed := Routed pl; SingleBurrow := true;
           Deterministic := negb (existsb (HasTable registry) (relations p));
           ScatterError := ScatterError pl |}
      else
        pl ← resolve p parameters registry burrows;
        if negb (Routed pl) && negb (bool_decide (scatterError p = "")) then
          Some {| Table := Table pl; Write := Write pl; Sharded := Sharded pl; Target := Target pl;
             Routed := Routed pl; SingleBurrow := SingleBurrow pl;
             Deterministic := Deterministic pl; ScatterError := scatterError p |}
        else Some pl
    else resolve p parameters registry burrows
  end.
End analyze.

(** [(p *Prepared).MaxParameter] and [(p *Prepared).Table]. *)
Definition MaxParameter (p : option Prepared) : Z :=
  match p with Some p => maximumParameter p | None => 0 end.
Definition prepared_table (p : option Prepared) : string :=
  match p with Some p => Table (plan p) | None => "" end.

(** * Entry points on SQL text *)

Record GeneratedInsert := { SQL : string; gi_Table : string; gi_Column : string }.

(** The pointer writes of [RewriteGeneratedInsert], as functional updates along
    the path from the tree to the INSERT and to its VALUES row. *)
Definition edit_insert (g : message → message) (tree : message) : message :=
  in_elem "Stmts" 0 (in_field "Stmt" (in_node g)) tree.
Definition edit_items (g : list message → list message) (insert : message) : message :=
  in_field "SelectStmt" (in_node (in_elem "ValuesLists" 0 (in_node (λ row,
    set_field "Items" (FList (g (get_list (Some row) "Items"))) row)))) insert.

(** The loop over [insert.Cols]: the index of the generated column. *)
Definition names_column (column : string) (node : message) : bool :=
  match as_node "ResTarget" (Some node) with
  | Some target => bool_decide (get_string (Some target) "Name" = column)
  | None => false
  end.
Definition column_index (column : string) (cols : list message) : option nat :=
  fst <$> list_find (λ node, names_column column node = true) cols.

Section sql.
Context `{Floats, PgQuery}.

Definition Prepare (sql : string) : option Prepared := prepare_tree <$> Parse sql.

(** [Analyze(sql, ...)]: a parse error is [None], a panic [Some None]. *)
Definition AnalyzeSQL (sql : string) (parameters : list (option string))
    (registry : Registry) (burrows : list string) : option (option Plan) :=
  prepared ← Prepare sql; Some (Analyze (Some prepared) parameters registry burrows).

Definition TableForSQL (sql : string) : option string :=
  pl ← mjoin (AnalyzeSQL sql [] zero_registry []);
  if decide (Table pl = "") then None else Some (Table pl).

Definition MaxParameterSQL (sql : string) : option Z :=
  p ← Prepare sql; Some (MaxParameter (Some p)).

(** A panic is no result here either. *)
Definition TargetForSchema (sql : string) (parameters : list (option string))
    (registry : Registry) (burrows : list string) : option string :=
  pl ← mjoin (AnalyzeSQL sql parameters registry burrows);
  if Routed pl then Some (Target pl) else None.

(** A nil [Val] marshals as an empty node. *)
Definition parseExpression (expression : string) : option message :=
  tree ← Parse ("SELECT " +:+ expression);
  statement ← single_statement tree;
  select ← as_node "SelectStmt" (Some statement);
  match get_list (Some select) "TargetList" with
  | [node] =>
    target ← as_node "ResTarget" (Some node);
    Some (default (Msg "Node" []) (get_msg (Some target) "Val"))
  | _ => None
  end.

(** The tree [RewriteGeneratedInsert] hands to [pg_query.Deparse].
    [new_column] is [pg_query.MakeResTargetNodeWithName(generated.Column, -1)]. *)
Definition rewrite_insert (column : string) (new_column replacement : message)
    (insert : message) (row : list message) (tree : message) : option message :=
  let cols := get_list (Some insert) "Cols" in
  match column_index column cols with
  | Some index =>
    item ← row !! index;
    _ ← as_node "SetToDefault" (Some item);
    Some (edit_insert (edit_items (<[index := replacement]>)) tree)
  | None =>
    Some (edit_insert (λ i, edit_items (λ items, items ++ [replacement])
      (set_field "Cols" (FList (cols ++ [new_column])) i)) tree)
  end.

Definition RewriteGeneratedInsert (sql : string) (registry : Registry)
    (valueExpression : string) (MakeResTargetNodeWithName : string → Z → message)
    : option GeneratedInsert :=
  tree ← Parse sql;
  statement ← single_statement tree;
  insert ← as_node "InsertStmt" (Some statement);
  if bool_decide (get_msg (Some insert) "Relation" = None)
     || negb (bool_decide (get_msg (Some insert) "WithClause" = None)) then None else
  let table := relationName (get_msg (Some insert) "Relation") in
  generated ← GeneratedPrimaryKey registry table;
  row ← insert_row insert;
  replacement ← parseExpression valueExpression;
  tree' ← rewrite_insert (Column generated)
    (MakeResTargetNodeWithName (Column generated) (-1)) replacement insert row tree;
  rewritten ← Deparse tree';
  Some {| SQL := rewritten; gi_Table := table; gi_Column := Column generated |}.
End sql.

(** * Fuel *)

Lemma rows_smaller n x y k k' f :
  as_node k (Some n) = Some x → (y ∈ get_list (Some x) f ∨ get_msg (Some x) f = Some y) →
  k' = msize n → (msize y < k')%nat.
Proof.
  intros Hx Hy ->. apply as_node_sub, msize_submessage in Hx.
  destruct Hy as [Hy|Hy]; [apply get_list_sub in Hy | apply get_msg_sub in Hy];
    apply msize_submessage in Hy; lia.
Qed.

Lemma as_node_None k : as_node k None = None.
Proof. done. Qed.

Lemma get_msg_smaller node k x f :
  as_node k node = Some x → (osize (get_msg (Some x) f) < osize node)%nat.
Proof.
  destruct node as [nd|]; [|done]. intros Hx. destruct (get_msg (Some x) f) as [y|] eqn:Hy.
  - exact (rows_smaller _ _ _ _ _ _ Hx (or_intror Hy) eq_refl).
  - cbn. rewrite msize_fields. lia.
Qed.

(** A step only makes recursive calls on smaller nodes. *)
Lemma collectEqualities_step_ext rec1 rec2 node relation values :
  (∀ n r v, (osize n < osize node)%nat → rec1 n r v = rec2 n r v) →
  collectEqualities_step rec1 node relation values = collectEqualities_step rec2 node relation values.
Proof.
  intros Hrec. unfold collectEqualities_step. destruct (bool_decide _); [done|].
  destruct (as_node "BoolExpr" node) as [boolean|] eqn:Hb; [|done]. destruct (negb _); [done|].
  apply mfold_ext. intros a b Hab. apply Hrec. destruct node as [node|]; [|done].
  exact (rows_smaller _ _ _ _ _ _ Hb (or_introl Hab) eq_refl).
Qed.
Lemma rawScalarValue_step_ext `{Floats} parameters rec1 rec2 node :
  (∀ n, (osize n < osize node)%nat → rec1 n = rec2 n) →
  rawScalarValue_step parameters rec1 node = rawScalarValue_step parameters rec2 node.
Proof.
  intros Hrec. unfold rawScalarValue_step.
  destruct (as_node "TypeCast" node) as [cast|] eqn:E1.
  { destruct (typeName _); [|done]. cbn [mbind result_bind or_fail].
    by rewrite (Hrec _ (get_msg_smaller _ _ _ "Arg" E1)). }
  destruct (as_node "CollateClause" node) as [c|] eqn:E2.
  { exact (Hrec _ (get_msg_smaller _ _ _ "Arg" E2)). }
  destruct (as_node "ParamRef" node); [done|]. destruct (mbind _ _); [done|].
  destruct (as_node "A_Expr" node) as [e|] eqn:E3; [|done]. cbn [mbind result_bind or_fail].
  destruct (_ && _); [|done]. destruct (decide _); [|done].
  by rewrite (Hrec _ (get_msg_smaller _ _ _ "Rexpr" E3)).
Qed.

(** Any fuel above the size of the node gives the same result. *)
Lemma collectEqualities_fuel n m node relation values :
  (osize node < n)%nat → (osize node < m)%nat →
  collectEqualities_go n node relation values = collectEqualities_go m node relation values.
Proof.
  revert m node relation values. induction n as [|n IH]; intros [|m] node relation values Hn Hm; try lia.
  apply collectEqualities_step_ext. intros n' r v Hlt. apply IH; lia.
Qed.
Lemma rawScalarValue_fuel `{Floats} parameters n m node :
  (osize node < n)%nat → (osize node < m)%nat →
  rawScalarValue_go parameters n node = rawScalarValue_go parameters m node.
Proof.
  revert m node. induction n as [|n IH]; intros [|m] node Hn Hm; try lia.
  apply rawScalarValue_step_ext. intros n' Hlt. apply IH; lia.
Qed.

(** * What a predicate equates

    [Equated relation node c v]: [node] is a conjunction one of whose conjuncts
    is the equality of column [c] of [relation] and the expression [v], written
    in either order or as one position of a row comparison. *)
Definition equality_of (relation left right : option message) (c : string) (v : option message) : Prop :=
  (columnName left relation = Some c ∧ v = right) ∨
  (columnName left relation = None ∧ columnName right relation = Some c ∧ v = left).

Inductive Equated (relation : option message) : message → string → option message → Prop :=
| Equated_and node boolean item c v :
    as_node "BoolExpr" (Some node) = Some boolean →
    get_enum (Some boolean) "Boolop" = "AND_EXPR" →
    item ∈ get_list (Some boolean) "Args" →
    Equated relation item c v → Equated relation node c v
| Equated_scalar node expression c v :
    as_node "BoolExpr" (Some node) = None →
    as_node "A_Expr" (Some node) = Some expression →
    get_enum (Some expression) "Kind" = "AEXPR_OP" →
    operatorName (get_list (Some expression) "Name") = "=" →
    rowItems (get_msg (Some expression) "Lexpr") = [] →
    rowItems (get_msg (Some expression) "Rexpr") = [] →
    equality_of relation (get_msg (Some expression) "Lexpr") (get_msg (Some expression) "Rexpr") c v →
    Equated relation node c v
| Equated_row node expression left right c v :
    as_node "BoolExpr" (Some node) = None →
    as_node "A_Expr" (Some node) = Some expression →
    get_enum (Some expression) "Kind" = "AEXPR_OP" →
    operatorName (get_list (Some expression) "Name") = "=" →
    (left, right) ∈ zip (rowItems (get_msg (Some expression) "Lexpr"))
                        (rowItems (get_msg (Some expression) "Rexpr")) →
    equality_of relation (Some left) (Some right) c v →
    Equated relation node c v.
#[export] Hint Constructors Equated : hamster.

(** A step that adds exactly the equations [P]. *)
Definition extends (P : string → option message → Prop)
    (before after : gmap string (option message)) : Prop :=
  (∀ c v, after !! c = Some v ↔ before !! c = Some v ∨ P c v) ∧
  (∀ c v, P c v → before !! c = None).

Lemma collectEquality_extends left right relation before after :
  collectEquality left right relation before = Ok after →
  extends (equality_of relation left right) before after.
Proof.
  assert (∀ (c : string) (v : option message), (match before !! c with
    | Some _ => Err Unroutable | None => Ok (<[c := v]> before) end) = Ok after →
    extends (λ c' v', c' = c ∧ v' = v) before after) as Hadd.
  { intros c v. destruct (before !! c) eqn:Hc; [done|]. intros [= <-]. split.
    - intros c' v'. destruct (decide (c = c')) as [->|].
      + rewrite lookup_insert_eq, Hc. naive_solver.
      + rewrite lookup_insert_ne by done. naive_solver.
    - by intros c' v' [-> ->]. }
  unfold collectEquality, extends, equality_of.
  destruct (columnName left relation) as [c|] eqn:Hl.
  { intros [H1 H2]%Hadd. split; [intros c' v'; rewrite H1; naive_solver|].
    intros c' v' [[[= ->] ->]|[? _]]; [by eapply H2 | done]. }
  destruct (columnName right relation) as [c|] eqn:Hr.
  { intros [H1 H2]%Hadd. split; [intros c' v'; rewrite H1; naive_solver|].
    intros c' v' [[? _]|(_ & [= ->] & ->)]; [done | by eapply H2]. }
  intros [= <-]. split; naive_solver.
Qed.

(** A loop of such steps adds the equations of all its elements. *)
Lemma mfold_extends {B} (f : gmap string (option message) → B → result no_value _)
    (P : B → string → option message → Prop) l before after :
  (∀ a b a', b ∈ l → f a b = Ok a' → extends (P b) a a') →
  mfold f before l = Ok after → extends (λ c v, ∃ b, b ∈ l ∧ P b c v) before after.
Proof.
  revert before. induction l as [|b l IH]; intros before Hf; cbn [mfold].
  - intros [= <-]. split; [intros c v; split; [by left | intros [?|(? & []%elem_of_nil & _)]; done]|].
    by intros c v (? & []%elem_of_nil & _).
  - destruct (f before b) as [mid|] eqn:Hb; [|done]. cbn. intros Hrest.
    apply Hf in Hb as [B1 B2]; [|left]. apply IH in Hrest as [R1 R2]; [|intros ????; apply Hf; by right].
    split.
    + intros c v. rewrite R1, B1. setoid_rewrite elem_of_cons. naive_solver.
    + intros c v (b' & [->|Hin]%elem_of_cons & HP); [by eapply B2|].
      destruct (before !! c) as [w|] eqn:Hc; [|done].
      assert (mid !! c = Some w) as Hm by (apply B1; by left).
      rewrite (R2 c v) in Hm; [done|]. eauto.
Qed.

Lemma extends_none P m : (∀ c v, ¬ P c v) → extends P m m.
Proof. intros HP. split; [intros c v; split; [by left | intros [?|[]%HP]; done] | by intros c v []%HP]. Qed.
Lemma extends_iff P Q before after :
  (∀ c v, P c v ↔ Q c v) → extends P before after → extends Q before after.
Proof. intros HPQ [H1 H2]. split; [intros c v; by rewrite H1, HPQ | intros c v; rewrite <- HPQ; eauto]. Qed.

Lemma Equated_inv relation node c v :
  Equated relation node c v ↔
  match as_node "BoolExpr" (Some node) with
  | Some boolean => get_enum (Some boolean) "Boolop" = "AND_EXPR" ∧
      ∃ item, item ∈ get_list (Some boolean) "Args" ∧ Equated relation item c v
  | None =>
    match as_node "A_Expr" (Some node) with
    | Some e => get_enum (Some e) "Kind" = "AEXPR_OP" ∧ operatorName (get_list (Some e) "Name") = "=" ∧
        let left := get_msg (Some e) "Lexpr" in let right := get_msg (Some e) "Rexpr" in
        ((rowItems left = [] ∧ rowItems right = [] ∧ equality_of relation left right c v) ∨
         ∃ p, p ∈ zip (rowItems left) (rowItems right) ∧
              equality_of relation (Some p.1) (Some p.2) c v)
    | None => False
    end
  end.
Proof.
  split.
  - inversion 1 as [? ? ? ? ? Hb| ? ? ? ? Hb He| ? ? ? ? ? ? Hb He]; subst; rewrite Hb; rewrite ?He; eauto 10.
  - destruct (as_node "BoolExpr" _) as [b|] eqn:Hb.
    + intros (? & item & ? & ?). eauto with hamster.
    + destruct (as_node "A_Expr" _) as [e|] eqn:He; [|done].
      intros (? & ? & [(? & ? & ?)|([l r] & ? & ?)]); eauto with hamster.
Qed.

Lemma collectEqualities_extends n node relation before after :
  collectEqualities_go n (Some node) relation before = Ok after →
  extends (Equated relation node) before after.
Proof.
  revert node before after. induction n as [|n IH]; intros node before after; cbn [collectEqualities_go]; [done|].
  unfold collectEqualities_step.
  rewrite bool_decide_eq_false_2 by done. intros H.
  refine (extends_iff _ _ _ _ (λ c v, symmetry (Equated_inv relation node c v)) _).
  destruct (as_node "BoolExpr" (Some node)) as [boolean|].
  { case_bool_decide as Hand; cbn [negb] in H; [|done].
    apply (mfold_extends _ (Equated relation)) in H; [|intros; by eapply IH].
    eapply extends_iff, H. naive_solver. }
  destruct (as_node "A_Expr" (Some node)) as [expression|]; [|injection H as <-; apply extends_none; tauto].
  case_bool_decide as Hk; cbn [negb orb] in H; [|injection H as <-; apply extends_none; naive_solver].
  case_bool_decide as Ho; cbn [negb orb] in H; [|injection H as <-; apply extends_none; naive_solver].
  cbv zeta. revert H. set (lr := rowItems (get_msg _ "Lexpr")). set (rr := rowItems (get_msg _ "Rexpr")).
  case_bool_decide as Hl.
  - rewrite Hl. case_bool_decide as Hr; cbn [andb orb]; [|done]. intros H%collectEquality_extends.
    eapply extends_iff, H. rewrite Hr. intros c v. cbn.
    split; [tauto | intros (_ & _ & [?|(? & []%elem_of_nil & _)]); tauto].
  - cbn [andb orb]. case_bool_decide as Hlen; [done|]. intros H.
    apply (mfold_extends _ (λ p, equality_of relation (Some p.1) (Some p.2))) in H;
      [|intros; by eapply collectEquality_extends].
    eapply extends_iff, H. naive_solver.
Qed.

(** * Plans that [prepare_tree] makes *)

(** Nothing but [Write], [SingleBurrow] and [Table] is set before [Analyze]. *)
Definition unresolved (p : Plan) : Prop :=
  Sharded p = false ∧ Target p = "" ∧ Routed p = false ∧ Deterministic p = false ∧ ScatterError p = "".

Lemma prepare_dml_plan p node p' :
  prepare_dml p node = Some p' → plan p' = set_write true (plan p) ∧
  ∃ m, GetNode node = Some m ∧ msg_name m ∈ write_nodes.
Proof.
  unfold prepare_dml. destruct (GetNode node) as [m|]; [|done]. cbn [mbind option_bind].
  intros H. cut (plan p' = set_write true (plan p) ∧ msg_name m ∈ write_nodes); [naive_solver|].
  revert H. repeat (case_decide; [intros [= <-]; split; [done | set_solver]|]). done.
Qed.

Lemma prepare_statement_plan p st :
  unresolved (plan p) → unresolved (plan (prepare_statement p st)).
Proof.
  intros Hu. unfold prepare_statement. destruct (GetNode (Some st)) as [m|]; [|done].
  destruct (prepare_dml p (Some st)) as [p'|] eqn:Hd.
  { apply prepare_dml_plan in Hd as [-> _]. exact Hu. }
  case_decide; [exact Hu|]. case_decide.
  { destruct (get_list _ "FromClause") as [|from [|]]; [exact Hu| |exact Hu]. destruct (_ && _); exact Hu. }
  case_decide; [exact Hu|]. case_decide; [|exact Hu].
  destruct (_ && _); [|exact Hu]. unfold prepareExplainWrite.
  destruct (prepare_dml p (get_msg (Some m) "Query")) as [p'|] eqn:Hd'; [|exact Hu].
  apply prepare_dml_plan in Hd' as [E _]. cbn [fst]. rewrite E. exact Hu.
Qed.

Lemma prepare_tree_unresolved tree : unresolved (plan (prepare_tree tree)).
Proof.
  unfold prepare_tree. destruct (single_statement tree) as [st|]; [|done].
  unfold finish_prepare. cbn [plan set_relations].
  assert (unresolved (plan (prepare_statement (new_prepared (containsWrite tree)
    (maxParameterInTree tree)) st))) as Hu by (by apply prepare_statement_plan).
  destruct (relation _); exact Hu.
Qed.

Lemma mmap_enumerate_length {E A B} (f : nat * A → result E B) l bs :
  mmap f (enumerate l) = Ok bs → length bs = length l.
Proof.
  intros H%mmap_ok%Forall2_length. rewrite <- H. unfold enumerate.
  clear. generalize 0%nat. induction l as [|x l IH]; intros n; cbn; [done | by rewrite IH].
Qed.

Lemma key_values_length `{Floats} parameters columns types p values :
  match insert p with
  | Some i => insertKeyValues i parameters columns types
  | None => predicateKeyValues (predicate p) parameters columns types (relation p)
  end = Ok values → length values = length columns.
Proof.
  intros Hv. assert (∃ m, orderedValues parameters m columns types = Ok values) as [m Hm].
  { destruct (insert p); unfold insertKeyValues, predicateKeyValues in Hv.
    - destruct (_ || _); [done|]. result_inv. eauto.
    - destruct (bool_decide _); [done|]. result_inv. eauto. }
  by eapply mmap_enumerate_length.
Qed.

(** What holds whenever a plan names a target. *)
Record routed_plan `{Floats} (p : Prepared) (parameters : list (option string))
    (registry : Registry) (burrows : list string) (pl : Plan) (columns values : list string) : Prop := {
  rp_columns : ShardKey registry (Table pl) = Some columns;
  rp_sharded : Sharded pl = true;
  rp_relation : physicalRelations p = 1%nat;
  rp_conflict : get_msg (insert p) "OnConflictClause" = None;
  rp_update : ∀ u, update p = Some u → updatesShardKey u columns = false;
  rp_values :
    match insert p with
    | Some i => insertKeyValues i parameters columns (default [] (ShardKeyTypes registry (Table pl)))
    | None => predicateKeyValues (predicate p) parameters columns
                (default [] (ShardKeyTypes registry (Table pl))) (relation p)
    end = Ok values;
  rp_complete : length values = length columns ∧ columns ≠ [];
  rp_owner : owns (Table pl) values (default [] (ShardKeyTypes registry (Table pl))) registry burrows (Target pl);
  rp_scatter : ScatterError pl = "";
}.

Lemma resolve_routed `{Floats} p parameters registry burrows pl :
  unresolved (plan p) → resolve p parameters registry burrows = Some pl → Routed pl = true →
  ∃ columns values, routed_plan p parameters registry burrows pl columns values.
Proof.
  intros (_ & _ & HR & _ & HS). unfold resolve. destruct (relation p) as [rel|] eqn:Hrel.
  2:{ intros [= <-]. congruence. }
  set (columns := default [] (ShardKey registry (Table (plan p)))).
  destruct (_ || _ || _) eqn:Hg; [intros [= <-]; cbn; congruence|].
  apply orb_false_iff in Hg as [[Hs Hc]%orb_false_iff Hb]. apply negb_false_iff in Hs.
  apply bool_decide_eq_false in Hc, Hb.
  destruct (negb _) eqn:H1; [intros [= <-]; cbn; congruence|].
  apply negb_false_iff, bool_decide_eq_true in H1.
  destruct (negb (bool_decide (get_msg _ _ = None))) eqn:H2; [intros [= <-]; cbn; congruence|].
  apply negb_false_iff, bool_decide_eq_true in H2.
  destruct (match update p with Some _ => _ | None => _ end) eqn:H3; [intros [= <-]; cbn; congruence|].
  set (types := default [] (ShardKeyTypes registry (Table (plan p)))).
  destruct (match insert p with Some _ => _ | None => _ end) as [values|[]] eqn:Hv; cbn [mbind result_bind];
    [|intros [= <-]; cbn; congruence | done].
  cbn [Table].
  destruct (TargetForTableShardKey _ _ _ _ _) as [target|[]] eqn:Ht; [|intros [= <-]; done | done].
  intros [= <-] _. apply TargetForTableShardKey_inv in Ht as (Hown & _ & _).
  rewrite <- Hrel in Hv. exists columns, values. split; try done.
  - cbn [Table]. unfold columns, IsSharded in *. by destruct (ShardKey _ _).
  - intros u Hu. by rewrite Hu in H3.
  - split; [by eapply key_values_length | done].
Qed.

(** * Properties *)

(** C1: a statement is sent to a single Burrow by shard key only when
    that is safe: it has one physical relation, which is sharded, no ON CONFLICT
    clause and no assignment to a key column, it fixes a value for every key
    column, and the target is the Burrow that owns the vshard of that tuple. *)
Theorem Analyze_routed_to_owner `{Floats} tree parameters registry burrows pl :
  Analyze (Some (prepare_tree tree)) parameters registry burrows = Some pl → Routed pl = true →
  ∃ columns values, routed_plan (prepare_tree tree) parameters registry burrows pl columns values.
Proof.
  pose proof (prepare_tree_unresolved tree) as Hu. unfold Analyze. destruct (read _).
  - destruct (negb _).
    + intros [= <-]. cbn. destruct Hu as (_ & _ & HR & _). congruence.
    + intros Ha HR. destruct (resolve _ _ _ _) as [pl'|] eqn:Hr; [|done]. cbn [mbind option_bind] in Ha.
      assert (pl' = pl) as ->; [|by eapply resolve_routed].
      destruct (negb (Routed pl')) eqn:Hn; cbn [andb] in Ha; [|congruence].
      apply negb_true_iff in Hn. destruct (negb _); injection Ha as <-; [|congruence].
      cbn in HR. congruence.
  - intros Hr HR. by eapply resolve_routed.
Qed.

(** the equalities collected from a WHERE clause are exactly
    the ones every row it accepts must satisfy: each comes from a conjunct
    [column = expression] (also within row comparisons), none is missed, and a
    column that two conjuncts equate makes the predicate unroutable. *)
Theorem collectEqualities_exact node relation values :
  collectEqualities (Some node) relation ∅ = Ok values →
  ∀ c v, values !! c = Some v ↔ Equated relation node c v.
Proof.
  intros [H _]%collectEqualities_extends c v. rewrite H, lookup_empty. naive_solver.
Qed.

(** the recursion over predicates never runs out of fuel: the
    function satisfies the recursive equation of the source. *)
Theorem collectEqualities_equation node relation values :
  collectEqualities node relation values =
  collectEqualities_step collectEqualities node relation values.
Proof.
  apply collectEqualities_step_ext. intros n r v Hlt. apply collectEqualities_fuel; lia.
Qed.

(** the same for the recursion over constant expressions. *)
Theorem rawScalarValue_equation `{Floats} parameters node :
  rawScalarValue parameters node = rawScalarValue_step parameters (rawScalarValue parameters) node.
Proof. apply rawScalarValue_step_ext. intros n Hlt. apply rawScalarValue_fuel; lia. Qed.

Lemma single_statement_within tree st : single_statement tree = Some st → within tree st.
Proof.
  unfold single_statement. destruct (get_list (Some tree) "Stmts") as [|raw [|]] eqn:E; try done.
  intros H. apply get_msg_sub in H. apply within_sub with raw; [|by apply within_step].
  apply (get_list_sub _ "Stmts"). rewrite E. by left.
Qed.
Lemma GetNode_within n m : GetNode (Some n) = Some m → within n m.
Proof. intros H%get_msg_sub. by apply within_step. Qed.

Lemma containsWrite_spec tree :
  containsWrite tree = true ↔ ∃ x, within tree x ∧ msg_name x ∈ write_nodes.
Proof.
  unfold containsWrite. rewrite (walk_flag _ (λ m, bool_decide (msg_name m ∈ write_nodes))).
  - setoid_rewrite bool_decide_eq_true. done.
  - intros x b. destruct (decide _), (bool_decide_reflect (msg_name x ∈ write_nodes)), b; done.
Qed.

Lemma prepare_statement_write tree st p :
  within tree st → Write (plan p) = containsWrite tree →
  as_node "CopyStmt" (Some st) = None → Write (plan (prepare_statement p st)) = containsWrite tree.
Proof.
  intros Hst Hp Hcopy. unfold prepare_statement.
  destruct (GetNode (Some st)) as [m|] eqn:Hm; [|done].
  destruct (prepare_dml p (Some st)) as [p'|] eqn:Hd.
  { apply prepare_dml_plan in Hd as [-> (m' & Hm' & Hw)]. symmetry. apply containsWrite_spec.
    exists m'. split; [|done]. eapply within_trans; [exact Hst | by apply GetNode_within]. }
  unfold as_node in Hcopy. rewrite Hm in Hcopy. cbn [mbind option_bind] in Hcopy.
  destruct (decide (msg_name m = "CopyStmt")); [done|]. case_decide.
  { destruct (get_list _ "FromClause") as [|from [|]]; [exact Hp| |exact Hp]. destruct (_ && _); exact Hp. }
  case_decide; [exact Hp|]. case_decide; [|exact Hp].
  destruct (_ && _) eqn:Hg; [|exact Hp]. apply andb_true_iff in Hg as [_ Hg]. unfold prepareExplainWrite.
  destruct (prepare_dml p (get_msg (Some m) "Query")) as [p'|] eqn:Hd'; [|exact Hp].
  apply prepare_dml_plan in Hd' as [E _]. cbn [fst]. rewrite E. cbn. congruence.
Qed.

Lemma prepare_tree_write tree st :
  single_statement tree = Some st →
  Write (plan (prepare_tree tree)) =
  Write (plan (prepare_statement (new_prepared (containsWrite tree) (maxParameterInTree tree)) st)).
Proof.
  intros Hst. unfold prepare_tree. rewrite Hst. unfold finish_prepare. cbn [plan set_relations].
  by destruct (relation _).
Qed.

(** C12: except for COPY, a prepared statement counts as a write exactly
    when an INSERT, UPDATE, DELETE or MERGE occurs anywhere in its tree, also in
    a CTE, in a subquery, or under EXPLAIN. *)
Theorem Prepare_write_complete tree st :
  single_statement tree = Some st → as_node "CopyStmt" (Some st) = None →
  Write (plan (prepare_tree tree)) = true ↔ ∃ x, within tree x ∧ msg_name x ∈ write_nodes.
Proof.
  intros Hst Hcopy. rewrite (prepare_tree_write _ _ Hst), <- containsWrite_spec.
  by rewrite (prepare_statement_write tree) by (try apply single_statement_within; done).
Qed.

(** COPY ... TO never counts as a write, even when it copies
    the result of a data-modifying query. *)
Theorem copy_to_hides_write tree st copy :
  single_statement tree = Some st → as_node "CopyStmt" (Some st) = Some copy →
  get_bool (Some copy) "IsFrom" = false → Write (plan (prepare_tree tree)) = false.
Proof.
  intros Hst Hcopy Hto. rewrite (prepare_tree_write _ _ Hst). unfold prepare_statement.
  pose proof (as_node_name _ _ _ Hcopy) as Hname. unfold as_node in Hcopy.
  destruct (GetNode (Some st)) as [m|] eqn:Hm; [|done]. cbn [mbind option_bind] in Hcopy.
  destruct (decide (msg_name m = "CopyStmt")); [|done]. injection Hcopy as ->.
  destruct (prepare_dml _ (Some st)) as [p'|] eqn:Hd.
  - apply prepare_dml_plan in Hd as [_ (m' & Hm' & Hw)]. rewrite Hm in Hm'. injection Hm' as <-.
    rewrite Hname in Hw. unfold write_nodes in Hw. set_solver.
  - cbn. exact Hto.
Qed.

(** the prepared parameter count is the largest number of
    any parameter reference in the tree, and zero when there is none. *)
Theorem maxParameterInTree_spec tree :
  0 ≤ maxParameterInTree tree ∧
  (∀ x, within tree x → msg_name x = "ParamRef" → get_int (Some x) "Number" ≤ maxParameterInTree tree) ∧
  (maxParameterInTree tree = 0 ∨ ∃ x, within tree x ∧ msg_name x = "ParamRef" ∧
     get_int (Some x) "Number" = maxParameterInTree tree).
Proof.
  unfold maxParameterInTree. rewrite walkMessage_visited.
  setoid_rewrite <- visited_elem. generalize (visited tree) as l.
  assert (∀ l n, let r := fold_left (λ s x,
      if decide (msg_name x = "ParamRef") then
        if s <? get_int (Some x) "Number" then get_int (Some x) "Number" else s
      else s) l n in
    n ≤ r ∧ (∀ x, x ∈ l → msg_name x = "ParamRef" → get_int (Some x) "Number" ≤ r) ∧
    (r = n ∨ ∃ x, x ∈ l ∧ msg_name x = "ParamRef" ∧ get_int (Some x) "Number" = r)) as H; [|intros l; exact (H l 0)].
  induction l as [|x l IH]; intros n; cbn [fold_left].
  - split_and!; [lia | by intros x []%elem_of_nil | by left].
  - cbv zeta. set (n' := if decide (msg_name x = "ParamRef") then _ else n).
    destruct (IH n') as (H1 & H2 & H3).
    assert (n ≤ n' ∧ (msg_name x = "ParamRef" → get_int (Some x) "Number" ≤ n') ∧
      (n' = n ∨ msg_name x = "ParamRef" ∧ get_int (Some x) "Number" = n')) as (N1 & N2 & N3).
    { unfold n'. destruct (decide _); [|naive_solver lia].
      destruct (Z.ltb_spec n (get_int (Some x) "Number")); naive_solver lia. }
    split_and!; [lia | |].
    + intros y [->|Hy]%elem_of_cons Hn; [specialize (N2 Hn); lia | eauto].
    + destruct H3 as [->|(y & Hy & Hn & Hv)].
      * destruct N3 as [->|[Hn Hv]]; [by left | right; exists x; split_and!; [by left | done..]].
      * right. exists y. split_and!; [by right | done..].
Qed.

(** ** Scattered reads *)

(** A SELECT that passes the checks before its per-Burrow results are concatenated. *)
Record scatter_safe (st select : message) : Prop := {
  ss_one_select : (length (filter (λ x, msg_name x = "SelectStmt") (visited select)) ≤ 1)%nat;
  ss_one_relation : (length (filter (λ x, msg_name x = "RangeVar") (visited st)) ≤ 1)%nat;
  ss_no_aggregate : ∀ x, within select x → msg_name x = "FuncCall" → aggregate_call x = false;
  ss_setop : get_enum (Some select) "Op" = "SETOP_NONE";
  ss_lists : Forall (λ f, get_list (Some select) f = [])
    ["DistinctClause"; "GroupClause"; "WindowClause"; "SortClause"; "LockingClause"];
  ss_messages : Forall (λ f, get_msg (Some select) f = None)
    ["WithClause"; "HavingClause"; "LimitCount"; "LimitOffset"];
}.

Lemma countSelectStatements_spec m :
  countSelectStatements m = length (filter (λ x, msg_name x = "SelectStmt") (visited m)).
Proof.
  unfold countSelectStatements. rewrite walkMessage_visited.
  assert (∀ l n, fold_left (λ s x, if decide (msg_name x = "SelectStmt") then S s else s) l n =
    (n + length (filter (λ x, msg_name x = "SelectStmt") l))%nat) as H; [|by rewrite H].
  induction l as [|x l IH]; intros n; [cbn; lia|]. cbn [fold_left]. rewrite IH, filter_cons.
  destruct (decide _); cbn [length]; lia.
Qed.
Lemma physicalRelationNames_spec m :
  physicalRelationNames m = (λ x, relationName (Some x)) <$> filter (λ x, msg_name x = "RangeVar") (visited m).
Proof.
  unfold physicalRelationNames. rewrite walkMessage_visited.
  assert (∀ l n, fold_left (λ s x, if decide (msg_name x = "RangeVar")
      then s ++ [relationName (Some x)] else s) l n =
    n ++ ((λ x, relationName (Some x)) <$> filter (λ x, msg_name x = "RangeVar") l)) as H; [|by rewrite H].
  induction l as [|x l IH]; intros n; [cbn; by rewrite app_nil_r|]. cbn [fold_left]. rewrite IH, filter_cons.
  destruct (decide _); [by rewrite fmap_cons, <- app_assoc | done].
Qed.
Lemma hasAggregateOrWindow_spec m :
  hasAggregateOrWindow m = true ↔ ∃ x, within m x ∧ msg_name x = "FuncCall" ∧ aggregate_call x = true.
Proof.
  unfold hasAggregateOrWindow.
  rewrite (walk_flag _ (λ m, bool_decide (msg_name m = "FuncCall") && aggregate_call m)).
  - setoid_rewrite andb_true_iff. setoid_rewrite bool_decide_eq_true. done.
  - intros x b. destruct (bool_decide _), (aggregate_call x), b; done.
Qed.

Lemma unsafeScatterReason_safe st select :
  unsafeScatterReason select (length (physicalRelationNames st)) = "" → scatter_safe st select.
Proof.
  unfold unsafeScatterReason. cbv zeta.
  repeat match goal with
  | |- (if ?b then _ else _) = _ → _ => destruct b eqn:?; [discriminate|]
  end. intros _.
  repeat match goal with
  | H : _ || _ = false |- _ => apply orb_false_iff in H as [? ?]
  | H : negb _ = false |- _ => apply negb_false_iff in H
  | H : bool_decide _ = true |- _ => apply bool_decide_eq_true in H
  | H : Nat.ltb _ _ = false |- _ => apply Nat.ltb_ge in H
  end.
  split; try done.
  - by rewrite <- countSelectStatements_spec.
  - rewrite physicalRelationNames_spec, length_fmap in *. done.
  - intros x Hx Hn. destruct (aggregate_call x) eqn:Ha; [|done].
    assert (hasAggregateOrWindow select = true) by (apply hasAggregateOrWindow_spec; eauto). congruence.
  - repeat (apply Forall_cons; split; [done|]). by apply Forall_nil.
  - repeat (apply Forall_cons; split; [done|]). by apply Forall_nil.
Qed.

(** a read that is sent to every Burrow without an error is a single SELECT over
    at most one relation, with no call of a listed aggregate or of a window
    function anywhere and no DISTINCT, GROUP BY, HAVING, WINDOW, ORDER BY, LIMIT,
    OFFSET, locking, WITH or set operation. That does not mean that its rows may
    be concatenated: [unlisted_aggregates_scattered]. *)
Theorem Analyze_scatter_safe `{Floats} tree st select parameters registry burrows pl :
  single_statement tree = Some st → as_node "SelectStmt" (Some st) = Some select →
  get_msg (Some select) "IntoClause" = None →
  Analyze (Some (prepare_tree tree)) parameters registry burrows = Some pl →
  SingleBurrow pl = false → Routed pl = false → ScatterError pl = "" →
  scatter_safe st select.
Proof.
  intros Hst Hsel Hinto Ha Hsb Hrouted Herr. apply unsafeScatterReason_safe.
  assert (read (prepare_tree tree) = true ∧ scatterError (prepare_tree tree) =
    unsafeScatterReason select (length (physicalRelationNames st))) as [Hread Hreason].
  { unfold prepare_tree. rewrite Hst. unfold finish_prepare. cbn [read scatterError set_relations].
    rewrite Hsel. split; [|done]. pose proof (as_node_name _ _ _ Hsel) as Hname.
    unfold as_node in Hsel. unfold prepare_statement.
    destruct (GetNode (Some st)) as [m|] eqn:Hm; [|done]. cbn [mbind option_bind] in Hsel.
    destruct (decide (msg_name m = "SelectStmt")); [|done]. injection Hsel as ->.
    destruct (prepare_dml _ (Some st)) as [p'|] eqn:Hd.
    { apply prepare_dml_plan in Hd as [_ (m' & Hm' & Hw)]. rewrite Hm in Hm'. injection Hm' as <-.
      rewrite Hname in Hw. unfold write_nodes in Hw. set_solver. }
    rewrite decide_False by congruence. rewrite Hinto.
    destruct (get_list _ "FromClause") as [|from [|]]; try done. by destruct (_ && _). }
  unfold Analyze in Ha. rewrite Hread in Ha. destruct (negb (readsShardedRelation _ _)).
  { injection Ha as <-. done. }
  destruct (resolve _ _ _ _) as [pl'|]; [|done]. cbn [mbind option_bind] in Ha. rewrite Hreason in Ha.
  destruct (negb (Routed pl')) eqn:Hn; cbn [andb] in Ha.
  - case_bool_decide as Hr; cbn [negb] in Ha; [done|]. injection Ha as <-. exact Herr.
  - injection Ha as <-. apply negb_false_iff in Hn. congruence.
Qed.

(** ** Generated keys *)

Lemma single_statement_edit g tree st :
  single_statement tree = Some st → single_statement (edit_insert g tree) = Some (in_node g st).
Proof.
  unfold single_statement, edit_insert. rewrite get_list_in_elem.
  destruct (get_list (Some tree) "Stmts") as [|raw [|]]; try done. cbn. apply get_msg_in_field.
Qed.

(** The items of the only VALUES row, before their number is checked. *)
Definition insert_items (statement : message) : option (list message) :=
  match get_list (as_node "SelectStmt" (get_msg (Some statement) "SelectStmt")) "ValuesLists" with
  | [l] => (λ row, get_list (Some row) "Items") <$> as_node "List" (Some l)
  | _ => None
  end.
Lemma insert_row_items statement items :
  insert_row statement = Some items ↔
  insert_items statement = Some items ∧ length items = length (get_list (Some statement) "Cols").
Proof.
  unfold insert_row, insert_items. destruct (get_list _ "ValuesLists") as [|l [|]]; try naive_solver.
  destruct (as_node "List" (Some l)) as [row|]; [|naive_solver]. cbn. case_decide; naive_solver.
Qed.

Lemma insert_items_edit g statement items :
  insert_items statement = Some items → insert_items (edit_items g statement) = Some (g items).
Proof.
  unfold insert_items, edit_items. destruct (get_msg (Some statement) "SelectStmt") as [n|] eqn:Hn; [|done].
  rewrite (get_msg_in_field _ _ _ _ Hn).
  destruct (as_node "SelectStmt" (Some n)) as [v|] eqn:Hv; [|done].
  erewrite as_node_in_node; [|exact Hv|].
  2:{ rewrite msg_name_in_elem. by eapply as_node_name. }
  rewrite get_list_in_elem. destruct (get_list (Some v) "ValuesLists") as [|l [|]]; [done| |done].
  destruct (as_node "List" (Some l)) as [row|] eqn:Hrow; [|done]. cbn. intros [= <-].
  erewrite as_node_in_node; [|exact Hrow|].
  2:{ rewrite msg_name_set. by eapply as_node_name. }
  cbn. by rewrite get_list_set_same.
Qed.

Lemma edit_items_cols g statement : get_list (Some (edit_items g statement)) "Cols" = get_list (Some statement) "Cols".
Proof. by apply get_list_in_field_other. Qed.

(** An edited INSERT, read back from the edited tree. *)
Lemma edited_insert g tree st insert cols' :
  single_statement tree = Some st → as_node "InsertStmt" (Some st) = Some insert →
  ∀ items, insert_items insert = Some items → length (g items) = length cols' →
  ∃ st' insert',
    single_statement (edit_insert (λ i, edit_items g (set_field "Cols" (FList cols') i)) tree) = Some st' ∧
    as_node "InsertStmt" (Some st') = Some insert' ∧ get_list (Some insert') "Cols" = cols' ∧
    insert_row insert' = Some (g items).
Proof.
  intros Hst Hins items Hitems Hlen.
  set (h := λ i, edit_items g (set_field "Cols" (FList cols') i)).
  exists (in_node h st), (h insert).
  assert (get_list (Some (h insert)) "Cols" = cols') as Hcols.
  { unfold h. rewrite edit_items_cols. apply get_list_set_same. }
  split_and!; [by apply single_statement_edit | | done |].
  - apply as_node_in_node; [done|]. unfold h, edit_items. rewrite msg_name_in_field, msg_name_set.
    by eapply as_node_name.
  - apply insert_row_items. rewrite Hcols. split; [|done]. apply insert_items_edit.
    unfold insert_items in *. by rewrite get_msg_set_other by done.
Qed.

(** The rewriting edits the columns and the values only. *)
Lemma edited_relation h tree st insert f :
  single_statement tree = Some st → as_node "InsertStmt" (Some st) = Some insert →
  f ≠ "Cols" → f ≠ "SelectStmt" → msg_name (h insert) = msg_name insert →
  get_msg (Some (h insert)) f = get_msg (Some insert) f →
  ∃ st' insert', single_statement (edit_insert h tree) = Some st' ∧ as_node "InsertStmt" (Some st') = Some insert' ∧
    get_msg (Some insert') f = get_msg (Some insert) f.
Proof.
  intros Hst Hins H1 H2 Hn Hf. exists (in_node h st), (h insert). split_and!; [by apply single_statement_edit| |done].
  apply as_node_in_node; [done|]. rewrite Hn. by eapply as_node_name.
Qed.
Lemma rewrite_insert_keeps column new_column replacement insert row tree st tree' f :
  single_statement tree = Some st → as_node "InsertStmt" (Some st) = Some insert →
  f ≠ "Cols" → f ≠ "SelectStmt" →
  rewrite_insert column new_column replacement insert row tree = Some tree' →
  ∃ st' insert', single_statement tree' = Some st' ∧ as_node "InsertStmt" (Some st') = Some insert' ∧
    get_msg (Some insert') f = get_msg (Some insert) f.
Proof.
  intros Hst Hins H1 H2. unfold rewrite_insert. destruct (column_index _ _) as [i|].
  - destruct (row !! i) as [item|]; [|done]. cbn [mbind option_bind].
    destruct (as_node "SetToDefault" (Some item)); [|done]. cbn [mbind option_bind]. intros [= <-].
    eapply edited_relation; try done; unfold edit_items; [apply msg_name_in_field|by apply get_msg_in_field_other].
  - intros [= <-]. eapply edited_relation; try done; unfold edit_items.
    + by rewrite msg_name_in_field, msg_name_set.
    + rewrite get_msg_in_field_other by done. by apply get_msg_set_other.
Qed.
(** The table of an INSERT statement. *)
Lemma prepare_insert_table tree st insert :
  single_statement tree = Some st → as_node "InsertStmt" (Some st) = Some insert →
  Table (plan (prepare_tree tree)) = relationName (get_msg (Some insert) "Relation").
Proof.
  intros Hst Hins. unfold prepare_tree. rewrite Hst. pose proof (as_node_name _ _ _ Hins) as Hname.
  unfold as_node in Hins. unfold finish_prepare, prepare_statement, prepare_dml.
  destruct (GetNode (Some st)) as [m|]; [|done]. cbn [mbind option_bind] in *.
  destruct (decide (msg_name m = "InsertStmt")); [|done]. injection Hins as ->. cbn.
  by destruct (get_msg (Some insert) "Relation").
Qed.

(** after the rewriting of an INSERT, the generated column and
    the supplied expression stand at the same position, every other column keeps
    its value, and only a DEFAULT is ever replaced. *)
Theorem rewrite_insert_aligned column new_column replacement insert row tree st tree' :
  single_statement tree = Some st → as_node "InsertStmt" (Some st) = Some insert →
  insert_row insert = Some row →
  names_column column new_column = true →
  rewrite_insert column new_column replacement insert row tree = Some tree' →
  ∃ st' insert' row' i node, single_statement tree' = Some st' ∧
    as_node "InsertStmt" (Some st') = Some insert' ∧ insert_row insert' = Some row' ∧
    get_list (Some insert') "Cols" !! i = Some node ∧ names_column column node = true ∧
    row' !! i = Some replacement ∧
    (∀ j, j ≠ i → get_list (Some insert') "Cols" !! j = get_list (Some insert) "Cols" !! j ∧
                  row' !! j = row !! j) ∧
    (∀ item, row !! i = Some item → is_Some (as_node "SetToDefault" (Some item))).
Proof.
  intros Hst Hins Hrow Hnew. apply insert_row_items in Hrow as [Hitems Hlen].
  set (cols := get_list (Some insert) "Cols") in *. unfold rewrite_insert. fold cols.
  unfold column_index. destruct (list_find _ cols) as [[i node]|] eqn:Hfind; cbn [fmap option_fmap option_map fst].
  - apply list_find_Some in Hfind as (Hnode & Hname & _).
    destruct (row !! i) as [item|] eqn:Hitem; [|done]. cbn [mbind option_bind].
    destruct (as_node "SetToDefault" (Some item)) as [d|] eqn:Hd; [|done]. cbn [mbind option_bind].
    intros [= <-].
    assert (∀ x, as_node "InsertStmt" (Some x) = Some insert →
      in_node (edit_items (<[i:=replacement]>)) x =
      in_node (λ y, edit_items (<[i:=replacement]>) (set_field "Cols" (FList cols) y)) x) as Hsame.
    { intros x Hx. unfold in_node, in_field, as_node, GetNode in *.
      destruct (get_msg (Some x) "Node") as [y|]; [|done]. cbn in Hx.
      destruct (decide _); [|done]. injection Hx as ->. do 3 f_equal.
      destruct insert as [n fs]. unfold set_field. f_equal. symmetry. apply assign_field_id.
      unfold cols, get_list, get in *. cbn in *. destruct (assoc_field "Cols" fs) as [[]|]; done. }
    destruct (edited_insert (<[i:=replacement]>) tree st insert cols Hst Hins row Hitems)
      as (st' & insert' & Hs' & Hi' & Hc' & Hr'); [by rewrite length_insert|].
    exists st', insert', (<[i:=replacement]> row), i, node.
    assert (i < length row)%nat as Hi by (by eapply lookup_lt_Some).
    split_and!; [| done | done | by rewrite Hc' | done | by apply list_lookup_insert_eq | | naive_solver].
    + rewrite <- Hs'. rewrite (single_statement_edit _ _ _ Hst), (single_statement_edit _ _ _ Hst).
      f_equal. by apply Hsame.
    + intros j Hj. rewrite Hc'. split; [done|]. by apply list_lookup_insert_ne.
  - intros [= <-].
    destruct (edited_insert (λ items, items ++ [replacement]) tree st insert (cols ++ [new_column])
      Hst Hins row Hitems) as (st' & insert' & Hs' & Hi' & Hc' & Hr').
    { rewrite !length_app. cbn. lia. }
    exists st', insert', (row ++ [replacement]), (length row), new_column.
    split_and!; [exact Hs' | done | done | | done | by rewrite lookup_app_r, Nat.sub_diag by done | |].
    + rewrite Hc', Hlen. by rewrite lookup_app_r, Nat.sub_diag by done.
    + intros j Hj. rewrite Hc'. destruct (decide (j < length row)%nat).
      * by rewrite !lookup_app_l by lia.
      * rewrite !lookup_ge_None_2; [done | rewrite ?length_app; cbn; lia ..].
    + intros item Hitem. apply lookup_lt_Some in Hitem. lia.
Qed.

(** ** Casts *)

(** an explicit cast decides the canonical form of a key value, not
    the type of the key column: [1000000::float8], which PostgreSQL compares
    with an integer key as a number, is hashed under the text Go prints for the
    float, and not under the text of the integer. *)
Theorem cast_overrides_column_type `{Floats} parameters node constant cast arg ival z f :
  as_node "TypeCast" (Some node) = Some cast → get_msg (Some cast) "Arg" = Some arg →
  typeName (get_msg (Some cast) "TypeName") = Some "pg_catalog.float8" →
  GetNode (Some arg) = Some constant → msg_name constant = "A_Const" →
  get_bool (Some constant) "Isnull" = false → get_msg (Some constant) "Sval" = None →
  get_msg (Some constant) "Ival" = Some ival → get_int (Some ival) "Ival" = z →
  ParseFloat (TrimSpace (FormatInt z)) 64 = Some f →
  ParseFloat (TrimSpace (FormatFloat f 64)) 64 = Some f →
  scalarValue parameters (Some arg) "int8" = Ok (FormatInt z) ∧
  scalarValue parameters (Some node) "int8" = Ok (FormatFloat f 64).
Proof.
  intros Hcast Harg Htype Hconst Hname Hnull Hs Hi Hz Hf1 Hf2.
  assert (rawScalarValue parameters (Some arg) = Ok (FormatInt z, "")) as Hraw.
  { rewrite rawScalarValue_equation. unfold rawScalarValue_step, as_node. rewrite Hconst. cbn [mbind option_bind].
    rewrite Hname. rewrite !decide_False by done. rewrite decide_True by done.
    cbn [mbind option_bind]. unfold constant_value. rewrite Hnull, Hs, Hi, Hz. done. }
  assert (∀ v, canonicalScalar v "pg_catalog.float8" = or_fail (canonical_float 64 v) Unroutable) as Hfl.
  { intros v. unfold canonicalScalar. rewrite decide_False by done.
    change (type_key "pg_catalog.float8") with "float8". cbv zeta.
    do 3 (rewrite decide_False by by_computation). by rewrite decide_True by by_computation. }
  split.
  - unfold scalarValue. rewrite Hraw. cbn [mbind result_bind]. rewrite decide_True by done.
    unfold canonicalScalar. rewrite decide_False by done. change (type_key "int8") with "int8". cbv zeta.
    rewrite decide_True by by_computation.
    rewrite TrimSpace_plain by (eapply SetString10_plain, SetString10_FormatInt).
    by rewrite SetString10_FormatInt.
  - unfold scalarValue. rewrite rawScalarValue_equation. unfold rawScalarValue_step.
    rewrite Hcast, Htype, Harg, Hraw. cbn [mbind result_bind or_fail]. rewrite Hfl.
    unfold canonical_float. rewrite Hf1. cbn [mbind option_bind result_bind or_fail].
    rewrite decide_False by done. rewrite Hfl. unfold canonical_float. by rewrite Hf2.
Qed.

(** * Samples and witnesses *)

Definition mk_tree (st : message) : message :=
  Msg "ParseResult" [("Stmts", FList [Msg "RawStmt" [("Stmt", FMsg (mk_node st))]])].
Definition mk_string (s : string) : message := mk_node (Msg "String" [("Sval", FString s)]).
Definition mk_column (c : string) : message :=
  mk_node (Msg "ColumnRef" [("Fields", FList [mk_string c])]).
Definition mk_int (z : Z) : message :=
  mk_node (Msg "A_Const" [("Ival", FMsg (Msg "Integer" [("Ival", FInt z)]))]).
Definition mk_text (s : string) : message :=
  mk_node (Msg "A_Const" [("Sval", FMsg (Msg "String" [("Sval", FString s)]))]).
Definition mk_equal (l r : message) : message :=
  mk_node (Msg "A_Expr" [("Kind", FEnum "AEXPR_OP"); ("Name", FList [mk_string "="]);
                         ("Lexpr", FMsg l); ("Rexpr", FMsg r)]).
Definition mk_cast (arg : message) (schema type : string) : message :=
  mk_node (Msg "TypeCast" [("Arg", FMsg arg);
    ("TypeName", FMsg (Msg "TypeName" [("Names", FList [mk_string schema; mk_string type])]))]).
Definition mk_table (schema name : string) : message :=
  Msg "RangeVar" [("Schemaname", FString schema); ("Relname", FString name)].
Definition accounts_where : message :=
  mk_node (Msg "BoolExpr" [("Boolop", FEnum "AND_EXPR");
    ("Args", FList [mk_equal (mk_column "tenant_id") (mk_int 42);
                    mk_equal (mk_text "eu") (mk_column "region")])]).
Definition accounts_select (where_clause : list (string * field)) : message :=
  Msg "SelectStmt" ([("FromClause", FList [mk_node (mk_table "public" "accounts")]);
    ("Op", FEnum "SETOP_NONE"); ("LimitOption", FEnum "LIMIT_OPTION_DEFAULT")] ++ where_clause).
Definition accounts_delete : message :=
  Msg "DeleteStmt" [("Relation", FMsg (mk_table "public" "accounts"))].
Definition accounts_copy_to : message :=
  Msg "CopyStmt" [("Query", FMsg (mk_node accounts_delete))].
Definition accounts_insert : message :=
  Msg "InsertStmt" [("Relation", FMsg (mk_table "public" "accounts"));
    ("Cols", FList [mk_node (Msg "ResTarget" [("Name", FString "tenant_id")])]);
    ("SelectStmt", FMsg (mk_node (Msg "SelectStmt"
      [("ValuesLists", FList [mk_node (Msg "List" [("Items", FList [mk_int 42])])])])))].

Definition accounts_plan : Plan := {|
  Table := "public.accounts"; Write := false; Sharded := true; Target := "a"; Routed := true;
  SingleBurrow := false; Deterministic := false; ScatterError := "" |}.

Lemma Analyze_routed_to_owner_witness :
  ∃ columns values, @routed_plan toy_floats
    (prepare_tree (mk_tree (accounts_select [("WhereClause", FMsg accounts_where)]))) [] accounts ["a"; "b"]
    accounts_plan columns values.
Proof.
  refine (@Analyze_routed_to_owner toy_floats
    (mk_tree (accounts_select [("WhereClause", FMsg accounts_where)])) [] accounts ["a"; "b"]
    accounts_plan _ eq_refl). vm_compute. reflexivity.
Defined.

Lemma collectEqualities_exact_witness :
  Equated (Some (mk_table "public" "accounts")) accounts_where "region" (Some (mk_text "eu")).
Proof.
  refine (proj1 (collectEqualities_exact accounts_where (Some (mk_table "public" "accounts"))
    (<["region" := Some (mk_text "eu")]> {["tenant_id" := Some (mk_int 42)]}) _ _ _) _);
    vm_compute; reflexivity.
Defined.

Lemma Prepare_write_complete_witness : Write (plan (prepare_tree (mk_tree accounts_delete))) = true.
Proof.
  refine (proj2 (Prepare_write_complete (mk_tree accounts_delete) (mk_node accounts_delete)
    eq_refl eq_refl) _).
  exists accounts_delete. split; [|by_computation].
  apply (within_trans _ (mk_node accounts_delete)).
  - by apply single_statement_within.
  - by apply GetNode_within.
Defined.

Lemma copy_to_hides_write_witness :
  containsWrite (mk_tree accounts_copy_to) = true ∧
  Write (plan (prepare_tree (mk_tree accounts_copy_to))) = false.
Proof.
  split; [reflexivity|].
  exact (copy_to_hides_write (mk_tree accounts_copy_to) (mk_node accounts_copy_to) accounts_copy_to
    eq_refl eq_refl eq_refl).
Defined.

Lemma Analyze_scatter_safe_witness :
  scatter_safe (mk_node (accounts_select [])) (accounts_select []).
Proof.
  refine (@Analyze_scatter_safe toy_floats (mk_tree (accounts_select [])) (mk_node (accounts_select []))
    (accounts_select []) [] accounts ["a"; "b"]
    {| Table := "public.accounts"; Write := false; Sharded := true; Target := ""; Routed := false;
       SingleBurrow := false; Deterministic := false; ScatterError := "" |}
    eq_refl eq_refl eq_refl _ eq_refl eq_refl eq_refl). vm_compute. reflexivity.
Defined.

(** An aggregate that is not in the list, because users have defined it or
    because the parser has a node of its own for it, is no obstacle: every
    Burrow computes it over its own rows and the client gets all the results. *)
Definition select_expression (e : message) : message :=
  accounts_select [("TargetList", FList [mk_node (Msg "ResTarget" [("Val", FMsg e)])])].
Definition user_aggregate : message :=
  mk_node (Msg "FuncCall" [("Funcname", FList [mk_string "weighted_total"]); ("Args", FList [mk_column "amount"])]).
Definition json_aggregate : message :=
  mk_node (Msg "JsonArrayAgg" [("Constructor", FMsg (Msg "JsonAggConstructor" []));
    ("Arg", FMsg (Msg "JsonValueExpr" [("RawExpr", FMsg (mk_column "amount"))]))]).
Definition scattered (e : message) : option (bool * string) :=
  (λ pl, (Routed pl || SingleBurrow pl, ScatterError pl))
    <$> @Analyze toy_floats (Some (prepare_tree (mk_tree (select_expression e)))) [] accounts ["a"; "b"].
Example unlisted_aggregates_scattered :
  scattered user_aggregate = Some (false, "") ∧ scattered json_aggregate = Some (false, "") ∧
  (snd <$> scattered (mk_node (Msg "FuncCall" [("Funcname", FList [mk_string "sum"]); ("Args", FList [mk_column "amount"])])))
    ≠ Some "".
Proof. split_and!; vm_compute; done. Qed.

Lemma rewrite_insert_aligned_witness :
  ∃ tree', rewrite_insert "id" (mk_node (Msg "ResTarget" [("Name", FString "id")])) (mk_int 7)
    accounts_insert [mk_int 42] (mk_tree accounts_insert) = Some tree' ∧
    ∃ st' insert' row' i node, single_statement tree' = Some st' ∧
    as_node "InsertStmt" (Some st') = Some insert' ∧ insert_row insert' = Some row' ∧
    get_list (Some insert') "Cols" !! i = Some node ∧ names_column "id" node = true ∧
    row' !! i = Some (mk_int 7) ∧
    (∀ j, j ≠ i → get_list (Some insert') "Cols" !! j = get_list (Some accounts_insert) "Cols" !! j ∧
                  row' !! j = [mk_int 42] !! j) ∧
    (∀ item, [mk_int 42] !! i = Some item → is_Some (as_node "SetToDefault" (Some item))).
Proof.
  eexists. split; [reflexivity|].
  refine (rewrite_insert_aligned "id" (mk_node (Msg "ResTarget" [("Name", FString "id")])) (mk_int 7)
    accounts_insert [mk_int 42] (mk_tree accounts_insert) (mk_node accounts_insert) _
    eq_refl eq_refl eq_refl eq_refl eq_refl).
Defined.

(** Go prints a million as [1e+06]. *)
Definition million_floats : Floats := {|
  float := Z;
  ParseFloat := λ s _, if decide (s = "1e+06") then Some 1000000 else SetString10 s;
  FormatFloat := λ f _, if decide (f = 1000000) then "1e+06" else FormatInt f;
  FloatFromBits := λ z _, z;
|}.

Lemma cast_overrides_column_type_witness :
  @scalarValue million_floats [] (Some (mk_int 1000000)) "int8" = Ok "1000000" ∧
  @scalarValue million_floats [] (Some (mk_cast (mk_int 1000000) "pg_catalog" "float8")) "int8" = Ok "1e+06".
Proof.
  refine (@cast_overrides_column_type million_floats [] (mk_cast (mk_int 1000000) "pg_catalog" "float8")
    _ _ _ _ _ 1000000 eq_refl eq_refl _ eq_refl eq_refl eq_refl eq_refl eq_refl eq_refl _ _);
    vm_compute; reflexivity.
Defined.

End router.
