(* ===== verification/RoutePlan.v ===== *)
(** From a routing plan to the Burrows a statement is sent to: the policy
    functions of [internal/proxy/server.go] around [router.Analyze].

    Random bytes, the configured policy and the counter of
    [topologyReadIndex] are arguments; the counter's new value is returned. *)
From S2P Require Import Prelude.
From S2P Require Import GoStrings.
From S2P Require Import GoNumbers.
From S2P Require Import GoStd.
From S2P Require Import Schema.
From S2P Require Import ShardKey.
From S2P Require Import PgQuery.
From S2P Require Import Router.

Module routeplan.
Import schema shardkey router.

(** * The policy *)

Record routeDecision := {
  target : string; routed : bool; keyedWrite : bool; scatterError : string;
}.

(** What the decision reads from the server: the configured mode and primary
    ([backends.UnshardedMode], [backends.PrimaryBurrow]), the eight random bytes
    as a number ([None] when [rand.Read] fails) and the balancing counter. *)
Record policy := {
  UnshardedMode : string; PrimaryBurrow : string; random : option Z; topologyReadIndex : Z;
}.

Definition pick (burrows : list string) (index : Z) : string :=
  default "" (burrows !! Z.to_nat (index mod Z.of_nat (length burrows))).

(** The Burrow and the counter after [Add(1)], on 64 bits. *)
Definition balancedBurrow (burrows : list string) (counter : Z) : string * Z :=
  if bool_decide (burrows = []) then ("", counter) else
  (pick (sort_strings burrows) counter, wrap 64 (counter + 1)).

Definition randomBurrow (burrows : list string) (random : option Z) : string :=
  if bool_decide (burrows = []) then "" else
  match random with
  | None => default "" (head burrows)
  | Some value => pick burrows value
  end.

Definition parserFallbackBurrow (burrows : list string) (primary : string) : string :=
  if bool_decide (burrows = []) then "" else
  if bool_decide (primary ≠ "") && bool_decide (primary ∈ burrows) then primary
  else default "" (head (sort_strings burrows)).

Definition with_target (t : string) (r : bool) (d : routeDecision) : routeDecision :=
  {| target := t; routed := r; keyedWrite := keyedWrite d; scatterError := scatterError d |}.

Definition routePlan (p : policy) (plan : Plan) (burrows : list string) : routeDecision * Z :=
  let counter := topologyReadIndex p in
  let decision := {| target := Target plan; routed := Routed plan;
    keyedWrite := Write plan && (bool_decide (Table plan = "") || Sharded plan);
    scatterError := ScatterError plan |} in
  if SingleBurrow plan then
    if bool_decide (burrows = []) then (decision, counter) else
    let '(t, counter) :=
      if decide (UnshardedMode p = "primary") then (PrimaryBurrow p, counter)
      else if Deterministic plan then balancedBurrow burrows counter
      else (randomBurrow burrows (random p), counter) in
    (with_target t (bool_decide (t ≠ "")) decision, counter)
  else if Routed plan || bool_decide (Table plan = "") || Sharded plan then (decision, counter)
  else if decide (UnshardedMode p = "primary") then
    (with_target (PrimaryBurrow p) true decision, counter)
  else if Write plan then (decision, counter)
  else if bool_decide (burrows = []) then (decision, counter)
  else (with_target (randomBurrow burrows (random p)) true decision, counter).

Section analyze.
Context `{Floats}.

(** [None] when [Analyze] panics. *)
Definition routePortal (p : policy) (prepared : option Prepared) (parameters : list (option string))
    (registry : Registry) (burrows : list string) : option (routeDecision * Z) :=
  match prepared with
  | None => Some (routePlan p zero_plan burrows)
  | Some _ => plan ← Analyze prepared parameters registry burrows; Some (routePlan p plan burrows)
  end.

(** [prepared] is the result of [router.Prepare], [None] on a parse error. *)
Definition resolveRouteDecision (p : policy) (prepared : option Prepared)
    (registry : Registry) (burrows : list string) : option (routeDecision * Z) :=
  match prepared with
  | None =>
    let t := parserFallbackBurrow burrows (PrimaryBurrow p) in
    Some ({| target := t; routed := bool_decide (t ≠ ""); keyedWrite := false; scatterError := "" |},
          topologyReadIndex p)
  | Some _ => routePortal p prepared [] registry burrows
  end.

(** [routeSQL]: [None] when [Analyze] panics, an error when it cannot parse. *)
Definition routeSQL `{PgQuery} (p : policy) (sql : string) (registry : Registry) (burrows : list string)
    : option (result () (routeDecision * Z)) :=
  match Prepare sql with
  | None => Some (Err tt)
  | Some prepared =>
    plan ← Analyze (Some prepared) [] registry burrows; Some (Ok (routePlan p plan burrows))
  end.
End analyze.

(** * Balancing *)

(** The Burrows that [n] consecutive deterministic reads are sent to. *)
Fixpoint balanced_picks (burrows : list string) (n : nat) (counter : Z) : list string :=
  match n with
  | O => []
  | S n => let '(b, counter) := balancedBurrow burrows counter in b :: balanced_picks burrows n counter
  end.

Lemma pick_elem burrows index : burrows ≠ [] → pick burrows index ∈ burrows.
Proof.
  intros Hne. assert (0 < Z.of_nat (length burrows)) as Hl by (destruct burrows; [done | cbn; lia]).
  pose proof (Z.mod_pos_bound index _ Hl) as Hb. unfold pick.
  destruct (lookup_lt_is_Some_2 burrows (Z.to_nat (index mod Z.of_nat (length burrows)))) as [b Hb']; [lia|].
  rewrite Hb'. cbn. by apply list_elem_of_lookup_2 in Hb'.
Qed.
Lemma randomBurrow_elem burrows r : burrows ≠ [] → randomBurrow burrows r ∈ burrows.
Proof.
  intros Hne. unfold randomBurrow. rewrite bool_decide_eq_false_2 by done.
  destruct r; [by apply pick_elem|]. destruct burrows; [done|]. by left.
Qed.
Lemma sort_strings_nil l : sort_strings l = [] → l = [].
Proof. intros E. apply Permutation_nil_r. by rewrite <- E, sort_strings_perm. Qed.
Lemma balancedBurrow_elem burrows counter :
  burrows ≠ [] → (balancedBurrow burrows counter).1 ∈ burrows.
Proof.
  intros Hne. unfold balancedBurrow. rewrite bool_decide_eq_false_2 by done. cbn [fst].
  rewrite <- (sort_strings_perm burrows) at 2. apply pick_elem. by intros E%sort_strings_nil.
Qed.

Lemma balanced_picks_lookup burrows n counter i :
  burrows ≠ [] → 0 ≤ counter → counter + Z.of_nat n ≤ 2 ^ 64 → (i < n)%nat →
  balanced_picks burrows n counter !! i = Some (pick (sort_strings burrows) (counter + Z.of_nat i)).
Proof.
  intros Hne. revert counter i. induction n as [|n IH]; intros counter i Hc Hn Hi; [lia|].
  cbn [balanced_picks]. unfold balancedBurrow. rewrite bool_decide_eq_false_2 by done.
  destruct i as [|i]; cbn [lookup list_lookup]; [by rewrite Z.add_0_r|].
  destruct (decide (n = O)) as [->|]; [lia|]. unfold wrap.
  rewrite (Z.mod_small (counter + 1)) by lia. rewrite IH by lia. do 2 f_equal. lia.
Qed.
Lemma length_balanced_picks burrows n counter : length (balanced_picks burrows n counter) = n.
Proof.
  revert counter. induction n as [|n IH]; intros counter; [done|]. cbn [balanced_picks].
  destruct (balancedBurrow burrows counter). cbn. by rewrite IH.
Qed.

Lemma balanced_picks_rotate burrows counter :
  burrows ≠ [] → 0 ≤ counter → counter + Z.of_nat (length burrows) ≤ 2 ^ 64 →
  balanced_picks burrows (length burrows) counter = rotate (Z.to_nat counter) (sort_strings burrows).
Proof.
  intros Hne Hc Hn. pose proof (Permutation_length (sort_strings_perm burrows)) as Hl.
  apply list_eq_same_length with (n := length burrows);
    [by rewrite length_rotate | by rewrite length_balanced_picks |].
  intros i x y Hi Hx Hy. rewrite balanced_picks_lookup in Hx by done. injection Hx as <-.
  assert (length burrows ≠ O) as Hz by (by destruct burrows).
  rewrite lookup_rotate_r in Hy by lia. unfold pick. rewrite Hl in Hy |- *.
  unfold rotate_nat_add in Hy. revert Hy.
  replace (Z.of_nat (Z.to_nat counter)) with counter by lia.
  replace (Z.of_nat (Z.to_nat counter) + Z.of_nat i) with (counter + Z.of_nat i) by lia.
  by intros ->.
Qed.

(** metadata reads are spread evenly: as many consecutive ones
    as there are Burrows visit every Burrow exactly once. *)
Theorem balanced_reads_visit_each burrows counter :
  0 ≤ counter → counter + Z.of_nat (length burrows) ≤ 2 ^ 64 →
  balanced_picks burrows (length burrows) counter ≡ₚ burrows.
Proof.
  intros Hc Hn. destruct (decide (burrows = [])) as [->|Hne]; [done|].
  rewrite balanced_picks_rotate by done. unfold rotate. rewrite (comm (++)), take_drop.
  apply sort_strings_perm.
Qed.

(** * Where statements go *)

(** A statement whose outermost node is an INSERT, UPDATE, DELETE or MERGE. *)
Definition dml_statement (tree : message) : Prop :=
  ∃ st m, single_statement tree = Some st ∧ GetNode (Some st) = Some m ∧ msg_name m ∈ write_nodes.

Lemma prepare_dml_write p node m :
  GetNode node = Some m → msg_name m ∈ write_nodes →
  ∃ p', prepare_dml p node = Some p' ∧ plan p' = set_write true (plan p) ∧ read p' = read p.
Proof.
  intros Hn Hm. unfold prepare_dml. rewrite Hn. cbn [mbind option_bind]. unfold write_nodes in Hm.
  repeat (case_decide; [eexists; split_and!; done|]). set_solver.
Qed.

Lemma prepare_tree_dml tree :
  dml_statement tree →
  Write (plan (prepare_tree tree)) = true ∧ SingleBurrow (plan (prepare_tree tree)) = false ∧
  read (prepare_tree tree) = false.
Proof.
  intros (st & m & Hst & Hn & Hm). unfold prepare_tree. rewrite Hst. unfold finish_prepare, prepare_statement.
  rewrite Hn.
  destruct (prepare_dml_write (new_prepared (containsWrite tree) (maxParameterInTree tree)) _ _ Hn Hm)
    as (p' & -> & Hp & Hr).
  cbn [plan set_relations read]. rewrite Hr. destruct (relation p'); cbn; by rewrite Hp.
Qed.

(** [resolve] keeps what [Prepare] put in the plan. *)
Lemma resolve_keeps `{Floats} p parameters registry burrows pl :
  resolve p parameters registry burrows = Some pl →
  Write pl = Write (plan p) ∧ SingleBurrow pl = SingleBurrow (plan p) ∧ Table pl = Table (plan p) ∧
  (relation p = None ∨ Sharded pl = IsSharded registry (Table (plan p))).
Proof.
  unfold resolve. destruct (relation p); [|intros [= <-]; auto].
  repeat first [case_match; [|] | case_match]; intros; simplify_eq; cbn; auto.
Qed.

Lemma analyze_dml `{Floats} tree parameters registry burrows pl :
  dml_statement tree → Analyze (Some (prepare_tree tree)) parameters registry burrows = Some pl →
  Write pl = true ∧ SingleBurrow pl = false ∧
  (Routed pl = true → ∃ columns values,
     routed_plan (prepare_tree tree) parameters registry burrows pl columns values).
Proof.
  intros (HW & HS & HR)%prepare_tree_dml. unfold Analyze. rewrite HR. intros Hr.
  destruct (resolve_keeps _ _ _ _ _ Hr) as (-> & -> & _). split_and!; [done..|].
  by apply resolve_routed, Hr; apply prepare_tree_unresolved.
Qed.

(** A write on a sharded table, or on a table the router could not find, needs
    a shard key. *)
Lemma prepare_tree_no_relation tree :
  relation (prepare_tree tree) = None → Table (plan (prepare_tree tree)) = "".
Proof.
  unfold prepare_tree. destruct (single_statement tree) as [st|]; [|done]. unfold finish_prepare.
  cbn [relation set_relations plan]. intros ->.
  unfold prepare_statement. destruct (GetNode (Some st)) as [m|]; [|done].
  destruct (prepare_dml _ (Some st)) as [p'|] eqn:Hd; [by apply prepare_dml_plan in Hd as [-> _]|].
  case_decide; [done|]. case_decide.
  { destruct (get_list _ "FromClause") as [|from [|]]; [done| |done]. by destruct (_ && _). }
  case_decide; [done|]. case_decide; [|done]. destruct (_ && _); [|done].
  unfold prepareExplainWrite. destruct (prepare_dml _ (get_msg _ "Query")) as [p'|] eqn:Hd'; [|done].
  apply prepare_dml_plan in Hd' as [E _]. cbn [fst]. by rewrite E.
Qed.
Lemma sharded_dml_keyed `{Floats} tree parameters registry burrows pl :
  dml_statement tree → IsSharded registry (Table (plan (prepare_tree tree))) = true →
  Analyze (Some (prepare_tree tree)) parameters registry burrows = Some pl →
  Write pl && (bool_decide (Table pl = "") || Sharded pl) = true.
Proof.
  intros Hdml Hs Ha. destruct (analyze_dml _ _ _ _ _ Hdml Ha) as (-> & _).
  destruct (prepare_tree_dml _ Hdml) as (_ & _ & HR). unfold Analyze in Ha. rewrite HR in Ha.
  destruct (resolve_keeps _ _ _ _ _ Ha) as (_ & _ & HT & Hr). rewrite HT. cbn.
  destruct Hr as [Hr%prepare_tree_no_relation | ->]; [by rewrite Hr | by rewrite Hs, orb_true_r].
Qed.

(** an INSERT, UPDATE, DELETE or MERGE is sent to a single
    Burrow only when its shard key says which one owns the rows, or when its
    table is unsharded and the configured mode keeps such tables on the primary
    Burrow; all other writes go to every Burrow or are rejected. *)
Theorem dml_routed_safely `{Floats} p tree registry burrows d counter :
  dml_statement tree →
  resolveRouteDecision p (Some (prepare_tree tree)) registry burrows = Some (d, counter) →
  routed d = true →
  (∃ pl columns values, Analyze (Some (prepare_tree tree)) [] registry burrows = Some pl ∧
     routed_plan (prepare_tree tree) [] registry burrows pl columns values ∧ target d = Target pl) ∨
  (UnshardedMode p = "primary" ∧ target d = PrimaryBurrow p ∧ keyedWrite d = false).
Proof.
  intros Hdml. unfold resolveRouteDecision, routePortal.
  destruct (Analyze _ _ _ _) as [pl|] eqn:Ha; [|done]. cbn [mbind option_bind].
  destruct (analyze_dml _ _ _ _ _ Hdml Ha) as (HW & HS & Hrouted). unfold routePlan. rewrite HS.
  destruct (Routed pl) eqn:HR; cbn [orb].
  - intros [= <- _] _. left. destruct (Hrouted eq_refl) as (columns & values & Hp).
    by exists pl, columns, values.
  - destruct (_ || Sharded pl) eqn:Hk; [intros [= <- _]; cbn; congruence|].
    destruct (decide _) as [Hm|].
    + intros [= <- _] _. right. cbn. by rewrite andb_false_r.
    + rewrite HW. intros [= <- _]. cbn. congruence.
Qed.

Lemma single_burrow_routed p pl burrows :
  SingleBurrow pl = true → burrows ≠ [] → (UnshardedMode p = "primary" → PrimaryBurrow p ≠ "") →
  "" ∉ burrows →
  let d := (routePlan p pl burrows).1 in
  routed d = true ∧
  (if decide (UnshardedMode p = "primary") then target d = PrimaryBurrow p else target d ∈ burrows).
Proof.
  intros HS Hne Hp Hempty. unfold routePlan. rewrite HS, bool_decide_eq_false_2 by done.
  assert (∀ t, t ∈ burrows → t ≠ "") as Ht by (intros t Hin ->; done).
  destruct (decide (UnshardedMode p = "primary")) as [Hm|].
  { cbn. rewrite bool_decide_eq_true_2 by auto. done. }
  destruct (Deterministic pl).
  - pose proof (balancedBurrow_elem burrows (topologyReadIndex p) Hne) as Hin.
    destruct (balancedBurrow _ _) as [t c]. cbn in Hin |- *. rewrite bool_decide_eq_true_2 by auto. done.
  - cbn. pose proof (randomBurrow_elem burrows (random p) Hne). rewrite bool_decide_eq_true_2 by auto. done.
Qed.

(** a SELECT or SHOW that reads no sharded relation runs on
    exactly one Burrow: the primary one in primary mode, else one of the
    fleet; it never comes back once per Burrow. *)
Theorem unsharded_read_runs_once `{Floats} p tree registry burrows :
  read (prepare_tree tree) = true → readsShardedRelation (prepare_tree tree) registry = false →
  burrows ≠ [] → (UnshardedMode p = "primary" → PrimaryBurrow p ≠ "") → "" ∉ burrows →
  ∃ d counter, resolveRouteDecision p (Some (prepare_tree tree)) registry burrows = Some (d, counter) ∧
    routed d = true ∧
    (if decide (UnshardedMode p = "primary") then target d = PrimaryBurrow p else target d ∈ burrows).
Proof.
  intros Hr Hs Hne Hp Hempty. unfold resolveRouteDecision, routePortal, Analyze. rewrite Hr, Hs.
  cbn [negb mbind option_bind]. eexists _, _. split; [by rewrite <- surjective_pairing|].
  by apply single_burrow_routed.
Qed.

(** when the proxy cannot parse a statement it still sends it
    to one Burrow of the fleet, the same for every statement, so that
    PostgreSQL reports the error. *)
Theorem parser_fallback_in_fleet `{Floats} p registry burrows :
  burrows ≠ [] → "" ∉ burrows →
  ∃ d, resolveRouteDecision p None registry burrows = Some (d, topologyReadIndex p) ∧
    routed d = true ∧ target d ∈ burrows ∧ keyedWrite d = false ∧ scatterError d = "" ∧
    ∀ burrows', burrows' ≡ₚ burrows → parserFallbackBurrow burrows' (PrimaryBurrow p) = target d.
Proof.
  intros Hne Hempty. eexists. split; [reflexivity|]. cbn.
  assert (parserFallbackBurrow burrows (PrimaryBurrow p) ∈ burrows) as Hin.
  { unfold parserFallbackBurrow. rewrite bool_decide_eq_false_2 by done.
    destruct (_ && _) eqn:E; [by apply andb_true_iff in E as [_ E%bool_decide_eq_true]|].
    rewrite <- (sort_strings_perm burrows) at 2. destruct (sort_strings burrows) eqn:Es; [|by left].
    by apply sort_strings_nil in Es. }
  rewrite bool_decide_eq_true_2 by (intros Ht; by rewrite Ht in Hin). split_and!; [done..|].
  intros burrows' Hperm. unfold parserFallbackBurrow. rewrite (sort_strings_unique _ _ Hperm).
  replace (bool_decide (burrows' = [])) with (bool_decide (burrows = [])).
  - assert (PrimaryBurrow p ∈ burrows' ↔ PrimaryBurrow p ∈ burrows) as Hin' by (by rewrite Hperm).
    by rewrite (bool_decide_ext _ _ Hin').
  - apply bool_decide_ext. split; intros ->; [by apply Permutation_nil_r in Hperm | by apply Permutation_nil in Hperm].
Qed.

(** outside primary mode an unsharded table is replicated and a
    plain INSERT, UPDATE or DELETE on it runs on every Burrow, but the same
    write inside a WITH clause of a SELECT counts as a read of unsharded
    tables and changes only one replica. *)
Theorem cte_write_changes_one_replica `{Floats} p tree registry burrows :
  Write (plan (prepare_tree tree)) = true → read (prepare_tree tree) = true →
  readsShardedRelation (prepare_tree tree) registry = false →
  UnshardedMode p ≠ "primary" → burrows ≠ [] → "" ∉ burrows →
  ∃ d counter, resolveRouteDecision p (Some (prepare_tree tree)) registry burrows = Some (d, counter) ∧
    routed d = true ∧ target d ∈ burrows ∧ scatterError d = "".
Proof.
  intros _ Hr Hs Hm Hne Hempty. unfold resolveRouteDecision, routePortal, Analyze. rewrite Hr, Hs.
  cbn [negb mbind option_bind]. eexists _, _. split; [by rewrite <- surjective_pairing|].
  match goal with |- context [routePlan p ?pl burrows] =>
    destruct (single_burrow_routed p pl burrows eq_refl Hne ltac:(done) Hempty) as [HR Ht];
    rewrite decide_False in Ht by done; split_and!; [done..|];
    unfold routePlan; cbn [SingleBurrow] end.
  rewrite bool_decide_eq_false_2 by done. destruct (if decide _ then _ else _). cbn.
  by destruct (prepare_tree_unresolved tree) as (_ & _ & _ & _ & HE).
Qed.

(** * Witnesses *)

Definition in_mode (mode : string) : policy := {|
  UnshardedMode := mode; PrimaryBurrow := "b"; random := Some 7; topologyReadIndex := 41 |}.
Definition currencies_delete : message :=
  Msg "DeleteStmt" [("Relation", FMsg (mk_table "public" "currencies"))].
Definition cte_delete : message :=
  Msg "SelectStmt" [("WithClause", FMsg (Msg "WithClause" [("Ctes", FList [mk_node
      (Msg "CommonTableExpr" [("Ctename", FString "removed"); ("Ctequery", FMsg (mk_node currencies_delete))])])]));
    ("FromClause", FList [mk_node (mk_table "public" "removed")]); ("Op", FEnum "SETOP_NONE")].

Lemma balanced_reads_visit_each_witness : balanced_picks ["b"; "c"; "a"] 3 41 = ["c"; "a"; "b"] ∧
  balanced_picks ["b"; "c"; "a"] 3 41 ≡ₚ ["b"; "c"; "a"].
Proof. split; [reflexivity|]. apply (balanced_reads_visit_each ["b"; "c"; "a"] 41); [done | by_computation]. Defined.

Lemma dml_routed_safely_witness :
  UnshardedMode (in_mode "primary") = "primary" ∧ "b" = PrimaryBurrow (in_mode "primary") ∧ false = false.
Proof.
  destruct (@dml_routed_safely toy_floats (in_mode "primary") (mk_tree currencies_delete) accounts ["a"; "b"]
    {| target := "b"; routed := true; keyedWrite := false; scatterError := "" |} 41)
    as [(pl & columns & values & Ha & Hp & _)|H].
  - exists (mk_node currencies_delete), currencies_delete. split_and!; [reflexivity | reflexivity | by_computation].
  - vm_compute. reflexivity.
  - reflexivity.
  - vm_compute in Ha. injection Ha as <-. destruct Hp as [Hc _]. vm_compute in Hc. discriminate Hc.
  - exact H.
Defined.

Lemma unsharded_read_runs_once_witness :
  ∃ d counter, @resolveRouteDecision toy_floats (in_mode "replicated")
    (Some (prepare_tree (mk_tree (Msg "SelectStmt" [("FromClause", FList [mk_node (mk_table "public" "currencies")])]))))
    accounts ["a"; "b"] = Some (d, counter) ∧ routed d = true ∧ target d ∈ ["a"; "b"].
Proof.
  refine (@unsharded_read_runs_once toy_floats (in_mode "replicated")
    (mk_tree (Msg "SelectStmt" [("FromClause", FList [mk_node (mk_table "public" "currencies")])]))
    accounts ["a"; "b"] _ _ _ _ _).
  - reflexivity.
  - vm_compute. reflexivity.
  - discriminate.
  - discriminate.
  - by_computation.
Defined.

Lemma parser_fallback_in_fleet_witness :
  ∃ d, @resolveRouteDecision toy_floats (in_mode "replicated") None accounts ["c"; "b"] = Some (d, 41) ∧
    routed d = true ∧ target d ∈ ["c"; "b"] ∧ keyedWrite d = false ∧ scatterError d = "" ∧
    ∀ burrows', burrows' ≡ₚ ["c"; "b"] → parserFallbackBurrow burrows' "b" = target d.
Proof.
  refine (@parser_fallback_in_fleet toy_floats (in_mode "replicated") accounts ["c"; "b"] _ _).
  - discriminate.
  - by_computation.
Defined.

Lemma cte_write_changes_one_replica_witness :
  ∃ d counter, @resolveRouteDecision toy_floats (in_mode "replicated")
    (Some (prepare_tree (mk_tree cte_delete))) accounts ["a"; "b"] = Some (d, counter) ∧
    routed d = true ∧ target d ∈ ["a"; "b"] ∧ scatterError d = "".
Proof.
  refine (@cte_write_changes_one_replica toy_floats (in_mode "replicated") (mk_tree cte_delete)
    accounts ["a"; "b"] _ _ _ _ _ _).
  - vm_compute. reflexivity.
  - reflexivity.
  - vm_compute. reflexivity.
  - discriminate.
  - discriminate.
  - by_computation.
Defined.

End routeplan.
