(* ===== verification/CopyRouter.v ===== *)
(** COPY: [internal/copyrouter/copy.go].  A COPY statement becomes a plan; a
    stream cuts the client's bytes into records and names the Burrow that owns
    each row; an output stream merges the COPY streams of several Burrows. *)
From S2P Require Import Prelude.
From S2P Require Import GoStrings.
From S2P Require Import GoNumbers.
From S2P Require Import GoStd.
From S2P Require Import PgQuery.
From S2P Require Import Schema.
From S2P Require Import ShardKey.
From S2P Require Import Router.

Module copyrouter.
Import schema shardkey.

Definition MaxRowBytes : Z := 16 * 2 ^ 20.

Definition NL : byte := byte_of 10.
Definition CR : byte := byte_of 13.
Definition TAB : byte := byte_of 9.
Definition ZERO : byte := byte_of 0.
Definition BACKSLASH : byte := "\"%char.

Definition FormatText : string := "text".
Definition FormatCSV : string := "csv".
Definition FormatBinary : string := "binary".

Record Plan := {
  Table : string;
  Columns : list string;
  From : bool;
  ServerSide : bool;
  Program : bool;
  Sharded : bool;
  Format : string;
  Delimiter : byte;
  Null : string;
  Header : bool;
  Quote : byte;
  Escape : byte;
  Encoding : string;
  keyIndexes : list nat;
  keyTypes : list string;
}.

Inductive error :=
| ParseFailed | NotOneCopy | MustNameRelation | ServerSideRelation | InvalidColumnList
| InvalidOption | DuplicateOption (name : string) | OptionValue (name : string)
| QuoteOnlyCSV | EscapeOnlyCSV | BinaryOption (name : string) | UnsupportedFormat (format : string)
| InvalidDelimiter | QuoteIsDelimiter | UnsupportedEncoding | UnsupportedOptions (names : list string)
| NoColumnList | DuplicateColumn (column : string) | GeneratedKeyOmitted (key : string)
| MissingKey (key : string) | NoKeyTypes | UnsupportedBinaryType (type : string)
| NotSharded | RowTooLong | EndedBeforeHeader | UnterminatedQuote | IncompleteBinary
| ColumnCount (got expected : Z) | NullKey | InvalidUTF8 | InvalidKeyValue
| TrailingEscape | DataAfterQuote | UnexpectedQuote
| InvalidSignature | ExtensionTooLong | FieldTooLong | InvalidFieldCount (count : Z) | DataAfterTrailer
| InvalidBinaryValue | IndexPanic | KeyPanic.

(** * Parsing a COPY statement *)

Definition copyRelationName (relation : message) : string := router.relationName (Some relation).

Definition copyOptionString (node : option message) : option string :=
  match as_node "String" node with
  | Some value => Some (get_string (Some value) "Sval")
  | None =>
    constant ← as_node "A_Const" node;
    if get_bool (Some constant) "Isnull" then None else
    (λ v, get_string (Some v) "Sval") <$> get_msg (Some constant) "Sval"
  end.

Definition copyOptionBool (node : option message) : option bool :=
  match node with
  | None => Some true
  | Some _ =>
    let integer :=
      (λ v, negb (bool_decide (get_int (Some v) "Ival" = 0))) <$> as_node "Integer" node in
    match as_node "String" node with
    | Some value =>
      let s := get_string (Some value) "Sval" in
      if EqualFold s "match" then Some true else ParseBool s
    | None =>
      match as_node "Boolean" node with
      | Some value => Some (get_bool (Some value) "Boolval")
      | None =>
        match as_node "A_Const" node with
        | Some constant =>
          if get_bool (Some constant) "Isnull" then integer else
          match get_msg (Some constant) "Boolval", get_msg (Some constant) "Sval" with
          | Some value, _ => Some (get_bool (Some value) "Boolval")
          | None, Some value => ParseBool (get_string (Some value) "Sval")
          | None, None => integer
          end
        | None => integer
        end
      end
    end
  end.

(** [value, ok := copyOptionString(arg); if !ok || len(value) != 1]. *)
Definition single_byte (arg : option message) : option byte :=
  match copyOptionString arg with
  | Some (String c EmptyString) => Some c
  | _ => None
  end.

Definition set_format (f : string) (p : Plan) : Plan := {|
  Table := Table p; Columns := Columns p; From := From p; ServerSide := ServerSide p;
  Program := Program p; Sharded := Sharded p; Format := f; Delimiter := Delimiter p;
  Null := Null p; Header := Header p; Quote := Quote p; Escape := Escape p;
  Encoding := Encoding p; keyIndexes := keyIndexes p; keyTypes := keyTypes p |}.
Definition set_syntax (p : Plan) (delimiter : byte) (null : string) (header : bool)
    (quote escape : byte) (encoding : string) : Plan := {|
  Table := Table p; Columns := Columns p; From := From p; ServerSide := ServerSide p;
  Program := Program p; Sharded := Sharded p; Format := Format p; Delimiter := delimiter;
  Null := null; Header := header; Quote := quote; Escape := escape;
  Encoding := encoding; keyIndexes := keyIndexes p; keyTypes := keyTypes p |}.
Definition set_keys (indexes : list nat) (types : list string) (p : Plan) : Plan := {|
  Table := Table p; Columns := Columns p; From := From p; ServerSide := ServerSide p;
  Program := Program p; Sharded := Sharded p; Format := Format p; Delimiter := Delimiter p;
  Null := Null p; Header := Header p; Quote := Quote p; Escape := Escape p;
  Encoding := Encoding p; keyIndexes := indexes; keyTypes := types |}.

(** One iteration of the option loop over (plan, seen, unsupported). *)
Definition copy_option (acc : Plan * gset string * list string) (node : message)
    : result error (Plan * gset string * list string) :=
  let '(p, seen, unsupported) := acc in
  match as_node "DefElem" (Some node) with
  | None => Err InvalidOption
  | Some option =>
    let name := ToLower (get_string (Some option) "Defname") in
    let arg := get_msg (Some option) "Arg" in
    if decide (name ∈ seen) then Err (DuplicateOption name) else
    let seen := ({[name]} ∪ seen : gset string) in
    let syntax p := Ok (p, seen, unsupported) in
    if decide (name = "format") then
      value ← or_fail (copyOptionString arg) (OptionValue name);
      syntax (set_format (ToLower value) p)
    else if decide (name = "delimiter") then
      c ← or_fail (single_byte arg) (OptionValue name);
      syntax (set_syntax p c (Null p) (Header p) (Quote p) (Escape p) (Encoding p))
    else if decide (name = "null") then
      value ← or_fail (copyOptionString arg) (OptionValue name);
      syntax (set_syntax p (Delimiter p) value (Header p) (Quote p) (Escape p) (Encoding p))
    else if decide (name = "header") then
      value ← or_fail (copyOptionBool arg) (OptionValue name);
      syntax (set_syntax p (Delimiter p) (Null p) value (Quote p) (Escape p) (Encoding p))
    else if decide (name = "quote") then
      c ← or_fail (single_byte arg) (OptionValue name);
      syntax (set_syntax p (Delimiter p) (Null p) (Header p) c (Escape p) (Encoding p))
    else if decide (name = "escape") then
      c ← or_fail (single_byte arg) (OptionValue name);
      syntax (set_syntax p (Delimiter p) (Null p) (Header p) (Quote p) c (Encoding p))
    else if decide (name = "encoding") then
      value ← or_fail (copyOptionString arg) (OptionValue name);
      syntax (set_syntax p (Delimiter p) (Null p) (Header p) (Quote p) (Escape p)
                (ToUpper (RemoveByte value "-"%char)))
    else Ok (p, seen, unsupported ++ [name])
  end.

(** The switch on the format after the option loop. *)
Definition copy_format (p : Plan) (seen : gset string) : result error Plan :=
  if decide (Format p = FormatText) then
    fail_if (bool_decide ("quote" ∈ seen)) QuoteOnlyCSV;;
    fail_if (bool_decide ("escape" ∈ seen)) EscapeOnlyCSV;;
    Ok p
  else if decide (Format p = FormatCSV) then
    let delimiter := if decide ("delimiter" ∈ seen) then Delimiter p else ","%char in
    let null := if decide ("null" ∈ seen) then Null p else "" in
    let quote := if decide (Quote p = ZERO) then byte_of 34 else Quote p in
    let escape := if decide (Escape p = ZERO) then quote else Escape p in
    Ok (set_syntax p delimiter null (Header p) quote escape (Encoding p))
  else if decide (Format p = FormatBinary) then
    check_all (λ option, fail_if (bool_decide (option ∈ seen)) (BinaryOption option))
      ["delimiter"; "null"; "header"; "quote"; "escape"];;
    Ok p
  else Err (UnsupportedFormat (Format p)).

Definition normalizedType (dataType : string) : string := type_key dataType.

Definition int2_types := ["int2"; "smallint"; "smallserial"; "serial2"].
Definition int4_types := ["int4"; "int"; "integer"; "serial"; "serial4"].
Definition int8_types := ["int8"; "bigint"; "bigserial"; "serial8"].
Definition text_types := ["text"; "varchar"; "character varying"; "name"; "bpchar"; "char"; "character"].
Definition supportedBinaryType (dataType : string) : bool :=
  bool_decide (normalizedType dataType ∈
    int2_types ++ int4_types ++ int8_types ++ ["oid"] ++
    ["float4"; "real"; "float8"; "double precision"; "bool"; "boolean"; "uuid"] ++ text_types).

(** [columnIndexes]: each column of the list once, with its position. *)
Definition column_indexes (columns : list string) : result error (gmap string nat) :=
  mfold (λ m p,
    match m !! p.2 with
    | Some _ => Err (DuplicateColumn p.2)
    | None => Ok (<[p.2 := p.1]> m)
    end) ∅ (enumerate columns).

(** The shard-key part of [Parse], for a sharded COPY FROM. *)
Definition copy_keys (p : Plan) (keys : list string) (unsupported : list string)
    (registry : Registry) : result error Plan :=
  fail_if (bool_decide (Encoding p ≠ "UTF8")) UnsupportedEncoding;;
  fail_if (bool_decide (unsupported ≠ [])) (UnsupportedOptions unsupported);;
  fail_if (bool_decide (Columns p = [])) NoColumnList;;
  columnIndexes ← column_indexes (Columns p);
  indexes ← mmap (λ key,
    match columnIndexes !! key with
    | Some index => Ok index
    | None =>
      match GeneratedPrimaryKey registry (Table p) with
      | Some generated =>
        if decide (Column generated = key) then Err (GeneratedKeyOmitted key) else Err (MissingKey key)
      | None => Err (MissingKey key)
      end
    end) keys;
  types ← or_fail (ShardKeyTypes registry (Table p)) NoKeyTypes;
  fail_if (bool_decide (length types ≠ length keys)) NoKeyTypes;;
  (if decide (Format p = FormatBinary) then
     check_all (λ dataType, fail_if (negb (supportedBinaryType dataType))
                              (UnsupportedBinaryType dataType)) types
   else Ok tt);;
  Ok (set_keys indexes types p).

Definition copy_columns (attlist : list message) : result error (list string) :=
  mmap (λ node,
    match as_node "String" (Some node) with
    | Some column =>
      let name := get_string (Some column) "Sval" in
      if decide (name = "") then Err InvalidColumnList else Ok name
    | None => Err InvalidColumnList
    end) attlist.

Definition parse_copy (statement : message) (registry : Registry) : result error Plan :=
  let s := Some statement in
  let p := {| Table := ""; Columns := []; From := get_bool s "IsFrom";
    ServerSide := negb (bool_decide (get_string s "Filename" = ""));
    Program := get_bool s "IsProgram"; Sharded := false; Format := FormatText;
    Delimiter := TAB; Null := "\N"; Header := false; Quote := ZERO; Escape := ZERO;
    Encoding := "UTF8"; keyIndexes := []; keyTypes := [] |} in
  match get_msg s "Relation" with
  | None =>
    fail_if (From p || bool_decide (get_msg s "Query" = None)) MustNameRelation;;
    fail_if (ServerSide p || Program p) ServerSideRelation;;
    Ok p
  | Some relation =>
    let table := copyRelationName relation in
    columns ← copy_columns (get_list s "Attlist");
    let sharded := IsSharded registry table in
    let p := {| Table := table; Columns := columns; From := From p; ServerSide := ServerSide p;
      Program := Program p; Sharded := sharded; Format := Format p; Delimiter := Delimiter p;
      Null := Null p; Header := Header p; Quote := Quote p; Escape := Escape p;
      Encoding := Encoding p; keyIndexes := []; keyTypes := [] |} in
    if ServerSide p || Program p then Ok p else
    '(p, seen, unsupported) ← mfold copy_option (p, ∅, []) (get_list s "Options");
    p ← copy_format p seen;
    fail_if (bool_decide (Delimiter p = NL ∨ Delimiter p = CR ∨ Delimiter p = ZERO)) InvalidDelimiter;;
    fail_if (bool_decide (Format p = FormatCSV ∧
      (Quote p = Delimiter p ∨ Escape p = Delimiter p))) QuoteIsDelimiter;;
    match ShardKey registry (Table p) with
    | Some keys => if From p then copy_keys p keys unsupported registry else Ok p
    | None => Ok p
    end
  end.

Definition Parse `{PgQuery} (sql : string) (registry : Registry) : result error Plan :=
  tree ← or_fail (PgQuery.Parse sql) ParseFailed;
  statement ← or_fail (st ← router.single_statement tree; as_node "CopyStmt" (Some st)) NotOneCopy;
  parse_copy statement registry.

(** * Delimited records *)

(** The CSV scanner of [delimitedRecordEnd]: the length of the first record
    with its newline, or whether the data ends inside quotes. *)
Fixpoint csv_end (p : Plan) (data : bytes) (inQuotes fieldStart : bool) : option nat * bool :=
  match data with
  | [] => (None, inQuotes)
  | character :: rest =>
    let next n r := ((Nat.add n) <$> r.1, r.2) in
    if inQuotes then
      match rest with
      | d :: rest' =>
        if bool_decide (character = Escape p) && bool_decide (d = Quote p ∨ d = Escape p)
        then next 2%nat (csv_end p rest' inQuotes fieldStart)
        else if decide (character = Quote p) then next 1%nat (csv_end p rest false fieldStart)
        else next 1%nat (csv_end p rest inQuotes fieldStart)
      | [] =>
        if decide (character = Quote p) then next 1%nat (csv_end p rest false fieldStart)
        else next 1%nat (csv_end p rest inQuotes fieldStart)
      end
    else if fieldStart && bool_decide (character = Quote p)
    then next 1%nat (csv_end p rest true false)
    else if decide (character = Delimiter p) then next 1%nat (csv_end p rest inQuotes true)
    else if decide (character = NL) then (Some 1%nat, false)
    else if decide (character = CR) then next 1%nat (csv_end p rest inQuotes fieldStart)
    else next 1%nat (csv_end p rest inQuotes false)
  end.

(** [bytes.IndexByte] and one more. *)
Fixpoint line_end (data : bytes) : option nat :=
  match data with
  | [] => None
  | c :: rest => if decide (c = NL) then Some 1%nat else S <$> line_end rest
  end.

(** [None] stands for the Go result 0. *)
Definition delimitedRecordEnd (data : bytes) (p : Plan) : option nat * bool :=
  if decide (Format p = FormatText) then (line_end data, false)
  else csv_end p data false true.

Definition trimRecordTerminator (record : bytes) : bytes :=
  match rev record with
  | c :: r =>
    if decide (c = NL) then
      match r with
      | d :: r' => if decide (d = CR) then rev r' else rev r
      | [] => []
      end
    else record
  | [] => []
  end.

(** A field: its bytes, or NULL.  ([copyField.quoted] is never read.) *)
Record copyField := { value : bytes; null : bool }.

(** * Text format *)

Fixpoint leading_backslashes (reversed : bytes) : nat :=
  match reversed with
  | c :: r => if decide (c = BACKSLASH) then S (leading_backslashes r) else O
  | [] => O
  end.

(** The splitting loop of [parseTextRecord]; [cur] is [record[start:index]]
    reversed, whose leading backslashes are the ones before [index]. *)
Fixpoint split_text (delimiter : byte) (cur record : bytes) : list bytes :=
  match record with
  | [] => [rev cur]
  | c :: rest =>
    if bool_decide (c = delimiter) && Nat.even (leading_backslashes cur)
    then rev cur :: split_text delimiter [] rest
    else split_text delimiter (c :: cur) rest
  end.

Definition hex_val (c : byte) : option Z :=
  let v := byte_val c in
  if is_digit c then Some (v - 48)
  else if (97 <=? v) && (v <=? 102) then Some (v - 87)
  else if (65 <=? v) && (v <=? 70) then Some (v - 55) else None.
Definition oct_val (c : byte) : option Z :=
  let v := byte_val c in if (48 <=? v) && (v <=? 55) then Some (v - 48) else None.

(** [strconv.ParseUint(_, base, 8)] on digits, its range error ignored: the
    result saturates at 255. *)
Definition saturate (z : Z) : byte := byte_of (Z.min z 255).

Definition simple_escape (c : byte) : option byte :=
  if decide (c = "b"%char) then Some (byte_of 8) else
  if decide (c = "f"%char) then Some (byte_of 12) else
  if decide (c = "n"%char) then Some NL else
  if decide (c = "r"%char) then Some CR else
  if decide (c = "t"%char) then Some TAB else
  if decide (c = "v"%char) then Some (byte_of 11) else None.

Fixpoint decodeTextField (raw : bytes) : result error bytes :=
  match raw with
  | [] => Ok []
  | c :: rest =>
    if negb (bool_decide (c = BACKSLASH)) then cons c <$> decodeTextField rest else
    match rest with
    | [] => Err TrailingEscape
    | e :: rest1 =>
      match simple_escape e with
      | Some b => cons b <$> decodeTextField rest1
      | None =>
        if decide (e = "x"%char) then
          match rest1 with
          | h1 :: rest2 =>
            match hex_val h1 with
            | Some v1 =>
              match rest2 with
              | h2 :: rest3 =>
                match hex_val h2 with
                | Some v2 => cons (saturate (16 * v1 + v2)) <$> decodeTextField rest3
                | None => cons (saturate v1) <$> decodeTextField rest2
                end
              | [] => Ok [saturate v1]
              end
            | None => cons e <$> decodeTextField rest1
            end
          | [] => Ok [e]
          end
        else
        match oct_val e with
        | None => cons e <$> decodeTextField rest1
        | Some v1 =>
          match rest1 with
          | [] => Ok [saturate v1]
          | o2 :: rest2 =>
            match oct_val o2 with
            | None => cons (saturate v1) <$> decodeTextField rest1
            | Some v2 =>
              match rest2 with
              | [] => Ok [saturate (8 * v1 + v2)]
              | o3 :: rest3 =>
                match oct_val o3 with
                | None => cons (saturate (8 * v1 + v2)) <$> decodeTextField rest2
                | Some v3 => cons (saturate (64 * v1 + 8 * v2 + v3)) <$> decodeTextField rest3
                end
              end
            end
          end
        end
      end
    end
  end.

Definition parseTextRecord (record : bytes) (p : Plan) : result error (list copyField) :=
  mmap (λ raw,
    if decide (string_of raw = Null p) then Ok {| value := []; null := true |}
    else value ← decodeTextField raw; Ok {| value := value; null := false |})
    (split_text (Delimiter p) [] record).

(** * CSV format *)

(** The inner loop over a quoted field: its value and what follows it. *)
Fixpoint quoted_field (p : Plan) (record : bytes) (value : bytes) : result error (bytes * bytes) :=
  match record with
  | [] => Err UnterminatedQuote
  | character :: rest =>
    let other :=
      if decide (character = Quote p) then Ok (rev value, rest)
      else quoted_field p rest (character :: value) in
    match rest with
    | d :: rest' =>
      if bool_decide (character = Escape p) && bool_decide (d = Quote p ∨ d = Escape p)
      then quoted_field p rest' (d :: value) else other
    | [] => other
    end
  end.

Fixpoint unquoted_field (p : Plan) (record : bytes) (value : bytes) : result error (bytes * bytes) :=
  match record with
  | [] => Ok (rev value, [])
  | c :: rest =>
    if decide (c = Delimiter p) then Ok (rev value, record)
    else if decide (c = Quote p) then Err UnexpectedQuote
    else unquoted_field p rest (c :: value)
  end.

(** One field at the current position, and the rest of the record. *)
Definition csv_field (p : Plan) (record : bytes) : result error (copyField * bytes) :=
  match record with
  | c :: rest =>
    if decide (c = Quote p) then
      '(v, rest) ← quoted_field p rest [];
      match rest with
      | d :: _ =>
        if decide (d = Delimiter p) then Ok ({| value := v; null := false |}, rest) else Err DataAfterQuote
      | [] => Ok ({| value := v; null := false |}, rest)
      end
    else
      '(v, rest) ← unquoted_field p record [];
      Ok ({| value := v; null := bool_decide (string_of v = Null p) |}, rest)
  | [] => Ok ({| value := []; null := bool_decide ("" = Null p) |}, [])
  end.

(** The outer loop: every iteration but the last consumes a delimiter. *)
Fixpoint csv_fields (fuel : nat) (p : Plan) (record : bytes) : result error (list copyField) :=
  match fuel with
  | O => Err IndexPanic
  | S fuel =>
    '(field, rest) ← csv_field p record;
    match rest with
    | [] => Ok [field]
    | [_] => Ok [field; {| value := []; null := bool_decide (Null p = "") |}]
    | _ :: rest => cons field <$> csv_fields fuel p rest
    end
  end.
Definition parseCSVRecord (record : bytes) (p : Plan) : result error (list copyField) :=
  csv_fields (S (length record)) p record.

(** * Binary format *)

Definition binarySignature : bytes :=
  ["P"; "G"; "C"; "O"; "P"; "Y"]%char ++ [NL; byte_of 255; CR; NL; ZERO].

(** [b[i:i+n]], which panics out of range *)
Definition sub (i n : nat) (b : bytes) : bytes := take n (drop i b).
Definition slice (i n : nat) (b : bytes) : result error bytes :=
  if decide (i + n ≤ length b)%nat then Ok (sub i n b) else Err IndexPanic.
(** [b[:n]] and [b[n:]] *)
Definition cut (n : nat) (b : bytes) : result error (bytes * bytes) :=
  if decide (n ≤ length b)%nat then Ok (take n b, drop n b) else Err IndexPanic.

(** The loop over the fields of one binary row: [Ok None] when the row is not
    complete yet, else its fields ([None] for NULL) and its length. *)
Fixpoint scan_fields (n : nat) (buffer : bytes) (position : nat)
    : result error (option (list (option bytes) * nat)) :=
  match n with
  | O => Ok (Some ([], position))
  | S n =>
    if decide (length buffer < position + 4)%nat then Ok None else
    prefix ← slice position 4 buffer;
    let len := swrap 32 (be_val prefix) in
    let position := (position + 4)%nat in
    if len =? -1 then
      row ← scan_fields n buffer position;
      Ok (option_map (λ r, (None :: r.1, r.2)) row)
    else if (len <? 0) || (MaxRowBytes <? len) || (MaxRowBytes <? Z.of_nat position + len)
    then Err FieldTooLong
    else if decide (length buffer < position + Z.to_nat len)%nat then Ok None
    else
      field ← slice position (Z.to_nat len) buffer;
      row ← scan_fields n buffer (position + Z.to_nat len)%nat;
      Ok (option_map (λ r, (Some field :: r.1, r.2)) row)
  end.

(** The envelope before the rows: [Ok None] when it is not complete yet, else
    its length. *)
Definition scan_header (buffer : bytes) : result error (option nat) :=
  if decide (length buffer < 19)%nat then Ok None else
  signature ← slice 0 (length binarySignature) buffer;
  if decide (signature ≠ binarySignature) then Err InvalidSignature else
  extension ← slice 15 4 buffer;
  let extension := be_val extension in
  if (extension <? 0) || (MaxRowBytes <? extension) then Err ExtensionTooLong else
  let headerLength := (19 + Z.to_nat extension)%nat in
  if decide (length buffer < headerLength)%nat then Ok None else Ok (Some headerLength).

Section keys.
Context `{Floats}.

(** The branches of [decodeBinaryKey]; [w] is the length of the value. *)
Definition fixed (w : nat) (value : bytes) (f : Z → string) : result error string :=
  if decide (length value = w) then Ok (f (be_val value)) else Err InvalidBinaryValue.

Definition decodeBinaryKey (value : bytes) (dataType : string) : result error string :=
  let t := normalizedType dataType in
  if decide (t ∈ int2_types) then fixed 2 value (λ z, FormatInt (swrap 16 z))
  else if decide (t ∈ int4_types) then fixed 4 value (λ z, FormatInt (swrap 32 z))
  else if decide (t ∈ int8_types) then fixed 8 value (λ z, FormatInt (swrap 64 z))
  else if decide (t = "oid") then fixed 4 value FormatInt
  else if decide (t ∈ ["float4"; "real"]) then
    fixed 4 value (λ z, FormatFloat (FloatFromBits z 32) 32)
  else if decide (t ∈ ["float8"; "double precision"]) then
    fixed 8 value (λ z, FormatFloat (FloatFromBits z 64) 64)
  else if decide (t ∈ ["bool"; "boolean"]) then
    match value with
    | [c] => if 1 <? byte_val c then Err InvalidBinaryValue
             else Ok (FormatBool (bool_decide (byte_val c = 1)))
    | _ => Err InvalidBinaryValue
    end
  else if decide (t = "uuid") then
    if decide (length value = 16%nat) then
      parts ← mmap (λ p, EncodeHex <$> slice p.1 p.2 value)
        [(0, 4); (4, 2); (6, 2); (8, 2); (10, 6)]%nat;
      Ok (Join parts "-")
    else Err InvalidBinaryValue
  else if decide (t ∈ text_types) then
    if utf8_valid value then Ok (string_of value) else Err InvalidUTF8
  else Err InvalidBinaryValue.
End keys.

(** * Input streams *)

(** An empty [Target] means every participating Burrow. *)
Record Chunk := { Target : string; Data : bytes }.

(** The mutable fields of [Stream]; plan, registry and Burrows do not change. *)
Record Stream := {
  buffer : bytes;
  headerPending : bool;
  binaryHeader : bool;
  binaryTrailer : bool;
  rows : Z;
}.

Section stream.
Context `{Floats}.
Variables (plan : Plan) (registry : Registry) (burrows : list string).

Definition NewStream : result error Stream :=
  fail_if (negb (From plan) || negb (Sharded plan) || bool_decide (keyIndexes plan = [])) NotSharded;;
  Ok {| buffer := []; headerPending := Header plan; binaryHeader := false;
        binaryTrailer := false; rows := 0 |}.

(** The last part of both row loops: [values] to a Burrow. *)
Definition key_target (values : list string) : result error string :=
  match TargetForTableShardKey (Table plan) values (keyTypes plan) registry burrows with
  | Ok target => if decide (target = "") then Err InvalidKeyValue else Ok target
  | Err Unroutable => Err InvalidKeyValue
  | Err Panicked => Err KeyPanic
  end.

Definition targetForRecord (record : bytes) : result error string :=
  fields ← (if decide (Format plan = FormatCSV) then parseCSVRecord record plan
            else parseTextRecord record plan);
  fail_if (bool_decide (length fields ≠ length (Columns plan)))
    (ColumnCount (Z.of_nat (length fields)) (Z.of_nat (length (Columns plan))));;
  values ← mmap (λ columnIndex,
    field ← or_fail (fields !! columnIndex) IndexPanic;
    fail_if (null field) NullKey;;
    fail_if (negb (utf8_valid (value field))) InvalidUTF8;;
    Ok (string_of (value field))) (keyIndexes plan);
  key_target values.

(** The rest of an iteration of [consumeDelimited] once the record, the first
    [n] bytes of the buffer, is known. *)
Definition cut_record (n : nat) (s : Stream) : result error (Chunk * Stream) :=
  '(record, rest) ← cut n (buffer s);
  let advance count := {| buffer := rest; headerPending := false;
    binaryHeader := binaryHeader s; binaryTrailer := binaryTrailer s; rows := count |} in
  if headerPending s then Ok ({| Target := ""; Data := record |}, advance (rows s)) else
  let trimmed := trimRecordTerminator record in
  if bool_decide (Format plan = FormatText) && bool_decide (trimmed = [BACKSLASH; "."%char])
  then Ok ({| Target := ""; Data := record |}, advance (rows s)) else
  target ← targetForRecord trimmed;
  Ok ({| Target := target; Data := record |}, advance (swrap 64 (rows s + 1))).

(** One iteration of [consumeDelimited]; [None] when the loop ends. *)
Definition next_record (final : bool) (s : Stream) : result error (option (Chunk * Stream)) :=
  if decide (buffer s = []) then Ok None else
  let '(end_, quoted) := delimitedRecordEnd (buffer s) plan in
  match end_ with
  | Some n => Some <$> cut_record n s
  | None =>
    if final then if quoted then Err UnterminatedQuote else Some <$> cut_record (length (buffer s)) s
    else Ok None
  end.

(** One iteration of the row loop of [consumeBinary]. *)
Definition next_binary (s : Stream) : result error (option (Chunk * Stream)) :=
  if bool_decide (length (buffer s) < 2)%nat || binaryTrailer s then Ok None else
  let advance rest trailer count := {| buffer := rest;
    headerPending := headerPending s; binaryHeader := binaryHeader s;
    binaryTrailer := trailer; rows := count |} in
  count ← slice 0 2 (buffer s);
  let columns := swrap 16 (be_val count) in
  if columns =? -1 then
    '(marker, rest) ← cut 2 (buffer s);
    Ok (Some ({| Target := ""; Data := marker |}, advance rest true (rows s)))
  else if (columns <? 0) || negb (columns =? Z.of_nat (length (Columns plan)))
  then Err (ColumnCount columns (Z.of_nat (length (Columns plan)))) else
  row ← scan_fields (Z.to_nat columns) (buffer s) 2;
  match row with
  | None => Ok None
  | Some (fields, position) =>
    values ← mmap (λ p,
      field ← or_fail (fields !! p.2) IndexPanic;
      field ← or_fail field NullKey;
      type ← or_fail (keyTypes plan !! p.1) IndexPanic;
      decodeBinaryKey field type) (enumerate (keyIndexes plan));
    target ← key_target values;
    '(data, rest) ← cut position (buffer s);
    Ok (Some ({| Target := target; Data := data |}, advance rest false (swrap 64 (rows s + 1))))
  end.

(** A loop that repeats [step] until it returns [None]. *)
Fixpoint run (step : Stream → result error (option (Chunk * Stream))) (fuel : nat) (s : Stream)
    : result error (list Chunk * Stream) :=
  match fuel with
  | O => Ok ([], s)
  | S fuel =>
    next ← step s;
    match next with
    | None => Ok ([], s)
    | Some (chunk, s') =>
      '(chunks, s'') ← run step fuel s';
      Ok (chunk :: chunks, s'')
    end
  end.

(** Every iteration shortens the buffer. *)
Definition consumeDelimited (final : bool) (s : Stream) : result error (list Chunk * Stream) :=
  run (next_record final) (S (length (buffer s))) s.

Definition consumeBinary (s : Stream) : result error (list Chunk * Stream) :=
  '(header, s) ←
    (if binaryHeader s then Ok (Some [], s) else
     found ← scan_header (buffer s);
     match found with
     | None => Ok (None, s)
     | Some n =>
       '(envelope, rest) ← cut n (buffer s);
       Ok (Some [{| Target := ""; Data := envelope |}],
           {| buffer := rest; headerPending := headerPending s;
              binaryHeader := true; binaryTrailer := binaryTrailer s; rows := rows s |})
     end);
  match header with
  | None => Ok ([], s)
  | Some header =>
    '(chunks, s) ← run next_binary (S (length (buffer s))) s;
    fail_if (binaryTrailer s && negb (bool_decide (buffer s = []))) DataAfterTrailer;;
    Ok (header ++ chunks, s)
  end.

Definition push (data : bytes) (s : Stream) : Stream := {|
  buffer := buffer s ++ data; headerPending := headerPending s;
  binaryHeader := binaryHeader s; binaryTrailer := binaryTrailer s; rows := rows s |}.

Definition Write (data : bytes) (s : Stream) : result error (list Chunk * Stream) :=
  if decide (data = []) then Ok ([], s) else
  let s := push data s in
  '(chunks, s) ←
    (if decide (Format plan = FormatText ∨ Format plan = FormatCSV) then consumeDelimited false s
     else if decide (Format plan = FormatBinary) then consumeBinary s
     else Ok ([], s));
  fail_if (MaxRowBytes <? Z.of_nat (length (buffer s))) RowTooLong;;
  Ok (chunks, s).

Definition Finish (s : Stream) : result error (list Chunk * Stream) :=
  if decide (Format plan = FormatText ∨ Format plan = FormatCSV) then
    '(chunks, s) ← consumeDelimited true s;
    fail_if (headerPending s) EndedBeforeHeader;;
    Ok (chunks, s)
  else if decide (Format plan = FormatBinary) then
    '(chunks, s) ← consumeBinary s;
    fail_if (negb (bool_decide (buffer s = [])) || negb (binaryHeader s) || negb (binaryTrailer s))
      IncompleteBinary;;
    Ok (chunks, s)
  else Err (UnsupportedFormat (Format plan)).
End stream.

Definition Rows (s : Stream) : Z := rows s.
Definition BufferedBytes (s : Stream) : Z := Z.of_nat (length (buffer s)).

(** * Output streams *)

Record OutputStream := {
  first : bool;
  last_ : bool;
  o_headerPending : bool;
  o_binaryHeader : bool;
  o_binaryTrailer : bool;
  o_buffer : bytes;
}.

Section output.
Variable plan : Plan.

Definition NewOutputStream (index count : Z) : OutputStream := {|
  first := index =? 0; last_ := index =? count - 1;
  o_headerPending := bool_decide (Format plan = FormatCSV) && Header plan && (0 <? index);
  o_binaryHeader := false; o_binaryTrailer := false; o_buffer := [];
|}.

Definition set_output (s : OutputStream) (pending header trailer : bool) (b : bytes) : OutputStream := {|
  first := first s; last_ := last_ s; o_headerPending := pending;
  o_binaryHeader := header; o_binaryTrailer := trailer; o_buffer := b |}.

(** The row loop of [consumeBinaryOutput]. *)
Fixpoint output_rows (fuel : nat) (s : OutputStream) : result error (list bytes * OutputStream) :=
  match fuel with
  | O => Ok ([], s)
  | S fuel =>
    if bool_decide (length (o_buffer s) < 2)%nat || o_binaryTrailer s then Ok ([], s) else
    count ← slice 0 2 (o_buffer s);
    let columns := swrap 16 (be_val count) in
    if columns =? -1 then
      '(marker, rest) ← cut 2 (o_buffer s);
      Ok (if last_ s then [marker] else [],
          set_output s (o_headerPending s) (o_binaryHeader s) true rest)
    else if columns <? 0 then Err (InvalidFieldCount columns) else
    row ← scan_fields (Z.to_nat columns) (o_buffer s) 2;
    match row with
    | None => Ok ([], s)
    | Some (_, position) =>
      '(data, rest) ← cut position (o_buffer s);
      '(parts, s') ← output_rows fuel (set_output s (o_headerPending s) (o_binaryHeader s)
        (o_binaryTrailer s) rest);
      Ok (data :: parts, s')
    end
  end.

Definition consumeBinaryOutput (s : OutputStream) : result error (list bytes * OutputStream) :=
  '(header, s) ←
    (if o_binaryHeader s then Ok (Some [], s) else
     found ← scan_header (o_buffer s);
     match found with
     | None => Ok (None, s)
     | Some n =>
       '(envelope, rest) ← cut n (o_buffer s);
       Ok (Some (if first s then [envelope] else []),
           set_output s (o_headerPending s) true (o_binaryTrailer s) rest)
     end);
  match header with
  | None => Ok ([], s)
  | Some header =>
    '(parts, s) ← output_rows (S (length (o_buffer s))) s;
    fail_if (o_binaryTrailer s && negb (bool_decide (o_buffer s = []))) DataAfterTrailer;;
    Ok (header ++ parts, s)
  end.

Definition o_push (data : bytes) (s : OutputStream) : OutputStream :=
  set_output s (o_headerPending s) (o_binaryHeader s) (o_binaryTrailer s) (o_buffer s ++ data).

(** [(s *OutputStream).Write] *)
Definition OutputWrite (data : bytes) (s : OutputStream) : result error (list bytes * OutputStream) :=
  if decide (data = []) then Ok ([], s) else
  if decide (Format plan = FormatBinary) then
    '(parts, s) ← consumeBinaryOutput (o_push data s);
    fail_if (MaxRowBytes <? Z.of_nat (length (o_buffer s))) RowTooLong;;
    Ok (parts, s)
  else if negb (o_headerPending s) then Ok ([data], s) else
  let s := o_push data s in
  let '(end_, quoted) := delimitedRecordEnd (o_buffer s) plan in
  match end_ with
  | None =>
    fail_if (quoted && (MaxRowBytes <? Z.of_nat (length (o_buffer s)))) RowTooLong;;
    Ok ([], s)
  | Some n =>
    '(_, remainder) ← cut n (o_buffer s);
    let s := set_output s false (o_binaryHeader s) (o_binaryTrailer s) [] in
    Ok (if decide (remainder = []) then [] else [remainder], s)
  end.

(** [(s *OutputStream).Finish] *)
Definition OutputFinish (s : OutputStream) : result error (list bytes * OutputStream) :=
  if decide (Format plan = FormatBinary) then
    '(parts, s) ← consumeBinaryOutput s;
    fail_if (negb (bool_decide (o_buffer s = [])) || negb (o_binaryHeader s) || negb (o_binaryTrailer s))
      IncompleteBinary;;
    Ok (parts, s)
  else
    fail_if (o_headerPending s) EndedBeforeHeader;;
    Ok ([], s).
End output.

(** * Scanning more bytes than needed *)

Lemma sub_app i n (b d : bytes) : (i + n ≤ length b)%nat → sub i n (b ++ d) = sub i n b.
Proof.
  intros H. unfold sub. rewrite drop_app_le by lia. apply take_app_le. rewrite length_drop. lia.
Qed.
Lemma length_sub i n (b : bytes) : (i + n ≤ length b)%nat → length (sub i n b) = n.
Proof. intros H. unfold sub. rewrite length_take, length_drop. lia. Qed.

Lemma slice_ok i n b : (i + n ≤ length b)%nat → slice i n b = Ok (sub i n b).
Proof. intros ?. unfold slice. by rewrite decide_True. Qed.
Lemma cut_ok n b : (n ≤ length b)%nat → cut n b = Ok (take n b, drop n b).
Proof. intros ?. unfold cut. by rewrite decide_True. Qed.
Lemma sub_0 n b : sub 0 n b = take n b.
Proof. done. Qed.

(** A complete row lies within the buffer. *)
Lemma scan_fields_bounds n b pos fields pos' :
  scan_fields n b pos = Ok (Some (fields, pos')) → (pos ≤ length b)%nat →
  (pos ≤ pos' ≤ length b)%nat ∧ length fields = n.
Proof.
  revert pos fields. induction n as [|n IH]; intros pos fields; cbn [scan_fields].
  { intros [= <- <-]. done. }
  case_decide as H1; [done|]. rewrite slice_ok by lia. cbn [mbind result_bind]. cbv zeta.
  set (len := swrap 32 _). intros H Hpos.
  assert (∃ pos1 f fs, (pos ≤ pos1 ≤ length b)%nat ∧ fields = f :: fs ∧
    scan_fields n b pos1 = Ok (Some (fs, pos'))) as (pos1 & f & fs & Hp1 & -> & Hrec).
  { destruct (len =? -1).
    - destruct (scan_fields n b (pos + 4)) as [[[fs p]|]|] eqn:E; cbn in H; try done.
      injection H as <- <-. exists (pos + 4)%nat, None, fs. split_and!; [lia..|done|done].
    - destruct (_ || _ || _); [done|]. case_decide as H2; [done|].
      rewrite slice_ok in H by lia. cbn [mbind result_bind] in H.
      destruct (scan_fields n b _) as [[[fs p]|]|] eqn:E; cbn in H; try done.
      injection H as <- <-. eexists _, _, fs. split_and!; [| |done|exact E]; lia. }
  apply IH in Hrec as [? <-]; [|lia]. cbn. lia.
Qed.

Lemma scan_fields_app n b d pos r :
  scan_fields n b pos = Ok (Some r) → scan_fields n (b ++ d) pos = Ok (Some r).
Proof.
  revert pos r. induction n as [|n IH]; intros pos r; cbn [scan_fields]; [done|].
  rewrite length_app. destruct (decide (length b < pos + 4)%nat) as [|H1]; [done|].
  rewrite (decide_False (P := (_ + _ < _)%nat)) by lia.
  rewrite !slice_ok by (rewrite ?length_app; lia). cbn [mbind result_bind]. cbv zeta.
  rewrite sub_app by lia. set (len := swrap 32 _).
  destruct (len =? -1).
  - destruct (scan_fields n b (pos + 4)) as [[q|]|] eqn:E; try done. by rewrite (IH _ _ E).
  - destruct (_ || _ || _); [done|].
    destruct (decide (length b < pos + 4 + Z.to_nat len)%nat) as [|H2]; [done|].
    rewrite (decide_False (P := (_ + _ < _)%nat)) by lia.
    rewrite !slice_ok by (rewrite ?length_app; lia). cbn [mbind result_bind].
    destruct (scan_fields n b _) as [[q|]|] eqn:E; try done. rewrite (IH _ _ E), sub_app by lia. done.
Qed.

Lemma scan_header_app b d n : scan_header b = Ok (Some n) → scan_header (b ++ d) = Ok (Some n) ∧ (19 ≤ n ≤ length b)%nat.
Proof.
  unfold scan_header. rewrite length_app. case_decide as H1; [done|]. rewrite (decide_False (P := (length b + _ < _)%nat)) by lia.
  rewrite !slice_ok by (rewrite ?length_app; cbn; lia). cbn [mbind result_bind].
  rewrite sub_app by (cbn; lia). case_decide as H2; [done|]. rewrite sub_app by lia. cbv zeta.
  destruct (_ || _); [done|]. case_decide as H3; [done|]. intros [= <-].
  rewrite decide_False by lia. split; [done | lia].
Qed.

(** ** Record ends *)

(** A line of CSV without its newline: every newline in it is inside quotes.
    [csv_line p quoted start l]: [l] goes on to the end of the line when it
    begins inside quotes, or at the start of a field. A quote followed by
    another one, or the escape byte followed by either, is data. *)
Definition escapes (p : Plan) (c : byte) (l : bytes) : Prop :=
  c = Escape p ∧ ∃ d l', l = d :: l' ∧ (d = Quote p ∨ d = Escape p).
Inductive csv_line (p : Plan) : bool → bool → bytes → Prop :=
| csv_line_end start : csv_line p false start []
| csv_line_open l : csv_line p true false l → csv_line p false true (Quote p :: l)
| csv_line_delimiter start l :
    (start = true → Delimiter p ≠ Quote p) → csv_line p false true l → csv_line p false start (Delimiter p :: l)
| csv_line_cr start l :
    (start = true → CR ≠ Quote p) → CR ≠ Delimiter p → csv_line p false start l → csv_line p false start (CR :: l)
| csv_line_byte c start l :
    (start = true → c ≠ Quote p) → c ∉ [Delimiter p; NL; CR] → csv_line p false false l → csv_line p false start (c :: l)
| csv_line_escape d start l :
    d = Quote p ∨ d = Escape p → csv_line p true start l → csv_line p true start (Escape p :: d :: l)
| csv_line_close start l :
    ¬ escapes p (Quote p) l → csv_line p false start l → csv_line p true start (Quote p :: l)
| csv_line_inside c start l :
    c ≠ Quote p → ¬ escapes p c l → csv_line p true start l → csv_line p true start (c :: l).

(** What the scanner finds: the line up to a newline, or all of the data. *)
Definition line_found (p : Plan) (inQuotes fieldStart : bool) (b : bytes) (r : option nat * bool) : Prop :=
  match r with
  | (Some n, _) => ∃ l rest, b = l ++ NL :: rest ∧ n = S (length l) ∧ csv_line p inQuotes fieldStart l
  | (None, false) => csv_line p inQuotes fieldStart b
  | (None, true) => True
  end.
Lemma line_found_app p inQ fS q f pre x :
  line_found p q f x (csv_end p x q f) →
  (∀ l rest, x = l ++ rest → csv_line p q f l → csv_line p inQ fS (pre ++ l)) →
  line_found p inQ fS (pre ++ x) ((Nat.add (length pre)) <$> (csv_end p x q f).1, (csv_end p x q f).2).
Proof.
  intros Hx Hl. destruct (csv_end p x q f) as [[n|] [|]]; cbn in *; try done.
  - destruct Hx as (l & rest & -> & -> & Hline). exists (pre ++ l), rest. rewrite <- app_assoc.
    split_and!; [done|rewrite length_app; lia|eauto].
  - destruct Hx as (l & rest & -> & -> & Hline). exists (pre ++ l), rest. rewrite <- app_assoc.
    split_and!; [done|rewrite length_app; lia|eauto].
  - apply (Hl x []); [by rewrite app_nil_r|done].
Qed.
Lemma escapes_app p c l rest : escapes p c l → escapes p c (l ++ rest).
Proof. intros (-> & d & l' & -> & Hd). split; [done|]. by exists d, (l' ++ rest). Qed.
Lemma csv_end_line p n b : (length b ≤ n)%nat → ∀ inQ fS, line_found p inQ fS b (csv_end p b inQ fS).
Proof.
  revert b. induction n as [|n IH]; intros b Hn inQ fS.
  { destruct b; [|cbn in Hn; lia]. destruct inQ; [done|]. apply csv_line_end. }
  destruct b as [|c b]; [destruct inQ; [done|]; apply csv_line_end|]. cbn [length] in Hn.
  assert (∀ pre x q f, pre ++ x = c :: b → pre ≠ [] →
    (∀ l rest, x = l ++ rest → csv_line p q f l → csv_line p inQ fS (pre ++ l)) →
    line_found p inQ fS (c :: b) ((Nat.add (length pre)) <$> (csv_end p x q f).1, (csv_end p x q f).2)) as Hnext.
  { intros pre x q f E Hpre Hl. rewrite <- E. apply line_found_app; [|done]. apply IH.
    apply (f_equal length) in E. rewrite length_app in E. destruct pre; [done|]. cbn in E. lia. }
  cbn [csv_end]. destruct inQ.
  - assert (¬ escapes p c b → line_found p true fS (c :: b)
      (if decide (c = Quote p) then ((Nat.add 1) <$> (csv_end p b false fS).1, (csv_end p b false fS).2)
       else ((Nat.add 1) <$> (csv_end p b true fS).1, (csv_end p b true fS).2))) as Hone.
    { intros Hesc. assert (∀ l rest, b = l ++ rest → ¬ escapes p c l) as Hl
        by (intros l rest -> He; by apply Hesc, escapes_app).
      destruct (decide (c = Quote p)) as [->|Hc]; [apply (Hnext [Quote p])|apply (Hnext [c])]; try done;
        intros l rest E Hline.
      - apply csv_line_close; [by eapply Hl|done].
      - apply csv_line_inside; [done|by eapply Hl|done]. }
    destruct b as [|d b']; [apply Hone; intros (_ & ? & ? & ? & _); done|].
    destruct (bool_decide (c = Escape p) && _) eqn:He.
    + apply andb_true_iff in He as [->%bool_decide_eq_true Hd%bool_decide_eq_true].
      apply (Hnext [Escape p; d]); [done|done|]. intros l rest _ Hline. by apply csv_line_escape.
    + apply Hone. intros (-> & d' & l' & [= <- <-] & Hd). rewrite !bool_decide_eq_true_2 in He by done. done.
  - destruct (fS && bool_decide (c = Quote p)) eqn:Ho.
    { apply andb_true_iff in Ho as [-> ->%bool_decide_eq_true]. apply (Hnext [Quote p]); [done|done|].
      intros l rest _ Hline. by apply csv_line_open. }
    assert (fS = true → c ≠ Quote p) as Hq by (intros ->; by apply bool_decide_eq_false in Ho).
    destruct (decide (c = Delimiter p)) as [->|Hd]; [apply (Hnext [Delimiter p]); [done..|]; intros l rest _ Hline; by apply csv_line_delimiter|].
    destruct (decide (c = NL)) as [->|Hnl]; [exists [], b; split_and!; [done..|apply csv_line_end]|].
    destruct (decide (c = CR)) as [->|Hcr]; [apply (Hnext [CR]); [done..|]; intros l rest _ Hline; by apply csv_line_cr|].
    apply (Hnext [c]); [done..|]. intros l rest _ Hline. apply csv_line_byte; [done| |done].
    rewrite !elem_of_cons, elem_of_nil. tauto.
Qed.

(** One line of the input, without its newline. *)
Definition data_line (p : Plan) (l : bytes) : Prop :=
  if decide (Format p = FormatText) then NL ∉ l else csv_line p false true l.
Lemma line_end_line b :
  match line_end b with
  | Some n => ∃ l rest, b = l ++ NL :: rest ∧ n = S (length l) ∧ NL ∉ l
  | None => NL ∉ b
  end.
Proof.
  induction b as [|c b IH]; cbn [line_end]; [apply not_elem_of_nil|].
  destruct (decide (c = NL)) as [->|Hc]; [exists [], b; split_and!; [done..|apply not_elem_of_nil]|].
  destruct (line_end b) as [n|]; cbn.
  - destruct IH as (l & rest & -> & -> & Hl). exists (c :: l), rest. split_and!; [done..|].
    rewrite not_elem_of_cons. done.
  - rewrite not_elem_of_cons. done.
Qed.
Lemma delimitedRecordEnd_line p b :
  match delimitedRecordEnd b p with
  | (Some n, _) => ∃ l rest, b = l ++ NL :: rest ∧ n = S (length l) ∧ data_line p l
  | (None, false) => data_line p b
  | (None, true) => True
  end.
Proof.
  unfold delimitedRecordEnd, data_line. destruct (decide (Format p = FormatText)).
  - pose proof (line_end_line b) as Hl. by destruct (line_end b).
  - pose proof (csv_end_line p (length b) b ltac:(lia) false true) as Hl.
    by destruct (csv_end p b false true) as [[k|] [|]].
Qed.

Lemma line_end_app b d n : line_end b = Some n → line_end (b ++ d) = Some n ∧ (0 < n ≤ length b)%nat.
Proof.
  revert n. induction b as [|c b IH]; intros n; cbn; [done|]. case_decide; [intros [= <-]; split; [done | lia]|].
  destruct (line_end b) as [m|]; [|done]. cbn. intros [= <-]. destruct (IH m eq_refl) as [-> ?].
  split; [done | lia].
Qed.

Lemma csv_end_app p n b :
  (length b ≤ n)%nat → ∀ d inQ fS k, (csv_end p b inQ fS).1 = Some k →
  csv_end p (b ++ d) inQ fS = csv_end p b inQ fS ∧ (0 < k ≤ length b)%nat.
Proof.
  revert b. induction n as [|n IH]; intros b Hn d inQ fS k.
  { destruct b; [done | cbn in Hn; lia]. }
  destruct b as [|c b]; [done|]. cbn [length] in Hn.
  assert (∀ m (x : bytes) q f, (length x ≤ n)%nat → (m + length x ≤ length (c :: b))%nat →
    ((Nat.add m) <$> (csv_end p x q f).1 = Some k) →
    ((Nat.add m) <$> (csv_end p (x ++ d) q f).1, (csv_end p (x ++ d) q f).2) =
    ((Nat.add m) <$> (csv_end p x q f).1, (csv_end p x q f).2) ∧ (0 < k ≤ length (c :: b))%nat) as Hnext.
  { intros m x q f Hx Hm Hk. destruct ((csv_end p x q f).1) as [j|] eqn:E; [|done].
    cbn in Hk. injection Hk as <-. destruct (IH x Hx d q f j E) as [-> ?]. rewrite E.
    split; [done|]. cbn [length] in *. lia. }
  rewrite <- app_comm_cons. cbn [csv_end]. destruct inQ.
  - destruct b as [|d' b'].
    + intros Hk. exfalso. revert Hk. destruct (decide _); cbn; done.
    + rewrite <- app_comm_cons. cbn [length] in *. destruct (_ && _).
      * apply (Hnext 2%nat b'); lia.
      * destruct (decide _); apply (Hnext 1%nat (d' :: b')); cbn; lia.
  - destruct (_ && _); [apply (Hnext 1%nat); cbn; lia|].
    destruct (decide _); [apply (Hnext 1%nat); cbn; lia|].
    destruct (decide _); [cbn; intros [= <-]; split; [done | lia]|].
    destruct (decide _); apply (Hnext 1%nat); cbn; lia.
Qed.

Lemma delimitedRecordEnd_app p b d n q :
  delimitedRecordEnd b p = (Some n, q) →
  delimitedRecordEnd (b ++ d) p = (Some n, q) ∧ (0 < n ≤ length b)%nat.
Proof.
  unfold delimitedRecordEnd. destruct (decide (Format p = FormatText)).
  - intros [= H <-]. apply (line_end_app b d) in H as [-> ?]. done.
  - intros H. destruct (csv_end_app p (length b) b) with (d := d) (inQ := false) (fS := true) (k := n)
      as [-> ?]; [done | by rewrite H | done].
Qed.

(** * Loops over a buffer *)

Lemma push_push d1 d2 s : push d2 (push d1 s) = push (d1 ++ d2) s.
Proof. unfold push. cbn. by rewrite app_assoc. Qed.
Lemma push_nil s : push [] s = s.
Proof. destruct s. unfold push. cbn. by rewrite app_nil_r. Qed.

(** What both row loops promise: an iteration emits a non-empty prefix of the
    buffer, and more input does not change what it emits. *)
Class RowPrefix (step : Stream → result error (option (Chunk * Stream))) :=
  rs_prefix s c s' : step s = Ok (Some (c, s')) → buffer s = Data c ++ buffer s' ∧ Data c ≠ [].
Class RowStable (step : Stream → result error (option (Chunk * Stream))) :=
  rs_stable s c s' d : step s = Ok (Some (c, s')) → step (push d s) = Ok (Some (c, push d s')).

Section run.
Context step `{RowPrefix step}.

Lemma run_prefix fuel s cs s' :
  run step fuel s = Ok (cs, s') → buffer s = concat (Data <$> cs) ++ buffer s'.
Proof.
  revert s cs. induction fuel as [|fuel IH]; intros s cs; cbn [run]; [by intros [= <- <-]|].
  destruct (step s) as [[[c s1]|]|] eqn:E; cbn [mbind result_bind]; [| by intros [= <- <-] | done].
  destruct (run step fuel s1) as [[cs1 s2]|] eqn:E2; [|done]. intros [= <- <-].
  apply rs_prefix in E as [-> _]. rewrite (IH _ _ E2). cbn. by rewrite <- app_assoc.
Qed.

(** Fuel above the length of the buffer is enough. *)
Lemma run_fuel f1 f2 s :
  (length (buffer s) < f1)%nat → (length (buffer s) < f2)%nat → run step f1 s = run step f2 s.
Proof.
  revert f2 s. induction f1 as [|f1 IH]; intros [|f2] s H1 H2; try lia. cbn [run].
  destruct (step s) as [[[c s1]|]|] eqn:E; cbn [mbind result_bind]; [|done..].
  apply rs_prefix in E as [E Hne]. rewrite E, length_app in *.
  assert (length (Data c) ≠ O) by (by destruct (Data c)). rewrite (IH f2) by lia. done.
Qed.

Lemma run_done fuel s cs s' :
  (length (buffer s) < fuel)%nat → run step fuel s = Ok (cs, s') → step s' = Ok None.
Proof.
  revert s cs. induction fuel as [|fuel IH]; intros s cs Hf; [lia|]. cbn [run].
  destruct (step s) as [[[c s1]|]|] eqn:E; cbn [mbind result_bind]; [| by intros [= <- <-] | done].
  destruct (run step fuel s1) as [[cs1 s2]|] eqn:E2; [|done]. intros [= <- <-].
  apply rs_prefix in E as [Eb Hne]. apply (IH _ _) in E2; [done|].
  rewrite Eb, length_app in Hf. assert (length (Data c) ≠ O) by (by destruct (Data c)). lia.
Qed.

(** An invariant of the emitted chunks. *)
Lemma run_forall (I : Stream → Prop) (Q : Chunk → Prop) fuel s cs s' :
  (∀ s c s', I s → step s = Ok (Some (c, s')) → I s' ∧ Q c) → I s →
  run step fuel s = Ok (cs, s') → I s' ∧ Forall Q cs.
Proof.
  intros Hstep. revert s cs. induction fuel as [|fuel IH]; intros s cs Hs; cbn [run]; [by intros [= <- <-]|].
  destruct (step s) as [[[c s1]|]|] eqn:E; cbn [mbind result_bind]; [| by intros [= <- <-] | done].
  destruct (run step fuel s1) as [[cs1 s2]|] eqn:E2; [|done]. intros [= <- <-].
  apply Hstep in E as [H1 Hc]; [|done]. apply IH in E2 as [? ?]; [|done]. split; [done | by constructor].
Qed.

(** The loop as Go runs it, without a bound. *)
Inductive loop : Stream → result error (list Chunk * Stream) → Prop :=
| loop_done s : step s = Ok None → loop s (Ok ([], s))
| loop_fails s e : step s = Err e → loop s (Err e)
| loop_next s c s' cs t : step s = Ok (Some (c, s')) → loop s' (Ok (cs, t)) → loop s (Ok (c :: cs, t))
| loop_next_fails s c s' e : step s = Ok (Some (c, s')) → loop s' (Err e) → loop s (Err e).

Lemma loop_unique s r1 r2 : loop s r1 → loop s r2 → r1 = r2.
Proof.
  intros H1. revert r2. induction H1 as [s E|s e E|s c s' cs t E _ IH|s c s' e E _ IH]; intros r2 H2;
    inversion H2 as [? E2|? ? E2|? ? ? ? ? E2 Hl|? ? ? ? E2 Hl]; subst; rewrite E in E2; try congruence.
  - injection E2 as <- <-. apply IH in Hl. congruence.
  - injection E2 as <- <-. by apply IH in Hl.
  - injection E2 as <- <-. by apply IH in Hl.
  - injection E2 as <- <-. apply IH in Hl. congruence.
Qed.

Lemma run_loop fuel s : (length (buffer s) < fuel)%nat → loop s (run step fuel s).
Proof.
  revert s. induction fuel as [|fuel IH]; intros s Hf; [lia|]. cbn [run].
  destruct (step s) as [[[c s1]|]|e] eqn:E; cbn [mbind result_bind]; [|by apply loop_done | by apply loop_fails].
  pose proof E as [Eb Hne]%rs_prefix. rewrite Eb, length_app in Hf.
  assert (length (Data c) ≠ O) by (by destruct (Data c)). specialize (IH s1 ltac:(lia)).
  destruct (run step fuel s1) as [[cs t]|e]; [by eapply loop_next | by eapply loop_next_fails].
Qed.

(** Continuing after more input. *)
Lemma run_push `{!RowStable step} f1 f2 f3 s cs s1 d :
  (length (buffer (push d s)) < f2)%nat → (length (buffer (push d s1)) < f3)%nat →
  run step f1 s = Ok (cs, s1) →
  run step f2 (push d s) =
    ('(cs2, s2) ← run step f3 (push d s1); Ok (cs ++ cs2, s2)).
Proof.
  revert f2 s cs. induction f1 as [|f1 IH]; intros f2 s cs H2 H3; cbn [run].
  - intros [= <- <-]. rewrite (run_fuel f2 f3) by done. destruct (run step f3 _) as [[]|]; done.
  - destruct (step s) as [[[c s']|]|] eqn:E; cbn [mbind result_bind]; [| |done].
    + destruct (run step f1 s') as [[cs1 s2]|] eqn:E2; [|done]. intros [= <- <-].
      destruct f2 as [|f2]; [lia|]. cbn [run]. rewrite (rs_stable _ _ _ d E). cbn [mbind result_bind].
      apply rs_prefix in E as [Eb Hne]. assert (length (Data c) ≠ O) by (by destruct (Data c)).
      rewrite (IH f2 _ cs1); [|cbn in *; rewrite Eb, !length_app in *; lia | done | done].
      destruct (run step f3 _) as [[]|]; done.
    + intros [= <- <-]. rewrite (run_fuel f2 f3) by done. destruct (run step f3 _) as [[]|]; done.
Qed.
End run.

(** Cutting [n] bytes off the buffer and pushing more behind it commute. *)
Lemma take_push n d (s : Stream) : (n ≤ length (buffer s))%nat → take n (buffer (push d s)) = take n (buffer s).
Proof. intros H. cbn. by apply take_app_le. Qed.
Lemma drop_push n d (s : Stream) : (n ≤ length (buffer s))%nat → drop n (buffer (push d s)) = drop n (buffer s) ++ d.
Proof. intros H. cbn. by apply drop_app_le. Qed.

Section stream_lemmas.
Context `{Floats} (plan : Plan) (registry : Registry) (burrows : list string).
Abbreviation next_record := (next_record plan registry burrows).
Abbreviation next_binary := (next_binary plan registry burrows).
Abbreviation Write := (Write plan registry burrows).
Abbreviation Finish := (Finish plan registry burrows).

(** A chunk that [s] may emit: a whole header, an end marker, or a row that
    goes to the Burrow of its key. *)
Definition emitted (s : Stream) (c : Chunk) (s' : Stream) : Prop :=
  (Target c = "" ∧ rows s' = rows s ∧
    (headerPending s = true ∨
     Format plan = FormatText ∧ trimRecordTerminator (Data c) = [BACKSLASH; "."%char])) ∨
  (headerPending s = false ∧ rows s' = swrap 64 (rows s + 1) ∧
    targetForRecord plan registry burrows (trimRecordTerminator (Data c)) = Ok (Target c)).

Lemma cut_record_inv n s c s' :
  cut_record plan registry burrows n s = Ok (c, s') →
  Data c = take n (buffer s) ∧ buffer s' = drop n (buffer s) ∧ headerPending s' = false ∧
  binaryHeader s' = binaryHeader s ∧ binaryTrailer s' = binaryTrailer s ∧ emitted s c s'.
Proof.
  unfold cut_record, emitted, cut. destruct (decide _); [|done]. cbn [mbind result_bind].
  destruct (headerPending s) eqn:Hh; [intros [= <- <-]; naive_solver|].
  destruct (_ && _) eqn:Hend.
  - apply andb_true_iff in Hend as [?%bool_decide_eq_true ?%bool_decide_eq_true].
    intros [= <- <-]. naive_solver.
  - destruct (targetForRecord _ _ _ _) as [t|] eqn:Ht; [|done]. intros [= <- <-]. naive_solver.
Qed.

Lemma cut_record_push n s c s' d :
  (n ≤ length (buffer s))%nat → cut_record plan registry burrows n s = Ok (c, s') →
  cut_record plan registry burrows n (push d s) = Ok (c, push d s').
Proof.
  intros Hn. unfold cut_record. rewrite !cut_ok by (cbn; rewrite ?length_app; lia). cbn [mbind result_bind].
  rewrite take_push, drop_push by done.
  change (headerPending (push d s)) with (headerPending s). change (rows (push d s)) with (rows s).
  destruct (headerPending s); [by intros [= <- <-]|]. destruct (_ && _); [by intros [= <- <-]|].
  destruct (targetForRecord _ _ _ _); [|done]. by intros [= <- <-].
Qed.

(** Which bytes an iteration takes. *)
Lemma next_record_inv final s c s' :
  next_record final s = Ok (Some (c, s')) →
  ∃ n q, cut_record plan registry burrows n s = Ok (c, s') ∧ (0 < n ≤ length (buffer s))%nat ∧
    (delimitedRecordEnd (buffer s) plan = (Some n, q) ∨
     final = true ∧ delimitedRecordEnd (buffer s) plan = (None, false) ∧ n = length (buffer s)).
Proof.
  unfold copyrouter.next_record. destruct (decide (buffer s = [])) as [|Hb]; [done|].
  destruct (delimitedRecordEnd (buffer s) plan) as [[n|] q] eqn:He.
  - destruct (cut_record _ _ _ n s) as [[c' s'']|] eqn:Hc; [|done]. intros [= <- <-].
    apply (delimitedRecordEnd_app _ _ []) in He as [_ Hn]. eauto 10.
  - destruct final, q; try done.
    destruct (cut_record _ _ _ _ s) as [[c' s'']|] eqn:Hc; [|done]. intros [= <- <-].
    exists (length (buffer s)), false. split_and!; [done| |done|auto].
    destruct (buffer s); [done | cbn; lia].
Qed.

#[export] Instance next_record_prefix final : RowPrefix (next_record final).
Proof.
  intros s c s' (n & q & Hc & Hn & _)%next_record_inv. apply cut_record_inv in Hc as (-> & -> & _).
  split; [by rewrite take_drop|]. destruct (buffer s); [cbn in *; lia|]. by destruct n; [lia|].
Qed.

#[export] Instance next_record_stable : RowStable (next_record false).
Proof.
  intros s c s' d (n & q & Hc & Hn & [He|[? _]])%next_record_inv; [|done].
  unfold copyrouter.next_record. destruct (delimitedRecordEnd_app _ _ d _ _ He) as [He' _].
  change (buffer (push d s)) with (buffer s ++ d). rewrite He'.
  rewrite decide_False by (destruct (buffer s); [cbn in *; lia | done]).
  by rewrite (cut_record_push _ _ _ _ _ (proj2 Hn) Hc).
Qed.

(** ** Binary rows *)

(** The key values of a complete row. *)
Definition binary_values (fields : list (option bytes)) : result error (list string) :=
  mmap (λ p,
    field ← or_fail (fields !! p.2) IndexPanic;
    field ← or_fail field NullKey;
    type ← or_fail (keyTypes plan !! p.1) IndexPanic;
    decodeBinaryKey field type) (enumerate (keyIndexes plan)).

Lemma next_binary_inv s c s' :
  next_binary s = Ok (Some (c, s')) →
  ∃ n, Data c = take n (buffer s) ∧ buffer s' = drop n (buffer s) ∧ (2 ≤ n ≤ length (buffer s))%nat ∧
    headerPending s' = headerPending s ∧ binaryHeader s' = binaryHeader s ∧ binaryTrailer s = false ∧
    ((n = 2%nat ∧ swrap 16 (be_val (take 2 (buffer s))) = -1 ∧ Target c = "" ∧
        rows s' = rows s ∧ binaryTrailer s' = true) ∨
     (∃ fields values,
        swrap 16 (be_val (take 2 (buffer s))) = Z.of_nat (length (Columns plan)) ∧
        scan_fields (length (Columns plan)) (buffer s) 2 = Ok (Some (fields, n)) ∧
        binary_values fields = Ok values ∧ key_target plan registry burrows values = Ok (Target c) ∧
        rows s' = swrap 64 (rows s + 1) ∧ binaryTrailer s' = false)).
Proof.
  unfold copyrouter.next_binary. destruct (_ || _) eqn:Hg; [done|].
  apply orb_false_iff in Hg as [Hl%bool_decide_eq_false Ht].
  rewrite slice_ok, sub_0 by lia. cbn [mbind result_bind].
  destruct (Z.eqb_spec (swrap 16 (be_val (take 2 (buffer s)))) (-1)) as [E|E].
  - rewrite cut_ok by lia. intros [= <- <-]. exists 2%nat. split_and!; try done; [lia|]. by left.
  - destruct (_ || _) eqn:Hcol; [done|]. apply orb_false_iff in Hcol as [_ Hcol].
    apply negb_false_iff, Z.eqb_eq in Hcol. rewrite Hcol, Nat2Z.id.
    destruct (scan_fields _ _ _) as [[[fields n]|]|] eqn:Hs; [|done..]. cbn [mbind result_bind].
    fold (binary_values fields).
    destruct (binary_values fields) as [values|] eqn:Hv; [|done]. cbn [mbind result_bind].
    destruct (key_target _ _ _ values) as [t|] eqn:Hk; [|done]. cbn [mbind result_bind].
    destruct (scan_fields_bounds _ _ _ _ _ Hs) as [Hb _]; [lia|].
    rewrite cut_ok by lia. intros [= <- <-]. exists n.
    split_and!; try done; [lia|lia|]. right. eauto 10.
Qed.

#[export] Instance next_binary_prefix : RowPrefix next_binary.
Proof.
  intros s c s' (n & -> & -> & Hn & _)%next_binary_inv. split; [by rewrite take_drop|].
  destruct (buffer s); [cbn in *; lia|]. by destruct n; [lia|].
Qed.

#[export] Instance next_binary_stable : RowStable next_binary.
Proof.
  intros s c s' d Hs0. pose proof Hs0 as (n & _ & _ & Hn & _)%next_binary_inv. revert Hs0.
  unfold copyrouter.next_binary. change (buffer (push d s)) with (buffer s ++ d).
  rewrite length_app.
  rewrite (bool_decide_eq_false_2 (_ < 2)%nat) by lia. rewrite (bool_decide_eq_false_2 (_ + _ < 2)%nat) by lia.
  change (binaryTrailer (push d s)) with (binaryTrailer s). destruct (binaryTrailer s); [done|]. cbn [orb].
  rewrite !slice_ok by (rewrite ?length_app; lia). cbn [mbind result_bind]. rewrite sub_app by lia.
  destruct (_ =? -1).
  { rewrite !cut_ok by (rewrite ?length_app; lia). intros [= <- <-]. cbn. by rewrite take_app_le, drop_app_le by lia. }
  destruct (_ || _); [done|].
  destruct (scan_fields _ (buffer s) _) as [[[fields m]|]|] eqn:Hs; [|done..].
  rewrite (scan_fields_app _ _ _ _ _ Hs). cbn [mbind result_bind].
  destruct (mmap _ _) as [values|]; [|done]. cbn [mbind result_bind].
  destruct (key_target _ _ _ _); [|done]. cbn [mbind result_bind].
  destruct (scan_fields_bounds _ _ _ _ _ Hs) as [Hb _]; [lia|].
  rewrite !cut_ok by (rewrite ?length_app; lia). intros [= <- <-].
  cbn [mbind result_bind]. by rewrite take_app_le, drop_app_le by lia.
Qed.

(** ** Whole calls *)

Abbreviation consumeDelimited := (consumeDelimited plan registry burrows).
Abbreviation consumeBinary := (consumeBinary plan registry burrows).

(** What [Write] does between appending the data and checking the limit. *)
Definition consume (s : Stream) : result error (list Chunk * Stream) :=
  if decide (Format plan = FormatText ∨ Format plan = FormatCSV) then consumeDelimited false s
  else if decide (Format plan = FormatBinary) then consumeBinary s else Ok ([], s).

Lemma consumeBinary_inv s cs s' :
  consumeBinary s = Ok (cs, s') →
  (binaryHeader s = false ∧ scan_header (buffer s) = Ok None ∧ cs = [] ∧ s' = s) ∨
  (∃ header rest sh,
    (binaryHeader s = true ∧ header = [] ∧ sh = s ∨
     ∃ n, binaryHeader s = false ∧ scan_header (buffer s) = Ok (Some n) ∧
       header = [{| Target := ""; Data := take n (buffer s) |}] ∧
       sh = {| buffer := drop n (buffer s); headerPending := headerPending s; binaryHeader := true;
               binaryTrailer := binaryTrailer s; rows := rows s |}) ∧
    run next_binary (S (length (buffer sh))) sh = Ok (rest, s') ∧ cs = header ++ rest ∧
    binaryHeader s' = true ∧ (binaryTrailer s' = true → buffer s' = [])).
Proof.
  assert (∀ sh fuel rest s1, binaryHeader sh = true → run next_binary fuel sh = Ok (rest, s1) →
    binaryHeader s1 = true) as Hh.
  { intros sh fuel rest s1 Hsh Hr.
    refine (proj1 (run_forall next_binary (λ s, binaryHeader s = true) (λ _, True) _ _ _ _ _ Hsh Hr)).
    intros s0 c s0' H0 (n & _ & _ & _ & _ & E & _)%next_binary_inv. cbn in *. split; [congruence | done]. }
  unfold copyrouter.consumeBinary. intros Hc.
  assert (∀ header sh, binaryHeader sh = true →
    ('(chunks, s1) ← run next_binary (S (length (buffer sh))) sh;
     fail_if (binaryTrailer s1 && negb (bool_decide (buffer s1 = []))) DataAfterTrailer;;
     Ok (header ++ chunks, s1)) = Ok (cs, s') →
    ∃ rest, run next_binary (S (length (buffer sh))) sh = Ok (rest, s') ∧ cs = header ++ rest ∧
      binaryHeader s' = true ∧ (binaryTrailer s' = true → buffer s' = [])) as Hrest.
  { intros header sh Hsh. destruct (run _ _ sh) as [[rest s1]|] eqn:Hr; [|done]. cbn [mbind result_bind].
    destruct (binaryTrailer s1) eqn:Ht; cbn [andb fail_if mbind result_bind].
    - case_bool_decide as Hb; cbn [negb fail_if mbind result_bind]; [|done]. intros [= <- <-]. exists rest. eauto.
    - intros [= <- <-]. exists rest. rewrite Ht. split_and!; eauto. done. }
  destruct (binaryHeader s) eqn:Hb.
  - cbn [mbind result_bind] in Hc. apply Hrest in Hc as (rest & ?); [|done]. right. exists [], rest, s. eauto.
  - destruct (scan_header (buffer s)) as [[n|]|] eqn:Hs; cbn [mbind result_bind] in Hc; [| |done].
    + rewrite cut_ok in Hc by (apply (scan_header_app _ []) in Hs; lia). cbn [mbind result_bind] in Hc.
      apply Hrest in Hc as (rest & ?); [|done]. right. eexists _, rest, _. split; [right; eauto | eauto].
    + injection Hc as <- <-. left. eauto.
Qed.

Lemma consume_push d s cs s1 :
  consume s = Ok (cs, s1) →
  consume (push d s) = ('(cs2, s2) ← consume (push d s1); Ok (cs ++ cs2, s2)).
Proof.
  unfold consume. destruct (decide _).
  - apply run_push; [apply _ | apply _ | lia | lia].
  - destruct (decide _); [|by intros [= <- <-]].
    intros Hc. pose proof (consumeBinary_inv _ _ _ Hc) as
      [(Hb & Hs & -> & ->)|(header & rest & sh & Hsh & Hr & -> & Hb1 & Ht)].
    { destruct (consumeBinary (push d s)) as [[]|]; done. }
    assert (consumeBinary (push d s) =
      ('(chunks, s2) ← run next_binary (S (length (buffer (push d sh)))) (push d sh);
       fail_if (binaryTrailer s2 && negb (bool_decide (buffer s2 = []))) DataAfterTrailer;;
       Ok (header ++ chunks, s2))) as ->.
    { unfold copyrouter.consumeBinary. destruct Hsh as [(Hb & -> & ->)|(m & Hb & Hs & -> & ->)].
      - change (binaryHeader (push d s)) with (binaryHeader s). by rewrite Hb.
      - change (binaryHeader (push d s)) with (binaryHeader s). rewrite Hb.
        change (buffer (push d s)) with (buffer s ++ d).
        destruct (scan_header_app _ d _ Hs) as [-> Hn]. cbn [mbind result_bind].
        rewrite cut_ok by (rewrite length_app; lia). cbn [mbind result_bind].
        rewrite take_app_le, drop_app_le by lia. done. }
    rewrite (run_push next_binary _ (S (length (buffer (push d sh))))
      (S (length (buffer (push d s1)))) sh _ s1 d ltac:(lia) ltac:(lia) Hr).
    unfold copyrouter.consumeBinary. change (binaryHeader (push d s1)) with (binaryHeader s1). rewrite Hb1.
    cbn [mbind result_bind]. destruct (run next_binary _ (push d s1)) as [[cs2 s2]|]; [|done].
    cbn [mbind result_bind]. destruct (fail_if _ _); [|done]. cbn. by rewrite <- app_assoc.
Qed.

Lemma consume_prefix s cs s' : consume s = Ok (cs, s') → buffer s = concat (Data <$> cs) ++ buffer s'.
Proof.
  unfold consume. destruct (decide _); [by apply run_prefix; apply _|].
  destruct (decide _); [|by intros [= <- <-]].
  intros [(_ & _ & -> & ->)|(header & rest & sh & Hsh & Hr & -> & _)]%consumeBinary_inv; [done|].
  apply run_prefix in Hr; [|apply _]. rewrite fmap_app, concat_app, <- app_assoc, <- Hr.
  destruct Hsh as [(_ & -> & ->)|(m & _ & _ & -> & ->)]; [done|]. cbn. by rewrite app_nil_r, take_drop.
Qed.

Lemma Write_inv d s cs s' :
  Write d s = Ok (cs, s') →
  (d = [] ∧ cs = [] ∧ s' = s) ∨
  (d ≠ [] ∧ consume (push d s) = Ok (cs, s') ∧ Z.of_nat (length (buffer s')) ≤ MaxRowBytes).
Proof.
  unfold copyrouter.Write. case_decide as Hd; [intros [= <- <-]; by left|]. fold (consume (push d s)).
  destruct (consume (push d s)) as [[cs1 s1]|]; [|done]. cbn [mbind result_bind].
  destruct (Z.ltb_spec MaxRowBytes (Z.of_nat (length (buffer s1)))); [done|].
  intros [= <- <-]. right. done.
Qed.
Lemma Write_ok d s cs s' :
  d ≠ [] → consume (push d s) = Ok (cs, s') → Z.of_nat (length (buffer s')) ≤ MaxRowBytes →
  Write d s = Ok (cs, s').
Proof.
  intros Hd Hc Hl. unfold copyrouter.Write. rewrite decide_False by done. fold (consume (push d s)).
  rewrite Hc. cbn [mbind result_bind]. by rewrite (proj2 (Z.ltb_ge _ _)).
Qed.

(** Several calls of [Write], as the client sends its COPY data messages. *)
Definition feed (fragments : list bytes) (s : Stream) : result error (list Chunk * Stream) :=
  mfold (λ acc d, '(chunks, s) ← Write d acc.2; Ok (acc.1 ++ chunks, s)) ([], s) fragments.

Lemma Write_app d1 d2 s cs1 s1 cs2 s2 :
  Write d1 s = Ok (cs1, s1) → Write d2 s1 = Ok (cs2, s2) → Write (d1 ++ d2) s = Ok (cs1 ++ cs2, s2).
Proof.
  intros [(-> & -> & ->)|(Hd1 & Hc1 & Hl1)]%Write_inv; [done|].
  intros [(-> & -> & ->)|(Hd2 & Hc2 & Hl2)]%Write_inv.
  { rewrite !app_nil_r. by apply Write_ok. }
  apply Write_ok; [by destruct d1 | | done]. rewrite <- push_push.
  rewrite (consume_push _ _ _ _ Hc1), Hc2. done.
Qed.

Lemma feed_app fragments s cs s' :
  feed fragments s = Ok (cs, s') → Write (concat fragments) s = Ok (cs, s').
Proof.
  unfold feed. intros Hf. assert (∀ f pre cs0 s0, Write pre s = Ok (cs0, s0) →
    mfold (λ acc d, '(chunks, s) ← Write d acc.2; Ok (acc.1 ++ chunks, s)) (cs0, s0) f = Ok (cs, s') →
    Write (pre ++ concat f) s = Ok (cs, s')) as Hgen.
  { induction f as [|d f IH]; intros pre cs0 s0 Hpre; cbn [mfold concat].
    - intros [= <- <-]. by rewrite app_nil_r.
    - cbn [fst snd]. destruct (Write d s0) as [[cs1 s1]|] eqn:Hd; [|done]. cbn [mbind result_bind].
      intros Hf'. rewrite app_assoc. eapply IH, Hf'. by eapply Write_app. }
  by apply (Hgen fragments [] [] s).
Qed.

Lemma Write_prefix d s cs s' :
  Write d s = Ok (cs, s') → buffer s ++ d = concat (Data <$> cs) ++ buffer s'.
Proof.
  intros [(-> & -> & ->)|(_ & Hc & _)]%Write_inv; [by rewrite app_nil_r|]. by apply consume_prefix in Hc.
Qed.

Lemma Finish_prefix s cs s' :
  Finish s = Ok (cs, s') → buffer s = concat (Data <$> cs) ∧ buffer s' = [].
Proof.
  unfold copyrouter.Finish. case_decide as Hf.
  - unfold copyrouter.consumeDelimited. destruct (run _ _ s) as [[cs1 s1]|] eqn:Hr; [|done].
    cbn [mbind result_bind]. destruct (headerPending s1); [done|]. intros [= <- <-].
    assert (buffer s1 = []) as Hb.
    { apply run_done in Hr; [|apply _|lia]. unfold copyrouter.next_record in Hr.
      destruct (decide (buffer s1 = [])); [done|].
      destruct (delimitedRecordEnd _ _) as [[m|] q]; [by destruct (cut_record _ _ _ m s1)|].
      destruct q; [done|]. by destruct (cut_record _ _ _ _ s1). }
    split; [|done]. apply run_prefix in Hr; [|apply _]. by rewrite Hb, app_nil_r in Hr.
  - case_decide as Hf2; [|done].
    destruct (consumeBinary s) as [[cs1 s1]|] eqn:Hc; [|done]. cbn [mbind result_bind].
    case_bool_decide as Hb; cbn [negb orb fail_if mbind result_bind]; [|done].
    destruct (_ || _); [done|]. intros [= <- <-]. split; [|done].
    assert (consume s = Ok (cs1, s1)) as Hcs by (unfold consume; by rewrite decide_False, decide_True).
    apply consume_prefix in Hcs. by rewrite Hb, app_nil_r in Hcs.
Qed.

(** The end of binary COPY data. *)
Definition trailer : bytes := [byte_of 255; byte_of 255].

(** ** Where rows go *)

(** The key values of one text or CSV record. *)
Definition record_values (record : bytes) (values : list string) : Prop :=
  ∃ fields,
    (if decide (Format plan = FormatCSV) then parseCSVRecord record plan
     else parseTextRecord record plan) = Ok fields ∧
    length fields = length (Columns plan) ∧
    Forall2 (λ i v, ∃ field, fields !! i = Some field ∧ null field = false ∧
      utf8_valid (value field) = true ∧ v = string_of (value field)) (keyIndexes plan) values.

Lemma key_target_inv values t :
  key_target plan registry burrows values = Ok t →
  t ≠ "" ∧ owns (Table plan) values (keyTypes plan) registry burrows t.
Proof.
  unfold key_target. destruct (TargetForTableShardKey _ _ _ _ _) as [t'|[]] eqn:E; [|done..].
  case_decide; [done|]. intros [= <-]. apply TargetForTableShardKey_inv in E as (? & _). done.
Qed.

Lemma targetForRecord_inv record t :
  targetForRecord plan registry burrows record = Ok t →
  ∃ values, record_values record values ∧ t ≠ "" ∧
    owns (Table plan) values (keyTypes plan) registry burrows t.
Proof.
  unfold targetForRecord. destruct (if decide (Format plan = FormatCSV) then _ else _) as [fields|] eqn:Hf; [|done].
  cbn [mbind result_bind]. case_bool_decide as Hlen; [done|]. cbn [fail_if mbind result_bind].
  destruct (mmap _ _) as [values|] eqn:Hv; [|done]. cbn [mbind result_bind]. intros Ht%key_target_inv.
  exists values. split; [|done]. exists fields. split; [done|]. split; [destruct (decide (length fields = length (Columns plan))); tauto|].
  apply mmap_ok in Hv. eapply Forall2_impl; [exact Hv|]. intros i v Hi. cbn in Hi.
  destruct (fields !! i) as [field|]; [|done]. cbn in Hi. exists field.
  destruct (null field) eqn:Hn; [done|]. cbn in Hi. destruct (utf8_valid (value field)) eqn:Hu; [|done].
  cbn in Hi. by injection Hi as <-.
Qed.

(** ** What the chunks are *)

(** One line of the input; the last one may lack its newline. *)
Definition record (last : bool) (d : bytes) : Prop :=
  ∃ l, data_line plan l ∧ (d = l ++ [NL] ∨ last = true ∧ l ≠ [] ∧ d = l).
(** A row for the Burrow that owns its key. *)
Definition routed_to (values : list string) (c : Chunk) : Prop :=
  Target c ≠ "" ∧ owns (Table plan) values (keyTypes plan) registry burrows (Target c).

(** The chunks of text or CSV input, each one line: the header line, if it is
    still [pending], goes to every Burrow, and so does the end marker of the
    text format; every other line is a row. [final]: the input is complete. *)
Inductive delimited (final : bool) : bool → list Chunk → Prop :=
| delimited_nil pending : delimited final pending []
| delimited_header c cs :
    Target c = "" → record (final && bool_decide (cs = [])) (Data c) →
    delimited final false cs → delimited final true (c :: cs)
| delimited_marker c cs :
    Format plan = FormatText → trimRecordTerminator (Data c) = [BACKSLASH; "."%char] →
    Target c = "" → record (final && bool_decide (cs = [])) (Data c) →
    delimited final false cs → delimited final false (c :: cs)
| delimited_row values c cs :
    record_values (trimRecordTerminator (Data c)) values → routed_to values c →
    record (final && bool_decide (cs = [])) (Data c) →
    delimited final false cs → delimited final false (c :: cs).

Definition binary_field (f : option bytes) : bytes :=
  match f with
  | None => be_bytes 4 (2 ^ 32 - 1)
  | Some v => be_bytes 4 (Z.of_nat (length v)) ++ v
  end.
Definition binary_tuple (c : Chunk) : Prop :=
  ∃ fields values, length fields = length (Columns plan) ∧
    Data c = be_bytes 2 (Z.of_nat (length fields)) ++ concat (binary_field <$> fields) ∧
    binary_values fields = Ok values ∧ routed_to values c.
Definition envelope (d : bytes) : Prop :=
  ∃ flags extension, length flags = 4%nat ∧
    d = binarySignature ++ flags ++ be_bytes 4 (Z.of_nat (length extension)) ++ extension.
Definition everywhere (d : bytes) : Chunk := {| Target := ""; Data := d |}.

(** All the chunks of a COPY. *)
Definition partitioned (cs : list Chunk) : Prop :=
  if decide (Format plan = FormatBinary) then
    ∃ header rows, cs = everywhere header :: rows ++ [everywhere trailer] ∧
      envelope header ∧ Forall binary_tuple rows
  else delimited true (Header plan) cs ∧ (Header plan = true → cs ≠ []).

Lemma record_weaken last d : record false d → record last d.
Proof. intros (l & Hl & [->|[? _]]); [|done]. exists l. auto. Qed.
Lemma delimited_app final pending cs1 cs2 :
  delimited false pending cs1 → delimited final (pending && bool_decide (cs1 = [])) cs2 →
  delimited final pending (cs1 ++ cs2).
Proof.
  assert (∀ c (cs1 cs2 : list Chunk), record (false && bool_decide (cs1 = [])) (Data c) →
    record (final && bool_decide (cs1 ++ cs2 = [])) (Data c)) as Hrec by (intros; by apply record_weaken).
  induction 1 as [pending|c cs1 Ht Hr _ IH|c cs1 Hf Hm Ht Hr _ IH|values c cs1 Hv Ho Hr _ IH]; cbn [app];
    rewrite ?bool_decide_eq_true_2, ?andb_true_r by done; [done|..]; cbn [andb bool_decide]; intros H2;
    rewrite ?andb_false_r in H2.
  - apply delimited_header; auto.
  - apply delimited_marker; auto.
  - eapply delimited_row; eauto.
Qed.

Lemma next_record_delimited final s c s' :
  Format plan ≠ FormatBinary → next_record final s = Ok (Some (c, s')) →
  record (final && bool_decide (buffer s' = [])) (Data c) ∧
  (Target c = "" ∧ headerPending s = true ∨
   headerPending s = false ∧ (
     Target c = "" ∧ Format plan = FormatText ∧ trimRecordTerminator (Data c) = [BACKSLASH; "."%char] ∨
     ∃ values, record_values (trimRecordTerminator (Data c)) values ∧ routed_to values c)) ∧
  headerPending s' = false.
Proof.
  intros Hf (n & q & Hcut & Hn & He)%next_record_inv.
  apply cut_record_inv in Hcut as (Hd & Hb & Hp & _ & _ & Hem).
  split; [|split; [|done]].
  - pose proof (delimitedRecordEnd_line plan (buffer s)) as Hl. destruct He as [He|(-> & He & ->)]; rewrite He in Hl.
    + destruct Hl as (l & rest & E & -> & Hline). apply record_weaken. exists l. split; [done|]. left.
      rewrite Hd, E. change (S (length l)) with (1 + length l)%nat. rewrite Nat.add_comm, cons_middle, app_assoc.
      rewrite take_app_length'; [done|]. rewrite length_app. done.
    + rewrite Hb, drop_all, bool_decide_eq_true_2 by done. exists (buffer s). split; [done|]. right.
      split; [done|]. rewrite Hd, firstn_all. split; [|done]. by destruct (buffer s); [cbn in Hn; lia|].
  - destruct Hem as [(Ht & _ & [Hh|[Hft Hm]])|(Hh & _ & Ht)].
    + by left.
    + destruct (headerPending s); [by left|]. right. split; [done|]. by left.
    + right. split; [done|]. right. apply targetForRecord_inv in Ht as (values & Hv & ? & Ho). by exists values.
Qed.

Lemma run_delimited final fuel s cs s' :
  Format plan ≠ FormatBinary → (length (buffer s) < fuel)%nat → run (next_record final) fuel s = Ok (cs, s') →
  delimited final (headerPending s) cs ∧ headerPending s' = headerPending s && bool_decide (cs = []).
Proof.
  intros Hf. revert s cs. induction fuel as [|fuel IH]; intros s cs Hfuel; [lia|]. cbn [run].
  destruct (next_record final s) as [[[c s1]|]|] eqn:E; cbn [mbind result_bind]; [| |done].
  2:{ intros [= <- <-]. split; [apply delimited_nil|]. by rewrite andb_true_r. }
  destruct (run (next_record final) fuel s1) as [[cs1 s2]|] eqn:E2; [|done]. intros [= <- <-].
  pose proof E as [Eb Hne]%rs_prefix.
  assert (length (buffer s1) < fuel)%nat as Hlt.
  { rewrite Eb, length_app in Hfuel. destruct (Data c); [done|]. cbn in Hfuel. lia. }
  pose proof (IH _ _ Hlt E2) as [Hd Hp]. apply next_record_delimited in E as (Hr & Hc & Hs1); [|done].
  rewrite Hs1 in Hd, Hp. cbn [andb] in Hp. rewrite Hp. split; [|by rewrite andb_false_r].
  assert (record (final && bool_decide (cs1 = [])) (Data c)) as Hr'.
  { destruct final; [|done]. cbn [andb] in *. case_bool_decide as Hb; [|by apply record_weaken].
    destruct fuel; [lia|]. cbn [run] in E2. unfold copyrouter.next_record in E2. rewrite Hb in E2.
    injection E2 as <- _. done. }
  destruct Hc as [[Ht Hh]|[Hh [(Ht & Hft & Hm)|(values & Hv & Ho)]]]; rewrite Hh.
  - by apply delimited_header.
  - by apply delimited_marker.
  - by eapply delimited_row.
Qed.

(** ** Binary input *)

(** A complete row, read as the encoding of its fields. *)
Lemma swrap_neg1 x : length x = 4%nat → swrap 32 (be_val x) = -1 → x = be_bytes 4 (2 ^ 32 - 1).
Proof.
  intros Hl Hs. apply (be_bytes_of 4); [done|]. pose proof (be_val_bounds x) as Hb. rewrite Hl in Hb.
  unfold swrap, wrap in Hs. rewrite Z.mod_small in Hs by (change (256 ^ Z.of_nat 4) with (2 ^ 32) in Hb; lia).
  destruct (decide _); lia.
Qed.
Lemma swrap_nonneg w n x :
  length x = n → w = 8 * Z.of_nat n → 0 < w → 0 ≤ swrap w (be_val x) → x = be_bytes n (swrap w (be_val x)).
Proof.
  intros Hl Hw Hpos Hs. apply be_bytes_of; [done|]. pose proof (be_val_bounds x) as Hb. rewrite Hl in Hb.
  assert (256 ^ Z.of_nat n = 2 ^ w) as E by (rewrite Hw, Z.pow_mul_r by lia; done). rewrite E in Hb.
  revert Hs. unfold swrap, wrap. rewrite Z.mod_small by lia. destruct (decide _); [done|lia].
Qed.
Lemma sub_split i n m (b : bytes) : sub i (n + m) b = sub i n b ++ sub (i + n) m b.
Proof. unfold sub. rewrite <- drop_drop, take_take_drop. done. Qed.
Lemma scan_fields_encoded n b pos fields pos' :
  scan_fields n b pos = Ok (Some (fields, pos')) → (pos ≤ length b)%nat →
  sub pos (pos' - pos) b = concat (binary_field <$> fields).
Proof.
  revert pos fields. induction n as [|n IH]; intros pos fields; cbn [scan_fields].
  { intros [= <- <-] _. by rewrite Nat.sub_diag. }
  case_decide as H1; [done|]. rewrite slice_ok by lia. cbn [mbind result_bind]. cbv zeta.
  pose proof (length_sub pos 4 b ltac:(lia)) as Hl4. set (x := sub pos 4 b) in *. set (len := swrap 32 (be_val x)).
  intros Hs Hpos. destruct (Z.eqb_spec len (-1)) as [Elen|Elen].
  - destruct (scan_fields n b (pos + 4)) as [[[fs p]|]|] eqn:E; cbn in Hs; try done. injection Hs as <- <-.
    destruct (scan_fields_bounds _ _ _ _ _ E) as [Hb _]; [lia|].
    replace (p - pos)%nat with (4 + (p - (pos + 4)))%nat by lia. rewrite sub_split, (IH _ _ E) by lia.
    cbn [fmap list_fmap concat binary_field]. f_equal. by apply swrap_neg1.
  - destruct (_ || _ || _) eqn:Hg; [done|]. rewrite !orb_false_iff in Hg. destruct Hg as [[Hneg _] _].
    apply Z.ltb_ge in Hneg. case_decide as H2; [done|]. rewrite slice_ok in Hs by lia. cbn [mbind result_bind] in Hs.
    destruct (scan_fields n b _) as [[[fs p]|]|] eqn:E; cbn in Hs; try done. injection Hs as <- <-.
    destruct (scan_fields_bounds _ _ _ _ _ E) as [Hb _]; [lia|].
    replace (p - pos)%nat with (4 + (Z.to_nat len + (p - (pos + 4 + Z.to_nat len))))%nat by lia.
    rewrite !sub_split, (IH _ _ E) by lia. cbn [fmap list_fmap concat binary_field].
    rewrite length_sub, Z2Nat.id, <- !app_assoc by lia. f_equal. by apply (swrap_nonneg 32 4).
Qed.
Lemma scan_header_envelope b n : scan_header b = Ok (Some n) → envelope (take n b).
Proof.
  unfold scan_header. case_decide as H1; [done|]. rewrite !slice_ok by (cbn; lia). cbn [mbind result_bind].
  case_decide as Hsig; [done|]. cbv zeta. destruct (_ || _) eqn:Hg; [done|]. case_decide as H2; [done|].
  intros [= <-]. pose proof (length_sub 15 4 b ltac:(lia)) as Hl.
  pose proof (be_val_bounds (sub 15 4 b)) as Hb.
  exists (sub 11 4 b), (sub 19 (Z.to_nat (be_val (sub 15 4 b))) b).
  split; [apply length_sub; lia|]. rewrite length_sub by lia. rewrite Z2Nat.id by lia.
  rewrite <- (be_bytes_of 4 (sub 15 4 b) _ Hl eq_refl).
  set (m := Z.to_nat (be_val (sub 15 4 b))). transitivity (sub 0 (length binarySignature + (4 + (4 + m))) b); [done|].
  by rewrite !sub_split, Hsig.
Qed.

Lemma next_binary_tuple s c s' :
  next_binary s = Ok (Some (c, s')) →
  binaryTrailer s = false ∧
  (c = everywhere trailer ∧ binaryTrailer s' = true ∨ binary_tuple c ∧ binaryTrailer s' = false).
Proof.
  intros (n & Hd & _ & Hn & _ & _ & Ht & [(-> & Hm & Htarget & _ & Ht')|Hrow])%next_binary_inv; (split; [done|]).
  - left. split; [|done]. destruct c as [t d]. cbn in *. subst t. unfold everywhere. f_equal. rewrite Hd.
    assert (length (take 2 (buffer s)) = 2%nat) as Hl by (rewrite length_take; lia).
    change trailer with (be_bytes 2 (2 ^ 16 - 1)). apply (be_bytes_of 2); [done|].
    pose proof (be_val_bounds (take 2 (buffer s))) as Hb. rewrite Hl in Hb.
    unfold swrap, wrap in Hm. rewrite Z.mod_small in Hm by (change (256 ^ Z.of_nat 2) with (2 ^ 16) in Hb; lia).
    destruct (decide _); lia.
  - destruct Hrow as (fields & values & Hcol & Hs & Hv & Hk & _ & Ht'). right. split; [|done].
    apply key_target_inv in Hk as Ho. destruct (scan_fields_bounds _ _ _ _ _ Hs) as [_ Hlen]; [lia|].
    exists fields, values. split_and!; [done| |done..]. rewrite Hd, <- (scan_fields_encoded _ _ _ _ _ Hs) by lia.
    rewrite Hlen, <- Hcol, <- (swrap_nonneg 16 2), <- !sub_0 by (rewrite ?Hcol, ?length_take; lia).
    rewrite <- sub_split. f_equal. lia.
Qed.
Lemma run_binary fuel s cs s' :
  run next_binary fuel s = Ok (cs, s') →
  ∃ rows, Forall binary_tuple rows ∧
    (cs = rows ∧ binaryTrailer s' = binaryTrailer s ∨
     cs = rows ++ [everywhere trailer] ∧ binaryTrailer s = false ∧ binaryTrailer s' = true) ∧
    (binaryTrailer s = true → cs = []).
Proof.
  revert s cs. induction fuel as [|fuel IH]; intros s cs; cbn [run].
  { intros [= <- <-]. exists []. auto. }
  destruct (next_binary s) as [[[c s1]|]|] eqn:E; cbn [mbind result_bind]; [| |done].
  2:{ intros [= <- <-]. exists []. auto. }
  destruct (run next_binary fuel s1) as [[cs1 s2]|] eqn:E2; [|done]. intros [= <- <-].
  apply next_binary_tuple in E as [Ht Hc]. destruct (IH _ _ E2) as (rows & Hrows & Hcs & Hnil). rewrite Ht.
  destruct Hc as [[-> Ht1]|[Hc Ht1]].
  - specialize (Hnil Ht1) as ->. exists []. split; [done|]. split; [|done]. right. split; [done|]. split; [done|].
    rewrite Ht1 in Hcs. destruct Hcs as [[_ ?]|(_ & ? & _)]; [congruence|done].
  - exists (c :: rows). split; [by constructor|]. split; [|done]. rewrite Ht1 in Hcs.
    destruct Hcs as [[-> ?]|(-> & _ & ?)]; [by left|by right].
Qed.

Lemma consume_delimited s cs s' :
  Format plan ≠ FormatBinary → consume s = Ok (cs, s') →
  delimited false (headerPending s) cs ∧ headerPending s' = headerPending s && bool_decide (cs = []).
Proof.
  intros Hf. unfold consume. destruct (decide _); [intros Hr; by apply run_delimited in Hr; [|done|lia]|].
  rewrite decide_False by done. intros [= <- <-]. split; [apply delimited_nil|]. by rewrite andb_true_r.
Qed.
(** The rows that follow the envelope, and the trailer once it has come. *)
Definition binary_rest (closed : bool) (cs : list Chunk) : Prop :=
  ∃ rows, Forall binary_tuple rows ∧ cs = rows ++ if closed then [everywhere trailer] else [].
Lemma consumeBinary_partition s cs s' :
  consumeBinary s = Ok (cs, s') →
  (binaryHeader s = false ∧ binaryHeader s' = false ∧ cs = [] ∧ binaryTrailer s' = binaryTrailer s) ∨
  (binaryHeader s' = true ∧ ∃ rest, binary_rest (binaryTrailer s' && negb (binaryTrailer s)) rest ∧
     (binaryTrailer s = true → binaryTrailer s' = true ∧ rest = []) ∧
     if binaryHeader s then cs = rest else ∃ header, envelope header ∧ cs = everywhere header :: rest).
Proof.
  intros [(Hb & _ & -> & ->)|(header & rest & sh & Hsh & Hr & -> & Hb' & _)]%consumeBinary_inv; [by left|].
  right. split; [done|]. exists rest.
  assert (binaryTrailer sh = binaryTrailer s) as Hsht by (by destruct Hsh as [(_ & _ & ->)|(m & _ & _ & _ & ->)]).
  apply run_binary in Hr as (rows & Hrows & Hcs & Hnil). rewrite Hsht in Hcs, Hnil. split_and!.
  - destruct Hcs as [[-> ->]|(-> & -> & ->)]; exists rows; (split; [done|]); [|done].
    by rewrite andb_negb_r, app_nil_r.
  - intros Ht. split; [|by apply Hnil]. destruct Hcs as [[_ ->]|(_ & ? & _)]; congruence.
  - destruct Hsh as [(-> & -> & _)|(n & -> & Hs & -> & _)]; [done|].
    eexists. split; [by eapply scan_header_envelope|done].
Qed.

Lemma Finish_inv s cs s' :
  Finish s = Ok (cs, s') →
  (Format plan ≠ FormatBinary ∧ consumeDelimited true s = Ok (cs, s')) ∨
  (Format plan = FormatBinary ∧ consumeBinary s = Ok (cs, s')).
Proof.
  unfold copyrouter.Finish. case_decide as Hf.
  - destruct (consumeDelimited true s) as [[cs1 s1]|]; [|done]. cbn [mbind result_bind].
    destruct (headerPending s1); [done|]. intros [= <- <-]. left. split; [|done]. by destruct Hf as [-> | ->].
  - case_decide as Hf2; [|done]. destruct (consumeBinary s) as [[cs1 s1]|]; [|done]. cbn [mbind result_bind].
    destruct (_ || _); [done|]. intros [= <- <-]. by right.
Qed.

(** A completed stream, whichever way its input was cut. *)
Lemma stream_partitioned fragments s cs1 s1 cs2 s2 :
  NewStream plan = Ok s → feed fragments s = Ok (cs1, s1) → Finish s1 = Ok (cs2, s2) →
  partitioned (cs1 ++ cs2).
Proof.
  intros Hnew Hf Hfin. unfold NewStream in Hnew. destruct (fail_if _ _); [|done]. injection Hnew as <-.
  unfold partitioned. destruct (decide (Format plan = FormatBinary)) as [Hb|Hb].
  - assert (cs1 = [] ∧ binaryHeader s1 = false ∧ binaryTrailer s1 = false ∨
      binaryHeader s1 = true ∧ ∃ header rest, envelope header ∧ binary_rest (binaryTrailer s1) rest ∧
        cs1 = everywhere header :: rest) as H1.
    { apply feed_app, Write_inv in Hf as [(_ & -> & ->)|(_ & Hc & _)]; [by left|].
      unfold consume in Hc. rewrite Hb, decide_False, decide_True in Hc by naive_solver.
      apply consumeBinary_partition in Hc as [(_ & ? & -> & ?)|(? & rest & Hrest & _ & header & ? & ->)]; [by left|].
      right. split; [done|]. exists header, rest. cbn in Hrest. by rewrite andb_true_r in Hrest. }
    unfold copyrouter.Finish in Hfin. rewrite Hb, decide_False, decide_True in Hfin by naive_solver.
    destruct (consumeBinary s1) as [[cs3 s3]|] eqn:Hc; [|done]. cbn [mbind result_bind] in Hfin.
    destruct (_ || _ || _) eqn:Hg; [done|]. injection Hfin as <- <-. rewrite !orb_false_iff, !negb_false_iff in Hg.
    destruct Hg as [[_ Hh3] Ht3]. apply consumeBinary_partition in Hc as [(_ & ? & _)|(_ & rest & Hrest & Hclosed & Hcs3)]; [congruence|].
    rewrite Ht3 in Hrest. cbn [andb] in Hrest.
    destruct H1 as [(-> & Hh1 & Ht1)|(Hh1 & header & rest1 & He & (rows1 & Hrows1 & ->) & ->)]; rewrite Hh1 in Hcs3.
    + destruct Hcs3 as (header & He & ->). rewrite Ht1 in Hrest. destruct Hrest as (rows & Hrows & ->).
      by exists header, rows.
    + subst cs3. destruct Hrest as (rows & Hrows & ->). exists header. destruct (binaryTrailer s1) eqn:Ht1.
      * exists rows1. destruct (Hclosed eq_refl) as [_ Hnil]. cbn [negb] in Hnil |- *. rewrite Hnil. by rewrite app_nil_r.
      * exists (rows1 ++ rows). rewrite app_nil_r. cbn [negb app]. rewrite app_assoc. split; [done|]. split; [done|].
        by apply Forall_app.
  - assert (delimited false (Header plan) cs1 ∧ headerPending s1 = Header plan && bool_decide (cs1 = [])) as [H1 Hp1].
    { apply feed_app, Write_inv in Hf as [(_ & -> & ->)|(_ & Hc & _)].
      - split; [apply delimited_nil|]. cbn. by rewrite andb_true_r.
      - by apply consume_delimited in Hc. }
    unfold copyrouter.Finish in Hfin. case_decide as Hf2; [|rewrite decide_False in Hfin by done; done].
    destruct (consumeDelimited true s1) as [[cs3 s3]|] eqn:Hc; [|done]. cbn [mbind result_bind] in Hfin.
    destruct (headerPending s3) eqn:Hp3; [done|]. injection Hfin as <- <-.
    apply (run_delimited true) in Hc as [H2 Hp]; [|done|lia]. rewrite Hp1 in H2, Hp. split; [by apply delimited_app|].
    intros Hh [-> ->]%app_eq_nil. rewrite Hh, Hp3 in Hp. done.
Qed.

Lemma delimited_owned final pending cs :
  delimited final pending cs → Forall (λ c, Target c ≠ "" → ∃ values types, owns (Table plan) values types registry burrows (Target c)) cs.
Proof.
  induction 1 as [pending|c cs Ht _ _ IH|c cs _ _ Ht _ _ IH|values c cs _ [_ Ho] _ _ IH]; constructor; try done; eauto.
Qed.
Lemma partitioned_owned cs :
  partitioned cs → Forall (λ c, Target c ≠ "" → ∃ values types, owns (Table plan) values types registry burrows (Target c)) cs.
Proof.
  unfold partitioned. destruct (decide _).
  - intros (header & rows & -> & _ & Hrows). constructor; [done|]. apply Forall_app. split; [|by repeat constructor].
    eapply Forall_impl; [exact Hrows|]. intros c (fields & values & _ & _ & _ & _ & Ho) _. eauto.
  - intros [Hd _]. by eapply delimited_owned.
Qed.

(** ** How many rows *)

(** The chunks of rows; the others go to every Burrow. *)
Definition row_chunks (cs : list Chunk) : list Chunk := filter (λ c, Target c ≠ "") cs.
Definition count_rows (cs : list Chunk) (s s' : Stream) : Prop :=
  rows s' = swrap 64 (rows s + Z.of_nat (length (row_chunks cs))).

Lemma count_rows_nil s : rows s = swrap 64 (rows s) → count_rows [] s s.
Proof. unfold count_rows. cbn. by rewrite Z.add_0_r. Qed.
Lemma count_rows_app cs1 cs2 s s1 s2 : count_rows cs1 s s1 → count_rows cs2 s1 s2 → count_rows (cs1 ++ cs2) s s2.
Proof.
  unfold count_rows, row_chunks. intros E1 ->. rewrite E1, swrap_add_l, filter_app, length_app.
  f_equal. lia.
Qed.
Lemma count_rows_wrapped cs s s' : count_rows cs s s' → rows s' = swrap 64 (rows s').
Proof. intros ->. by rewrite swrap_idem. Qed.
Lemma count_row c s s' :
  rows s = swrap 64 (rows s) →
  Target c = "" ∧ rows s' = rows s ∨ Target c ≠ "" ∧ rows s' = swrap 64 (rows s + 1) → count_rows [c] s s'.
Proof.
  intros Hs. unfold count_rows, row_chunks. intros [[Ht ->]|[Ht ->]].
  - rewrite filter_cons_False by tauto. cbn. by rewrite Z.add_0_r.
  - by rewrite filter_cons_True by done.
Qed.

Lemma next_record_rows final s c s' :
  rows s = swrap 64 (rows s) → next_record final s = Ok (Some (c, s')) → count_rows [c] s s'.
Proof.
  intros Hs (n & q & (_ & _ & _ & _ & _ & [(? & ? & _)|(_ & ? & Ht)])%cut_record_inv & _)%next_record_inv;
    apply count_row; try done; [by left|].
  right. apply targetForRecord_inv in Ht as (_ & _ & ? & _). done.
Qed.
Lemma next_binary_rows s c s' :
  rows s = swrap 64 (rows s) → next_binary s = Ok (Some (c, s')) → count_rows [c] s s'.
Proof.
  intros Hs (n & _ & _ & _ & _ & _ & _ & [(_ & _ & ? & ? & _)|Hrow])%next_binary_inv;
    apply count_row; try done; [by left|].
  right. destruct Hrow as (_ & values & _ & _ & _ & Hk & ? & _). apply key_target_inv in Hk as [? _]. done.
Qed.

Lemma run_rows (step : Stream → result error (option (Chunk * Stream))) fuel s cs s' :
  (∀ s c s', rows s = swrap 64 (rows s) → step s = Ok (Some (c, s')) → count_rows [c] s s') →
  rows s = swrap 64 (rows s) → run step fuel s = Ok (cs, s') → count_rows cs s s'.
Proof.
  intros Hstep. revert s cs. induction fuel as [|fuel IH]; intros s cs Hs; cbn [run];
    [intros [= <- <-]; by apply count_rows_nil|].
  destruct (step s) as [[[c s1]|]|] eqn:E; cbn [mbind result_bind]; [|intros [= <- <-]; by apply count_rows_nil|done].
  destruct (run step fuel s1) as [[cs1 s2]|] eqn:E2; [|done]. intros [= <- <-].
  apply Hstep in E; [|done]. apply (count_rows_app [c] cs1 s s1); [done|]. apply IH; [|done].
  by eapply count_rows_wrapped.
Qed.

Lemma consumeBinary_rows s cs s' :
  rows s = swrap 64 (rows s) → consumeBinary s = Ok (cs, s') → count_rows cs s s'.
Proof.
  intros Hs [(_ & _ & -> & ->)|(header & rest & sh & Hsh & Hr & -> & _)]%consumeBinary_inv; [by apply count_rows_nil|].
  assert (count_rows header s sh) as Hh.
  { destruct Hsh as [(_ & -> & ->)|(n & _ & _ & -> & ->)]; [by apply count_rows_nil|]. apply count_row; [done|]. by left. }
  eapply count_rows_app; [done|]. eapply run_rows; [exact next_binary_rows| |exact Hr]. by eapply count_rows_wrapped.
Qed.
Lemma consume_rows s cs s' : rows s = swrap 64 (rows s) → consume s = Ok (cs, s') → count_rows cs s s'.
Proof.
  intros Hs. unfold consume. destruct (decide _); [apply run_rows; [apply next_record_rows | done]|].
  destruct (decide _); [by apply consumeBinary_rows|]. intros [= <- <-]. by apply count_rows_nil.
Qed.
Lemma Finish_rows s cs s' : rows s = swrap 64 (rows s) → Finish s = Ok (cs, s') → count_rows cs s s'.
Proof.
  intros Hs [[_ Hc]|[_ Hc]]%Finish_inv; [|by apply consumeBinary_rows].
  eapply run_rows; [apply next_record_rows | done | exact Hc].
Qed.
Lemma feed_rows fragments s cs s' :
  rows s = swrap 64 (rows s) → feed fragments s = Ok (cs, s') → count_rows cs s s'.
Proof.
  intros Hs [(_ & -> & ->)|(_ & Hc & _)]%feed_app%Write_inv; [by apply count_rows_nil|].
  by apply consume_rows in Hc.
Qed.

(** The number of rows a completed stream reports. *)
Lemma stream_rows fragments s cs1 s1 cs2 s2 :
  NewStream plan = Ok s → feed fragments s = Ok (cs1, s1) → Finish s1 = Ok (cs2, s2) →
  Rows s2 = swrap 64 (Z.of_nat (length (row_chunks (cs1 ++ cs2)))).
Proof.
  intros Hnew Hf Hfin. unfold NewStream in Hnew. destruct (fail_if _ _); [|done]. injection Hnew as <-.
  assert (rows {| buffer := []; headerPending := Header plan; binaryHeader := false; binaryTrailer := false; rows := 0 |}
    = swrap 64 0) as H0 by done.
  pose proof (feed_rows _ _ _ _ H0 Hf) as H1. pose proof (Finish_rows _ _ _ (count_rows_wrapped _ _ _ H1) Hfin) as H2.
  pose proof (count_rows_app _ _ _ _ _ H1 H2) as Hall. exact Hall.
Qed.

(** ** Properties of streams *)

(** C25: how the client cuts its COPY data into messages does not
    matter: whenever the fragments are accepted one by one, sending them as one
    message yields the same chunks and leaves the stream in the same state. *)
Theorem Write_fragmentation fragments s cs s' :
  feed fragments s = Ok (cs, s') → Write (concat fragments) s = Ok (cs, s').
Proof. exact (feed_app fragments s cs s'). Qed.

(** from the first byte to [Finish], the chunks of a COPY put
    together are exactly the bytes the client sent; none is lost, added or
    reordered, and nothing stays behind. *)
Theorem stream_preserves_bytes fragments s cs1 s1 cs2 s2 :
  NewStream plan = Ok s → feed fragments s = Ok (cs1, s1) → Finish s1 = Ok (cs2, s2) →
  concat (Data <$> cs1 ++ cs2) = concat fragments ∧ buffer s2 = [].
Proof.
  intros Hnew Hf [Hfin He]%Finish_prefix. split; [|done].
  apply feed_app, Write_prefix in Hf. unfold NewStream in Hnew. destruct (fail_if _ _); [|done].
  injection Hnew as <-. cbn in Hf. by rewrite fmap_app, concat_app, <- Hfin.
Qed.

(** C5: where the data of a sharded COPY goes. The chunks of a completed stream,
    put together, are exactly the bytes the client sent. In text and CSV each is
    one line, that is, up to the first newline, or, in CSV, the first newline
    outside quotes; the header line and the end marker of the text format go to
    every Burrow, every other line to the owner of the vshard of the shard key
    its fields have. In binary the envelope comes first and the trailer last,
    both for every Burrow, and each chunk between them is the encoding of one
    tuple of the right number of fields, for the owner of its key. *)
Theorem stream_routes_rows fragments s cs1 s1 cs2 s2 :
  NewStream plan = Ok s → feed fragments s = Ok (cs1, s1) → Finish s1 = Ok (cs2, s2) →
  concat (Data <$> cs1 ++ cs2) = concat fragments ∧ partitioned (cs1 ++ cs2).
Proof.
  intros Hnew Hf Hfin. split; [|by eapply stream_partitioned].
  apply Finish_prefix in Hfin as [Hfin _]. apply feed_app, Write_prefix in Hf. unfold NewStream in Hnew.
  destruct (fail_if _ _); [|done]. injection Hnew as <-. cbn in Hf. by rewrite fmap_app, concat_app, <- Hfin.
Qed.
End stream_lemmas.

(** * Plans *)

(** The fields that options do not change. *)
Definition same_target (p q : Plan) : Prop :=
  Table p = Table q ∧ Columns p = Columns q ∧ From p = From q ∧ ServerSide p = ServerSide q ∧
  Program p = Program q ∧ Sharded p = Sharded q ∧ keyIndexes p = keyIndexes q ∧ keyTypes p = keyTypes q.

Lemma copy_option_target p seen u node p' seen' u' :
  copy_option (p, seen, u) node = Ok (p', seen', u') → same_target p p'.
Proof.
  unfold copy_option. destruct (as_node "DefElem" (Some node)) as [o|]; [|done].
  cbv zeta. case_decide; [done|].
  repeat (case_decide; [unfold or_fail; match goal with |- mbind _ (match ?x with _ => _ end) = _ → _ =>
    destruct x; [|done] end; cbn [mbind result_bind]; intros [= <- <- <-]; done|]).
  intros [= <- <- <-]. done.
Qed.
Lemma copy_options_target p options p' seen u :
  mfold copy_option (p, ∅, []) options = Ok (p', seen, u) → same_target p p'.
Proof.
  intros Hf. refine (mfold_ind copy_option (λ _ acc, same_target p acc.1.1) _ _ _ Hf _ _); [done|].
  intros ds b rest [[x sx] ux] [[y sy] uy] _ Hx Hy%copy_option_target. cbn in *.
  unfold same_target in *. naive_solver congruence.
Qed.
Lemma copy_format_target p seen p' : copy_format p seen = Ok p' → same_target p p'.
Proof.
  unfold copy_format. case_decide.
  { destruct (fail_if _ QuoteOnlyCSV); [|done]. cbn [mbind result_bind]. destruct (fail_if _ EscapeOnlyCSV); [|done]. by intros [= <-]. }
  case_decide; [by intros [= <-]|]. case_decide; [|done].
  destruct (check_all _ _); [|done]. by intros [= <-].
Qed.

Lemma column_indexes_spec columns m c i :
  column_indexes columns = Ok m → m !! c = Some i → columns !! i = Some c.
Proof.
  unfold column_indexes. intros Hf. revert c i.
  refine (mfold_ind _ (λ _ m, ∀ c i, m !! c = Some i → columns !! i = Some c) _ _ _ Hf _ _); [done|].
  intros ds [i c] rest m1 m2 Hl IH. cbn. destruct (m1 !! c); [done|]. intros [= <-] c' i'.
  destruct (decide (c = c')) as [->|Hne]; [|rewrite lookup_insert_ne by done; apply IH].
  rewrite lookup_insert_eq. intros [= <-].
  assert ((i, c') ∈ enumerate columns) as Hin by (rewrite Hl; set_solver).
  by apply enumerate_elem in Hin.
Qed.

(** The shard-key columns of a plan that routes rows. *)
Record plan_keys (p : Plan) (registry : Registry) : Prop := {
  pk_keys : ∃ keys, ShardKey registry (Table p) = Some keys ∧
    Forall2 (λ i key, Columns p !! i = Some key) (keyIndexes p) keys;
  pk_types : ShardKeyTypes registry (Table p) = Some (keyTypes p) ∧
    length (keyTypes p) = length (keyIndexes p);
  pk_binary : Format p = FormatBinary → Forall (λ t, supportedBinaryType t = true) (keyTypes p);
  pk_encoding : Encoding p = "UTF8";
}.

Lemma copy_keys_ok p keys unsupported registry p' :
  ShardKey registry (Table p) = Some keys → copy_keys p keys unsupported registry = Ok p' →
  plan_keys p' registry.
Proof.
  intros Hk. unfold copy_keys. intros Hc.
  destruct (fail_if _ UnsupportedEncoding) eqn:He; [|done]. cbn [mbind result_bind] in Hc.
  destruct (fail_if _ (UnsupportedOptions _)); [|done]. cbn [mbind result_bind] in Hc.
  destruct (fail_if _ NoColumnList); [|done]. cbn [mbind result_bind] in Hc.
  destruct (column_indexes (Columns p)) as [m|] eqn:Hm; [|done]. cbn [mbind result_bind] in Hc.
  destruct (mmap _ keys) as [indexes|] eqn:Hi; [|done]. cbn [mbind result_bind] in Hc.
  destruct (ShardKeyTypes registry (Table p)) as [types|] eqn:Ht; [|done]. cbn [or_fail mbind result_bind] in Hc.
  destruct (fail_if (bool_decide _) NoKeyTypes) eqn:Hl; [|done]. cbn [mbind result_bind] in Hc.
  destruct (if decide (Format p = FormatBinary) then _ else _) as [[]|] eqn:Hb; [|done]. injection Hc as <-.
  apply mmap_ok in Hi. unfold fail_if in He, Hl.
  destruct (bool_decide (length types ≠ length keys)) eqn:E; [done|]. apply bool_decide_eq_false in E.
  split; cbn [set_keys Table keyIndexes keyTypes Format Encoding Columns].
  - exists keys. split; [done|]. apply Forall2_flip. eapply Forall2_impl; [exact Hi|]. intros key i. cbn.
    destruct (m !! key) as [j|] eqn:Hj; [|repeat case_match; done]. intros [= <-].
    by eapply column_indexes_spec.
  - split; [done|]. apply Forall2_length in Hi. destruct (decide (length types = length keys)); [lia | tauto].
  - intros Hf. rewrite decide_True in Hb by done. apply check_all_ok in Hb.
    eapply Forall_impl; [exact Hb|]. intros t. cbn. unfold fail_if. by destruct (supportedBinaryType t).
  - case_bool_decide as Hen; [done|]. destruct (decide (Encoding p = "UTF8")); tauto.
Qed.

(** a COPY FROM STDIN plan for a sharded table knows where every
    component of the shard key is: its key indexes point, in key order, to the
    key columns of the column list, and each has a type that can be decoded. *)
Theorem parse_copy_keys statement registry p :
  parse_copy statement registry = Ok p →
  From p = true → Sharded p = true → ServerSide p = false → Program p = false →
  plan_keys p registry.
Proof.
  unfold parse_copy. cbv zeta. destruct (get_msg (Some statement) "Relation") as [rel|].
  2:{ destruct (fail_if _ MustNameRelation); [|done]. cbn [mbind result_bind].
      destruct (fail_if _ ServerSideRelation); [|done]. by intros [= <-]. }
  destruct (copy_columns _) as [columns|]; [|done]. cbn [mbind result_bind].
  cbn [ServerSide Program]. destruct (_ || _) eqn:Hsp.
  { intros [= <-]. cbn. intros _ _ H1 H2. rewrite H1, H2 in Hsp. done. }
  set (p0 := {| Table := _ |}).
  destruct (mfold copy_option (p0, ∅, []) _) as [[[p1 seen] u]|] eqn:Ho; [|done]. cbn [mbind result_bind].
  apply copy_options_target in Ho as (T1 & _ & _ & _ & _ & S1 & _).
  destruct (copy_format p1 seen) as [p2|] eqn:Hf; [|done]. cbn [mbind result_bind].
  apply copy_format_target in Hf as (T2 & _ & _ & _ & _ & S2 & _).
  destruct (fail_if _ InvalidDelimiter); [|done]. cbn [mbind result_bind].
  destruct (fail_if _ QuoteIsDelimiter); [|done].
  cbn [mbind result_bind]. destruct (ShardKey registry (Table p2)) as [keys|] eqn:Hk.
  - destruct (From p2) eqn:Hfrom; [intros Hc _ _ _ _; by eapply copy_keys_ok|]. intros [= <-]. congruence.
  - intros [= <-] _ Hsh. exfalso. rewrite <- S2, <- S1 in Hsh. unfold p0 in Hsh. cbn [Sharded] in Hsh.
    rewrite <- T2, <- T1 in Hk. unfold p0 in Hk. cbn [Table] in Hk. unfold IsSharded in Hsh. by rewrite Hk in Hsh.
Qed.

(** * No index is out of range *)

Lemma quoted_field_err p r v e : quoted_field p r v = Err e → e = UnterminatedQuote.
Proof.
  remember (length r) as n eqn:Hn. revert r v Hn. induction (Nat.lt_wf_0 n) as [n _ IH]; intros r v ->.
  destruct r as [|c rest]; cbn [quoted_field]; [by intros [= <-]|].
  assert ((if decide (c = Quote p) then Ok (rev v, rest) else quoted_field p rest (c :: v)) = Err e →
    e = UnterminatedQuote) as Hother.
  { case_decide; [done|]. eapply IH; [|reflexivity]. cbn. lia. }
  destruct rest as [|d rest']; [exact Hother|]. destruct (_ && _); [|exact Hother].
  eapply IH; [|reflexivity]. cbn. lia.
Qed.
Lemma quoted_field_length p r v w rest :
  quoted_field p r v = Ok (w, rest) → (length rest < length r)%nat.
Proof.
  remember (length r) as n eqn:Hn. revert r v Hn. induction (Nat.lt_wf_0 n) as [n _ IH]; intros r v ->.
  destruct r as [|c r']; cbn [quoted_field]; [done|].
  assert ((if decide (c = Quote p) then Ok (rev v, r') else quoted_field p r' (c :: v)) = Ok (w, rest) →
    (length rest < length (c :: r'))%nat) as Hother.
  { case_decide; [intros [= _ <-]; cbn; lia|]. intros Hq. apply (IH (length r')) in Hq; cbn; [lia|lia|done]. }
  destruct r' as [|d r'']; [exact Hother|]. destruct (_ && _); [|exact Hother].
  intros Hq. apply (IH (length r'')) in Hq; cbn; [lia|lia|done].
Qed.
Lemma unquoted_field_spec p r v :
  match unquoted_field p r v with
  | Ok (_, rest) => (length rest ≤ length r)%nat
  | Err e => e = UnexpectedQuote
  end.
Proof.
  revert v. induction r as [|c r IH]; intros v; cbn [unquoted_field]; [done|].
  case_decide; [cbn; lia|]. case_decide; [done|]. specialize (IH (c :: v)).
  destruct (unquoted_field p r (c :: v)) as [[]|]; [cbn; lia | done].
Qed.

Lemma csv_field_spec p r :
  match csv_field p r with
  | Ok (_, rest) => (length rest ≤ length r)%nat
  | Err e => e ≠ IndexPanic
  end.
Proof.
  unfold csv_field. destruct r as [|c r]; [done|]. case_decide.
  - destruct (quoted_field p r []) as [[v rest]|e] eqn:Hq; cbn [mbind result_bind].
    + apply quoted_field_length in Hq. destruct rest as [|d rest]; [cbn; lia|].
      case_decide; [cbn in *; lia | done].
    + by apply quoted_field_err in Hq as ->.
  - pose proof (unquoted_field_spec p (c :: r) []) as Hu.
    destruct (unquoted_field p (c :: r) []) as [[v rest]|e]; cbn [mbind result_bind]; [done | by subst].
Qed.
Lemma csv_fields_no_panic fuel p r : (length r < fuel)%nat → csv_fields fuel p r ≠ Err IndexPanic.
Proof.
  revert r. induction fuel as [|fuel IH]; intros r Hr; [lia|]. cbn [csv_fields].
  pose proof (csv_field_spec p r) as Hf. destruct (csv_field p r) as [[field rest]|e]; cbn [mbind result_bind];
    [|congruence].
  destruct rest as [|x [|y rest]]; [done..|]. intros Hc. apply (IH (y :: rest)); [cbn in *; lia|].
  destruct (csv_fields fuel p (y :: rest)); [done|]. by injection Hc as ->.
Qed.

Lemma decodeTextField_err raw e : decodeTextField raw = Err e → e = TrailingEscape.
Proof.
  remember (length raw) as n eqn:Hn. revert raw Hn. induction (Nat.lt_wf_0 n) as [n _ IH]; intros raw ->.
  assert (∀ (c : byte) x, (length x < length raw)%nat →
    cons c <$> decodeTextField x = Err e → e = TrailingEscape) as Hrec.
  { intros c x Hx. destruct (decodeTextField x) eqn:Hd; [done|]. intros [= ->]. eapply IH; [|reflexivity|done]. done. }
  destruct raw as [|c r]; [done|]. cbn [decodeTextField length] in *.
  destruct (negb _); [apply Hrec; lia|]. destruct r as [|x r]; [by intros [= <-]|]. cbn [length] in *.
  destruct (simple_escape x); [apply Hrec; lia|]. case_decide.
  { destruct r as [|h1 r]; [done|]. cbn [length] in *. destruct (hex_val h1); [|apply Hrec; cbn; lia].
    destruct r as [|h2 r]; [done|]. destruct (hex_val h2); apply Hrec; cbn in *; lia. }
  destruct (oct_val x); [|apply Hrec; lia]. destruct r as [|o2 r]; [done|]. cbn [length] in *.
  destruct (oct_val o2); [|apply Hrec; cbn; lia]. destruct r as [|o3 r]; [done|].
  destruct (oct_val o3); apply Hrec; cbn in *; lia.
Qed.
Lemma parseTextRecord_no_panic r p : parseTextRecord r p ≠ Err IndexPanic.
Proof.
  intros (raw & _ & Hr)%mmap_err. case_decide; [done|].
  apply bind_err in Hr as [Hr|(? & _ & ?)]; [|done]. by apply decodeTextField_err in Hr.
Qed.

Lemma scan_fields_err n b pos e : scan_fields n b pos = Err e → e = FieldTooLong.
Proof.
  revert pos. induction n as [|n IH]; intros pos; cbn [scan_fields]; [done|].
  case_decide; [done|]. rewrite slice_ok by lia. cbn [mbind result_bind]. cbv zeta. destruct (_ =? -1).
  { destruct (scan_fields n b _) eqn:E; [done|]. intros [= ->]. by eapply IH. }
  destruct (_ || _ || _); [by intros [= <-]|]. case_decide; [done|].
  rewrite slice_ok by lia. cbn [mbind result_bind].
  destruct (scan_fields n b _) eqn:E; [done|]. intros [= ->]. by eapply IH.
Qed.
Lemma scan_header_no_panic b : scan_header b ≠ Err IndexPanic.
Proof.
  unfold scan_header. case_decide; [done|]. rewrite !slice_ok by (cbn; lia). cbn [mbind result_bind].
  case_decide; [done|]. destruct (_ || _); [done|]. by case_decide.
Qed.
Lemma decodeBinaryKey_err `{Floats} v t e : decodeBinaryKey v t = Err e → e = InvalidBinaryValue ∨ e = InvalidUTF8.
Proof.
  assert (∀ w f, fixed w v f = Err e → e = InvalidBinaryValue ∨ e = InvalidUTF8) as Hfix.
  { intros w f. unfold fixed. case_decide; [done|]. intros [= <-]. by left. }
  unfold decodeBinaryKey. repeat (case_decide; [first [apply Hfix | idtac]|]).
  - destruct v as [|c [|]]; [intros [= <-]; by left| |intros [= <-]; by left].
    destruct (_ <? _); [intros [= <-]; by left | done].
  - cbn [mmap fst snd]. by rewrite !slice_ok by lia.
  - intros [= <-]; by left.
  - destruct (utf8_valid v); [done|]. intros [= <-]; by right.
  - intros [= <-]; by left.
Qed.

Section no_panic.
Context `{Floats} (plan : Plan) (registry : Registry) (burrows : list string).
Hypothesis indexes : Forall (λ i, i < length (Columns plan))%nat (keyIndexes plan).
Hypothesis types : length (keyTypes plan) = length (keyIndexes plan).

Lemma key_target_no_panic values : key_target plan registry burrows values ≠ Err IndexPanic.
Proof. unfold key_target. destruct (TargetForTableShardKey _ _ _ _ _) as [t|[]]; [|done..]. by case_decide. Qed.

Lemma targetForRecord_no_panic r : targetForRecord plan registry burrows r ≠ Err IndexPanic.
Proof.
  unfold targetForRecord. intros [Hf|(fields & Hf & He)]%bind_err.
  { case_decide; [exact (csv_fields_no_panic (S (length r)) plan r ltac:(lia) Hf) | by apply parseTextRecord_no_panic in Hf]. }
  case_bool_decide as Hlen; cbn [fail_if mbind result_bind] in He; [done|].
  apply bind_err in He as [(i & Hi & He)%mmap_err|(values & _ & He)]; [|by apply key_target_no_panic in He].
  rewrite Forall_forall in indexes. specialize (indexes i Hi). destruct (fields !! i) as [f|] eqn:Hl.
  - cbn in He. destruct (null f); [done|]. cbn in He. by destruct (utf8_valid _).
  - apply lookup_ge_None in Hl. destruct (decide (length fields = length (Columns plan))); [lia | tauto].
Qed.

Lemma next_record_no_panic final s : next_record plan registry burrows final s ≠ Err IndexPanic.
Proof.
  assert (∀ n, (n ≤ length (buffer s))%nat → Some <$> cut_record plan registry burrows n s ≠ Err IndexPanic) as Hcut.
  { intros n Hn. unfold cut_record. rewrite cut_ok by done. cbn [mbind result_bind]. destruct (headerPending s); [done|]. destruct (_ && _); [done|].
    destruct (targetForRecord _ _ _ _) as [|e] eqn:Ht; [done|]. cbn. intros [= ->].
    by apply targetForRecord_no_panic in Ht. }
  unfold next_record. case_decide; [done|]. destruct (delimitedRecordEnd _ _) as [[n|] q] eqn:He.
  - apply Hcut. apply (delimitedRecordEnd_app _ _ []) in He as [_ ?]. lia.
  - destruct final, q; try done. by apply Hcut.
Qed.

Lemma next_binary_no_panic s : next_binary plan registry burrows s ≠ Err IndexPanic.
Proof.
  unfold next_binary. destruct (_ || _) eqn:Hg; [done|].
  apply orb_false_iff in Hg as [Hl%bool_decide_eq_false _].
  rewrite slice_ok by lia. cbn [mbind result_bind]. destruct (_ =? _); [by rewrite cut_ok by lia|].
  destruct (_ || _) eqn:Hc; [done|]. apply orb_false_iff in Hc as [_ Hc].
  apply negb_false_iff, Z.eqb_eq in Hc.
  intros [Hs|(row & Hs & He)]%bind_err; [by apply scan_fields_err in Hs|].
  destruct row as [[fields n]|]; [|done].
  apply bind_err in He as [(p & Hp & He)%mmap_err|(values & _ & He)].
  - destruct p as [j i]. apply enumerate_elem in Hp. cbn in He.
    pose proof Hp as Hj%lookup_lt_Some. rewrite <- types in Hj.
    destruct (lookup_lt_is_Some_2 _ _ Hj) as [t Ht]. rewrite Ht in He.
    apply list_elem_of_lookup_2 in Hp. rewrite Forall_forall in indexes. specialize (indexes _ Hp).
    rewrite Hc, Nat2Z.id in Hs.
    assert (length fields = length (Columns plan)) as Hlen.
    { destruct (decide (2 ≤ length (buffer s)))%nat.
      - by destruct (scan_fields_bounds _ _ _ _ _ Hs).
      - destruct (length (Columns plan)); cbn [scan_fields] in Hs; [by injection Hs as <- _|].
        rewrite decide_True in Hs by lia. done. }
    destruct (lookup_lt_is_Some_2 fields i) as [f Hf]; [lia|]. rewrite Hf in He. cbn in He.
    destruct f as [f|]; [|done]. cbn in He. apply decodeBinaryKey_err in He. naive_solver.
  - apply bind_err in He as [He|(? & _ & He)]; [by apply key_target_no_panic in He|].
    rewrite cut_ok in He; [done|]. apply scan_fields_bounds in Hs as [? _]; lia.
Qed.

Lemma run_no_panic step fuel s : (∀ s, step s ≠ Err IndexPanic) → run step fuel s ≠ Err IndexPanic.
Proof.
  intros Hs. revert s. induction fuel as [|fuel IH]; intros s; cbn [run]; [done|].
  intros [He|(next & _ & He)]%bind_err; [by apply Hs in He|]. destruct next as [[c s']|]; [|done].
  apply bind_err in He as [He|([] & _ & He)]; [by apply IH in He | done].
Qed.

Lemma consumeBinary_no_panic s : consumeBinary plan registry burrows s ≠ Err IndexPanic.
Proof.
  unfold consumeBinary. intros [He|([header s1] & _ & He)]%bind_err.
  - destruct (binaryHeader s); [done|]. apply bind_err in He as [He|([n|] & Hs & He)]; [|revert He..].
    + by apply scan_header_no_panic in He.
    + rewrite cut_ok; [done|]. apply (scan_header_app _ []) in Hs as [_ ?]. lia.
    + done.
  - destruct header as [header|]; [|done]. apply bind_err in He as [He|([cs s2] & _ & He)].
    { revert He. apply run_no_panic, next_binary_no_panic. }
    by destruct (_ && _).
Qed.
End no_panic.

(** ** Output *)

Lemma output_rows_no_panic fuel s : output_rows fuel s ≠ Err IndexPanic.
Proof.
  revert s. induction fuel as [|fuel IH]; intros s; cbn [output_rows]; [done|].
  destruct (_ || _) eqn:Hg; [done|]. apply orb_false_iff in Hg as [Hl%bool_decide_eq_false _].
  rewrite slice_ok by lia. cbn [mbind result_bind]. cbv zeta.
  destruct (_ =? _); [by rewrite cut_ok by lia|]. destruct (_ <? 0); [done|].
  intros [Hs|(row & Hs & He)]%bind_err; [by apply scan_fields_err in Hs|].
  destruct row as [[fields n]|]; [|done].
  rewrite cut_ok in He by (apply scan_fields_bounds in Hs as [? _]; lia).
  cbn [mbind result_bind] in He. apply bind_err in He as [He|([parts s'] & _ & He)]; [by apply IH in He | done].
Qed.
Lemma consumeBinaryOutput_no_panic s : consumeBinaryOutput s ≠ Err IndexPanic.
Proof.
  unfold consumeBinaryOutput. intros [He|([header s1] & _ & He)]%bind_err.
  - destruct (o_binaryHeader s); [done|]. apply bind_err in He as [He|([n|] & Hs & He)]; [|revert He..].
    + by apply scan_header_no_panic in He.
    + rewrite cut_ok; [done|]. apply (scan_header_app _ []) in Hs as [_ ?]. lia.
    + done.
  - destruct header as [header|]; [|done]. apply bind_err in He as [He|([parts s2] & _ & He)].
    { by apply output_rows_no_panic in He. }
    by destruct (_ && _).
Qed.
Lemma output_no_panic plan data s :
  OutputWrite plan data s ≠ Err IndexPanic ∧ OutputFinish plan s ≠ Err IndexPanic.
Proof.
  split.
  - unfold OutputWrite. case_decide; [done|]. case_decide.
    + intros [He|([parts s1] & _ & He)]%bind_err; [by apply consumeBinaryOutput_no_panic in He | by destruct (_ <? _)].
    + destruct (negb _); [done|]. destruct (delimitedRecordEnd _ _) as [[n|] q] eqn:Hd; [|by destruct (_ && _)].
      rewrite cut_ok; [done|]. apply (delimitedRecordEnd_app _ _ []) in Hd as [_ ?]. lia.
  - unfold OutputFinish. case_decide; [|by destruct (o_headerPending s)].
    intros [He|([parts s1] & _ & He)]%bind_err; [by apply consumeBinaryOutput_no_panic in He | by destruct (_ || _)].
Qed.

(** C38: COPY streams never read outside a slice, whatever the client or a
    Burrow sends and however it is cut into messages. For an input stream of a
    plan made by [Parse] that goes for the prefixes cut off the buffer, the
    length and the bytes of every binary field, the fields of a row, the key
    types and the parts of a uuid; for an output stream for everything it cuts
    off its buffer. *)
Theorem stream_no_index_panic `{Floats} plan registry burrows data s t :
  plan_keys plan registry →
  Write plan registry burrows data s ≠ Err IndexPanic ∧
  Finish plan registry burrows s ≠ Err IndexPanic ∧
  OutputWrite plan data t ≠ Err IndexPanic ∧ OutputFinish plan t ≠ Err IndexPanic.
Proof.
  intros [(keys & _ & Hk) [_ Ht] _ _].
  assert (Forall (λ i, i < length (Columns plan))%nat (keyIndexes plan)) as Hi.
  { apply Forall_forall. intros i (j & Hj)%list_elem_of_lookup_1.
    destruct (Forall2_lookup_l _ _ _ _ _ Hk Hj) as (key & _ & Hl). by eapply lookup_lt_Some. }
  assert (∀ final s, consumeDelimited plan registry burrows final s ≠ Err IndexPanic) as Hd.
  { intros final s0. apply run_no_panic. intros s1. by apply next_record_no_panic. }
  assert (∀ s, consumeBinary plan registry burrows s ≠ Err IndexPanic) as Hb.
  { intros s0. by apply consumeBinary_no_panic. }
  split; [|split; [|apply output_no_panic]].
  - unfold Write. case_decide; [done|]. intros [He|([cs s1] & _ & He)]%bind_err; [|by destruct (_ <? _)].
    repeat case_decide; [by apply Hd in He | by apply Hb in He | done].
  - unfold Finish. repeat case_decide.
    + intros [He|([cs s1] & _ & He)]%bind_err; [by apply Hd in He | by destruct (headerPending s1)].
    + intros [He|([cs s1] & _ & He)]%bind_err; [by apply Hb in He | by destruct (_ || _)].
    + done.
Qed.

(** * Rows as PostgreSQL writes them

    Encoders for one row in the text and CSV formats of COPY, as specifications
    of what the parsers have to undo.  A field is NULL or a byte string. *)
Fixpoint join_bytes (d : byte) (l : list bytes) : bytes :=
  match l with
  | [] => []
  | [x] => x
  | x :: l => x ++ d :: join_bytes d l
  end.

Definition escape_letter (c : byte) : option byte :=
  if decide (c = byte_of 8) then Some "b"%char else
  if decide (c = byte_of 12) then Some "f"%char else
  if decide (c = NL) then Some "n"%char else
  if decide (c = CR) then Some "r"%char else
  if decide (c = TAB) then Some "t"%char else
  if decide (c = byte_of 11) then Some "v"%char else None.
Definition encode_text_byte (d c : byte) : bytes :=
  match escape_letter c with
  | Some l => [BACKSLASH; l]
  | None => if decide (c = BACKSLASH ∨ c = d) then [BACKSLASH; c] else [c]
  end.
Definition encode_text (d : byte) (null : string) (f : option bytes) : bytes :=
  match f with
  | None => bytes_of null
  | Some v => flat_map (encode_text_byte d) v
  end.
Definition encode_text_row (p : Plan) (fields : list (option bytes)) : bytes :=
  join_bytes (Delimiter p) (encode_text (Delimiter p) (Null p) <$> fields).

(** A parsed field stands for the encoded one. *)
Definition field_is (f : option bytes) (g : copyField) : Prop :=
  match f with
  | None => null g = true
  | Some v => null g = false ∧ value g = v
  end.

(** Delimiters PostgreSQL accepts in text mode do not clash with escapes. *)
Definition text_delimiter (d : byte) : Prop :=
  d ≠ BACKSLASH ∧ d ≠ NL ∧ d ≠ CR ∧ d ≠ "x"%char ∧ d ≠ "N"%char ∧
  simple_escape d = None ∧ oct_val d = None.

Lemma escape_letter_simple c l :
  escape_letter c = Some l →
  simple_escape l = Some c ∧ l ≠ BACKSLASH ∧ l ≠ NL ∧ l ≠ CR ∧ l ≠ "N"%char.
Proof.
  unfold escape_letter. repeat (case_decide; [subst c; intros [= <-]; split_and!; by_computation|]). done.
Qed.
Lemma escape_letter_None c : escape_letter c = None → c ≠ NL ∧ c ≠ CR.
Proof. intros H. split; intros ->; discriminate. Qed.

Lemma decode_text_byte d c rest :
  text_delimiter d →
  decodeTextField (encode_text_byte d c ++ rest) = cons c <$> decodeTextField rest.
Proof.
  intros (Hb & _ & _ & Hx & _ & Hs & Ho). unfold encode_text_byte.
  destruct (escape_letter c) as [l|] eqn:Hl.
  { apply escape_letter_simple in Hl as (Hl & _). cbn [app decodeTextField].
    rewrite bool_decide_eq_true_2 by done. cbn [negb]. by rewrite Hl. }
  case_decide as Hc; cbn [app decodeTextField].
  - rewrite bool_decide_eq_true_2 by done. cbn [negb].
    assert (simple_escape c = None ∧ c ≠ "x"%char ∧ oct_val c = None) as (E1 & E2 & E3)
      by (destruct Hc as [-> | ->]; done).
    by rewrite E1, decide_False, E3 by done.
  - rewrite bool_decide_eq_false_2 by naive_solver. done.
Qed.
Lemma decode_text d v : text_delimiter d → decodeTextField (flat_map (encode_text_byte d) v) = Ok v.
Proof.
  intros Hd. induction v as [|c v IH]; [done|]. cbn [flat_map]. rewrite decode_text_byte by done.
  by rewrite IH.
Qed.

(** The splitter passes over one encoded byte, and over an encoded field. *)
Lemma split_pair d l cur rest :
  d ≠ BACKSLASH → l ≠ BACKSLASH → Nat.even (leading_backslashes cur) = true →
  split_text d cur ([BACKSLASH; l] ++ rest) = split_text d (l :: BACKSLASH :: cur) rest.
Proof.
  intros Hb Hl He. cbn [app split_text]. rewrite bool_decide_eq_false_2 by congruence. cbn [andb].
  cbn [leading_backslashes]. rewrite decide_True by done.
  rewrite Nat.even_succ, <- Nat.negb_even, He. by rewrite andb_false_r.
Qed.
Lemma split_encoded_byte d c cur :
  d ≠ BACKSLASH → Nat.even (leading_backslashes cur) = true →
  ∃ cur1, Nat.even (leading_backslashes cur1) = true ∧ rev cur1 = rev cur ++ encode_text_byte d c ∧
    ∀ rest, split_text d cur (encode_text_byte d c ++ rest) = split_text d cur1 rest.
Proof.
  intros Hb Hcur. unfold encode_text_byte. destruct (escape_letter c) as [l|] eqn:Hl.
  { apply escape_letter_simple in Hl as (_ & Hl & _). exists (l :: BACKSLASH :: cur).
    split_and!; [cbn; by rewrite decide_False | cbn; by rewrite <- app_assoc | intros; by apply split_pair]. }
  case_decide as Hc.
  - exists (c :: BACKSLASH :: cur). split; [|split; [cbn; by rewrite <- app_assoc|]].
    + cbn [leading_backslashes]. destruct (decide (c = BACKSLASH)); [|done]. rewrite decide_True by done.
      cbn [Nat.even]. exact Hcur.
    + intros rest. destruct (decide (c = BACKSLASH)) as [->|]; [|by apply split_pair].
      cbn [app split_text]. rewrite !bool_decide_eq_false_2 by congruence. done.
  - exists (c :: cur). split_and!; [cbn; rewrite decide_False; [done | tauto] | done|].
    intros rest. cbn [app split_text]. rewrite bool_decide_eq_false_2 by tauto. done.
Qed.
Lemma split_encoded d null f cur :
  text_delimiter d → null = "\N" → Nat.even (leading_backslashes cur) = true →
  ∃ cur1, Nat.even (leading_backslashes cur1) = true ∧ rev cur1 = rev cur ++ encode_text d null f ∧
    ∀ rest, split_text d cur (encode_text d null f ++ rest) = split_text d cur1 rest.
Proof.
  intros (Hb & _ & _ & _ & HN & _) -> Hcur. destruct f as [v|].
  - cbn [encode_text]. revert cur Hcur. induction v as [|c v IH]; intros cur Hcur.
    { exists cur. split_and!; [done | cbn; by rewrite app_nil_r | done]. }
    destruct (split_encoded_byte d c cur Hb Hcur) as (cur1 & He & Hr & Hsp).
    destruct (IH cur1 He) as (cur2 & He2 & Hr2 & Hsp2). exists cur2. cbn [flat_map].
    split_and!; [done | by rewrite Hr2, Hr, <- app_assoc |].
    intros rest. by rewrite <- app_assoc, Hsp, Hsp2.
  - exists ("N"%char :: BACKSLASH :: cur). split_and!; [done | cbn; by rewrite <- app_assoc|].
    intros rest. by apply (split_pair d "N"%char).
Qed.

Lemma split_text_row d null fields :
  text_delimiter d → null = "\N" → fields ≠ [] →
  split_text d [] (join_bytes d (encode_text d null <$> fields)) = encode_text d null <$> fields.
Proof.
  intros Hd Hnull. induction fields as [|f fields IH]; [done|]. intros _.
  destruct (split_encoded d null f [] Hd Hnull eq_refl) as (cur & He & Hr & Hs).
  destruct fields as [|g fields].
  - cbn [fmap list_fmap join_bytes]. specialize (Hs []). rewrite app_nil_r in Hs.
    rewrite Hs. cbn [split_text]. by rewrite Hr.
  - change (join_bytes d (encode_text d null <$> f :: g :: fields)) with
      (encode_text d null f ++ d :: join_bytes d (encode_text d null <$> g :: fields)).
    rewrite Hs. cbn [split_text]. rewrite bool_decide_eq_true_2, He by done. cbn [andb].
    rewrite IH by done. by rewrite Hr.
Qed.

Lemma encode_text_not_null d v : text_delimiter d → string_of (flat_map (encode_text_byte d) v) ≠ "\N".
Proof.
  intros (Hb & _ & _ & _ & HN & _) E. apply (f_equal bytes_of) in E. rewrite bytes_of_string_of in E.
  destruct v as [|c v]; [done|]. cbn [flat_map] in E. unfold encode_text_byte in E.
  change (bytes_of "\N") with [BACKSLASH; "N"%char] in E.
  destruct (escape_letter c) as [l|] eqn:Hl.
  { apply escape_letter_simple in Hl as (_ & _ & _ & _ & Hl). cbn in E. congruence. }
  case_decide as Hc; cbn in E; [|injection E as -> _; tauto].
  injection E as -> _. destruct Hc as [?|?]; [done | congruence].
Qed.

(** No newline and no carriage return occurs in an encoded row. *)
Definition no_newline (b : bytes) : Prop := Forall (λ c, c ≠ NL ∧ c ≠ CR) b.
Lemma encode_text_no_newline d null f : text_delimiter d → null = "\N" → no_newline (encode_text d null f).
Proof.
  intros (_ & Hnl & Hcr & _) ->. unfold no_newline. destruct f as [v|]; [|by repeat constructor].
  cbn [encode_text]. induction v as [|c v IH]; [by apply Forall_nil|]. cbn [flat_map]. apply Forall_app. split; [|done].
  unfold encode_text_byte. destruct (escape_letter c) as [l|] eqn:Hl.
  - apply escape_letter_simple in Hl as (_ & _ & ? & ? & _). by repeat constructor.
  - apply escape_letter_None in Hl. case_decide; repeat (constructor; try done).
Qed.
Lemma join_no_newline d l : d ≠ NL → d ≠ CR → Forall no_newline l → no_newline (join_bytes d l).
Proof.
  intros H1 H2. induction 1 as [|x l Hx Hl IH]; [by apply Forall_nil|].
  destruct l as [|y l]; [done|]. apply Forall_app. split; [done|]. by apply Forall_cons.
Qed.

Lemma line_end_row row more : no_newline row → line_end (row ++ NL :: more) = Some (S (length row)).
Proof.
  induction 1 as [|c row [Hc _] _ IH]; cbn; [done|]. rewrite decide_False by done. by rewrite IH.
Qed.
Lemma trim_row row : (∀ t, row ≠ t ++ [CR]) → trimRecordTerminator (row ++ [NL]) = row.
Proof.
  intros Hrow. unfold trimRecordTerminator. rewrite rev_app_distr. cbn [rev app].
  rewrite decide_True by done. destruct (rev row) as [|d r] eqn:Hr.
  - apply (f_equal (@rev _)) in Hr. by rewrite rev_involutive in Hr.
  - apply (f_equal (@rev _)) in Hr. rewrite rev_involutive in Hr. cbn in Hr.
    rewrite decide_False; [by rewrite Hr|]. intros ->. by eapply Hrow.
Qed.
Lemma no_newline_trim row : no_newline row → trimRecordTerminator (row ++ [NL]) = row.
Proof.
  intros H. apply trim_row. intros t ->. apply Forall_app in H as [_ H]. by inversion H as [|? ? [? ?]].
Qed.

(** a row in text format, as PostgreSQL writes it, is
    recognised up to its newline whatever follows, and parsed back into its
    fields, whatever bytes they contain. *)
Theorem text_row_roundtrip p fields more :
  Format p = FormatText → text_delimiter (Delimiter p) → Null p = "\N" → fields ≠ [] →
  let record := encode_text_row p fields ++ [NL] in
  delimitedRecordEnd (record ++ more) p = (Some (length record), false) ∧
  ∃ parsed, parseTextRecord (trimRecordTerminator record) p = Ok parsed ∧ Forall2 field_is fields parsed.
Proof.
  intros Hf Hd Hn Hne record.
  assert (no_newline (encode_text_row p fields)) as Hnl.
  { destruct Hd as (? & ? & ? & ?). apply join_no_newline; [done..|]. apply Forall_fmap, Forall_true.
    intros f. apply encode_text_no_newline; [|done]. split_and!; tauto. }
  split.
  - unfold delimitedRecordEnd. rewrite decide_True by done. unfold record. rewrite <- app_assoc. cbn [app].
    rewrite line_end_row by done. rewrite length_app. cbn. do 2 f_equal. lia.
  - unfold record. rewrite no_newline_trim by done. unfold parseTextRecord, encode_text_row.
    rewrite split_text_row by done. clear record Hnl Hne.
    exists ((λ f, match f with None => {| value := []; null := true |} | Some v => {| value := v; null := false |} end) <$> fields).
    split; [|apply Forall2_fmap_r, Forall_Forall2_diag, Forall_true; by intros []].
    apply mmap_ok, Forall2_fmap_l, Forall2_fmap_r, Forall_Forall2_diag, Forall_true.
    intros [v|]; cbn.
    + rewrite Hn, decide_False by (by apply encode_text_not_null). by rewrite decode_text.
    + by rewrite string_of_bytes_of, decide_True.
Qed.

(** ** CSV *)

(** A value is quoted when it could be misread otherwise. *)
Definition csv_special (p : Plan) (c : byte) : bool :=
  bool_decide (c = Delimiter p ∨ c = Quote p ∨ c = NL ∨ c = CR).
Definition encode_csv_byte (p : Plan) (c : byte) : bytes :=
  if decide (c = Quote p ∨ c = Escape p) then [Escape p; c] else [c].
Definition encode_csv (p : Plan) (f : option bytes) : bytes :=
  match f with
  | None => bytes_of (Null p)
  | Some v =>
    if existsb (csv_special p) v || bool_decide (string_of v = Null p)
    then Quote p :: flat_map (encode_csv_byte p) v ++ [Quote p] else v
  end.
Definition encode_csv_row (p : Plan) (fields : list (option bytes)) : bytes :=
  join_bytes (Delimiter p) (encode_csv p <$> fields).

(** The syntax characters PostgreSQL accepts together. *)
Record csv_syntax (p : Plan) : Prop := {
  cs_quote : Quote p ≠ Delimiter p ∧ Quote p ≠ NL ∧ Quote p ≠ CR;
  cs_escape : Escape p ≠ Delimiter p ∧ Escape p ≠ NL;
  cs_delimiter : Delimiter p ≠ NL ∧ Delimiter p ≠ CR;
  cs_null : Forall (λ c, csv_special p c = false) (bytes_of (Null p));
}.

(** What may follow a field: the end of the record, or a delimiter. *)
Definition field_end (p : Plan) (rest : bytes) : Prop :=
  rest = [] ∨ ∃ r, rest = Delimiter p :: r.

Section csv.
Context (p : Plan) (Hp : csv_syntax p).

Lemma special_false c :
  csv_special p c = false → c ≠ Delimiter p ∧ c ≠ Quote p ∧ c ≠ NL ∧ c ≠ CR.
Proof. unfold csv_special. rewrite bool_decide_eq_false. tauto. Qed.

Lemma quoted_encoded v acc rest :
  field_end p rest →
  quoted_field p (flat_map (encode_csv_byte p) v ++ Quote p :: rest) acc = Ok (rev acc ++ v, rest).
Proof.
  intros Hrest. destruct Hp as [[Hq1 _] [He1 _] _ _]. revert acc. induction v as [|c v IH]; intros acc; cbn [flat_map app].
  - cbn [quoted_field]. rewrite decide_True by done. rewrite app_nil_r.
    destruct Hrest as [->|[r ->]]; [done|].
    rewrite (bool_decide_eq_false_2 (Delimiter p = _ ∨ _)) by naive_solver. by rewrite andb_false_r.
  - rewrite <- app_assoc. unfold encode_csv_byte at 1. case_decide as Hc.
    + cbn [app quoted_field]. rewrite !bool_decide_eq_true_2 by tauto. cbn [andb].
      rewrite IH. cbn. by rewrite <- app_assoc.
    + cbn [app quoted_field]. rewrite (bool_decide_eq_false_2 (c = Escape p)) by tauto. cbn [andb].
      rewrite decide_False by tauto. rewrite IH. cbn [rev]. rewrite <- app_assoc.
      by destruct (flat_map _ v ++ _).
Qed.

Lemma unquoted_plain v acc rest :
  Forall (λ c, csv_special p c = false) v → field_end p rest →
  unquoted_field p (v ++ rest) acc = Ok (rev acc ++ v, rest).
Proof.
  intros Hv Hrest. revert acc. induction Hv as [|c v Hc%special_false _ IH]; intros acc; cbn [app].
  - rewrite app_nil_r. destruct Hrest as [->|[r ->]]; cbn [unquoted_field]; [done|]. by rewrite decide_True.
  - cbn [unquoted_field]. rewrite decide_False, decide_False by tauto. rewrite IH. cbn. by rewrite <- app_assoc.
Qed.

(** The encoded form of a field is either quoted or free of syntax. *)
Lemma encode_csv_cases f :
  (∃ v, f = Some v ∧ encode_csv p f = Quote p :: flat_map (encode_csv_byte p) v ++ [Quote p]) ∨
  (Forall (λ c, csv_special p c = false) (encode_csv p f) ∧
   (f = None ∧ encode_csv p f = bytes_of (Null p) ∨
    ∃ v, f = Some v ∧ encode_csv p f = v ∧ string_of v ≠ Null p)).
Proof.
  destruct f as [v|]; [|right; split; [apply Hp | by left]]. cbn [encode_csv].
  destruct (existsb (csv_special p) v) eqn:Hs; [by left; eauto|].
  case_bool_decide as Hn; [by left; eauto|]. right. split; [|right; eauto]. cbn [orb].
  apply Forall_forall. intros c Hc. destruct (csv_special p c) eqn:E; [|done].
  assert (existsb (csv_special p) v = true); [|congruence].
  apply existsb_exists. exists c. by rewrite <- list_elem_of_In.
Qed.

Lemma csv_field_encoded f rest :
  field_end p rest →
  ∃ g, csv_field p (encode_csv p f ++ rest) = Ok (g, rest) ∧ field_is f g.
Proof.
  intros Hrest. destruct (encode_csv_cases f) as [(v & -> & ->)|(Hplain & Hcase)].
  - cbn [app csv_field]. rewrite decide_True by done. rewrite <- app_assoc. cbn [app].
    rewrite quoted_encoded by done. cbn [mbind result_bind rev app].
    exists {| value := v; null := false |}. split; [|done].
    destruct Hrest as [->|[r ->]]; [done|]. by rewrite decide_True.
  - exists {| value := encode_csv p f; null := bool_decide (string_of (encode_csv p f) = Null p) |}.
    split.
    + assert (∀ b, b = encode_csv p f ++ rest → csv_field p b = Ok
        ({| value := encode_csv p f; null := bool_decide (string_of (encode_csv p f) = Null p) |}, rest)) as H;
        [|by apply H].
      intros b Hb. destruct b as [|c b].
      * symmetry in Hb. apply app_nil in Hb as [-> ->]. done.
      * cbn [csv_field]. rewrite decide_False.
        -- rewrite Hb, unquoted_plain by done. done.
        -- intros ->. destruct (encode_csv p f) as [|c' e].
           ++ destruct Hrest as [->|[r ->]]; [done|]. injection Hb as Hb _. by destruct Hp as [[? _] _ _ _].
           ++ injection Hb as <- _. apply Forall_cons in Hplain as [Hq%special_false _]. tauto.
    + destruct Hcase as [[-> ->]|(v & -> & -> & Hn)]; cbn.
      * by rewrite string_of_bytes_of, bool_decide_eq_true_2.
      * by rewrite bool_decide_eq_false_2.
Qed.

Lemma csv_fields_encoded fields fuel :
  fields ≠ [] → (length (encode_csv_row p fields) < fuel)%nat →
  ∃ parsed, csv_fields fuel p (encode_csv_row p fields) = Ok parsed ∧ Forall2 field_is fields parsed.
Proof.
  unfold encode_csv_row. revert fuel. induction fields as [|f fields IH]; [done|].
  intros fuel _ Hfuel. destruct fuel as [|fuel]; [lia|]. destruct fields as [|g fields].
  - cbn [fmap list_fmap join_bytes csv_fields].
    destruct (csv_field_encoded f []) as (x & Hx & Hf); [by left|]. rewrite app_nil_r in Hx.
    rewrite Hx. exists [x]. split; [done|]. by repeat constructor.
  - set (tail := join_bytes (Delimiter p) (encode_csv p <$> g :: fields)) in *.
    change (join_bytes _ (encode_csv p <$> f :: g :: fields)) with (encode_csv p f ++ Delimiter p :: tail) in *.
    destruct (csv_field_encoded f (Delimiter p :: tail)) as (x & Hx & Hf); [right; eauto|].
    cbn [csv_fields]. rewrite Hx. cbn [mbind result_bind].
    destruct tail as [|c tail'] eqn:Ht.
    + assert (fields = [] ∧ encode_csv p g = []) as [-> Hg].
      { destruct fields as [|h fields]; [split; [done|exact Ht]|]. unfold tail in Ht.
        cbn in Ht. by apply app_nil in Ht as [_ ?]. }
      eexists. split; [reflexivity|]. constructor; [done|]. constructor; [|done].
      destruct (csv_field_encoded g []) as (y & Hy & Hgy); [by left|].
      rewrite Hg in Hy. cbn in Hy. injection Hy as <-.
      destruct (decide (Null p = "")) as [E|E]; [rewrite E in *; exact Hgy|].
      rewrite bool_decide_eq_false_2 by done. rewrite bool_decide_eq_false_2 in Hgy by congruence. exact Hgy.
    + rewrite <- Ht in *. rewrite length_app in Hfuel. cbn [length] in Hfuel.
      destruct (IH fuel) as (parsed & Hparsed & Hall); [done | fold tail; lia|].
      fold tail in Hparsed. rewrite Hparsed. exists (x :: parsed).
      split; [done | by constructor].
Qed.

(** ** The scanner finds the end of an encoded row *)

Definition scan_end (b : bytes) (n : nat) : Prop :=
  ∀ fS, csv_end p b false fS = (Some n, false).
Definition bump (n : nat) (r : option nat * bool) : option nat * bool := ((Nat.add n) <$> r.1, r.2).

Lemma csv_end_plain v rest fS :
  Forall (λ c, csv_special p c = false) v →
  csv_end p (v ++ rest) false fS = bump (length v) (csv_end p rest false (match v with [] => fS | _ => false end)).
Proof.
  intros Hv. revert fS. induction Hv as [|c v Hc%special_false Hv IH]; intros fS; cbn [app length].
  - unfold bump. destruct (csv_end p rest false fS) as [[]]; done.
  - cbn [csv_end]. rewrite (bool_decide_eq_false_2 (c = Quote p)) by tauto. rewrite andb_false_r.
    do 3 rewrite decide_False by tauto. rewrite IH. unfold bump.
    assert ((match v with [] => false | _ :: _ => false end) = false) as -> by (by destruct v).
    destruct (csv_end p rest false false) as [[]]; done.
Qed.
Lemma csv_end_quoted v rest :
  (match rest with d :: _ => d ≠ Quote p ∧ d ≠ Escape p | [] => True end) →
  csv_end p (flat_map (encode_csv_byte p) v ++ Quote p :: rest) true false =
  bump (S (length (flat_map (encode_csv_byte p) v))) (csv_end p rest false false).
Proof.
  intros Hrest. induction v as [|c v IH]; cbn [flat_map app length].
  - cbn [csv_end]. rewrite decide_True by done. destruct rest as [|d rest]; [done|].
    rewrite (bool_decide_eq_false_2 (d = _ ∨ _)) by tauto. by rewrite andb_false_r.
  - rewrite <- app_assoc, length_app. unfold encode_csv_byte at 1 3. case_decide as Hc.
    + cbn [app csv_end length]. rewrite !bool_decide_eq_true_2 by tauto. cbn [andb]. rewrite IH.
      unfold bump. destruct (csv_end p rest false false) as [[]]; done.
    + cbn [app csv_end length]. rewrite (bool_decide_eq_false_2 (c = Escape p)) by tauto. cbn [andb].
      rewrite decide_False by tauto. rewrite IH. unfold bump.
      destruct (flat_map _ v ++ _), (csv_end p rest false false) as [[]]; done.
Qed.

Lemma csv_end_field f rest fS n :
  (match rest with d :: _ => d ≠ Quote p ∧ d ≠ Escape p | [] => True end) →
  fS = true → scan_end rest n →
  csv_end p (encode_csv p f ++ rest) false fS = (Some (length (encode_csv p f) + n)%nat, false).
Proof.
  intros Hrest -> Hend. destruct (encode_csv_cases f) as [(v & -> & ->)|(Hplain & _)].
  - cbn [app csv_end]. rewrite bool_decide_eq_true_2 by done. cbn [andb].
    rewrite <- app_assoc. cbn [app]. rewrite csv_end_quoted by done. rewrite Hend. unfold bump.
    cbn. rewrite length_app. cbn. do 2 f_equal. lia.
  - rewrite csv_end_plain by done. by rewrite Hend.
Qed.

Lemma csv_end_row fields more :
  fields ≠ [] →
  csv_end p (encode_csv_row p fields ++ NL :: more) false true = (Some (S (length (encode_csv_row p fields))), false).
Proof.
  destruct Hp as [(Hq1 & Hq2 & Hq3) (He1 & He2) (Hd1 & Hd2) _].
  assert (scan_end (NL :: more) 1) as Hnl.
  { intros fS. cbn [csv_end]. rewrite (bool_decide_eq_false_2 (NL = Quote p)) by congruence.
    rewrite andb_false_r, decide_False by congruence. by rewrite decide_True. }
  unfold encode_csv_row. induction fields as [|f fields IH]; [done|]. intros _.
  destruct fields as [|g fields].
  - cbn [fmap list_fmap join_bytes]. rewrite (csv_end_field _ _ _ 1); [|split; congruence | done | done].
    do 2 f_equal. lia.
  - change (join_bytes _ (encode_csv p <$> f :: g :: fields)) with
      (encode_csv p f ++ Delimiter p :: join_bytes (Delimiter p) (encode_csv p <$> g :: fields)).
    rewrite <- app_assoc. cbn [app].
    rewrite (csv_end_field _ _ _ (S (S (length (join_bytes (Delimiter p) (encode_csv p <$> g :: fields))))));
      [|split; congruence | done |].
    + rewrite length_app. cbn. do 2 f_equal. lia.
    + intros fS. cbn [csv_end]. rewrite (bool_decide_eq_false_2 (Delimiter p = Quote p)) by congruence.
      rewrite andb_false_r, decide_True by done. by rewrite IH.
Qed.
End csv.

(** a row in CSV format, as PostgreSQL writes it, is
    recognised up to its newline, also when quoted fields contain newlines,
    delimiters or quotes, and is parsed back into its fields. *)
Theorem csv_row_roundtrip p fields more :
  Format p = FormatCSV → csv_syntax p → fields ≠ [] →
  let record := encode_csv_row p fields ++ [NL] in
  delimitedRecordEnd (record ++ more) p = (Some (length record), false) ∧
  ∃ parsed, parseCSVRecord (encode_csv_row p fields) p = Ok parsed ∧ Forall2 field_is fields parsed.
Proof.
  intros Hf Hp Hne record. split.
  - unfold delimitedRecordEnd. rewrite decide_False by (by rewrite Hf). unfold record. rewrite <- app_assoc. cbn [app].
    rewrite csv_end_row by done. rewrite length_app. cbn. do 2 f_equal. lia.
  - apply csv_fields_encoded; [done..|]. lia.
Qed.

(** C33: a row as PostgreSQL writes it, in text or CSV format, is recognised up
    to its newline whatever follows, also when quoted fields contain newlines,
    delimiters or quotes, and is parsed back into its fields, whatever bytes
    they contain. *)
Theorem copy_row_roundtrip p fields more :
  fields ≠ [] →
  (Format p = FormatText → text_delimiter (Delimiter p) → Null p = "\N" →
   let record := encode_text_row p fields ++ [NL] in
   delimitedRecordEnd (record ++ more) p = (Some (length record), false) ∧
   ∃ parsed, parseTextRecord (trimRecordTerminator record) p = Ok parsed ∧ Forall2 field_is fields parsed) ∧
  (Format p = FormatCSV → csv_syntax p →
   let record := encode_csv_row p fields ++ [NL] in
   delimitedRecordEnd (record ++ more) p = (Some (length record), false) ∧
   ∃ parsed, parseCSVRecord (encode_csv_row p fields) p = Ok parsed ∧ Forall2 field_is fields parsed).
Proof. intros Hne. split; intros; [by apply text_row_roundtrip | by apply csv_row_roundtrip]. Qed.

(** C34: the row loops of [consumeDelimited] and [consumeBinary], which the source
    runs without a bound, end on every buffer, by themselves or with an error,
    in one way only and with the result of the model, which the length of the
    buffer bounds. *)
Theorem row_loops_end `{Floats} plan registry burrows final s r :
  (loop (next_record plan registry burrows final) s r ↔ consumeDelimited plan registry burrows final s = r) ∧
  (loop (next_binary plan registry burrows) s r ↔ run (next_binary plan registry burrows) (S (length (buffer s))) s = r).
Proof.
  split; (split; [intros Hr; eapply loop_unique; [|exact Hr]; apply run_loop; [apply _ | lia] |
                  intros <-; apply run_loop; [apply _ | lia]]).
Qed.

(** * Merging output streams *)

(** A complete binary envelope, and a complete binary row. *)
Definition binary_header (h : bytes) : Prop := scan_header h = Ok (Some (length h)).
Definition binary_row (r : bytes) : Prop :=
  (2 ≤ length r)%nat ∧ 0 ≤ swrap 16 (be_val (take 2 r)) ∧
  ∃ fields, scan_fields (Z.to_nat (swrap 16 (be_val (take 2 r)))) r 2 = Ok (Some (fields, length r)).

Lemma output_rows_all rows fuel s :
  Forall binary_row rows → o_buffer s = concat rows ++ trailer → o_binaryTrailer s = false →
  (length (o_buffer s) < fuel)%nat →
  output_rows fuel s = Ok (rows ++ (if last_ s then [trailer] else []),
    set_output s (o_headerPending s) (o_binaryHeader s) true []).
Proof.
  intros Hrows. revert fuel s. induction Hrows as [|r rows Hr Hrows IH]; intros fuel s Hb Ht Hf;
    (destruct fuel as [|fuel]; [lia|]); cbn [output_rows]; rewrite Ht, Hb, orb_false_r.
  - cbn [concat app]. rewrite bool_decide_eq_false_2 by (cbn; lia).
    change (swrap 16 (be_val (take 2 trailer)) =? -1) with true. cbv iota. done.
  - destruct Hr as (Hlen & Hpos & fields & Hscan). cbn [concat]. rewrite <- app_assoc.
    rewrite slice_ok, sub_0, take_app_le by (rewrite ?length_app; lia). cbn [mbind result_bind].
    rewrite bool_decide_eq_false_2 by (rewrite length_app; lia).
    rewrite (proj2 (Z.eqb_neq _ _)) by lia. rewrite (proj2 (Z.ltb_ge _ _)) by lia.
    rewrite (scan_fields_app _ _ _ _ _ Hscan). cbn [mbind result_bind].
    rewrite cut_ok by (rewrite length_app; lia). cbn [mbind result_bind].
    rewrite take_app_length, drop_app_length. rewrite IH.
    + done.
    + done.
    + done.
    + cbn. rewrite Hb in Hf. cbn [concat] in Hf. rewrite !length_app in *. lia.
Qed.

(** One Burrow's complete COPY stream, sent in one message. *)
Definition burrow_output (plan : Plan) (count : nat) (input : nat * (bytes * list bytes))
    : result error bytes :=
  let '(i, (header, rows)) := input in
  '(parts, s) ← OutputWrite plan (header ++ concat rows ++ trailer)
    (NewOutputStream plan (Z.of_nat i) (Z.of_nat count));
  '(rest, _) ← OutputFinish plan s;
  Ok (concat (parts ++ rest)).

Definition drained (s : OutputStream) : OutputStream := {|
  first := first s; last_ := last_ s; o_headerPending := o_headerPending s;
  o_binaryHeader := true; o_binaryTrailer := true; o_buffer := [] |}.

Lemma consumeBinaryOutput_whole s header rows :
  binary_header header → Forall binary_row rows →
  o_buffer s = header ++ concat rows ++ trailer → o_binaryHeader s = false → o_binaryTrailer s = false →
  consumeBinaryOutput s = Ok ((if first s then [header] else []) ++ rows ++
    (if last_ s then [trailer] else []), drained s).
Proof.
  intros Hh Hr Hb Hbh Hbt. unfold consumeBinaryOutput. rewrite Hbh, Hb.
  destruct (scan_header_app _ (concat rows ++ trailer) _ Hh) as [-> _]. cbn [mbind result_bind].
  rewrite cut_ok by (rewrite length_app; lia). cbn [mbind result_bind].
  rewrite take_app_length, drop_app_length. rewrite (output_rows_all rows) by (cbn; done || lia).
  cbn [mbind result_bind o_binaryTrailer set_output o_buffer].
  rewrite bool_decide_eq_true_2 by done. done.
Qed.
Lemma consumeBinaryOutput_drained s : consumeBinaryOutput (drained s) = Ok ([], drained s).
Proof. done. Qed.

Lemma burrow_output_ok plan count i header rows :
  Format plan = FormatBinary → binary_header header → Forall binary_row rows →
  burrow_output plan count (i, (header, rows)) =
  Ok ((if decide (i = 0%nat) then header else []) ++ concat rows ++
      (if decide (S i = count) then trailer else [])).
Proof.
  intros Hf Hh Hr. unfold burrow_output, OutputWrite, OutputFinish.
  rewrite decide_False by (destruct header; [destruct rows as [|[]]|]; done).
  rewrite decide_True by done.
  rewrite (consumeBinaryOutput_whole _ header rows) by done. cbn [mbind result_bind].
  change (o_buffer (drained _)) with (@nil byte).
  change (MaxRowBytes <? Z.of_nat (length (@nil byte))) with false. cbn [fail_if mbind result_bind].
  rewrite decide_True by done. rewrite consumeBinaryOutput_drained. cbn [mbind result_bind].
  change (negb (bool_decide (o_buffer (drained _) = [])) || negb (o_binaryHeader (drained _)) ||
    negb (o_binaryTrailer (drained _))) with false. cbn [fail_if mbind result_bind].
  rewrite app_nil_r, !concat_app. cbn [o_push set_output first last_ NewOutputStream]. do 2 f_equal; [|f_equal].
  - destruct (Z.eqb_spec (Z.of_nat i) 0), (decide (i = 0%nat)); try lia; cbn; by rewrite ?app_nil_r.
  - destruct (Z.eqb_spec (Z.of_nat i) (Z.of_nat count - 1)), (decide (S i = count));
      try lia; cbn; by rewrite ?app_nil_r.
Qed.

(** merging the binary COPY streams of all Burrows, in
    order, yields one well-formed stream: the envelope of the first, every row
    of every Burrow exactly once and in order, and one trailer. *)
Theorem binary_output_merged plan inputs header0 rows0 :
  Format plan = FormatBinary →
  Forall (λ i, binary_header i.1 ∧ Forall binary_row i.2) ((header0, rows0) :: inputs) →
  ∃ outputs,
    mmap (burrow_output plan (S (length inputs))) (enumerate ((header0, rows0) :: inputs)) = Ok outputs ∧
    concat outputs = header0 ++ concat (concat (((header0, rows0) :: inputs).*2)) ++ trailer.
Proof.
  intros Hf Hall. set (part := λ (p : nat * (bytes * list bytes)),
    (if decide (p.1 = 0%nat) then p.2.1 else []) ++ concat p.2.2 ++
    (if decide (S p.1 = S (length inputs)) then trailer else [])).
  exists (part <$> enumerate ((header0, rows0) :: inputs)). split.
  - apply mmap_ok, Forall2_fmap_r, Forall_Forall2_diag, Forall_forall. intros [i [h rows]] Hi.
    apply enumerate_elem, list_elem_of_lookup_2 in Hi. rewrite Forall_forall in Hall.
    destruct (Hall _ Hi) as [H1 H2]. by apply burrow_output_ok.
  - clear Hall. cbn [enumerate enumerate_from fmap list_fmap concat fst snd]. unfold part at 1. cbn [fst snd].
    rewrite decide_True by done. rewrite concat_app, <- !app_assoc. do 2 f_equal.
    assert (∀ k l, k ≠ 0%nat → (length inputs = k + length l - 1)%nat →
      concat (part <$> enumerate_from k l) = concat (concat l.*2) ++
        (match l with [] => [] | _ => trailer end)) as Hrest.
    { intros k l. revert k. induction l as [|[h rows] l IH]; intros k Hk Hl; [done|].
      cbn [enumerate_from fmap list_fmap concat snd]. unfold part at 1. cbn [fst snd].
      rewrite decide_False by done. cbn [app length] in *. rewrite concat_app, <- !app_assoc. f_equal.
      rewrite IH by lia. destruct l as [|x l].
      - rewrite decide_True by (cbn in Hl; lia). done.
      - rewrite decide_False by (cbn in Hl; lia). done. }
    rewrite (Hrest 1%nat inputs) by lia. destruct inputs; [done|]. cbn [length].
    by rewrite decide_False by lia.
Qed.

(** of the CSV streams of several Burrows only the first
    keeps its header line; from the others exactly the header is removed. *)
Theorem csv_output_header plan header rows index count :
  Format plan = FormatCSV → Header plan = true → rows ≠ [] →
  delimitedRecordEnd header plan = (Some (length header), false) →
  ∃ s, OutputWrite plan (header ++ rows) (NewOutputStream plan index count) =
         Ok ([if 0 <? index then rows else header ++ rows], s) ∧
       OutputFinish plan s = Ok ([], s).
Proof.
  intros Hf Hh Hrows Hend. unfold OutputWrite, OutputFinish.
  destruct (delimitedRecordEnd_app _ _ rows _ _ Hend) as [He [Hpos _]].
  rewrite decide_False by (by destruct header; [cbn in Hpos; lia|]).
  rewrite decide_False by (by rewrite Hf).
  unfold NewOutputStream. cbn [o_headerPending]. rewrite bool_decide_eq_true_2, Hh by done. cbn [andb].
  destruct (0 <? index).
  - cbn [negb o_push set_output o_buffer app]. rewrite He, cut_ok by (rewrite length_app; lia).
    cbn [mbind result_bind]. rewrite drop_app_length.
    rewrite decide_False by done. eexists. split; [reflexivity|].
    rewrite decide_False by (by rewrite Hf). done.
  - cbn [negb]. eexists. split; [reflexivity|]. rewrite decide_False by (by rewrite Hf). done.
Qed.

(** * Samples and witnesses *)

Definition accounts_copy : message :=
  Msg "CopyStmt" [("Relation", FMsg (router.mk_table "public" "accounts")); ("IsFrom", FBool true);
    ("Attlist", FList [router.mk_string "name"; router.mk_string "region"; router.mk_string "tenant_id"])].
Definition accounts_copy_plan (format : string) : Plan := {|
  Table := "public.accounts"; Columns := ["name"; "region"; "tenant_id"]; From := true;
  ServerSide := false; Program := false; Sharded := true; Format := format;
  Delimiter := if decide (format = FormatCSV) then ","%char else TAB;
  Null := if decide (format = FormatCSV) then "" else "\N"; Header := false;
  Quote := byte_of 34; Escape := byte_of 34; Encoding := "UTF8";
  keyIndexes := [2; 1]%nat; keyTypes := ["bigint"; "text"] |}.
Definition start : Stream := {|
  buffer := []; headerPending := false; binaryHeader := false; binaryTrailer := false; rows := 0 |}.
Definition accounts_fragments : list bytes :=
  [bytes_of "Ann" ++ [TAB] ++ bytes_of "e"; bytes_of "u" ++ [TAB] ++ bytes_of "7" ++ [NL] ++ bytes_of "Bo";
   [TAB] ++ bytes_of "us" ++ [TAB] ++ bytes_of "8"].
Definition sample_row : bytes := be_bytes 2 1 ++ be_bytes 4 1 ++ [byte_of 7].
Definition sample_header : bytes := binarySignature ++ be_bytes 4 0 ++ be_bytes 4 0.

Lemma Write_fragmentation_witness :
  ∃ cs s, @Write toy_floats (accounts_copy_plan FormatText) accounts ["a"; "b"]
    (concat accounts_fragments) start = Ok (cs, s).
Proof.
  destruct (@feed toy_floats (accounts_copy_plan FormatText) accounts ["a"; "b"] accounts_fragments start)
    as [[cs s]|] eqn:E; [|vm_compute in E; discriminate].
  exists cs, s. exact (Write_fragmentation _ _ _ _ _ _ _ E).
Defined.

Lemma stream_preserves_bytes_witness :
  ∃ cs1 s1 cs2 s2,
    @feed toy_floats (accounts_copy_plan FormatText) accounts ["a"; "b"] accounts_fragments start = Ok (cs1, s1) ∧
    concat (Data <$> cs1 ++ cs2) = concat accounts_fragments ∧ buffer s2 = [].
Proof.
  destruct (@feed toy_floats (accounts_copy_plan FormatText) accounts ["a"; "b"] accounts_fragments start)
    as [[cs1 s1]|] eqn:E; [|vm_compute in E; discriminate].
  destruct (@Finish toy_floats (accounts_copy_plan FormatText) accounts ["a"; "b"] s1)
    as [[cs2 s2]|] eqn:F; [|vm_compute in E; injection E as <- <-; vm_compute in F; discriminate].
  exists cs1, s1, cs2, s2. split; [reflexivity|].
  exact (stream_preserves_bytes (accounts_copy_plan FormatText) _ _ _ start _ _ _ _ eq_refl E F).
Defined.

Lemma stream_routes_rows_witness :
  ∃ cs1 s1 cs2,
    @feed toy_floats (accounts_copy_plan FormatText) accounts ["a"; "b"] accounts_fragments start = Ok (cs1, s1) ∧
    length (cs1 ++ cs2) = 2%nat ∧
    concat (Data <$> cs1 ++ cs2) = concat accounts_fragments ∧
    @partitioned toy_floats (accounts_copy_plan FormatText) accounts ["a"; "b"] (cs1 ++ cs2).
Proof.
  destruct (@feed toy_floats (accounts_copy_plan FormatText) accounts ["a"; "b"] accounts_fragments start)
    as [[cs1 s1]|] eqn:E; [|vm_compute in E; discriminate].
  destruct (@Finish toy_floats (accounts_copy_plan FormatText) accounts ["a"; "b"] s1)
    as [[cs2 s2]|] eqn:F; [|vm_compute in E; injection E as <- <-; vm_compute in F; discriminate].
  exists cs1, s1, cs2. split; [reflexivity|]. split.
  - vm_compute in E. injection E as <- <-. vm_compute in F. injection F as <- _. reflexivity.
  - exact (stream_routes_rows (accounts_copy_plan FormatText) _ _ _ start _ _ _ _ eq_refl E F).
Defined.

Lemma parse_copy_keys_witness :
  ∃ p, parse_copy accounts_copy accounts = Ok p ∧ keyIndexes p = [2; 1]%nat ∧ plan_keys p accounts.
Proof.
  destruct (parse_copy accounts_copy accounts) as [p|] eqn:E; [|vm_compute in E; discriminate].
  exists p. split; [reflexivity|]. split.
  - vm_compute in E. injection E as <-. reflexivity.
  - apply (parse_copy_keys accounts_copy accounts p E); vm_compute in E; injection E as <-; reflexivity.
Defined.

Lemma stream_no_index_panic_witness :
  @Write toy_floats (accounts_copy_plan FormatBinary) accounts ["a"; "b"] [NL] start ≠ Err IndexPanic ∧
  @Finish toy_floats (accounts_copy_plan FormatBinary) accounts ["a"; "b"] start ≠ Err IndexPanic ∧
  OutputWrite (accounts_copy_plan FormatBinary) [NL] (NewOutputStream (accounts_copy_plan FormatBinary) 0 1) ≠ Err IndexPanic ∧
  OutputFinish (accounts_copy_plan FormatBinary) (NewOutputStream (accounts_copy_plan FormatBinary) 0 1) ≠ Err IndexPanic.
Proof.
  apply (@stream_no_index_panic toy_floats (accounts_copy_plan FormatBinary) accounts ["a"; "b"] [NL] start
    (NewOutputStream (accounts_copy_plan FormatBinary) 0 1)).
  split.
  - exists ["tenant_id"; "region"]. split; [reflexivity|]. repeat constructor.
  - split; reflexivity.
  - intros _. by_computation.
  - reflexivity.
Defined.

Lemma text_row_roundtrip_witness :
  let record := encode_text_row (accounts_copy_plan FormatText) [Some [TAB; BACKSLASH; NL]; None] ++ [NL] in
  delimitedRecordEnd (record ++ [NL]) (accounts_copy_plan FormatText) = (Some (length record), false) ∧
  ∃ parsed, parseTextRecord (trimRecordTerminator record) (accounts_copy_plan FormatText) = Ok parsed ∧
    Forall2 field_is [Some [TAB; BACKSLASH; NL]; None] parsed.
Proof.
  refine (text_row_roundtrip (accounts_copy_plan FormatText) [Some [TAB; BACKSLASH; NL]; None] [NL]
    eq_refl _ eq_refl _); [|discriminate].
  unfold text_delimiter. split_and!; by_computation.
Defined.

Lemma csv_row_roundtrip_witness :
  let record := encode_csv_row (accounts_copy_plan FormatCSV) [Some [byte_of 34; NL]; None; Some [","%char]] ++ [NL] in
  delimitedRecordEnd (record ++ [NL]) (accounts_copy_plan FormatCSV) = (Some (length record), false) ∧
  ∃ parsed, parseCSVRecord (encode_csv_row (accounts_copy_plan FormatCSV)
      [Some [byte_of 34; NL]; None; Some [","%char]]) (accounts_copy_plan FormatCSV) = Ok parsed ∧
    Forall2 field_is [Some [byte_of 34; NL]; None; Some [","%char]] parsed.
Proof.
  refine (csv_row_roundtrip (accounts_copy_plan FormatCSV) [Some [byte_of 34; NL]; None; Some [","%char]] [NL]
    eq_refl _ _); [|discriminate].
  split; [split_and!; by_computation .. | by_computation].
Defined.

Lemma copy_row_roundtrip_witness :
  let record := encode_csv_row (accounts_copy_plan FormatCSV) [Some [byte_of 34; NL]; None; Some [","%char]] ++ [NL] in
  delimitedRecordEnd (record ++ [NL]) (accounts_copy_plan FormatCSV) = (Some (length record), false).
Proof.
  refine (proj1 (proj2 (copy_row_roundtrip (accounts_copy_plan FormatCSV)
    [Some [byte_of 34; NL]; None; Some [","%char]] [NL] _) eq_refl _)); [discriminate|].
  split; [split_and!; by_computation .. | by_computation].
Defined.

Lemma binary_output_merged_witness :
  ∃ outputs,
    mmap (burrow_output (accounts_copy_plan FormatBinary) 2)
      (enumerate [(sample_header, [sample_row]); (sample_header, [sample_row; sample_row])]) = Ok outputs ∧
    concat outputs = sample_header ++ concat (concat [[sample_row]; [sample_row; sample_row]]) ++ trailer.
Proof.
  refine (binary_output_merged (accounts_copy_plan FormatBinary) [(sample_header, [sample_row; sample_row])]
    sample_header [sample_row] eq_refl _).
  assert (binary_row sample_row) as Hr.
  { split; [cbn; lia|]. split; [vm_compute; discriminate|]. eexists. vm_compute. reflexivity. }
  assert (binary_header sample_header) as Hh by (vm_compute; reflexivity).
  apply Forall_cons. split; [split; [exact Hh | apply Forall_singleton; exact Hr]|].
  apply Forall_singleton. split; [exact Hh|]. apply Forall_cons.
  split; [exact Hr | apply Forall_singleton; exact Hr].
Defined.

Lemma csv_output_header_witness :
  ∃ s, OutputWrite (set_syntax (accounts_copy_plan FormatCSV) ","%char "" true (byte_of 34) (byte_of 34) "UTF8")
      (bytes_of "id" ++ [NL] ++ bytes_of "7")
      (NewOutputStream (set_syntax (accounts_copy_plan FormatCSV) ","%char "" true (byte_of 34) (byte_of 34) "UTF8") 1 2)
    = Ok ([bytes_of "7"], s) ∧
    OutputFinish (set_syntax (accounts_copy_plan FormatCSV) ","%char "" true (byte_of 34) (byte_of 34) "UTF8") s = Ok ([], s).
Proof.
  exact (csv_output_header (set_syntax (accounts_copy_plan FormatCSV) ","%char "" true (byte_of 34) (byte_of 34) "UTF8")
    (bytes_of "id" ++ [NL]) (bytes_of "7") 1 2 eq_refl eq_refl ltac:(discriminate) eq_refl).
Defined.

End copyrouter.
