(* ===== verification/Nest.v ===== *)
(** The control plane store "Nest": [internal/nest] (sequence.go, topology.go,
    registry.go, maintenance.go).

    A method of the package is an [action]: a program whose calls are the HTTP
    requests it sends to etcd and whose continuations take the decoded
    responses, so that requests of several proxies can be interleaved.  etcd
    itself is a parameter ([Etcd], with its documented behaviour as
    [EtcdLaws]); so is the JSON encoding of the stored documents ([Codec]).
    The base64 envelope of keys and values is not represented: a request and a
    response carry the decoded strings. *)
From S2P Require Import Prelude.
From S2P Require Import GoStrings.
From S2P Require Import GoNumbers.
From S2P Require Import GoStd.
From S2P Require Import Schema.
From S2P Require Import Topology.

Module nest.

(** * Requests, responses and errors *)

(** One element of the [compare] list of a transaction.  [operand_field] is
    the JSON member that carries the operand ([targetValueField]). *)
Record comparison := {
  cmp_key : string; target : string; operand_field : string; operand : string;
}.

Inductive request :=
| Range (key : string)
| Txn (compare : comparison) (value : string)
| Put (key value : string)
| DeleteRange (key range_end : string)
| Compaction (revision : string).

(** The body of a 2xx response, or a failure: [Undecodable] is a body that is
    not the expected JSON, [Refused] a transport error or another status.  The
    value of a pair is [None] when it is not base64. *)
Inductive response :=
| Kvs (pairs : list (option string * string))
| Outcome (succeeded : bool)
| Deleted (deleted revision : string)
| Empty
| Undecodable
| Refused (message : string).

Inductive error :=
| Unavailable (message : string)
| UndecodableResponse | UndecodableValue
| InvalidValue (value : string) | InvalidRevision (text : string)
| SequenceExhausted | TooMuchContention
| TopologyConflict | RepeatedConflicts | LostWithoutWinner
| InvalidTopology (e : topology.error) | UndecodableCatalog
| CreatedMissing | UpdatedMissing | NoTopology
| UndecodableRegistry | SchemaDiffers (d : schema.difference)
| UpdateFailed (e : error) | UpgradeFailed (e : error)
| TestKeyLength | UnsafeTestKey (key : string)
| CleanupFailed (prefix : string) (e : error) | InvalidCount (text : string)
| CompactFailed (revision : string) (e : error).

(** * Programs *)

Inductive action (A : Type) : Type :=
| Return (a : A)
| Throw (e : error)
| Call (q : request) (k : response → action A).
Arguments Return {A} a.
Arguments Throw {A} e.
Arguments Call {A} q k.

Fixpoint action_bind_go {A B} (f : A → action B) (m : action A) : action B :=
  match m with
  | Return a => f a
  | Throw e => Throw e
  | Call q k => Call q (λ r, action_bind_go f (k r))
  end.
#[export] Instance action_ret : MRet action := λ A a, Return a.
#[export] Instance action_bind : MBind action := λ A B f m, action_bind_go f m.

(** [value, err := m], with the error left to the caller. *)
Fixpoint attempt {A} (m : action A) : action (result error A) :=
  match m with
  | Return a => Return (Ok a)
  | Throw e => Return (Err e)
  | Call q k => Call q (λ r, attempt (k r))
  end.

Definition of_result {A} (r : result error A) : action A :=
  match r with Ok a => Return a | Err e => Throw e end.
Definition of_option {A} (o : option A) (e : error) : action A :=
  match o with Some a => Return a | None => Throw e end.

(** [RegistryStore.request] and [TopologyStore.request]. *)
Definition send (q : request) : action response :=
  Call q (λ r, match r with Refused message => Throw (Unavailable message) | _ => Return r end).

(** [json.Unmarshal] into a struct ignores the members it does not name. *)
Definition kvs_of (r : response) : action (list (option string * string)) :=
  match r with
  | Kvs pairs => Return pairs
  | Undecodable | Refused _ => Throw UndecodableResponse
  | _ => Return []
  end.
Definition succeeded_of (r : response) : action bool :=
  match r with
  | Outcome succeeded => Return succeeded
  | Undecodable | Refused _ => Throw UndecodableResponse
  | _ => Return false
  end.
Definition deleted_of (r : response) : action (string * string) :=
  match r with
  | Deleted deleted revision => Return (deleted, revision)
  | Undecodable | Refused _ => Throw UndecodableResponse
  | _ => Return ("", "")
  end.

(** The JSON documents stored in Nest. *)
Class Codec := {
  marshal_catalog : topology.Catalog → string;
  unmarshal_catalog : string → option topology.Catalog;
  marshal_snapshot : schema.Snapshot → string;
  unmarshal_snapshot : string → option schema.Snapshot;
}.

(** * sequence.go *)

Definition targetValueField (target : string) : string :=
  if decide (target = "MOD") then "mod_revision" else "version".

Definition read (key : string) : action (Z * Z * bool) :=
  response ← send (Range key);
  pairs ← kvs_of response;
  match pairs with
  | [] => mret (0, 0, false)
  | (value, mod_revision) :: _ =>
    value ← of_option value UndecodableValue;
    match ParseInt value with
    | None => Throw (InvalidValue value)
    | Some current =>
      if current <? 0 then Throw (InvalidValue value) else
      revision ← of_option (ParseInt mod_revision) (InvalidRevision mod_revision);
      mret (current, revision, true)
    end
  end.

Definition swap (key : string) (revision : Z) (found : bool) (next : Z) : action bool :=
  let target := if found then "MOD" else "VERSION" in
  let result := if found then FormatInt revision else "0" in
  response ← send (Txn {| cmp_key := key; target := target;
                          operand_field := targetValueField target; operand := result |}
                       (FormatInt next));
  succeeded_of response.

(** The loop of [SequenceStore.Next] with the attempts left. *)
Fixpoint next_attempts (attempts : nat) (key : string) : action Z :=
  match attempts with
  | O => Throw TooMuchContention
  | S attempts =>
    '(current, revision, found) ← read key;
    if current =? max_int64 then Throw SequenceExhausted else
    let next := swrap 64 (current + 1) in
    succeeded ← swap key revision found next;
    if (succeeded : bool) then mret next else next_attempts attempts key
  end.

Definition Next (key : string) : action Z := next_attempts 64 key.

(** * topology.go *)

Record StoredTopology := { Catalog : topology.Catalog; ModRevision : Z }.

Section stores.
Context `{Codec, MapOrder, GoStd}.

Definition Get (key : string) : action (option StoredTopology) :=
  response ← send (Range key);
  pairs ← kvs_of response;
  match pairs with
  | [] => mret None
  | (value, mod_revision) :: _ =>
    value ← of_option value UndecodableValue;
    catalog ← of_option (unmarshal_catalog value) UndecodableCatalog;
    of_result (map_err InvalidTopology (topology.Validate catalog));;
    match ParseInt mod_revision with
    | None => Throw (InvalidRevision mod_revision)
    | Some modRevision =>
      if modRevision <=? 0 then Throw (InvalidRevision mod_revision) else
      mret (Some {| Catalog := catalog; ModRevision := modRevision |})
    end
  end.

Definition compareAndSwap (key : string) (expectedModRevision : Z) (catalog : topology.Catalog)
    : action unit :=
  let value := marshal_catalog catalog in
  let compare :=
    if expectedModRevision =? 0
    then {| cmp_key := key; target := "CREATE"; operand_field := "create_revision"; operand := "0" |}
    else {| cmp_key := key; target := "MOD"; operand_field := "mod_revision";
            operand := FormatInt expectedModRevision |} in
  response ← send (Txn compare value);
  succeeded ← succeeded_of response;
  if (succeeded : bool) then mret tt else Throw TopologyConflict.

(** [errors.Is(err, ErrTopologyConflict)] *)
Definition is_conflict (e : error) : bool :=
  match e with TopologyConflict | RepeatedConflicts | LostWithoutWinner => true | _ => false end.

Definition found_or {A} (o : option A) (e : error) : action A := of_option o e.

Definition VerifyOrBootstrap (key : string) (bootstrap : topology.Catalog)
    : action StoredTopology :=
  stored ← Get key;
  match stored with
  | Some stored => mret stored
  | None =>
    of_result (map_err InvalidTopology (topology.Validate bootstrap));;
    swapped ← attempt (compareAndSwap key 0 bootstrap);
    match swapped with
    | Err e =>
      if negb (is_conflict e) then Throw e else
      winner ← Get key;
      found_or winner LostWithoutWinner
    | Ok _ =>
      created ← Get key;
      found_or created CreatedMissing
    end
  end.

Definition Update (key : string) (current : StoredTopology) (next : topology.Catalog)
    : action StoredTopology :=
  of_result (map_err InvalidTopology (topology.ValidateTransition (Catalog current) next));;
  compareAndSwap key (ModRevision current) next;;
  updated ← Get key;
  found_or updated UpdatedMissing.

(** [cloneCatalog]: encoded and decoded again. *)
Definition cloneCatalog (catalog : topology.Catalog) : action topology.Catalog :=
  of_option (unmarshal_catalog (marshal_catalog catalog)) UndecodableCatalog.

(** The table memberships after the two loops of [ReconcileSchema]. *)
Definition reconciled_tables (registry : schema.Registry) (current : gmap string string)
    : gmap string string :=
  let sharded := schema.CanonicalShardedTables registry in
  let added := fold_left (λ m table,
      match m !! table with
      | Some _ => m
      | None => <[table := topology.BootstrapDistribution]> m
      end) sharded current in
  fold_left (λ m p, if decide (p.1 ∈ sharded) then m else delete p.1 m) (map_range added) added.

Definition reconciled (registry : schema.Registry) (now : Z) (next : topology.Catalog)
    : topology.Catalog := {|
  topology.FormatVersion := topology.FormatVersion next;
  topology.Revision := wrap 64 (topology.Revision next + 1);
  topology.Schema := {| topology.RegistryFormat := schema.CurrentFormatVersion;
    topology.SchemaRevision := schema.revision registry;
    topology.SchemaFingerprint := schema.Fingerprint registry |};
  topology.Burrows := topology.Burrows next;
  topology.Distributions := topology.Distributions next;
  topology.TableDistributions := reconciled_tables registry (topology.TableDistributions next);
  topology.Change := {| topology.Actor := "hamstergres-proxy";
    topology.Reason := "reconcile successful fleet-wide schema change";
    topology.Timestamp := now |};
|}.

(** The loop of [ReconcileSchema]; [now] lists the instants of the attempts. *)
Fixpoint reconcile_attempts (key : string) (registry : schema.Registry) (now : list Z)
    : action StoredTopology :=
  match now with
  | [] => Throw RepeatedConflicts
  | now :: later =>
    stored ← Get key;
    current ← of_option stored NoTopology;
    next ← cloneCatalog (Catalog current);
    updated ← attempt (Update key current (reconciled registry now next));
    match updated with
    | Ok updated => mret updated
    | Err e => if is_conflict e then reconcile_attempts key registry later else Throw e
    end
  end.

Definition ReconcileSchema (key : string) (registry : schema.Registry) (now : Z * Z * Z)
    : action StoredTopology :=
  let '(first, second, third) := now in
  reconcile_attempts key registry [first; second; third].

(** * registry.go *)

Record VerifiedRegistry := {
  verified : schema.Registry; LegacyVShardOwners : list string;
}.

Definition get (key : string) : action (option schema.Registry) :=
  response ← send (Range key);
  pairs ← kvs_of response;
  match pairs with
  | [] => mret None
  | (value, _) :: _ =>
    value ← of_option value UndecodableValue;
    snapshot ← of_option (unmarshal_snapshot value) UndecodableRegistry;
    mret (Some (schema.FromJSON snapshot))
  end.

Definition put (key : string) (registry : schema.Registry) : action unit :=
  send (Put key (marshal_snapshot (schema.to_snapshot registry)));;
  mret tt.

Definition VerifyOrSeedVersioned (key : string) (live : schema.Registry)
    : action VerifiedRegistry :=
  stored ← get key;
  match stored with
  | None =>
    let live := schema.WithRevision live 1 in
    put key live;;
    mret {| verified := live; LegacyVShardOwners := [] |}
  | Some stored =>
    of_result (map_err SchemaDiffers (schema.EqualSchema stored live));;
    mret {| verified := schema.WithRevision live (schema.revision stored);
            LegacyVShardOwners := schema.VShardOwners stored |}
  end.

Definition VerifyOrSeed (key : string) (live : schema.Registry) : action unit :=
  VerifyOrSeedVersioned key live;; mret tt.

Definition write_revision (key : string) (live : schema.Registry) (revision : Z)
    : action schema.Registry :=
  let live := schema.WithRevision live revision in
  written ← attempt (put key live);
  of_result (map_err UpdateFailed written);;
  mret live.

Definition ReplaceVersioned (key : string) (live : schema.Registry) : action schema.Registry :=
  stored ← get key;
  match stored with
  | Some stored =>
    if is_ok (schema.EqualSchema stored live)
    then mret (schema.WithRevision live (schema.revision stored))
    else write_revision key live (wrap 64 (schema.revision stored + 1))
  | None => write_revision key live 1
  end.

Definition Replace (key : string) (live : schema.Registry) : action unit :=
  ReplaceVersioned key live;; mret tt.

Definition PersistVerified (key : string) (live : schema.Registry) : action unit :=
  written ← attempt (put key live);
  of_result (map_err UpgradeFailed written).
End stores.

(** * maintenance.go *)

Definition testNamespaceRoot : string := "/hamstergres/tests/".

(** The characters a test key may have; every other rune is refused, and so is
    every byte of a multi-byte one. *)
Definition safe_character (c : byte) : bool :=
  is_lower c || is_upper c || is_digit c
  || bool_decide (c = "-"%char) || bool_decide (c = "_"%char) || bool_decide (c = "."%char).

Definition validateTestKey (testKey : string) : result error unit :=
  fail_if (bool_decide (testKey = "" ∨ (128 < String.length testKey)%nat)) TestKeyLength;;
  fail_if (negb (forallb safe_character (bytes_of testKey))) (UnsafeTestKey testKey).

(** The loop of [prefixRangeEnd] over the reversed prefix: trailing 0xff bytes
    are dropped and the last remaining byte is incremented. *)
Fixpoint range_end_rev (reversed : bytes) : option bytes :=
  match reversed with
  | [] => None
  | c :: rest =>
    if byte_val c <? 255 then Some (byte_of (byte_val c + 1) :: rest) else range_end_rev rest
  end.
Definition prefixRangeEnd (prefix : bytes) : bytes :=
  match range_end_rev (rev prefix) with Some reversed => rev reversed | None => [byte_of 0] end.

(** [strings.Contains(err.Error(), "required revision has been compacted")] *)
Definition already_compacted (e : error) : bool :=
  match e with
  | Unavailable message =>
    bool_decide (is_Some (Index message "required revision has been compacted"))
  | _ => false
  end.

Definition compact (revision : string) : action unit :=
  sent ← attempt (send (Compaction revision));
  match sent with
  | Ok _ => mret tt
  | Err e => if already_compacted e then mret tt else Throw (CompactFailed revision e)
  end.

Definition DeleteTestNamespace (testKey : string) : action Z :=
  of_result (validateTestKey testKey);;
  let prefix := testNamespaceRoot +:+ testKey +:+ "/" in
  sent ← attempt (send (DeleteRange prefix (string_of (prefixRangeEnd (bytes_of prefix)))));
  response ← of_result (map_err (CleanupFailed prefix) sent);
  '(deleted_text, revision) ← deleted_of response;
  let deleted_text := if decide (deleted_text = "") then "0" else deleted_text in
  match ParseInt deleted_text with
  | None => Throw (InvalidCount deleted_text)
  | Some deleted =>
    if deleted <? 0 then Throw (InvalidCount deleted_text) else
    (if decide (revision = "") then mret tt else compact revision);;
    mret deleted
  end.

(** * etcd and its documented behaviour *)

Class Etcd := {
  etcd : Type;
  (** The current value of a key and the revision that wrote it. *)
  lookup : etcd → string → option (string * Z);
  store_revision : etcd → Z;
  (** One request executed atomically. *)
  serve : etcd → request → etcd * response;
}.

(** The comparisons with one of the revisions of a key, or with the number of
    its writes. *)
Definition revision_checks : list (string * string) :=
  [("MOD", "mod_revision"); ("VERSION", "version"); ("CREATE", "create_revision")].
Definition absence_checks : list (string * string) :=
  [("VERSION", "version"); ("CREATE", "create_revision")].

(** The guard of a transaction, where the value of the key and the revision of
    its last write decide it: everything is 0 for a missing key and positive for
    an existing one. *)
Definition compare_holds (c : comparison) (current : option (string * Z)) : option bool :=
  if decide ((target c, operand_field c) ∈ revision_checks) then
    match current with
    | None => Some (bool_decide (operand c = "0"))
    | Some (_, r) =>
      if decide (target c = "MOD") then Some (bool_decide (operand c = FormatInt r))
      else if decide (operand c = "0") then Some false else None
    end
  else None.

(** [key ≤ k < range_end], byte by byte. *)
Fixpoint bytes_lt (a b : bytes) : bool :=
  match a, b with
  | _, [] => false
  | [], _ :: _ => true
  | c :: a, d :: b => (byte_val c <? byte_val d) || ((byte_val c =? byte_val d) && bytes_lt a b)
  end.
Definition in_range (key range_end k : string) : bool :=
  negb (bytes_lt (bytes_of k) (bytes_of key)) && bytes_lt (bytes_of k) (bytes_of range_end).

Section etcd_laws.
Context `{Etcd}.

(** [s'] is [s] after a write of [v] to [k]. *)
Record written (s : etcd) (k v : string) (s' : etcd) : Prop := {
  wr_value : lookup s' k = Some (v, store_revision s');
  wr_revision : store_revision s' = store_revision s + 1;
  wr_other : ∀ k', k' ≠ k → lookup s' k' = lookup s k';
}.

Class EtcdLaws : Prop := {
  lookup_revision s k v r : lookup s k = Some (v, r) → 0 < r ≤ store_revision s;
  serve_range s k : serve s (Range k) =
    (s, Kvs (match lookup s k with Some (v, r) => [(Some v, FormatInt r)] | None => [] end));
  serve_txn_true s c v : compare_holds c (lookup s (cmp_key c)) = Some true →
    ∃ s', serve s (Txn c v) = (s', Outcome true) ∧ written s (cmp_key c) v s';
  serve_txn_false s c v : compare_holds c (lookup s (cmp_key c)) = Some false →
    serve s (Txn c v) = (s, Outcome false);
  serve_put s k v : ∃ s', serve s (Put k v) = (s', Empty) ∧ written s k v s';
  serve_delete s k e : ∃ s' n r,
    serve s (DeleteRange k e) = (s', Deleted (FormatInt n) (FormatInt r)) ∧ 0 ≤ n ≤ store_revision s ∧
    store_revision s ≤ store_revision s' ∧
    ∀ k', lookup s' k' = if in_range k e k' then None else lookup s k';
  serve_compaction s r : ∃ reply, serve s (Compaction r) = (s, reply) ∧
    (reply = Empty ∨ ∃ m, reply = Refused m);
}.
End etcd_laws.

(** A concrete store: the history of its writes, newest first; the revision is
    the number of writes. *)
Inductive write := Stored (key value : string) | Erased (key range_end : string).

Fixpoint history_lookup (l : list write) (k : string) : option (string * Z) :=
  match l with
  | [] => None
  | Stored k' v :: l =>
    if decide (k = k') then Some (v, Z.of_nat (S (length l))) else history_lookup l k
  | Erased k' e :: l => if in_range k' e k then None else history_lookup l k
  end.
(** The number of writes of a key since it was last erased, and the revision of
    the first of them. *)
Fixpoint history_version (l : list write) (k : string) : Z :=
  match l with
  | [] => 0
  | Stored k' _ :: l => if decide (k = k') then history_version l k + 1 else history_version l k
  | Erased k' e :: l => if in_range k' e k then 0 else history_version l k
  end.
Fixpoint history_created (l : list write) (k : string) : Z :=
  match l with
  | [] => 0
  | Stored k' _ :: l =>
    if decide (k = k' ∧ history_version l k = 0) then Z.of_nat (S (length l)) else history_created l k
  | Erased k' e :: l => if in_range k' e k then 0 else history_created l k
  end.
Definition history_compare (c : comparison) (l : list write) : bool :=
  let k := cmp_key c in
  bool_decide (
    (target c = "MOD" ∧ operand_field c = "mod_revision" ∧ operand c = FormatInt (default 0 (snd <$> history_lookup l k))) ∨
    (target c = "VERSION" ∧ operand_field c = "version" ∧ operand c = FormatInt (history_version l k)) ∨
    (target c = "CREATE" ∧ operand_field c = "create_revision" ∧ operand c = FormatInt (history_created l k))).
Definition history_keys (l : list write) : list string :=
  remove_dups (omap (λ w, match w with Stored k _ => Some k | Erased _ _ => None end) l).

Definition history_etcd : Etcd := {|
  etcd := list write;
  lookup := history_lookup;
  store_revision := λ l, Z.of_nat (length l);
  serve := λ l q,
    match q with
    | Range k =>
      (l, Kvs (match history_lookup l k with Some (v, r) => [(Some v, FormatInt r)] | None => [] end))
    | Txn c v =>
      if history_compare c l then (Stored (cmp_key c) v :: l, Outcome true)
      else (l, Outcome false)
    | Put k v => (Stored k v :: l, Empty)
    | DeleteRange k e =>
      (Erased k e :: l, Deleted (FormatInt (Z.of_nat (length
         (filter (λ k', in_range k e k' = true ∧ is_Some (history_lookup l k')) (history_keys l)))))
         (FormatInt (Z.of_nat (S (length l)))))
    | Compaction _ => (l, Empty)
    end;
|}.

Lemma history_positive l k :
  match history_lookup l k with
  | Some (_, r) => 0 < history_version l k ∧ 0 < history_created l k
  | None => history_version l k = 0 ∧ history_created l k = 0
  end.
Proof.
  induction l as [|[k' v|k' e] l IH]; cbn [history_lookup history_version history_created]; [done| |].
  - destruct (decide (k = k')) as [->|Hne].
    + destruct (history_lookup l k') as [[v' r]|]; destruct IH as [IH1 IH2].
      * rewrite decide_False by lia. lia.
      * rewrite decide_True by done. lia.
    + by rewrite decide_False by tauto.
  - by destruct (in_range k' e k).
Qed.
Lemma FormatInt_zero z : FormatInt z = "0" ↔ z = 0.
Proof. split; [intros E; apply (inj FormatInt); exact E | by intros ->]. Qed.
Lemma history_compare_holds c l b :
  compare_holds c (history_lookup l (cmp_key c)) = Some b → history_compare c l = b.
Proof.
  unfold compare_holds, revision_checks. case_decide as Hin; [|done]. pose proof (history_positive l (cmp_key c)) as Hpos.
  intros Hb. unfold history_compare. destruct (history_lookup l (cmp_key c)) as [[v r]|]; cbn [fmap option_fmap option_map snd default].
  - rewrite !elem_of_cons, elem_of_nil in Hin. destruct Hin as [[= Ht Hf]|[[= Ht Hf]|[[= Ht Hf]|[]]]]; rewrite Ht, Hf in *.
    + rewrite decide_True in Hb by done. injection Hb as <-. apply bool_decide_ext. naive_solver.
    + rewrite decide_False in Hb by done. case_decide as Ho; [|done]. injection Hb as <-. apply bool_decide_eq_false_2. rewrite Ho.
      intros [[? _]|[(_ & _ & E)|[? _]]]; try done. symmetry in E. apply FormatInt_zero in E. lia.
    + rewrite decide_False in Hb by done. case_decide as Ho; [|done]. injection Hb as <-. apply bool_decide_eq_false_2. rewrite Ho.
      intros [[? _]|[[? _]|(_ & _ & E)]]; try done. symmetry in E. apply FormatInt_zero in E. lia.
  - destruct Hpos as [-> ->]. injection Hb as <-. apply bool_decide_ext. change (FormatInt 0) with "0".
    rewrite !elem_of_cons, elem_of_nil in Hin. destruct Hin as [[= Ht Hf]|[[= Ht Hf]|[[= Ht Hf]|[]]]]; rewrite Ht, Hf; naive_solver.
Qed.

Lemma history_written (l : list write) k v : @written history_etcd l k v (Stored k v :: l).
Proof.
  constructor; cbn.
  - by rewrite decide_True by done.
  - lia.
  - intros k' Hne. by rewrite decide_False.
Qed.

Lemma length_history_keys l : (length (history_keys l) ≤ length l)%nat.
Proof.
  unfold history_keys. set (keys := omap _ l).
  assert (length (remove_dups keys) ≤ length keys)%nat.
  { apply submseteq_length, NoDup_submseteq; [apply NoDup_remove_dups|].
    intros x. by rewrite elem_of_remove_dups. }
  assert (length keys ≤ length l)%nat; [|lia]. subst keys. clear.
  induction l as [|[k v|k e] l IH]; cbn in *; lia.
Qed.

#[export] Instance history_etcd_laws : @EtcdLaws history_etcd.
Proof.
  constructor; cbn.
  - intros s k v r. induction s as [|[k' v'|k' e] s IH]; cbn; [done| |].
    + case_decide; [intros [= -> <-]; lia | intros Hl%IH; lia].
    + destruct (in_range _ _ _); [done | intros Hl%IH; lia].
  - done.
  - intros s c v ->%history_compare_holds. eexists. split; [done | apply history_written].
  - by intros s c v ->%history_compare_holds.
  - intros s k v. eexists. split; [done | apply history_written].
  - intros s k e. eexists _, _, _. split; [done|]. split; [|split; [cbn; lia | done]].
    split; [lia|]. apply inj_le. etrans; [apply length_filter|].
    apply length_history_keys.
  - intros s r. exists Empty. split; [done | by left].
Qed.

(** * Interleavings of several proxies

    A configuration is the store, the programs the proxies still have to run,
    and the writes applied to one key, each with the proxy that sent it. *)
Section interleaving.
Context `{Etcd} (key : string) {A : Type}.

Record config := {
  store : etcd; proxies : list (action A); applied : list (nat * string);
}.

(** What a request writes to the key when it is executed in [s]. *)
Definition writes (s : etcd) (q : request) : list string :=
  match q with
  | Txn c v =>
    match (serve s q).2 with
    | Outcome true => if decide (cmp_key c = key) then [v] else []
    | _ => []
    end
  | Put k v => if decide (k = key) then [v] else []
  | _ => []
  end.

(** A reply the proxy cannot use: it does not know whether the request was
    executed. *)
Definition lost (r : response) : Prop := r = Undecodable ∨ ∃ m, r = Refused m.

Inductive step : config → config → Prop :=
(** A request is executed and its reply arrives, or is lost. *)
| step_served s ps l i q k r :
    ps !! i = Some (Call q k) → r = (serve s q).2 ∨ lost r →
    step {| store := s; proxies := ps; applied := l |}
         {| store := (serve s q).1; proxies := <[i := k r]> ps;
            applied := l ++ (pair i <$> writes s q) |}
(** A request is lost before it is executed. *)
| step_unsent s ps l i q k r :
    ps !! i = Some (Call q k) → lost r →
    step {| store := s; proxies := ps; applied := l |}
         {| store := s; proxies := <[i := k r]> ps; applied := l |}
(** Others change other keys. *)
| step_others s s' ps l :
    lookup s' key = lookup s key → store_revision s ≤ store_revision s' →
    step {| store := s; proxies := ps; applied := l |}
         {| store := s'; proxies := ps; applied := l |}.

Definition start (s : etcd) (ps : list (action A)) : config :=
  {| store := s; proxies := ps; applied := [] |}.
End interleaving.

(** [chain G old l]: every value of [l] follows the one before it, the first
    one [old]. *)
Fixpoint chain (G : option string → string → Prop) (old : option string) (l : list string) : Prop :=
  match l with
  | [] => True
  | v :: l => G old v ∧ chain G (Some v) l
  end.
Fixpoint latest (old : option string) (l : list string) : option string :=
  match l with [] => old | v :: l => latest (Some v) l end.

Lemma chain_snoc G old l v : chain G old l → G (latest old l) v → chain G old (l ++ [v]).
Proof. revert old. induction l as [|w l IH]; intros old; cbn; naive_solver. Qed.
Lemma latest_snoc old l v : latest old (l ++ [v]) = Some v.
Proof. revert old. induction l as [|w l IH]; intros old; cbn; [done | apply IH]. Qed.

(** * Programs that only write what a guarantee allows

    [K] lists what the program has learned of the key (a value and the
    revision that wrote it), [W] the values it knows it wrote. *)
Definition learned (key : string) (q : request) (r : response) : list (string * Z) :=
  match q, r with
  | Range k, Kvs ((Some v, m) :: _) =>
    if decide (k = key) then match ParseInt m with Some z => [(v, z)] | None => [] end else []
  | _, _ => []
  end.
Definition won (q : request) (r : response) : list string :=
  match q, r with Txn _ v, Outcome true => [v] | _, _ => [] end.

(** The comparison pins a value the program has read, or the key's absence. *)
Definition pins (key : string) (K : list (string * Z)) (c : comparison) (old : option string) : Prop :=
  cmp_key c = key ∧
  match old with
  | None => (target c, operand_field c) ∈ absence_checks ∧ operand c = "0"
  | Some v => ∃ r, (v, r) ∈ K ∧ target c = "MOD" ∧ operand_field c = "mod_revision" ∧ operand c = FormatInt r
  end.

Section safety.
Context (key : string) (G : option string → string → Prop).

Definition guarded (K : list (string * Z)) (q : request) : Prop :=
  match q with
  | Range _ | Compaction _ => True
  | Txn c v => ∃ old, pins key K c old ∧ G old v
  | Put _ _ | DeleteRange _ _ => False
  end.

Fixpoint safe {A} (post : list (string * Z) → list string → A → Prop)
    (K : list (string * Z)) (W : list string) (p : action A) : Prop :=
  match p with
  | Return a => post K W a
  | Throw _ => True
  | Call q k => guarded K q ∧ ∀ r, safe post (K ++ learned key q r) (W ++ won q r) (k r)
  end.

Lemma safe_bind {A B} post post' K W (m : action A) (f : A → action B) :
  safe post K W m → (∀ K' W' a, post K' W' a → safe post' K' W' (f a)) →
  safe post' K W (mbind f m).
Proof.
  intros Hm Hf. revert K W Hm. induction m as [a|e|q k IH]; intros K W Hm; cbn in *.
  - by apply Hf.
  - done.
  - destruct Hm as [Hg Hk]. split; [done|]. intros r. by apply IH.
Qed.

Lemma safe_weaken {A} (post post' : list (string * Z) → list string → A → Prop) K W m :
  safe post K W m → (∀ K' W' a, post K' W' a → post' K' W' a) → safe post' K W m.
Proof.
  intros Hm Hp. revert K W Hm. induction m as [a|e|q k IH]; intros K W Hm; cbn in *; [by apply Hp | done |].
  destruct Hm as [Hg Hk]. split; [done|]. intros r. by apply IH.
Qed.

(** [attempt] turns an error into a value about which nothing is known but
    what the program had learned. *)
Lemma safe_attempt {A} (post : list (string * Z) → list string → A → Prop) K0 K W m :
  K0 ⊆ K → safe post K W m →
  safe (λ K' W' r, K0 ⊆ K' ∧ match r with Ok a => post K' W' a | Err _ => True end) K W (attempt m).
Proof.
  revert K W. induction m as [a|e|q k IH]; intros K W Hsub Hm; cbn in *; [done..|].
  destruct Hm as [Hg Hk]. split; [done|]. intros r. apply IH; [set_solver | done].
Qed.
End safety.

(** * Every interleaving respects the guarantee *)
Section store_steps.
Context `{EtcdLaws} (key : string) (G : option string → string → Prop).

(** A pair a proxy has read: if the key is still at that revision, it still
    has that value. *)
Definition sound (s : etcd) (K : list (string * Z)) : Prop :=
  ∀ v r, (v, r) ∈ K → 0 < r ≤ store_revision s ∧ ∀ v', lookup s key = Some (v', r) → v' = v.

(** A step of the store after which earlier readings stay sound. *)
Definition fresh (s s' : etcd) : Prop :=
  store_revision s ≤ store_revision s' ∧
  ∀ v r, lookup s' key = Some (v, r) → lookup s key = Some (v, r) ∨ store_revision s < r.

Lemma sound_fresh s s' K : sound s K → fresh s s' → sound s' K.
Proof.
  intros Hs [Hr Hl] v r Hin. destruct (Hs v r Hin) as [Hle Hv]. split; [lia|].
  intros v' Hv'. destruct (Hl v' r Hv') as [Hold|Hnew]; [by apply Hv | lia].
Qed.

Lemma written_fresh s k v s' : written s k v s' → fresh s s'.
Proof.
  intros [Hv Hr Ho]. split; [rewrite Hr; lia|]. intros v' r' Hl. destruct (decide (key = k)) as [->|Hne].
  - rewrite Hv in Hl. right. injection Hl as _ <-. lia.
  - left. by rewrite <- Ho.
Qed.

(** A comparison that pins what the program has read is decided, and holds only
    while the key still has that value. *)
Lemma pinned_comparison s K c old :
  sound s K → cmp_key c = key → pins key K c old →
  (compare_holds c (lookup s key) = Some true ∧ fst <$> lookup s key = old) ∨
  compare_holds c (lookup s key) = Some false.
Proof.
  intros Hs Hkey [_ Hpin]. unfold compare_holds. destruct old as [o|].
  - destruct Hpin as (r & Hin & Ht & Hf & Hop). rewrite decide_True by (rewrite Ht, Hf; by left).
    destruct (Hs _ _ Hin) as [Hr Hv]. destruct (lookup s key) as [[v0 r0]|] eqn:E.
    + rewrite decide_True by done. case_bool_decide as Ho; [left | by right]. split; [done|].
      rewrite Hop in Ho. apply (inj FormatInt) in Ho as <-. cbn. f_equal. by apply Hv.
    + right. rewrite bool_decide_eq_false_2; [done|]. rewrite Hop, FormatInt_zero. lia.
  - destruct Hpin as [Hin Hop]. rewrite decide_True by (by right).
    destruct (lookup s key) as [[v0 r0]|] eqn:E; [|left; by rewrite bool_decide_eq_true_2].
    right. assert (target c ≠ "MOD") as Ht.
    { unfold absence_checks in Hin. rewrite !elem_of_cons, elem_of_nil in Hin.
      by destruct Hin as [[= -> _]|[[= -> _]|[]]]. }
    by rewrite decide_False, decide_True.
Qed.

(** What executing a guarded request does to the key. *)
Lemma serve_guarded s K q :
  sound s K → guarded key G K q →
  fresh s (serve s q).1 ∧
  ((writes key s q = [] ∧ lookup (serve s q).1 key = lookup s key) ∨
   (∃ v r, writes key s q = [v] ∧ lookup (serve s q).1 key = Some (v, r) ∧
      G (fst <$> lookup s key) v)) ∧
  (∀ v, v ∈ won q (serve s q).2 → v ∈ writes key s q) ∧
  sound (serve s q).1 (learned key q (serve s q).2).
Proof.
  intros Hs Hg. destruct q as [k|c v|k v|k e|r]; cbn in Hg; try done.
  - rewrite serve_range. cbn [fst snd]. split; [split; [done | naive_solver]|].
    split; [by left|]. split; [set_solver|].
    destruct (lookup s k) as [[v r]|] eqn:E; cbn; [|by intros ?? ?%elem_of_nil].
    destruct (decide (k = key)) as [->|]; [|by intros ?? ?%elem_of_nil].
    destruct (ParseInt _) as [z|] eqn:Ez; [|by intros ?? ?%elem_of_nil].
    apply ParseInt_of_FormatInt in Ez as ->.
    intros v' r' [= -> ->]%list_elem_of_singleton. rewrite E.
    destruct (lookup_revision _ _ _ _ E). split; [lia | by intros ? [= ->]].
  - destruct Hg as (old & [Hkey Hpin] & HG). cbn [writes].
    destruct (pinned_comparison s K c old Hs Hkey (conj Hkey Hpin)) as [[Ec Hold]|Ec].
    + destruct (serve_txn_true s c v) as (s' & -> & Hw); [by rewrite Hkey|].
      cbn. split; [by eapply written_fresh|]. rewrite Hkey in Hw |- *. rewrite decide_True by done. split.
      * right. exists v, (store_revision s'). split; [done|]. split; [apply Hw|]. by rewrite Hold.
      * split; [done|]. by intros ?? ?%elem_of_nil.
    + rewrite serve_txn_false by (by rewrite Hkey). cbn.
      split; [split; [done | naive_solver]|]. split; [by left|].
      split; [done | by intros ?? ?%elem_of_nil].
  - destruct (serve_compaction s r) as (reply & -> & Hr). cbn.
    split; [split; [done | naive_solver]|]. split; [by left|].
    split; [by intros ? ?%elem_of_nil | by intros ?? ?%elem_of_nil].
Qed.
End store_steps.

Section reachability.
Context `{EtcdLaws} (key : string) (G : option string → string → Prop) {A : Type}
  (post : list (string * Z) → list string → A → Prop).

Record invariant (old : option string) (c : config) : Prop := {
  inv_chain : chain G old (applied c).*2;
  inv_latest : fst <$> lookup (store c) key = latest old (applied c).*2;
  inv_proxies : ∀ i p, proxies c !! i = Some p →
    ∃ K W, safe key G post K W p ∧ sound key (store c) K ∧ ∀ v, v ∈ W → (i, v) ∈ applied c;
}.

Lemma sound_app s K1 K2 : sound key s K1 → sound key s K2 → sound key s (K1 ++ K2).
Proof. intros H1 H2 v r [Hin|Hin]%elem_of_app; [by apply H1 | by apply H2]. Qed.

Lemma lost_learns q r : lost r → learned key q r = [] ∧ won q r = [].
Proof. by intros [->|[m ->]]; destruct q. Qed.

Lemma step_invariant old c c' :
  invariant old c → step key c c' → invariant old c'.
Proof.
  intros [Hc Hl Hp] Hstep. destruct Hstep as [s ps l i q k r Hi Hr | s ps l i q k r Hi Hr | s s' ps l Hk Hrev].
  - cbn in *. destruct (Hp i _ Hi) as (K & W & [Hg Hk] & Hs & HW).
    destruct (serve_guarded key G s K q Hs Hg) as (Hf & Heff & Hwon & Hlearn).
    assert (invariant old {| store := (serve s q).1; proxies := [];
      applied := l ++ (pair i <$> writes key s q) |}) as [Hc' Hl' _].
    { destruct Heff as [[-> Hsame] | (v & r' & -> & Hv & HG)]; constructor; cbn; try done.
      - by rewrite app_nil_r.
      - by rewrite app_nil_r, Hsame.
      - rewrite fmap_app. cbn. apply chain_snoc; [done | by rewrite <- Hl].
      - rewrite fmap_app, Hv. cbn. by rewrite latest_snoc. }
    constructor; [done..|]. cbn. intros j p Hj.
    destruct (decide (i = j)) as [<-|Hne].
    + rewrite list_lookup_insert_eq in Hj by (by eapply lookup_lt_Some). injection Hj as <-.
      exists (K ++ learned key q r), (W ++ won q r). split; [done|]. split.
      * apply sound_app; [by eapply sound_fresh|].
        destruct Hr as [->|Hr]; [done|]. destruct (lost_learns q r Hr) as [-> _].
        by intros ?? ?%elem_of_nil.
      * intros v [Hin|Hin]%elem_of_app; apply elem_of_app; [left; by apply HW | right].
        destruct Hr as [->|Hr]; [|destruct (lost_learns q r Hr) as [_ E]; rewrite E in Hin; by apply elem_of_nil in Hin].
        apply list_elem_of_fmap. exists v. split; [done | by apply Hwon].
    + rewrite list_lookup_insert_ne in Hj by done.
      destruct (Hp j p Hj) as (K' & W' & Hsafe & Hs' & HW'). exists K', W'. split; [done|].
      split; [by eapply sound_fresh|]. intros v Hin. apply elem_of_app. left. by apply HW'.
  - cbn in *. constructor; [done..|]. cbn. intros j p Hj. destruct (decide (i = j)) as [<-|Hne].
    + rewrite list_lookup_insert_eq in Hj by (by eapply lookup_lt_Some). injection Hj as <-.
      destruct (Hp i _ Hi) as (K & W & [Hg Hk] & Hs & HW). specialize (Hk r).
      destruct (lost_learns q r Hr) as [E1 E2]. rewrite E1, E2, !app_nil_r in Hk. by exists K, W.
    + rewrite list_lookup_insert_ne in Hj by done. by apply Hp.
  - cbn in *. constructor; cbn; [done | by rewrite Hk |]. intros i p Hi.
    destruct (Hp i p Hi) as (K & W & Hsafe & Hs & HW). exists K, W. split; [done|].
    split; [|done]. eapply sound_fresh; [done|]. split; [done|]. intros v r. rewrite Hk. by left.
Qed.

(** Proxies whose programs are safe for what they know when they start keep
    the invariant for ever. *)
Lemma reachable_invariant s ps c :
  (∀ i p, ps !! i = Some p → ∃ K, safe key G post K [] p ∧ sound key s K) →
  rtc (step key) (start s ps) c →
  invariant (fst <$> lookup s key) c.
Proof.
  intros Hps Hr. assert (invariant (fst <$> lookup s key) (start s ps)) as Hi.
  { constructor; cbn; [done..|]. intros i p Hi. destruct (Hps i p Hi) as (K & Hsafe & Hs).
    exists K, []. split; [done|]. split; [done|]. by intros v ?%elem_of_nil. }
  revert Hi. induction Hr as [c|c1 c2 c3 Hstep _ IH]; [done|]. intros Hi. apply IH.
  by eapply step_invariant.
Qed.
End reachability.

(** ** The sequence allocator *)

(** A sequence value may only be followed by the next integer. *)
Definition follows (old : option string) (v : string) : Prop :=
  match old with
  | None => v = FormatInt 1
  | Some o => ∃ z, ParseInt o = Some z ∧ 0 ≤ z < max_int64 ∧ v = FormatInt (z + 1)
  end.
(** A call that returned [z] wrote [z]. *)
Definition owned (K : list (string * Z)) (W : list string) (z : Z) : Prop := FormatInt z ∈ W.

Section sequence_safety.
Context (key : string).

Lemma send_safe {A} (G : option string → string → Prop) post K W q (f : response → action A) :
  guarded key G K q →
  (∀ r, (¬ ∃ m, r = Refused m) → safe key G post (K ++ learned key q r) (W ++ won q r) (f r)) →
  safe key G post K W (response ← send q; f response).
Proof.
  intros Hg Hf. cbn. split; [done|]. intros r.
  destruct r; cbn; try done; apply Hf; by intros [? ?].
Qed.

Lemma next_attempts_safe n K W : safe key follows owned K W (next_attempts n key).
Proof.
  revert K W. induction n as [|n IH]; intros K W; cbn [next_attempts]; [done|].
  unfold read. cbn -[next_attempts]. split; [done|].
  assert (∀ K W revision (found : bool) next, guarded key follows K
      (Txn {| cmp_key := key; target := if found then "MOD" else "VERSION";
              operand_field := targetValueField (if found then "MOD" else "VERSION");
              operand := if found then FormatInt revision else "0" |} (FormatInt next)) →
      safe key follows owned K W (succeeded ← swap key revision found next;
        if (succeeded : bool) then mret next else next_attempts n key)) as Hswap.
  { intros K0 W0 revision found next Hg. unfold swap. cbn -[next_attempts]. split; [done|].
    intros r. destruct r as [| [] | | | |]; cbn -[next_attempts]; try apply IH; try done.
    unfold owned. set_solver. }
  intros r. destruct r as [pairs| | | | |]; cbn -[next_attempts swap max_int64]; try done.
  2-4: apply (Hswap _ _ 0 false 1); exists None; split; [split; [done | set_solver] | done].
  destruct pairs as [|[[v|] m] pairs]; cbn -[next_attempts swap max_int64]; [|..|done].
  { apply (Hswap _ _ 0 false 1); exists None; split; [split; [done | set_solver] | done]. }
  destruct (ParseInt v) as [z|] eqn:Ev; [|done].
  destruct (Z.ltb_spec z 0) as [|Hz]; [done|].
  rewrite (decide_True (P := key = key)) by done.
  destruct (ParseInt m) as [rev|] eqn:Em; [|done]. cbn -[next_attempts swap max_int64].
  destruct (Z.eqb_spec z max_int64) as [|Hmax]; [done|].
  pose proof (ParseInt_bounds _ _ Ev).
  rewrite swrap_small by (unfold min_int64; lia).
  apply (Hswap _ _ rev true (z + 1)). exists (Some v). split.
  - split; [done|]. exists rev. split; [set_solver | done].
  - exists z. split; [done|]. split; [lia | done].
Qed.
End sequence_safety.

(** The values of a chain of allocations are consecutive integers. *)
Lemma chain_follows old l :
  chain follows old l → l ≠ [] →
  ∃ first, l = FormatInt <$> seqZ first (Z.of_nat (length l)) ∧
    1 ≤ first ∧ first + Z.of_nat (length l) - 1 ≤ max_int64 ∧
    match old with None => first = 1 | Some o => ParseInt o = Some (first - 1) end.
Proof.
  revert old. induction l as [|v l IH]; intros old Hvc Hne; [done|]. destruct Hvc as [Hv Hc].
  assert (∃ first, v = FormatInt first ∧ 1 ≤ first ≤ max_int64 ∧
    match old with None => first = 1 | Some o => ParseInt o = Some (first - 1) end) as (first & -> & Hb & Hold).
  { destruct old as [o|]; cbn in Hv.
    - destruct Hv as (z & Hz & Hb & ->). exists (z + 1). rewrite Hz.
      split; [done|]. split; [lia | f_equal; lia].
    - subst. exists 1. split; [done|]. split; [split; [lia | vm_compute; discriminate] | done]. }
  exists first. cbn [length]. rewrite Nat2Z.inj_succ, seqZ_cons by lia.
  rewrite Z.pred_succ. destruct l as [|w l].
  - cbn. split; [done|]. split; [lia|]. split; [lia | done].
  - destruct (IH (Some (FormatInt first)) Hc) as (f & Hl & Hf & Hlast & Hp); [done|].
    cbv iota in Hp. rewrite ParseInt_FormatInt in Hp by (unfold min_int64; lia).
    assert (f = Z.succ first) as -> by (injection Hp; lia).
    split; [by rewrite fmap_cons, <- Hl|]. split; [lia|]. split; [lia | done].
Qed.

Lemma chain_follows_nodup old l : chain follows old l → NoDup l.
Proof.
  intros Hc. destruct (decide (l = [])) as [->|Hne]; [constructor|].
  destruct (chain_follows _ _ Hc Hne) as (f & -> & _). apply NoDup_fmap; [apply _ | apply NoDup_seqZ].
Qed.

Lemma NoDup_snd_unique {A B} (l : list (A * B)) a1 a2 b :
  NoDup l.*2 → (a1, b) ∈ l → (a2, b) ∈ l → a1 = a2.
Proof. intros Hnd H1 H2. by injection (NoDup_fmap_unique _ _ _ _ Hnd H1 H2 eq_refl). Qed.

(** ** The topology store *)
Section topology_safety.
Context `{Codec, MapOrder, GoStd} (key : string).

(** The first catalog of a key is valid; a later one is an accepted
    transition from the catalog it replaces. *)
Definition replaces (old : option string) (v : string) : Prop :=
  match old with
  | None => ∃ c, v = marshal_catalog c ∧ topology.Validate c = Ok tt
  | Some o => ∃ c c', unmarshal_catalog o = Some c ∧ v = marshal_catalog c' ∧
                topology.ValidateTransition c c' = Ok tt
  end.

(** What a caller holds: a valid catalog read at its revision. *)
Definition holds (K : list (string * Z)) (st : StoredTopology) : Prop :=
  ∃ v, (v, ModRevision st) ∈ K ∧ unmarshal_catalog v = Some (Catalog st) ∧
    topology.Validate (Catalog st) = Ok tt ∧ 0 < ModRevision st.

Lemma Get_safe K0 K W : K0 ⊆ K →
  safe key replaces (λ K' W' o, K0 ⊆ K' ∧ ∀ st, o = Some st → holds K' st) K W (Get key).
Proof.
  intros Hsub. unfold Get. apply send_safe; [done|]. intros r Hr.
  destruct r as [pairs| | | | |]; cbn; try done.
  2-4: split; [set_solver | done].
  destruct pairs as [|[[v|] m] pairs]; cbn; [split; [set_solver | done] | | done].
  destruct (unmarshal_catalog v) as [c|] eqn:Ec; cbn; [|done].
  destruct (topology.Validate c) as [[]|e] eqn:Ev; cbn; [|done].
  rewrite (decide_True (P := key = key)) by done.
  destruct (ParseInt m) as [rev|] eqn:Em; [|done].
  destruct (Z.leb_spec rev 0) as [|Hrev]; [done|]. cbn. split; [set_solver|].
  intros st [= <-]. exists v. cbn. split_and!; [set_solver | done..].
Qed.

Lemma compareAndSwap_safe K0 K W expected c old :
  K0 ⊆ K → replaces old (marshal_catalog c) →
  match old with
  | None => expected = 0
  | Some v => expected ≠ 0 ∧ (v, expected) ∈ K
  end →
  safe key replaces (λ K' W' _, K0 ⊆ K') K W (compareAndSwap key expected c).
Proof.
  intros Hsub Hrep Hold. unfold compareAndSwap. apply send_safe.
  - exists old. split; [|done]. destruct old as [v|].
    + destruct Hold as [Hne Hin]. rewrite (proj2 (Z.eqb_neq _ _) Hne). split; [done|]. by exists expected.
    + subst. split; [done | cbn; set_solver].
  - intros r Hr. destruct r as [| [] | | | |]; cbn; try done; set_solver.
Qed.

Definition returned (K : list (string * Z)) (W : list string) (st : StoredTopology) : Prop :=
  holds K st.

Lemma Get_found_safe K0 K W e : K0 ⊆ K →
  safe key replaces returned K W (o ← Get key; found_or o e).
Proof.
  intros Hsub. eapply safe_bind; [by apply (Get_safe K0)|].
  intros K' W' [st|] [Hs Ho]; [by apply Ho | done].
Qed.

Lemma VerifyOrBootstrap_safe K W bootstrap :
  safe key replaces returned K W (VerifyOrBootstrap key bootstrap).
Proof.
  unfold VerifyOrBootstrap. eapply safe_bind; [apply (Get_safe []); set_solver|].
  intros K1 W1 [st|] [_ Ho]; [by apply Ho|].
  destruct (topology.Validate bootstrap) as [[]|] eqn:Ev; [|done].
  change (safe key replaces returned K1 W1 (swapped ← attempt (compareAndSwap key 0 bootstrap);
    match swapped with
    | Err e => if negb (is_conflict e) then Throw e else
        winner ← Get key; found_or winner LostWithoutWinner
    | Ok _ => created ← Get key; found_or created CreatedMissing end)).
  eapply safe_bind.
  - apply (safe_attempt _ _ (λ K' _ _, K1 ⊆ K') K1); [done|]. apply (compareAndSwap_safe K1 _ _ _ _ None); [done| |done].
    by exists bootstrap.
  - intros K2 W2 [[]|e] [Hs _]; [by apply (Get_found_safe K2)|].
    destruct (negb (is_conflict e)); [done | by apply (Get_found_safe K2)].
Qed.

Lemma Update_safe K W current next :
  holds K current → safe key replaces returned K W (Update key current next).
Proof.
  intros (v & Hin & Hu & Hval & Hpos). unfold Update.
  destruct (topology.ValidateTransition (Catalog current) next) as [[]|] eqn:Et; [|done].
  change (safe key replaces returned K W (compareAndSwap key (ModRevision current) next;;
    updated ← Get key; found_or updated UpdatedMissing)).
  eapply safe_bind.
  - apply (compareAndSwap_safe K _ _ _ _ (Some v)); [done| | split; [lia | done]].
    by exists (Catalog current), next.
  - intros K' W' u Hs. by apply (Get_found_safe K').
Qed.

Lemma reconcile_safe registry now K W :
  safe key replaces returned K W (reconcile_attempts key registry now).
Proof.
  revert K W. induction now as [|t now IH]; intros K W; cbn [reconcile_attempts]; [done|].
  eapply safe_bind; [apply (Get_safe []); set_solver|].
  intros K1 W1 [st|] [_ Ho]; [|done]. specialize (Ho st eq_refl).
  unfold cloneCatalog. cbn [of_option mbind action_bind action_bind_go].
  destruct (unmarshal_catalog _) as [next|]; [|done]. cbn [of_option].
  change (safe key replaces returned K1 W1
    (updated ← attempt (Update key st (reconciled registry t next));
     match updated with
     | Ok updated => mret updated
     | Err e => if is_conflict e then reconcile_attempts key registry now else Throw e end)).
  eapply safe_bind.
  - apply (safe_attempt _ _ returned K1); [done|]. by apply Update_safe.
  - intros K2 W2 [st'|e] [_ Hst]; [done|]. destruct (is_conflict e); [apply IH | done].
Qed.
End topology_safety.

(** * What a program returns, whatever the replies *)

Fixpoint ensures {A} (Q : A → Prop) (m : action A) : Prop :=
  match m with
  | Return a => Q a
  | Throw _ => True
  | Call _ k => ∀ r, ensures Q (k r)
  end.

Lemma ensures_bind {A B} (Q : A → Prop) (R : B → Prop) (m : action A) (f : A → action B) :
  ensures Q m → (∀ a, Q a → ensures R (f a)) → ensures R (mbind f m).
Proof. intros Hm Hf. induction m as [a|e|q k IH]; cbn in *; [by apply Hf | done | intros r; by apply IH]. Qed.

Lemma ensures_impl {A} (Q R : A → Prop) (m : action A) :
  ensures Q m → (∀ a, Q a → R a) → ensures R m.
Proof. intros Hm Hr. induction m as [a|e|q k IH]; cbn in *; [by apply Hr | done | intros r; by apply IH]. Qed.

Lemma ensures_attempt {A} (Q : A → Prop) (m : action A) :
  ensures Q m → ensures (λ r, ∀ a, r = Ok a → Q a) (attempt m).
Proof. intros Hm. induction m as [a|e|q k IH]; cbn in *; [by intros ? [= <-] | done | intros r; by apply IH]. Qed.

(** Every catalog the topology store returns is valid. *)
Definition valid_topology `{MapOrder} (st : StoredTopology) : Prop := topology.Validate (Catalog st) = Ok tt.

Section returned_topologies.
Context `{Codec, MapOrder, GoStd} (key : string).

Lemma safe_ensures {A} (post : list (string * Z) → list string → A → Prop) (Q : A → Prop) K W m :
  safe key replaces post K W m → (∀ K' W' a, post K' W' a → Q a) → ensures Q m.
Proof.
  intros Hm Hq. revert K W Hm. induction m as [a|e|q k IH]; intros K W Hm; cbn in *; [by eapply Hq | done |].
  intros r. destruct Hm as [_ Hm]. by eapply IH.
Qed.

Lemma returned_valid K W st : returned K W st → valid_topology st.
Proof. intros (v & _ & _ & Hv & _). done. Qed.

Lemma Get_ensures : ensures (λ o, ∀ st, o = Some st → valid_topology st) (Get key).
Proof.
  eapply safe_ensures; [by apply (Get_safe key [] [] []) |]. intros K W o [_ Ho] st ->.
  by eapply (returned_valid K []), Ho.
Qed.
Lemma VerifyOrBootstrap_ensures c : ensures valid_topology (VerifyOrBootstrap key c).
Proof. eapply safe_ensures; [by apply (VerifyOrBootstrap_safe key [] []) |]. apply returned_valid. Qed.
Lemma ReconcileSchema_ensures registry now : ensures valid_topology (ReconcileSchema key registry now).
Proof.
  destruct now as [[t1 t2] t3]. eapply safe_ensures; [by apply (reconcile_safe key _ _ [] []) |].
  apply returned_valid.
Qed.
End returned_topologies.

(** * A program run without interference *)
Section running.
Context `{EtcdLaws}.

Fixpoint run {A} (s : etcd) (p : action A) : etcd * result error A :=
  match p with
  | Return a => (s, Ok a)
  | Throw e => (s, Err e)
  | Call q k => let '(s', r) := serve s q in run s' (k r)
  end.

Lemma run_bind {A B} s (m : action A) (f : A → action B) :
  run s (mbind f m) = match run s m with (s', Ok a) => run s' (f a) | (s', Err e) => (s', Err e) end.
Proof.
  revert s. induction m as [a|e|q k IH]; intros s; [done..|]. cbn.
  destruct (serve s q) as [s' r]. apply IH.
Qed.

Lemma run_attempt {A} s (m : action A) :
  run s (attempt m) = ((run s m).1, Ok (run s m).2).
Proof.
  revert s. induction m as [a|e|q k IH]; intros s; [done..|]. cbn.
  destruct (serve s q) as [s' r]. apply IH.
Qed.

Lemma run_range {A} s key (f : list (option string * string) → action A) :
  run s (response ← send (Range key); pairs ← kvs_of response; f pairs) =
  run s (f match lookup s key with Some (v, r) => [(Some v, FormatInt r)] | None => [] end).
Proof. cbn. by rewrite serve_range. Qed.

(** The revision counter of a store fits in the client's [int64]. *)
Definition revision_fits (s : etcd) : Prop := store_revision s ≤ max_int64.

Lemma revision_parses s key v r :
  revision_fits s → lookup s key = Some (v, r) → ParseInt (FormatInt r) = Some r ∧ 0 < r.
Proof.
  intros Hfit Hl. destruct (lookup_revision _ _ _ _ Hl). unfold revision_fits in Hfit.
  split; [apply ParseInt_FormatInt; unfold min_int64; lia | lia].
Qed.

Lemma run_txn {A} s c v (f : response → action A) :
  compare_holds c (lookup s (cmp_key c)) ≠ None →
  (compare_holds c (lookup s (cmp_key c)) = Some true ∧
    ∃ s', written s (cmp_key c) v s' ∧ run s (response ← send (Txn c v); f response) = run s' (f (Outcome true))) ∨
  (compare_holds c (lookup s (cmp_key c)) = Some false ∧
    run s (response ← send (Txn c v); f response) = run s (f (Outcome false))).
Proof.
  intros Hdec. destruct (compare_holds c (lookup s (cmp_key c))) as [[]|] eqn:E; [left|right|done]; (split; [done|]); cbn.
  - destruct (serve_txn_true s c v E) as (s' & -> & Hw). by exists s'.
  - by rewrite serve_txn_false.
Qed.

(** ** The sequence *)
Lemma run_read s key :
  revision_fits s →
  run s (read key) = (s, match lookup s key with
    | None => Ok (0, 0, false)
    | Some (v, r) =>
      match ParseInt v with
      | Some current => if current <? 0 then Err (InvalidValue v) else Ok (current, r, true)
      | None => Err (InvalidValue v)
      end
    end).
Proof.
  intros Hfit. unfold read. rewrite run_range.
  destruct (lookup s key) as [[v r]|] eqn:E; [|done].
  destruct (revision_parses s key v r Hfit E) as [Hr _]. cbn.
  destruct (ParseInt v) as [z|]; [|done]. destruct (z <? 0); [done|]. by rewrite Hr.
Qed.
End running.

(** What one allocation does to the current value of the key. *)
Definition allocation (current : option string) : result error Z :=
  match current with
  | None => Ok 1
  | Some v =>
    match ParseInt v with
    | None => Err (InvalidValue v)
    | Some z => if z <? 0 then Err (InvalidValue v)
                else if z =? max_int64 then Err SequenceExhausted else Ok (z + 1)
    end
  end.

(** Which tables a reconciliation maps, and to which distribution. *)
Lemma reconciled_tables_lookup `{MapOrder} registry current t :
  reconciled_tables registry current !! t =
  if decide (t ∈ schema.CanonicalShardedTables registry)
  then Some (default topology.BootstrapDistribution (current !! t)) else None.
Proof.
  unfold reconciled_tables. set (sharded := schema.CanonicalShardedTables registry).
  set (add := λ (m : gmap string string) table, match m !! table with
    Some _ => m | None => <[table := topology.BootstrapDistribution]> m end).
  assert (∀ l m, fold_left add l m !! t =
    if decide (t ∈ l) then Some (default topology.BootstrapDistribution (m !! t)) else m !! t) as Hadd.
  { induction l as [|x l IH]; intros m; cbn [fold_left]; [done|]. rewrite IH.
    assert (add m x !! t = if decide (t = x)
      then Some (default topology.BootstrapDistribution (m !! t)) else m !! t) as ->.
    { unfold add. destruct (m !! x) eqn:E, (decide (t = x)) as [->|Hne]; try done.
      - by rewrite E.
      - by rewrite lookup_insert_eq, E.
      - by rewrite lookup_insert_ne by done. }
    destruct (decide (t = x)) as [->|Hne].
    - rewrite (decide_True (P := x ∈ x :: l)) by (by left). by case_decide.
    - destruct (decide (t ∈ l)) as [Hin|Hnot].
      + by rewrite decide_True by (by right).
      + rewrite decide_False; [done|]. by intros [->|?]%elem_of_cons. }
  set (added := fold_left add sharded current).
  assert (∀ l (m : gmap string string),
    fold_left (λ m p, if decide (p.1 ∈ sharded) then m else delete p.1 m) (l : list (string * string)) m !! t =
    if decide (t ∈ l.*1 ∧ t ∉ sharded) then None else m !! t) as Hdel.
  { induction l as [|x l IH]; intros m; cbn [fold_left].
    - rewrite decide_False; [done|]. cbn. set_solver.
    - rewrite IH. cbn [fmap list_fmap]. destruct (decide (t ∈ l.*1 ∧ t ∉ sharded)) as [[? ?]|Hno].
      + rewrite decide_True; [done|]. set_solver.
      + destruct (decide (x.1 ∈ sharded)) as [Hx|Hx].
        * rewrite decide_False; [done|]. set_solver.
        * destruct (decide (t = x.1)) as [->|Hne].
          -- rewrite lookup_delete_eq, decide_True; [done | set_solver].
          -- rewrite lookup_delete_ne, decide_False; [done | set_solver | done]. }
  rewrite Hdel. fold added. subst added. rewrite Hadd.
  destruct (decide (t ∈ sharded)) as [Hin|Hnot].
  - rewrite decide_False; [done|]. tauto.
  - destruct (current !! t) as [d|] eqn:E; [|by destruct (decide _)].
    apply decide_True. split; [|done]. apply list_elem_of_fmap. exists (t, d).
    split; [done|]. apply elem_of_map_range. by rewrite Hadd, decide_False by done.
Qed.

Section running_stores.
Context `{EtcdLaws, Codec, MapOrder, GoStd}.

(** The store holds [st] under the key. *)
Definition stores (s : etcd) (key : string) (st : StoredTopology) : Prop :=
  ∃ v, lookup s key = Some (v, ModRevision st) ∧ unmarshal_catalog v = Some (Catalog st).

Lemma run_Get s key st :
  revision_fits s → stores s key st → topology.Validate (Catalog st) = Ok tt →
  run s (Get key) = (s, Ok (Some st)).
Proof.
  intros Hfit (v & Hl & Hu) Hv. unfold Get. rewrite run_range, Hl.
  destruct (revision_parses s key v _ Hfit Hl) as [Hr Hpos]. cbn. rewrite Hu. cbn. rewrite Hv. cbn.
  rewrite Hr. rewrite (proj2 (Z.leb_gt _ _)) by lia. by destruct st.
Qed.

Lemma run_Get_missing s key : lookup s key = None → run s (Get key) = (s, Ok None).
Proof. intros Hl. unfold Get. by rewrite run_range, Hl. Qed.

(** The revision a caller expects is the key's: 0 when it expects none. *)
Definition expected_at (s : etcd) (key : string) (expected : Z) : bool :=
  match lookup s key with Some (_, r) => r =? expected | None => expected =? 0 end.

Lemma run_compareAndSwap s key expected c :
  (expected_at s key expected = true ∧
    ∃ s', written s key (marshal_catalog c) s' ∧ run s (compareAndSwap key expected c) = (s', Ok tt)) ∨
  (expected_at s key expected = false ∧
    run s (compareAndSwap key expected c) = (s, Err TopologyConflict)).
Proof.
  unfold compareAndSwap. set (compare := if expected =? 0 then _ else _).
  assert (cmp_key compare = key) as Hkey by (unfold compare; by destruct (expected =? 0)).
  assert (compare_holds compare (lookup s key) = Some (expected_at s key expected)) as Hcmp.
  { unfold compare_holds, compare, expected_at. destruct (Z.eqb_spec expected 0) as [->|Hne]; cbn [target operand_field operand].
    - rewrite decide_True by (unfold revision_checks; set_solver). destruct (lookup s key) as [[v r]|] eqn:El; [|done].
      destruct (lookup_revision _ _ _ _ El) as [Hpos _]. rewrite decide_False, decide_True by done. f_equal. symmetry. apply Z.eqb_neq. lia.
    - rewrite decide_True by (unfold revision_checks; set_solver). destruct (lookup s key) as [[v r]|] eqn:El.
      + rewrite decide_True by done. f_equal. destruct (Z.eqb_spec r expected) as [->|Hr].
        * by apply bool_decide_eq_true_2.
        * apply bool_decide_eq_false_2. intros E%(inj FormatInt). congruence.
      + f_equal. rewrite bool_decide_eq_false_2; [done|]. by rewrite FormatInt_zero. }
  destruct (run_txn s compare (marshal_catalog c)
    (λ response, succeeded ← succeeded_of response;
       if (succeeded : bool) then mret tt else Throw TopologyConflict))
    as [(Hh & s' & Hw & Hrun) | (Hh & Hrun)]; [by rewrite Hkey, Hcmp|..];
    rewrite Hkey, Hcmp in Hh; injection Hh as Hh; [left|right]; (split; [done|]).
  - rewrite Hkey in Hw. by exists s'.
  - exact Hrun.
Qed.

Lemma written_stores s key c s' :
  written s key (marshal_catalog c) s' → unmarshal_catalog (marshal_catalog c) = Some c →
  stores s' key {| Catalog := c; ModRevision := store_revision s' |}.
Proof. intros [Hv _ _] Hu. eexists. by split. Qed.
End running_stores.

(** ** Erasing a range of keys *)

Definition is_prefix (p k : bytes) : Prop := ∃ rest, k = p ++ rest.

Lemma bytes_lt_spec_cons c a d b :
  bytes_lt (c :: a) (d :: b) = true ↔ byte_val c < byte_val d ∨ (c = d ∧ bytes_lt a b = true).
Proof.
  cbn. rewrite orb_true_iff, andb_true_iff, Z.ltb_lt, Z.eqb_eq.
  split; [intros [?|[E%byte_val_inj ?]]; auto | intros [?|[-> ?]]; auto].
Qed.

(** Between a prefix and its range end lie exactly its extensions. *)
Lemma range_end_spec p c k :
  byte_val c < 255 →
  (bytes_lt k (p ++ [c]) = false ∧ bytes_lt k (p ++ [byte_of (byte_val c + 1)]) = true) ↔
  is_prefix (p ++ [c]) k.
Proof.
  intros Hc. assert (byte_val (byte_of (byte_val c + 1)) = byte_val c + 1) as Hnext.
  { rewrite byte_val_of, Z.mod_small; [done|]. pose proof (byte_val_bounds c). lia. }
  revert k. induction p as [|x p IH]; intros k; cbn [app].
  - destruct k as [|d k].
    + cbn. split; [by intros [? _] | by intros [? [=]]].
    + rewrite <- not_true_iff_false, !bytes_lt_spec_cons, Hnext. split.
      * intros [H1 H2]. assert (d = c) as ->; [|by exists k].
        apply byte_val_inj. destruct H2 as [H2|[-> ?]]; [|by destruct k].
        assert (¬ byte_val d < byte_val c) by tauto. lia.
      * intros [rest [= -> ->]]. split; [|left; lia].
        intros [?|[_ ?]]; [lia | by destruct rest].
  - destruct k as [|d k].
    + cbn. split; [by intros [? _] | by intros [? [=]]].
    + rewrite <- not_true_iff_false, !bytes_lt_spec_cons. specialize (IH k).
      rewrite <- not_true_iff_false in IH. split.
      * intros [H1 H2]. assert (d = x) as ->.
        { apply byte_val_inj. destruct H2 as [H2|[-> _]]; [|done].
          assert (¬ byte_val d < byte_val x) by tauto. lia. }
        destruct (proj1 IH) as [rest ->]; [|by exists rest].
        split; [tauto|]. destruct H2 as [H2|[_ ?]]; [lia | done].
      * intros [rest [= -> ->]]. destruct (proj2 IH) as [Hn Hy]; [by exists rest|].
        split; [|by right]. intros [?|[_ ?]]; [lia | done].
Qed.

Lemma range_end_slash k key : 
  in_range (k +:+ "/") (string_of (prefixRangeEnd (bytes_of (k +:+ "/")))) key = true ↔
  is_prefix (bytes_of (k +:+ "/")) (bytes_of key).
Proof.
  unfold in_range, prefixRangeEnd. rewrite andb_true_iff, negb_true_iff.
  rewrite bytes_of_app. cbn [bytes_of String.list_ascii_of_string].
  rewrite rev_app_distr. cbn [rev app range_end_rev].
  rewrite (proj2 (Z.ltb_lt _ _)) by (vm_compute; done). cbn [rev].
  rewrite rev_involutive, bytes_of_string_of. apply range_end_spec. by vm_compute.
Qed.

(** * Lemmas for the properties *)

Lemma is_prefix_app p q k : is_prefix (p ++ q) k → is_prefix p k.
Proof. intros [rest ->]. exists (q ++ rest). by rewrite app_assoc. Qed.

(** A test key is one path segment. *)
Lemma valid_test_key_segment key : validateTestKey key = Ok tt → "/"%char ∉ bytes_of key.
Proof.
  unfold validateTestKey. rewrite seq_ok, !fail_if_ok, negb_false_iff.
  intros [_ Hall] Hin. apply Is_true_true, forallb_True in Hall.
  apply Forall_forall with (x := "/"%char) in Hall; [|done].
  by vm_compute in Hall.
Qed.

Lemma segment_inj a b r1 r2 (c : byte) :
  c ∉ a → c ∉ b → a ++ c :: r1 = b ++ c :: r2 → a = b.
Proof.
  revert b. induction a as [|x a IH]; intros [|y b] Ha Hb E; cbn in E; try done.
  - injection E as -> _. set_solver.
  - injection E as -> _. set_solver.
  - injection E as -> E. f_equal. apply IH; [set_solver.. | done].
Qed.

Section reconciliation.
Context `{MapOrder, GoStd}.

Definition reconcilable (registry : schema.Registry) (now : Z) (c : topology.Catalog) : Prop :=
  schema.revision registry ≠ 0 ∧
  topology.Timestamp (topology.Change c) < now ∧ now ≠ 0 ∧
  0 ≤ topology.Revision c < 2 ^ 64 - 1 ∧
  Forall (λ t, topology.blank t = false) (schema.CanonicalShardedTables registry) ∧
  topology.BootstrapDistribution ∈ (topology.DistributionID <$> topology.Distributions c).

Lemma reconciled_transition registry now c :
  topology.Validate c = Ok tt → reconcilable registry now c →
  topology.ValidateTransition c (reconciled registry now c) = Ok tt.
Proof.
  intros Hwf%topology.Validate_wf (Hrev & Ht & Hn & Hr & Hb & Hd).
  apply topology.ValidateTransition_wf. split; [done|].
  destruct Hwf as [? ? ? ? ? Hids ? ? Hdids Htables]. split.
  - constructor; cbn; try done.
    + unfold wrap. rewrite Z.mod_small; lia.
    + apply map_Forall_lookup. intros t d. rewrite reconciled_tables_lookup.
      case_decide as Hin; [|done]. intros [= <-].
      split; [by eapply Forall_forall in Hb|].
      destruct (topology.TableDistributions c !! t) as [d'|] eqn:E; cbn; [|done].
      by destruct (map_Forall_lookup_1 _ _ _ _ Htables E).
  - constructor; cbn; try done.
    + intros b Hin. by exists b.
    + intros b b' Hin Hin' Hid.
      assert (b' = b) as -> by (eapply (NoDup_fmap_unique topology.BurrowID); done).
      unfold topology.validTransition. by rewrite decide_True.
    + intros b' Hin Hnot. destruct Hnot. by apply list_elem_of_fmap_2.
    + intros d d' Hin Hin' Hid.
      by assert (d' = d) as -> by (eapply (NoDup_fmap_unique topology.DistributionID); done).
Qed.

Lemma reconciled_compatible registry now c :
  topology.ValidateSchema (reconciled registry now c) registry = Ok tt.
Proof.
  unfold topology.ValidateSchema. cbn.
  rewrite !seq_ok, !fail_if_ok, !check_all_ok, !bool_decide_eq_false, Forall_map_range.
  split_and!; [lia | lia | by intros [] | |].
  - apply Forall_forall. intros t Ht. apply fail_if_ok, bool_decide_eq_false.
    rewrite reconciled_tables_lookup. by rewrite decide_True.
  - intros t d Hl. rewrite reconciled_tables_lookup in Hl. cbn.
    case_decide as Hin; [|done]. apply fail_if_ok, negb_false_iff.
    unfold schema.CanonicalShardedTables in Hin. by apply list_elem_of_filter in Hin as [? _].
Qed.
End reconciliation.

(** * Properties *)

Section properties.
Context `{EtcdLaws}.

(** C13: however the requests of any number of [Next] calls on
    one key interleave, and whichever replies are lost, no two calls return
    the same value; every returned value is a positive [int64] above the
    value stored at the start; and the values written to the key are
    consecutive integers. *)
Theorem Next_values_unique s key n c :
  rtc (step key) (start s (replicate n (Next key))) c →
  (∀ i j a, proxies c !! i = Some (Return a) → proxies c !! j = Some (Return a) → i = j) ∧
  (∀ i a, proxies c !! i = Some (Return a) → 1 ≤ a ≤ max_int64 ∧
    ∀ v r z, lookup s key = Some (v, r) → ParseInt v = Some z → z < a) ∧
  ∃ first, (applied c).*2 = FormatInt <$> seqZ first (Z.of_nat (length (applied c))).
Proof.
  intros Hr. assert (invariant key follows owned (fst <$> lookup s key) c) as [Hc _ Hp].
  { eapply reachable_invariant; [|done]. intros i p Hi. apply lookup_replicate in Hi as [-> _].
    exists []. split; [apply next_attempts_safe | by intros ?? ?%elem_of_nil]. }
  assert (∀ i a, proxies c !! i = Some (Return a) → (i, FormatInt a) ∈ applied c) as Hown.
  { intros i a Hi. destruct (Hp i _ Hi) as (K & W & Ho & _ & HW). by apply HW. }
  pose proof (chain_follows_nodup _ _ Hc) as Hnd. split; [|split].
  - intros i j a Hi Hj. eapply NoDup_snd_unique; [done | by apply Hown..].
  - intros i a Hi%Hown. apply (list_elem_of_fmap_2 snd) in Hi. cbn in Hi.
    destruct (decide ((applied c).*2 = [])) as [E|Hne]; [rewrite E in Hi; by apply elem_of_nil in Hi|].
    destruct (chain_follows _ _ Hc Hne) as (f & E & Hf & Hlast & Hold).
    rewrite E in Hi. apply list_elem_of_fmap in Hi as (a' & ->%(inj FormatInt) & Hin).
    apply elem_of_seqZ in Hin. split; [lia|].
    intros v r z Hl Hz. rewrite Hl in Hold. cbn in Hold. rewrite Hz in Hold.
    injection Hold as ->. lia.
  - destruct (decide ((applied c).*2 = [])) as [E|Hne].
    + exists 1. rewrite E. apply fmap_nil_inv in E. by rewrite E.
    + destruct (chain_follows _ _ Hc Hne) as (f & E & _). exists f.
      by rewrite E at 1; rewrite length_fmap.
Qed.

(** without interference one call of [Next] performs exactly
    one allocation: 1 on a missing key, the successor of the stored value,
    or an error that leaves the key alone when the value is exhausted or is
    not a natural number of 64 bits. *)
Theorem Next_alone s key :
  revision_fits s →
  ∃ s', run s (Next key) = (s', allocation (fst <$> lookup s key)) ∧
    match allocation (fst <$> lookup s key) with
    | Ok n => written s key (FormatInt n) s' ∧ 1 ≤ n ≤ max_int64
    | Err _ => s' = s
    end.
Proof.
  intros Hfit.
  assert (∀ current r (found : bool), 0 ≤ current ≤ max_int64 →
    lookup s key = (if found then Some (default "" (fst <$> lookup s key), r) else None) →
    run s (read key) = (s, Ok (current, r, found)) →
    ∃ s', run s (Next key) = (s', if current =? max_int64 then Err SequenceExhausted else Ok (current + 1)) ∧
      if current =? max_int64 then s' = s
      else written s key (FormatInt (current + 1)) s' ∧ 1 ≤ current + 1 ≤ max_int64) as Hgen.
  { intros current r found Hb Hl Hread. unfold Next. cbn [next_attempts].
    rewrite run_bind, Hread. destruct (Z.eqb_spec current max_int64) as [|Hne]; [by exists s|].
    rewrite swrap_small by (unfold min_int64; lia). unfold swap. rewrite run_bind.
    set (c := {| cmp_key := key; target := if found then "MOD" else "VERSION";
        operand_field := targetValueField (if found then "MOD" else "VERSION");
        operand := if found then FormatInt r else "0" |}).
    assert (compare_holds c (lookup s (cmp_key c)) = Some true) as Hholds.
    { unfold compare_holds. cbn [cmp_key c]. rewrite Hl. destruct found; cbn [c target operand_field operand].
      - rewrite decide_True by by_computation. rewrite decide_True by done. by rewrite bool_decide_eq_true_2.
      - by rewrite decide_True by by_computation. }
    destruct (run_txn s c (FormatInt (current + 1)) succeeded_of) as [(_ & s' & Hw & Hrun) | (Hfalse & _)];
      [by rewrite Hholds | | by rewrite Hholds in Hfalse].
    exists s'. rewrite Hrun. split; [done|]. split; [done | lia]. }
  pose proof (run_read s key Hfit) as Hread. unfold allocation.
  destruct (lookup s key) as [[v r]|] eqn:El; cbn [fmap option_fmap option_map fst] in *.
  - destruct (ParseInt v) as [z|] eqn:Ez.
    + pose proof (ParseInt_bounds _ _ Ez). destruct (Z.ltb_spec z 0) as [|Hz].
      * exists s. split; [|done]. unfold Next. cbn [next_attempts]. by rewrite run_bind, Hread.
      * destruct (Hgen z r true) as (s' & Hrun & Hw); [lia | done | done |]. exists s'.
        destruct (z =? max_int64); by rewrite Hrun.
    + exists s. split; [|done]. unfold Next. cbn [next_attempts]. by rewrite run_bind, Hread.
  - apply (Hgen 0 0 false); [vm_compute; done | done | done].
Qed.

(** [DeleteTestNamespace] rejects an unsafe key without any
    request; for a safe key it erases exactly the keys below
    "/hamstergres/tests/<key>/", whatever it returns, so nothing outside the
    test root and nothing of another test is touched. *)
Theorem DeleteTestNamespace_exact s testKey :
  ∃ s' r, run s (DeleteTestNamespace testKey) = (s', r) ∧
    (∀ e, validateTestKey testKey = Err e → s' = s ∧ r = Err e) ∧
    (validateTestKey testKey = Ok tt → ∀ k,
      (is_prefix (bytes_of (testNamespaceRoot +:+ testKey +:+ "/")) (bytes_of k) → lookup s' k = None) ∧
      (¬ is_prefix (bytes_of (testNamespaceRoot +:+ testKey +:+ "/")) (bytes_of k) → lookup s' k = lookup s k)) ∧
    (∀ k, ¬ is_prefix (bytes_of testNamespaceRoot) (bytes_of k) → lookup s' k = lookup s k) ∧
    (∀ other k, validateTestKey other = Ok tt → other ≠ testKey →
      is_prefix (bytes_of (testNamespaceRoot +:+ other +:+ "/")) (bytes_of k) → lookup s' k = lookup s k).
Proof.
  unfold DeleteTestNamespace. destruct (validateTestKey testKey) as [[]|e] eqn:Ev.
  2:{ exists s, (Err e). split; [done|]. split; [by intros ? [= <-] | done]. }
  set (prefix := testNamespaceRoot +:+ testKey +:+ "/").
  destruct (serve_delete s prefix (string_of (prefixRangeEnd (bytes_of prefix))))
    as (s1 & n & r1 & Hserve & Hn & Hrev & Hl).
  match goal with |- context [run s ?p] => destruct (run s p) as [s' r] eqn:Erun end.
  assert (s' = s1) as ->.
  { cbn in Erun. fold prefix in Erun. rewrite Hserve in Erun. cbn in Erun.
    destruct (ParseInt _) as [d|]; [|by injection Erun].
    destruct (d <? 0); [by injection Erun|]. case_decide; [by injection Erun|].
    cbn in Erun. destruct (serve_compaction s1 (FormatInt r1)) as (reply & Hc & Hreply).
    rewrite Hc in Erun. destruct Hreply as [->|[m ->]]; cbn in Erun; [by injection Erun|].
    destruct (bool_decide _); by injection Erun. }
  assert (∀ k, in_range prefix (string_of (prefixRangeEnd (bytes_of prefix))) k = true ↔
    is_prefix (bytes_of prefix) (bytes_of k)) as Hrange.
  { intros k. subst prefix. rewrite <- app_string_assoc. apply range_end_slash. }
  assert (∀ k, ¬ is_prefix (bytes_of prefix) (bytes_of k) → lookup s1 k = lookup s k) as Hkept.
  { intros k Hk. rewrite Hl. by destruct (in_range _ _ k) eqn:E; [apply Hrange in E|]. }
  exists s1, r. split; [done|]. split; [done|]. split; [|split].
  - intros _ k. split; [|apply Hkept]. intros Hk%Hrange. by rewrite Hl, Hk.
  - intros k Hk. apply Hkept. contradict Hk. subst prefix.
    rewrite bytes_of_app in Hk. by eapply is_prefix_app.
  - intros other k Hother Hne [rest2 H2]. apply Hkept. intros [rest1 H1]. apply Hne.
    apply (inj bytes_of). rewrite H1 in H2. subst prefix.
    rewrite !bytes_of_app, <- !app_assoc in H2. apply app_inv_head in H2.
    symmetry. eapply segment_inj; [by apply valid_test_key_segment.. | exact H2].
Qed.
End properties.

Section topology_properties.
Context `{EtcdLaws, Codec, MapOrder, GoStd}.

(** A caller holds a valid catalog it has read: if the key is still at that
    revision, it still stores that catalog. *)
Definition read_before (s : etcd) (key : string) (st : StoredTopology) : Prop :=
  ∃ v, unmarshal_catalog v = Some (Catalog st) ∧ topology.Validate (Catalog st) = Ok tt ∧
    0 < ModRevision st ≤ store_revision s ∧
    ∀ v', lookup s key = Some (v', ModRevision st) → v' = v.

(** The calls proxies make on the topology key. *)
Inductive topology_call (s : etcd) (key : string) : action StoredTopology → Prop :=
| call_bootstrap bootstrap : topology_call s key (VerifyOrBootstrap key bootstrap)
| call_reconcile registry now : topology_call s key (ReconcileSchema key registry now)
| call_update current next : read_before s key current →
    topology_call s key (Update key current next).

Lemma topology_call_safe s key p :
  topology_call s key p → ∃ K, safe key (replaces) returned K [] p ∧ sound key s K.
Proof.
  intros [bootstrap | registry [[t1 t2] t3] | current next (v & Hu & Hv & Hb & Hl)].
  - exists []. split; [apply VerifyOrBootstrap_safe | by intros ?? ?%elem_of_nil].
  - exists []. split; [apply reconcile_safe | by intros ?? ?%elem_of_nil].
  - exists [(v, ModRevision current)]. split.
    + apply Update_safe. exists v. split_and!; [set_solver | done | done | lia].
    + intros v' r [= -> ->]%list_elem_of_singleton. split; [lia | done].
Qed.

Lemma chain_publishes c0 v0 l :
  unmarshal_catalog v0 = Some c0 → chain replaces (Some v0) l →
  ∃ cs, l = marshal_catalog <$> cs ∧
    (Forall (λ c, unmarshal_catalog (marshal_catalog c) = Some c) cs →
     nsteps topology.publishes (length cs) c0 (default c0 (last cs))).
Proof.
  revert c0 v0. induction l as [|v l IH]; intros c0 v0 Hv0 Hc.
  - exists []. split; [done|]. intros _. constructor.
  - destruct Hc as [(c & c1 & Hu & -> & Ht) Hc]. rewrite Hv0 in Hu. injection Hu as <-.
    destruct (unmarshal_catalog (marshal_catalog c1)) as [c1'|] eqn:E1.
    + destruct (IH c1' _ E1 Hc) as (cs & -> & Hcs). exists (c1 :: cs). split; [done|].
      intros [Hround Hall]%Forall_cons. rewrite Hround in E1. injection E1 as <-.
      econstructor; [exact Ht|]. rewrite last_cons. specialize (Hcs Hall).
      by destruct (last cs).
    + destruct l as [|w l]; [|by destruct Hc as [(? & ? & ? & _) _]; congruence].
      exists [c1]. split; [done|]. intros [Hround _]%Forall_cons. congruence.
Qed.

(** C10: whatever calls proxies make concurrently on the
    topology key and whichever replies are lost, the catalogs that replace
    the one stored at the start form a chain in which each is an accepted
    transition from the one it replaces; an empty key receives a valid
    catalog first; and every call that returns holds a valid catalog, the
    one the key stores if it is still at the returned revision. *)
Theorem topology_history s key ps c :
  Forall (topology_call s key) ps → rtc (step key) (start s ps) c →
  (∀ v r c0, lookup s key = Some (v, r) → unmarshal_catalog v = Some c0 →
    ∃ cs, (applied c).*2 = marshal_catalog <$> cs ∧
      (Forall (λ c, unmarshal_catalog (marshal_catalog c) = Some c) cs →
       nsteps topology.publishes (length cs) c0 (default c0 (last cs)))) ∧
  (lookup s key = None → applied c ≠ [] → ∃ c0 cs,
    (applied c).*2 = marshal_catalog <$> c0 :: cs ∧ topology.Validate c0 = Ok tt ∧
    (Forall (λ c, unmarshal_catalog (marshal_catalog c) = Some c) (c0 :: cs) →
     nsteps topology.publishes (length cs) c0 (default c0 (last cs)))) ∧
  (∀ i st, proxies c !! i = Some (Return st) → read_before (store c) key st).
Proof.
  intros Hps Hr. assert (invariant key replaces returned (fst <$> lookup s key) c) as [Hc _ Hp].
  { eapply reachable_invariant; [|done]. intros i p Hi. apply topology_call_safe.
    by eapply Forall_lookup_1. }
  split; [|split].
  - intros v r c0 Hl Hu. rewrite Hl in Hc. by eapply chain_publishes.
  - intros Hl Hne. rewrite Hl in Hc. destruct (applied c) as [|[i v] l]; [done|].
    destruct Hc as [(c0 & Hvc & Hv) Hc]. cbn in Hvc. subst v. destruct (unmarshal_catalog (marshal_catalog c0)) as [c0'|] eqn:E.
    + destruct (chain_publishes _ _ _ E Hc) as (cs & Hl' & Hcs). exists c0, cs.
      split; [exact (f_equal (cons _) Hl')|]. split; [done|]. intros [Hround Hall]%Forall_cons.
      rewrite Hround in E. injection E as <-. by apply Hcs.
    + destruct l as [|w l]; [|by destruct Hc as [(? & ? & Hu & _) _]; cbn in Hu; congruence].
      exists c0, []. split; [done|]. split; [done|]. intros [Hround _]%Forall_cons. congruence.
  - intros i st Hi. destruct (Hp i _ Hi) as (K & W & (v & Hin & Hu & Hv & Hpos) & Hs & _).
    destruct (Hs _ _ Hin) as [[_ Hle] Hsame]. exists v. split_and!; done.
Qed.

(** without interference [Update] publishes an accepted
    successor only if the key is still at the revision the caller read, and
    returns it with its new revision; a caller that read an older revision,
    or that proposes a refused transition, gets an error and changes
    nothing. *)
Theorem Update_compare_and_swap s key current next :
  store_revision s < max_int64 → ModRevision current ≠ 0 →
  unmarshal_catalog (marshal_catalog next) = Some next →
  match topology.ValidateTransition (Catalog current) next with
  | Err e => run s (Update key current next) = (s, Err (InvalidTopology e))
  | Ok _ =>
    if bool_decide ((snd <$> lookup s key) = Some (ModRevision current))
    then ∃ s', written s key (marshal_catalog next) s' ∧
      run s (Update key current next) =
        (s', Ok {| Catalog := next; ModRevision := store_revision s + 1 |})
    else run s (Update key current next) = (s, Err TopologyConflict)
  end.
Proof.
  intros Hfit Hne Hround. unfold Update.
  destruct (topology.ValidateTransition (Catalog current) next) as [[]|e] eqn:Et; [|done].
  apply topology.ValidateTransition_wf in Et as (_ & Hwf%topology.Validate_wf & _).
  cbn [map_err of_result]. change (Return tt ≫= ?f) with (f tt). cbv beta. rewrite run_bind.
  assert (expected_at s key (ModRevision current) =
    bool_decide ((snd <$> lookup s key) = Some (ModRevision current))) as Hexp.
  { unfold expected_at. destruct (lookup s key) as [[v r]|]; cbn.
    - destruct (Z.eqb_spec r (ModRevision current)) as [->|Hr]; symmetry.
      + by apply bool_decide_eq_true_2.
      + apply bool_decide_eq_false_2. congruence.
    - rewrite (proj2 (Z.eqb_neq _ _)) by done. symmetry. by apply bool_decide_eq_false_2. }
  destruct (run_compareAndSwap s key (ModRevision current) next)
    as [(He & s' & Hw & ->) | (He & ->)]; rewrite <- Hexp, He; [|done].
  exists s'. split; [done|]. rewrite run_bind,
    (run_Get s' key {| Catalog := next; ModRevision := store_revision s' |}); [|..|done].
  - cbn. by rewrite (wr_revision _ _ _ _ Hw).
  - unfold revision_fits. rewrite (wr_revision _ _ _ _ Hw). lia.
  - by apply (written_stores s).
Qed.
End topology_properties.

Section registry_properties.
Context `{EtcdLaws, Codec, MapOrder, GoStd}.

(** C31: without interference, on a stored valid catalog that
    predates the change, [ReconcileSchema] publishes in its first attempt a
    catalog that passes [ValidateSchema] for the new registry: exactly the
    sharded tables are mapped, each to the distribution it had or else to
    the bootstrap distribution, and Burrows and distributions are kept. *)
Theorem ReconcileSchema_restores_compatibility s key registry t1 t2 t3 st :
  stores s key st → store_revision s < max_int64 →
  topology.Validate (Catalog st) = Ok tt → reconcilable registry t1 (Catalog st) →
  Forall (λ c, unmarshal_catalog (marshal_catalog c) = Some c)
    [Catalog st; reconciled registry t1 (Catalog st)] →
  ∃ s' next, run s (ReconcileSchema key registry (t1, t2, t3)) =
      (s', Ok {| Catalog := next; ModRevision := store_revision s + 1 |}) ∧
    written s key (marshal_catalog next) s' ∧
    topology.ValidateTransition (Catalog st) next = Ok tt ∧
    topology.ValidateSchema next registry = Ok tt ∧
    topology.Burrows next = topology.Burrows (Catalog st) ∧
    topology.Distributions next = topology.Distributions (Catalog st) ∧
    ∀ t, topology.TableDistributions next !! t =
      if decide (t ∈ schema.CanonicalShardedTables registry)
      then Some (default topology.BootstrapDistribution (topology.TableDistributions (Catalog st) !! t))
      else None.
Proof.
  intros Hst Hfit Hv Hrec [Hround1 [Hround2 _]%Forall_cons]%Forall_cons.
  set (next := reconciled registry t1 (Catalog st)) in *.
  pose proof (reconciled_transition registry t1 _ Hv Hrec) as Ht. fold next in Ht.
  pose proof Ht as (_ & Hwf%topology.Validate_wf & _)%topology.ValidateTransition_wf.
  assert (expected_at s key (ModRevision st) = true) as He.
  { destruct Hst as (v & Hl & _). unfold expected_at. rewrite Hl. apply Z.eqb_refl. }
  destruct (run_compareAndSwap s key (ModRevision st) next)
    as [(_ & s' & Hw & Hcas) | (Hf & _)]; [|by rewrite He in Hf].
  exists s', next. split_and!; try done; [|by apply reconciled_compatible | by apply reconciled_tables_lookup].
  unfold ReconcileSchema. cbn [reconcile_attempts].
  assert (run s' (Get key) = (s', Ok (Some {| Catalog := next; ModRevision := store_revision s' |}))) as Hget.
  { apply run_Get; [|by apply (written_stores s)|done].
    unfold revision_fits. rewrite (wr_revision _ _ _ _ Hw). lia. }
  assert (run s (Update key st next) = (s', Ok {| Catalog := next; ModRevision := store_revision s + 1 |})) as Hup.
  { unfold Update. rewrite Ht. cbn [map_err of_result]. change (Return tt ≫= ?f) with (f tt). cbv beta.
    rewrite run_bind, Hcas, run_bind, Hget. cbn. by rewrite (wr_revision _ _ _ _ Hw). }
  rewrite run_bind, (run_Get s key st) by (done || (unfold revision_fits; lia)).
  cbn [of_option]. change (Return st ≫= ?f) with (f st). cbv beta.
  unfold cloneCatalog. rewrite Hround1. cbn [of_option].
  change (Return (Catalog st) ≫= ?f) with (f (Catalog st)). cbv beta. fold next.
  by rewrite run_bind, run_attempt, Hup.
Qed.

(** The registry the key stores. *)
Definition registry_at (s : etcd) (key : string) (stored : option schema.Registry) : Prop :=
  match stored with
  | None => lookup s key = None
  | Some registry => ∃ v r snapshot, lookup s key = Some (v, r) ∧
      unmarshal_snapshot v = Some snapshot ∧ schema.FromJSON snapshot = registry
  end.

Lemma run_get s key stored :
  registry_at s key stored → run s (get key) = (s, Ok stored).
Proof.
  unfold get. rewrite run_range. destruct stored as [registry|]; cbn [registry_at].
  - intros (v & r & snapshot & -> & Hu & <-). cbn. by rewrite Hu.
  - by intros ->.
Qed.

Lemma run_put s key registry :
  ∃ s', run s (put key registry) = (s', Ok tt) ∧
    written s key (marshal_snapshot (schema.to_snapshot registry)) s'.
Proof.
  unfold put. cbn. destruct (serve_put s key (marshal_snapshot (schema.to_snapshot registry)))
    as (s' & -> & Hw). by exists s'.
Qed.

(** The revision a replacement records. *)
Definition replaced_revision (stored : option schema.Registry) (live : schema.Registry) : Z :=
  match stored with
  | None => 1
  | Some stored => if is_ok (schema.EqualSchema stored live) then schema.revision stored
                   else wrap 64 (schema.revision stored + 1)
  end.
Definition unchanged (stored : option schema.Registry) (live : schema.Registry) : bool :=
  match stored with None => false | Some stored => is_ok (schema.EqualSchema stored live) end.

Lemma run_write_revision s key live revision :
  ∃ s', run s (write_revision key live revision) = (s', Ok (schema.WithRevision live revision)) ∧
    written s key (marshal_snapshot (schema.to_snapshot (schema.WithRevision live revision))) s'.
Proof.
  unfold write_revision. destruct (run_put s key (schema.WithRevision live revision)) as (s' & Hrun & Hw).
  exists s'. split; [|done]. by rewrite run_bind, run_attempt, Hrun.
Qed.

Lemma run_ReplaceVersioned s key stored live :
  registry_at s key stored →
  ∃ s', run s (ReplaceVersioned key live) =
      (s', Ok (schema.WithRevision live (replaced_revision stored live))) ∧
    if unchanged stored live then s' = s
    else written s key (marshal_snapshot (schema.to_snapshot
           (schema.WithRevision live (replaced_revision stored live)))) s'.
Proof.
  intros Hat. unfold ReplaceVersioned. rewrite run_bind, (run_get _ _ _ Hat).
  destruct stored as [stored|]; cbn [unchanged replaced_revision].
  - destruct (is_ok (schema.EqualSchema stored live)); [by exists s | apply run_write_revision].
  - apply run_write_revision.
Qed.

(** a replacement without interference records the live schema:
    its revision is 1 on an empty Nest, is kept (and nothing is written) when
    the stored schema is equal, and otherwise is the successor of the stored
    one; a proxy that then verifies the same schema is accepted at that
    revision and writes nothing. *)
Theorem ReplaceVersioned_then_verify s key stored live :
  registry_at s key stored →
  schema.sorted_inventory live →
  match stored with Some r => 0 < schema.revision r < 2 ^ 64 - 1 | None => True end →
  (∀ rev, let snapshot := schema.to_snapshot (schema.WithRevision live rev) in
    unmarshal_snapshot (marshal_snapshot snapshot) = Some snapshot) →
  let revision := replaced_revision stored live in
  ∃ s', run s (ReplaceVersioned key live) = (s', Ok (schema.WithRevision live revision)) ∧
    (unchanged stored live = true → s' = s ∧ Some revision = schema.revision <$> stored) ∧
    (unchanged stored live = false → revision = 1 + default 0 (schema.revision <$> stored)) ∧
    run s' (VerifyOrSeedVersioned key live) = (s', Ok {|
      verified := schema.WithRevision live revision;
      LegacyVShardOwners := if unchanged stored live
        then default [] (schema.VShardOwners <$> stored) else [] |}).
Proof.
  intros Hat Hsorted Hrev Hround revision.
  destruct (run_ReplaceVersioned s key stored live Hat) as (s' & Hrun & Hs'). exists s'.
  split; [done|].
  assert (0 < revision ∧ (unchanged stored live = false →
    revision = 1 + default 0 (schema.revision <$> stored))) as [Hpos Hval].
  { subst revision. destruct stored as [r|]; cbn in *; [|done].
    destruct (is_ok _); [lia|]. unfold wrap. rewrite Z.mod_small by lia. split; [lia | intros; lia]. }
  unfold VerifyOrSeedVersioned. rewrite run_bind.
  destruct (unchanged stored live) eqn:Eq.
  - subst s'. destruct stored as [r|]; cbn in Eq; [|done].
    split; [by unfold revision, replaced_revision; cbn; rewrite Eq|]. split; [done|].
    rewrite (run_get _ _ _ Hat). unfold revision, replaced_revision. rewrite Eq.
    by apply is_ok_true in Eq as [[] ->].
  - split; [done|]. split; [done|].
    rewrite (run_get s' key (Some (schema.FromJSON (schema.to_snapshot (schema.WithRevision live revision))))).
    2:{ exists (marshal_snapshot (schema.to_snapshot (schema.WithRevision live revision))), (store_revision s'),
          (schema.to_snapshot (schema.WithRevision live revision)). split; [apply Hs'|]. split; [apply Hround | done]. }
    rewrite schema.decoded_snapshot by (done || (cbn; lia)).
    rewrite schema.EqualSchema_same by done. done.
Qed.

(** the get and the put of [ReplaceVersioned] are separate
    requests without a compare-and-swap.  Two proxies that replace the same
    stored registry with different schemas can both succeed and report the
    same revision, the second silently overwriting the first. *)
Theorem concurrent_replacements_share_revision s key stored live1 live2 :
  registry_at s key (Some stored) →
  unchanged (Some stored) live1 = false → unchanged (Some stored) live2 = false →
  let revision := wrap 64 (schema.revision stored + 1) in
  ∃ s', rtc (step key)
      (start s [ReplaceVersioned key live1; ReplaceVersioned key live2])
      {| store := s'; proxies := [Return (schema.WithRevision live1 revision);
                                  Return (schema.WithRevision live2 revision)];
         applied := [(0%nat, marshal_snapshot (schema.to_snapshot (schema.WithRevision live1 revision)));
                     (1%nat, marshal_snapshot (schema.to_snapshot (schema.WithRevision live2 revision)))] |} ∧
    fst <$> lookup s' key = Some (marshal_snapshot (schema.to_snapshot (schema.WithRevision live2 revision))).
Proof.
  intros (v & r & snapshot & Hl & Hu & <-) H1' H2' revision.
  destruct (serve_put s key (marshal_snapshot (schema.to_snapshot (schema.WithRevision live1 revision))))
    as (s1 & Hs1 & _).
  destruct (serve_put s1 key (marshal_snapshot (schema.to_snapshot (schema.WithRevision live2 revision))))
    as (s2 & Hs2 & Hw2).
  exists s2. split; [|by rewrite (wr_value _ _ _ _ Hw2)].
  cbn [unchanged] in H1', H2'.
  assert (∀ ps l i live, ps !! i = Some (ReplaceVersioned key live) →
    is_ok (schema.EqualSchema (schema.FromJSON snapshot) live) = false →
    step key {| store := s; proxies := ps; applied := l |}
      {| store := s; proxies := <[i := write_revision key live revision]> ps; applied := l |}) as Hread.
  { intros ps l i live Hi Hno.
    pose proof (step_served key s ps l i (Range key) _ (serve s (Range key)).2 Hi (or_introl eq_refl)) as Hst.
    rewrite serve_range, Hl in Hst. cbn in Hst. rewrite Hu in Hst. cbn in Hst. rewrite Hno, app_nil_r in Hst.
    exact Hst. }
  eapply rtc_l; [by apply (Hread _ _ 0%nat live1)|]. cbn [insert list_insert list_alter].
  eapply rtc_l; [by apply (Hread _ _ 1%nat live2)|].
  eapply rtc_l.
  { eapply (step_served key _ _ _ 0%nat); [done | by left]. }
  eapply rtc_l.
  { eapply (step_served key _ _ _ 1%nat); [done | by left]. }
  cbn. rewrite Hs1. cbn. rewrite Hs2. cbn. rewrite !decide_True by done. constructor.
Qed.
End registry_properties.

(** * Witnesses *)

(** One request of proxy [i], executed and answered. *)
Definition serve_proxy `{Etcd} {A} (key : string) (c : @config _ A) (i : nat) : config :=
  match proxies c !! i with
  | Some (Call q k) =>
    {| store := (serve (store c) q).1; proxies := <[i := k (serve (store c) q).2]> (proxies c);
       applied := applied c ++ (pair i <$> writes key (store c) q) |}
  | _ => c
  end.

Lemma serve_proxies_reachable `{Etcd} {A} key (c : @config _ A) schedule :
  rtc (step key) c (fold_left (serve_proxy key) schedule c).
Proof.
  revert c. induction schedule as [|i schedule IH]; intros c; cbn [fold_left]; [constructor|].
  destruct c as [s ps l]. unfold serve_proxy at 2. cbn [proxies].
  destruct (ps !! i) as [[a|e|q k]|] eqn:E; try apply IH.
  eapply rtc_l; [|apply IH]. cbn. eapply step_served; [done | by left].
Qed.

Lemma Next_values_unique_witness :
  ∃ c : @config history_etcd Z,
    proxies c = [Return 8; Return 9] ∧
    (∀ i j a, proxies c !! i = Some (Return a) → proxies c !! j = Some (Return a) → i = j).
Proof.
  set (c := fold_left (serve_proxy "ids") [0; 1; 0; 1; 1; 1]%nat
    (@start history_etcd Z [Stored "ids" "7"] (replicate 2 (Next "ids")))).
  exists c. split; [vm_compute; reflexivity|].
  refine (proj1 (@Next_values_unique history_etcd _ [Stored "ids" "7"] "ids" 2 c _)).
  apply serve_proxies_reachable.
Defined.

Lemma Next_alone_witness :
  ∃ s', @run history_etcd Z [Stored "ids" "7"] (Next "ids") = (s', Ok 8).
Proof.
  destruct (@Next_alone history_etcd _ [Stored "ids" "7"] "ids") as (s' & Hrun & _).
  - vm_compute. discriminate.
  - exists s'. exact Hrun.
Defined.

Lemma DeleteTestNamespace_exact_witness :
  ∃ s' r, @run history_etcd Z
      [Stored "/hamstergres/tests/run-1/ids" "7"; Stored "/hamstergres/ids" "9"]
      (DeleteTestNamespace "run-1") = (s', r) ∧
    @lookup history_etcd s' "/hamstergres/tests/run-1/ids" = None ∧
    @lookup history_etcd s' "/hamstergres/ids" = Some ("9", 1).
Proof.
  destruct (@DeleteTestNamespace_exact history_etcd _
    [Stored "/hamstergres/tests/run-1/ids" "7"; Stored "/hamstergres/ids" "9"] "run-1")
    as (s' & r & Hrun & _ & Hall & Hroot & _).
  exists s', r. split; [exact Hrun|]. split.
  - apply (Hall eq_refl). by eexists.
  - rewrite Hroot; [vm_compute; reflexivity|]. intros [rest [=]].
Defined.

(** Documents numbered by their place in a list; snapshots that differ from
    [base] only in their revision. *)
#[local] Existing Instance topology.Catalog_eq_dec.
Definition numbered_codec (cs : list topology.Catalog) (base : schema.Registry) : Codec := {|
  marshal_catalog c := FormatInt (Z.of_nat (default (length cs) (fst <$> list_find (eq c) cs)));
  unmarshal_catalog v := i ← SetString10 v; cs !! Z.to_nat i;
  marshal_snapshot s := FormatInt (schema.s_Revision s);
  unmarshal_snapshot v := r ← SetString10 v;
    Some (schema.to_snapshot (schema.WithRevision base r));
|}.
Definition two_catalogs : Codec :=
  numbered_codec [topology.catalog1; topology.catalog2] schema.accounts.

Lemma topology_history_witness :
  ∃ c : @config history_etcd StoredTopology,
    proxies c = [Return {| Catalog := topology.catalog2; ModRevision := 2 |}] ∧
    ∃ cs, (applied c).*2 = @marshal_catalog two_catalogs <$> cs ∧
      (Forall (λ c, @unmarshal_catalog two_catalogs (@marshal_catalog two_catalogs c) = Some c) cs →
       nsteps (@topology.publishes canonical_order) (length cs) topology.catalog1
         (default topology.catalog1 (last cs))).
Proof.
  set (s := [Stored "topology" "0"] : @etcd history_etcd).
  set (ps := [@Update two_catalogs canonical_order "topology"
    {| Catalog := topology.catalog1; ModRevision := 1 |} topology.catalog2]).
  set (c := fold_left (@serve_proxy history_etcd _ "topology") [0; 0]%nat (start s ps)).
  exists c. split; [vm_compute; reflexivity|].
  destruct (@topology_history history_etcd _ two_catalogs canonical_order toy_std
    s "topology" ps c) as (Hchain & _ & _).
  - apply Forall_singleton. constructor. exists "0". split; [vm_compute; reflexivity|].
    split; [vm_compute; reflexivity|]. split; [split; vm_compute; [done | discriminate]|].
    intros v'. vm_compute. congruence.
  - apply serve_proxies_reachable.
  - exact (Hchain "0" 1 topology.catalog1 eq_refl ltac:(vm_compute; reflexivity)).
Defined.

Lemma Update_compare_and_swap_witness :
  @run history_etcd _ [Stored "other" "x"; Stored "topology" "0"]
    (@Update two_catalogs canonical_order "topology"
      {| Catalog := topology.catalog1; ModRevision := 2 |} topology.catalog2) =
    ([Stored "other" "x"; Stored "topology" "0"], Err TopologyConflict).
Proof.
  exact (@Update_compare_and_swap history_etcd _ two_catalogs canonical_order
    [Stored "other" "x"; Stored "topology" "0"] "topology"
    {| Catalog := topology.catalog1; ModRevision := 2 |} topology.catalog2
    ltac:(vm_compute; reflexivity) ltac:(discriminate) ltac:(vm_compute; reflexivity)).
Defined.

Definition bootstrapped : topology.Catalog := {|
  topology.FormatVersion := 1; topology.Revision := 1;
  topology.Schema := topology.Schema topology.catalog1;
  topology.Burrows := topology.Burrows topology.catalog1;
  topology.Distributions := [{| topology.DistributionID := topology.BootstrapDistribution;
    topology.VShardCount := 3; topology.BurrowIDs := ["id-b"; "id-a"];
    topology.OwnerIndexes := [0%N; 1%N; 0%N] |}];
  topology.TableDistributions := {["public.dropped" := topology.BootstrapDistribution]};
  topology.Change := topology.Change topology.catalog1 |}.
Definition reconciled_catalog : topology.Catalog :=
  @reconciled canonical_order toy_std schema.accounts 2 bootstrapped.
Definition reconcile_codec : Codec :=
  numbered_codec [bootstrapped; reconciled_catalog] schema.accounts.

Lemma ReconcileSchema_restores_compatibility_witness :
  ∃ s' next, @run history_etcd _ [Stored "topology" "0"]
      (@ReconcileSchema reconcile_codec canonical_order toy_std "topology" schema.accounts (2, 3, 4)) =
      (s', Ok {| Catalog := next; ModRevision := 2 |}) ∧
    @topology.ValidateSchema canonical_order toy_std next schema.accounts = Ok tt.
Proof.
  destruct (@ReconcileSchema_restores_compatibility history_etcd _ reconcile_codec canonical_order toy_std
    [Stored "topology" "0"] "topology" schema.accounts 2 3 4
    {| Catalog := bootstrapped; ModRevision := 1 |}) as (s' & next & Hrun & _ & _ & Hv & _).
  - exists "0". split; vm_compute; reflexivity.
  - vm_compute. reflexivity.
  - vm_compute. reflexivity.
  - unfold reconcilable. split; [vm_compute; discriminate|]. split; [vm_compute; reflexivity|].
    split; [done|]. split; [split; vm_compute; [discriminate | reflexivity]|].
    split; by_computation.
  - by_computation.
  - exists s', next. exact (conj Hrun Hv).
Defined.

Lemma ReplaceVersioned_then_verify_witness :
  ∃ s', @run history_etcd _ []
      (@ReplaceVersioned (numbered_codec [] schema.accounts) canonical_order "schema" schema.accounts) =
      (s', Ok (schema.WithRevision schema.accounts 1)) ∧
    @run history_etcd _ s'
      (@VerifyOrSeedVersioned (numbered_codec [] schema.accounts) canonical_order "schema" schema.accounts) =
      (s', Ok {| verified := schema.WithRevision schema.accounts 1; LegacyVShardOwners := [] |}).
Proof.
  destruct (@ReplaceVersioned_then_verify history_etcd _ (numbered_codec [] schema.accounts)
    canonical_order [] "schema" None schema.accounts) as (s' & Hrun & _ & _ & Hverify).
  - reflexivity.
  - apply schema.WithAllTables_sorted with (r := schema.zero_registry).
  - exact I.
  - intros rev snapshot. subst snapshot. cbn. by rewrite SetString10_FormatInt.
  - exists s'. exact (conj Hrun Hverify).
Defined.

Definition widened : schema.Registry := schema.WithAllTables schema.accounts ["public.accounts"; "public.t"].

Lemma concurrent_replacements_share_revision_witness :
  ∃ s', rtc (@step history_etcd "schema" _)
      (@start history_etcd _ [Stored "schema" "5"]
        [@ReplaceVersioned (numbered_codec [] schema.accounts) canonical_order "schema" widened;
         @ReplaceVersioned (numbered_codec [] schema.accounts) canonical_order "schema" schema.zero_registry])
      s' ∧
    proxies s' = [Return (schema.WithRevision widened 6); Return (schema.WithRevision schema.zero_registry 6)].
Proof.
  destruct (@concurrent_replacements_share_revision history_etcd _ (numbered_codec [] schema.accounts)
    canonical_order [Stored "schema" "5"] "schema" (schema.FromJSON (schema.to_snapshot
      (schema.WithRevision schema.accounts 5))) widened schema.zero_registry) as (s' & Hsteps & _).
  - eexists _, _, _. split; [reflexivity|]. split; [|reflexivity]. vm_compute. reflexivity.
  - vm_compute. reflexivity.
  - vm_compute. reflexivity.
  - eexists. split; [exact Hsteps | reflexivity].
Defined.

End nest.
