(* ===== verification/Session.v ===== *)
(** The state a proxy keeps for one client session, from
    [internal/proxy/server.go]: the transaction flags and write participants,
    the tracking of temporary relations across savepoints, and the session
    settings that are replayed on other connections. *)
From S2P Require Import Prelude.
From S2P Require Import GoStrings.
From S2P Require Import PgQuery.

Module session.

(** * State *)

(** The three collections a [temporaryRelationSnapshot] clones; the methods
    called by [ensureTemporaryState] make nil collections empty before any
    write, so nil and empty are not distinguished. *)
Record temporaries := {
  relations : gset string; onCommitDrop : gset string; indexParents : gmap string string;
}.
Record temporaryRelationSnapshot := { snapshot_name : string; saved : temporaries }.
Record sessionSetting := { setting_name : string; setting_sql : string }.

Record extendedState := {
  transaction : bool; transactionFailed : bool; mutated : bool; target : string;
  schemaDirty : bool; writeParticipants : gset string;
  sessionAffinity : bool; sessionDestroy : bool; sessionDiscardPrepared : bool;
  sessionSettings : list sessionSetting;
  temporary : temporaries; temporarySnapshots : list temporaryRelationSnapshot;
}.

Definition no_temporaries : temporaries :=
  {| relations := ∅; onCommitDrop := ∅; indexParents := ∅ |}.
Definition new_session : extendedState := {|
  transaction := false; transactionFailed := false; mutated := false; target := "";
  schemaDirty := false; writeParticipants := ∅; sessionAffinity := false;
  sessionDestroy := false; sessionDiscardPrepared := false; sessionSettings := [];
  temporary := no_temporaries; temporarySnapshots := [] |}.

Definition with_temporary (t : temporaries) (s : extendedState) : extendedState := {|
  transaction := transaction s; transactionFailed := transactionFailed s; mutated := mutated s;
  target := target s; schemaDirty := schemaDirty s; writeParticipants := writeParticipants s;
  sessionAffinity := sessionAffinity s; sessionDestroy := sessionDestroy s;
  sessionDiscardPrepared := sessionDiscardPrepared s; sessionSettings := sessionSettings s;
  temporary := t; temporarySnapshots := temporarySnapshots s |}.
Definition with_snapshots (l : list temporaryRelationSnapshot) (s : extendedState) : extendedState := {|
  transaction := transaction s; transactionFailed := transactionFailed s; mutated := mutated s;
  target := target s; schemaDirty := schemaDirty s; writeParticipants := writeParticipants s;
  sessionAffinity := sessionAffinity s; sessionDestroy := sessionDestroy s;
  sessionDiscardPrepared := sessionDiscardPrepared s; sessionSettings := sessionSettings s;
  temporary := temporary s; temporarySnapshots := l |}.
(** [state.transaction = t; state.transactionFailed = false] *)
Definition in_transaction (t : bool) (s : extendedState) : extendedState := {|
  transaction := t; transactionFailed := false; mutated := mutated s;
  target := target s; schemaDirty := schemaDirty s; writeParticipants := writeParticipants s;
  sessionAffinity := sessionAffinity s; sessionDestroy := sessionDestroy s;
  sessionDiscardPrepared := sessionDiscardPrepared s; sessionSettings := sessionSettings s;
  temporary := temporary s; temporarySnapshots := temporarySnapshots s |}.
Definition with_writes (m : bool) (t : string) (p : gset string) (s : extendedState) : extendedState := {|
  transaction := transaction s; transactionFailed := transactionFailed s; mutated := m;
  target := t; schemaDirty := schemaDirty s; writeParticipants := p;
  sessionAffinity := sessionAffinity s; sessionDestroy := sessionDestroy s;
  sessionDiscardPrepared := sessionDiscardPrepared s; sessionSettings := sessionSettings s;
  temporary := temporary s; temporarySnapshots := temporarySnapshots s |}.
Definition with_policy (affinity destroy discard : bool) (settings : list sessionSetting)
    (s : extendedState) : extendedState := {|
  transaction := transaction s; transactionFailed := transactionFailed s; mutated := mutated s;
  target := target s; schemaDirty := schemaDirty s; writeParticipants := writeParticipants s;
  sessionAffinity := affinity; sessionDestroy := destroy;
  sessionDiscardPrepared := discard; sessionSettings := settings;
  temporary := temporary s; temporarySnapshots := temporarySnapshots s |}.

Definition txStatus (s : extendedState) : byte :=
  if transaction s && transactionFailed s then "E"%char
  else if transaction s then "T"%char else "I"%char.

(** * Names of temporary relations *)

Record temporaryObjectName := { schema : string; name : string }.

Definition is_pg_temp (n : temporaryObjectName) : bool :=
  bool_decide (schema n = "") || EqualFold (schema n) "pg_temp".

Definition temporaryNameKeys (n : temporaryObjectName) : list string :=
  if decide (name n = "") then [] else
  if is_pg_temp n then [name n; "pg_temp." +:+ name n] else [schema n +:+ "." +:+ name n].

Definition temporaryNameCanonical (n : temporaryObjectName) : string :=
  if is_pg_temp n then "pg_temp." +:+ name n else schema n +:+ "." +:+ name n.

Definition object_of (relation : message) : temporaryObjectName :=
  {| schema := get_string (Some relation) "Schemaname"; name := get_string (Some relation) "Relname" |}.
Definition temporaryRelationKeys (relation : message) : list string :=
  temporaryNameKeys (object_of relation).
Definition temporaryRelationCanonicalName (relation : message) : string :=
  temporaryNameCanonical (object_of relation).

Definition relationSetContains (set : gset string) (relation : option message) : bool :=
  match relation with
  | None => false
  | Some relation =>
    let n := object_of relation in
    if decide (name n = "") then false else
    if decide (schema n = "") then bool_decide (name n ∈ set) else
    if EqualFold (schema n) "pg_temp"
    then bool_decide ("pg_temp." +:+ name n ∈ set) || bool_decide (name n ∈ set)
    else bool_decide (schema n +:+ "." +:+ name n ∈ set)
  end.

(** * Statements that create, rename and drop temporary relations *)

Definition rememberTemporaryRelation (in_tx : bool) (relation : option message) (onCommit : string)
    (t : temporaries) : temporaries :=
  match relation with
  | None => t
  | Some relation =>
    if decide (get_string (Some relation) "Relname" = "" ∨ (onCommit = "ONCOMMIT_DROP" ∧ in_tx = false))
    then t else
    fold_left (λ t key, {|
      relations := {[key]} ∪ relations t;
      onCommitDrop := if decide (onCommit = "ONCOMMIT_DROP") then {[key]} ∪ onCommitDrop t else onCommitDrop t;
      indexParents := indexParents t |}) (temporaryRelationKeys relation) t
  end.

Definition index_object (index : message) : temporaryObjectName := {|
  schema := if EqualFold (get_string (get_msg (Some index) "Relation") "Schemaname") "pg_temp"
            then "pg_temp" else "";
  name := get_string (Some index) "Idxname" |}.

Definition rememberTemporaryIndex (index relation : message) (t : temporaries) : temporaries :=
  let parent := temporaryRelationCanonicalName relation in
  fold_left (λ t key, {|
    relations := {[key]} ∪ relations t; onCommitDrop := onCommitDrop t;
    indexParents := <[key := parent]> (indexParents t) |})
    (temporaryNameKeys (index_object index)) t.

Definition relation_object_types : list string :=
  ["OBJECT_TABLE"; "OBJECT_INDEX"; "OBJECT_SEQUENCE"; "OBJECT_VIEW"; "OBJECT_MATVIEW";
   "OBJECT_FOREIGN_TABLE"].
Definition renameTargetsRelation (objectType : string) : bool :=
  bool_decide (objectType ∈ relation_object_types).
Definition dropTargetsTemporaryRelations (drop : message) : bool :=
  bool_decide (get_enum (Some drop) "RemoveType" ∈ relation_object_types).

(** The last index parent among the old keys, which are removed. *)
Definition take_index_parent (keys : list string) (t : temporaries) : string * temporaries :=
  fold_left (λ '(parent, t) key,
    (default parent (indexParents t !! key), {|
      relations := relations t ∖ {[key]}; onCommitDrop := onCommitDrop t;
      indexParents := delete key (indexParents t) |})) keys ("", t).

Definition renameTemporaryRelation (rename : message) (t : temporaries) : temporaries :=
  match get_msg (Some rename) "Relation" with
  | None => t
  | Some relation =>
    let newname := get_string (Some rename) "Newname" in
    if bool_decide (newname = "") || negb (renameTargetsRelation (get_enum (Some rename) "RenameType"))
       || negb (relationSetContains (relations t) (Some relation)) then t else
    let oldKeys := temporaryRelationKeys relation in
    let newObject := {| schema := schema (object_of relation); name := newname |} in
    let newKeys := temporaryNameKeys newObject in
    let '(indexParent, t) := take_index_parent oldKeys t in
    if decide (indexParent ≠ "") then
      fold_left (λ t key, {|
        relations := {[key]} ∪ relations t; onCommitDrop := onCommitDrop t;
        indexParents := <[key := indexParent]> (indexParents t) |}) newKeys t
    else
      let oldCanonical := temporaryRelationCanonicalName relation in
      let newCanonical := temporaryNameCanonical newObject in
      let drop := existsb (λ key, bool_decide (key ∈ onCommitDrop t)) oldKeys in
      let t := {| relations := relations t;
        onCommitDrop := fold_left (λ s key, s ∖ {[key]}) oldKeys (onCommitDrop t);
        indexParents := (λ parent, if decide (parent = oldCanonical) then newCanonical else parent)
                          <$> indexParents t |} in
      fold_left (λ t key, {|
        relations := {[key]} ∪ relations t;
        onCommitDrop := if drop then {[key]} ∪ onCommitDrop t else onCommitDrop t;
        indexParents := indexParents t |}) newKeys t
  end.

(** The keys of [indexParents] whose parent satisfies [P]. *)
Definition indexes_of (P : string → bool) (m : gmap string string) : gset string :=
  dom (filter (λ p, P p.2 = true) m).
Definition drop_keys (keys : gset string) (t : temporaries) : temporaries := {|
  relations := relations t ∖ keys; onCommitDrop := onCommitDrop t;
  indexParents := filter (λ p, p.1 ∉ keys) (indexParents t) |}.

Definition forgetTemporaryName (cascade : bool) (t : temporaries) (n : temporaryObjectName)
    : temporaries :=
  let canonical := temporaryNameCanonical n in
  let keys : gset string := list_to_set (temporaryNameKeys n) in
  let t := drop_keys keys {| relations := relations t; onCommitDrop := onCommitDrop t ∖ keys;
                             indexParents := indexParents t |} in
  if cascade then drop_keys (indexes_of (λ parent, bool_decide (parent = canonical)) (indexParents t)) t
  else t.

Definition dropObjectNames (drop : message) : list temporaryObjectName :=
  omap (λ object,
    match as_node "List" (Some object) with
    | None => None
    | Some l =>
      let parts := omap (λ item, match as_node "String" (Some item) with
        | Some value => Some (get_string (Some value) "Sval") | None => None end)
        (get_list (Some l) "Items") in
      match rev parts with
      | [] => None
      | [last] => Some {| schema := ""; name := last |}
      | last :: before :: _ => Some {| schema := before; name := last |}
      end
    end) (get_list (Some drop) "Objects").

(** A relation created with temporary persistence. *)
Definition temporary_relation (relation : option message) : bool :=
  match relation with
  | Some r => bool_decide (get_string (Some r) "Relpersistence" = "t")
  | None => false
  end.
Definition remember_if_temporary (in_tx : bool) (relation : option message) (onCommit : string)
    (t : temporaries) : temporaries :=
  if temporary_relation relation then rememberTemporaryRelation in_tx relation onCommit t else t.

Definition rememberTemporaryStatement (in_tx : bool) (statement : message) (t : temporaries)
    : temporaries :=
  let get_stmt k := as_node k (Some statement) in
  let t := match get_stmt "CreateStmt" with
    | Some create => remember_if_temporary in_tx (get_msg (Some create) "Relation")
                       (get_enum (Some create) "Oncommit") t
    | None => t end in
  let t := match get_stmt "CreateTableAsStmt" with
    | Some createAs =>
      let into := get_msg (Some createAs) "Into" in
      remember_if_temporary in_tx (get_msg into "Rel") (get_enum into "OnCommit") t
    | None => t end in
  let t := match get_stmt "SelectStmt" with
    | Some select =>
      let into := get_msg (Some select) "IntoClause" in
      remember_if_temporary in_tx (get_msg into "Rel") (get_enum into "OnCommit") t
    | None => t end in
  let t := match get_stmt "IndexStmt" with
    | Some index =>
      match get_msg (Some index) "Relation" with
      | Some relation =>
        if relationSetContains (relations t) (Some relation)
           && bool_decide (get_string (Some index) "Idxname" ≠ "")
        then rememberTemporaryIndex index relation t else t
      | None => t
      end
    | None => t end in
  let t := match get_stmt "RenameStmt" with
    | Some rename => renameTemporaryRelation rename t | None => t end in
  let t := match get_stmt "DropStmt" with
    | Some drop =>
      if dropTargetsTemporaryRelations drop then
        let cascade := bool_decide (get_enum (Some drop) "RemoveType" ≠ "OBJECT_INDEX") in
        fold_left (forgetTemporaryName cascade) (dropObjectNames drop) t
      else t
    | None => t end in
  match get_stmt "DiscardStmt" with
  | Some discard =>
    if decide (get_enum (Some discard) "Target" ∈ ["DISCARD_TEMP"; "DISCARD_ALL"])
    then no_temporaries else t
  | None => t end.

(** * Savepoints *)

Definition temporarySnapshot (n : string) (s : extendedState) : temporaryRelationSnapshot :=
  {| snapshot_name := n; saved := temporary s |}.

Definition beginTemporaryTransaction (s : extendedState) : extendedState :=
  match temporarySnapshots s with
  | [] => with_snapshots [temporarySnapshot "" s] s
  | _ => s
  end.

Definition rememberTemporarySavepoint (n : string) (s : extendedState) : extendedState :=
  let s := beginTemporaryTransaction s in
  with_snapshots (temporarySnapshots s ++ [temporarySnapshot n s]) s.

(** The greatest index from 1 up whose snapshot has the name. *)
Fixpoint find_savepoint (n : string) (index : nat) (l : list temporaryRelationSnapshot) : option nat :=
  match index with
  | O => None
  | S before =>
    match l !! index with
    | Some snapshot => if decide (snapshot_name snapshot = n) then Some index else find_savepoint n before l
    | None => find_savepoint n before l
    end
  end.
Definition last_savepoint (n : string) (l : list temporaryRelationSnapshot) : option nat :=
  find_savepoint n (length l - 1) l.

Definition restoreTemporarySnapshot (snapshot : temporaryRelationSnapshot) (s : extendedState)
    : extendedState := with_temporary (saved snapshot) s.

Definition restoreTemporarySavepoint (n : string) (s : extendedState) : extendedState :=
  match last_savepoint n (temporarySnapshots s) with
  | None => s
  | Some index =>
    match temporarySnapshots s !! index with
    | Some snapshot => with_snapshots (take (S index) (temporarySnapshots s)) (restoreTemporarySnapshot snapshot s)
    | None => s
    end
  end.

Definition releaseTemporarySavepoint (n : string) (s : extendedState) : extendedState :=
  match last_savepoint n (temporarySnapshots s) with
  | None => s
  | Some index => with_snapshots (take index (temporarySnapshots s)) s
  end.

Definition on_commit_parent (key : string) : string :=
  if ContainsByte key "."%char then key else "pg_temp." +:+ key.

Definition applyTemporaryOnCommitDrop (t : temporaries) : temporaries :=
  let parents := set_map (D := gset string) on_commit_parent (onCommitDrop t) in
  let t := drop_keys (onCommitDrop t) t in
  let t := {| relations := relations t; onCommitDrop := ∅; indexParents := indexParents t |} in
  drop_keys (indexes_of (λ parent, bool_decide (parent ∈ parents)) (indexParents t)) t.

Definition finishTemporaryTransaction (commit chain : bool) (s : extendedState) : extendedState :=
  let s := if commit then with_temporary (applyTemporaryOnCommitDrop (temporary s)) s else
    match temporarySnapshots s with
    | first :: _ => restoreTemporarySnapshot first s
    | [] => s
    end in
  let s := with_snapshots [] s in
  if chain then beginTemporaryTransaction s else s.

(** * Transaction statements *)

(** [state.target = ""; state.mutated = false; clear(state.writeParticipants)] *)
Definition forget_writes : extendedState → extendedState := with_writes false "" ∅.

Definition updateTransactionStatement (tx : message) (s : extendedState) : extendedState :=
  let kind := get_enum (Some tx) "Kind" in
  let savepoint := get_string (Some tx) "SavepointName" in
  if decide (kind ∈ ["TRANS_STMT_BEGIN"; "TRANS_STMT_START"]) then
    forget_writes (in_transaction true (beginTemporaryTransaction s))
  else if decide (kind = "TRANS_STMT_SAVEPOINT") then rememberTemporarySavepoint savepoint s
  else if decide (kind = "TRANS_STMT_ROLLBACK_TO") then
    in_transaction true (restoreTemporarySavepoint savepoint s)
  else if decide (kind = "TRANS_STMT_RELEASE") then releaseTemporarySavepoint savepoint s
  else if decide (kind ∈ ["TRANS_STMT_COMMIT"; "TRANS_STMT_ROLLBACK"]) then
    let chain := get_bool (Some tx) "Chain" in
    forget_writes (in_transaction chain
      (finishTemporaryTransaction (bool_decide (kind = "TRANS_STMT_COMMIT")) chain s))
  else if decide (kind ∈ ["TRANS_STMT_PREPARE"; "TRANS_STMT_COMMIT_PREPARED"; "TRANS_STMT_ROLLBACK_PREPARED"]) then
    forget_writes (in_transaction false s)
  else s.

(** One iteration of the loop of [applySuccessfulSQLState]. *)
Definition apply_statement (s : extendedState) (raw : message) : extendedState :=
  match get_msg (Some raw) "Stmt" with
  | None => s
  | Some statement =>
    match as_node "TransactionStmt" (Some statement) with
    | Some tx => updateTransactionStatement tx s
    | None => with_temporary (rememberTemporaryStatement (transaction s) statement (temporary s)) s
    end
  end.

Definition applySuccessfulSQLState `{PgQuery} (s : extendedState) (sql : string) : extendedState :=
  match PgQuery.Parse sql with
  | None => s
  | Some tree => fold_left apply_statement (get_list (Some tree) "Stmts") s
  end.

(** * Keywords and writes *)

(** The comment-skipping loop of [firstSQLKeyword]. *)
Fixpoint skip_comments (fuel : nat) (trimmed : string) : option string :=
  match fuel with
  | O => None
  | S fuel =>
    if HasPrefix trimmed "--" then
      match IndexByte trimmed (byte_of 10) with
      | Some index => skip_comments fuel (TrimSpace (drop_string (index + 1) trimmed))
      | None => None
      end
    else if HasPrefix trimmed "/*" then
      match Index trimmed "*/" with
      | Some index => skip_comments fuel (TrimSpace (drop_string (index + 2) trimmed))
      | None => None
      end
    else Some trimmed
  end.

Definition firstSQLKeyword (sql : string) : string :=
  let trimmed := TrimSpace sql in
  match skip_comments (S (String.length trimmed)) trimmed with
  | None => ""
  | Some trimmed =>
    match IndexFunc (λ c, negb (is_upper c || is_lower c)) trimmed with
    | Some index => ToUpper (take_string index trimmed)
    | None => ToUpper trimmed
    end
  end.

Definition requiresRoutedWrite (sql : string) : bool :=
  bool_decide (firstSQLKeyword sql ∈ ["INSERT"; "UPDATE"; "DELETE"; "MERGE"]).
Definition isTransactionControl (sql : string) : bool :=
  bool_decide (firstSQLKeyword sql ∈ ["BEGIN"; "START"; "COMMIT"; "END"; "ROLLBACK"; "ABORT"]).
Definition isTransactionCommit (sql : string) : bool :=
  bool_decide (firstSQLKeyword sql ∈ ["COMMIT"; "END"]).
Definition invalidatesPreparedStatements (sql : string) : bool :=
  bool_decide (firstSQLKeyword sql ∈ ["DEALLOCATE"; "DISCARD"]).

(** [fleetWrite] is the result of [requiresFleetWriteOrder]. *)
Definition recordWriteParticipants (sql : string) (fleetWrite : bool) (targets : list string)
    (s : extendedState) : extendedState :=
  if negb (transaction s) || (negb (requiresRoutedWrite sql) && negb fleetWrite) then s
  else with_writes true (target s) (list_to_set targets ∪ writeParticipants s) s.

Definition participantNames (participants : gset string) : list string :=
  sort_strings (elements participants).

(** The guard of [handleSessionQuery] before [handleTwoPhaseCommit]. *)
Definition commits_in_two_phases (twoPhaseCommit : bool) (sql : string) (s : extendedState) : bool :=
  transaction s && negb (transactionFailed s) && mutated s && twoPhaseCommit
  && (bool_decide (firstSQLKeyword sql = "COMMIT") || bool_decide (firstSQLKeyword sql = "END"))
  && bool_decide (1 < size (writeParticipants s))%nat.

(** * Session settings *)

Record sessionStatePolicy := {
  requiresBackend : bool; pin : bool; destroy : bool; discardPrepared : bool;
  resetAll : bool; replayName : string; replaySQL : string;
}.
Definition no_policy : sessionStatePolicy := {|
  requiresBackend := false; pin := false; destroy := false; discardPrepared := false;
  resetAll := false; replayName := ""; replaySQL := "" |}.
Definition backend_policy (pin destroy discardPrepared resetAll : bool) : sessionStatePolicy := {|
  requiresBackend := true; pin := pin; destroy := destroy; discardPrepared := discardPrepared;
  resetAll := resetAll; replayName := ""; replaySQL := "" |}.

Definition isPGSettingsRelation (relation : option message) : bool :=
  match relation with
  | None => false
  | Some r =>
    EqualFold (get_string (Some r) "Relname") "pg_settings"
    && (bool_decide (get_string (Some r) "Schemaname" = "")
        || EqualFold (get_string (Some r) "Schemaname") "pg_catalog")
  end.

(** The lower-cased last part of a function's name. *)
Definition functionName (call : message) : string :=
  let parts := omap (λ node, match as_node "String" (Some node) with
    | Some value => Some (get_string (Some value) "Sval") | None => None end)
    (get_list (Some call) "Funcname") in
  match last parts with Some part => ToLower part | None => "" end.

Definition session_functions : list string :=
  ["set_config"; "pg_advisory_lock"; "pg_advisory_lock_shared"; "pg_try_advisory_lock";
   "pg_try_advisory_lock_shared"].

Definition is_session_state (m : message) : bool :=
  (bool_decide (msg_name m = "RangeVar") && bool_decide (get_string (Some m) "Relpersistence" = "t"))
  || (bool_decide (msg_name m = "FuncCall") && bool_decide (functionName m ∈ session_functions)).

(** The recursion over every nested message. *)
Definition protobufContainsSessionState (statement : message) : bool :=
  existsb is_session_state (visited statement).

Definition replayable_kinds : list string :=
  ["VAR_SET_VALUE"; "VAR_SET_DEFAULT"; "VAR_SET_CURRENT"; "VAR_RESET"].

Definition classify_variable (variable : message) (sql : string) : sessionStatePolicy :=
  if get_bool (Some variable) "IsLocal" then backend_policy false false false false else
  let kind := get_enum (Some variable) "Kind" in
  if decide (kind = "VAR_RESET_ALL") then backend_policy false false false true else
  if decide (kind ∈ replayable_kinds ∧ get_string (Some variable) "Name" ≠ "") then
    {| requiresBackend := true; pin := false; destroy := false; discardPrepared := false;
       resetAll := false; replayName := ToLower (get_string (Some variable) "Name"); replaySQL := sql |}
  else backend_policy true false false false.

Definition classifyRawSessionState (raw : message) (sql : string) : sessionStatePolicy :=
  match get_msg (Some raw) "Stmt" with
  | None => no_policy
  | Some statement =>
    let has k := bool_decide (is_Some (as_node k (Some statement))) in
    match as_node "VariableSetStmt" (Some statement), as_node "DiscardStmt" (Some statement) with
    | Some variable, _ => classify_variable variable sql
    | None, Some discard =>
      if decide (get_enum (Some discard) "Target" = "DISCARD_ALL")
      then backend_policy false false false true else backend_policy true false false false
    | None, None =>
      if has "PrepareStmt" then backend_policy true false true false else
      if isPGSettingsRelation (update ← as_node "UpdateStmt" (Some statement); get_msg (Some update) "Relation")
      then backend_policy true false false false else
      if has "ListenStmt" || has "UnlistenStmt" || has "DeclareCursorStmt"
      then backend_policy true false false false else
      if has "DoStmt" || has "LoadStmt" then backend_policy true true false false else
      if protobufContainsSessionState statement then backend_policy true false false false
      else no_policy
    end
  end.

Definition combine_policy (combined policy : sessionStatePolicy) : sessionStatePolicy := {|
  requiresBackend := requiresBackend combined || requiresBackend policy;
  pin := pin combined || pin policy || bool_decide (replayName policy ≠ "") || resetAll policy;
  destroy := destroy combined || destroy policy;
  discardPrepared := discardPrepared combined || discardPrepared policy;
  resetAll := resetAll combined; replayName := replayName combined; replaySQL := replaySQL combined |}.

(** [classifySessionState] after [pg_query.Parse]. *)
Definition classify_statements (stmts : list message) (sql : string) : sessionStatePolicy :=
  match (λ raw, classifyRawSessionState raw (TrimSpace sql)) <$> stmts with
  | [policy] => policy
  | policies => fold_left combine_policy policies no_policy
  end.

Definition classifySessionState `{PgQuery} (sql : string) : sessionStatePolicy :=
  match PgQuery.Parse sql with
  | None =>
    if decide (firstSQLKeyword sql ∈ ["SET"; "RESET"; "DISCARD"; "LISTEN"; "UNLISTEN"; "PREPARE"])
    then backend_policy true true false false else no_policy
  | Some tree => classify_statements (get_list (Some tree) "Stmts") sql
  end.

Definition requiresSessionBackend `{PgQuery} (sql : string) : bool :=
  requiresBackend (classifySessionState sql).
Definition requiresSessionAffinity `{PgQuery} (sql : string) : bool :=
  pin (classifySessionState sql).

(** The method [extendedState.classifySessionState] on the policy of the SQL. *)
Definition policy_in_state (s : extendedState) (policy : sessionStatePolicy) : sessionStatePolicy :=
  if transaction s && (bool_decide (replayName policy ≠ "") || resetAll policy) then
    {| requiresBackend := requiresBackend policy; pin := true; destroy := destroy policy;
       discardPrepared := discardPrepared policy; resetAll := false; replayName := ""; replaySQL := "" |}
  else policy.

Definition beginSessionState (policy : sessionStatePolicy) (s : extendedState) : extendedState :=
  with_policy (sessionAffinity s || pin policy) (sessionDestroy s || destroy policy)
    (sessionDiscardPrepared s || discardPrepared policy) (sessionSettings s) s.

Definition commitSessionState (policy : sessionStatePolicy) (s : extendedState) : extendedState :=
  if resetAll policy then with_policy (sessionDestroy s) (sessionDestroy s) false [] s else
  if decide (replayName policy = "") then s else
  with_policy (sessionAffinity s) (sessionDestroy s) (sessionDiscardPrepared s)
    (filter (λ setting, setting_name setting ≠ replayName policy) (sessionSettings s)
     ++ [{| setting_name := replayName policy; setting_sql := replaySQL policy |}]) s.

Definition sessionReplaySQL (s : extendedState) : list string := setting_sql <$> sessionSettings s.

(** * Lemmas *)

(** The kind, savepoint name and chain flag of a transaction statement. *)
Definition transaction_of (raw : message) : option (string * string * bool) :=
  statement ← get_msg (Some raw) "Stmt";
  tx ← as_node "TransactionStmt" (Some statement);
  Some (get_enum (Some tx) "Kind", get_string (Some tx) "SavepointName", get_bool (Some tx) "Chain").

Definition begin_kinds : list string := ["TRANS_STMT_BEGIN"; "TRANS_STMT_START"].
Definition savepoint_kinds : list string :=
  ["TRANS_STMT_SAVEPOINT"; "TRANS_STMT_ROLLBACK_TO"; "TRANS_STMT_RELEASE"].

(** A statement that stays inside the current transaction and whose savepoint
    name, if it has one, is none of [names]. *)
Definition nested (names : list string) (raw : message) : Prop :=
  match transaction_of raw with
  | None => True
  | Some (kind, n, _) => kind ∈ begin_kinds ∨ (kind ∈ savepoint_kinds ∧ n ∉ names)
  end.

Lemma find_savepoint_spec n index l :
  match find_savepoint n index l with
  | Some i => (1 ≤ i ≤ index)%nat ∧ (∃ x, l !! i = Some x ∧ snapshot_name x = n) ∧
      ∀ j x, (i < j ≤ index)%nat → l !! j = Some x → snapshot_name x ≠ n
  | None => ∀ j x, (1 ≤ j ≤ index)%nat → l !! j = Some x → snapshot_name x ≠ n
  end.
Proof.
  induction index as [|index IH]; cbn [find_savepoint]; [lia|].
  assert (∀ x0, l !! S index = x0 → (∀ x, x0 = Some x → snapshot_name x ≠ n) →
    match find_savepoint n index l with
    | Some i => (1 ≤ i ≤ S index)%nat ∧ (∃ x, l !! i = Some x ∧ snapshot_name x = n) ∧
        ∀ j x, (i < j ≤ S index)%nat → l !! j = Some x → snapshot_name x ≠ n
    | None => ∀ j x, (1 ≤ j ≤ S index)%nat → l !! j = Some x → snapshot_name x ≠ n
    end) as Hskip.
  { intros x0 E Hne. destruct (find_savepoint n index l) as [i|].
    - destruct IH as (Hi & Hx & Hj). split; [lia|]. split; [done|]. intros j x Hjr Hjx.
      destruct (decide (j = S index)) as [->|]; [apply Hne; by rewrite <- E | apply (Hj j); [lia | done]].
    - intros j x Hjr Hjx.
      destruct (decide (j = S index)) as [->|]; [apply Hne; by rewrite <- E | apply (IH j); [lia | done]]. }
  destruct (l !! S index) as [x|] eqn:E; [|by apply (Hskip None)].
  destruct (decide (snapshot_name x = n)) as [Hn|Hn].
  - split; [lia|]. split; [by exists x | lia].
  - apply (Hskip (Some x)); [done|]. by intros ? [= <-].
Qed.

(** With the marks of [pre] (after the first) named in [names], a savepoint
    whose name is not in [names] lies beyond [pre]. *)
Lemma last_savepoint_beyond n (names : list string) pre rest i :
  pre ≠ [] → Forall (λ x, snapshot_name x ∈ names) (tail pre) → n ∉ names →
  last_savepoint n (pre ++ rest) = Some i → (length pre ≤ i < length (pre ++ rest))%nat.
Proof.
  intros Hne Hpre Hn Hl. unfold last_savepoint in Hl.
  pose proof (find_savepoint_spec n (length (pre ++ rest) - 1) (pre ++ rest)) as Hs. rewrite Hl in Hs.
  destruct Hs as (Hi & (x & Hx & Hname) & _). split; [|by eapply lookup_lt_Some].
  destruct (decide (length pre ≤ i)%nat) as [|Hlt]; [done|]. exfalso.
  rewrite lookup_app_l in Hx by lia. destruct pre as [|y pre]; [done|]. destruct i as [|i]; [lia|].
  apply Hn. rewrite <- Hname. by eapply Forall_lookup_1 in Hpre.
Qed.

Lemma last_savepoint_mark n base mark rest :
  base ≠ [] → snapshot_name mark = n → Forall (λ x, snapshot_name x ≠ n) rest →
  last_savepoint n (base ++ mark :: rest) = Some (length base).
Proof.
  intros Hne Hm Hrest. unfold last_savepoint.
  pose proof (find_savepoint_spec n (length (base ++ mark :: rest) - 1) (base ++ mark :: rest)) as Hs.
  assert (0 < length base)%nat by (destruct base; [done | cbn; lia]).
  rewrite length_app in *. cbn [length] in *.
  destruct (find_savepoint _ _ _) as [i|].
  - destruct Hs as (Hi & (x & Hx & Hname) & Hafter). f_equal.
    destruct (Nat.lt_trichotomy i (length base)) as [Hlt|[->|Hgt]]; [|done|].
    + exfalso. apply (Hafter (length base) mark); [lia | by apply list_lookup_middle | done].
    + exfalso. rewrite lookup_app_r in Hx by lia.
      destruct (i - length base)%nat as [|k] eqn:E; [lia|]. cbn in Hx.
      eapply Forall_lookup_1 in Hrest; [|exact Hx]. done.
  - exfalso. apply (Hs (length base) mark); [lia | by apply list_lookup_middle | done].
Qed.

(** The transaction statements by kind. *)
Definition update_of (kind n : string) (chain : bool) (s : extendedState) : option extendedState :=
  if decide (kind ∈ begin_kinds) then
    Some (forget_writes (in_transaction true (beginTemporaryTransaction s)))
  else if decide (kind = "TRANS_STMT_SAVEPOINT") then Some (rememberTemporarySavepoint n s)
  else if decide (kind = "TRANS_STMT_ROLLBACK_TO") then Some (in_transaction true (restoreTemporarySavepoint n s))
  else if decide (kind = "TRANS_STMT_RELEASE") then Some (releaseTemporarySavepoint n s)
  else if decide (kind = "TRANS_STMT_COMMIT") then
    Some (forget_writes (in_transaction chain (finishTemporaryTransaction true chain s)))
  else if decide (kind = "TRANS_STMT_ROLLBACK") then
    Some (forget_writes (in_transaction chain (finishTemporaryTransaction false chain s)))
  else None.

Lemma update_of_spec tx s s' :
  update_of (get_enum (Some tx) "Kind") (get_string (Some tx) "SavepointName")
    (get_bool (Some tx) "Chain") s = Some s' →
  updateTransactionStatement tx s = s'.
Proof.
  unfold update_of, updateTransactionStatement. set (kind := get_enum (Some tx) "Kind").
  unfold begin_kinds. destruct (decide (kind ∈ _)); [by intros [= <-]|].
  destruct (decide (kind = "TRANS_STMT_SAVEPOINT")); [by intros [= <-]|].
  destruct (decide (kind = "TRANS_STMT_ROLLBACK_TO")); [by intros [= <-]|].
  destruct (decide (kind = "TRANS_STMT_RELEASE")); [by intros [= <-]|].
  destruct (decide (kind = "TRANS_STMT_COMMIT")) as [->|]; [by intros [= <-]|].
  destruct (decide (kind = "TRANS_STMT_ROLLBACK")) as [->|]; [by intros [= <-] | done].
Qed.

(** A transaction statement applied through its kind. *)
Lemma apply_transaction s raw kind n chain s' :
  transaction_of raw = Some (kind, n, chain) → update_of kind n chain s = Some s' →
  apply_statement s raw = s'.
Proof.
  unfold transaction_of, apply_statement. destruct (get_msg (Some raw) "Stmt") as [statement|]; [|done].
  cbn [mbind option_bind]. destruct (as_node "TransactionStmt" (Some statement)) as [tx|]; [|done].
  cbn [mbind option_bind]. intros [= <- <- <-] Hu. by apply update_of_spec.
Qed.

(** Statements nested in a transaction keep the marks already on the stack. *)
Lemma nested_keeps (names : list string) raw s pre rest :
  pre ≠ [] → Forall (λ x, snapshot_name x ∈ names) (tail pre) → nested names raw →
  temporarySnapshots s = pre ++ rest → Forall (λ x, snapshot_name x ∉ names) rest →
  ∃ rest', temporarySnapshots (apply_statement s raw) = pre ++ rest' ∧
    Forall (λ x, snapshot_name x ∉ names) rest'.
Proof.
  intros Hne Hpre Hraw Hs Hrest. unfold nested, transaction_of in Hraw. unfold apply_statement.
  destruct (get_msg (Some raw) "Stmt") as [statement|]; cbn [mbind option_bind] in Hraw; [|by exists rest].
  destruct (as_node "TransactionStmt" (Some statement)) as [tx|]; cbn [mbind option_bind] in Hraw;
    [|by exists rest].
  assert (beginTemporaryTransaction s = s) as Hbegin.
  { unfold beginTemporaryTransaction. rewrite Hs. by destruct pre. }
  set (kind := get_enum (Some tx) "Kind") in *. set (n := get_string (Some tx) "SavepointName") in *.
  destruct Hraw as [Hk | [Hk Hn]].
  { rewrite (update_of_spec tx s (forget_writes (in_transaction true s))); [by exists rest|].
    unfold update_of. by rewrite decide_True, Hbegin. }
  unfold savepoint_kinds in Hk. rewrite !elem_of_cons, elem_of_nil in Hk.
  destruct Hk as [Hk|[Hk|[Hk|[]]]].
  - rewrite (update_of_spec tx s (rememberTemporarySavepoint n s)) by (by fold kind n; rewrite Hk).
    unfold rememberTemporarySavepoint. rewrite Hbegin. cbn. rewrite Hs.
    exists (rest ++ [temporarySnapshot n s]). split; [by rewrite <- app_assoc|].
    apply Forall_app. split; [done | by apply Forall_singleton].
  - rewrite (update_of_spec tx s (in_transaction true (restoreTemporarySavepoint n s)))
      by (by fold kind n; rewrite Hk).
    unfold restoreTemporarySavepoint. destruct (last_savepoint _ _) as [i|] eqn:E; [|by exists rest].
    rewrite Hs in E |- *. apply (last_savepoint_beyond _ names) in E as [Hi Hlt]; [|done..].
    destruct (lookup_lt_is_Some_2 _ _ Hlt) as [x ->]. cbn [in_transaction temporarySnapshots with_snapshots].
    exists (take (S i - length pre) rest). split; [by rewrite take_app_ge by lia | by apply Forall_take].
  - rewrite (update_of_spec tx s (releaseTemporarySavepoint n s)) by (by fold kind n; rewrite Hk).
    unfold releaseTemporarySavepoint. destruct (last_savepoint _ _) as [i|] eqn:E; [|by exists rest].
    rewrite Hs in E |- *. apply (last_savepoint_beyond _ names) in E as [Hi Hlt]; [|done..].
    cbn [temporarySnapshots with_snapshots].
    exists (take (i - length pre) rest). split; [by rewrite take_app_ge by lia | by apply Forall_take].
Qed.

Lemma nested_run_keeps (names : list string) cmds s pre rest :
  pre ≠ [] → Forall (λ x, snapshot_name x ∈ names) (tail pre) → Forall (nested names) cmds →
  temporarySnapshots s = pre ++ rest → Forall (λ x, snapshot_name x ∉ names) rest →
  ∃ rest', temporarySnapshots (fold_left apply_statement cmds s) = pre ++ rest' ∧
    Forall (λ x, snapshot_name x ∉ names) rest'.
Proof.
  intros Hne Hpre Hcmds. revert s rest. induction cmds as [|raw cmds IH]; intros s rest Hs Hrest.
  - by exists rest.
  - apply Forall_cons in Hcmds as [Hraw Hcmds].
    destruct (nested_keeps names raw s pre rest) as (rest' & Hs' & Hrest'); [done..|].
    by apply (IH Hcmds _ rest').
Qed.

(** * Properties *)

(** ROLLBACK TO a savepoint gives back exactly the temporary
    relations known when the savepoint was taken, whatever statements, nested
    savepoints, releases and rollbacks lie between, provided they do not reuse
    the name of a savepoint that was open; the savepoint itself stays open. *)
Theorem savepoint_rollback_restores s n raw1 raw2 c1 c2 cmds :
  transaction_of raw1 = Some ("TRANS_STMT_SAVEPOINT", n, c1) →
  transaction_of raw2 = Some ("TRANS_STMT_ROLLBACK_TO", n, c2) →
  Forall (nested (n :: (snapshot_name <$> tail (temporarySnapshots s)))) cmds →
  let s' := fold_left apply_statement (raw1 :: cmds ++ [raw2]) s in
  temporary s' = temporary s ∧
  temporarySnapshots s' = temporarySnapshots (apply_statement s raw1) ∧
  transaction s' = true ∧ transactionFailed s' = false.
Proof.
  intros H1 H2 Hcmds s'. set (names := n :: _) in Hcmds.
  set (base := temporarySnapshots (beginTemporaryTransaction s)).
  set (mark := temporarySnapshot n s).
  assert (base ≠ [] ∧ Forall (λ x, snapshot_name x ∈ names) (tail base)) as [Hne Hbase].
  { subst base names. unfold beginTemporaryTransaction.
    destruct (temporarySnapshots s) as [|x l] eqn:E; cbn; [split; [done | by constructor]|].
    rewrite E. cbn. split; [done|]. apply Forall_forall. intros y Hy. right. by apply list_elem_of_fmap_2. }
  assert (temporary (beginTemporaryTransaction s) = temporary s) as Htemp
    by (unfold beginTemporaryTransaction; by destruct (temporarySnapshots s)).
  assert (temporarySnapshots (apply_statement s raw1) = base ++ [mark]) as Hs1.
  { rewrite (apply_transaction _ _ _ _ _ _ H1 eq_refl). cbn. subst base mark.
    by unfold temporarySnapshot; rewrite Htemp. }
  destruct (nested_run_keeps names cmds (apply_statement s raw1) (base ++ [mark]) [])
    as (rest & Hs2 & Hrest); [by destruct base | | done | by rewrite Hs1, app_nil_r | constructor|].
  { destruct base as [|x base]; [done|]. cbn. apply Forall_app. split; [done|].
    apply Forall_singleton. by left. }
  subst s'. cbn [fold_left]. rewrite fold_left_app. cbn [fold_left].
  set (s2 := fold_left apply_statement cmds (apply_statement s raw1)) in *.
  rewrite (apply_transaction _ _ _ _ _ _ H2 eq_refl).
  unfold restoreTemporarySavepoint. rewrite Hs2, <- app_assoc. cbn [app].
  rewrite last_savepoint_mark; [|done|done|].
  2:{ eapply Forall_impl; [exact Hrest|]. intros x Hx Hn. apply Hx. rewrite Hn. by left. }
  rewrite list_lookup_middle by done. cbn. split_and!; [done | | done | done].
  rewrite Hs1, cons_middle, app_assoc.
  replace (S (length base)) with (length (base ++ [mark])) by (rewrite length_app; cbn; lia).
  by rewrite take_app_length.
Qed.

(** ROLLBACK of a transaction gives back the temporary relations
    known before BEGIN, whatever statements and savepoints it contained, and
    leaves no savepoint, no target and no write participant behind. *)
Theorem transaction_rollback_restores s begin_kind n1 c1 n2 raw1 raw2 cmds :
  temporarySnapshots s = [] → begin_kind ∈ begin_kinds →
  transaction_of raw1 = Some (begin_kind, n1, c1) →
  transaction_of raw2 = Some ("TRANS_STMT_ROLLBACK", n2, false) →
  Forall (nested []) cmds →
  let s' := fold_left apply_statement (raw1 :: cmds ++ [raw2]) s in
  temporary s' = temporary s ∧ temporarySnapshots s' = [] ∧
  transaction s' = false ∧ mutated s' = false ∧ target s' = "" ∧ writeParticipants s' = ∅.
Proof.
  intros Hs Hk H1 H2 Hcmds s'.
  assert (temporarySnapshots (apply_statement s raw1) = [temporarySnapshot "" s] ++ []) as Hs1.
  { rewrite (apply_transaction _ _ _ _ _ (forget_writes (in_transaction true (beginTemporaryTransaction s))) H1).
    - cbn. unfold beginTemporaryTransaction. by rewrite Hs.
    - unfold update_of. by rewrite decide_True. }
  destruct (nested_run_keeps [] cmds _ [temporarySnapshot "" s] [] (λ E, ltac:(discriminate E))
    (Forall_nil_2 _) Hcmds Hs1 (Forall_nil_2 _)) as (rest & Hs2 & _).
  subst s'. cbn [fold_left]. rewrite fold_left_app. cbn [fold_left].
  rewrite (apply_transaction _ _ _ _ _ _ H2 eq_refl). unfold finishTemporaryTransaction.
  rewrite Hs2. cbn. done.
Qed.

(** PostgreSQL only warns about BEGIN inside a transaction
    and keeps it open, but the proxy then forgets which Burrows the transaction
    has written to, so that its COMMIT is not run in two phases. *)
Theorem nested_begin_forgets_writes s raw n c twoPhase sql :
  transaction_of raw = Some ("TRANS_STMT_BEGIN", n, c) →
  commits_in_two_phases twoPhase sql s = true →
  transaction (apply_statement s raw) = true ∧
  commits_in_two_phases twoPhase sql (apply_statement s raw) = false.
Proof.
  intros Hraw _. rewrite (apply_transaction _ _ _ _ _ _ Hraw eq_refl).
  split; [done|]. unfold commits_in_two_phases. cbn. done.
Qed.

(** PREPARE TRANSACTION ends the transaction but leaves its first snapshot on
    the stack, so the next BEGIN takes none: a ROLLBACK then restores the
    temporary relations of before the prepared transaction. *)
Lemma prepare_transaction_keeps_snapshots s raw n c :
  transaction_of raw = Some ("TRANS_STMT_PREPARE", n, c) →
  transaction (apply_statement s raw) = false ∧
  temporarySnapshots (apply_statement s raw) = temporarySnapshots s.
Proof.
  unfold transaction_of, apply_statement. destruct (get_msg (Some raw) "Stmt") as [statement|]; [|done].
  cbn [mbind option_bind]. destruct (as_node "TransactionStmt" (Some statement)) as [tx|]; [|done].
  cbn [mbind option_bind]. intros [= Hk _ _]. unfold updateTransactionStatement. by rewrite Hk.
Qed.

(** * Witnesses *)

Definition raw_stmt (node : message) : message := Msg "RawStmt" [("Stmt", FMsg (mk_node node))].
Definition mk_transaction (kind n : string) : message :=
  raw_stmt (Msg "TransactionStmt" [("Kind", FEnum kind); ("SavepointName", FString n)]).
Definition create_temp (n on_commit : string) : message :=
  raw_stmt (Msg "CreateStmt"
    [("Relation", FMsg (Msg "RangeVar" [("Relname", FString n); ("Relpersistence", FString "t")]));
     ("Oncommit", FEnum on_commit)]).
Definition with_temp_a : extendedState :=
  fold_left apply_statement [create_temp "a" "ONCOMMIT_NOOP"] new_session.

Lemma savepoint_rollback_restores_witness :
  temporary (fold_left apply_statement
    [mk_transaction "TRANS_STMT_SAVEPOINT" "sp"; create_temp "b" "ONCOMMIT_NOOP";
     mk_transaction "TRANS_STMT_SAVEPOINT" "inner"; mk_transaction "TRANS_STMT_ROLLBACK_TO" "sp"]
    with_temp_a) = temporary with_temp_a.
Proof.
  refine (proj1 (savepoint_rollback_restores with_temp_a "sp" (mk_transaction "TRANS_STMT_SAVEPOINT" "sp")
    (mk_transaction "TRANS_STMT_ROLLBACK_TO" "sp") false false
    [create_temp "b" "ONCOMMIT_NOOP"; mk_transaction "TRANS_STMT_SAVEPOINT" "inner"] eq_refl eq_refl _)).
  constructor; [exact I|]. constructor; [|constructor]. right. split; by_computation.
Defined.

Lemma transaction_rollback_restores_witness :
  temporary (fold_left apply_statement
    [mk_transaction "TRANS_STMT_BEGIN" ""; create_temp "b" "ONCOMMIT_DROP";
     mk_transaction "TRANS_STMT_ROLLBACK" ""] with_temp_a) = temporary with_temp_a.
Proof.
  refine (proj1 (transaction_rollback_restores with_temp_a "TRANS_STMT_BEGIN" "" false ""
    (mk_transaction "TRANS_STMT_BEGIN" "") (mk_transaction "TRANS_STMT_ROLLBACK" "")
    [create_temp "b" "ONCOMMIT_DROP"] eq_refl _ eq_refl eq_refl _)).
  - by_computation.
  - constructor; [exact I | constructor].
Defined.

Definition writing_session : extendedState :=
  recordWriteParticipants "INSERT INTO t VALUES (1)" false ["a"; "b"]
    (apply_statement new_session (mk_transaction "TRANS_STMT_BEGIN" "")).

Lemma nested_begin_forgets_writes_witness :
  commits_in_two_phases true "COMMIT" writing_session = true ∧
  commits_in_two_phases true "COMMIT"
    (apply_statement writing_session (mk_transaction "TRANS_STMT_BEGIN" "")) = false.
Proof.
  split; [vm_compute; reflexivity|].
  refine (proj2 (nested_begin_forgets_writes writing_session (mk_transaction "TRANS_STMT_BEGIN" "")
    "" false true "COMMIT" eq_refl _)).
  vm_compute. reflexivity.
Defined.

End session.
