(* ===== verification/FleetDdl.v ===== *)
(** Which statements change the schema of the whole fleet, and which only
    temporary relations: the classification functions and admission checks of
    [internal/proxy/server.go] for DDL. *)
From S2P Require Import Prelude.
From S2P Require Import GoStrings.
From S2P Require Import PgQuery.
From S2P Require Import Ddl.
From S2P Require Import Router.
From S2P Require Import Session.

Module fleetddl.
Import session.

(** * Statements *)

(** The statements of a parse result: [raw.Stmt] for the non-nil ones. *)
Definition statements_of (tree : message) : list message :=
  omap (λ raw, get_msg (Some raw) "Stmt") (get_list (Some tree) "Stmts").
Definition parsed_statements `{PgQuery} (sql : string) : list message :=
  match PgQuery.Parse sql with Some tree => statements_of tree | None => [] end.

Definition is_kind (k : string) (statement : message) : bool :=
  bool_decide (is_Some (as_node k (Some statement))).

(** The proxy has its own copy of the router's function. *)
Definition explainAnalyze (statement : message) : bool := router.explainAnalyze statement.

Definition data_statements : list string :=
  ["InsertStmt"; "UpdateStmt"; "DeleteStmt"; "MergeStmt"; "CopyStmt"; "VariableSetStmt";
   "VariableShowStmt"; "DeclareCursorStmt"; "ClosePortalStmt"; "FetchStmt"; "NotifyStmt";
   "ListenStmt"; "UnlistenStmt"; "TransactionStmt"; "VacuumStmt"; "CheckPointStmt";
   "DiscardStmt"; "LockStmt"; "ConstraintsSetStmt"; "PrepareStmt"; "ExecuteStmt";
   "DeallocateStmt"; "CallStmt"].

(** [rec] is the recursive call on the query of an EXPLAIN. *)
Definition isFleetDDL_step (rec : option message → bool) (statement : option message) : bool :=
  match statement with
  | None => false
  | Some statement =>
    match GetNode (Some statement) with
    | None => true
    | Some node =>
      if decide (msg_name node = "SelectStmt")
      then bool_decide (is_Some (get_msg (Some node) "IntoClause"))
      else if decide (msg_name node = "ExplainStmt")
      then explainAnalyze node && rec (get_msg (Some node) "Query")
      else negb (bool_decide (msg_name node ∈ data_statements))
    end
  end.
Fixpoint isFleetDDL_go (fuel : nat) (statement : option message) : bool :=
  match fuel with
  | O => false
  | S fuel => isFleetDDL_step (isFleetDDL_go fuel) statement
  end.
Definition isFleetDDLStatement (statement : option message) : bool :=
  isFleetDDL_go (S (osize statement)) statement.

Definition isServerLocalDDLStatement (statement : message) : bool :=
  existsb (λ k, is_kind k statement)
    ["CreatedbStmt"; "DropdbStmt"; "CreateTableSpaceStmt"; "DropTableSpaceStmt"; "AlterSystemStmt"].

Definition is_temporary_relation (m : message) : bool :=
  bool_decide (msg_name m = "RangeVar") && bool_decide (get_string (Some m) "Relpersistence" = "t").
Definition protobufContainsTemporaryRelation (statement : message) : bool :=
  existsb is_temporary_relation (visited statement).
Definition protobufReferencesRelation (statement : message) (relations : gset string) : bool :=
  existsb (λ m, bool_decide (msg_name m = "RangeVar") && relationSetContains relations (Some m))
    (visited statement).

Section with_parser.
Context `{PgQuery}.

Definition containsFleetDDL (sql : string) : bool :=
  existsb (λ st, isFleetDDLStatement (Some st)) (parsed_statements sql).
Definition ordered_ddl (st : message) : bool :=
  isFleetDDLStatement (Some st) && negb (protobufContainsTemporaryRelation st)
  && negb (isServerLocalDDLStatement st).
Definition requiresFleetWriteOrder (sql : string) (targetCount : nat) : bool :=
  if (targetCount <? 2)%nat then false else existsb ordered_ddl (parsed_statements sql).
Definition isTemporaryDDL (sql : string) : bool :=
  existsb protobufContainsTemporaryRelation (parsed_statements sql).
Definition isServerLocalDDL (sql : string) : bool :=
  existsb isServerLocalDDLStatement (parsed_statements sql).
Definition containsCopyStatement (sql : string) : bool :=
  existsb (is_kind "CopyStmt") (parsed_statements sql).
End with_parser.

(** * Normalisation before routing *)

Inductive error :=
| Ddl (e : ddl.error) | ParseError | TransactionInBatch | NonTransactional | UserFunction
| ConcurrentIndex | RequiresTwoPhase | MixedTemporary.

(** The text sent to the client; what the parser reports is not modelled. *)
Definition error_text (e : error) : string :=
  match e with
  | Ddl ddl.ParseError | ParseError => "parse PostgreSQL statement: "
  | Ddl ddl.DeparseError => "deparse normalized PostgreSQL statement: "
  | TransactionInBatch =>
    "transaction control cannot be combined with fleet-wide DDL in one simple-query batch"
  | NonTransactional => "non-transactional fleet-wide DDL is not supported; use hamstergres-migrations"
  | UserFunction =>
    "user-defined functions and procedures are not supported across Burrows; use hamstergres-migrations"
  | ConcurrentIndex =>
    "concurrent index DDL is not supported across Burrows; use hamstergres-migrations"
  | RequiresTwoPhase => "fleet-wide DDL requires two-phase commit"
  | MixedTemporary => "temporary and durable fleet DDL cannot be combined in one simple-query batch"
  end.

Record normalizedSQL := { n_sql : string; n_schema : bool }.

Definition normalizeDDL `{PgQuery} (MakeStrNode : string → message) (text : string)
    : result error normalizedSQL :=
  let keyword := firstSQLKeyword text in
  if decide (keyword = "COMMENT" ∨ keyword = "DROP") then Ok {| n_sql := text; n_schema := true |}
  else if decide (keyword ≠ "CREATE" ∧ keyword ≠ "ALTER")
  then Ok {| n_sql := text; n_schema := containsFleetDDL text |}
  else
    r ← map_err Ddl (ddl.Normalize MakeStrNode text);
    Ok {| n_sql := ddl.SQL r; n_schema := ddl.Schema r |}.

(** * Admission of fleet-wide DDL *)

(** One iteration of the loop of [validateTransactionalFleetDDL]. *)
Definition transactional (st : message) : result error () :=
  fail_if (is_kind "TransactionStmt" st) TransactionInBatch;;
  fail_if (isServerLocalDDLStatement st) NonTransactional;;
  fail_if (is_kind "CreateFunctionStmt" st) UserFunction;;
  fail_if (get_bool (as_node "IndexStmt" (Some st)) "Concurrent") ConcurrentIndex;;
  fail_if (get_bool (as_node "DropStmt" (Some st)) "Concurrent") ConcurrentIndex.
Definition validateTransactionalFleetDDL `{PgQuery} (text : string) : result error () :=
  match PgQuery.Parse text with
  | None => Err ParseError
  | Some tree => check_all transactional (statements_of tree)
  end.

(** [Server.validateAtomicFleetDDL] *)
Definition serverValidateAtomicFleetDDL `{PgQuery} (twoPhaseCommit : bool) (text : string)
    (targetCount : nat) : result error () :=
  check_all (λ st, fail_if (is_kind "CreateFunctionStmt" st) UserFunction) (parsed_statements text);;
  if isServerLocalDDL text then validateTransactionalFleetDDL text else
  if negb (requiresFleetWriteOrder text targetCount) then Ok tt else
  validateTransactionalFleetDDL text;;
  fail_if (negb twoPhaseCommit) RequiresTwoPhase.

(** * Temporary DDL *)

(** [temporaryDDLTarget]: whether the target is temporary, [None] when the
    statement has no target that is known from the syntax. *)
Definition temporaryDDLTarget_step (rec : option message → option bool) (relations : gset string)
    (statement : option message) : option bool :=
  let classify (relation : option message) :=
    relation ← relation;
    Some (bool_decide (get_string (Some relation) "Relpersistence" = "t")
          || EqualFold (get_string (Some relation) "Schemaname") "pg_temp"
          || relationSetContains relations (Some relation)) in
  match as_node "ExplainStmt" statement with
  | Some explain =>
    if explainAnalyze explain then rec (get_msg (Some explain) "Query") else None
  | None =>
    match as_node "CreateStmt" statement with
    | Some create => classify (get_msg (Some create) "Relation")
    | None =>
      match get_msg (as_node "CreateTableAsStmt" statement) "Into" with
      | Some into => classify (get_msg (Some into) "Rel")
      | None =>
        match get_msg (as_node "SelectStmt" statement) "IntoClause" with
        | Some into => classify (get_msg (Some into) "Rel")
        | None =>
          match as_node "ViewStmt" statement with
          | Some view => classify (get_msg (Some view) "View")
          | None => None
          end
        end
      end
    end
  end.
Fixpoint temporaryDDLTarget_go (fuel : nat) (relations : gset string) (statement : option message)
    : option bool :=
  match fuel with
  | O => None
  | S fuel => temporaryDDLTarget_step (temporaryDDLTarget_go fuel relations) relations statement
  end.
Definition temporaryDDLTarget (statement : option message) (relations : gset string) : option bool :=
  temporaryDDLTarget_go (S (osize statement)) relations statement.

Definition temporaryNameSetContains (relations : gset string) (n : temporaryObjectName) : bool :=
  existsb (λ key, bool_decide (key ∈ relations)) (temporaryNameKeys n).

(** The flags [hasTemporary] and [hasDurableFleetDDL] and the working copy of
    the tracked relations; the working state is inside a transaction. *)
Record classification := { hasTemporary : bool; hasDurable : bool; working : temporaries }.

(** One iteration of the loop of [classifyTemporaryDDL]. *)
Definition classify_statement (c : classification) (st : message) : classification :=
  let found temporary durable := {|
    hasTemporary := hasTemporary c || temporary; hasDurable := hasDurable c || durable;
    working := rememberTemporaryStatement true st (working c) |} in
  let discard := as_node "DiscardStmt" (Some st) in
  if bool_decide (is_Some discard)
     && bool_decide (get_enum discard "Target" ∈ ["DISCARD_TEMP"; "DISCARD_ALL"])
  then found true false else
  let names := match as_node "DropStmt" (Some st) with
    | Some drop => if dropTargetsTemporaryRelations drop then dropObjectNames drop else []
    | None => [] end in
  if negb (bool_decide (names = [])) then
    found (existsb (temporaryNameSetContains (relations (working c))) names)
          (existsb (λ n, negb (temporaryNameSetContains (relations (working c)) n)) names)
  else if isFleetDDLStatement (Some st) then
    let reference := protobufContainsTemporaryRelation st
      || protobufReferencesRelation st (relations (working c)) in
    let target := default reference (temporaryDDLTarget (Some st) (relations (working c))) in
    found (target || reference) (negb target)
  else found false false.
Definition classify_batch (statements : list message) (t : temporaries) : classification :=
  fold_left classify_statement statements
    {| hasTemporary := false; hasDurable := false; working := t |}.

(** [classifyTemporaryDDL]: [(temporaryOnly, mixed)]. *)
Definition classifyTemporaryDDL `{PgQuery} (t : temporaries) (text : string) : bool * bool :=
  let c := classify_batch (parsed_statements text) t in
  (hasTemporary c && negb (hasDurable c), hasTemporary c && hasDurable c).
Definition referencesTemporaryDDL `{PgQuery} (t : temporaries) (text : string) : bool :=
  (classifyTemporaryDDL t text).1.

(** [extendedState.validateAtomicFleetDDL]: whether the batch is temporary DDL. *)
Definition validateAtomicFleetDDL `{PgQuery} (twoPhaseCommit : bool) (s : extendedState)
    (text : string) (targetCount : nat) : result error bool :=
  let '(temporaryDDL, mixed) := classifyTemporaryDDL (temporary s) text in
  if mixed then Err MixedTemporary else
  if temporaryDDL then Ok true else
  serverValidateAtomicFleetDDL twoPhaseCommit text targetCount;; Ok false.

(** * Lemmas *)

Lemma isFleetDDL_step_ext rec1 rec2 st :
  (∀ n, (osize n < osize st)%nat → rec1 n = rec2 n) →
  isFleetDDL_step rec1 st = isFleetDDL_step rec2 st.
Proof.
  intros H. destruct st as [st|]; [|done]. cbn. destruct (GetNode (Some st)) as [node|] eqn:E; [|done].
  case_decide; [done|]. case_decide; [|done]. destruct (explainAnalyze node); [|done]. cbn. apply H.
  apply get_msg_sub, msize_submessage in E. destruct (get_msg (Some node) "Query") as [q|] eqn:Hq; cbn; [|lia].
  apply get_msg_sub, msize_submessage in Hq. lia.
Qed.
Lemma isFleetDDL_fuel n m st :
  (osize st < n)%nat → (osize st < m)%nat → isFleetDDL_go n st = isFleetDDL_go m st.
Proof.
  revert m st. induction n as [|n IH]; intros [|m] st Hn Hm; try lia. cbn [isFleetDDL_go].
  apply isFleetDDL_step_ext. intros x Hx. apply IH; lia.
Qed.

Lemma temporaryDDLTarget_step_ext rec1 rec2 relations st :
  (∀ n, (osize n < osize st)%nat → rec1 n = rec2 n) →
  temporaryDDLTarget_step rec1 relations st = temporaryDDLTarget_step rec2 relations st.
Proof.
  intros H. unfold temporaryDDLTarget_step. destruct (as_node "ExplainStmt" st) as [explain|] eqn:E; [|done].
  destruct (explainAnalyze explain); [|done]. apply H.
  destruct st as [st|]; [|by rewrite router.as_node_None in E].
  apply as_node_sub, msize_submessage in E. cbn.
  destruct (get_msg (Some explain) "Query") as [q|] eqn:Hq; cbn; [|lia].
  apply get_msg_sub, msize_submessage in Hq. lia.
Qed.
Lemma temporaryDDLTarget_fuel n m relations st :
  (osize st < n)%nat → (osize st < m)%nat →
  temporaryDDLTarget_go n relations st = temporaryDDLTarget_go m relations st.
Proof.
  revert m st. induction n as [|n IH]; intros [|m] st Hn Hm; try lia. cbn [temporaryDDLTarget_go].
  apply temporaryDDLTarget_step_ext. intros x Hx. apply IH; lia.
Qed.

(** the recursions through EXPLAIN never run out of fuel:
    both functions satisfy the recursive equations of the source. *)
Theorem fleet_ddl_equations st relations :
  isFleetDDLStatement st = isFleetDDL_step isFleetDDLStatement st ∧
  temporaryDDLTarget st relations
    = temporaryDDLTarget_step (λ st, temporaryDDLTarget st relations) relations st.
Proof.
  split.
  - apply isFleetDDL_step_ext. intros n Hn. apply isFleetDDL_fuel; lia.
  - apply temporaryDDLTarget_step_ext. intros n Hn. apply temporaryDDLTarget_fuel; lia.
Qed.

Lemma existsb_elem {A} (f : A → bool) l : existsb f l = true ↔ ∃ x, x ∈ l ∧ f x = true.
Proof. rewrite existsb_exists. by setoid_rewrite <- list_elem_of_In. Qed.
Lemma existsb_none {A} (f : A → bool) l : existsb f l = false ↔ ∀ x, x ∈ l → f x = false.
Proof.
  rewrite <- not_true_iff_false, existsb_elem. split.
  - intros H x Hx. apply not_true_iff_false. naive_solver.
  - intros H (x & Hx & E). by rewrite H in E.
Qed.

Lemma transactional_not_local st : transactional st = Ok () → isServerLocalDDLStatement st = false.
Proof.
  unfold transactional. rewrite seq_ok. intros [_ H]. rewrite seq_ok in H. destruct H as [H _].
  by apply fail_if_ok in H.
Qed.

Lemma server_admits `{PgQuery} twoPhase text n st :
  (2 ≤ n)%nat → serverValidateAtomicFleetDDL twoPhase text n = Ok () →
  st ∈ parsed_statements text → isFleetDDLStatement (Some st) = true →
  protobufContainsTemporaryRelation st = false →
  twoPhase = true ∧ requiresFleetWriteOrder text n = true ∧
  ∀ st', st' ∈ parsed_statements text → transactional st' = Ok ().
Proof.
  intros Hn Hv Hst Hddl Htmp. unfold serverValidateAtomicFleetDDL in Hv. rewrite seq_ok in Hv.
  destruct Hv as [_ Hv].
  assert (∀ ok, validateTransactionalFleetDDL text = Ok ok →
    ∀ st', st' ∈ parsed_statements text → transactional st' = Ok ()) as Htx.
  { unfold validateTransactionalFleetDDL, parsed_statements. destruct (PgQuery.Parse text); [|done].
    intros [] Hc. apply check_all_ok in Hc. by apply Forall_forall. }
  destruct (isServerLocalDDL text) eqn:Hl.
  { apply existsb_elem in Hl as (x & Hx & Hlocal). specialize (Htx () Hv x Hx).
    apply transactional_not_local in Htx. congruence. }
  assert (requiresFleetWriteOrder text n = true) as Hord.
  { unfold requiresFleetWriteOrder. replace (n <? 2)%nat with false by (symmetry; apply Nat.ltb_ge; lia).
    apply existsb_elem. exists st. split; [done|]. unfold ordered_ddl. rewrite Hddl, Htmp. cbn.
    apply negb_true_iff, (proj1 (existsb_none _ _) Hl st Hst). }
  rewrite Hord in Hv. cbn [negb] in Hv. rewrite seq_ok in Hv. destruct Hv as [Hv Htp].
  apply fail_if_ok, negb_false_iff in Htp. split_and!; [done..|]. by eapply Htx.
Qed.

(** a batch that the proxy does not take for temporary DDL and
    that changes the schema of the fleet is admitted only under two-phase
    commit and only if PostgreSQL can run and prepare every statement of it in
    one transaction: no transaction control, server-local object, function or
    concurrent index build. *)
Theorem durable_ddl_admitted `{PgQuery} twoPhase s text n st :
  (2 ≤ n)%nat → validateAtomicFleetDDL twoPhase s text n = Ok false →
  st ∈ parsed_statements text → isFleetDDLStatement (Some st) = true →
  protobufContainsTemporaryRelation st = false →
  twoPhase = true ∧ requiresFleetWriteOrder text n = true ∧
  ∀ st', st' ∈ parsed_statements text → transactional st' = Ok ().
Proof.
  intros Hn Hv. unfold validateAtomicFleetDDL in Hv.
  destruct (classifyTemporaryDDL _ _) as [[] []]; try done;
    apply bind_ok in Hv as ([] & Hv & _); by apply server_admits.
Qed.

(** What a statement of a temporary batch may be, given the relations that are
    temporary when it runs. *)
Definition temporary_statement (t : temporaries) (st : message) : Prop :=
  (∀ drop n, as_node "DropStmt" (Some st) = Some drop → dropTargetsTemporaryRelations drop = true →
     n ∈ dropObjectNames drop → temporaryNameSetContains (relations t) n = true) ∧
  (isFleetDDLStatement (Some st) = true →
     (∃ drop, as_node "DropStmt" (Some st) = Some drop ∧ dropObjectNames drop ≠ []) ∨
     temporaryDDLTarget (Some st) (relations t) = Some true ∨
     (temporaryDDLTarget (Some st) (relations t) = None ∧
      (protobufContainsTemporaryRelation st = true ∨
       protobufReferencesRelation st (relations t) = true))).

Lemma classify_durable_mono c l : hasDurable c = true → hasDurable (fold_left classify_statement l c) = true.
Proof.
  revert c. induction l as [|st l IH]; intros c Hc; [done|]. cbn [fold_left]. apply IH.
  unfold classify_statement. cbv zeta.
  repeat match goal with |- context [if ?b then _ else _] => destruct b end; cbn; by rewrite Hc.
Qed.
Lemma classify_working c st :
  working (classify_statement c st) = rememberTemporaryStatement true st (working c).
Proof.
  unfold classify_statement. cbv zeta.
  repeat match goal with |- context [if ?b then _ else _] => destruct b end; done.
Qed.
Lemma classify_batch_working c l :
  working (fold_left classify_statement l c)
  = fold_left (λ t st, rememberTemporaryStatement true st t) l (working c).
Proof. revert c. induction l as [|st l IH]; intros c; [done|]. cbn [fold_left]. by rewrite IH, classify_working. Qed.

Lemma classify_statement_temporary c st :
  hasDurable (classify_statement c st) = false → temporary_statement (working c) st.
Proof.
  unfold classify_statement, temporary_statement. cbv zeta. set (discard := as_node "DiscardStmt" (Some st)).
  destruct (bool_decide (is_Some discard) && _) eqn:Hd.
  { intros _. apply andb_true_iff in Hd as [[d Hd]%bool_decide_eq_true _].
    pose proof (ddl.as_node_unique _ "DropStmt" _ _ Hd ltac:(done)) as E. rewrite E. split; [done|].
    intros Hf. exfalso. revert Hf. unfold isFleetDDLStatement. cbn [isFleetDDL_go isFleetDDL_step].
    unfold discard, as_node in Hd. destruct (GetNode (Some st)) as [node|]; [|done]. cbn in Hd.
    destruct (decide (msg_name node = "DiscardStmt")) as [Hk|]; [|done].
    rewrite decide_False, decide_False by (rewrite Hk; done). rewrite Hk. done. }
  set (names := match as_node "DropStmt" (Some st) with Some drop => _ | None => [] end).
  destruct (negb (bool_decide (names = []))) eqn:Hn.
  - cbn. intros [_ Hall]%orb_false_iff. apply negb_true_iff, bool_decide_eq_false in Hn. split.
    + intros drop n Hdrop Htgt Hin. unfold names in Hall. rewrite Hdrop, Htgt in Hall.
      pose proof (proj1 (existsb_none _ _) Hall n Hin) as Hx. by apply negb_false_iff in Hx.
    + intros _. left. unfold names in Hn. destruct (as_node "DropStmt" (Some st)) as [drop|]; [|done].
      exists drop. split; [done|]. by destruct (dropTargetsTemporaryRelations drop).
  - apply negb_false_iff, bool_decide_eq_true in Hn.
    assert (∀ drop n, as_node "DropStmt" (Some st) = Some drop → dropTargetsTemporaryRelations drop = true →
      n ∈ dropObjectNames drop → temporaryNameSetContains (relations (working c)) n = true) as Hdrops.
    { intros drop n Hdrop Htgt Hin. unfold names in Hn. rewrite Hdrop, Htgt in Hn. rewrite Hn in Hin.
      by apply elem_of_nil in Hin. }
    destruct (isFleetDDLStatement (Some st)); [|done]. cbn [hasDurable].
    intros [_ Ht%negb_false_iff]%orb_false_iff.
    split; [done|]. intros _. right.
    destruct (temporaryDDLTarget _ _) as [b|]; cbn in Ht; [left; by rewrite Ht|].
    right. split; [done|]. by apply orb_true_iff in Ht.
Qed.

(** The relations that are temporary when the statement after [before] runs. *)
Definition temporary_after (before : list message) (t : temporaries) : temporaries :=
  fold_left (λ t st, rememberTemporaryStatement true st t) before t.

Lemma classify_batch_durable before st after t :
  hasDurable (classify_batch (before ++ st :: after) t) = false →
  temporary_statement (temporary_after before t) st.
Proof.
  unfold classify_batch. rewrite fold_left_app. cbn [fold_left]. intros H.
  unfold temporary_after. rewrite <- (classify_batch_working {| hasTemporary := false; hasDurable := false; working := t |}).
  apply classify_statement_temporary. apply not_true_is_false. intros E.
  by rewrite (classify_durable_mono _ after E) in H.
Qed.

(** a batch runs as temporary DDL, outside two-phase commit,
    only if every one of its statements is aimed at relations that the session
    knows to be temporary when that statement runs: each dropped relation is
    one of them, and each other schema change creates, or changes or names, a
    temporary relation. *)
Theorem temporary_batch_is_temporary `{PgQuery} twoPhase s text n before st after :
  validateAtomicFleetDDL twoPhase s text n = Ok true →
  parsed_statements text = before ++ st :: after →
  temporary_statement (temporary_after before (temporary s)) st.
Proof.
  unfold validateAtomicFleetDDL, classifyTemporaryDDL. cbv zeta. intros Hv E. rewrite E in Hv.
  apply (classify_batch_durable _ _ after). destruct (hasDurable _); [|done]. exfalso. revert Hv.
  rewrite andb_true_r, andb_false_r. destruct (hasTemporary _); [done|].
  destruct (serverValidateAtomicFleetDDL _ _ _); by intros.
Qed.

Lemma as_node_other k k' st x : as_node k (Some st) = Some x → k ≠ k' → as_node k' (Some st) = None.
Proof. intros H Hk. by eapply ddl.as_node_unique. Qed.

Lemma as_node_kind k st x :
  as_node k (Some st) = Some x → ∃ node, GetNode (Some st) = Some node ∧ msg_name node = k.
Proof.
  unfold as_node. destruct (GetNode (Some st)) as [node|]; [|done]. cbn.
  destruct (decide (msg_name node = k)); [eauto|done].
Qed.

(** a table created as [pg_temp.name] is admitted as temporary
    DDL, outside two-phase commit, but the session neither keeps the connection
    the table lives on nor remembers the table. *)
Theorem pg_temp_table_unpinned `{PgQuery} twoPhase s text n tree raw st create relation :
  PgQuery.Parse text = Some tree → get_list (Some tree) "Stmts" = [raw] →
  get_msg (Some raw) "Stmt" = Some st → as_node "CreateStmt" (Some st) = Some create →
  get_msg (Some create) "Relation" = Some relation →
  get_string (Some relation) "Relpersistence" = "p" →
  EqualFold (get_string (Some relation) "Schemaname") "pg_temp" = true →
  protobufContainsSessionState st = false →
  validateAtomicFleetDDL twoPhase s text n = Ok true ∧
  session.classifySessionState text = no_policy ∧
  temporary (applySuccessfulSQLState s text) = temporary s.
Proof.
  intros Htree Hraw Hst Hcreate Hrel Hp Hschema Hstate.
  assert (∀ k, "CreateStmt" ≠ k → as_node k (Some st) = None) as Hnone
    by (intros k; by apply as_node_other with (x := create)).
  assert (is_kind "CreateStmt" st = true) as Hk by (unfold is_kind; by rewrite Hcreate).
  destruct (as_node_kind _ _ _ Hcreate) as (node & Hnode & Hname).
  split_and!.
  - unfold validateAtomicFleetDDL, classifyTemporaryDDL, parsed_statements, statements_of.
    rewrite Htree, Hraw. cbn [omap list_omap]. rewrite Hst. unfold classify_batch. cbn [fold_left].
    unfold classify_statement. cbn [working hasTemporary hasDurable].
    rewrite !Hnone by done. cbn [is_Some bool_decide].
    assert (isFleetDDLStatement (Some st) = true) as ->.
    { unfold isFleetDDLStatement. cbn [isFleetDDL_go isFleetDDL_step]. rewrite Hnode.
      rewrite !decide_False by (by rewrite Hname). by rewrite Hname. }
    assert (∀ relations, temporaryDDLTarget (Some st) relations = Some true) as ->.
    { intros relations. unfold temporaryDDLTarget. cbn [temporaryDDLTarget_go]. unfold temporaryDDLTarget_step.
      rewrite Hnone, Hcreate, Hrel by done. cbn [mbind option_bind]. by rewrite Hschema, orb_true_r. }
    done.
  - unfold session.classifySessionState. rewrite Htree, Hraw. unfold classify_statements. cbn [fmap list_fmap].
    unfold classifyRawSessionState. rewrite Hst, !Hnone by done. cbn. by rewrite Hstate.
  - unfold applySuccessfulSQLState. rewrite Htree, Hraw. cbn [fold_left]. unfold apply_statement.
    rewrite Hst, Hnone by done. cbn [temporary with_temporary]. unfold rememberTemporaryStatement.
    rewrite !Hnone, Hcreate, Hrel by done. unfold remember_if_temporary, temporary_relation.
    by rewrite Hp.
Qed.

(** * Witnesses *)

Definition parses_to (statements : list message) : PgQuery := {|
  PgQuery.Parse := λ _, Some (Msg "ParseResult" [("Stmts", FList statements)]);
  PgQuery.Deparse := λ _, None |}.
Definition create_in (schema persistence name : string) : message :=
  raw_stmt (Msg "CreateStmt" [("Relation", FMsg (Msg "RangeVar"
    [("Schemaname", FString schema); ("Relname", FString name); ("Relpersistence", FString persistence)]))]).
Definition drop_table (name : string) : message :=
  raw_stmt (Msg "DropStmt" [("RemoveType", FEnum "OBJECT_TABLE");
    ("Objects", FList [mk_node (Msg "List" [("Items", FList [mk_node (Msg "String" [("Sval", FString name)])])])])]).

Lemma durable_ddl_admitted_witness :
  @validateAtomicFleetDDL (parses_to [create_in "public" "p" "t"]) true new_session "CREATE TABLE t" 2 = Ok false ∧
  @requiresFleetWriteOrder (parses_to [create_in "public" "p" "t"]) "CREATE TABLE t" 2 = true.
Proof.
  split; [vm_compute; reflexivity|].
  refine (proj1 (proj2 (@durable_ddl_admitted (parses_to [create_in "public" "p" "t"]) true new_session
    "CREATE TABLE t" 2 (default (Msg "" []) (get_msg (Some (create_in "public" "p" "t")) "Stmt")) _ _ _ _ _))).
  - lia.
  - vm_compute. reflexivity.
  - by left.
  - vm_compute. reflexivity.
  - vm_compute. reflexivity.
Defined.

Lemma temporary_batch_is_temporary_witness :
  temporary_statement
    (temporary_after [default (Msg "" []) (get_msg (Some (create_temp "a" "ONCOMMIT_DROP")) "Stmt")] no_temporaries)
    (default (Msg "" []) (get_msg (Some (drop_table "a")) "Stmt")).
Proof.
  refine (@temporary_batch_is_temporary (parses_to [create_temp "a" "ONCOMMIT_DROP"; drop_table "a"])
    false new_session "CREATE TEMP TABLE a () ON COMMIT DROP; DROP TABLE a" 2 _ _ [] _ _).
  - vm_compute. reflexivity.
  - vm_compute. reflexivity.
Defined.

Lemma pg_temp_table_unpinned_witness :
  @session.classifySessionState (parses_to [create_in "pg_temp" "p" "t"]) "CREATE TABLE pg_temp.t ()" = no_policy.
Proof.
  refine (proj1 (proj2 (@pg_temp_table_unpinned (parses_to [create_in "pg_temp" "p" "t"]) true new_session
    "CREATE TABLE pg_temp.t ()" 2 _ (create_in "pg_temp" "p" "t") _ _ _
    eq_refl eq_refl eq_refl eq_refl eq_refl eq_refl _ _))).
  - vm_compute. reflexivity.
  - vm_compute. reflexivity.
Defined.

End fleetddl.
