(* ===== verification/Wire.v ===== *)
(** PostgreSQL protocol messages and the merging of the replies of several
    Burrows, from [internal/proxy/server.go] ([firstError], [readyTxStatus],
    [mergedCommandTag], the result loop of [handleSessionQuery]) and
    [internal/backend/backend.go] ([merge], [mergedTag]). *)
From S2P Require Import Prelude.
From S2P Require Import GoStrings.
From S2P Require Import GoNumbers.

Module wire.

(** * Messages *)

(** [pgproto3.ErrorResponse] with the fields the proxy sets or reads. *)
Record ErrorResponse := { Severity : string; Code : string; Message : string }.
Record FieldDescription := {
  Name : string; TableOID : Z; TableAttributeNumber : Z; DataTypeOID : Z;
  DataTypeSize : Z; TypeModifier : Z; Format : Z;
}.

(** The backend messages the proxy tells apart; [OtherMessage] carries the Go
    type name of any other. *)
Inductive BackendMessage :=
| ErrorMessage (e : ErrorResponse)
| ReadyForQuery (TxStatus : byte)
| RowDescription (fields : list FieldDescription)
| DataRow (values : list (option bytes))
| CommandComplete (tag : string)
| NoticeResponse (text : string)
| ParameterStatus (name value : string)
| EmptyQueryResponse
| NotificationResponse (payload : string)
| CopyInResponse | CopyOutResponse | CopyBothResponse
| OtherMessage (kind : string).

Definition sql_error (code message : string) : ErrorResponse :=
  {| Severity := "ERROR"; Code := code; Message := message |}.

Fixpoint first_error_in (messages : list BackendMessage) : option ErrorResponse :=
  match messages with
  | [] => None
  | ErrorMessage e :: _ => Some e
  | _ :: messages => first_error_in messages
  end.
Fixpoint firstError (responses : list (list BackendMessage)) : option ErrorResponse :=
  match responses with
  | [] => None
  | response :: responses =>
    match first_error_in response with Some e => Some e | None => firstError responses end
  end.

(** [readyTxStatus]: the loops with their early return. *)
Definition ready_step (status : option byte) (m : BackendMessage) : option byte :=
  match status, m with
  | Some status, ReadyForQuery tx =>
    if decide (status = "I"%char) then Some tx else if decide (tx = status) then Some status else None
  | status, _ => status
  end.
Definition readyTxStatus (responses : list (list BackendMessage)) : byte :=
  default "E"%char (fold_left ready_step (concat responses) (Some "I"%char)).

Definition isQueryDone (m : BackendMessage) : bool :=
  match m with ReadyForQuery _ => true | _ => false end.

(** * Row descriptions *)

Definition same_field (left right : FieldDescription) : bool :=
  bool_decide (Name left = Name right) && bool_decide (DataTypeOID left = DataTypeOID right)
  && bool_decide (DataTypeSize left = DataTypeSize right)
  && bool_decide (TypeModifier left = TypeModifier right)
  && bool_decide (Format left = Format right).
(** Two slices compared index by index after their lengths. *)
Fixpoint same_slices {A} (same : A → A → bool) (l1 l2 : list A) : bool :=
  match l1, l2 with
  | [], [] => true
  | a :: l1, b :: l2 => same a b && same_slices same l1 l2
  | _, _ => false
  end.
Definition sameRowDescription : list FieldDescription → list FieldDescription → bool :=
  same_slices same_field.

(** * Command tags *)

Definition splitRowCountTag (tag : string) : option (string * Z) :=
  match rev (Fields tag) with
  | last :: before =>
    if decide (before = []) then None else
    rows ← ParseInt last; Some (Join (rev before) " ", rows)
  | [] => None
  end.

(** The loop over the tags after the first. *)
Fixpoint add_row_counts (prefix : string) (rows : Z) (tags : list string) : option Z :=
  match tags with
  | [] => Some rows
  | tag :: tags =>
    '(nextPrefix, nextRows) ← splitRowCountTag tag;
    if decide (nextPrefix = prefix) then add_row_counts prefix (swrap 64 (rows + nextRows)) tags
    else None
  end.
Definition mergeRowCountTags (tags : list string) : option string :=
  match tags with
  | [] => None
  | tag :: tags =>
    '(prefix, rows) ← splitRowCountTag tag;
    rows ← add_row_counts prefix rows tags;
    Some (prefix +:+ " " +:+ FormatInt rows)
  end.

Definition mergedCommandTag (tags : list string) (rowCount : Z) : string :=
  match tags with
  | [] => ""
  | first :: others =>
    if HasPrefix first "SELECT" then "SELECT " +:+ FormatInt rowCount else
    match mergeRowCountTags tags with
    | Some tag => tag
    | None => if forallb (λ tag, bool_decide (tag = first)) others then first else "FANOUT"
    end
  end.

(** * The result loop of [handleSessionQuery] *)

Record collected := {
  description : option (list FieldDescription); rows : list (list (option bytes));
  tags : list string; notices : list string; parameterStatuses : list (string * string);
}.
Definition nothing_collected : collected :=
  {| description := None; rows := []; tags := []; notices := []; parameterStatuses := [] |}.

(** [first] says that the message is from the first Burrow's response. *)
Definition collect_message (first : bool) (c : collected) (m : BackendMessage)
    : result ErrorResponse collected :=
  match m with
  | RowDescription fields =>
    match description c with
    | None => Ok {| description := Some fields; rows := rows c; tags := tags c;
                    notices := notices c; parameterStatuses := parameterStatuses c |}
    | Some d => if sameRowDescription d fields then Ok c
                else Err (sql_error "XX000" "incompatible row descriptions from Burrows")
    end
  | DataRow values => Ok {| description := description c; rows := rows c ++ [values]; tags := tags c;
                            notices := notices c; parameterStatuses := parameterStatuses c |}
  | CommandComplete tag => Ok {| description := description c; rows := rows c; tags := tags c ++ [tag];
                                 notices := notices c; parameterStatuses := parameterStatuses c |}
  | NoticeResponse text =>
    Ok (if first then {| description := description c; rows := rows c; tags := tags c;
          notices := notices c ++ [text]; parameterStatuses := parameterStatuses c |} else c)
  | ParameterStatus name value =>
    Ok (if first then {| description := description c; rows := rows c; tags := tags c;
          notices := notices c; parameterStatuses := parameterStatuses c ++ [(name, value)] |} else c)
  | EmptyQueryResponse | ReadyForQuery _ | NotificationResponse _ => Ok c
  | CopyInResponse | CopyOutResponse | CopyBothResponse =>
    Err (sql_error "0A000" "COPY is not supported by Hamstergres Proxy")
  | ErrorMessage _ => Err (sql_error "08P01" "unexpected Query response *pgproto3.ErrorResponse")
  | OtherMessage kind => Err (sql_error "08P01" ("unexpected Query response " +:+ kind))
  end.
Definition collect (responses : list (list BackendMessage)) : result ErrorResponse collected :=
  mfold (λ c p, mfold (collect_message (bool_decide (p.1 = 0%nat))) c p.2)
    nothing_collected (enumerate responses).

(** What the client is then sent before ReadyForQuery. *)
Definition relayed (c : collected) : list BackendMessage :=
  (NoticeResponse <$> notices c) ++ ((λ p, ParameterStatus p.1 p.2) <$> parameterStatuses c)
  ++ match description c with Some d => [RowDescription d] | None => [] end
  ++ (DataRow <$> rows c)
  ++ match tags c with
     | [] => [EmptyQueryResponse]
     | _ => [CommandComplete (mergedCommandTag (tags c) (Z.of_nat (length (rows c))))]
     end.

(** * Results of [QueryAll] *)

Record Result := {
  ResultFields : list FieldDescription; Rows : list (list (option bytes)); CommandTag : string;
}.
Definition same_result_field (left right : FieldDescription) : bool :=
  bool_decide (Name left = Name right) && bool_decide (DataTypeOID left = DataTypeOID right)
  && bool_decide (Format left = Format right).
Definition sameFields : list FieldDescription → list FieldDescription → bool :=
  same_slices same_result_field.
Definition resultTags (results : list Result) : list string := CommandTag <$> results.
(** [mergedTag] indexes [results[0]]; [merge] calls it on a non-empty slice. *)
Definition mergedTag (first : Result) (others : list Result) (rowCount : Z) : string :=
  if HasPrefix (CommandTag first) "SELECT" then "SELECT " +:+ FormatInt rowCount else
  match mergeRowCountTags (resultTags (first :: others)) with
  | Some tag => tag
  | None => if forallb (λ r, bool_decide (CommandTag r = CommandTag first)) others
            then CommandTag first else "FANOUT"
  end.

Inductive merge_error := NoShards | IncompatibleFields (shard : nat).
(** The loop over [results]; the rows are appended one result at a time. *)
Definition merge (results : list Result) : result merge_error Result :=
  match results with
  | [] => Err NoShards
  | first :: others =>
    merged ← mfold (λ acc p,
      if sameFields (ResultFields first) (ResultFields p.2) then Ok (acc ++ Rows p.2)
      else Err (IncompatibleFields (S p.1))) [] (enumerate results);
    Ok {| ResultFields := ResultFields first; Rows := merged;
          CommandTag := mergedTag first others (Z.of_nat (length merged)) |}
  end.

(** * Lemmas: command tags *)

(** Words as PostgreSQL writes them in command tags. *)
Definition word (w : string) : Prop := w ≠ "" ∧ all_bytes plain w.

Lemma strip_one_space s : strip_one spaces (String " " s) = Some s.
Proof. reflexivity. Qed.

Lemma Fields_go_word w n cur rest :
  all_bytes plain w →
  Fields_go (String.length w + n) cur (w +:+ rest) = Fields_go n (reverse w +:+ cur) rest.
Proof.
  revert cur. induction w as [|c w IH]; intros cur; [done|]. intros [Hc Hw]%all_bytes_cons.
  rewrite length_cons_string, app_string_cons. cbn [Nat.add Fields_go].
  rewrite (strip_one_plain spaces) by (apply spaces_not_plain || done).
  rewrite IH by done. change (String c w) with (String c "" +:+ w).
  by rewrite reverse_app, app_string_assoc.
Qed.

Lemma reverse_word w : w ≠ "" → reverse w +:+ "" ≠ "".
Proof.
  intros Hw E. apply Hw. rewrite <- (reverse_involutive w).
  by rewrite app_string_nil_r in E; rewrite E.
Qed.

Lemma Fields_go_Join w ws n :
  Forall word (w :: ws) → (String.length (Join (w :: ws) " ") < n)%nat →
  Fields_go n "" (Join (w :: ws) " ") = w :: ws.
Proof.
  revert w n. induction ws as [|v ws IH]; intros w n [[Hne Hw] Hws]%Forall_cons Hn.
  - cbn [Join] in *. replace n with (String.length w + S (n - String.length w - 1))%nat by lia.
    assert (Fields_go (String.length w + S (n - String.length w - 1)) "" w
      = Fields_go (S (n - String.length w - 1)) (reverse w +:+ "") "") as ->.
    { rewrite <- Fields_go_word by done. by rewrite app_string_nil_r. } cbn [Fields_go].
    rewrite decide_False by by apply reverse_word.
    by rewrite app_string_nil_r, reverse_involutive.
  - change (Join (w :: v :: ws) " ") with (w +:+ " " +:+ Join (v :: ws) " ") in *.
    rewrite !length_app_string in Hn. cbn [String.length] in Hn.
    replace n with (String.length w + S (n - String.length w - 1))%nat by lia.
    rewrite Fields_go_word by done. rewrite app_string_cons, app_string_nil_l. cbn [Fields_go].
    rewrite strip_one_space, decide_False by by apply reverse_word.
    rewrite app_string_nil_r, reverse_involutive. cbn [app]. f_equal. apply IH; [done | lia].
Qed.

Lemma Fields_Join ws : Forall word ws → GoStrings.Fields (Join ws " ") = ws.
Proof. destruct ws as [|w ws]; [done|]. intros Hw. apply Fields_go_Join; [done | lia]. Qed.

Lemma Join_snoc ws w : ws ≠ [] → Join (ws ++ [w]) " " = Join ws " " +:+ " " +:+ w.
Proof.
  induction ws as [|v ws IH]; [done|]. intros _. destruct ws as [|u ws]; [done|].
  change (Join ((v :: u :: ws) ++ [w]) " ") with (v +:+ " " +:+ Join ((u :: ws) ++ [w]) " ").
  rewrite IH by done. change (Join (v :: u :: ws) " ") with (v +:+ " " +:+ Join (u :: ws) " ").
  by rewrite !app_string_assoc.
Qed.

Definition row_count_tag (prefix : list string) (count : Z) : string :=
  Join prefix " " +:+ " " +:+ FormatInt count.

Lemma FormatInt_word z : word (FormatInt z).
Proof.
  split; [|eapply SetString10_plain, SetString10_FormatInt].
  intros E. pose proof (SetString10_FormatInt z) as H. by rewrite E in H.
Qed.

Lemma splitRowCountTag_count prefix count :
  Forall word prefix → prefix ≠ [] → min_int64 ≤ count ≤ max_int64 →
  splitRowCountTag (row_count_tag prefix count) = Some (Join prefix " ", count).
Proof.
  intros Hp Hne Hc. unfold splitRowCountTag, row_count_tag. rewrite <- Join_snoc by done.
  rewrite Fields_Join by (apply Forall_app; split; [done|]; apply Forall_singleton, FormatInt_word).
  rewrite rev_app_distr. cbn [rev app]. rewrite decide_False.
  - rewrite ParseInt_FormatInt by done. cbn [mbind option_bind]. by rewrite rev_involutive.
  - intros E. apply Hne. rewrite <- (rev_involutive prefix). by rewrite E.
Qed.

Definition total (counts : list Z) : Z := foldr Z.add 0 counts.

Lemma add_row_counts_total prefix rows0 counts :
  Forall word prefix → prefix ≠ [] → Forall (λ c, min_int64 ≤ c ≤ max_int64) counts →
  add_row_counts (Join prefix " ") (swrap 64 rows0) (row_count_tag prefix <$> counts)
  = Some (swrap 64 (rows0 + total counts)).
Proof.
  intros Hp Hne Hc. revert rows0. induction Hc as [|c counts Hc _ IH]; intros rows0.
  - cbn. by rewrite Z.add_0_r.
  - cbn [fmap list_fmap add_row_counts]. rewrite splitRowCountTag_count by done.
    cbn [mbind option_bind]. rewrite decide_True by done. rewrite swrap_add_l, IH.
    cbn [total foldr]. unfold total. do 2 f_equal. lia.
Qed.

Lemma mergeRowCountTags_total prefix counts :
  Forall word prefix → prefix ≠ [] → Forall (λ c, min_int64 ≤ c ≤ max_int64) counts → counts ≠ [] →
  mergeRowCountTags (row_count_tag prefix <$> counts) = Some (row_count_tag prefix (swrap 64 (total counts))).
Proof.
  intros Hp Hne Hc Hcs. destruct counts as [|c counts]; [done|]. apply Forall_cons in Hc as [Hc Hcs'].
  cbn [fmap list_fmap mergeRowCountTags]. rewrite splitRowCountTag_count by done. cbn [mbind option_bind].
  rewrite <- (swrap_small c) at 1 by done. rewrite add_row_counts_total by done. done.
Qed.

Lemma HasPrefix_word_go w rest p :
  all_bytes (λ c, negb (bool_decide (c = " "%char))) p →
  HasPrefix w p = false → HasPrefix (w +:+ " " +:+ rest) p = false.
Proof.
  revert w. induction p as [|d p IH]; intros w; cbn [HasPrefix]; [by destruct w|].
  intros [Hd Hp]%all_bytes_cons. destruct w as [|c w].
  - intros _. rewrite app_string_nil_l, app_string_cons. cbn [HasPrefix].
    rewrite bool_decide_eq_false_2; [done|]. intros ->. by vm_compute in Hd.
  - rewrite app_string_cons. cbn [HasPrefix]. destruct (bool_decide (d = c)); cbn [andb]; [by apply IH | done].
Qed.

Lemma HasPrefix_word w rest :
  HasPrefix w "SELECT" = false → HasPrefix (w +:+ " " +:+ rest) "SELECT" = false.
Proof. apply HasPrefix_word_go, all_bytes_forallb. reflexivity. Qed.

(** * Lemmas: merging *)

Definition description_of (m : BackendMessage) : option (list FieldDescription) :=
  match m with RowDescription d => Some d | _ => None end.
Definition row_of (m : BackendMessage) : option (list (option bytes)) :=
  match m with DataRow v => Some v | _ => None end.
Definition tag_of (m : BackendMessage) : option string :=
  match m with CommandComplete t => Some t | _ => None end.
Definition notice_of (m : BackendMessage) : option string :=
  match m with NoticeResponse t => Some t | _ => None end.
Definition status_of (m : BackendMessage) : option (string * string) :=
  match m with ParameterStatus n v => Some (n, v) | _ => None end.
(** The messages a completed query may consist of. *)
Definition query_message (m : BackendMessage) : Prop :=
  match m with
  | ErrorMessage _ | OtherMessage _ | CopyInResponse | CopyOutResponse | CopyBothResponse => False
  | _ => True
  end.

(** What has been collected from the messages [l] after [c]. *)
Definition extended (first : bool) (c : collected) (l : list BackendMessage) : collected := {|
  description := match description c with Some d => Some d | None => head (omap description_of l) end;
  rows := rows c ++ omap row_of l; tags := tags c ++ omap tag_of l;
  notices := notices c ++ (if first then omap notice_of l else []);
  parameterStatuses := parameterStatuses c ++ (if first then omap status_of l else []) |}.
Definition agree (c : collected) (l : list BackendMessage) : Prop :=
  ∀ d d', description c = Some d → d' ∈ omap description_of l → sameRowDescription d d' = true.

Lemma same_slices_refl {A} (same : A → A → bool) l :
  (∀ a, same a a = true) → same_slices same l l = true.
Proof. intros H. induction l as [|a l IH]; [done|]. cbn. by rewrite H, IH. Qed.
Lemma sameRowDescription_refl d : sameRowDescription d d = true.
Proof. apply same_slices_refl. intros f. unfold same_field. by rewrite !bool_decide_eq_true_2. Qed.

Lemma extended_nil first c : extended first c [] = c.
Proof. destruct c as [[] ? ? ? ?], first; unfold extended; cbn; by rewrite !app_nil_r. Qed.

Lemma collect_message_ok first c m c' :
  collect_message first c m = Ok c' ↔
  query_message m ∧ agree (extended first c [m]) [m] ∧ c' = extended first c [m].
Proof.
  unfold agree, extended. destruct c as [dc ? ? ? ?].
  destruct m as [ | | fields | | | | | | | | | | ]; cbn;
    try (split; [done | by intros [[] _]]);
    try (destruct dc, first; cbn; rewrite ?app_nil_r;
      (split; [intros [= <-]; split_and!; try done; by intros ??? ?%elem_of_nil | by intros (_ & _ & ->)])).
  destruct dc as [d|]; cbn.
  - destruct (sameRowDescription d fields) eqn:E.
    + destruct first; rewrite ?app_nil_r; (split; [|by intros (_ & _ & ->)]); intros [= <-];
        (split_and!; [done | | done]); by intros ?? [= <-] ->%list_elem_of_singleton.
    + split; [done|]. intros (_ & H & _). specialize (H d fields eq_refl). rewrite H in E; [done|].
      by apply list_elem_of_singleton.
  - destruct first; rewrite ?app_nil_r; (split; [|by intros (_ & _ & ->)]); intros [= <-];
      (split_and!; [done | | done]); intros ?? [= <-] ->%list_elem_of_singleton;
      apply sameRowDescription_refl.
Qed.

Lemma extended_app first c l1 l2 :
  extended first (extended first c l1) l2 = extended first c (l1 ++ l2).
Proof.
  unfold extended. cbn. rewrite !omap_app, !(assoc_L (++)). f_equal.
  - destruct (description c); [done|]. by destruct (omap description_of l1).
  - destruct first; [by rewrite !(assoc_L (++)) | by rewrite !app_nil_r].
  - destruct first; [by rewrite !(assoc_L (++)) | by rewrite !app_nil_r].
Qed.

Lemma extended_description first c l d :
  description c = Some d → description (extended first c l) = Some d.
Proof. cbn. by intros ->. Qed.

Lemma agree_app first c l1 l2 :
  agree (extended first c l1) l1 → (agree (extended first (extended first c l1) l2) l2 ↔
  agree (extended first c (l1 ++ l2)) (l1 ++ l2)).
Proof.
  rewrite extended_app. intros H1. unfold agree. rewrite omap_app. setoid_rewrite elem_of_app. split; [|naive_solver].
  intros H2 d d' Hd [Hd'|Hd']; [|by eapply H2]. apply H1; [|done].
  cbn in *. rewrite omap_app in Hd. destruct (description c) as [x|]; [done|].
  destruct (omap description_of l1); [by apply elem_of_nil in Hd'|done].
Qed.

Lemma collect_messages_ok first c l c' :
  mfold (collect_message first) c l = Ok c' ↔
  Forall query_message l ∧ agree (extended first c l) l ∧ c' = extended first c l.
Proof.
  revert c. induction l as [|m l IH]; intros c.
  - cbn [mfold]. rewrite extended_nil. split; [intros [= <-]; split_and!; [done | | done] | by intros (_ & _ & ->)].
    by intros ??? ?%elem_of_nil.
  - rewrite mfold_cons_ok, Forall_cons. setoid_rewrite collect_message_ok. setoid_rewrite IH. split.
    + intros (c1 & (Hm & Ha & ->) & (Hl & Hb & ->)). rewrite extended_app in *.
      change (m :: l) with ([m] ++ l). split_and!; [done | done | | done].
      apply (agree_app first); [done|]. by rewrite extended_app.
    + change (m :: l) with ([m] ++ l). intros ([Hm Hl] & Ha & ->). exists (extended first c [m]).
      assert (agree (extended first c [m]) [m]) as H1.
      { intros d d' Hd Hd'. apply Ha; [|rewrite omap_app; apply elem_of_app; by left].
        rewrite <- extended_app. by apply extended_description. }
      split_and!; [done..| | by rewrite extended_app]. by apply agree_app.
Qed.

(** The merged result of a list of responses: every row, tag and description
    in Burrow order, notices and parameters of the first Burrow only. *)
Definition merged_of (responses : list (list BackendMessage)) : collected := {|
  description := head (omap description_of (concat responses));
  rows := omap row_of (concat responses); tags := omap tag_of (concat responses);
  notices := omap notice_of (default [] (head responses));
  parameterStatuses := omap status_of (default [] (head responses)) |}.
Definition same_descriptions (messages : list BackendMessage) : Prop :=
  ∀ d d', head (omap description_of messages) = Some d → d' ∈ omap description_of messages →
    sameRowDescription d d' = true.

Lemma collect_rest c i responses c' :
  mfold (λ c p, mfold (collect_message (bool_decide (p.1 = 0%nat))) c p.2) c
    (enumerate_from (S i) responses) = Ok c' ↔
  Forall query_message (concat responses) ∧
  agree (extended false c (concat responses)) (concat responses) ∧
  c' = extended false c (concat responses).
Proof.
  rewrite <- collect_messages_ok. revert c i. induction responses as [|r responses IH]; intros c i; [done|].
  cbn [enumerate_from concat]. rewrite mfold_app, mfold_cons_ok. cbn [fst snd]. rewrite bool_decide_eq_false_2 by done.
  destruct (mfold (collect_message false) c r) as [c1|e]; cbn [mbind result_bind]; [|naive_solver].
  rewrite <- (IH c1 (S i)). naive_solver.
Qed.

Lemma query_results_merged_iff responses c :
  collect responses = Ok c ↔
  Forall query_message (concat responses) ∧ same_descriptions (concat responses) ∧
  c = merged_of responses.
Proof.
  unfold collect, enumerate. destruct responses as [|r responses].
  { cbn. split; [intros [= <-]; split_and!; [done | | done] | by intros (_ & _ & ->)].
    by intros ??? ?%elem_of_nil. }
  cbn [enumerate_from concat]. rewrite mfold_cons_ok. cbn [fst snd]. rewrite bool_decide_eq_true_2 by done.
  setoid_rewrite collect_messages_ok. setoid_rewrite collect_rest. rewrite Forall_app.
  assert (extended false (extended true nothing_collected r) (concat responses) = merged_of (r :: responses)) as E.
  { unfold extended, merged_of. cbn. rewrite !omap_app, !app_nil_r. f_equal.
    destruct (omap description_of r); done. }
  assert (agree (extended true nothing_collected r) r →
    (agree (merged_of (r :: responses)) (concat responses) ↔ same_descriptions (r ++ concat responses))) as Ha.
  { intros H1. unfold same_descriptions, agree. rewrite omap_app. setoid_rewrite elem_of_app.
    unfold merged_of. cbn. rewrite omap_app. split; [|naive_solver].
    intros H2 d d' Hd [Hd'|Hd']; [|by eapply H2]. apply H1; [|done]. cbn.
    destruct (omap description_of r); [by apply elem_of_nil in Hd' | done]. }
  split.
  - intros (c1 & (Hr & H1 & ->) & (Hrs & H2 & ->)). rewrite E in *. split_and!; [done..| | done].
    by apply Ha.
  - intros ([Hr Hrs] & Hs & ->). exists (extended true nothing_collected r).
    assert (agree (extended true nothing_collected r) r) as H1.
    { intros d d' Hd Hd'. cbn in Hd. apply Hs; [|rewrite omap_app; apply elem_of_app; by left].
      rewrite omap_app. destruct (omap description_of r); done. }
    rewrite E. split_and!; [done..| by apply Ha | done].
Qed.

(** C37: the result relayed for a query on several Burrows is complete and
    ordered.  It is sent exactly when every response consists of query
    messages and all row descriptions agree with the first one; then it
    carries every row and every command tag in Burrow order, and the notices
    and parameters of the first Burrow only. *)
Theorem query_results_merged responses c :
  collect responses = Ok c ↔
  Forall query_message (concat responses) ∧ same_descriptions (concat responses) ∧
  c = merged_of responses.
Proof. apply query_results_merged_iff. Qed.

(** tags with a row count, as PostgreSQL writes them, are merged
    into one tag with the same words and the sum of the counts, computed in 64
    bits; a SELECT tag carries the number of rows that are relayed. *)
Theorem mergedCommandTag_total w prefix counts rowCount :
  Forall word (w :: prefix) → HasPrefix w "SELECT" = false →
  Forall (λ c, min_int64 ≤ c ≤ max_int64) counts → counts ≠ [] →
  mergedCommandTag (row_count_tag (w :: prefix) <$> counts) rowCount
    = row_count_tag (w :: prefix) (swrap 64 (total counts)) ∧
  (∀ tag others, mergedCommandTag (("SELECT" +:+ tag) :: others) rowCount
    = "SELECT " +:+ FormatInt rowCount).
Proof.
  intros Hw Hsel Hc Hne. split; [|done].
  pose proof (mergeRowCountTags_total (w :: prefix) counts Hw ltac:(done) Hc Hne) as Hm.
  destruct counts as [|c counts]; [done|]. unfold mergedCommandTag. cbn [fmap list_fmap] in *.
  assert (HasPrefix (row_count_tag (w :: prefix) c) "SELECT" = false) as ->; [|by rewrite Hm].
  unfold row_count_tag. destruct prefix as [|v prefix]; cbn [Join].
  - by apply HasPrefix_word.
  - rewrite !app_string_assoc. by apply HasPrefix_word.
Qed.

Lemma total_replicate n k : total (replicate n k) = Z.of_nat n * k.
Proof. induction n as [|n IH]; cbn [replicate total foldr]; [done|]. unfold total in IH. lia. Qed.

(** a write to a replicated table runs on every Burrow and
    changes the same rows on each; the client is told their number multiplied
    by the number of Burrows, which no single PostgreSQL server would report. *)
Theorem replicated_write_counted_per_burrow w prefix n k rowCount :
  Forall word (w :: prefix) → HasPrefix w "SELECT" = false →
  0 < k → (2 ≤ n)%nat → Z.of_nat n * k ≤ max_int64 →
  mergedCommandTag (replicate n (row_count_tag (w :: prefix) k)) rowCount
    = row_count_tag (w :: prefix) (Z.of_nat n * k) ∧
  row_count_tag (w :: prefix) (Z.of_nat n * k) ≠ row_count_tag (w :: prefix) k.
Proof.
  intros Hw Hsel Hk Hn Hmax. assert (min_int64 ≤ k ≤ max_int64) as Hb by (unfold min_int64, max_int64 in *; nia).
  split.
  - rewrite <- fmap_replicate. pose proof (mergeRowCountTags_total (w :: prefix) (replicate n k) Hw) as Hm.
    rewrite total_replicate, swrap_small in Hm by (unfold min_int64, max_int64 in *; nia).
    destruct n as [|n]; [lia|]. cbn [replicate fmap list_fmap] in *. unfold mergedCommandTag.
    assert (HasPrefix (row_count_tag (w :: prefix) k) "SELECT" = false) as ->.
    { unfold row_count_tag. destruct prefix as [|v prefix]; cbn [Join];
        rewrite ?app_string_assoc; by apply HasPrefix_word. }
    rewrite Hm; [done | done | | done]. apply Forall_cons. split; [done|]. by apply Forall_replicate.
  - unfold row_count_tag. intros E. apply (f_equal bytes_of) in E. rewrite !bytes_of_app in E.
    apply app_inv_head, app_inv_head, (inj bytes_of), (inj FormatInt) in E. nia.
Qed.

Lemma ready_steps s l :
  fold_left ready_step l (Some s) = Some "I"%char ↔
  s = "I"%char ∧ ∀ tx, ReadyForQuery tx ∈ l → tx = "I"%char.
Proof.
  assert (∀ l0, fold_left ready_step l0 None = None) as Hnone.
  { intros l0. induction l0 as [|m l0 IH]; [done | exact IH]. }
  revert s. induction l as [|m l IH]; intros s.
  { cbn. split; [intros [= ->]; split; [done|]; by intros ? ?%elem_of_nil | by intros [-> _]]. }
  cbn [fold_left]. setoid_rewrite elem_of_cons.
  destruct m as [e|tx| | | | | | | | | | | ]; cbn [ready_step];
    try (rewrite IH; split; intros [-> H]; (split; [done|]); [intros tx [[=]|Hm]; auto | auto]).
  destruct (decide (s = "I"%char)) as [->|Hs].
  - rewrite IH. split; [|naive_solver]. intros [-> H]. split; [done|]. intros tx' [[= ->]|Hin]; auto.
  - destruct (decide (tx = s)) as [->|]; [rewrite IH; naive_solver|]. rewrite Hnone. naive_solver.
Qed.

(** the merged transaction status is idle exactly when every
    Burrow that answered is idle, so the fleet write lock, which is released on
    that status, is never released while a Burrow is inside a transaction. *)
Theorem readyTxStatus_idle responses :
  readyTxStatus responses = "I"%char ↔ ∀ tx, ReadyForQuery tx ∈ concat responses → tx = "I"%char.
Proof.
  unfold readyTxStatus. pose proof (ready_steps "I" (concat responses)) as H.
  destruct (fold_left _ _ _) as [s|]; cbn [default from_option] in *; [|naive_solver].
  rewrite <- (inj_iff Some). naive_solver.
Qed.

(** The messages of one Burrow for a query whose pooled result is [r]. *)
Definition wire_of (r : Result) : list BackendMessage :=
  RowDescription (ResultFields r) :: (DataRow <$> Rows r)
  ++ [CommandComplete (CommandTag r); ReadyForQuery "I"%char].

Lemma omap_wire {A} (f : BackendMessage → option A) rs :
  (∀ v, f (DataRow v) = None) → (∀ tx, f (ReadyForQuery tx) = None) →
  omap f (concat (wire_of <$> rs)) =
  concat ((λ r, omap f [RowDescription (ResultFields r)] ++ omap f [CommandComplete (CommandTag r)]) <$> rs).
Proof.
  intros H1 H2. induction rs as [|r rs IH]; [done|]. cbn [fmap list_fmap concat]. rewrite omap_app.
  f_equal; [|exact IH]. unfold wire_of.
  change (RowDescription (ResultFields r) :: (DataRow <$> Rows r) ++ [CommandComplete (CommandTag r); ReadyForQuery "I"%char])
    with ([RowDescription (ResultFields r)] ++ (DataRow <$> Rows r) ++ [CommandComplete (CommandTag r)] ++ [ReadyForQuery "I"%char]).
  rewrite !omap_app. f_equal. assert (omap f (DataRow <$> Rows r) = []) as ->.
  { induction (Rows r) as [|v l IHl]; [done|]. cbn. by rewrite H1, IHl. }
  cbn. rewrite H2. by rewrite app_nil_r.
Qed.

Lemma merge_rows f i acc results rows :
  mfold (λ acc p, if sameFields f (ResultFields p.2) then Ok (acc ++ Rows p.2)
                  else Err (IncompatibleFields (S p.1))) acc (enumerate_from i results) = Ok rows ↔
  Forall (λ r, sameFields f (ResultFields r) = true) results ∧ rows = acc ++ concat (Rows <$> results).
Proof.
  revert i acc. induction results as [|r results IH]; intros i acc; cbn [enumerate_from mfold].
  - cbn. rewrite app_nil_r. split; [by intros [= <-] | by intros [_ ->]].
  - rewrite Forall_cons. cbn [snd]. destruct (sameFields _ _); cbn [mbind result_bind]; [|naive_solver].
    rewrite IH. cbn. rewrite (assoc_L (++)). naive_solver.
Qed.

Lemma same_field_result f g : same_field f g = true → same_result_field f g = true.
Proof. unfold same_field, same_result_field. rewrite !andb_true_iff. tauto. Qed.
Lemma same_slices_impl {A} (f g : A → A → bool) l1 l2 :
  (∀ a b, f a b = true → g a b = true) → same_slices f l1 l2 = true → same_slices g l1 l2 = true.
Proof.
  intros H. revert l2. induction l1 as [|a l1 IH]; intros [|b l2]; cbn; [done..|].
  rewrite !andb_true_iff. naive_solver.
Qed.

Lemma mergedTag_tags r rs n : mergedTag r rs n = mergedCommandTag (CommandTag <$> r :: rs) n.
Proof.
  unfold mergedTag, mergedCommandTag, resultTags. cbn [fmap list_fmap].
  destruct (HasPrefix _ _); [done|]. destruct (mergeRowCountTags _); [done|].
  assert (∀ l, forallb (λ x, bool_decide (CommandTag x = CommandTag r)) l
    = forallb (λ tag, bool_decide (tag = CommandTag r)) (CommandTag <$> l)) as H.
  { intros l. induction l as [|x l IH]; [done|]. cbn [forallb fmap list_fmap]. by rewrite IH. }
  by rewrite H.
Qed.

Lemma omap_rows_wire rs : omap row_of (concat (wire_of <$> rs)) = concat (Rows <$> rs).
Proof.
  induction rs as [|x l IH]; [done|]. cbn [fmap list_fmap concat].
  rewrite omap_app. f_equal; [|exact IH]. unfold wire_of. cbn. rewrite omap_app. cbn. rewrite app_nil_r.
  induction (Rows x) as [|v vs IHv]; [done|]. cbn. by rewrite IHv.
Qed.
Lemma omap_descriptions_wire rs : omap description_of (concat (wire_of <$> rs)) = ResultFields <$> rs.
Proof. rewrite omap_wire by done. induction rs as [|x l IH]; [done|]. cbn. by f_equal. Qed.
Lemma omap_tags_wire rs : omap tag_of (concat (wire_of <$> rs)) = CommandTag <$> rs.
Proof. rewrite omap_wire by done. induction rs as [|x l IH]; [done|]. cbn. by f_equal. Qed.

(** the two ways a query on all Burrows is answered agree.
    Whenever the session path accepts the responses, the pooled path
    ([QueryAll]) accepts the same results and relays the same description,
    rows and command tag. *)
Theorem session_and_pooled_results_agree r rs c :
  collect (wire_of <$> r :: rs) = Ok c →
  ∃ m, merge (r :: rs) = Ok m ∧ description c = Some (ResultFields m) ∧ rows c = Rows m ∧
    mergedCommandTag (tags c) (Z.of_nat (length (rows c))) = CommandTag m.
Proof.
  intros (_ & Hs & ->)%query_results_merged_iff. unfold merge.
  assert (mfold (λ acc p, if sameFields (ResultFields r) (ResultFields p.2) then Ok (acc ++ Rows p.2)
      else Err (IncompatibleFields (S p.1))) [] (enumerate (r :: rs)) = Ok (concat (Rows <$> r :: rs))) as ->.
  { apply merge_rows. split; [|done]. apply Forall_forall. intros x Hx.
    eapply same_slices_impl; [apply same_field_result|]. apply Hs; rewrite omap_descriptions_wire; [done|].
    by apply list_elem_of_fmap_2. }
  cbn [mbind result_bind]. eexists. split; [done|]. cbn [ResultFields Rows CommandTag].
  unfold merged_of. cbn [description rows tags]. rewrite omap_rows_wire, omap_descriptions_wire, omap_tags_wire. split_and!; [done..|].
  by rewrite mergedTag_tags.
Qed.

(** * Witnesses *)

Lemma mergedCommandTag_total_witness :
  mergedCommandTag ["INSERT 0 2"; "INSERT 0 5"] 0 = "INSERT 0 7".
Proof.
  apply (mergedCommandTag_total "INSERT" ["0"] [2; 5] 0);
    [|reflexivity| |done]; repeat (apply Forall_cons; split); try apply Forall_nil;
    try (split; [done | apply all_bytes_forallb; reflexivity]); try exact I;
    unfold min_int64, max_int64; lia.
Defined.

Lemma replicated_write_counted_per_burrow_witness :
  mergedCommandTag ["UPDATE 5"; "UPDATE 5"; "UPDATE 5"] 0 = "UPDATE 15".
Proof.
  apply (replicated_write_counted_per_burrow "UPDATE" [] 3 5 0);
    [|reflexivity|lia|lia|unfold max_int64; lia].
  apply Forall_singleton. split; [done | apply all_bytes_forallb; reflexivity].
Defined.

Definition id_field : FieldDescription := {| Name := "id"; TableOID := 16384; TableAttributeNumber := 1;
  DataTypeOID := 23; DataTypeSize := 4; TypeModifier := -1; Format := 0 |}.
Definition one_row (id : string) : Result :=
  {| ResultFields := [id_field]; Rows := [[Some (bytes_of id)]]; CommandTag := "SELECT 1" |}.
Lemma session_and_pooled_results_agree_witness :
  ∃ c, collect (wire_of <$> [one_row "1"; one_row "2"]) = Ok c ∧
    ∃ m, merge [one_row "1"; one_row "2"] = Ok m ∧ rows c = Rows m ∧ CommandTag m = "SELECT 2".
Proof.
  eexists. split; [reflexivity|].
  edestruct (session_and_pooled_results_agree (one_row "1") [one_row "2"]) as (m & Hm & _ & Hr & Ht);
    [reflexivity|].
  exists m. split_and!; [exact Hm | exact Hr | rewrite <- Ht; reflexivity].
Defined.

End wire.
