(* ===== verification/TwoPhase.v ===== *)
(** Transactions that span several Burrows, from [internal/proxy/server.go]:
    the two-phase commit of write transactions and of fleet-wide DDL.

    The PostgreSQL servers are a parameter: [reply_to] answers each command
    from the history of everything sent before, so the theorems hold whatever
    the Burrows reply, including lost connections. *)
From S2P Require Import Prelude.
From S2P Require Import GoStrings.
From S2P Require Import Session.
From S2P Require Import Wire.

Module twophase.
Import session wire.

(** What a session does to the outside: a command sent to a Burrow with its
    reply (an error text when the connection failed), the outcomes the
    statistics record, and the wait for the lock that orders fleet-wide writes. *)
Inductive event :=
| Sent (burrow sql : string) (reply : result string (list BackendMessage))
| Recorded (operation outcome : string)
| LockFleetWrites (acquired : bool).

(** Computations over the history of events. *)
Definition M (A : Type) : Type := list event → list event * A.
#[export] Instance M_ret : MRet M := λ A a h, (h, a).
#[export] Instance M_bind : MBind M := λ A B k m h, let '(h, a) := m h in k a h.
Definition emit (e : event) : M () := λ h, (h ++ [e], tt).
Definition RecordOperation (operation outcome : string) : M () := emit (Recorded operation outcome).

Section exchanges.
(** Given everything sent so far: whether writing a command to a Burrow's
    connection fails, and the reply to a command that was written. *)
Context (send_error : list event → string → string → option string)
  (reply_to : list event → string → string → result string (list BackendMessage)).

Definition command_reply (h : list event) (burrow sql : string) : result string (list BackendMessage) :=
  match send_error h burrow sql with
  | Some message => Err message
  | None => reply_to h burrow sql
  end.
Definition exchangeOne (burrow sql : string) : M (result string (list BackendMessage)) :=
  λ h, let reply := command_reply h burrow sql in (h ++ [Sent burrow sql reply], reply).

Definition runTransactionCommand (burrow sql : string) : M (option ErrorResponse) :=
  reply ← exchangeOne burrow sql;
  mret (match reply with
  | Err message => Some {| Severity := "ERROR"; Code := "08006"; Message := message |}
  | Ok messages => firstError [messages]
  end).

(** One command on each Burrow, up to the first error. *)
Fixpoint run_each (sql : string) (burrows : list string) : M (result ErrorResponse ()) :=
  match burrows with
  | [] => mret (Ok tt)
  | name :: burrows =>
    response ← runTransactionCommand name sql;
    match response with Some e => mret (Err e) | None => run_each sql burrows end
  end.

(** One command on each Burrow, with the errors ignored. *)
Fixpoint run_all (sql : string) (burrows : list string) : M bool :=
  match burrows with
  | [] => mret false
  | name :: burrows =>
    response ← runTransactionCommand name sql;
    failed ← run_all sql burrows;
    mret (bool_decide (is_Some response) || failed)
  end.

Definition prepare_sql (gid : string) : string := "PREPARE TRANSACTION '" +:+ gid +:+ "'".
Definition commit_sql (gid : string) : string := "COMMIT PREPARED '" +:+ gid +:+ "'".
Definition rollback_sql (gid : string) : string := "ROLLBACK PREPARED '" +:+ gid +:+ "'".

(** The prepare loop: [prepared] Burrows are behind, [burrows] remain. *)
Fixpoint prepare_each (gid : string) (prepared burrows : list string) : M (option ErrorResponse) :=
  match burrows with
  | [] => mret None
  | name :: rest =>
    response ← runTransactionCommand name (prepare_sql gid);
    match response with
    | Some e =>
      RecordOperation "two_phase_commit" "prepare_failure";;
      run_all (rollback_sql gid) prepared;;
      run_all "ROLLBACK" burrows;;
      mret (Some e)
    | None => prepare_each gid (prepared ++ [name]) rest
    end
  end.

Definition in_doubt (gid name : string) (e : ErrorResponse) : ErrorResponse := {|
  Severity := "ERROR"; Code := "40003";
  Message := "two-phase commit " +:+ gid +:+ " is in doubt after Burrow " +:+ name +:+ " failed: "
             +:+ Message e |}.

Fixpoint commit_each (gid : string) (burrows : list string) : M (option ErrorResponse) :=
  match burrows with
  | [] => mret None
  | name :: burrows =>
    response ← runTransactionCommand name (commit_sql gid);
    match response with
    | Some e =>
      RecordOperation "two_phase_commit" "uncertain";;
      mret (Some (in_doubt gid name e))
    | None => commit_each gid burrows
    end
  end.

(** [gid] is the transaction identifier drawn at random. *)
Definition commitTwoPhase (gid : string) (shardNames burrows : list string) : M (option ErrorResponse) :=
  let others := filter (λ name, name ∉ burrows) shardNames in
  finished ← run_each "ROLLBACK" others;
  match finished with
  | Err e => mret (Some e)
  | Ok _ =>
    failed ← prepare_each gid [] burrows;
    match failed with
    | Some e => mret (Some e)
    | None =>
      uncertain ← commit_each gid burrows;
      match uncertain with
      | Some e => mret (Some e)
      | None => RecordOperation "two_phase_commit" "success";; mret None
      end
    end
  end.

(** * Fleet-wide DDL *)

Definition rollbackAtomicFleetDDL (burrows : list string) : M () :=
  failed ← run_all "ROLLBACK" burrows;
  RecordOperation "fleet_ddl" (if (failed : bool) then "rollback_failure" else "rolled_back").

(** The loop of [beginAtomicFleetDDL] after [begun] Burrows. *)
Fixpoint begin_each (begun burrows : list string) : M (option ErrorResponse) :=
  match burrows with
  | [] => mret None
  | name :: burrows =>
    response ← runTransactionCommand name "BEGIN";
    match response with
    | Some e =>
      rollbackAtomicFleetDDL begun;;
      RecordOperation "fleet_ddl" "begin_failure";;
      mret (Some e)
    | None => begin_each (begun ++ [name]) burrows
    end
  end.
Definition beginAtomicFleetDDL (burrows : list string) : M (option ErrorResponse) :=
  begin_each [] burrows.

Definition commitAtomicFleetDDL (gid : string) (shardNames burrows : list string)
    : M (option ErrorResponse) :=
  response ← commitTwoPhase gid shardNames burrows;
  RecordOperation "fleet_ddl" (match response with Some _ => "commit_failure" | None => "committed" end);;
  mret response.

(** [exchange]: a command that cannot be written stops the sending loop; the
    replies are read only when every target has been sent the command. *)
Fixpoint exchange (sql : string) (targets : list string)
    : M (result string (list (list BackendMessage))) :=
  match targets with
  | [] => mret (Ok [])
  | name :: targets => λ h,
    match send_error h name sql with
    | Some message => (h ++ [Sent name sql (Err message)], Err message)
    | None =>
      (reply ← exchangeOne name sql;
       replies ← exchange sql targets;
       mret (messages ← reply; rest ← replies; Ok (messages :: rest))) h
    end
  end.

(** The part of [handleSessionQuery] that runs one DDL statement on the whole
    fleet outside a transaction: the error sent to the client, if any. *)
Definition atomic_fleet_ddl (gid sql : string) (shardNames targets : list string)
    : M (option ErrorResponse) :=
  begun ← beginAtomicFleetDDL targets;
  match begun with
  | Some e => mret (Some e)
  | None =>
    responses ← exchange sql targets;
    match responses with
    | Err message =>
      rollbackAtomicFleetDDL targets;;
      mret (Some {| Severity := "ERROR"; Code := "08006"; Message := message |})
    | Ok responses =>
      match firstError responses with
      | Some e => rollbackAtomicFleetDDL targets;; mret (Some e)
      | None => commitAtomicFleetDDL gid shardNames targets
      end
    end
  end.

(** * COMMIT of a session's transaction *)

(** What the client is sent, the release of the fleet write lock, and the
    marking of cached prepared statements as gone. *)
Inductive output :=
| Send (m : BackendMessage)
| UnlockFleetWrites
| InvalidatePreparedStatements (burrows : list string).

Definition close_transaction (s : extendedState) : extendedState := {|
  transaction := false; transactionFailed := transactionFailed s; mutated := mutated s;
  target := target s; schemaDirty := schemaDirty s; writeParticipants := ∅;
  sessionAffinity := sessionAffinity s; sessionDestroy := sessionDestroy s;
  sessionDiscardPrepared := sessionDiscardPrepared s; sessionSettings := sessionSettings s;
  temporary := temporary s; temporarySnapshots := temporarySnapshots s |}.
Definition clean_schema (s : extendedState) : extendedState := {|
  transaction := transaction s; transactionFailed := transactionFailed s; mutated := mutated s;
  target := target s; schemaDirty := false; writeParticipants := writeParticipants s;
  sessionAffinity := sessionAffinity s; sessionDestroy := sessionDestroy s;
  sessionDiscardPrepared := sessionDiscardPrepared s; sessionSettings := sessionSettings s;
  temporary := temporary s; temporarySnapshots := temporarySnapshots s |}.

(** [refresh] is the error of [refreshSchemaAfterDDL], [None] on success. *)
Definition handleTwoPhaseCommit (gid : string) (shardNames : list string) (refresh : option string)
    (s : extendedState) : M (extendedState * list output * bool) :=
  response ← commitTwoPhase gid shardNames (participantNames (writeParticipants s));
  mret (match response with
  | Some e => (close_transaction s, [Send (ErrorMessage e); Send (ReadyForQuery "I"%char); UnlockFleetWrites], false)
  | None =>
    let finished s := close_transaction (with_writes false "" ∅ s) in
    let done s := (finished (finishTemporaryTransaction true false s),
      [UnlockFleetWrites; Send (CommandComplete "COMMIT"); Send (ReadyForQuery "I"%char)], true) in
    if schemaDirty s then
      match refresh with
      | Some message =>
        (finished s,
         [Send (ErrorMessage (sql_error "55000" ("refresh schema registry after DDL: " +:+ message)));
          Send (ReadyForQuery "I"%char); UnlockFleetWrites], false)
      | None => done (clean_schema s)
      end
    else done s
  end).
End exchanges.

(** * Traces *)

(** The error a reply carries, as [runTransactionCommand] reports it. *)
Definition error_of (reply : result string (list BackendMessage)) : option ErrorResponse :=
  match reply with
  | Err message => Some {| Severity := "ERROR"; Code := "08006"; Message := message |}
  | Ok messages => firstError [messages]
  end.

Definition accepts (sql name : string) (e : event) : Prop :=
  ∃ reply, e = Sent name sql reply ∧ error_of reply = None.
Definition receives (sql name : string) (e : event) : Prop := ∃ reply, e = Sent name sql reply.

(** [burrows], in order, each accepted the command. *)
Definition all_accept (sql : string) (burrows : list string) (l : list event) : Prop :=
  Forall2 (accepts sql) burrows l.
Definition all_receive (sql : string) (burrows : list string) (l : list event) : Prop :=
  Forall2 (receives sql) burrows l.

(** The commands of one two-phase commit and the error it returns. *)
Inductive two_phase (gid : string) (others burrows : list string)
    : list event → option ErrorResponse → Prop :=
| two_phase_committed l1 l2 l3 :
    all_accept "ROLLBACK" others l1 → all_accept (prepare_sql gid) burrows l2 →
    all_accept (commit_sql gid) burrows l3 →
    two_phase gid others burrows (l1 ++ l2 ++ l3 ++ [Recorded "two_phase_commit" "success"]) None
| two_phase_not_released before x after l reply e :
    others = before ++ x :: after → all_accept "ROLLBACK" before l → error_of reply = Some e →
    two_phase gid others burrows (l ++ [Sent x "ROLLBACK" reply]) (Some e)
| two_phase_aborted before x after l1 l2 l3 l4 reply e :
    burrows = before ++ x :: after →
    all_accept "ROLLBACK" others l1 → all_accept (prepare_sql gid) before l2 →
    error_of reply = Some e →
    all_receive (rollback_sql gid) before l3 → all_receive "ROLLBACK" (x :: after) l4 →
    two_phase gid others burrows
      (l1 ++ l2 ++ Sent x (prepare_sql gid) reply :: Recorded "two_phase_commit" "prepare_failure" :: l3 ++ l4)
      (Some e)
| two_phase_uncertain before x after l1 l2 l3 reply e :
    burrows = before ++ x :: after →
    all_accept "ROLLBACK" others l1 → all_accept (prepare_sql gid) burrows l2 →
    all_accept (commit_sql gid) before l3 → error_of reply = Some e →
    two_phase gid others burrows
      (l1 ++ l2 ++ l3 ++ [Sent x (commit_sql gid) reply; Recorded "two_phase_commit" "uncertain"])
      (Some (in_doubt gid x e)).

Section traces.
Context (send_error : list event → string → string → option string)
  (reply_to : list event → string → string → result string (list BackendMessage)).

Lemma run_command h name sql :
  ∃ reply, runTransactionCommand send_error reply_to name sql h = (h ++ [Sent name sql reply], error_of reply).
Proof. eexists. unfold runTransactionCommand, exchangeOne. cbn. reflexivity. Qed.

Lemma run_each_trace sql burrows h :
  ∃ l r, run_each send_error reply_to sql burrows h = (h ++ l, r) ∧
    match r with
    | Ok _ => all_accept sql burrows l
    | Err e => ∃ before x after l' reply, burrows = before ++ x :: after ∧
        l = l' ++ [Sent x sql reply] ∧ all_accept sql before l' ∧ error_of reply = Some e
    end.
Proof.
  revert h. induction burrows as [|name burrows IH]; intros h; cbn [run_each].
  - exists [], (Ok tt). rewrite app_nil_r. split; [done | constructor].
  - unfold mbind, M_bind at 1. destruct (run_command h name sql) as (reply & ->).
    destruct (error_of reply) as [e|] eqn:E.
    + exists [Sent name sql reply], (Err e). split; [done|].
      exists [], name, burrows, [], reply. split_and!; [done | done | constructor | done].
    + destruct (IH (h ++ [Sent name sql reply])) as (l & r & -> & Hr).
      exists (Sent name sql reply :: l), r. split; [by rewrite <- app_assoc|].
      destruct r as [[]|e].
      * constructor; [by exists reply | done].
      * destruct Hr as (before & x & after & l' & reply' & -> & -> & Hacc & He).
        exists (name :: before), x, after, (Sent name sql reply :: l'), reply'.
        split_and!; [done | done | constructor; [by exists reply | done] | done].
Qed.

Lemma run_all_trace sql burrows h :
  ∃ l b, run_all send_error reply_to sql burrows h = (h ++ l, b) ∧ all_receive sql burrows l.
Proof.
  revert h. induction burrows as [|name burrows IH]; intros h; cbn [run_all].
  - exists [], false. rewrite app_nil_r. split; [done | constructor].
  - unfold mbind, M_bind at 1. destruct (run_command h name sql) as (reply & ->).
    unfold M_bind. destruct (IH (h ++ [Sent name sql reply])) as (l & b & -> & Hl).
    eexists (Sent name sql reply :: l), _. split; [by rewrite <- app_assoc|].
    constructor; [by exists reply | done].
Qed.

Lemma prepare_each_trace gid prepared burrows h :
  ∃ l r, prepare_each send_error reply_to gid prepared burrows h = (h ++ l, r) ∧
    match r with
    | None => all_accept (prepare_sql gid) burrows l
    | Some e => ∃ before x after l2 l3 l4 reply, burrows = before ++ x :: after ∧
        l = l2 ++ Sent x (prepare_sql gid) reply :: Recorded "two_phase_commit" "prepare_failure" :: l3 ++ l4 ∧
        all_accept (prepare_sql gid) before l2 ∧ error_of reply = Some e ∧
        all_receive (rollback_sql gid) (prepared ++ before) l3 ∧ all_receive "ROLLBACK" (x :: after) l4
    end.
Proof.
  revert prepared h. induction burrows as [|name burrows IH]; intros prepared h; cbn [prepare_each].
  - exists [], None. rewrite app_nil_r. split; [done | constructor].
  - unfold mbind, M_bind at 1. destruct (run_command h name (prepare_sql gid)) as (reply & ->).
    destruct (error_of reply) as [e|] eqn:E.
    + unfold M_bind, RecordOperation, emit.
      destruct (run_all_trace (rollback_sql gid) prepared
        ((h ++ [Sent name (prepare_sql gid) reply]) ++ [Recorded "two_phase_commit" "prepare_failure"]))
        as (l3 & b3 & -> & Hl3).
      destruct (run_all_trace "ROLLBACK" (name :: burrows)
        (((h ++ [Sent name (prepare_sql gid) reply]) ++ [Recorded "two_phase_commit" "prepare_failure"]) ++ l3))
        as (l4 & b4 & -> & Hl4).
      eexists _, (Some e). split; [by rewrite <- !app_assoc|]. cbn [app].
      exists [], name, burrows, [], l3, l4, reply. rewrite app_nil_r.
      split_and!; [done | done | constructor | done | done | done].
    + destruct (IH (prepared ++ [name]) (h ++ [Sent name (prepare_sql gid) reply])) as (l & r & -> & Hr).
      exists (Sent name (prepare_sql gid) reply :: l), r. split; [by rewrite <- app_assoc|].
      destruct r as [e|].
      * destruct Hr as (before & x & after & l2 & l3 & l4 & reply' & -> & -> & Hacc & He & H3 & H4).
        exists (name :: before), x, after, (Sent name (prepare_sql gid) reply :: l2), l3, l4, reply'.
        rewrite <- app_assoc in H3.
        split_and!; [done | done | constructor; [by exists reply | done] | done | done | done].
      * constructor; [by exists reply | done].
Qed.

Lemma commit_each_trace gid burrows h :
  ∃ l r, commit_each send_error reply_to gid burrows h = (h ++ l, r) ∧
    match r with
    | None => all_accept (commit_sql gid) burrows l
    | Some e' => ∃ before x after l3 reply e, burrows = before ++ x :: after ∧
        l = l3 ++ [Sent x (commit_sql gid) reply; Recorded "two_phase_commit" "uncertain"] ∧
        all_accept (commit_sql gid) before l3 ∧ error_of reply = Some e ∧ e' = in_doubt gid x e
    end.
Proof.
  revert h. induction burrows as [|name burrows IH]; intros h; cbn [commit_each].
  - exists [], None. rewrite app_nil_r. split; [done | constructor].
  - unfold mbind, M_bind at 1. destruct (run_command h name (commit_sql gid)) as (reply & ->).
    destruct (error_of reply) as [e|] eqn:E.
    + eexists [Sent name (commit_sql gid) reply; Recorded _ _], (Some _).
      split; [cbn; by rewrite <- app_assoc|].
      exists [], name, burrows, [], reply, e. split_and!; [done | done | constructor | done | done].
    + destruct (IH (h ++ [Sent name (commit_sql gid) reply])) as (l & r & -> & Hr).
      exists (Sent name (commit_sql gid) reply :: l), r. split; [by rewrite <- app_assoc|].
      destruct r as [e'|].
      * destruct Hr as (before & x & after & l3 & reply' & e & -> & -> & Hacc & He & ->).
        exists (name :: before), x, after, (Sent name (commit_sql gid) reply :: l3), reply', e.
        split_and!; [done | done | constructor; [by exists reply | done] | done | done].
      * constructor; [by exists reply | done].
Qed.

Lemma commitTwoPhase_trace gid shardNames burrows h :
  ∃ l r, commitTwoPhase send_error reply_to gid shardNames burrows h = (h ++ l, r) ∧
    two_phase gid (filter (λ name, name ∉ burrows) shardNames) burrows l r.
Proof.
  unfold commitTwoPhase. set (others := filter _ _). unfold mbind, M_bind at 1.
  destruct (run_each_trace "ROLLBACK" others h) as (l1 & r1 & -> & H1). destruct r1 as [[]|e].
  2:{ destruct H1 as (before & x & after & l' & reply & Ho & -> & Hacc & He).
      exists (l' ++ [Sent x "ROLLBACK" reply]), (Some e). split; [done|]. by eapply two_phase_not_released. }
  unfold M_bind at 1. destruct (prepare_each_trace gid [] burrows (h ++ l1)) as (l2 & r2 & -> & H2).
  destruct r2 as [e|].
  { destruct H2 as (before & x & after & l2' & l3 & l4 & reply & Hb & -> & Hacc & He & H3 & H4).
    eexists _, (Some e). split; [by rewrite <- app_assoc|]. by eapply two_phase_aborted. }
  unfold M_bind at 1. destruct (commit_each_trace gid burrows ((h ++ l1) ++ l2)) as (l3 & r3 & -> & H3).
  destruct r3 as [e'|].
  - destruct H3 as (before & x & after & l3' & reply & e & Hb & -> & Hacc & He & ->).
    eexists _, (Some _). split; [by rewrite <- !app_assoc|]. by eapply two_phase_uncertain.
  - eexists _, None. split; [cbn; by rewrite <- !app_assoc|]. by constructor.
Qed.
End traces.

(** * Refinement of atomic commitment

    The abstract specification is the transaction-commit protocol: a
    participant may commit only when every participant has prepared, and may
    abort only while none has committed.  A participant starts at work, or with
    its transaction already failed by an error of one of its statements. *)
Inductive participant := Working | Failed | Prepared | Committed | Aborted.
#[export] Instance participant_eq_dec : EqDecision participant.
Proof. solve_decision. Defined.

Abbreviation fleet := (gmap string participant).

Definition can_commit (m : fleet) : Prop :=
  map_Forall (λ _ st, st = Prepared ∨ st = Committed) m.
Definition none_committed (m : fleet) : Prop := map_Forall (λ _ st, st ≠ Committed) m.

Inductive tc_next : fleet → fleet → Prop :=
| tc_prepare m b : m !! b = Some Working → tc_next m (<[b := Prepared]> m)
| tc_commit m b : m !! b = Some Prepared → can_commit m → tc_next m (<[b := Committed]> m)
| tc_abort m b st : m !! b = Some st → st = Working ∨ st = Failed ∨ st = Prepared → none_committed m →
    tc_next m (<[b := Aborted]> m).

(** What PostgreSQL documents of the four commands for the participant of a
    transaction: PREPARE TRANSACTION rolls a failed transaction back. *)
Definition effect (gid sql : string) (st : participant) : participant :=
  match st with
  | Working => if decide (sql = prepare_sql gid) then Prepared
               else if decide (sql = "ROLLBACK") then Aborted else Working
  | Failed => if decide (sql = prepare_sql gid) then Aborted
              else if decide (sql = "ROLLBACK") then Aborted else Failed
  | Prepared => if decide (sql = commit_sql gid) then Committed
                else if decide (sql = rollback_sql gid) then Aborted else Prepared
  | st => st
  end.
(** Whether the command is answered without an error: COMMIT PREPARED and
    ROLLBACK PREPARED need a prepared transaction, but PREPARE TRANSACTION
    reports no error when it rolls back. *)
Definition answers (gid sql : string) (st : participant) : Prop :=
  sql = commit_sql gid ∨ sql = rollback_sql gid → st = Prepared.
#[export] Instance answers_dec gid sql st : Decision (answers gid sql st).
Proof. unfold answers. apply _. Defined.

(** A command takes effect, and is answered without an error only if
    PostgreSQL accepts it in the participant's state; one whose reply is an
    error, or was lost, may have taken effect or not. *)
Inductive performs (gid : string) : list event → fleet → fleet → Prop :=
| performs_nil m : performs gid [] m m
| performs_recorded o1 o2 l m m' : performs gid l m m' → performs gid (Recorded o1 o2 :: l) m m'
| performs_locked a l m m' : performs gid l m m' → performs gid (LockFleetWrites a :: l) m m'
| performs_effect b sql reply l m m' :
    (error_of reply = None → ∀ st, m !! b = Some st → answers gid sql st) →
    performs gid l (alter (effect gid sql) b m) m' → performs gid (Sent b sql reply :: l) m m'
| performs_nothing b sql reply l m m' :
    error_of reply ≠ None → performs gid l m m' → performs gid (Sent b sql reply :: l) m m'.

(** The participants after commands that were all delivered. *)
Definition delivered (gid : string) (m : fleet) (e : event) : fleet :=
  match e with Sent b sql _ => alter (effect gid sql) b m | _ => m end.
Definition after_events (gid : string) (m : fleet) (l : list event) : fleet := foldl (delivered gid) m l.

Definition sends (P : string → Prop) (e : event) : Prop :=
  match e with Sent _ sql _ => P sql | _ => True end.

Lemma sql_distinct gid :
  prepare_sql gid ≠ commit_sql gid ∧ rollback_sql gid ≠ commit_sql gid ∧ "ROLLBACK" ≠ commit_sql gid ∧
  "ROLLBACK" ≠ prepare_sql gid ∧ commit_sql gid ≠ "ROLLBACK" ∧ rollback_sql gid ≠ prepare_sql gid ∧
  rollback_sql gid ≠ "ROLLBACK".
Proof. split_and!; discriminate. Qed.

Lemma performs_app gid l1 l2 m m' :
  performs gid (l1 ++ l2) m m' ↔ ∃ m1, performs gid l1 m m1 ∧ performs gid l2 m1 m'.
Proof.
  split.
  - revert m. induction l1 as [|e l1 IH]; intros m Hp; cbn in Hp; [exists m; split; [constructor | done]|].
    inversion Hp; subst; match goal with H : performs _ (l1 ++ l2) _ _ |- _ =>
      destruct (IH _ H) as (m1 & ? & ?) end; exists m1; split; try done; by econstructor.
  - intros (m1 & H1 & H2). revert H2. induction H1; intros H2; cbn; [done | | | |].
    + apply performs_recorded. auto.
    + apply performs_locked. auto.
    + apply performs_effect; auto.
    + apply performs_nothing; auto.
Qed.

Lemma alter_effect_cases gid sql b (m : fleet) :
  alter (effect gid sql) b m = m ∨
  ∃ st, m !! b = Some st ∧ effect gid sql st ≠ st ∧ alter (effect gid sql) b m = <[b := effect gid sql st]> m.
Proof.
  destruct (m !! b) as [st|] eqn:E.
  - destruct (decide (effect gid sql st = st)) as [Heq|Hne].
    + left. apply map_eq. intros k. rewrite lookup_alter. case_decide; [|done]. subst. by rewrite E; cbn; rewrite Heq.
    + right. exists st. split; [done|]. split; [done|].
      apply map_eq. intros k. rewrite lookup_alter, lookup_insert. case_decide; [|done]. subst. by rewrite E.
  - left. apply map_eq. intros k. rewrite lookup_alter. case_decide; [|done]. subst. by rewrite E.
Qed.

(** Until the first COMMIT PREPARED nothing is committed. *)
Lemma uncommitted_refines gid l m m' :
  Forall (sends (λ sql, sql ≠ commit_sql gid)) l → none_committed m → performs gid l m m' →
  rtc tc_next m m' ∧ none_committed m'.
Proof.
  intros Hl Hm Hp. induction Hp as [m | | | b sql reply l m m' _ _ IH | b sql reply l m m' _ _ IH];
    [by split | | | |]; apply Forall_cons in Hl as [Hsql Hl]; [by apply IHHp | by apply IHHp | | by apply IH].
  destruct (alter_effect_cases gid sql b m) as [E | (st & Hst & Hne & E)]; rewrite E in IH; [by apply IH|].
  assert (effect gid sql st ≠ Committed) as Hnc.
  { cbn in Hsql. destruct st; cbn; [by repeat case_decide.. | | by apply Hm in Hst | done].
    rewrite decide_False by done. by case_decide. }
  destruct IH as [Hr Hn]; [done | by apply map_Forall_insert_2|]. split; [|done].
  eapply rtc_l; [|exact Hr]. destruct st; cbn in *; try done.
  - destruct (decide (sql = prepare_sql gid)); [by apply tc_prepare|].
    destruct (decide (sql = "ROLLBACK")); [|done]. by eapply tc_abort; [done | left |].
  - assert (Aborted ≠ Failed) by done. repeat case_decide; try done; (eapply tc_abort; [done | auto | done]).
  - rewrite decide_False in * by done. destruct (decide (sql = rollback_sql gid)); [|done].
    by eapply tc_abort; [done | auto |].
Qed.

(** Once every participant has prepared, COMMIT PREPARED is the only command. *)
Lemma committing_refines gid l m m' :
  Forall (sends (λ sql, sql = commit_sql gid)) l → can_commit m → performs gid l m m' →
  rtc tc_next m m' ∧ can_commit m'.
Proof.
  intros Hl Hm Hp. induction Hp as [m | | | b sql reply l m m' _ _ IH | b sql reply l m m' _ _ IH];
    [by split | | | |]; apply Forall_cons in Hl as [Hsql Hl]; [by apply IHHp | by apply IHHp | | by apply IH].
  destruct (alter_effect_cases gid sql b m) as [E | (st & Hst & Hne & E)]; rewrite E in IH; [by apply IH|].
  cbn in Hsql. subst sql. destruct (Hm _ _ Hst) as [-> | ->]; [|done]. cbn in *.
  rewrite decide_True in * by done.
  destruct IH as [Hr Hn]; [done | apply map_Forall_insert_2; auto|]. split; [|done].
  eapply rtc_l; [|exact Hr]. by apply tc_commit.
Qed.

(** Accepted commands on distinct participants all take effect. *)
Lemma performs_accepted gid sql burrows l m m' b :
  NoDup burrows → all_accept sql burrows l → performs gid l m m' →
  m' !! b = (if decide (b ∈ burrows) then effect gid sql <$> m !! b else m !! b).
Proof.
  intros Hnd Hacc. revert m. induction Hacc as [|name e burrows l Hev Hacc IH]; intros m Hp.
  - inversion Hp; subst. rewrite decide_False; [done | apply not_elem_of_nil].
  - destruct Hev as (reply & -> & Hr). apply NoDup_cons in Hnd as [Hnot Hnd]. inversion Hp as [| | | ? ? ? ? ? ? _ Hrest |]; subst; [|done].
    rewrite (IH Hnd _ Hrest). rewrite lookup_alter. destruct (decide (name = b)) as [->|Hne].
    + rewrite decide_False by done. by rewrite decide_True by (by left).
    + destruct (decide (b ∈ burrows)) as [Hin|Hout].
      * by rewrite decide_True by (by right).
      * rewrite decide_False; [done|]. by intros [->|?]%elem_of_cons.
Qed.

Lemma all_receive_sends sql burrows l P : P sql → all_receive sql burrows l → Forall (sends P) l.
Proof. intros HP Hl. induction Hl as [|name e ? ? Hev _ IH]; [constructor|]. destruct Hev as (reply & ->). by constructor. Qed.
Lemma all_accept_receive sql burrows l : all_accept sql burrows l → all_receive sql burrows l.
Proof. intros Hl. eapply Forall2_impl; [exact Hl|]. intros name e (reply & -> & _). by exists reply. Qed.
Lemma all_accept_sends sql burrows l P : P sql → all_accept sql burrows l → Forall (sends P) l.
Proof. intros HP Hl. by eapply all_receive_sends, all_accept_receive. Qed.

(** A segment of a trace sends only its own command. *)
Ltac segment :=
  solve [(eapply all_accept_sends + eapply all_receive_sends); [|eassumption]; first [assumption | reflexivity]].

Lemma performs_absent gid sql others l m m' :
  all_receive sql others l → Forall (λ b, m !! b = None) others → performs gid l m m' → m' = m.
Proof.
  intros Hl. induction Hl as [|b e others l Hev _ IH]; intros Hnone Hp; [by inversion Hp|].
  destruct Hev as (reply & ->). apply Forall_cons in Hnone as [Hb Hnone].
  inversion Hp as [| | | ? ? ? ? ? ? _ Hrest | ? ? ? ? ? ? Hfail Hrest]; subst; [|by apply IH].
  assert (alter (effect gid sql) b m = m) as E; [|rewrite E in Hrest; by apply IH].
  apply map_eq. intros k. rewrite lookup_alter. case_decide; [|done]. subst. by rewrite Hb.
Qed.

(** The participants before the commit: all of them at work. *)
Definition at_work (burrows : list string) : fleet := gset_to_gmap Working (list_to_set burrows).

Lemma at_work_lookup burrows b :
  at_work burrows !! b = if decide (b ∈ burrows) then Some Working else None.
Proof.
  unfold at_work. destruct (decide (b ∈ burrows)) as [Hin|Hout].
  - apply lookup_gset_to_gmap_Some. split; [by apply elem_of_list_to_set | done].
  - apply lookup_gset_to_gmap_None. by rewrite elem_of_list_to_set.
Qed.

Lemma at_work_uncommitted burrows : none_committed (at_work burrows).
Proof. intros b st. rewrite at_work_lookup. case_decide; [by intros [= <-] | done]. Qed.

Lemma consistent m : none_committed m ∨ can_commit m →
  ¬ ∃ b1 b2, m !! b1 = Some Committed ∧ m !! b2 = Some Aborted.
Proof.
  intros [Hm|Hm] (b1 & b2 & H1 & H2); [by apply Hm in H1 | by destruct (Hm _ _ H2)].
Qed.

(** The rollbacks and the prepare phase of a two-phase commit that gets past
    them leave every participant prepared. *)
Lemma prepared_fleet gid others burrows l1 l2 m' :
  NoDup burrows → Forall (λ b, b ∉ burrows) others →
  all_accept "ROLLBACK" others l1 → all_accept (prepare_sql gid) burrows l2 →
  performs gid (l1 ++ l2) (at_work burrows) m' →
  rtc tc_next (at_work burrows) m' ∧ ∀ b, m' !! b = if decide (b ∈ burrows) then Some Prepared else None.
Proof.
  intros Hnd Hout H1 H2 Hp. pose proof (sql_distinct gid) as (? & ? & ? & ? & ? & ? & ?). split.
  - eapply (uncommitted_refines gid (l1 ++ l2)); [|apply at_work_uncommitted|done].
    apply Forall_app. split; segment.
  - intros b. apply performs_app in Hp as (m1 & Hp1 & Hp2).
    apply (performs_absent _ _ _ _ _ _ (all_accept_receive _ _ _ H1)) in Hp1 as ->.
    2:{ eapply Forall_impl; [exact Hout|]. intros x Hx. by rewrite at_work_lookup, decide_False. }
    rewrite (performs_accepted _ _ _ _ _ _ b Hnd H2 Hp2), at_work_lookup.
    case_decide; [|done]. cbn. by rewrite decide_True.
Qed.

Lemma prepared_can_commit (burrows : list string) (m : fleet) :
  (∀ b, m !! b = if decide (b ∈ burrows) then Some Prepared else None) → can_commit m.
Proof. intros Hm b st. rewrite Hm. case_decide; [intros [= <-]; by left | done]. Qed.

Lemma two_phase_refines gid others burrows l r m' :
  NoDup burrows → Forall (λ b, b ∉ burrows) others → two_phase gid others burrows l r →
  performs gid l (at_work burrows) m' →
  rtc tc_next (at_work burrows) m' ∧ (none_committed m' ∨ can_commit m') ∧
  (r = None → ∀ b, m' !! b = if decide (b ∈ burrows) then Some Committed else None).
Proof.
  intros Hnd Hout Htr Hp. pose proof (sql_distinct gid) as (Hpc & Hrc & Hbc & _).
  assert (Forall (sends (λ sql, sql ≠ commit_sql gid)) l → r ≠ None →
    rtc tc_next (at_work burrows) m' ∧ (none_committed m' ∨ can_commit m') ∧
    (r = None → ∀ b, m' !! b = if decide (b ∈ burrows) then Some Committed else None)) as Habort.
  { intros Hl Hr. destruct (uncommitted_refines gid l _ m' Hl (at_work_uncommitted _) Hp).
    split; [done|]. split; [by left | by intros ?]. }
  destruct Htr as [l1 l2 l3 H1 H2 H3 | before x after l reply e -> H1 He
    | before x after l1 l2 l3 l4 reply e Hb H1 H2 He H3 H4 | before x after l1 l2 l3 reply e Hb H1 H2 H3 He].
  - rewrite app_assoc in Hp. apply performs_app in Hp as (m2 & Hp12 & Hp3).
    destruct (prepared_fleet _ _ _ _ _ _ Hnd Hout H1 H2 Hp12) as [Hr12 Hm2].
    destruct (committing_refines gid (l3 ++ [Recorded "two_phase_commit" "success"]) m2 m') as [Hr3 Hc];
      [|by eapply prepared_can_commit|done|].
    { apply Forall_app. split; [segment | by constructor]. }
    split; [by etrans|]. split; [by right|]. intros _ b.
    apply performs_app in Hp3 as (m3 & Hp3 & Hlast).
    inversion Hlast as [|? ? ? ? ? Hnil| | |]; subst. inversion Hnil; subst.
    rewrite (performs_accepted _ _ _ _ _ _ b Hnd H3 Hp3), Hm2.
    case_decide; [|done]. cbn. by rewrite decide_True.
  - apply Habort; [|done]. apply Forall_app. split; [segment | by constructor].
  - apply Habort; [|done]. apply Forall_app. split; [segment|].
    apply Forall_app. split; [segment|]. constructor; [done|]. constructor; [done|].
    apply Forall_app. split; segment.
  - rewrite app_assoc in Hp. apply performs_app in Hp as (m2 & Hp12 & Hp3).
    destruct (prepared_fleet _ _ _ _ _ _ Hnd Hout H1 H2 Hp12) as [Hr12 Hm2].
    destruct (committing_refines gid (l3 ++ [Sent x (commit_sql gid) reply; Recorded "two_phase_commit" "uncertain"])
      m2 m') as [Hr3 Hc]; [|by eapply prepared_can_commit|done|].
    { apply Forall_app. split; [segment|]. by repeat constructor. }
    split; [by etrans|]. split; [by right | done].
Qed.

(** ** Participants whose transaction has failed *)

Lemma performs_dom gid l m m' b : performs gid l m m' → is_Some (m !! b) → is_Some (m' !! b).
Proof.
  intros Hp. induction Hp as [m | | | b' sql reply l m m' _ _ IH | b' sql reply l m m' _ _ IH]; intros Hb; auto.
  apply IH. rewrite lookup_alter. case_decide; [subst; by rewrite fmap_is_Some | done].
Qed.

(** Participants that accept COMMIT PREPARED have committed. *)
Lemma accepted_commits gid burrows l m m' b :
  NoDup burrows → all_accept (commit_sql gid) burrows l → performs gid l m m' →
  b ∈ burrows → is_Some (m !! b) → m' !! b = Some Committed.
Proof.
  intros Hnd Hacc. revert m. induction Hacc as [|name e burrows l Hev Hacc IH]; intros m Hp Hb Hm; [by apply elem_of_nil in Hb|].
  destruct Hev as (reply & -> & Hr). apply NoDup_cons in Hnd as [Hnot Hnd].
  inversion Hp as [| | | ? ? ? ? ? ? Hans Hrest |]; subst; [|done]. apply elem_of_cons in Hb as [->|Hb].
  - rewrite (performs_accepted _ _ _ _ _ _ name Hnd Hacc Hrest), decide_False by done. rewrite lookup_alter, decide_True by done.
    destruct Hm as [st Hst]. rewrite (Hans Hr st Hst) in Hst by auto. rewrite Hst. cbn. by rewrite decide_True.
  - apply (IH Hnd _ Hrest Hb). rewrite lookup_alter. case_decide; [subst; by rewrite fmap_is_Some | done].
Qed.

Lemma two_phase_success gid others burrows l m m' b :
  NoDup burrows → two_phase gid others burrows l None → performs gid l m m' →
  b ∈ burrows → is_Some (m !! b) → m' !! b = Some Committed.
Proof.
  intros Hnd Htr Hp Hb Hm. inversion Htr as [l1 l2 l3 H1 H2 H3 E Er| | |]; subst.
  apply performs_app in Hp as (m1 & Hp1 & Hp). apply performs_app in Hp as (m2 & Hp2 & Hp).
  apply performs_app in Hp as (m3 & Hp3 & Hlast). inversion Hlast as [|? ? ? ? ? Hnil| | |]; subst. inversion Hnil; subst.
  eapply accepted_commits; [exact Hnd | exact H3 | exact Hp3 | done|].
  by eapply performs_dom, performs_dom.
Qed.

(** The participants of a transaction before its commit. *)
Definition starts (burrows : list string) (m : fleet) : Prop :=
  (∀ b, is_Some (m !! b) ↔ b ∈ burrows) ∧ map_Forall (λ _ st, st = Working ∨ st = Failed) m.

Lemma starts_at_work burrows m : starts burrows m → (∀ b, m !! b ≠ Some Failed) → m = at_work burrows.
Proof.
  intros [Hdom Hm] Hf. apply map_eq. intros b. rewrite at_work_lookup. case_decide as Hb.
  - apply Hdom in Hb as [st Hst]. rewrite Hst. destruct (Hm _ _ Hst) as [-> | ->]; [done | by destruct (Hf b)].
  - destruct (m !! b) eqn:E; [|done]. destruct Hb. apply Hdom. by rewrite E.
Qed.

Lemma at_work_starts burrows : starts burrows (at_work burrows).
Proof.
  split.
  - intros b. rewrite at_work_lookup. case_decide as Hb; (split; [|by eauto]); [done | by intros []].
  - intros b st. rewrite at_work_lookup. case_decide; [|done]. intros [= <-]. by left.
Qed.

(** * Order of the commands *)

Lemma split_after {A} (P : A → Prop) p q l1 (x : A) l2 :
  Forall P p → ¬ P x → p ++ q = l1 ++ x :: l2 → ∃ l1', l1 = p ++ l1'.
Proof.
  intros Hp Hx. revert l1. induction Hp as [|y p Hy _ IH]; intros l1 E; [by exists l1|].
  destruct l1 as [|z l1]; cbn in E; injection E as -> E; [done|].
  destruct (IH _ E) as [l1' ->]. by exists l1'.
Qed.

Lemma all_accept_member sql burrows l t :
  all_accept sql burrows l → t ∈ burrows → ∃ e, e ∈ l ∧ accepts sql t e.
Proof.
  intros Hl Ht. apply list_elem_of_lookup in Ht as [i Hi].
  destruct (Forall2_lookup_l _ _ _ _ _ Hl Hi) as (e & He & Hacc). exists e.
  split; [by eapply list_elem_of_lookup_2 | done].
Qed.

(** A COMMIT PREPARED is sent only after every participant has accepted PREPARE
    TRANSACTION. *)
Lemma two_phase_order gid others burrows l r l1 b reply l2 :
  two_phase gid others burrows l r → l = l1 ++ Sent b (commit_sql gid) reply :: l2 →
  ∃ before prepared l1', l1 = before ++ prepared ++ l1' ∧ all_accept (prepare_sql gid) burrows prepared.
Proof.
  intros Htr E. pose proof (sql_distinct gid) as (Hpc & Hrc & Hbc & _).
  assert (∀ p q, Forall (sends (λ sql, sql ≠ commit_sql gid)) p → p ++ q = l → ∃ l1', l1 = p ++ l1') as Hsplit.
  { intros p q Hp <-. eapply split_after; [exact Hp | | exact E]. by intros []. }
  assert (Forall (sends (λ sql, sql ≠ commit_sql gid)) l → False) as Hnever.
  { intros Hl. rewrite E in Hl. apply Forall_app in Hl as [_ [Hs _]%Forall_cons]. by destruct Hs. }
  assert (∀ m1 m2 q, l = m1 ++ m2 ++ q → all_accept "ROLLBACK" others m1 →
    all_accept (prepare_sql gid) burrows m2 →
    ∃ before prepared l1', l1 = before ++ prepared ++ l1' ∧ all_accept (prepare_sql gid) burrows prepared) as Hdone.
  { intros m1 m2 q El H1 H2. destruct (Hsplit (m1 ++ m2) q) as [l1' ->].
    - apply Forall_app. split; segment.
    - by rewrite El, app_assoc.
    - exists m1, m2, l1'. by rewrite app_assoc. }
  destruct Htr as [m1 m2 m3 H1 H2 H3 | before x after m reply' e Ho H1 He
    | before x after m1 m2 m3 m4 reply' e Hb H1 H2 He H3 H4 | before x after m1 m2 m3 reply' e Hb H1 H2 H3 He].
  - by eapply Hdone.
  - exfalso. apply Hnever. apply Forall_app. split; [segment | by repeat constructor].
  - exfalso. apply Hnever. apply Forall_app. split; [segment|].
    apply Forall_app. split; [segment|]. constructor; [done|]. constructor; [done|].
    apply Forall_app. split; segment.
  - by eapply Hdone.
Qed.

Section ddl_traces.
Context (send_error : list event → string → string → option string)
  (reply_to : list event → string → string → result string (list BackendMessage)).

Lemma rollback_trace burrows h :
  ∃ l, rollbackAtomicFleetDDL send_error reply_to burrows h = (h ++ l, tt) ∧
    Forall (sends (λ sql, sql = "ROLLBACK")) l.
Proof.
  unfold rollbackAtomicFleetDDL, mbind, M_bind.
  destruct (run_all_trace send_error reply_to "ROLLBACK" burrows h) as (l & b & -> & Hl).
  unfold RecordOperation, emit. eexists. split; [by rewrite <- app_assoc|].
  apply Forall_app. split; [segment | by constructor].
Qed.

Lemma begin_each_trace begun burrows h :
  ∃ l r, begin_each send_error reply_to begun burrows h = (h ++ l, r) ∧
    Forall (sends (λ sql, sql = "BEGIN" ∨ sql = "ROLLBACK")) l ∧
    (r = None → all_accept "BEGIN" burrows l).
Proof.
  revert begun h. induction burrows as [|name burrows IH]; intros begun h; cbn [begin_each].
  - exists [], None. rewrite app_nil_r. repeat split; constructor.
  - unfold mbind, M_bind at 1.
    destruct (run_command send_error reply_to h name "BEGIN") as (reply & ->).
    destruct (error_of reply) as [e|] eqn:E.
    + unfold M_bind. destruct (rollback_trace begun (h ++ [Sent name "BEGIN" reply])) as (l & -> & Hl).
      unfold RecordOperation, emit. eexists _, (Some e). split; [by rewrite <- !app_assoc|].
      split; [|done]. constructor; [by left|]. apply Forall_app. split; [|by constructor].
      eapply Forall_impl; [exact Hl|]. intros [] Hs; [by right | done | done].
    + destruct (IH (begun ++ [name]) (h ++ [Sent name "BEGIN" reply])) as (l & r & -> & Hl & Hr).
      exists (Sent name "BEGIN" reply :: l), r. split; [by rewrite <- app_assoc|].
      split; [constructor; [by left | done]|]. intros ->. constructor; [by exists reply | by apply Hr].
Qed.

Lemma exchange_trace sql targets h :
  ∃ l r, exchange send_error reply_to sql targets h = (h ++ l, r) ∧
    Forall (sends (λ s, s = sql)) l ∧
    ∀ responses, r = Ok responses → firstError responses = None → all_accept sql targets l.
Proof.
  revert h. induction targets as [|name targets IH]; intros h; cbn [exchange].
  - exists [], (Ok []). rewrite app_nil_r. repeat split; constructor.
  - destruct (send_error h name sql) as [message|] eqn:Es.
    + eexists _, _. split; [done|]. split; [by constructor | done].
    + unfold mbind, M_bind at 1, exchangeOne, command_reply. rewrite Es.
      set (reply := reply_to h name sql). unfold M_bind.
      destruct (IH (h ++ [Sent name sql reply])) as (l & r & -> & Hl & Hr).
      eexists (Sent name sql reply :: l), _. split; [by rewrite <- app_assoc|].
      split; [by constructor|]. intros responses Hresp Hnone.
      destruct reply as [messages|] eqn:Er; [|done]. destruct r as [rest|]; [|done].
      cbn in Hresp. injection Hresp as <-. cbn in Hnone.
      destruct (first_error_in messages) eqn:Em; [done|]. constructor.
      * exists (Ok messages). split; [done|]. cbn. by rewrite Em.
      * by eapply Hr.
Qed.
(** Either an error stops the statement before any COMMIT PREPARED, or every
    target has begun and executed it when the two-phase commit starts. *)
Lemma atomic_fleet_ddl_trace gid sql shardNames targets h :
  sql ≠ commit_sql gid →
  ∃ l r, atomic_fleet_ddl send_error reply_to gid sql shardNames targets h = (h ++ l, r) ∧
    ((r ≠ None ∧ Forall (sends (λ s, s ≠ commit_sql gid)) l) ∨
     ∃ l1 l2 l3 o, l = (l1 ++ l2) ++ l3 ++ [Recorded "fleet_ddl" o] ∧
       all_accept "BEGIN" targets l1 ∧ all_accept sql targets l2 ∧
       two_phase gid (filter (λ name, name ∉ targets) shardNames) targets l3 r).
Proof.
  intros Hsql. unfold atomic_fleet_ddl, beginAtomicFleetDDL, mbind, M_bind at 1.
  destruct (begin_each_trace [] targets h) as (l1 & r1 & -> & Hl1 & Hr1).
  assert (∀ P l, Forall (sends P) l → (∀ s, P s → s ≠ commit_sql gid) →
    Forall (sends (λ s, s ≠ commit_sql gid)) l) as Hweak.
  { intros P l Hl HP. eapply Forall_impl; [exact Hl|]. intros []; cbn; auto. }
  assert (Forall (sends (λ s, s ≠ commit_sql gid)) l1) as Hn1
    by (eapply Hweak; [exact Hl1 | by intros s [-> | ->]]).
  destruct r1 as [e|]; [exists l1, (Some e); split; [done | by left]|].
  unfold M_bind at 1. destruct (exchange_trace sql targets (h ++ l1)) as (l2 & r2 & -> & Hl2 & Hr2).
  assert (Forall (sends (λ s, s ≠ commit_sql gid)) (l1 ++ l2)) as Hn2
    by (apply Forall_app; split; [done | eapply Hweak; [exact Hl2 | by intros s ->]]).
  assert (∀ e, ∃ l r, (rollbackAtomicFleetDDL send_error reply_to targets;; (mret (Some e) : M _))
      ((h ++ l1) ++ l2) = (h ++ l, r) ∧ ((r ≠ None ∧ Forall (sends (λ s, s ≠ commit_sql gid)) l) ∨
     ∃ l1 l2 l3 o, l = (l1 ++ l2) ++ l3 ++ [Recorded "fleet_ddl" o] ∧
       all_accept "BEGIN" targets l1 ∧ all_accept sql targets l2 ∧
       two_phase gid (filter (λ name, name ∉ targets) shardNames) targets l3 r)) as Hroll.
  { intros e. unfold mbind, M_bind. destruct (rollback_trace targets ((h ++ l1) ++ l2)) as (l & -> & Hl).
    exists ((l1 ++ l2) ++ l), (Some e). split; [by rewrite <- !app_assoc|]. left. split; [done|].
    apply Forall_app. split; [done|]. eapply Hweak; [exact Hl | by intros s ->]. }
  destruct r2 as [responses|message]; [|apply Hroll].
  destruct (firstError responses) as [e|] eqn:Ee; [apply Hroll|].
  unfold commitAtomicFleetDDL, mbind, M_bind at 1.
  destruct (commitTwoPhase_trace send_error reply_to gid shardNames targets ((h ++ l1) ++ l2))
    as (l3 & r & -> & Htr).
  unfold M_bind, RecordOperation, emit. eexists _, r. split; [by rewrite <- !app_assoc|]. right.
  exists l1, l2, l3. eexists. split; [by rewrite <- app_assoc|]. split_and!; [by apply Hr1 | by eapply Hr2 | done].
Qed.
End ddl_traces.

(** A COMMIT PREPARED of a fleet-wide statement belongs to the two-phase commit. *)
Lemma fleet_commit_split gid sql targets l1 l2 l3 o m1 b reply m2 :
  sql ≠ commit_sql gid → all_accept "BEGIN" targets l1 → all_accept sql targets l2 →
  (l1 ++ l2) ++ l3 ++ [Recorded "fleet_ddl" o] = m1 ++ Sent b (commit_sql gid) reply :: m2 →
  ∃ m1' m2', m1 = (l1 ++ l2) ++ m1' ∧ l3 = m1' ++ Sent b (commit_sql gid) reply :: m2'.
Proof.
  intros Hsql H1 H2 E.
  assert (∃ m1', m1 = (l1 ++ l2) ++ m1') as [m1' ->].
  { eapply (split_after (sends (λ s, s ≠ commit_sql gid))); [| |exact E]; [|by intros []].
    assert ("BEGIN" ≠ commit_sql gid) by discriminate. apply Forall_app. split; segment. }
  rewrite <- (app_assoc (l1 ++ l2)) in E. apply app_inv_head in E.
  destruct m2 as [|x m2 _] using rev_ind.
  - exfalso. apply (app_inj_2 _ _ [_] [_]) in E as [_ [=]]; done.
  - rewrite app_comm_cons, app_assoc in E. apply (app_inj_2 _ _ [_] [_]) in E as [E _]; [|done]. eauto.
Qed.

(** * Burrows that are connected and answer as PostgreSQL does *)

Section truthful.
Context (send_error : list event → string → string → option string)
  (reply_to : list event → string → string → result string (list BackendMessage)).
Context (gid : string) (m : fleet) (h : list event).
Hypothesis Hsend : ∀ h b sql, send_error h b sql = None.
Hypothesis Hreply : ∀ l b sql, error_of (reply_to (h ++ l) b sql) = None ↔
  ∀ st, after_events gid m l !! b = Some st → answers gid sql st.

Lemma after_events_app l1 l2 : after_events gid m (l1 ++ l2) = after_events gid (after_events gid m l1) l2.
Proof. apply foldl_app. Qed.
Lemma after_sent l b sql reply k :
  after_events gid m (l ++ [Sent b sql reply]) !! k =
    if decide (b = k) then effect gid sql <$> after_events gid m l !! b else after_events gid m l !! k.
Proof. rewrite after_events_app. cbn. rewrite lookup_alter. case_decide; [by subst | done]. Qed.

Lemma command_delivered name sql l :
  runTransactionCommand send_error reply_to name sql (h ++ l) =
    (h ++ l ++ [Sent name sql (reply_to (h ++ l) name sql)], error_of (reply_to (h ++ l) name sql)).
Proof.
  unfold runTransactionCommand, exchangeOne, command_reply, mbind, M_bind, mret, M_ret. rewrite Hsend. by rewrite <- app_assoc.
Qed.

(** Burrows outside the transaction roll back. *)
Lemma run_each_delivered burrows l :
  Forall (λ b, after_events gid m l !! b = None) burrows →
  ∃ l', run_each send_error reply_to "ROLLBACK" burrows (h ++ l) = (h ++ l ++ l', Ok tt) ∧
    ∀ b, after_events gid m (l ++ l') !! b = after_events gid m l !! b.
Proof.
  revert l. induction burrows as [|name burrows IH]; intros l Hout; cbn [run_each].
  { exists []. rewrite !app_nil_r. by split. }
  apply Forall_cons in Hout as [Hname Hout]. unfold mbind, M_bind. rewrite command_delivered.
  set (reply := reply_to _ _ _). assert (error_of reply = None) as Hok by (apply Hreply; by rewrite Hname). rewrite Hok.
  assert (∀ k, after_events gid m (l ++ [Sent name "ROLLBACK" reply]) !! k = after_events gid m l !! k) as Hsame.
  { intros k. rewrite after_sent. case_decide; [subst; by rewrite Hname | done]. }
  destruct (IH (l ++ [Sent name "ROLLBACK" reply])) as (l' & E & Hl').
  { eapply Forall_impl; [exact Hout|]. intros b Hb. by rewrite Hsame. }
  exists (Sent name "ROLLBACK" reply :: l'). rewrite E, <- !app_assoc. cbn [app]. split; [done|]. intros b.
  change (l ++ Sent name "ROLLBACK" reply :: l') with (l ++ [Sent name "ROLLBACK" reply] ++ l'). rewrite app_assoc, Hl'. apply Hsame.
Qed.

(** Every PREPARE TRANSACTION is answered without an error. *)
Lemma prepare_each_delivered burrows :
  NoDup burrows → ∀ l prepared,
  ∃ l', prepare_each send_error reply_to gid prepared burrows (h ++ l) = (h ++ l ++ l', None) ∧
    ∀ b, after_events gid m (l ++ l') !! b =
      if decide (b ∈ burrows) then effect gid (prepare_sql gid) <$> after_events gid m l !! b else after_events gid m l !! b.
Proof.
  induction 1 as [|name burrows Hnot Hnd IH]; intros l prepared; cbn [prepare_each].
  { exists []. rewrite !app_nil_r. split; [done|]. intros b. by rewrite decide_False by apply not_elem_of_nil. }
  unfold mbind, M_bind. rewrite command_delivered. set (reply := reply_to _ _ _).
  assert (error_of reply = None) as -> by (apply Hreply; intros st _ [E|E]; discriminate E).
  destruct (IH (l ++ [Sent name (prepare_sql gid) reply]) (prepared ++ [name])) as (l' & E & Hl').
  exists (Sent name (prepare_sql gid) reply :: l'). rewrite E, <- !app_assoc. split; [done|]. intros b.
  change (Sent name (prepare_sql gid) reply :: l') with ([Sent name (prepare_sql gid) reply] ++ l').
  rewrite app_assoc, Hl', after_sent. destruct (decide (name = b)) as [->|Hne].
  - rewrite decide_False by done. by rewrite decide_True by (by left).
  - destruct (decide (b ∈ burrows)) as [Hb|Hb]; [by rewrite decide_True by (by right)|].
    rewrite decide_False; [done|]. by intros [->|?]%elem_of_cons.
Qed.

(** COMMIT PREPARED commits the prepared participants, up to one that has
    nothing to commit. *)
Lemma commit_each_delivered before x rest :
  NoDup before → x ∉ before → ∀ l,
  (∀ b, b ∈ before → after_events gid m l !! b = Some Prepared) → after_events gid m l !! x = Some Aborted →
  ∃ l' e, commit_each send_error reply_to gid (before ++ x :: rest) (h ++ l) = (h ++ l ++ l', Some (in_doubt gid x e)) ∧
    ∀ b, after_events gid m (l ++ l') !! b = if decide (b ∈ before) then Some Committed else after_events gid m l !! b.
Proof.
  induction 1 as [|name before Hnot Hnd IH]; intros Hxb l Hp Hx; cbn [app commit_each]; unfold mbind, M_bind; rewrite command_delivered;
    set (reply := reply_to _ _ _).
  - destruct (error_of reply) as [e|] eqn:He.
    2:{ pose proof (proj1 (Hreply _ _ _) He _ Hx (or_introl eq_refl)) as Hcontra. discriminate Hcontra. }
    unfold RecordOperation, emit, mret, M_ret. eexists _, e. split; [by rewrite <- !app_assoc|]. intros b.
    rewrite decide_False by apply not_elem_of_nil. cbn [app]. rewrite after_events_app. cbn.
    rewrite lookup_alter. case_decide; [subst; by rewrite Hx | done].
  - assert (error_of reply = None) as ->.
    { apply Hreply. intros st Hst _. rewrite Hp in Hst by (by left). by injection Hst. }
    apply not_elem_of_cons in Hxb as [Hne Hxb].
    destruct (IH Hxb (l ++ [Sent name (commit_sql gid) reply])) as (l' & e & E & Hl').
    { intros b Hb. rewrite after_sent, decide_False by (by intros ->). apply Hp. by right. }
    { by rewrite after_sent, decide_False. }
    exists (Sent name (commit_sql gid) reply :: l'), e. rewrite E, <- !app_assoc. split; [done|]. intros b.
    change (Sent name (commit_sql gid) reply :: l') with ([Sent name (commit_sql gid) reply] ++ l').
    rewrite app_assoc, Hl', after_sent. destruct (decide (name = b)) as [->|Hnb].
    + rewrite decide_False, decide_True by (done || by left). rewrite Hp by (by left). cbn. by rewrite decide_True.
    + destruct (decide (b ∈ before)) as [Hb|Hb]; [by rewrite decide_True by (by right)|].
      rewrite decide_False; [done|]. by intros [->|?]%elem_of_cons.
Qed.
End truthful.

Lemma participantNames_NoDup (bs : gset string) : NoDup (participantNames bs).
Proof. unfold participantNames. rewrite sort_strings_perm. apply NoDup_elements. Qed.

(** * Properties *)

Section properties.
Context (send_error : list event → string → string → option string)
  (reply_to : list event → string → string → result string (list BackendMessage)).

(** C2: whatever the Burrows reply, and whether or not a command with a
    lost reply took effect: a two-phase commit reports success only when every
    participant has committed, even if the transactions of some had failed
    before; and if none had, it moves the participants only by steps of the
    transaction-commit protocol, so that none is committed while another is
    aborted.  (With a failed participant the last part does not hold:
    [failed_participant_splits_commit].) *)
Theorem commitTwoPhase_refines_atomic_commit gid shardNames burrows h :
  NoDup burrows →
  ∃ l r, commitTwoPhase send_error reply_to gid shardNames burrows h = (h ++ l, r) ∧
    ∀ m m', starts burrows m → performs gid l m m' →
      (r = None → ∀ b, b ∈ burrows → m' !! b = Some Committed) ∧
      ((∀ b, m !! b ≠ Some Failed) →
        rtc tc_next m m' ∧ ¬ ∃ b1 b2, m' !! b1 = Some Committed ∧ m' !! b2 = Some Aborted).
Proof.
  intros Hnd. destruct (commitTwoPhase_trace send_error reply_to gid shardNames burrows h)
    as (l & r & Hrun & Htr).
  exists l, r. split; [done|]. intros m m' Hm Hp. split.
  - intros -> b Hb. eapply two_phase_success; [done | done | done | done|]. by apply Hm.
  - intros Hf. rewrite (starts_at_work _ _ Hm Hf) in Hp |- *.
    assert (Forall (λ b, b ∉ burrows) (filter (λ name, name ∉ burrows) shardNames)) as Hout.
    { apply Forall_forall. by intros b [Hb _]%list_elem_of_filter. }
    destruct (two_phase_refines _ _ _ _ _ m' Hnd Hout Htr Hp) as (Hr & Hc & _).
    split; [done | by apply consistent].
Qed.

(** COMMIT PREPARED is sent to a Burrow only after every
    participant has accepted PREPARE TRANSACTION, and a prepare that fails is
    followed by ROLLBACK PREPARED on every Burrow that had prepared and
    ROLLBACK on all the others. *)
Theorem commitTwoPhase_order gid shardNames burrows h :
  ∃ l r, commitTwoPhase send_error reply_to gid shardNames burrows h = (h ++ l, r) ∧
    (∀ l1 b reply l2, l = l1 ++ Sent b (commit_sql gid) reply :: l2 →
      ∀ t, t ∈ burrows → ∃ e, e ∈ l1 ∧ accepts (prepare_sql gid) t e) ∧
    (Recorded "two_phase_commit" "prepare_failure" ∈ l →
      ∀ t, t ∈ burrows → ∃ e, e ∈ l ∧ (receives "ROLLBACK" t e ∨ receives (rollback_sql gid) t e)).
Proof.
  destruct (commitTwoPhase_trace send_error reply_to gid shardNames burrows h) as (l & r & Hrun & Htr).
  exists l, r. split; [done|]. split.
  - intros l1 b reply l2 E t Ht.
    destruct (two_phase_order _ _ _ _ _ _ _ _ _ Htr E) as (before & prepared & l1' & -> & Hacc).
    destruct (all_accept_member _ _ _ t Hacc Ht) as (e & He & ?). exists e. split; [|done].
    rewrite !elem_of_app. auto.
  - assert (∀ sql bs m, all_accept sql bs m ∨ all_receive sql bs m →
      Recorded "two_phase_commit" "prepare_failure" ∉ m) as Hsent.
    { intros sql bs m [Hm|Hm] [i Hi]%list_elem_of_lookup;
        destruct (Forall2_lookup_r _ _ _ _ _ Hm Hi) as (? & _ & ? & Hev); [by destruct Hev | done]. }
    intros Hin t Ht.
    destruct Htr as [m1 m2 m3 H1 H2 H3 | before x after m reply' e Ho H1 He
      | before x after m1 m2 m3 m4 reply' e -> H1 H2 He H3 H4 | before x after m1 m2 m3 reply' e Hb H1 H2 H3 He].
    + rewrite !elem_of_app, list_elem_of_singleton in Hin.
      destruct Hin as [Hin|[Hin|[Hin|[=]]]]; exfalso; (eapply Hsent; [|exact Hin]; eauto).
    + rewrite elem_of_app, list_elem_of_singleton in Hin.
      destruct Hin as [Hin|[=]]; exfalso; (eapply Hsent; [|exact Hin]; eauto).
    + apply elem_of_app in Ht as [Ht|Ht]; apply list_elem_of_lookup in Ht as [i Hi].
      * destruct (Forall2_lookup_l _ _ _ _ _ H3 Hi) as (ev & Hev & Hr). exists ev. split; [|by right].
        apply list_elem_of_lookup_2 in Hev. rewrite !elem_of_app, !elem_of_cons, elem_of_app. auto 10.
      * destruct (Forall2_lookup_l _ _ _ _ _ H4 Hi) as (ev & Hev & Hr). exists ev. split; [|by left].
        apply list_elem_of_lookup_2 in Hev. rewrite !elem_of_app, !elem_of_cons, elem_of_app. auto 10.
    + rewrite !elem_of_app, elem_of_cons, list_elem_of_singleton in Hin.
      destruct Hin as [Hin|[Hin|[Hin|[[=]|[=]]]]]; exfalso; (eapply Hsent; [|exact Hin]; eauto).
Qed.

(** C11: a DDL statement outside a transaction commits on a Burrow
    only after every target has opened a transaction, executed the statement
    without error and prepared; it is reported as successful only when every
    target has accepted all four steps. *)
Theorem fleet_ddl_all_or_nothing gid sql shardNames targets h :
  sql ≠ commit_sql gid →
  ∃ l r, atomic_fleet_ddl send_error reply_to gid sql shardNames targets h = (h ++ l, r) ∧
    (∀ l1 b reply l2, l = l1 ++ Sent b (commit_sql gid) reply :: l2 →
      ∀ t step, t ∈ targets → step ∈ ["BEGIN"; sql; prepare_sql gid] →
        ∃ e, e ∈ l1 ∧ accepts step t e) ∧
    (r = None → ∀ t step, t ∈ targets → step ∈ ["BEGIN"; sql; prepare_sql gid; commit_sql gid] →
        ∃ e, e ∈ l ∧ accepts step t e).
Proof.
  intros Hsql. destruct (atomic_fleet_ddl_trace send_error reply_to gid sql shardNames targets h Hsql)
    as (l & r & Hrun & Hcases). exists l, r. split; [done|].
  destruct Hcases as [[Hr Hl] | (l1 & l2 & l3 & o & -> & H1 & H2 & Htr)].
  { split; [|done]. intros m1 b reply m2 ->. apply Forall_app in Hl as [_ [Hs _]%Forall_cons]. by destruct Hs. }
  assert (∀ t step, t ∈ targets → step = "BEGIN" ∨ step = sql → ∃ e, e ∈ l1 ++ l2 ∧ accepts step t e) as Hearly.
  { intros t step Ht [-> | ->]; [destruct (all_accept_member _ _ _ t H1 Ht) as (e & He & ?)
      | destruct (all_accept_member _ _ _ t H2 Ht) as (e & He & ?)]; exists e;
      (split; [apply elem_of_app; auto | done]). }
  split.
  - intros m1 b reply m2 E t step Ht Hstep.
    destruct (fleet_commit_split _ _ _ _ _ _ _ _ _ _ _ Hsql H1 H2 E) as (m1' & m2' & -> & E3).
    rewrite !elem_of_cons, elem_of_nil in Hstep.
    assert (step = prepare_sql gid ∨ step = "BEGIN" ∨ step = sql) as [->|Hstep'] by tauto.
    + destruct (two_phase_order _ _ _ _ _ _ _ _ _ Htr E3) as (before & prepared & l' & -> & Hacc).
      destruct (all_accept_member _ _ _ t Hacc Ht) as (e & He & ?). exists e. split; [|done].
      rewrite !elem_of_app. auto.
    + destruct (Hearly t step Ht Hstep') as (e & He & ?). exists e. split; [apply elem_of_app; auto | done].
  - intros -> t step Ht Hstep. inversion Htr as [m1 m2 m3 Hm1 Hm2 Hm3 El Er| | | ]; subst l3.
    rewrite !elem_of_cons, elem_of_nil in Hstep.
    assert (step = prepare_sql gid ∨ step = commit_sql gid ∨ step = "BEGIN" ∨ step = sql)
      as [->|[->|Hstep']] by tauto.
    + destruct (all_accept_member _ _ _ t Hm2 Ht) as (e & He & ?). exists e. rewrite !elem_of_app. auto 10.
    + destruct (all_accept_member _ _ _ t Hm3 Ht) as (e & He & ?). exists e. rewrite !elem_of_app. auto 10.
    + destruct (Hearly t step Ht Hstep') as (e & He & ?). exists e. rewrite elem_of_app. auto.
Qed.

(** C39: PostgreSQL answers PREPARE TRANSACTION in a transaction that has
    failed by rolling it back and reporting no error.  So with Burrows that are
    connected and answer as PostgreSQL does, COMMIT of a transaction of which
    one participant [x] has failed is not atomic: the participants before [x]
    are committed and [x] is aborted; those after it stay prepared, or are
    aborted if they had failed too, and get no further command; and the client
    is told that the commit is in doubt, while its transaction is closed. *)
Theorem failed_participant_splits_commit gid shardNames refresh s before x after m h :
  participantNames (writeParticipants s) = before ++ x :: after →
  starts (before ++ x :: after) m →
  (∀ b, b ∈ before → m !! b = Some Working) → m !! x = Some Failed →
  (∀ h b sql, send_error h b sql = None) →
  (∀ l b sql, error_of (reply_to (h ++ l) b sql) = None ↔
     ∀ st, after_events gid m l !! b = Some st → answers gid sql st) →
  ∃ l e, handleTwoPhaseCommit send_error reply_to gid shardNames refresh s h =
      (h ++ l, (close_transaction s,
         [Send (ErrorMessage (in_doubt gid x e)); Send (ReadyForQuery "I"%char); UnlockFleetWrites], false)) ∧
    (∀ b, b ∈ before → after_events gid m l !! b = Some Committed) ∧
    after_events gid m l !! x = Some Aborted ∧
    (∀ b, b ∈ after → after_events gid m l !! b = Some (if decide (m !! b = Some Failed) then Aborted else Prepared)).
Proof.
  intros Hnames Hm Hbefore Hx Hsend Hreply. set (burrows := before ++ x :: after) in *.
  assert (NoDup burrows) as Hnd by (rewrite <- Hnames; apply participantNames_NoDup).
  destruct (run_each_delivered send_error reply_to gid m h Hsend Hreply (filter (λ name, name ∉ burrows) shardNames) []) as (l1 & E1 & Hl1).
  { apply Forall_forall. intros b [Hb _]%list_elem_of_filter. cbn. destruct (m !! b) eqn:Hmb; [|done].
    destruct Hb. apply (proj1 Hm). by rewrite Hmb. }
  destruct (prepare_each_delivered send_error reply_to gid m h Hsend Hreply burrows Hnd l1 []) as (l2 & E2 & Hl2).
  pose proof Hnd as (Hnd1 & Hdisj & [Hxa Hnd2]%NoDup_cons)%NoDup_app.
  assert (x ∉ before) as Hxb by (intros Hin; apply (Hdisj x Hin); by left).
  assert (∀ b, b ∈ burrows → after_events gid m (l1 ++ l2) !! b = effect gid (prepare_sql gid) <$> m !! b) as Hprep.
  { intros b Hb. rewrite Hl2, decide_True by done. by rewrite Hl1. }
  assert (after_events gid m (l1 ++ l2) !! x = Some Aborted) as Hxp.
  { rewrite Hprep by (apply elem_of_app; right; by left). rewrite Hx. cbn. by rewrite decide_True. }
  destruct (commit_each_delivered send_error reply_to gid m h Hsend Hreply before x after Hnd1 Hxb (l1 ++ l2)) as (l3 & e & E3 & Hl3); [|by rewrite Hxp|].
  { intros b Hb. rewrite Hprep by (apply elem_of_app; by left). rewrite Hbefore by done. cbn. by rewrite decide_True. }
  exists (l1 ++ l2 ++ l3), e. split.
  { unfold handleTwoPhaseCommit, commitTwoPhase. rewrite Hnames. fold burrows. unfold mbind, M_bind, mret, M_ret.
    cbn [app] in E1. rewrite app_nil_r in E1. rewrite E1, E2. change (before ++ x :: after) with burrows in E3. rewrite <- !app_assoc in E3. rewrite E3. done. }
  rewrite !app_assoc. split_and!.
  - intros b Hb. by rewrite Hl3, decide_True.
  - by rewrite Hl3, decide_False.
  - intros b Hb. rewrite Hl3, decide_False by (intros Hin; apply (Hdisj b Hin); by right).
    rewrite Hprep by (apply elem_of_app; right; by right). destruct (proj1 Hm b) as [_ [st Hst]]; [apply elem_of_app; right; by right|].
    rewrite Hst. destruct (proj2 Hm _ _ Hst) as [-> | ->]; cbn; by rewrite decide_True.
Qed.

(** when a Burrow outside the transaction cannot roll back, the
    two-phase commit returns at once: no command reaches any participant, whose
    transactions stay open, while the session forgets them and reports to the
    client that it is idle. *)
Theorem rollback_failure_abandons_participants gid shardNames refresh s x after e h :
  filter (λ name, name ∉ participantNames (writeParticipants s)) shardNames = x :: after →
  error_of (command_reply send_error reply_to h x "ROLLBACK") = Some e →
  ∃ reply s', handleTwoPhaseCommit send_error reply_to gid shardNames refresh s h =
      (h ++ [Sent x "ROLLBACK" reply],
       (s', [Send (ErrorMessage e); Send (ReadyForQuery "I"%char); UnlockFleetWrites], false)) ∧
    (x ∉ writeParticipants s) ∧ transaction s' = false ∧ writeParticipants s' = ∅.
Proof.
  intros Hothers He.
  eexists _, _. unfold handleTwoPhaseCommit, commitTwoPhase. rewrite Hothers. cbn [run_each].
  unfold mbind, M_bind, runTransactionCommand, exchangeOne, mbind, M_bind, mret, M_ret.
  set (reply := command_reply send_error reply_to h x "ROLLBACK") in *.
  change (match reply with
    | Err message => Some {| Severity := "ERROR"; Code := "08006"; Message := message |}
    | Ok messages => firstError [messages] end) with (error_of reply).
  rewrite He. split; [done|]. split; [|done].
  assert (x ∈ filter (λ name, name ∉ participantNames (writeParticipants s)) shardNames) as Hx
    by (rewrite Hothers; by left).
  apply list_elem_of_filter in Hx as [Hx _]. contradict Hx. unfold participantNames.
  by rewrite sort_strings_perm, elem_of_elements.
Qed.
End properties.

(** * Witnesses *)

Definition connected (h : list event) (burrow sql : string) : option string := None.
Definition accepting (h : list event) (burrow sql : string) : result string (list BackendMessage) :=
  Ok [CommandComplete "OK"; ReadyForQuery "I"%char].
Definition failure : ErrorResponse :=
  {| Severity := "ERROR"; Code := "42704"; Message := "prepared transaction does not exist" |}.
(** Burrows that answer as PostgreSQL does, after the transaction of [b] failed. *)
Definition b_failed_fleet : fleet := {["a" := Working; "b" := Failed]}.
Definition b_failed (h : list event) (burrow sql : string) : result string (list BackendMessage) :=
  match after_events "g" b_failed_fleet h !! burrow with
  | Some st => if decide (answers "g" sql st) then accepting h burrow sql
               else Ok [ErrorMessage failure; ReadyForQuery "I"%char]
  | None => accepting h burrow sql
  end.
(** Burrow [c] is unreachable. *)
Definition c_lost (h : list event) (burrow sql : string) : option string :=
  if decide (burrow = "c") then Some "connection refused" else None.

Lemma commitTwoPhase_refines_atomic_commit_witness :
  ∃ l r, commitTwoPhase connected accepting "g" ["a"; "b"; "c"] ["a"; "b"] [] = (l, r) ∧ r = None ∧
    ∀ m', performs "g" l (at_work ["a"; "b"]) m' → m' !! "a" = Some Committed.
Proof.
  destruct (commitTwoPhase_refines_atomic_commit connected accepting "g" ["a"; "b"; "c"] ["a"; "b"] [])
    as (l & r & Hrun & Hp); [by_computation|].
  assert (r = None) as -> by (vm_compute in Hrun; injection Hrun; done).
  exists l, None. split; [exact Hrun|]. split; [reflexivity|]. intros m' Hm.
  apply (proj1 (Hp (at_work ["a"; "b"]) m' ltac:(apply at_work_starts) Hm) eq_refl). by_computation.
Defined.

Lemma commitTwoPhase_order_witness :
  ∃ l r, commitTwoPhase connected b_failed "g" ["a"; "b"; "c"] ["a"; "b"] [] = (l, r) ∧
    ∀ l1 b reply l2, l = l1 ++ Sent b (commit_sql "g") reply :: l2 →
      ∀ t, t ∈ ["a"; "b"] → ∃ e, e ∈ l1 ∧ accepts (prepare_sql "g") t e.
Proof.
  destruct (commitTwoPhase_order connected b_failed "g" ["a"; "b"; "c"] ["a"; "b"] [])
    as (l & r & Hrun & Ho & _). exists l, r. exact (conj Hrun Ho).
Defined.

Lemma fleet_ddl_all_or_nothing_witness :
  ∃ l r, atomic_fleet_ddl connected accepting "g" "CREATE TABLE t ()" ["a"; "b"] ["a"; "b"] [] = (l, r) ∧
    r = None ∧ ∃ e, e ∈ l ∧ accepts "CREATE TABLE t ()" "b" e.
Proof.
  destruct (fleet_ddl_all_or_nothing connected accepting "g" "CREATE TABLE t ()" ["a"; "b"] ["a"; "b"] [])
    as (l & r & Hrun & _ & Hok); [discriminate|].
  assert (r = None) as -> by (vm_compute in Hrun; injection Hrun; done).
  exists l, None. split; [exact Hrun|]. split; [reflexivity|].
  apply (Hok eq_refl); by_computation.
Defined.

Lemma failed_participant_splits_commit_witness :
  ∃ l e, handleTwoPhaseCommit connected b_failed "g" ["a"; "b"; "c"] None writing_session [] =
      (l, (close_transaction writing_session,
         [Send (ErrorMessage (in_doubt "g" "b" e)); Send (ReadyForQuery "I"%char); UnlockFleetWrites], false)) ∧
    after_events "g" b_failed_fleet l !! "a" = Some Committed ∧ after_events "g" b_failed_fleet l !! "b" = Some Aborted.
Proof.
  destruct (failed_participant_splits_commit connected b_failed "g" ["a"; "b"; "c"] None writing_session ["a"] "b" [] b_failed_fleet [])
    as (l & e & Hrun & Ha & Hb & _).
  - vm_compute. reflexivity.
  - split.
    + intros b. cbn [app]. unfold b_failed_fleet.
      rewrite !elem_of_cons, elem_of_nil, lookup_insert_is_Some', lookup_singleton_is_Some. intuition.
    + intros b st. unfold b_failed_fleet. rewrite lookup_insert_Some, lookup_singleton_Some. intuition (subst; auto).
  - intros b ->%list_elem_of_singleton. reflexivity.
  - reflexivity.
  - reflexivity.
  - intros l b sql. cbn [app]. unfold b_failed. destruct (after_events "g" b_failed_fleet l !! b) as [st|].
    + destruct (decide (answers "g" sql st)) as [Hans|Hans]; split; try done.
      * by intros _ ? [= <-].
      * intros Hall. destruct Hans. by apply Hall.
    + by split.
  - exists l, e. split; [exact Hrun|]. split; [apply Ha; by_computation | exact Hb].
Defined.

Lemma rollback_failure_abandons_participants_witness :
  ∃ reply s', handleTwoPhaseCommit c_lost accepting "g" ["a"; "b"; "c"] None writing_session [] =
      ([Sent "c" "ROLLBACK" reply],
       (s', [Send (ErrorMessage (sql_error "08006" "connection refused"));
             Send (ReadyForQuery "I"%char); UnlockFleetWrites], false)) ∧ transaction s' = false.
Proof.
  destruct (rollback_failure_abandons_participants c_lost accepting "g" ["a"; "b"; "c"] None writing_session
    "c" [] {| Severity := "ERROR"; Code := "08006"; Message := "connection refused" |} [])
    as (reply & s' & Hrun & _ & Ht & _).
  - vm_compute. reflexivity.
  - reflexivity.
  - exists reply, s'. exact (conj Hrun Ht).
Defined.

End twophase.
