(* ===== verification/QueryHandler.v ===== *)
(** One simple query of a client that holds a session: [handleSessionQuery] of
    [internal/proxy/server.go], which composes statement classification, DDL
    normalisation and admission, generated keys, routing, fleet-wide DDL,
    two-phase commit, the merging of results and the session state.

    The Burrows answer through the parameters of the two-phase commit; the
    etcd sequence, the refresh of the schema registry, random values and the
    fleet lock are fields of an environment. *)
From S2P Require Import Prelude.
From S2P Require Import GoStrings.
From S2P Require Import GoNumbers.
From S2P Require Import GoStd.
From S2P Require Import Schema.
From S2P Require Import ShardKey.
From S2P Require Import PgQuery.
From S2P Require Import Ddl.
From S2P Require Import Router.
From S2P Require Import RoutePlan.
From S2P Require Import Session.
From S2P Require Import FleetDdl.
From S2P Require Import Wire.
From S2P Require Import TwoPhase.

Module queryhandler.
Import schema session fleetddl wire twophase.

(** * State and environment *)

(** The server fields that a query reads and writes. *)
Record server := { topologyReadIndex : Z; schemaRefreshPending : bool }.
Definition with_pending (b : bool) (srv : server) : server :=
  {| topologyReadIndex := topologyReadIndex srv; schemaRefreshPending := b |}.

Record environment := {
  twoPhaseCommit : bool; ShardNames : list string; registry : Registry;
  UnshardedMode : string; PrimaryBurrow : string;
  (** the bytes of [rand.Read], and the transaction identifier made of them *)
  random : option Z; gid : string;
  NextGlobalID : result string Z;
  (** the outcome of [LockFleetWritesContext] *)
  lock_acquired : bool;
  (** the error of [RefreshSchema], if any *)
  refresh : option string;
  (** node constructors of the parser library *)
  MakeStrNode : string → message; MakeResTargetNodeWithName : string → Z → message;
}.

Record outcome := { o_server : server; o_state : extendedState; o_sent : list output; o_ok : bool }.

Definition set_schemaDirty (b : bool) (s : extendedState) : extendedState := {|
  transaction := transaction s; transactionFailed := transactionFailed s; mutated := mutated s;
  target := target s; schemaDirty := b; writeParticipants := writeParticipants s;
  sessionAffinity := sessionAffinity s; sessionDestroy := sessionDestroy s;
  sessionDiscardPrepared := sessionDiscardPrepared s; sessionSettings := sessionSettings s;
  temporary := temporary s; temporarySnapshots := temporarySnapshots s |}.

(** [sendSessionError] and [sendError]. *)
Definition sendSessionError (status : byte) (e : ErrorResponse) : list output :=
  [Send (ErrorMessage e); Send (ReadyForQuery status)].
Definition sendError (e : ErrorResponse) : list output := sendSessionError "I"%char e.

(** [beginSchemaCommit] *)
Definition beginSchemaCommit (required : bool) (srv : server) : server :=
  if required then with_pending true srv else srv.
(** [refreshSchemaAfterDDL] *)
Definition refreshSchemaAfterDDL (env : environment) (srv : server) : server * option string :=
  (with_pending (bool_decide (is_Some (refresh env))) srv, refresh env).
Definition refresh_error (message : string) : ErrorResponse :=
  sql_error "55000" ("refresh schema registry after DDL: " +:+ message).

(** * Planning: what is checked before any Burrow is contacted *)

(** A statement that may run: its text, whether it changes the schema, whether
    it is temporary DDL, the Burrows it runs on and how it was routed. *)
Record planned := {
  q_sql : string; q_schema : bool; q_temporary : bool; q_targets : list string;
  q_target : string; q_routed : bool;
}.

Section plan.
Context `{Floats} `{PgQuery}.

Definition admit_query (env : environment) (s : extendedState) (sql : string)
    : result ErrorResponse (normalizedSQL * bool) :=
  normalized ← map_err (λ e, sql_error "42601" (error_text e)) (normalizeDDL (MakeStrNode env) sql);
  temporaryDDL ← map_err (λ e, sql_error "0A000" (error_text e))
    (validateAtomicFleetDDL (twoPhaseCommit env) s (n_sql normalized) (length (ShardNames env)));
  Ok (normalized, temporaryDDL).

Definition key_error (message : string) : ErrorResponse :=
  sql_error "55000" ("allocate globally unique primary key: " +:+ message).

(** [RewriteGeneratedInsert], with the zero value for its [false]. *)
Definition rewritten_sql (env : environment) (sql value : string) : string :=
  match router.RewriteGeneratedInsert sql (registry env) value (MakeResTargetNodeWithName env) with
  | Some r => router.SQL r
  | None => ""
  end.

(** The statement with its generated key and its [Prepared]. *)
Definition assign_generated_key (env : environment) (sql : string)
    : result ErrorResponse (string * option router.Prepared) :=
  let routing := router.Prepare sql in
  if bool_decide (is_Some routing) && bool_decide (firstSQLKeyword sql = "INSERT")
     && bool_decide (is_Some (GeneratedPrimaryKey (registry env) (router.prepared_table routing)))
     && bool_decide (is_Some (router.RewriteGeneratedInsert sql (registry env) "0" (MakeResTargetNodeWithName env)))
  then
    id ← map_err key_error (NextGlobalID env);
    let sql := rewritten_sql env sql (FormatInt id) in
    routing ← or_fail (router.Prepare sql) (key_error "");
    Ok (sql, Some routing)
  else Ok (sql, routing).

Definition policy_of (env : environment) (srv : server) : routeplan.policy := {|
  routeplan.UnshardedMode := UnshardedMode env; routeplan.PrimaryBurrow := PrimaryBurrow env;
  routeplan.random := random env; routeplan.topologyReadIndex := topologyReadIndex srv |}.

(** From the routing decision to the targets; the second component is the
    advanced balancing counter. [None] when [Analyze] panics. *)
Definition route_query (env : environment) (srv : server) (schema temporaryDDL : bool)
    (sql : string) (routing : option router.Prepared) : option (result ErrorResponse planned * Z) :=
  let all := ShardNames env in
  '(decision, counter) ← routeplan.resolveRouteDecision (policy_of env srv) routing (registry env) all;
  let plan targets routed := {| q_sql := sql; q_schema := schema; q_temporary := temporaryDDL;
    q_targets := targets; q_target := routeplan.target decision; q_routed := routed |} in
  Some (
    (fail_if (bool_decide (routeplan.scatterError decision ≠ ""))
       (sql_error "0A000" (routeplan.scatterError decision));;
     fail_if (routeplan.keyedWrite decision && negb (routeplan.routed decision))
       (sql_error "0A000" "write to a sharded table must include its annotated shard key");;
     let p :=
       if requiresFleetWriteOrder sql (length all) && negb temporaryDDL then plan all false
       else if routeplan.routed decision && negb (isTransactionControl sql)
       then plan [routeplan.target decision] true
       else plan all (routeplan.routed decision) in
     (if temporaryDDL then Ok tt else
        map_err (λ e, sql_error "0A000" (error_text e))
          (serverValidateAtomicFleetDDL (twoPhaseCommit env) sql (length (q_targets p))));;
     Ok p), counter).

Definition plan_query (env : environment) (srv : server) (s : extendedState) (sql : string)
    : option (result ErrorResponse planned * Z) :=
  match admit_query env s sql with
  | Err e => Some (Err e, topologyReadIndex srv)
  | Ok (normalized, temporaryDDL) =>
    match assign_generated_key env (n_sql normalized) with
    | Err e => Some (Err e, topologyReadIndex srv)
    | Ok (sql, routing) => route_query env srv (n_schema normalized) temporaryDDL sql routing
    end
  end.
End plan.

(** * Execution *)

(** Durable fleet-wide DDL, and whether it gets a transaction of its own. *)
Definition fleet_ddl `{PgQuery} (p : planned) : bool :=
  requiresFleetWriteOrder (q_sql p) (length (q_targets p)) && negb (q_temporary p).
Definition atomic_ddl `{PgQuery} (s : extendedState) (p : planned) : bool :=
  negb (transaction s) && fleet_ddl p.

(** The end of a successful query, after the results of the Burrows. *)
Definition finish_query (srv : server) (s : extendedState) (policy : sessionStatePolicy)
    (p : planned) (sent : list output) : outcome := {|
  o_server := srv; o_state := commitSessionState policy s;
  o_sent := sent
    ++ (if invalidatesPreparedStatements (q_sql p) then [InvalidatePreparedStatements (q_targets p)] else [])
    ++ [Send (ReadyForQuery (txStatus s))]
    ++ (if transaction s then [] else [UnlockFleetWrites]);
  o_ok := true |}.

(** The results are relayed and the statement changes the session's state. *)
Definition deliver `{PgQuery} (env : environment) (srv : server) (s : extendedState)
    (policy : sessionStatePolicy) (p : planned) (c : collected) : outcome :=
  let sent := Send <$> relayed c in
  let sql := q_sql p in
  let participants := if q_routed p then [q_target p] else q_targets p in
  let s := if q_temporary p then s
    else recordWriteParticipants sql (requiresFleetWriteOrder sql (length participants)) participants s in
  let s := applySuccessfulSQLState s sql in
  if schemaDirty s && negb (transaction s) then
    if bool_decide (firstSQLKeyword sql ∈ ["ROLLBACK"; "ABORT"])
    then finish_query srv (set_schemaDirty false s) policy p sent
    else
      match refreshSchemaAfterDDL env srv with
      | (srv, Some message) => {| o_server := srv; o_state := s;
          o_sent := sent ++ sendSessionError (txStatus s) (refresh_error message) ++ [UnlockFleetWrites];
          o_ok := false |}
      | (srv, None) => finish_query srv (set_schemaDirty false s) policy p sent
      end
  else finish_query srv s policy p sent.

(** The responses are merged and the schema registry is refreshed. *)
Definition merge_responses `{PgQuery} (env : environment) (srv : server) (s : extendedState)
    (policy : sessionStatePolicy) (p : planned) (responses : list (list BackendMessage)) : outcome :=
  match collect responses with
  | Err e => {| o_server := srv; o_state := s; o_sent := sendError e; o_ok := false |}
  | Ok c =>
    if q_schema p && negb (q_temporary p) && negb (transaction s) then
      match refreshSchemaAfterDDL env srv with
      | (srv, Some message) => {| o_server := srv; o_state := set_schemaDirty true s;
          o_sent := sendSessionError (txStatus s) (refresh_error message)
            ++ (if atomic_ddl s p then [UnlockFleetWrites] else []);
          o_ok := false |}
      | (srv, None) => deliver env srv (set_schemaDirty false s) policy p c
      end
    else deliver env srv (if q_schema p && negb (q_temporary p) then set_schemaDirty true s else s)
           policy p c
  end.

Section handler.
Context `{Floats} `{PgQuery}.
Context (send_error : list event → string → string → option string)
  (reply_to : list event → string → string → result string (list BackendMessage)).

(** [exchangeOne] on one target, [exchange] on several. *)
Definition run_on (sql : string) (targets : list string)
    : M (result string (list (list BackendMessage))) :=
  match targets with
  | [name] =>
    reply ← exchangeOne send_error reply_to name sql;
    mret ((λ messages, [messages]) <$> reply)
  | _ => exchange send_error reply_to sql targets
  end.

Definition fleet_failure (srv : server) (s : extendedState) (e : ErrorResponse) : outcome :=
  {| o_server := srv; o_state := s; o_sent := sendError e ++ [UnlockFleetWrites]; o_ok := false |}.

Definition run_planned (env : environment) (srv : server) (s : extendedState)
    (policy : sessionStatePolicy) (p : planned) : M outcome :=
  let sql := q_sql p in
  let atomicDDL := atomic_ddl s p in
  begun ← (if atomicDDL then beginAtomicFleetDDL send_error reply_to (q_targets p) else mret None);
  match begun with
  | Some e => mret (fleet_failure srv s e)
  | None =>
    let srv := beginSchemaCommit (negb atomicDDL &&
      ((q_schema p && negb (q_temporary p) && negb (transaction s))
       || (schemaDirty s && transaction s && isTransactionCommit sql))) srv in
    responses ← run_on sql (q_targets p);
    match responses with
    | Err message =>
      (if atomicDDL then rollbackAtomicFleetDDL send_error reply_to (q_targets p) else mret tt);;
      mret {| o_server := srv; o_state := s;
        o_sent := (if atomicDDL then [UnlockFleetWrites] else []) ++ sendError (sql_error "08006" message);
        o_ok := false |}
    | Ok responses =>
      match firstError responses with
      | Some e =>
        (if atomicDDL then rollbackAtomicFleetDDL send_error reply_to (q_targets p) else mret tt);;
        let status := if atomicDDL then "I"%char else readyTxStatus responses in
        mret {| o_server := srv; o_state := s;
          o_sent := sendSessionError status e
            ++ (if bool_decide (status = "I"%char) || atomicDDL then [UnlockFleetWrites] else []);
          o_ok := false |}
      | None =>
        failed ← (if atomicDDL
          then commitAtomicFleetDDL send_error reply_to (gid env) (ShardNames env) (q_targets p)
          else mret None);
        let srv := beginSchemaCommit atomicDDL srv in
        match failed with
        | Some e => mret (fleet_failure srv s e)
        | None => mret (merge_responses env srv s policy p responses)
        end
      end
    end
  end.

(** The wait for the fleet lock, then the execution. *)
Definition lock_and_run (env : environment) (srv : server) (s : extendedState)
    (policy : sessionStatePolicy) (p : planned) : M outcome :=
  if fleet_ddl p then
    emit (LockFleetWrites (lock_acquired env));;
    if lock_acquired env then run_planned env srv s policy p
    else mret {| o_server := srv; o_state := s;
      o_sent := sendSessionError (txStatus s)
        (sql_error "57014" "frontend session ended while waiting to execute a write");
      o_ok := false |}
  else run_planned env srv s policy p.

(** COMMIT of a transaction that wrote on several Burrows. *)
Definition two_phase_commit (env : environment) (srv : server) (s : extendedState) : M outcome :=
  '(s', sent, ok) ← handleTwoPhaseCommit send_error reply_to (gid env) (ShardNames env) (refresh env) s;
  mret {| o_server := if schemaDirty s then with_pending (negb ok) srv else srv;
          o_state := s'; o_sent := sent; o_ok := ok |}.

Definition handleSessionQuery (env : environment) (srv : server) (s : extendedState) (sql : string)
    : M (option outcome) :=
  if bool_decide (TrimSpace sql = "") then
    mret (Some {| o_server := srv; o_state := s;
      o_sent := [Send EmptyQueryResponse; Send (ReadyForQuery "I"%char)]; o_ok := true |})
  else
    let policy := policy_in_state s (classifySessionState sql) in
    let s := beginSessionState policy s in
    if commits_in_two_phases (twoPhaseCommit env) sql s then
      o ← two_phase_commit env srv s; mret (Some o)
    else
      match plan_query env srv s sql with
      | None => mret None
      | Some (planned, counter) =>
        let srv := {| topologyReadIndex := counter; schemaRefreshPending := schemaRefreshPending srv |} in
        match planned with
        | Err e => mret (Some {| o_server := srv; o_state := s;
            o_sent := sendSessionError (txStatus s) e; o_ok := false |})
        | Ok p => o ← lock_and_run env srv s policy p; mret (Some o)
        end
      end.
End handler.

(** * Reasoning about runs *)

(** [m] returns a value in [Q], whatever was sent before. *)
Definition returns {A} (Q : A → Prop) (m : M A) : Prop := ∀ h, Q (m h).2.
Lemma returns_ret {A} (Q : A → Prop) a : Q a → returns Q (mret a).
Proof. by intros Ha h. Qed.
Lemma returns_bind {A B} (Q : B → Prop) (m : M A) (k : A → M B) :
  (∀ a, returns Q (k a)) → returns Q (m ≫= k).
Proof. intros Hk h. unfold mbind, M_bind. destruct (m h). apply Hk. Qed.
Lemma returns_if {A} (Q : A → Prop) (b : bool) (m1 m2 : M A) :
  returns Q m1 → returns Q m2 → returns Q (if b then m1 else m2).
Proof. by destruct b. Qed.

(** [m] only adds events to the history. *)
Definition appends {A} (m : M A) : Prop := ∀ h, ∃ l, (m h).1 = h ++ l.
Lemma appends_ret {A} (a : A) : appends (mret a).
Proof. intros h. exists []. by rewrite app_nil_r. Qed.
Lemma appends_emit e : appends (emit e).
Proof. intros h. by exists [e]. Qed.
Lemma appends_bind {A B} (m : M A) (k : A → M B) : appends m → (∀ a, appends (k a)) → appends (m ≫= k).
Proof.
  intros Hm Hk h. unfold mbind, M_bind. destruct (Hm h) as [l E]. destruct (m h) as [h' a]. cbn in E. subst h'.
  destruct (Hk a (h ++ l)) as [l' ->]. exists (l ++ l'). by rewrite app_assoc.
Qed.
Lemma appends_if {A} (b : bool) (m1 m2 : M A) : appends m1 → appends m2 → appends (if b then m1 else m2).
Proof. by destruct b. Qed.
Create HintDb runs.
#[export] Hint Resolve appends_ret appends_emit appends_bind appends_if returns_bind returns_if : runs.

(** What the client receives. *)
Definition client_messages (sent : list output) : list BackendMessage :=
  omap (λ o, match o with Send m => Some m | _ => None end) sent.

Lemma client_messages_app l1 l2 : client_messages (l1 ++ l2) = client_messages l1 ++ client_messages l2.
Proof. apply omap_app. Qed.
Lemma client_messages_send ms : client_messages (Send <$> ms) = ms.
Proof. induction ms as [|m ms IH]; [done|]. cbn. by f_equal. Qed.

(** The replies to one query: one ReadyForQuery, at the end, with the status;
    an error exactly when the query failed. *)
Definition query_cycle (ok : bool) (status : byte) (ms : list BackendMessage) : Prop :=
  ∃ body, ms = body ++ [ReadyForQuery status] ∧ Forall (λ m, isQueryDone m = false) body ∧
    (ok = false ↔ ∃ e, ErrorMessage e ∈ body).

Definition plain_message (m : BackendMessage) : Prop :=
  isQueryDone m = false ∧ ∀ e, m ≠ ErrorMessage e.

Lemma relayed_plain c : Forall plain_message (relayed c).
Proof.
  unfold relayed. rewrite !Forall_app, !Forall_fmap. unfold compose.
  split_and!; try (apply Forall_true; intros; by split).
  - destruct (description c); repeat constructor; by intros.
  - destruct (tags c); repeat constructor; by intros.
Qed.
Lemma query_cycle_ok body status : Forall plain_message body → query_cycle true status (body ++ [ReadyForQuery status]).
Proof.
  intros Hb. exists body. split_and!; [done| |].
  - eapply Forall_impl; [exact Hb|]. by intros m [].
  - split; [done|]. intros [e He]. rewrite Forall_forall in Hb. destruct (Hb _ He) as [_ Hne]. by destruct (Hne e).
Qed.
Lemma query_cycle_error body status e : Forall plain_message body →
  query_cycle false status (body ++ [ErrorMessage e; ReadyForQuery status]).
Proof.
  intros Hb. exists (body ++ [ErrorMessage e]). rewrite <- app_assoc. split_and!; [done| |].
  - apply Forall_app. split; [|by repeat constructor]. eapply Forall_impl; [exact Hb|]. by intros m [].
  - split; [|done]. intros _. exists e. apply elem_of_app. right. by left.
Qed.

(** The reply to the client agrees with the session: a query that succeeds
    announces the transaction status of the new state. *)
Definition answered (o : outcome) : Prop :=
  ∃ status, query_cycle (o_ok o) status (client_messages (o_sent o)) ∧
    (o_ok o = true → status = txStatus (o_state o)).

Lemma answered_error srv s e status pre post :
  client_messages pre = [] → client_messages post = [] →
  answered {| o_server := srv; o_state := s; o_sent := pre ++ sendSessionError status e ++ post; o_ok := false |}.
Proof.
  intros Hpre Hpost. exists status. split; [|done]. cbn [o_ok o_state o_sent].
  rewrite !client_messages_app, Hpre, Hpost, app_nil_r. apply (query_cycle_error []). constructor.
Qed.

Lemma commitSessionState_txStatus policy s : txStatus (commitSessionState policy s) = txStatus s.
Proof. unfold commitSessionState. destruct (resetAll policy); [done|]. by case_decide. Qed.

Lemma finish_query_answered srv s policy p ms :
  Forall plain_message ms → answered (finish_query srv s policy p (Send <$> ms)).
Proof.
  intros Hms. exists (txStatus s). cbn [o_ok o_state o_sent finish_query]. rewrite commitSessionState_txStatus. split; [|done].
  rewrite !client_messages_app, client_messages_send.
  assert (∀ b l, client_messages (if b : bool then [InvalidatePreparedStatements l] else []) = []) as -> by (by intros []).
  assert (∀ b, client_messages (if b : bool then [] else [UnlockFleetWrites]) = []) as -> by (by intros []).
  by apply query_cycle_ok.
Qed.

Lemma deliver_answered `{PgQuery} env srv s policy p c : answered (deliver env srv s policy p c).
Proof.
  unfold deliver. cbv zeta. destruct (_ && _); [|apply finish_query_answered, relayed_plain].
  destruct (bool_decide _); [apply finish_query_answered, relayed_plain|].
  unfold refreshSchemaAfterDDL. destruct (refresh env) as [m|]; [|apply finish_query_answered, relayed_plain].
  eexists. split; [|done]. cbn [o_ok o_state o_sent]. rewrite !client_messages_app, client_messages_send.
  apply query_cycle_error, relayed_plain.
Qed.

Lemma merge_responses_answered `{PgQuery} env srv s policy p responses :
  answered (merge_responses env srv s policy p responses).
Proof.
  unfold merge_responses. destruct (collect responses) as [c|e].
  2:{ apply (answered_error _ _ _ _ [] []); done. }
  destruct (_ && _); [|apply deliver_answered]. unfold refreshSchemaAfterDDL.
  destruct (refresh env) as [m|]; [|apply deliver_answered].
  apply (answered_error _ _ _ _ []); [done|]. by destruct (atomic_ddl _ _).
Qed.

Section runs.
Context `{Floats} `{PgQuery}.
Context (send_error : list event → string → string → option string)
  (reply_to : list event → string → string → result string (list BackendMessage)).

Lemma two_phase_commit_answered env srv s :
  returns answered (two_phase_commit send_error reply_to env srv s).
Proof.
  unfold two_phase_commit, handleTwoPhaseCommit. intros h. unfold mbind, M_bind.
  destruct (commitTwoPhase _ _ _ _ _ _) as [h' [e|]]; cbn [mret M_ret].
  { apply (answered_error _ _ _ _ []); done. }
  cbv zeta. destruct (schemaDirty s) eqn:Hd; [destruct (refresh env) as [m|]|].
  - apply (answered_error _ _ _ _ [] [UnlockFleetWrites]); done.
  - exists "I"%char. split; [|done]. apply (query_cycle_ok [CommandComplete "COMMIT"]). repeat constructor; by intros.
  - exists "I"%char. split; [|done]. apply (query_cycle_ok [CommandComplete "COMMIT"]). repeat constructor; by intros.
Qed.

Lemma run_planned_answered env srv s policy p :
  returns answered (run_planned send_error reply_to env srv s policy p).
Proof.
  unfold run_planned. apply returns_bind. intros [e|].
  { apply returns_ret, (answered_error _ _ _ _ []); done. }
  cbv zeta. apply returns_bind. intros [responses|m].
  2:{ apply returns_bind. intros _. apply returns_ret. rewrite <- (app_nil_r (sendError _)).
      apply answered_error; [by destruct (atomic_ddl _ _) | done]. }
  destruct (firstError responses).
  - apply returns_bind. intros _. apply returns_ret, (answered_error _ _ _ _ []); [done|]. by destruct (_ || _).
  - apply returns_bind. intros [e|]; [apply returns_ret, (answered_error _ _ _ _ []); done|].
    apply returns_ret, merge_responses_answered.
Qed.

Lemma lock_and_run_answered env srv s policy p :
  returns answered (lock_and_run send_error reply_to env srv s policy p).
Proof.
  unfold lock_and_run. apply returns_if; [|apply run_planned_answered]. apply returns_bind. intros _.
  apply returns_if; [apply run_planned_answered|]. apply returns_ret, (answered_error _ _ _ _ [] []); done.
Qed.

(** C17: a simple query of a session is answered once. Whatever the Burrows
    answer, the client gets exactly one ReadyForQuery, after everything else,
    with an error message before it exactly when the query failed. A query that
    succeeds announces the transaction status of the new session state, except
    a blank one, which is answered by EmptyQueryResponse and the idle status
    whatever the session's state is, contacts no Burrow and changes nothing. The
    handler gives no answer only when the analysis of the statement panics. *)
Theorem query_answered_once env srv s sql h :
  match (handleSessionQuery send_error reply_to env srv s sql h).2 with
  | Some o =>
    ∃ status, query_cycle (o_ok o) status (client_messages (o_sent o)) ∧
      if decide (TrimSpace sql = "") then
        o_ok o = true ∧ status = "I"%char ∧ EmptyQueryResponse ∈ client_messages (o_sent o) ∧
        o_state o = s ∧ (handleSessionQuery send_error reply_to env srv s sql h).1 = h
      else o_ok o = true → status = txStatus (o_state o)
  | None =>
    TrimSpace sql ≠ "" ∧
    plan_query env srv (beginSessionState (policy_in_state s (classifySessionState sql)) s) sql = None
  end.
Proof.
  unfold handleSessionQuery. destruct (decide (TrimSpace sql = "")) as [Hsql|Hsql].
  { rewrite bool_decide_eq_true_2 by done. cbn. exists "I"%char. split; [|by repeat split; left].
    apply (query_cycle_ok [EmptyQueryResponse]). repeat constructor; by intros. }
  rewrite bool_decide_eq_false_2 by done. cbv zeta.
  set (s1 := beginSessionState _ s).
  assert (∀ m : M outcome, returns answered m → ∃ o, ((o ← m; mret (Some o)) h).2 = Some o ∧ answered o) as Hans.
  { intros m Hm. specialize (Hm h). unfold mbind, M_bind. destruct (m h) as [h1 o]. by exists o. }
  destruct (commits_in_two_phases _ _ _).
  { by destruct (Hans _ (two_phase_commit_answered env srv s1)) as (o & -> & Ho). }
  destruct (plan_query env srv s1 sql) as [[[p|e] counter]|] eqn:Ep; [| |done].
  - by destruct (Hans _ (lock_and_run_answered env {| topologyReadIndex := counter; schemaRefreshPending := schemaRefreshPending srv |}
      s1 (policy_in_state s (classifySessionState sql)) p)) as (o & -> & Ho).
  - apply (answered_error _ _ _ _ [] []); done.
Qed.
End runs.

(** * The fleet lock *)

Lemma deliver_unlocks `{PgQuery} env srv s policy p c :
  transaction (o_state (deliver env srv s policy p c)) = false →
  UnlockFleetWrites ∈ o_sent (deliver env srv s policy p c).
Proof.
  assert (∀ srv s sent, transaction (o_state (finish_query srv s policy p sent)) = false →
    UnlockFleetWrites ∈ o_sent (finish_query srv s policy p sent)) as Hf.
  { intros srv' s' sent Ht. cbn in Ht |- *.
    assert (transaction s' = false) as ->.
    { revert Ht. unfold commitSessionState. destruct (resetAll policy); [done|]. by case_decide. }
    rewrite !elem_of_app. right. right. right. by left. }
  unfold deliver. cbv zeta. destruct (_ && _); [|apply Hf]. destruct (bool_decide _); [apply Hf|].
  unfold refreshSchemaAfterDDL. destruct (refresh env); [|apply Hf].
  intros _. cbn [o_sent]. rewrite !elem_of_app. right. right. by left.
Qed.

(** The lock is released at the end of the query, or the transaction is still
    open, or the responses could not be merged. *)
Definition released (o : outcome) : Prop :=
  transaction (o_state o) = true ∨ UnlockFleetWrites ∈ o_sent o ∨
  ∃ responses e, collect responses = Err e ∧ o_sent o = sendError e ∧ o_ok o = false.

Section locks.
Context `{Floats} `{PgQuery}.
Context (send_error : list event → string → string → option string)
  (reply_to : list event → string → string → result string (list BackendMessage)).

Lemma merge_responses_released env srv s policy p responses :
  fleet_ddl p = true → released (merge_responses env srv s policy p responses).
Proof.
  intros Hf. unfold merge_responses. destruct (collect responses) as [c|e] eqn:E.
  2:{ right. right. by exists responses, e. }
  assert (∀ srv s, released (deliver env srv s policy p c)) as Hd.
  { intros srv' s'. unfold released. destruct (transaction (o_state _)) eqn:Ht; [by left|].
    right. left. by apply deliver_unlocks. }
  destruct (_ && _) eqn:Hq; [|apply Hd]. unfold refreshSchemaAfterDDL. destruct (refresh env); [|apply Hd].
  apply andb_true_iff in Hq as [_ Hq]. right. left. cbn [o_sent]. unfold atomic_ddl. rewrite Hq, Hf.
  apply elem_of_app. right. by left.
Qed.

Lemma run_planned_released env srv s policy p :
  fleet_ddl p = true → returns released (run_planned send_error reply_to env srv s policy p).
Proof.
  intros Hf. unfold run_planned. assert (atomic_ddl s p = negb (transaction s)) as ->
    by (unfold atomic_ddl; rewrite Hf; apply andb_true_r).
  assert (∀ srv e, released (fleet_failure srv s e)) as Hfail.
  { intros. right. left. cbn. rewrite !elem_of_cons. auto. }
  apply returns_bind. intros [e|]; [by apply returns_ret|]. cbv zeta.
  apply returns_bind. intros [responses|m].
  2:{ apply returns_bind. intros _. apply returns_ret. destruct (transaction s) eqn:Ht; [by left|].
      right. left. by left. }
  destruct (firstError responses).
  - apply returns_bind. intros _. apply returns_ret. destruct (transaction s) eqn:Ht; [by left|].
    right. left. cbn [o_sent negb]. rewrite orb_true_r. apply elem_of_app. right. by left.
  - apply returns_bind. intros [e|]; apply returns_ret; [done | by apply merge_responses_released].
Qed.

Lemma appends_command name sql : appends (runTransactionCommand send_error reply_to name sql).
Proof. intros h. destruct (run_command send_error reply_to h name sql) as (reply & ->). by eexists. Qed.
Lemma appends_exchange sql targets : appends (exchange send_error reply_to sql targets).
Proof.
  induction targets as [|name targets IH]; [apply appends_ret|]. intros h. cbn [exchange].
  destruct (send_error h name sql); [by eexists|]. apply appends_bind; [intros h0; by eexists|].
  intros reply. apply appends_bind; [done|]. intros. apply appends_ret.
Qed.
Lemma appends_run_all sql burrows : appends (run_all send_error reply_to sql burrows).
Proof. intros h. destruct (run_all_trace send_error reply_to sql burrows h) as (l & b & -> & _). by exists l. Qed.
Lemma appends_commit gid names burrows : appends (commitTwoPhase send_error reply_to gid names burrows).
Proof. intros h. destruct (commitTwoPhase_trace send_error reply_to gid names burrows h) as (l & r & -> & _). by exists l. Qed.
Lemma appends_begin burrows : appends (beginAtomicFleetDDL send_error reply_to burrows).
Proof. intros h. destruct (begin_each_trace send_error reply_to [] burrows h) as (l & r & E & _). exists l. unfold beginAtomicFleetDDL. by rewrite E. Qed.
#[local] Hint Resolve appends_command appends_exchange appends_run_all appends_commit appends_begin : runs.
Lemma appends_rollback burrows : appends (rollbackAtomicFleetDDL send_error reply_to burrows).
Proof. unfold rollbackAtomicFleetDDL, RecordOperation. auto with runs. Qed.
Lemma appends_commit_ddl gid names burrows : appends (commitAtomicFleetDDL send_error reply_to gid names burrows).
Proof. unfold commitAtomicFleetDDL, RecordOperation. auto 6 with runs. Qed.
#[local] Hint Resolve appends_rollback appends_commit_ddl : runs.
Lemma appends_run_on sql targets : appends (run_on send_error reply_to sql targets).
Proof.
  unfold run_on. destruct targets as [|name []]; auto with runs.
  apply appends_bind; [intros h; by eexists | auto with runs].
Qed.
#[local] Hint Resolve appends_run_on : runs.
Lemma appends_run_planned env srv s policy p :
  appends (run_planned send_error reply_to env srv s policy p).
Proof.
  unfold run_planned. apply appends_bind; [auto with runs|]. intros [e|]; [auto with runs|]. cbv zeta.
  apply appends_bind; [auto with runs|]. intros [responses|m]; [|auto 7 with runs].
  destruct (firstError responses); [auto 7 with runs|]. apply appends_bind; [auto with runs|].
  intros [e|]; auto with runs.
Qed.

(** C20: durable fleet-wide DDL waits for the lock before it contacts any
    Burrow, sends nothing when it does not get the lock, and releases it
    when the query ends outside a transaction, unless the responses could
    not be merged. *)
Theorem fleet_lock_discipline env srv s policy p h h' o :
  fleet_ddl p = true →
  lock_and_run send_error reply_to env srv s policy p h = (h', o) →
  ∃ l, h' = h ++ LockFleetWrites (lock_acquired env) :: l ∧
    if lock_acquired env then released o else l = [] ∧ o_ok o = false.
Proof.
  intros Hf. unfold lock_and_run. rewrite Hf. unfold mbind, M_bind, emit.
  destruct (lock_acquired env).
  - intros Hrun. destruct (appends_run_planned env srv s policy p (h ++ [LockFleetWrites true])) as [l E].
    rewrite Hrun in E. cbn in E. exists l. rewrite E, <- app_assoc. split; [done|].
    pose proof (run_planned_released env srv s policy p Hf (h ++ [LockFleetWrites true])) as Hr. by rewrite Hrun in Hr.
  - intros [= <- <-]. by exists [].
Qed.

(** outside a transaction durable fleet-wide DDL runs as the
    all-or-nothing protocol of [atomic_fleet_ddl]: the same commands in the same
    order; its error is what the client is told, and only when the fleet has
    committed are the results relayed, with the registry marked stale. *)
Theorem handler_runs_atomic_fleet_ddl env srv s policy p h :
  fleet_ddl p = true → transaction s = false →
  let '(h1, failed) := atomic_fleet_ddl send_error reply_to (gid env) (q_sql p) (ShardNames env) (q_targets p) h in
  let '(h2, o) := run_planned send_error reply_to env srv s policy p h in
  h1 = h2 ∧
  match failed with
  | Some e => o_ok o = false ∧ client_messages (o_sent o) = [ErrorMessage e; ReadyForQuery "I"%char]
  | None => ∃ responses, firstError responses = None ∧
      o = merge_responses env (with_pending true srv) s policy p responses
  end.
Proof.
  intros Hf Ht. assert (run_on send_error reply_to (q_sql p) (q_targets p)
    = exchange send_error reply_to (q_sql p) (q_targets p)) as Hon.
  { unfold fleet_ddl, requiresFleetWriteOrder in Hf. destruct (q_targets p) as [|a [|b l]]; done. }
  assert (atomic_ddl s p = true) as Ha by (unfold atomic_ddl; by rewrite Ht, Hf).
  unfold run_planned, atomic_fleet_ddl. cbv zeta. rewrite Hon, Ha. unfold mbind, M_bind, mret, M_ret.
  destruct (beginAtomicFleetDDL _ _ _ h) as [h1 [e|]]; [by split_and!|].
  destruct (exchange _ _ _ _ h1) as [h2 [responses|m]].
  - destruct (firstError responses) as [e|] eqn:E.
    + destruct (rollbackAtomicFleetDDL _ _ _ h2) as [h3 []]. by split_and!.
    + destruct (commitAtomicFleetDDL _ _ _ _ _ h2) as [h3 [e|]]; [by split_and!|].
      split; [done|]. exists responses. by split.
  - destruct (rollbackAtomicFleetDDL _ _ _ h2) as [h3 []]. by split_and!.
Qed.
End locks.

(** * What a session keeps between queries *)

(** Outside a transaction no write participant is left over; a schema change
    of the session that is not in the registry yet either belongs to an open
    transaction or has marked the registry stale for the next statement. *)
Definition coherent (srv : server) (s : extendedState) : Prop :=
  (transaction s = false → writeParticipants s = ∅) ∧
  (schemaDirty s = true → transaction s = true ∨ schemaRefreshPending srv = true).

Lemma apply_statement_participants s raw :
  (transaction s = false → writeParticipants s = ∅) →
  transaction (apply_statement s raw) = false → writeParticipants (apply_statement s raw) = ∅.
Proof.
  intros Hs. unfold apply_statement. destruct (get_msg (Some raw) "Stmt") as [statement|]; [|done].
  destruct (as_node "TransactionStmt" (Some statement)) as [tx|]; [|done].
  unfold updateTransactionStatement. cbv zeta.
  case_decide; [done|]. case_decide; [|case_decide; [|case_decide; [|case_decide; [done|]; by case_decide]]].
  - unfold rememberTemporarySavepoint, beginTemporaryTransaction. by destruct (temporarySnapshots s).
  - unfold restoreTemporarySavepoint. by destruct (last_savepoint _ _).
  - unfold releaseTemporarySavepoint. by destruct (last_savepoint _ _).
Qed.
Lemma apply_statement_dirty s raw : schemaDirty (apply_statement s raw) = schemaDirty s.
Proof.
  unfold apply_statement. destruct (get_msg (Some raw) "Stmt") as [statement|]; [|done].
  destruct (as_node "TransactionStmt" (Some statement)) as [tx|]; [|done].
  unfold updateTransactionStatement. cbv zeta.
  assert (schemaDirty (beginTemporaryTransaction s) = schemaDirty s) as Hb
    by (unfold beginTemporaryTransaction; by destruct (temporarySnapshots s)).
  assert (∀ commit chain, schemaDirty (finishTemporaryTransaction commit chain s) = schemaDirty s) as Hf.
  { intros commit chain. unfold finishTemporaryTransaction, beginTemporaryTransaction.
    destruct commit, chain, (temporarySnapshots s); done. }
  case_decide; [done|]. case_decide; [done|]. case_decide.
  { unfold restoreTemporarySavepoint. destruct (last_savepoint _ _); [|done]. by destruct (temporarySnapshots s !! _). }
  case_decide; [unfold releaseTemporarySavepoint; by destruct (last_savepoint _ _)|].
  case_decide; [apply Hf|]. by case_decide.
Qed.

Lemma applySuccessfulSQLState_keeps `{PgQuery} s sql :
  let s' := applySuccessfulSQLState s sql in
  ((transaction s = false → writeParticipants s = ∅) → transaction s' = false → writeParticipants s' = ∅) ∧
  schemaDirty s' = schemaDirty s.
Proof.
  unfold applySuccessfulSQLState. destruct (PgQuery.Parse sql) as [tree|]; [|done]. cbv zeta.
  generalize (get_list (Some tree) "Stmts"). intros l. revert s. induction l as [|raw l IH]; intros s; [done|].
  cbn [fold_left]. destruct (IH (apply_statement s raw)) as [IH1 IH2]. split.
  - intros Hs. apply IH1. by apply apply_statement_participants.
  - by rewrite IH2, apply_statement_dirty.
Qed.

Lemma recordWriteParticipants_keeps sql fleet targets s :
  let s' := recordWriteParticipants sql fleet targets s in
  transaction s' = transaction s ∧ schemaDirty s' = schemaDirty s ∧
  (transaction s = false → writeParticipants s' = writeParticipants s).
Proof. unfold recordWriteParticipants. destruct (transaction s) eqn:Ht; cbn; [|done]. by destruct (_ && _). Qed.

Lemma finish_query_coherent srv s policy p sent :
  coherent srv s → let o := finish_query srv s policy p sent in coherent (o_server o) (o_state o).
Proof. cbn. unfold commitSessionState. intros Hc. destruct (resetAll policy); [done|]. by case_decide. Qed.

Lemma deliver_coherent `{PgQuery} env srv s policy p c :
  coherent srv s → let o := deliver env srv s policy p c in coherent (o_server o) (o_state o).
Proof.
  intros [Hp Hd]. unfold deliver. cbv zeta.
  set (s1 := if q_temporary p then s else _).
  assert (transaction s1 = transaction s ∧ schemaDirty s1 = schemaDirty s ∧
          (transaction s = false → writeParticipants s1 = writeParticipants s)) as (H1 & H2 & H3).
  { subst s1. destruct (q_temporary p); [done | apply recordWriteParticipants_keeps]. }
  destruct (applySuccessfulSQLState_keeps s1 (q_sql p)) as [H4 H5].
  set (s2 := applySuccessfulSQLState s1 (q_sql p)) in *.
  assert (transaction s2 = false → writeParticipants s2 = ∅) as Hp2.
  { apply H4. rewrite H1. intros Ht. rewrite H3 by done. auto. }
  destruct (schemaDirty s2 && negb (transaction s2)) eqn:Hs.
  - destruct (bool_decide _); [by apply finish_query_coherent|].
    unfold refreshSchemaAfterDDL. destruct (refresh env); [|by apply finish_query_coherent].
    cbn. split; [done|]. by right.
  - apply finish_query_coherent. split; [done|]. intros Hd2. rewrite Hd2 in Hs. cbn in Hs.
    left. by apply negb_false_iff in Hs.
Qed.

Lemma merge_responses_coherent `{PgQuery} env srv s policy p responses :
  coherent srv s → let o := merge_responses env srv s policy p responses in coherent (o_server o) (o_state o).
Proof.
  intros Hc. pose proof Hc as [Hp Hd]. unfold merge_responses. destruct (collect responses); [|done].
  destruct (q_schema p && negb (q_temporary p)); cbn [andb]; [|by apply deliver_coherent].
  destruct (transaction s) eqn:Ht; cbn [negb].
  - apply deliver_coherent. split; [cbn; congruence|]. by left.
  - unfold refreshSchemaAfterDDL. destruct (refresh env); [|apply deliver_coherent].
    + split; [exact (λ _, Hp eq_refl)|]. by right.
    + by split; [exact (λ _, Hp eq_refl)|].
Qed.

Lemma coherent_pending b srv s : coherent srv s → coherent (beginSchemaCommit b srv) s.
Proof. intros [Hp Hd]. destruct b; [|done]. split; [done|]. by right. Qed.

Definition coherent_outcome (o : outcome) : Prop := coherent (o_server o) (o_state o).

Section invariant.
Context `{Floats} `{PgQuery}.
Context (send_error : list event → string → string → option string)
  (reply_to : list event → string → string → result string (list BackendMessage)).

Lemma two_phase_commit_coherent env srv s :
  coherent srv s → returns coherent_outcome (two_phase_commit send_error reply_to env srv s).
Proof.
  intros Hc h. unfold two_phase_commit, handleTwoPhaseCommit, mbind, M_bind.
  destruct (commitTwoPhase _ _ _ _ _ _) as [h' [e|]]; cbn [mret M_ret].
  { split; cbn; [done|]. intros ->. by right. }
  cbv zeta. destruct (schemaDirty s) eqn:Hd; [destruct (refresh env) as [m|]|]; split; try done.
  - by right.
  - cbn. rewrite Hd. done.
Qed.

Lemma run_planned_coherent env srv s policy p :
  coherent srv s → returns coherent_outcome (run_planned send_error reply_to env srv s policy p).
Proof.
  intros Hc. unfold run_planned. apply returns_bind. intros [e|]; [by apply returns_ret|]. cbv zeta.
  pose proof (λ b, coherent_pending b srv s Hc) as Hb.
  apply returns_bind. intros [responses|m]; [|apply returns_bind; intros []; apply returns_ret, Hb].
  destruct (firstError responses); [apply returns_bind; intros []; apply returns_ret, Hb|].
  apply returns_bind. intros [e|]; apply returns_ret; [apply coherent_pending, Hb|].
  apply merge_responses_coherent, coherent_pending, Hb.
Qed.

Lemma beginSessionState_coherent srv policy s : coherent srv s → coherent srv (beginSessionState policy s).
Proof. done. Qed.

Lemma handleSessionQuery_coherent env srv s sql h h' o :
  coherent srv s → handleSessionQuery send_error reply_to env srv s sql h = (h', Some o) →
  coherent (o_server o) (o_state o).
Proof.
  intros Hc Hrun. enough (returns (from_option coherent_outcome True)
    (handleSessionQuery send_error reply_to env srv s sql)) as Hr by (specialize (Hr h); by rewrite Hrun in Hr).
  clear Hrun. unfold handleSessionQuery. apply returns_if; [by apply returns_ret|]. cbv zeta.
  assert (∀ m : M outcome, returns coherent_outcome m →
    returns (from_option coherent_outcome True) (o ← m; mret (Some o))) as Hsome.
  { intros m Hm h0. unfold mbind, M_bind. specialize (Hm h0). by destruct (m h0). }
  apply returns_if; [by apply Hsome, two_phase_commit_coherent|].
  destruct (plan_query _ _ _ _) as [[[p|e] counter]|]; [|by apply returns_ret|by apply returns_ret].
  apply Hsome. unfold lock_and_run. apply returns_if; [|by apply run_planned_coherent].
  apply returns_bind. intros _. apply returns_if; [by apply run_planned_coherent | by apply returns_ret].
Qed.
End invariant.

(** The states a session goes through: any queries, answered in any way. *)
Inductive session_reaches `{Floats} `{PgQuery} : server → extendedState → Prop :=
| session_starts srv : session_reaches srv new_session
| session_query send_error reply_to env srv s sql h h' o :
    session_reaches srv s →
    handleSessionQuery send_error reply_to env srv s sql h = (h', Some o) →
    session_reaches (o_server o) (o_state o).

(** C18: after any sequence of queries, whatever the Burrows
    answered, a session outside a transaction has no write participant left
    over from an earlier one, and a schema change that the registry does not
    show yet is in an open transaction or has marked the registry stale. *)
Theorem session_coherent `{Floats} `{PgQuery} srv s :
  session_reaches srv s →
  (transaction s = false → writeParticipants s = ∅) ∧
  (schemaDirty s = true → transaction s = true ∨ schemaRefreshPending srv = true).
Proof.
  induction 1 as [srv|send_error reply_to env srv s sql h h' o _ IH Hrun]; [done|].
  by apply (handleSessionQuery_coherent send_error reply_to env srv s sql h h' o).
Qed.

(** * Where a sharded write goes *)

Definition write_keywords : list string := ["INSERT"; "UPDATE"; "DELETE"; "MERGE"; "WITH"].

Lemma write_keyword_plain sql :
  firstSQLKeyword sql ∈ write_keywords →
  Forall (λ k, firstSQLKeyword sql ≠ k)
    ["COMMENT"; "DROP"; "CREATE"; "ALTER"; "COMMIT"; "END"; "BEGIN"; "START"; "ROLLBACK"; "ABORT"].
Proof.
  intros Hk. unfold write_keywords in Hk. rewrite !elem_of_cons, elem_of_nil in Hk.
  destruct Hk as [-> | [-> | [-> | [-> | [-> | []]]]]]; by_computation.
Qed.

Section isolation.
Context `{Floats} `{PgQuery}.
Context (send_error : list event → string → string → option string)
  (reply_to : list event → string → string → result string (list BackendMessage)).

Lemma dml_no_fleet_order sql tree n :
  PgQuery.Parse sql = Some tree → routeplan.dml_statement tree → requiresFleetWriteOrder sql n = false.
Proof.
  intros Htree (st & m & Hst & Hm & Hw). unfold requiresFleetWriteOrder. destruct (n <? 2)%nat; [done|].
  unfold parsed_statements. rewrite Htree. unfold statements_of.
  unfold router.single_statement in Hst. destruct (get_list (Some tree) "Stmts") as [|raw [|]]; [done | | done].
  cbn [omap list_omap]. rewrite Hst. cbn. unfold ordered_ddl.
  assert (isFleetDDLStatement (Some st) = false) as ->; [|done].
  unfold isFleetDDLStatement. cbn [isFleetDDL_go isFleetDDL_step]. rewrite Hm.
  unfold router.write_nodes in Hw. rewrite !elem_of_cons, elem_of_nil in Hw.
  destruct Hw as [-> | [-> | [-> | [-> | []]]]]; reflexivity.
Qed.

(** What the parser library does with the texts of this file. An INSERT without
    WITH is printed as a text that starts with the keyword and is read back as
    an INSERT into the same table; and whether an INSERT can be rewritten does
    not depend on which integer is put in. *)
Record printer_laws (mk : string → Z → message) : Prop := {
  insert_reparses tree text st insert :
    router.single_statement tree = Some st → as_node "InsertStmt" (Some st) = Some insert →
    get_msg (Some insert) "WithClause" = None → Deparse tree = Some text →
    firstSQLKeyword text = "INSERT" ∧
    ∃ tree' st' insert', PgQuery.Parse text = Some tree' ∧ router.single_statement tree' = Some st' ∧
      as_node "InsertStmt" (Some st') = Some insert' ∧
      router.relationName (get_msg (Some insert') "Relation") = router.relationName (get_msg (Some insert) "Relation");
  literal_rewrites sql registry a b :
    is_Some (router.RewriteGeneratedInsert sql registry (FormatInt a) mk) →
    is_Some (router.RewriteGeneratedInsert sql registry (FormatInt b) mk);
}.

(** The text that is sent for [sql]: an INSERT that leaves out a generated key is
    rewritten with a new identifier, everything else is sent as it is. *)
Inductive sent_text (env : environment) (sql : string) : string → Prop :=
| sent_unchanged :
    (firstSQLKeyword sql = "INSERT" →
     GeneratedPrimaryKey (registry env) (router.prepared_table (router.Prepare sql)) = None ∨
     router.RewriteGeneratedInsert sql (registry env) "0" (MakeResTargetNodeWithName env) = None) →
    sent_text env sql sql
| sent_with_key id g :
    firstSQLKeyword sql = "INSERT" → NextGlobalID env = Ok id →
    router.RewriteGeneratedInsert sql (registry env) (FormatInt id) (MakeResTargetNodeWithName env) = Some g →
    sent_text env sql (router.SQL g).

Lemma insert_dml tree st insert :
  router.single_statement tree = Some st → as_node "InsertStmt" (Some st) = Some insert →
  routeplan.dml_statement tree.
Proof.
  intros Hst Hins. exists st, insert. split; [done|]. pose proof (as_node_name _ _ _ Hins) as Hn.
  unfold as_node in Hins. destruct (GetNode (Some st)) as [m|] eqn:Hm; [|done]. cbn in Hins.
  destruct (decide _); [|done]. injection Hins as ->. split; [done|]. rewrite Hn. unfold router.write_nodes. by left.
Qed.
Lemma rewritten_reads env sql tree value g :
  printer_laws (MakeResTargetNodeWithName env) → PgQuery.Parse sql = Some tree →
  router.RewriteGeneratedInsert sql (registry env) value (MakeResTargetNodeWithName env) = Some g →
  firstSQLKeyword (router.SQL g) = "INSERT" ∧
  ∃ tree', PgQuery.Parse (router.SQL g) = Some tree' ∧ routeplan.dml_statement tree' ∧
    router.Table (router.plan (router.prepare_tree tree')) = router.Table (router.plan (router.prepare_tree tree)).
Proof.
  intros L Htree. unfold router.RewriteGeneratedInsert. rewrite Htree. cbn [mbind option_bind].
  destruct (router.single_statement tree) as [st|] eqn:Hst; [|done]. cbn [mbind option_bind].
  destruct (as_node "InsertStmt" (Some st)) as [insert|] eqn:Hins; [|done]. cbn [mbind option_bind].
  destruct (_ || _) eqn:Hb; [done|]. apply orb_false_iff in Hb as [_ Hwith%negb_false_iff%bool_decide_eq_true].
  destruct (GeneratedPrimaryKey _ _) as [generated|]; [|done]. cbn [mbind option_bind].
  destruct (router.insert_row insert) as [row|]; [|done]. cbn [mbind option_bind].
  destruct (router.parseExpression value) as [replacement|]; [|done]. cbn [mbind option_bind].
  destruct (router.rewrite_insert _ _ _ _ _ _) as [tree1|] eqn:Hr; [|done]. cbn [mbind option_bind].
  destruct (Deparse tree1) as [text|] eqn:Hd; [|done]. intros [= <-]. cbn [router.SQL].
  destruct (router.rewrite_insert_keeps _ _ _ _ _ _ _ _ "WithClause" Hst Hins ltac:(done) ltac:(done) Hr)
    as (st1 & insert1 & Hst1 & Hins1 & Hw1).
  destruct (router.rewrite_insert_keeps _ _ _ _ _ _ _ _ "Relation" Hst Hins ltac:(done) ltac:(done) Hr)
    as (st2 & insert2 & Hst2 & Hins2 & Hrel). simplify_eq.
  rewrite Hwith in Hw1.
  destruct (insert_reparses _ L _ _ _ _ Hst1 Hins1 Hw1 Hd) as (Hk & tree' & st' & insert' & Hp & Hst' & Hins' & Hrel').
  split; [done|]. exists tree'. split; [done|]. split; [by eapply insert_dml|].
  by rewrite (router.prepare_insert_table _ _ _ Hst' Hins'), (router.prepare_insert_table _ _ _ Hst Hins), Hrel', Hrel.
Qed.

(** The statement with its key: the text that is sent, and what it is parsed to. *)
Lemma assign_generated_key_sent env sql tree text routing :
  printer_laws (MakeResTargetNodeWithName env) → firstSQLKeyword sql ∈ write_keywords →
  PgQuery.Parse sql = Some tree → routeplan.dml_statement tree →
  assign_generated_key env sql = Ok (text, routing) →
  sent_text env sql text ∧ firstSQLKeyword text ∈ write_keywords ∧
  ∃ tree', PgQuery.Parse text = Some tree' ∧ routeplan.dml_statement tree' ∧
    router.Table (router.plan (router.prepare_tree tree')) = router.Table (router.plan (router.prepare_tree tree)) ∧
    routing = Some (router.prepare_tree tree').
Proof.
  intros L Hk Htree Hdml. unfold assign_generated_key.
  assert (router.Prepare sql = Some (router.prepare_tree tree)) as Hp by (unfold router.Prepare; by rewrite Htree).
  rewrite Hp. destruct (bool_decide _ && _ && _ && _) eqn:Hb.
  - rewrite !andb_true_iff, !bool_decide_eq_true in Hb. destruct Hb as (((_ & Hi) & _) & Hz).
    destruct (NextGlobalID env) as [id|] eqn:Hid; [|done]. cbn [map_err mbind result_bind].
    destruct (literal_rewrites _ L sql (registry env) 0 id Hz) as [g Hg].
    unfold rewritten_sql. rewrite Hg.
    destruct (rewritten_reads _ _ _ _ _ L Htree Hg) as (Hk' & tree' & Htree' & Hdml' & HT).
    unfold router.Prepare at 1. rewrite Htree'. intros [= <- <-].
    split; [by eapply sent_with_key|]. split; [rewrite Hk'; by left|]. by exists tree'.
  - intros [= <- <-]. split; [|split; [done|by exists tree]]. apply sent_unchanged. intros Hi. rewrite Hp.
    rewrite (bool_decide_eq_true_2 (is_Some _)), (bool_decide_eq_true_2 _ Hi) in Hb by done. cbn [andb] in Hb.
    apply andb_false_iff in Hb as [Hb|Hb]; apply bool_decide_eq_false, eq_None_not_Some in Hb; auto.
Qed.

(** What planning makes of a keyed write: an error, or a plan with exactly the
    Burrow that owns the key of the text that is sent. *)
Lemma route_sharded_write env srv schema temporaryDDL text tree planned counter :
  firstSQLKeyword text ∈ write_keywords →
  PgQuery.Parse text = Some tree → routeplan.dml_statement tree →
  IsSharded (registry env) (router.Table (router.plan (router.prepare_tree tree))) = true →
  route_query env srv schema temporaryDDL text (Some (router.prepare_tree tree)) = Some (Ok planned, counter) →
  q_sql planned = text ∧
  ∃ pl columns values,
    router.Analyze (Some (router.prepare_tree tree)) [] (registry env) (ShardNames env) = Some pl ∧
    router.routed_plan (router.prepare_tree tree) [] (registry env) (ShardNames env) pl columns values ∧
    q_targets planned = [router.Target pl].
Proof.
  intros Hk Htree Hdml Hs. pose proof (write_keyword_plain text Hk) as Hk'. rewrite !Forall_cons in Hk'.
  unfold route_query, routeplan.resolveRouteDecision, routeplan.routePortal.
  destruct (router.Analyze _ _ _ _) as [pl|] eqn:Ha; [|done]. cbn [mbind option_bind].
  destruct (routeplan.analyze_dml _ _ _ _ _ Hdml Ha) as (HW & HS & Hrouted).
  pose proof (routeplan.sharded_dml_keyed _ _ _ _ _ Hdml Hs Ha) as Hkeyed.
  unfold routeplan.routePlan. rewrite HS, Hkeyed. rewrite HW in Hkeyed. cbn [andb] in Hkeyed.
  rewrite <- orb_assoc, Hkeyed, orb_true_r. cbn [routeplan.scatterError routeplan.keyedWrite routeplan.routed routeplan.target].
  rewrite (dml_no_fleet_order text tree) by done. cbn [andb].
  destruct (fail_if (bool_decide (router.ScatterError pl ≠ "")) _) as [[]|]; [|by intros [=]]. cbn [mbind result_bind].
  destruct (router.Routed pl); [|by intros [=]]. cbn [andb negb fail_if mbind result_bind].
  assert (isTransactionControl text = false) as ->.
  { apply bool_decide_eq_false. rewrite !elem_of_cons, elem_of_nil. tauto. }
  cbn [negb q_targets]. destruct (if temporaryDDL then _ else _) as [[]|]; [|done].
  cbn [mbind result_bind]. intros [= <- <-]. split; [done|].
  destruct (Hrouted eq_refl) as (columns & values & Hr). by exists pl, columns, values.
Qed.
Lemma plan_sharded_write env srv s sql tree planned counter :
  printer_laws (MakeResTargetNodeWithName env) → firstSQLKeyword sql ∈ write_keywords →
  PgQuery.Parse sql = Some tree → routeplan.dml_statement tree →
  IsSharded (registry env) (router.Table (router.plan (router.prepare_tree tree))) = true →
  plan_query env srv s sql = Some (Ok planned, counter) →
  sent_text env sql (q_sql planned) ∧
  ∃ tree' pl columns values,
    PgQuery.Parse (q_sql planned) = Some tree' ∧
    router.Table (router.plan (router.prepare_tree tree')) = router.Table (router.plan (router.prepare_tree tree)) ∧
    router.Analyze (Some (router.prepare_tree tree')) [] (registry env) (ShardNames env) = Some pl ∧
    router.routed_plan (router.prepare_tree tree') [] (registry env) (ShardNames env) pl columns values ∧
    q_targets planned = [router.Target pl].
Proof.
  intros L Hk Htree Hdml Hs. pose proof (write_keyword_plain sql Hk) as Hk'. rewrite !Forall_cons in Hk'.
  unfold plan_query, admit_query, normalizeDDL. rewrite decide_False by tauto. rewrite decide_True by tauto.
  cbn [map_err mbind result_bind n_sql]. destruct (validateAtomicFleetDDL _ _ _ _) as [temporaryDDL|]; [|done].
  cbn [map_err mbind result_bind n_sql n_schema].
  destruct (assign_generated_key env sql) as [[text routing]|] eqn:Hg; [|done].
  destruct (assign_generated_key_sent _ _ _ _ _ L Hk Htree Hdml Hg)
    as (Hsent & Hk2 & tree' & Htree' & Hdml' & HT & ->).
  intros Hp. rewrite <- HT in Hs.
  destruct (route_sharded_write _ _ _ _ _ _ _ _ Hk2 Htree' Hdml' Hs Hp) as (-> & pl & columns & values & Ha & Hr & Ht).
  split; [done|]. by exists tree', pl, columns, values.
Qed.

(** A statement on one Burrow that is not fleet-wide DDL is one command. *)
Lemma run_single env srv s policy p b h :
  q_targets p = [b] →
  (lock_and_run send_error reply_to env srv s policy p h).1
  = h ++ [Sent b (q_sql p) (command_reply send_error reply_to h b (q_sql p))].
Proof.
  intros Hb. assert (fleet_ddl p = false) as Hf by (unfold fleet_ddl; by rewrite Hb).
  unfold lock_and_run, run_planned, atomic_ddl. rewrite Hf, andb_false_r, Hb. cbn [run_on].
  unfold mbind, M_bind, exchangeOne, mret, M_ret. destruct (command_reply _ _ _ _ _) as [messages|m]; [|done].
  cbn [fmap result_fmap]. by destruct (firstError [messages]).
Qed.

(** C4: an INSERT, UPDATE, DELETE or MERGE on a sharded table reaches one Burrow
    only. Either it fails and no Burrow was contacted, or exactly one command
    was sent: the statement itself, or, when it is an INSERT that leaves out a
    generated key, its rewriting with the next identifier of etcd; and the
    Burrow is the owner of the vshard of the shard key that the text that was
    sent fixes, an analysis of its own parse tree. The rewriting relies on the
    library printing an INSERT as an INSERT into the same table. *)
Theorem sharded_write_reaches_owner_only env srv s sql tree h h' o :
  printer_laws (MakeResTargetNodeWithName env) →
  firstSQLKeyword sql ∈ write_keywords →
  PgQuery.Parse sql = Some tree → routeplan.dml_statement tree →
  IsSharded (registry env) (router.Table (router.plan (router.prepare_tree tree))) = true →
  handleSessionQuery send_error reply_to env srv s sql h = (h', Some o) →
  (h' = h ∧ o_ok o = false) ∨ ∃ text tree' pl columns values reply,
    sent_text env sql text ∧ PgQuery.Parse text = Some tree' ∧
    router.Table (router.plan (router.prepare_tree tree')) = router.Table (router.plan (router.prepare_tree tree)) ∧
    router.Analyze (Some (router.prepare_tree tree')) [] (registry env) (ShardNames env) = Some pl ∧
    router.routed_plan (router.prepare_tree tree') [] (registry env) (ShardNames env) pl columns values ∧
    h' = h ++ [Sent (router.Target pl) text reply].
Proof.
  intros L Hk Htree Hdml Hs. pose proof (write_keyword_plain sql Hk) as Hk'. rewrite !Forall_cons in Hk'. unfold handleSessionQuery.
  assert (TrimSpace sql ≠ "") as Hblank.
  { intros E. unfold firstSQLKeyword in Hk. rewrite E in Hk. revert Hk. change ("" ∉ write_keywords). by_computation. }
  rewrite bool_decide_eq_false_2 by done. cbv zeta.
  assert (∀ s, commits_in_two_phases (twoPhaseCommit env) sql s = false) as ->.
  { intros s'. unfold commits_in_two_phases. rewrite !(bool_decide_eq_false_2 (firstSQLKeyword sql = _)) by tauto.
    cbn. by rewrite andb_false_r. }
  set (s1 := beginSessionState _ _).
  destruct (plan_query env srv s1 sql) as [[[p|e] counter]|] eqn:Hp; [| by intros [= <- <-]; left | by intros [=]].
  destruct (plan_sharded_write _ _ _ _ _ _ _ L Hk Htree Hdml Hs Hp)
    as (Hsent & tree' & pl & columns & values & Htree' & HT & Ha & Hr & Ht).
  unfold mbind, M_bind.
  pose proof (run_single env {| topologyReadIndex := counter; schemaRefreshPending := schemaRefreshPending srv |} s1
    (policy_in_state s (classifySessionState sql)) p (router.Target pl) h Ht) as E.
  destruct (lock_and_run _ _ _ _ _ _ _ h) as [h1 o1]. cbn in E. subst h1. intros [= <- <-].
  right. by exists (q_sql p), tree', pl, columns, values, (command_reply send_error reply_to h (router.Target pl) (q_sql p)).
Qed.

(** * Errors inside a transaction *)

(** when a Burrow answers a statement of a transaction with an
    error the session does not note that the transaction failed: a later COMMIT
    is still run in two phases, although PostgreSQL has aborted the transaction
    on that Burrow and will answer PREPARE TRANSACTION by rolling back. *)
Theorem failed_statement_still_commits env srv s policy p b messages e h :
  q_targets p = [b] → transaction s = true →
  send_error h b (q_sql p) = None → reply_to h b (q_sql p) = Ok messages →
  firstError [messages] = Some e →
  commits_in_two_phases true "COMMIT" s = true →
  let o := (lock_and_run send_error reply_to env srv s policy p h).2 in
  o_ok o = false ∧ client_messages (o_sent o) = [ErrorMessage e; ReadyForQuery (readyTxStatus [messages])] ∧
  commits_in_two_phases true "COMMIT" (o_state o) = true.
Proof.
  intros Hb Ht Hsend Hreply He Hc.
  assert (fleet_ddl p = false) as Hf by (unfold fleet_ddl; by rewrite Hb).
  unfold lock_and_run, run_planned, atomic_ddl. rewrite Hf, andb_false_r, Hb. cbn [run_on].
  unfold mbind, M_bind, exchangeOne, mret, M_ret, command_reply. rewrite Hsend, Hreply.
  cbn [fmap result_fmap]. rewrite He. cbn [snd o_ok o_sent o_state]. split_and!; [done| |done].
  rewrite client_messages_app. by destruct (_ || _).
Qed.

(** inside an open transaction a blank query, and a statement
    whose Burrow cannot be reached, are answered with the status idle, while
    the session stays in the transaction. *)
Theorem idle_announced_in_transaction env srv s policy p b message sql h :
  TrimSpace sql = "" → transaction s = true → q_targets p = [b] →
  send_error h b (q_sql p) = Some message →
  (∃ o, handleSessionQuery send_error reply_to env srv s sql h = (h, Some o) ∧
     client_messages (o_sent o) = [EmptyQueryResponse; ReadyForQuery "I"%char] ∧ txStatus (o_state o) ≠ "I"%char) ∧
  let o := (lock_and_run send_error reply_to env srv s policy p h).2 in
  client_messages (o_sent o) = [ErrorMessage (sql_error "08006" message); ReadyForQuery "I"%char] ∧
  txStatus (o_state o) ≠ "I"%char.
Proof.
  intros Hsql Ht Hb Hsend.
  assert (txStatus s ≠ "I"%char) as Hstatus by (unfold txStatus; rewrite Ht; by destruct (transactionFailed s)).
  split.
  - eexists. split; [unfold handleSessionQuery; by rewrite bool_decide_eq_true_2|]. done.
  - assert (fleet_ddl p = false) as Hf by (unfold fleet_ddl; by rewrite Hb).
    unfold lock_and_run, run_planned, atomic_ddl. rewrite Hf, andb_false_r, Hb. cbn [run_on].
    unfold mbind, M_bind, exchangeOne, mret, M_ret, command_reply. rewrite Hsend. done.
Qed.

(** when the responses to durable DDL cannot be merged, as for a
    batch that also returns two different row descriptions, the client is told
    that the query failed and the fleet lock is not released, although the
    schema change has been committed on every Burrow. *)
Theorem unmerged_ddl_keeps_lock env srv s policy p responses e h h1 :
  fleet_ddl p = true → transaction s = false → lock_acquired env = true →
  atomic_fleet_ddl send_error reply_to (gid env) (q_sql p) (ShardNames env) (q_targets p)
    (h ++ [LockFleetWrites true]) = (h1, None) →
  (∀ h0, (exchange send_error reply_to (q_sql p) (q_targets p) h0).2 = Ok responses) →
  collect responses = Err e →
  let '(h2, o) := lock_and_run send_error reply_to env srv s policy p h in
  h2 = h1 ∧ o_ok o = false ∧ o_sent o = sendError e ∧ UnlockFleetWrites ∉ o_sent o.
Proof.
  intros Hf Ht Hl Hatomic Hresp He. unfold lock_and_run. rewrite Hf, Hl.
  assert (∀ h0 o0, atomic_fleet_ddl send_error reply_to (gid env) (q_sql p) (ShardNames env) (q_targets p) h0 = (h1, None) →
    run_planned send_error reply_to env srv s policy p h0 = o0 →
    o0 = (h1, {| o_server := with_pending true srv; o_state := s; o_sent := sendError e; o_ok := false |})) as Hrun.
  { intros h0 o0 Ha <-. assert (atomic_ddl s p = true) as Hd by (unfold atomic_ddl; by rewrite Ht, Hf).
    assert (run_on send_error reply_to (q_sql p) (q_targets p) = exchange send_error reply_to (q_sql p) (q_targets p)) as Hon.
    { unfold fleet_ddl, requiresFleetWriteOrder in Hf. destruct (q_targets p) as [|a [|b l]]; done. }
    revert Ha. unfold run_planned, atomic_fleet_ddl. cbv zeta. rewrite Hon, Hd. unfold mbind, M_bind, mret, M_ret.
    destruct (beginAtomicFleetDDL _ _ _ h0) as [h2 [e'|]]; [done|]. specialize (Hresp h2).
    destruct (exchange _ _ _ _ h2) as [h3 r]. cbn in Hresp. subst r.
    destruct (firstError responses); [by destruct (rollbackAtomicFleetDDL _ _ _ _)|].
    destruct (commitAtomicFleetDDL _ _ _ _ _ _) as [h4 [e'|]]; [done|]. intros [= ->].
    unfold merge_responses. by rewrite He. }
  unfold mbind, M_bind, emit. rewrite (Hrun _ _ Hatomic eq_refl). split_and!; [done..|].
  intros Hin. cbn [o_sent] in Hin. unfold sendError, sendSessionError in Hin.
  rewrite !elem_of_cons, elem_of_nil in Hin. naive_solver.
Qed.
End isolation.

(** * Witnesses *)

Definition two_burrows : environment := {|
  twoPhaseCommit := true; ShardNames := ["a"; "b"]; registry := accounts;
  UnshardedMode := "replicated"; PrimaryBurrow := "a"; random := Some 1; gid := "hamstergres-1";
  NextGlobalID := Ok 7; lock_acquired := true; refresh := None;
  MakeStrNode := ddl.str_node;
  MakeResTargetNodeWithName := λ name _, mk_node (Msg "ResTarget" [("Name", FString name)]) |}.
Definition idle_server : server := {| topologyReadIndex := 0; schemaRefreshPending := false |}.
Definition delete_account : message := Msg "DeleteStmt"
  [("Relation", FMsg (router.mk_table "public" "accounts")); ("WhereClause", FMsg router.accounts_where)].
Definition delete_sql : string := "DELETE FROM accounts WHERE tenant_id = 42 AND region = 'eu'".
Definition delete_parser : PgQuery := parses_to [raw_stmt delete_account].
Definition ddl_parser : PgQuery := parses_to [create_in "public" "p" "t"].
Definition create_table : planned := {| q_sql := "CREATE TABLE t ()"; q_schema := true; q_temporary := false;
  q_targets := ["a"; "b"]; q_target := ""; q_routed := false |}.
Definition one_delete (b : string) : planned := {| q_sql := delete_sql; q_schema := false; q_temporary := false;
  q_targets := [b]; q_target := b; q_routed := true |}.


Definition create_table_run : list event * outcome :=
  @lock_and_run ddl_parser connected accepting two_burrows idle_server new_session no_policy create_table [].

Lemma fleet_lock_discipline_witness :
  ∃ l, create_table_run.1 = LockFleetWrites true :: l ∧ released create_table_run.2.
Proof.
  refine (@fleet_lock_discipline ddl_parser connected accepting two_burrows idle_server new_session no_policy
    create_table [] create_table_run.1 create_table_run.2 _ (surjective_pairing _)).
  vm_compute. reflexivity.
Defined.

Lemma handler_runs_atomic_fleet_ddl_witness :
  (@run_planned ddl_parser connected accepting two_burrows idle_server new_session no_policy create_table []).1
  = (atomic_fleet_ddl connected accepting "hamstergres-1" "CREATE TABLE t ()" ["a"; "b"] ["a"; "b"] []).1.
Proof.
  pose proof (@handler_runs_atomic_fleet_ddl ddl_parser connected accepting two_burrows idle_server new_session
    no_policy create_table [] ltac:(vm_compute; reflexivity) eq_refl) as E.
  change (ShardNames two_burrows) with ["a"; "b"] in E. change (gid two_burrows) with "hamstergres-1" in E.
  change (q_sql create_table) with "CREATE TABLE t ()" in E. change (q_targets create_table) with ["a"; "b"] in E.
  destruct (atomic_fleet_ddl _ _ _ _ _ _ _), (run_planned _ _ _ _ _ _ _ _). cbn. symmetry. apply E.
Defined.

Lemma session_coherent_witness :
  ∃ o, @session_reaches toy_floats delete_parser (o_server o) (o_state o) ∧
  (transaction (o_state o) = false → writeParticipants (o_state o) = ∅) ∧
  (schemaDirty (o_state o) = true → transaction (o_state o) = true ∨ schemaRefreshPending (o_server o) = true).
Proof.
  destruct (@handleSessionQuery toy_floats delete_parser connected accepting two_burrows idle_server
    new_session delete_sql []) as [h' [o|]] eqn:E; [|by vm_compute in E].
  exists o. assert (@session_reaches toy_floats delete_parser (o_server o) (o_state o)) as Hr
    by (eapply session_query; [apply session_starts | exact E]).
  split; [exact Hr|]. exact (@session_coherent toy_floats delete_parser _ _ Hr).
Defined.

(** An INSERT into a table whose key column [id] is generated; the library prints
    what is rewritten as [keyed_sql]. *)
Definition account_insert (columns : list string) (values : list message) : message :=
  Msg "InsertStmt" [("Relation", FMsg (router.mk_table "public" "accounts"));
    ("Cols", FList ((λ c, mk_node (Msg "ResTarget" [("Name", FString c)])) <$> columns));
    ("SelectStmt", FMsg (mk_node (Msg "SelectStmt"
      [("ValuesLists", FList [mk_node (Msg "List" [("Items", FList values)])])])))].
Definition insert_sql : string := "INSERT INTO accounts (tenant_id, region) VALUES (42, 'eu')".
Definition keyed_sql : string := "INSERT INTO accounts (tenant_id, region, id) VALUES (42, 'eu', 7)".
Definition insert_tree : message :=
  router.mk_tree (account_insert ["tenant_id"; "region"] [router.mk_int 42; router.mk_text "eu"]).
Definition keyed_tree : message :=
  router.mk_tree (account_insert ["tenant_id"; "region"; "id"] [router.mk_int 42; router.mk_text "eu"; router.mk_int 7]).
Definition seven_tree : message := router.mk_tree (Msg "SelectStmt"
  [("TargetList", FList [mk_node (Msg "ResTarget" [("Val", FMsg (router.mk_int 7))])])]).
Definition insert_parser : PgQuery := {|
  PgQuery.Parse := λ text, Some (if decide (text = insert_sql) then insert_tree
    else if decide (text = keyed_sql) then keyed_tree else seven_tree);
  PgQuery.Deparse := λ tree,
    statement ← router.single_statement tree;
    insert ← as_node "InsertStmt" (Some statement);
    if decide (router.relationName (get_msg (Some insert) "Relation") = "public.accounts") then Some keyed_sql else None |}.
Definition generated_ids : environment := {|
  twoPhaseCommit := true; ShardNames := ["a"; "b"];
  registry := {| formatVersion := formatVersion accounts; revision := revision accounts; tables := tables accounts;
    shardKeyTypes := shardKeyTypes accounts;
    generated := {["public.accounts" := {| Column := "id"; Kind := "identity" |}]};
    vshards := vshards accounts; tableVShards := tableVShards accounts; allTables := allTables accounts |};
  UnshardedMode := "replicated"; PrimaryBurrow := "a"; random := Some 1; gid := "hamstergres-1";
  NextGlobalID := Ok 7; lock_acquired := true; refresh := None;
  MakeStrNode := ddl.str_node;
  MakeResTargetNodeWithName := λ name _, mk_node (Msg "ResTarget" [("Name", FString name)]) |}.
Lemma insert_parser_laws : @printer_laws insert_parser (MakeResTargetNodeWithName generated_ids).
Proof.
  split.
  - intros tree text st insert Hst Hins _ Hd. unfold PgQuery.Deparse, insert_parser in Hd.
    rewrite Hst in Hd. cbn [mbind option_bind] in Hd. rewrite Hins in Hd. cbn [mbind option_bind] in Hd.
    destruct (decide _) as [E|]; [|done]. injection Hd as <-. rewrite E. split; [by_computation|].
    exists keyed_tree. do 2 eexists. repeat split; vm_compute; reflexivity.
  - intros sql registry a b. unfold router.RewriteGeneratedInsert.
    assert (∀ z, @router.parseExpression insert_parser (FormatInt z) = Some (router.mk_int 7)) as E.
    { intros z. unfold router.parseExpression, PgQuery.Parse, insert_parser.
      rewrite decide_False by discriminate. by rewrite decide_False by discriminate. }
    by rewrite !E.
Qed.

Lemma sharded_write_reaches_owner_only_witness :
  ∃ h' o, @handleSessionQuery toy_floats insert_parser connected accepting generated_ids idle_server
    new_session insert_sql [] = (h', Some o) ∧ o_ok o = true ∧
  ((h' = [] ∧ o_ok o = false) ∨ ∃ text tree' pl columns values reply,
    @sent_text insert_parser generated_ids insert_sql text ∧ @PgQuery.Parse insert_parser text = Some tree' ∧
    router.Table (router.plan (router.prepare_tree tree')) = router.Table (router.plan (router.prepare_tree insert_tree)) ∧
    @router.Analyze toy_floats (Some (router.prepare_tree tree')) [] (registry generated_ids) ["a"; "b"] = Some pl ∧
    @router.routed_plan toy_floats (router.prepare_tree tree') [] (registry generated_ids) ["a"; "b"] pl columns values ∧
    h' = [Sent (router.Target pl) text reply]).
Proof.
  eexists _, _. split; [vm_compute; reflexivity|]. split; [vm_compute; reflexivity|].
  refine (@sharded_write_reaches_owner_only toy_floats insert_parser connected accepting generated_ids idle_server
    new_session insert_sql insert_tree [] _ _ insert_parser_laws _ eq_refl _ _ _).
  - by_computation.
  - eexists _, _. split; [reflexivity|]. split; [reflexivity|]. by_computation.
  - vm_compute. reflexivity.
  - vm_compute. reflexivity.
Defined.
(** The rewritten text is what reaches the Burrow. *)
Example generated_key_sent :
  (λ e, match e with Sent b text _ => [(b, text)] | _ => [] end)
    <$> (@handleSessionQuery toy_floats insert_parser connected accepting generated_ids idle_server
      new_session insert_sql []).1 = [[("a", keyed_sql)]].
Proof. by vm_compute. Qed.

(** Burrow [b] rejects every statement of a transaction. *)
Definition rejected_by_b (h : list event) (burrow sql : string) : result string (list BackendMessage) :=
  if decide (burrow = "b") then Ok [ErrorMessage (sql_error "23505" "duplicate key"); ReadyForQuery "E"%char]
  else Ok [CommandComplete "DELETE 1"; ReadyForQuery "T"%char].

Lemma failed_statement_still_commits_witness :
  commits_in_two_phases true "COMMIT"
    (o_state (@lock_and_run delete_parser connected rejected_by_b two_burrows idle_server
       writing_session no_policy (one_delete "b") []).2) = true.
Proof.
  refine (proj2 (proj2 (@failed_statement_still_commits delete_parser connected rejected_by_b two_burrows idle_server
    writing_session no_policy (one_delete "b") "b" _ _ [] eq_refl eq_refl eq_refl eq_refl eq_refl _))).
  vm_compute. reflexivity.
Defined.

Lemma idle_announced_in_transaction_witness :
  ∃ o, @handleSessionQuery toy_floats delete_parser c_lost accepting two_burrows idle_server writing_session "  " []
    = ([], Some o) ∧
    client_messages (o_sent o) = [EmptyQueryResponse; ReadyForQuery "I"%char] ∧ txStatus (o_state o) ≠ "I"%char.
Proof.
  refine (proj1 (@idle_announced_in_transaction toy_floats delete_parser c_lost accepting two_burrows idle_server
    writing_session no_policy (one_delete "c") "c" _ "  " [] eq_refl eq_refl eq_refl _)).
  reflexivity.
Defined.

(** A batch that creates a table and returns two shapes of rows. *)
Definition two_shapes (h : list event) (burrow sql : string) : result string (list BackendMessage) :=
  if decide (sql = "CREATE TABLE t ()")
  then Ok [CommandComplete "CREATE TABLE"; RowDescription []; RowDescription [id_field]; ReadyForQuery "T"%char]
  else accepting h burrow sql.

Lemma unmerged_ddl_keeps_lock_witness :
  UnlockFleetWrites ∉
    o_sent (@lock_and_run ddl_parser connected two_shapes two_burrows idle_server new_session no_policy create_table []).2.
Proof.
  pose proof (@unmerged_ddl_keeps_lock ddl_parser connected two_shapes two_burrows idle_server new_session no_policy
    create_table
    (replicate 2 [CommandComplete "CREATE TABLE"; RowDescription []; RowDescription [id_field]; ReadyForQuery "T"%char])
    (sql_error "XX000" "incompatible row descriptions from Burrows") []
    (atomic_fleet_ddl connected two_shapes "hamstergres-1" "CREATE TABLE t ()" ["a"; "b"] ["a"; "b"]
       [LockFleetWrites true]).1
    ltac:(vm_compute; reflexivity) eq_refl eq_refl ltac:(vm_compute; reflexivity) ltac:(reflexivity)
    ltac:(vm_compute; reflexivity)) as Hl.
  destruct (lock_and_run _ _ _ _ _ _ _ _) as [h2 o]. exact (proj2 (proj2 (proj2 Hl))).
Defined.

End queryhandler.
