(* ===== verification/Statistics.v ===== *)
(** The query telemetry of [internal/statistics/statistics.go]: normalised
    query shapes, the ring of one-second buckets behind the rolling windows, the
    bounded caches of labels and summaries, and snapshots.

    Times are nanoseconds since the Unix epoch, durations nanoseconds, as in
    [time.Duration]; seconds as [float64] are [spec_float]s of 53 bits. The order
    in which Go ranges over a map is the parameter [MapOrder]. *)
From Stdlib Require Import SpecFloat.
From S2P Require Import Prelude.
From S2P Require Import GoStrings.
From S2P Require Import GoNumbers.
From S2P Require Import GoStd.
From S2P Require Import GoTime.

Module statistics.
Import gotime.

(** * Regular expressions

    [ReplaceAllString] of package regexp for expressions that match no empty
    text: a matcher gives the length of the leftmost-first match at the start
    of the text, given the byte before it. *)
Definition matcher : Type := option byte → bytes → option nat.

(** [skip] bytes of the last match are still to be dropped. *)
Fixpoint replace_go (m : matcher) (repl : bytes) (prev : option byte) (skip : nat) (s : bytes) : bytes :=
  match s with
  | [] => []
  | c :: t =>
    match skip with
    | S skip => replace_go m repl (Some c) skip t
    | O =>
      match m prev s with
      | Some (S n) => repl ++ replace_go m repl (Some c) n t
      | _ => c :: replace_go m repl (Some c) 0 t
      end
    end
  end.
Definition ReplaceAllString (m : matcher) (s repl : bytes) : bytes := replace_go m repl None 0 s.

(** The length of the longest prefix of bytes that satisfy [f]. *)
Fixpoint span (f : byte → bool) (s : bytes) : nat :=
  match s with
  | c :: s => if f c then S (span f s) else O
  | [] => O
  end.

(** [(?s)/\*.*?\*/]: up to the first [*/]. *)
Fixpoint comment_end (s : bytes) : option nat :=
  match s with
  | "*"%char :: ("/"%char :: _) => Some 2%nat
  | _ :: s => S <$> comment_end s
  | [] => None
  end.
Definition blockComment : matcher := λ _ s,
  match s with
  | "/"%char :: "*"%char :: s => (λ n, (2 + n)%nat) <$> comment_end s
  | _ => None
  end.

(** [--[^\n]*] *)
Definition not_newline (c : byte) : bool := negb (bool_decide (c = byte_of 10)).
Definition lineComment : matcher := λ _ s,
  match s with
  | "-"%char :: "-"%char :: s => Some (2 + span not_newline s)%nat
  | _ => None
  end.

(** ['(?:''|[^'])*']: a doubled quote continues the literal, and is given back
    when no closing quote follows. [n] bytes are behind, [best] is the length of
    the match that ends at the last doubled quote. *)
Fixpoint literal_end (best : option nat) (n : nat) (s : bytes) : option nat :=
  match s with
  | [] => best
  | c :: t =>
    if decide (c = "'"%char) then
      match t with
      | d :: t => if decide (d = "'"%char) then literal_end (Some (S n)) (S (S n)) t else Some (S n)
      | [] => Some (S n)
      end
    else literal_end best (S n) t
  end.
Definition stringValue : matcher := λ _ s,
  match s with
  | "'"%char :: s => literal_end None 1 s
  | _ => None
  end.

(** [\b\d+(?:\.\d+)?\b] with ASCII word boundaries. *)
Definition is_word (c : byte) : bool :=
  is_digit c || is_upper c || is_lower c || bool_decide (c = "_"%char).
Definition ends_word (s : bytes) : bool :=
  match s with c :: _ => negb (is_word c) | [] => true end.
Definition numberValue : matcher := λ prev s,
  if match prev with Some p => is_word p | None => false end then None else
  match span is_digit s with
  | O => None
  | n =>
    let fraction := match drop n s with
      | "."%char :: t =>
        let k := span is_digit t in
        if bool_decide (k ≠ 0%nat) && ends_word (drop k t) then Some (n + 1 + k)%nat else None
      | _ => None
      end in
    match fraction with
    | Some length => Some length
    | None => if ends_word (drop n s) then Some n else None
    end
  end.

(** [\s+] *)
Definition is_space (c : byte) : bool :=
  bool_decide (c ∈ [byte_of 9; byte_of 10; byte_of 12; byte_of 13; byte_of 32]).
Definition whitespace : matcher := λ _ s, Some (span is_space s).

Definition ellipsis : bytes := byte_of <$> [226; 128; 166].

Definition strip_comments (sql : bytes) : bytes :=
  ReplaceAllString lineComment (ReplaceAllString blockComment sql [" "%char]) [" "%char].
Definition Normalize (sql : string) : string :=
  let normalized := strip_comments (bytes_of sql) in
  let normalized := ReplaceAllString stringValue normalized ["?"%char] in
  let normalized := ReplaceAllString numberValue normalized ["?"%char] in
  let normalized := TrimSpace (string_of (ReplaceAllString whitespace normalized [" "%char])) in
  let normalized := if (300 <? String.length normalized)%nat
    then take_string 300 normalized +:+ string_of ellipsis else normalized in
  if decide (normalized = "") then "<empty query>" else normalized.

Definition statement (query : string) : string :=
  match Fields query with
  | [] => "UNKNOWN"
  | part :: _ => ToUpper part
  end.

(** [sha256.Sum256] is a parameter. *)
Definition Fingerprint `{GoStd} (normalizedQuery : string) : string :=
  EncodeHex (take 8 (sha256 (bytes_of normalizedQuery))).

(** * Events and counters *)

Record QueryEvent := {
  Duration : Z; Success : bool; Shards : list string; SQL : string; ErrorCategory : string;
}.
Record Statistics := {
  Queries : Z; FailedQueries : Z; ScatteredQueries : Z; SingleShardQueries : Z;
  TotalDurationMillis : Z; AverageDurationMillis : Z;
}.
Definition no_statistics : Statistics := {|
  Queries := 0; FailedQueries := 0; ScatteredQueries := 0; SingleShardQueries := 0;
  TotalDurationMillis := 0; AverageDurationMillis := 0 |}.

(** [Duration.Milliseconds] *)
Definition Milliseconds (d : Z) : Z := Z.quot d 1000000.
(** [x++] and [x += n] on [int64]. *)
Definition plus (x n : Z) : Z := swrap 64 (x + n).
Definition plus_if (b : bool) (x : Z) : Z := if b then plus x 1 else x.

Definition add (s : Statistics) (query : QueryEvent) : Statistics := {|
  Queries := plus (Queries s) 1;
  FailedQueries := plus_if (negb (Success query)) (FailedQueries s);
  ScatteredQueries := plus_if (1 <? length (Shards query))%nat (ScatteredQueries s);
  SingleShardQueries := plus_if (length (Shards query) =? 1)%nat (SingleShardQueries s);
  TotalDurationMillis := plus (TotalDurationMillis s) (Milliseconds (Duration query));
  AverageDurationMillis := AverageDurationMillis s |}.
Definition finalize (s : Statistics) : Statistics :=
  if 0 <? Queries s then {|
    Queries := Queries s; FailedQueries := FailedQueries s; ScatteredQueries := ScatteredQueries s;
    SingleShardQueries := SingleShardQueries s; TotalDurationMillis := TotalDurationMillis s;
    AverageDurationMillis := Z.quot (TotalDurationMillis s) (Queries s) |}
  else s.

(** [m[key] += n] *)
Definition bump {K} `{Countable K} (n : Z) (key : K) (m : gmap K Z) : gmap K Z :=
  <[key := plus (default 0 (m !! key)) n]> m.
(** [for _, shard := range shards { m[shard]++ }] *)
Definition bump_all (shards : list string) (m : gmap string Z) : gmap string Z :=
  fold_left (λ m shard, bump 1 shard m) shards m.

(** * The ring of one-second buckets *)

Definition rollingBuckets : Z := 600.
Record timeBucket := { second : Z; b_statistics : Statistics; b_shards : option (gmap string Z) }.
Definition zero_bucket : timeBucket :=
  {| second := 0; b_statistics := no_statistics; b_shards := None |}.

(** The update of the bucket of one second; [None] when the map that counts the
    shards is nil and is written to. *)
Definition record_bucket (sec : Z) (query : QueryEvent) (b : timeBucket) : option timeBucket :=
  let b := if decide (second b ≠ sec)
    then {| second := sec; b_statistics := no_statistics; b_shards := Some ∅ |} else b in
  let shards := match b_shards b with
    | None => match Shards query with [] => Some None | _ => None end
    | Some m => Some (Some (bump_all (Shards query) m))
    end in
  (λ m, {| second := second b; b_statistics := add (b_statistics b) query; b_shards := m |}) <$> shards.

Definition bucket_index (sec : Z) : nat :=
  let index := Z.rem sec rollingBuckets in
  Z.to_nat (if index <? 0 then index + rollingBuckets else index).
Definition recordWindow (sec : Z) (query : QueryEvent) (buckets : list timeBucket)
    : option (list timeBucket) :=
  b ← buckets !! bucket_index sec;
  b ← record_bucket sec query b;
  Some (<[bucket_index sec := b]> buckets).

Definition merge_statistics (s t : Statistics) : Statistics := {|
  Queries := plus (Queries s) (Queries t); FailedQueries := plus (FailedQueries s) (FailedQueries t);
  ScatteredQueries := plus (ScatteredQueries s) (ScatteredQueries t);
  SingleShardQueries := plus (SingleShardQueries s) (SingleShardQueries t);
  TotalDurationMillis := plus (TotalDurationMillis s) (TotalDurationMillis t);
  AverageDurationMillis := AverageDurationMillis s |}.
(** [for shard, queries := range from { into[shard] += queries }] *)
Definition merge_shards `{MapOrder} (into : gmap string Z) (from : option (gmap string Z)) : gmap string Z :=
  fold_left (λ m '(shard, queries), bump queries shard m) (map_range (default ∅ from)) into.
(** [window] is in seconds. *)
Definition summarizeBuckets `{MapOrder} (buckets : list timeBucket) (now window : Z)
    : Statistics * gmap string Z :=
  let cutoff := swrap 64 (now - window + 1) in
  fold_left (λ '(s, shards) b,
    if (second b <? cutoff) || (now <? second b) then (s, shards)
    else (merge_statistics s (b_statistics b), merge_shards shards (b_shards b)))
    buckets (no_statistics, ∅).

(** * The latency histogram *)

(** [Duration.Seconds]: seconds and nanoseconds apart. *)
Definition Seconds (d : Z) : float :=
  float_add (float_of_int (Z.quot d 1000000000))
    (float_div (float_of_int (Z.rem d 1000000000)) (float_of_int 1000000000)).

(** The bounds in milliseconds: each quotient is the double nearest to the
    decimal constant of the source. *)
Definition LatencyBuckets : list float :=
  (λ ms, float_div (float_of_int ms) (float_of_int 1000)) <$>
  [1; 5; 10; 25; 50; 100; 250; 500; 1000; 2500; 5000; 10000].

Record Bucket := { UpperBound : float; BucketCount : Z }.
Record Histogram := { Buckets : list Bucket; HistogramCount : Z; Sum : float }.

Definition record_latency (d : Z) (h : Histogram) : Histogram := {|
  Buckets := (λ b, {| UpperBound := UpperBound b;
    BucketCount := plus_if (SFleb (Seconds d) (UpperBound b)) (BucketCount b) |}) <$> Buckets h;
  HistogramCount := plus (HistogramCount h) 1;
  Sum := float_add (Sum h) (Seconds d) |}.

(** * The collector *)

Definition maxQuerySummaries : nat := 100.
Definition maxSummaryLabels : nat := 100.

Record summary := { s_statistics : Statistics; s_shards : gmap string Z; lastSeenAt : Z }.
Definition new_summary : summary :=
  {| s_statistics := no_statistics; s_shards := ∅; lastSeenAt := 0 |}.

(** The memory of normalised labels: a map and the order its keys were
    inserted in, overwritten in rotation once it is full. *)
Record label_cache := { labels : gmap string string; labelOrder : list string; labelNext : nat }.

Record Collector := {
  buckets : list timeBucket; total : Statistics; shards : gmap string Z;
  summaries : gmap string summary; cache : label_cache; latency : Histogram;
  operations : gmap (string * string) Z; failures : gmap string Z;
}.

Definition newCollector : Collector := {|
  buckets := replicate (Z.to_nat rollingBuckets) zero_bucket; total := no_statistics; shards := ∅;
  summaries := ∅; cache := {| labels := ∅; labelOrder := []; labelNext := 0 |};
  latency := {| Buckets := (λ b, {| UpperBound := b; BucketCount := 0 |}) <$> LatencyBuckets;
                HistogramCount := 0; Sum := S754_zero false |};
  operations := ∅; failures := ∅ |}.

Definition RecordOperation (operation outcome : string) (c : Collector) : Collector := {|
  buckets := buckets c; total := total c; shards := shards c; summaries := summaries c;
  cache := cache c; latency := latency c;
  operations := bump 1 (operation, outcome) (operations c); failures := failures c |}.

(** The label and the new cache; [None] when [labelOrder] is indexed out of
    range. *)
Definition summaryLabel (sql : string) (c : label_cache) : option (string * label_cache) :=
  match labels c !! sql with
  | Some label => Some (label, c)
  | None =>
    let label := Normalize sql in
    if (size (labels c) <? maxSummaryLabels)%nat then
      Some (label, {| labels := <[sql := label]> (labels c); labelOrder := labelOrder c ++ [sql];
                      labelNext := labelNext c |})
    else
      oldest ← labelOrder c !! labelNext c;
      Some (label, {| labels := <[sql := label]> (delete oldest (labels c));
                      labelOrder := <[labelNext c := sql]> (labelOrder c);
                      labelNext := (S (labelNext c) mod maxSummaryLabels)%nat |})
  end.

Section maps.
Context `{MapOrder}.

(** The loop over the summaries: fewer queries, or as many and seen longer ago. *)
Definition better_candidate (item candidate : summary) : bool :=
  (Queries (s_statistics item) <? Queries (s_statistics candidate))
  || ((Queries (s_statistics item) =? Queries (s_statistics candidate))
      && (lastSeenAt item <? lastSeenAt candidate)).
Definition eviction_candidate (items : list (string * summary)) : option (string * summary) :=
  fold_left (λ candidate p, match candidate with
    | None => Some p
    | Some c => if better_candidate p.2 c.2 then Some p else Some c
    end) items None.
Definition evictSummary (m : gmap string summary) : gmap string summary :=
  delete (match eviction_candidate (map_range m) with Some p => p.1 | None => "" end) m.

Definition recordSummary (label : string) (now : Z) (query : QueryEvent) (m : gmap string summary)
    : gmap string summary :=
  let m := match m !! label with
    | Some _ => m
    | None =>
      let m := if (maxQuerySummaries <=? size m)%nat then evictSummary m else m in
      <[label := new_summary]> m
    end in
  alter (λ item, {| s_statistics := add (s_statistics item) query;
    s_shards := bump_all (Shards query) (s_shards item); lastSeenAt := now |}) label m.

Definition failure_category (query : QueryEvent) : string :=
  if decide (ErrorCategory query = "") then "unknown" else ErrorCategory query.

(** [Collector.Record] at time [now]; [None] when it panics. *)
Definition record_query (now : Z) (query : QueryEvent) (c : Collector) : option Collector :=
  '(label, labels) ← summaryLabel (SQL query) (cache c);
  window ← recordWindow (now / 1000000000) query (buckets c);
  Some {|
    buckets := window; total := add (total c) query;
    shards := bump_all (Shards query) (shards c);
    summaries := recordSummary label now query (summaries c);
    cache := labels; latency := record_latency (Duration query) (latency c);
    operations := operations c;
    failures := if Success query then failures c else bump 1 (failure_category query) (failures c) |}.

(** * Snapshots *)

(** The lists that [sort.Slice] orders by distinct keys. *)
Definition by_name (a b : string * Z) : Prop := String.le a.1 b.1.
#[export] Instance by_name_dec : RelDecision by_name.
Proof. intros a b. unfold by_name. apply _. Defined.
Definition by_operation (a b : (string * string) * Z) : Prop :=
  if decide (a.1.1 = b.1.1) then String.le a.1.2 b.1.2 else String.le a.1.1 b.1.1.
#[export] Instance by_operation_dec : RelDecision by_operation.
Proof. intros a b. unfold by_operation. destruct (decide _); apply _. Defined.

Definition sortedShardCounts (counts : gmap string Z) : list (string * Z) :=
  merge_sort by_name (map_range counts).

Record WindowStatistics := {
  w_name : string; w_seconds : Z; w_statistics : Statistics; w_shards : list (string * Z);
}.
Definition windows : list (string * Z) :=
  [("10 seconds", 10); ("1 minute", 60); ("5 minutes", 300); ("10 minutes", 600)].

Record QuerySummary := {
  QueryShape : string; QueryFingerprint : string; Statement : string;
  q_statistics : Statistics; q_shards : list (string * Z); LastSeenAt : Z;
}.
(** More queries first, then seen more recently. *)
Definition by_queries (a b : QuerySummary) : Prop :=
  if decide (Queries (q_statistics a) = Queries (q_statistics b)) then LastSeenAt b ≤ LastSeenAt a
  else Queries (q_statistics b) ≤ Queries (q_statistics a).
#[export] Instance by_queries_dec : RelDecision by_queries.
Proof. intros a b. unfold by_queries. destruct (decide _); apply _. Defined.

Record Snapshot := {
  Total : Statistics; ShardExecutions : list (string * Z); Windows : list WindowStatistics;
  QuerySummaries : list QuerySummary; Latency : Histogram;
  Operations : list ((string * string) * Z); Failures : list (string * Z);
}.

Context `{GoStd}.
Definition take_snapshot (now : Z) (c : Collector) : Snapshot := {|
  Total := finalize (total c); ShardExecutions := sortedShardCounts (shards c);
  Windows := (λ '(name, seconds),
    let '(statistics, shards) := summarizeBuckets (buckets c) (now / 1000000000) seconds in
    {| w_name := name; w_seconds := seconds; w_statistics := finalize statistics;
       w_shards := sortedShardCounts shards |}) <$> windows;
  QuerySummaries := merge_sort by_queries ((λ '(label, item),
    {| QueryShape := label; QueryFingerprint := Fingerprint label; Statement := statement label;
       q_statistics := finalize (s_statistics item); q_shards := sortedShardCounts (s_shards item);
       LastSeenAt := lastSeenAt item |}) <$> map_range (summaries c));
  Latency := latency c;
  Operations := merge_sort by_operation (map_range (operations c));
  Failures := merge_sort by_name (map_range (failures c)) |}.
End maps.

(** * What the counters count *)

Definition sum_of (g : QueryEvent → Z) (l : list QueryEvent) : Z := foldr (λ e a, g e + a) 0 l.
Definition one_if (b : bool) : Z := if b then 1 else 0.
Definition occurrences (n : string) (e : QueryEvent) : Z :=
  foldr (λ x a, one_if (bool_decide (x = n)) + a) 0 (Shards e).

(** The counters whose exact values are given by [G] for each measure. *)
Definition statistics_by (G : (QueryEvent → Z) → Z) : Statistics := {|
  Queries := swrap 64 (G (λ _, 1));
  FailedQueries := swrap 64 (G (λ e, one_if (negb (Success e))));
  ScatteredQueries := swrap 64 (G (λ e, one_if (1 <? length (Shards e))%nat));
  SingleShardQueries := swrap 64 (G (λ e, one_if (length (Shards e) =? 1)%nat));
  TotalDurationMillis := swrap 64 (G (λ e, Milliseconds (Duration e)));
  AverageDurationMillis := 0 |}.
Definition statistics_of (l : list QueryEvent) : Statistics := statistics_by (λ g, sum_of g l).
(** The entry of a shard that was counted [n] times. *)
Definition counted (n : Z) : option Z := if 0 <? n then Some (swrap 64 n) else None.
Definition counts (m : gmap string Z) (G : (QueryEvent → Z) → Z) : Prop :=
  ∀ n, m !! n = counted (G (occurrences n)) ∧ 0 ≤ G (occurrences n).

Lemma sum_of_app g l1 l2 : sum_of g (l1 ++ l2) = sum_of g l1 + sum_of g l2.
Proof.
  induction l1 as [|e l1 IH]; [done|].
  change (g e + sum_of g (l1 ++ l2) = g e + sum_of g l1 + sum_of g l2). lia.
Qed.
Lemma occurrences_nonneg n e : 0 ≤ occurrences n e.
Proof. unfold occurrences. induction (Shards e) as [|x l IH]; cbn [foldr]; [lia|]. unfold one_if at 1. destruct (bool_decide _); lia. Qed.
Lemma sum_of_nonneg g l : (∀ e, 0 ≤ g e) → 0 ≤ sum_of g l.
Proof. intros Hg. induction l as [|e l IH]; [done|]. change (0 ≤ g e + sum_of g l). specialize (Hg e). lia. Qed.

Lemma plus_swrap x n : plus (swrap 64 x) n = swrap 64 (x + n).
Proof. apply swrap_add_l. Qed.
Lemma plus_if_swrap b x : plus_if b (swrap 64 x) = swrap 64 (x + one_if b).
Proof. destruct b; cbn; [apply plus_swrap|]. by rewrite Z.add_0_r. Qed.

Lemma add_statistics_of l q : add (statistics_of l) q = statistics_of (l ++ [q]).
Proof.
  unfold add, statistics_of, statistics_by. cbn [Queries FailedQueries ScatteredQueries SingleShardQueries
    TotalDurationMillis AverageDurationMillis]. rewrite !plus_swrap, !plus_if_swrap, !sum_of_app. cbn. by rewrite !Z.add_0_r.
Qed.
Lemma merge_statistics_by G1 G2 :
  merge_statistics (statistics_by G1) (statistics_by G2) = statistics_by (λ g, G1 g + G2 g).
Proof.
  unfold merge_statistics, statistics_by. cbn. unfold plus. by rewrite !swrap_add_l, !swrap_add_r.
Qed.

Lemma counted_bump x n : 0 ≤ x → Some (plus (default 0 (counted x)) (swrap 64 n)) = Some (swrap 64 (x + n)).
Proof.
  intros Hx. unfold counted, plus. destruct (0 <? x) eqn:E; cbn; [by rewrite swrap_add_l, swrap_add_r|].
  apply Z.ltb_ge in E. replace x with 0 by lia. by rewrite swrap_add_r.
Qed.

Lemma bump_all_counts shards m (f : string → Z) :
  (∀ n, m !! n = counted (f n) ∧ 0 ≤ f n) →
  ∀ n, bump_all shards m !! n
    = counted (f n + foldr (λ x a, one_if (bool_decide (x = n)) + a) 0 shards).
Proof.
  unfold bump_all. revert m f. induction shards as [|x shards IH]; intros m f Hm n.
  { cbn. rewrite Z.add_0_r. apply Hm. }
  cbn [fold_left foldr]. rewrite (IH _ (λ n, f n + one_if (bool_decide (x = n)))).
  - f_equal. lia.
  - intros k. destruct (Hm k) as [Hk Hpos]. unfold bump. destruct (decide (x = k)) as [->|Hne].
    + rewrite lookup_insert_eq, bool_decide_eq_true_2, Hk by done. cbn [one_if].
      split; [|lia]. change 1 with (swrap 64 1) at 1. rewrite counted_bump by done.
      unfold counted. by rewrite (proj2 (Z.ltb_lt 0 (f k + 1))) by lia.
    + rewrite lookup_insert_ne, bool_decide_eq_false_2 by done. cbn. by rewrite Z.add_0_r.
Qed.
Lemma record_counts m G q :
  counts m G → counts (bump_all (Shards q) m) (λ g, G g + g q).
Proof.
  intros Hm n. destruct (Hm n) as [_ Hn]. pose proof (occurrences_nonneg n q). split; [|lia].
  by rewrite (bump_all_counts _ _ (λ n, G (occurrences n)) Hm).
Qed.

Section merging.
Context `{MapOrder}.

Lemma bump_pairs_lookup (l : list (string * Z)) m n :
  NoDup l.*1 →
  fold_left (λ m '(shard, queries), bump queries shard m) l m !! n
  = match (list_to_map l : gmap string Z) !! n with
    | Some q => Some (plus (default 0 (m !! n)) q)
    | None => m !! n
    end.
Proof.
  revert m. induction l as [|[k q] l IH]; intros m Hnd; [cbn; by rewrite lookup_empty|].
  cbn [fold_left list_to_map fst snd fmap list_fmap] in *. apply NoDup_cons in Hnd as [Hk Hnd].
  change (list_to_map ((k, q) :: l) : gmap string Z) with (<[k := q]> (list_to_map l : gmap string Z)).
  rewrite IH by done. unfold bump. destruct (decide (k = n)) as [->|Hne].
  - by rewrite (not_elem_of_list_to_map_1 l n), !lookup_insert_eq by done.
  - rewrite !lookup_insert_ne by done. done.
Qed.

Lemma merge_shards_counts m from G1 G2 :
  counts m G1 → counts (default ∅ from) G2 → counts (merge_shards m from) (λ g, G1 g + G2 g).
Proof.
  intros H1 H2 n. destruct (H1 n) as [E1 P1], (H2 n) as [E2 P2]. split; [|lia]. unfold merge_shards.
  rewrite bump_pairs_lookup by apply NoDup_fst_map_range.
  assert (list_to_map (map_range (default ∅ from)) = default ∅ from) as ->.
  { rewrite (list_to_map_proper _ (map_to_list (default ∅ from))); [apply list_to_map_to_list | apply NoDup_fst_map_range |].
    apply map_range_perm. }
  rewrite E2. unfold counted at 1. destruct (0 <? G2 _) eqn:E.
  - rewrite E1, counted_bump by done. unfold counted. by rewrite (proj2 (Z.ltb_lt 0 (_ + _))) by lia.
  - rewrite E1. apply Z.ltb_ge in E. f_equal. lia.
Qed.
End merging.

(** * The rolling windows

    A log of events with the second each was recorded in, oldest first; the
    clock starts after second 0 and does not go back. *)
Inductive ticks : list (Z * QueryEvent) → Prop :=
| ticks_nil : ticks []
| ticks_snoc l t q : ticks l → Forall (λ p, p.1 ≤ t) l → 0 < t → ticks (l ++ [(t, q)]).

Definition record_all (log : list (Z * QueryEvent)) : option (list timeBucket) :=
  fold_left (λ b p, b ← b; recordWindow p.1 p.2 b) log (Some (replicate (Z.to_nat rollingBuckets) zero_bucket)).

Definition in_class (i : nat) (p : Z * QueryEvent) : Prop := bucket_index p.1 = i.
#[export] Instance in_class_dec i p : Decision (in_class i p).
Proof. unfold in_class. apply _. Defined.
Definition class (i : nat) (l : list (Z * QueryEvent)) : list (Z * QueryEvent) := filter (in_class i) l.
Definition at_second (t : Z) (l : list (Z * QueryEvent)) : list QueryEvent := (filter (λ p, p.1 = t) l).*2.
Definition tally (l : list QueryEvent) : gmap string Z := fold_left (λ m e, bump_all (Shards e) m) l ∅.

(** What bucket [i] holds after the log: the events of the last second of its
    residue class. *)
Definition bucket_for (l : list (Z * QueryEvent)) (i : nat) : timeBucket :=
  match last (class i l) with
  | None => zero_bucket
  | Some (t, _) => {| second := t; b_statistics := statistics_of (at_second t l);
                      b_shards := Some (tally (at_second t l)) |}
  end.

Lemma bucket_index_mod t : bucket_index t = Z.to_nat (t mod 600).
Proof.
  unfold bucket_index, rollingBuckets. cbv zeta. destruct (Z.rem t 600 <? 0) eqn:E.
  - apply Z.ltb_lt in E. f_equal. pose proof (Z.quot_rem t 600 ltac:(lia)).
    apply (Z.mod_unique_pos _ _ (Z.quot t 600 - 1)); [|lia]. pose proof (Z.rem_bound_abs t 600 ltac:(lia)). lia.
  - apply Z.ltb_ge in E. f_equal. pose proof (Z.quot_rem t 600 ltac:(lia)).
    apply (Z.mod_unique_pos _ _ (Z.quot t 600)); [|lia]. pose proof (Z.rem_bound_abs t 600 ltac:(lia)). lia.
Qed.
Lemma bucket_index_lt t : (bucket_index t < 600)%nat.
Proof. rewrite bucket_index_mod. pose proof (Z.mod_pos_bound t 600). lia. Qed.

Lemma class_snoc i l t q :
  class i (l ++ [(t, q)]) = class i l ++ (if decide (bucket_index t = i) then [(t, q)] else []).
Proof.
  unfold class. rewrite filter_app, filter_cons, filter_nil.
  by destruct (decide (in_class i (t, q))), (decide (bucket_index t = i)).
Qed.
Lemma at_second_snoc t l t' q :
  at_second t (l ++ [(t', q)]) = at_second t l ++ (if decide (t' = t) then [q] else []).
Proof.
  unfold at_second. rewrite filter_app, filter_cons, filter_nil, fmap_app. cbn.
  by destruct (decide (t' = t)).
Qed.

Lemma last_of_class l i t q :
  ticks l → last (class i l) = Some (t, q) → bucket_index t = i ∧ 0 < t ∧ ∀ p, p ∈ class i l → p.1 ≤ t.
Proof.
  intros Hl. revert t q. induction Hl as [|l t0 q0 Hl IH Hle Hpos]; intros t q; [done|]. rewrite class_snoc.
  destruct (decide (bucket_index t0 = i)) as [Hi|].
  - rewrite last_snoc. intros [= <- <-]. split_and!; [done..|]. intros p [Hp|Hp]%elem_of_app.
    + unfold class in Hp. apply list_elem_of_filter in Hp as [_ Hp]. rewrite Forall_forall in Hle. by apply Hle.
    + apply list_elem_of_singleton in Hp as ->. done.
  - rewrite app_nil_r. apply IH.
Qed.

(** No event of the log has the second of a new one unless the last of its
    class has. *)
Lemma at_second_last t l :
  ticks l → Forall (λ p, p.1 ≤ t) l → at_second t l ≠ [] →
  ∃ q, last (class (bucket_index t) l) = Some (t, q).
Proof.
  intros Hl Hle Hne. unfold at_second in Hne. destruct (filter _ l) as [|p f] eqn:E; [done|].
  assert (p ∈ filter (λ p, p.1 = t) l) as Hp by (rewrite E; by left).
  apply list_elem_of_filter in Hp as [Hp1 Hp].
  assert (p ∈ class (bucket_index t) l) as Hin.
  { apply list_elem_of_filter. split; [|done]. unfold in_class. by rewrite Hp1. }
  destruct (last (class (bucket_index t) l)) as [[t0 q0]|] eqn:Hlast.
  - exists q0. destruct (last_of_class _ _ _ _ Hl Hlast) as (_ & _ & Hmax). rewrite Forall_forall in Hle.
    assert ((t0, q0) ∈ class (bucket_index t) l) as Hin0
      by (apply last_Some in Hlast as [l' ->]; apply elem_of_app; right; by left).
    apply list_elem_of_filter in Hin0 as [_ Hin0]. specialize (Hle _ Hin0). specialize (Hmax p Hin). cbn in Hle.
    do 2 f_equal. lia.
  - apply last_None in Hlast. rewrite Hlast in Hin. by apply elem_of_nil in Hin.
Qed.

Lemma record_bucket_step l t q :
  ticks l → Forall (λ p, p.1 ≤ t) l → 0 < t →
  record_bucket t q (bucket_for l (bucket_index t)) = Some (bucket_for (l ++ [(t, q)]) (bucket_index t)).
Proof.
  intros Hl Hle Ht. pose proof (at_second_last t l Hl Hle) as Hlast0. unfold bucket_for.
  rewrite class_snoc, decide_True, last_snoc by done. rewrite at_second_snoc, decide_True by done.
  rewrite <- add_statistics_of.
  replace (tally (at_second t l ++ [q])) with (bump_all (Shards q) (tally (at_second t l)))
    by (unfold tally; by rewrite fold_left_app).
  unfold record_bucket. destruct (last (class (bucket_index t) l)) as [[t0 q0]|] eqn:Hlast;
    cbn [second b_shards b_statistics zero_bucket].
  - destruct (decide (t0 = t)) as [->|Hne]; [by rewrite decide_False by auto|]. rewrite decide_True by done.
    destruct (at_second t l) eqn:E; [done|]. destruct Hlast0 as [? H1]; [done|]. congruence.
  - rewrite decide_True by lia. destruct (at_second t l) eqn:E; [done|]. destruct Hlast0 as [? H1]; [done|]. congruence.
Qed.

Lemma bucket_for_other l t q i :
  ticks l → bucket_index t ≠ i → bucket_for (l ++ [(t, q)]) i = bucket_for l i.
Proof.
  intros Hl Hne. unfold bucket_for. rewrite class_snoc, decide_False, app_nil_r by done.
  destruct (last (class i l)) as [[t0 q0]|] eqn:Hlast; [|done].
  destruct (last_of_class _ _ _ _ Hl Hlast) as (Hi0 & _).
  rewrite at_second_snoc, decide_False, app_nil_r; [done|]. by intros ->.
Qed.

Lemma recordWindow_step l t q :
  ticks l → Forall (λ p, p.1 ≤ t) l → 0 < t →
  recordWindow t q (bucket_for l <$> seq 0 600) = Some (bucket_for (l ++ [(t, q)]) <$> seq 0 600).
Proof.
  intros Hl Hle Ht. pose proof (bucket_index_lt t) as Hlt. unfold recordWindow.
  rewrite list_lookup_fmap, lookup_seq_lt by done. cbn [fmap option_fmap option_map mbind option_bind].
  rewrite Nat.add_0_l, record_bucket_step by done. cbn [mbind option_bind]. f_equal. apply list_eq. intros i.
  destruct (decide (i < 600)%nat) as [Hi|Hi].
  - destruct (decide (bucket_index t = i)) as [<-|Hne].
    + rewrite list_lookup_insert_eq by (rewrite length_fmap, length_seq; done).
      by rewrite list_lookup_fmap, lookup_seq_lt.
    + rewrite list_lookup_insert_ne by done. rewrite !list_lookup_fmap, lookup_seq_lt by done. cbn.
      by rewrite bucket_for_other.
  - rewrite !lookup_ge_None_2; [done | |]; rewrite ?length_insert, length_fmap, length_seq; lia.
Qed.

Lemma record_all_buckets l : ticks l → record_all l = Some (bucket_for l <$> seq 0 600).
Proof.
  intros Hl. induction Hl as [|l t q Hl IH Hle Ht].
  - reflexivity.
  - unfold record_all in *. rewrite fold_left_app, IH. cbn [fold_left fst snd mbind option_bind].
    by apply recordWindow_step.
Qed.

Lemma tally_counts l : counts (tally l) (λ g, sum_of g l).
Proof.
  unfold tally. induction l as [|q l IH] using rev_ind; [intros n; cbn; split; [by rewrite lookup_empty | done]|].
  rewrite fold_left_app. cbn [fold_left]. intros n. rewrite sum_of_app. cbn [sum_of foldr]. rewrite Z.add_0_r.
  exact (record_counts _ _ q IH n).
Qed.

(** The sum over the buckets in [js]. *)
Definition sum_over (F : nat → Z) (js : list nat) : Z := foldr (λ i a, F i + a) 0 js.

Lemma sum_over_ext F G js : (∀ i, i ∈ js → F i = G i) → sum_over F js = sum_over G js.
Proof.
  induction js as [|i js IH]; intros H; [done|]. change (F i + sum_over F js = G i + sum_over G js).
  rewrite H by (by left). rewrite IH; [done|]. intros j Hj. apply H. by right.
Qed.
Lemma sum_over_add F G js : sum_over (λ i, F i + G i) js = sum_over F js + sum_over G js.
Proof.
  induction js as [|i js IH]; [done|].
  change (F i + G i + sum_over (λ i, F i + G i) js = F i + sum_over F js + (G i + sum_over G js)). lia.
Qed.
Lemma sum_over_zero F js : (∀ i, i ∈ js → F i = 0) → sum_over F js = 0.
Proof. intros H. rewrite (sum_over_ext F (λ _, 0)) by done. by induction js as [|i js IH]; [|apply IH; intros; apply H; right]. Qed.
Lemma sum_over_single j v js : j ∈ js → NoDup js → sum_over (λ i, if decide (j = i) then v else 0) js = v.
Proof.
  intros Hin Hnd. induction Hnd as [|i js Hi Hnd IH]; [by apply elem_of_nil in Hin|].
  change ((if decide (j = i) then v else 0) + sum_over (λ i, if decide (j = i) then v else 0) js = v).
  apply elem_of_cons in Hin as [->|Hin].
  - rewrite decide_True, sum_over_zero by (done || (intros k Hk; rewrite decide_False by congruence; done)). lia.
  - rewrite decide_False by congruence. rewrite IH by done. lia.
Qed.

(** Every event is in the class of exactly one bucket. *)
Lemma sum_over_classes g l :
  sum_over (λ i, sum_of g (class i l).*2) (seq 0 600) = sum_of g l.*2.
Proof.
  induction l as [|[t q] l IH] using rev_ind.
  { apply sum_over_zero. done. }
  rewrite fmap_app, sum_of_app, <- IH. replace (sum_of g [(t, q)].*2) with (g q) by (cbn; lia).
  rewrite <- (sum_over_single (bucket_index t) (g q) (seq 0 600));
    [|apply elem_of_seq; pose proof (bucket_index_lt t); lia | apply NoDup_seq].
  rewrite <- sum_over_add. apply sum_over_ext. intros i _. rewrite class_snoc, fmap_app, sum_of_app.
  case_decide; cbn; lia.
Qed.

Definition in_window (now window : Z) (l : list (Z * QueryEvent)) : list (Z * QueryEvent) :=
  filter (λ p, now - window < p.1 ≤ now) l.

(** What bucket [i] contributes to a window. *)
Definition contribution (l : list (Z * QueryEvent)) (now window : Z) (i : nat) : list QueryEvent :=
  let b := bucket_for l i in
  if (second b <? now - window + 1) || (now <? second b) then []
  else match last (class i l) with Some (t, _) => at_second t l | None => [] end.

Lemma filter_none {A} (P : A → Prop) `{∀ x, Decision (P x)} (l : list A) :
  (∀ x, x ∈ l → ¬ P x) → filter P l = [].
Proof.
  induction l as [|x l IH]; intros H'; [done|]. rewrite filter_cons, decide_False by (apply H'; by left).
  apply IH. intros y Hy. apply H'. by right.
Qed.

Lemma contribution_class l now window i :
  ticks l → Forall (λ p, p.1 ≤ now) l → window ≤ 600 →
  contribution l now window i = (class i (in_window now window l)).*2.
Proof.
  intros Hl Hnow Hw. unfold contribution, bucket_for. cbv zeta.
  replace (class i (in_window now window l)) with (filter (λ p, in_class i p ∧ now - window < p.1 ≤ now) l)
    by (unfold class, in_window; by rewrite list_filter_filter).
  rewrite Forall_forall in Hnow.
  destruct (last (class i l)) as [[t q]|] eqn:Hlast; cbn [second zero_bucket].
  - destruct (last_of_class _ _ _ _ Hl Hlast) as (Hi & Ht & Hmax).
    assert ((t, q) ∈ class i l) as Hin by (apply last_Some in Hlast as [l' ->]; apply elem_of_app; right; by left).
    assert (t ≤ now) as Htn by (apply list_elem_of_filter in Hin as [_ Hin]; exact (Hnow _ Hin)).
    assert (∀ p, p ∈ l → in_class i p → p.1 ≤ t ∧ (now - window < p.1 → p.1 = t)) as Hclass.
    { intros p Hp Hpi. assert (p.1 ≤ t) as Hle by (apply Hmax, list_elem_of_filter; done). split; [done|].
      intros Hcut. unfold in_class in Hpi. rewrite bucket_index_mod in Hpi, Hi.
      pose proof (Z.mod_pos_bound p.1 600). pose proof (Z.mod_pos_bound t 600).
      assert (p.1 mod 600 = t mod 600) as E by lia.
      pose proof (Z.div_mod p.1 600). pose proof (Z.div_mod t 600). lia. }
    rewrite (proj2 (Z.ltb_ge now t)) by done. rewrite orb_false_r.
    destruct (t <? now - window + 1) eqn:Hcut.
    + apply Z.ltb_lt in Hcut. rewrite filter_none; [done|]. intros p Hp [Hpi Hpw]. destruct (Hclass p Hp Hpi) as [Hle Heq]. lia.
    + apply Z.ltb_ge in Hcut. unfold at_second. f_equal. apply filter_ext_in. intros p Hp. split.
      * intros Hpt. unfold in_class. rewrite Hpt. split; [done | lia].
      * intros [Hpi Hpw]. destruct (Hclass p Hp Hpi) as [_ Heq]. apply Heq. lia.
  - apply last_None in Hlast. rewrite filter_none; [by destruct (_ || _)|].
    intros p Hp [Hpi _]. assert (p ∈ class i l) as Hin by (apply list_elem_of_filter; done).
    rewrite Hlast in Hin. by apply elem_of_nil in Hin.
Qed.

(** Counters and shard counts with the exact values of [G]. *)
Definition measures (s : Statistics) (m : gmap string Z) (G : (QueryEvent → Z) → Z) : Prop :=
  s = statistics_by G ∧ counts m G.

Lemma measures_ext s m G1 G2 : (∀ g, G1 g = G2 g) → measures s m G1 → measures s m G2.
Proof.
  intros HG [-> Hm]. split; [unfold statistics_by; by rewrite !HG|]. intros n. rewrite <- HG. apply Hm.
Qed.

Lemma bucket_measures l i :
  measures (b_statistics (bucket_for l i)) (default ∅ (b_shards (bucket_for l i)))
    (λ g, sum_of g match last (class i l) with Some (t, _) => at_second t l | None => [] end).
Proof.
  unfold bucket_for. destruct (last (class i l)) as [[t q]|]; cbn.
  - split; [done | apply tally_counts].
  - split; [done|]. intros n. cbn. by rewrite lookup_empty.
Qed.

Lemma summarize_measures `{MapOrder} l now window js s m G :
  0 ≤ now ≤ max_int64 → 0 < window ≤ 600 →
  measures s m G →
  let '(s', m') := fold_left (λ '(s, shards) b,
    if (second b <? swrap 64 (now - window + 1)) || (now <? second b) then (s, shards)
    else (merge_statistics s (b_statistics b), merge_shards shards (b_shards b)))
    (bucket_for l <$> js) (s, m) in
  measures s' m' (λ g, G g + sum_over (λ i, sum_of g (contribution l now window i)) js).
Proof.
  intros Hnow Hw. rewrite swrap_small by (unfold min_int64, max_int64 in *; lia).
  revert s m G. induction js as [|i js IH]; intros s m G Hm.
  { cbn. eapply measures_ext, Hm. intros g. cbn. lia. }
  cbn [fmap list_fmap fold_left].
  assert (∀ s m, measures s m (λ g, G g + sum_of g (contribution l now window i)) →
    let '(s', m') := fold_left (λ '(s, shards) b,
      if (second b <? now - window + 1) || (now <? second b) then (s, shards)
      else (merge_statistics s (b_statistics b), merge_shards shards (b_shards b)))
      (bucket_for l <$> js) (s, m) in
    measures s' m' (λ g, G g + sum_over (λ i, sum_of g (contribution l now window i)) (i :: js))) as Hgo.
  { intros s0 m0 H0. specialize (IH s0 m0 _ H0). destruct (fold_left _ _ _) as [s' m'].
    eapply measures_ext, IH. intros g. cbn. unfold sum_over. lia. }
  unfold contribution in Hgo at 1. cbv zeta in Hgo.
  destruct (_ || _) eqn:E; apply Hgo; clear Hgo; rewrite ?E.
  - eapply measures_ext, Hm. intros g. cbn. lia.
  - destruct Hm as [-> Hm], (bucket_measures l i) as [-> Hb]. split; [apply merge_statistics_by|].
    by apply merge_shards_counts.
Qed.

(** C32: the ring of 600 one-second buckets is exact: after any log of
    queries whose clock did not go back, each rolling window counts precisely
    the queries of its last seconds, in total and per Burrow. *)
Theorem rolling_window_exact `{MapOrder} log now window :
  ticks log → Forall (λ p, p.1 ≤ now) log → 0 ≤ now ≤ max_int64 → window ∈ windows.*2 →
  ∃ buckets, record_all log = Some buckets ∧
    let '(s, m) := summarizeBuckets buckets now window in
    measures s m (λ g, sum_of g (in_window now window log).*2).
Proof.
  intros Hl Hle Hnow Hw. eexists. split; [by apply record_all_buckets|].
  assert (0 < window ≤ 600) as Hw'.
  { cbn in Hw. rewrite !elem_of_cons, elem_of_nil in Hw. lia. }
  unfold summarizeBuckets. cbv zeta.
  assert (measures no_statistics ∅ (λ _, 0)) as H0 by (split; [done|]; intros n; cbn; by rewrite lookup_empty).
  pose proof (summarize_measures log now window (seq 0 600) _ _ _ Hnow Hw' H0) as Hm.
  destruct (fold_left _ _ _) as [s m]. eapply measures_ext, Hm. intros g. cbn beta. rewrite Z.add_0_l.
  rewrite <- sum_over_classes. apply sum_over_ext. intros i _. by rewrite contribution_class by (done || lia).
Qed.

(** * The label cache *)

(** The cached statements, oldest first. *)
Definition queue (c : label_cache) : list string :=
  drop (labelNext c) (labelOrder c) ++ take (labelNext c) (labelOrder c).
(** The map and the order agree; positions rotate only when the cache is full. *)
Record cache_wf (c : label_cache) : Prop := {
  cw_nodup : NoDup (labelOrder c);
  cw_dom : ∀ sql, is_Some (labels c !! sql) ↔ sql ∈ labelOrder c;
  cw_label : ∀ sql label, labels c !! sql = Some label → label = Normalize sql;
  cw_length : (length (labelOrder c) ≤ maxSummaryLabels)%nat;
  cw_next : (labelNext c < maxSummaryLabels)%nat;
  cw_full : labelNext c ≠ 0%nat → length (labelOrder c) = maxSummaryLabels;
}.

Lemma cache_size c : cache_wf c → size (labels c) = length (labelOrder c).
Proof.
  intros [Hnd Hdom _ _ _ _]. rewrite <- (size_dom (D := gset string)), <- (size_list_to_set (C := gset string)) by done.
  f_equal. apply set_eq. intros sql. by rewrite elem_of_dom, elem_of_list_to_set.
Qed.

(** The cache after a miss, with room and without. *)
Definition appended (sql : string) (c : label_cache) : label_cache := {|
  labels := <[sql := Normalize sql]> (labels c); labelOrder := labelOrder c ++ [sql]; labelNext := labelNext c |}.
Definition rotated (sql oldest : string) (c : label_cache) : label_cache := {|
  labels := <[sql := Normalize sql]> (delete oldest (labels c));
  labelOrder := <[labelNext c := sql]> (labelOrder c);
  labelNext := (S (labelNext c) mod maxSummaryLabels)%nat |}.

Lemma cache_append sql c :
  cache_wf c → sql ∉ labelOrder c → (length (labelOrder c) < maxSummaryLabels)%nat →
  cache_wf (appended sql c) ∧ queue (appended sql c) = queue c ++ [sql].
Proof.
  intros [Hnd Hdom Hlabel Hlen Hnext Hfull] Hnew Hsize.
  assert (labelNext c = 0%nat) as H0.
  { destruct (decide (labelNext c = 0%nat)) as [|Hne]; [done|]. specialize (Hfull Hne). lia. }
  split; [|unfold queue; cbn; by rewrite H0, !drop_0, !take_0, !app_nil_r].
  split; cbn [labels labelOrder labelNext appended]; [| | | rewrite length_app; cbn; lia | done | lia].
  - apply NoDup_app. split_and!; [done| |apply NoDup_singleton]. by intros x Hx ->%list_elem_of_singleton.
  - intros x. rewrite elem_of_app, list_elem_of_singleton, <- Hdom. destruct (decide (x = sql)) as [->|Hne].
    + rewrite lookup_insert_eq. naive_solver.
    + rewrite lookup_insert_ne by done. naive_solver.
  - intros x l. destruct (decide (x = sql)) as [->|Hne]; [rewrite lookup_insert_eq; congruence|].
    rewrite lookup_insert_ne by done. apply Hlabel.
Qed.

(** [labelOrder] is full, with [t] before the oldest entry and [d] behind it. *)
Lemma rotated_wf sql oldest c t d :
  cache_wf c → sql ∉ labelOrder c → length (labelOrder c) = maxSummaryLabels →
  labelOrder c = t ++ oldest :: d → length t = labelNext c →
  labelOrder (rotated sql oldest c) = t ++ sql :: d ∧ cache_wf (rotated sql oldest c).
Proof.
  intros [Hnd Hdom Hlabel Hlen Hnext Hfull] Hnew Hsize Eo Ht.
  assert (labelOrder (rotated sql oldest c) = t ++ sql :: d) as Ei.
  { cbn. rewrite Eo, <- Ht, insert_app_r_alt by lia. by rewrite Nat.sub_diag. }
  split; [done|]. rewrite Eo in Hnd, Hnew. apply NoDup_app in Hnd as (Hndt & Hdis & Hndd).
  apply NoDup_cons in Hndd as [Hod Hndd]. rewrite elem_of_app, elem_of_cons in Hnew. split.
  - rewrite Ei. apply NoDup_app. split_and!; [done| |apply NoDup_cons; tauto].
    intros x Hx [->|Hxd]%elem_of_cons; [tauto|]. apply (Hdis x Hx). by right.
  - intros x. rewrite Ei, elem_of_app, elem_of_cons. pose proof (Hdom x) as Hx.
    rewrite Eo, elem_of_app, elem_of_cons in Hx. cbn [labels rotated].
    destruct (decide (x = sql)) as [->|Hne]; [rewrite lookup_insert_eq; naive_solver|].
    rewrite lookup_insert_ne by done. destruct (decide (x = oldest)) as [->|Hne'].
    + rewrite lookup_delete_eq. split; [by intros []|]. intros [Hx'|[?|Hx']]; [|done|done].
      exfalso. apply (Hdis _ Hx'). by left.
    + rewrite lookup_delete_ne by done. naive_solver.
  - intros x l. cbn [labels rotated]. destruct (decide (x = sql)) as [->|Hne]; [rewrite lookup_insert_eq; congruence|].
    rewrite lookup_insert_ne by done. intros [_ Hx]%lookup_delete_Some. by apply Hlabel.
  - cbn. rewrite length_insert. lia.
  - by apply Nat.mod_upper_bound.
  - intros _. cbn. by rewrite length_insert.
Qed.

Lemma cache_rotate sql c :
  cache_wf c → sql ∉ labelOrder c → length (labelOrder c) = maxSummaryLabels →
  ∃ oldest, labelOrder c !! labelNext c = Some oldest ∧
    cache_wf (rotated sql oldest c) ∧ queue (rotated sql oldest c) = tail (queue c) ++ [sql].
Proof.
  intros Hc Hnew Hsize. pose proof (cw_next c Hc) as Hnext.
  destruct (lookup_lt_is_Some_2 (labelOrder c) (labelNext c)) as [oldest Hold]; [lia|].
  set (t := take (labelNext c) (labelOrder c)). set (d := drop (S (labelNext c)) (labelOrder c)).
  assert (labelOrder c = t ++ oldest :: d) as Eo by (symmetry; by apply take_drop_middle).
  assert (length t = labelNext c) as Ht by (unfold t; rewrite length_take; lia).
  destruct (rotated_wf sql oldest c t d Hc Hnew Hsize Eo Ht) as [Ei Hwf].
  exists oldest. split_and!; [done..|].
  assert (queue c = (oldest :: d) ++ t) as ->
    by (unfold queue; rewrite Eo; rewrite <- Ht; by rewrite drop_app_length, take_app_length).
  cbn [tail app]. unfold queue. rewrite Ei. cbn [labelNext rotated].
  destruct (decide (S (labelNext c) = maxSummaryLabels)) as [Hwrap|Hno].
  - rewrite Hwrap, Nat.Div0.mod_same, drop_0, take_0, app_nil_r.
    assert (d = []) as ->; [|done]. apply length_zero_iff_nil. unfold d. rewrite length_drop. lia.
  - rewrite Nat.mod_small by lia. rewrite cons_middle, app_assoc.
    replace (S (labelNext c)) with (length (t ++ [sql])) by (rewrite length_app; cbn; lia).
    rewrite drop_app_length, take_app_length. by rewrite app_assoc.
Qed.

Lemma summaryLabel_fifo sql c :
  cache_wf c →
  ∃ c', summaryLabel sql c = Some (Normalize sql, c') ∧ cache_wf c' ∧
    queue c' = if decide (sql ∈ queue c) then queue c
      else if decide (length (queue c) < maxSummaryLabels)%nat then queue c ++ [sql]
      else tail (queue c) ++ [sql].
Proof.
  intros Hc. pose proof (cw_length c Hc) as Hlen. unfold summaryLabel.
  assert (sql ∈ queue c ↔ sql ∈ labelOrder c) as Hq by (unfold queue; by rewrite (comm (++)), take_drop).
  assert (length (queue c) = length (labelOrder c)) as Hlq
    by (unfold queue; rewrite length_app, length_drop, length_take; lia).
  destruct (labels c !! sql) as [label|] eqn:Hl.
  { exists c. rewrite decide_True by (apply Hq, (cw_dom c Hc); eauto). by rewrite (cw_label c Hc sql label Hl). }
  assert (sql ∉ labelOrder c) as Hnew by (rewrite <- (cw_dom c Hc), Hl; by intros []).
  rewrite decide_False by (by rewrite Hq). rewrite cache_size, Hlq by done.
  destruct (length (labelOrder c) <? maxSummaryLabels)%nat eqn:Hsize.
  - apply Nat.ltb_lt in Hsize. rewrite decide_True by done. exists (appended sql c).
    by split; [|apply cache_append].
  - apply Nat.ltb_ge in Hsize. rewrite decide_False by lia.
    destruct (cache_rotate sql c Hc Hnew) as (oldest & Hold & Hr); [lia|]. rewrite Hold. by exists (rotated sql oldest c).
Qed.

(** the cache of normalised statements is a bounded queue: it
    never panics nor holds more than 100 entries, always answers with the
    normalised statement, keeps its entries on a hit, and on a miss appends the
    statement, dropping the oldest entry when it is full. *)
Theorem label_cache_fifo sql c :
  cache_wf c →
  ∃ c', summaryLabel sql c = Some (Normalize sql, c') ∧ cache_wf c' ∧
    queue c' = if decide (sql ∈ queue c) then queue c
      else if decide (length (queue c) < maxSummaryLabels)%nat then queue c ++ [sql]
      else tail (queue c) ++ [sql].
Proof. apply summaryLabel_fifo. Qed.

Lemma label_cache_step sql c :
  cache_wf c → ∃ c', summaryLabel sql c = Some (Normalize sql, c') ∧ cache_wf c'.
Proof. intros Hc. destruct (summaryLabel_fifo sql c Hc) as (c' & ? & ? & _). eauto. Qed.

(** * Summaries *)

Lemma better_candidate_spec a b :
  better_candidate a b = true ↔
  Queries (s_statistics a) < Queries (s_statistics b) ∨
  (Queries (s_statistics a) = Queries (s_statistics b) ∧ lastSeenAt a < lastSeenAt b).
Proof. unfold better_candidate. rewrite orb_true_iff, andb_true_iff, !Z.ltb_lt, Z.eqb_eq. done. Qed.

(** The candidate is one of the entries, and no entry is used less. *)
Lemma eviction_candidate_min items c :
  eviction_candidate items = Some c →
  c ∈ items ∧ ∀ p, p ∈ items → better_candidate p.2 c.2 = false.
Proof.
  revert c. unfold eviction_candidate. induction items as [|q items IH] using rev_ind; intros c; [done|].
  rewrite fold_left_app. cbn [fold_left]. destruct (fold_left _ items None) as [d|] eqn:E.
  - destruct (IH d eq_refl) as [Hd Hmin].
    assert (∀ x y, better_candidate x y = false ↔ ¬ better_candidate x y = true) as Hf by (intros; by rewrite not_true_iff_false).
    setoid_rewrite elem_of_app. setoid_rewrite list_elem_of_singleton.
    destruct (better_candidate q.2 d.2) eqn:Hb; intros [= <-].
    + split; [by right|]. intros p [Hp| ->]; apply Hf; [specialize (Hmin p Hp); apply Hf in Hmin|];
        rewrite better_candidate_spec in *; lia.
    + split; [by left|]. intros p [Hp| ->]; auto.
  - intros [= <-]. assert (items = []) as ->.
    { destruct items as [|i items _] using rev_ind; [done|]. rewrite fold_left_app in E. cbn in E.
      destruct (fold_left _ items None); [by destruct (better_candidate _ _) | done]. }
    split; [by left|]. intros p ->%list_elem_of_singleton. apply not_true_iff_false. rewrite better_candidate_spec. lia.
Qed.

Section summaries.
Context `{MapOrder}.

Definition updated (now : Z) (query : QueryEvent) (item : summary) : summary := {|
  s_statistics := add (s_statistics item) query; s_shards := bump_all (Shards query) (s_shards item);
  lastSeenAt := now |}.

Lemma evict_least (m : gmap string summary) :
  m ≠ ∅ → ∃ label item, m !! label = Some item ∧ evictSummary m = delete label m ∧
    ∀ l i, m !! l = Some i → better_candidate i item = false.
Proof.
  intros Hm. unfold evictSummary. destruct (eviction_candidate (map_range m)) as [[label item]|] eqn:E.
  - destruct (eviction_candidate_min _ _ E) as [Hin Hmin]. exists label, item. split_and!; [by apply elem_of_map_range | done |].
    intros l i Hl. apply (Hmin (l, i)). by apply elem_of_map_range.
  - exfalso. apply Hm. destruct (map_range m) as [|p items] eqn:Er.
    + apply map_to_list_empty_iff, Permutation_nil_r. rewrite <- map_range_perm. by rewrite Er.
    + unfold eviction_candidate in E. cbn in E. clear Er. revert p E. induction items as [|q items IH]; intros p E; [done|].
      cbn in E. destruct (better_candidate _ _); by eapply IH.
Qed.

Lemma recordSummary_bounded label now query m :
  (size m ≤ maxQuerySummaries)%nat →
  let m' := recordSummary label now query m in
  (size m' ≤ maxQuerySummaries)%nat ∧
  m' !! label = Some (updated now query (default new_summary (m !! label))) ∧
  ((∀ other, other ≠ label → m' !! other = m !! other) ∨
   (m !! label = None ∧ size m = maxQuerySummaries ∧
    ∃ evicted item, m !! evicted = Some item ∧ evicted ≠ label ∧
      (∀ other, other ≠ label → m' !! other = delete evicted m !! other) ∧
      ∀ other item', m !! other = Some item' → better_candidate item' item = false)).
Proof.
  intros Hsize. unfold recordSummary. cbv zeta. fold (updated now query).
  assert (∀ x : gmap string summary, size (alter (updated now query) label x) = size x) as Hsa.
  { intros x. rewrite <- !(size_dom (D := gset string)). by rewrite dom_alter_L. }
  rewrite Hsa. destruct (m !! label) as [item|] eqn:Hl; cbn [default].
  { split_and!; [done | by rewrite lookup_alter_eq, Hl |]. left. intros other Hne. by rewrite lookup_alter_ne. }
  destruct (maxQuerySummaries <=? size m)%nat eqn:Hfull.
  - apply Nat.leb_le in Hfull. destruct (evict_least m) as (evicted & item & He & -> & Hmin).
    { intros ->. rewrite map_size_empty in Hfull. unfold maxQuerySummaries in Hfull. lia. }
    assert (evicted ≠ label) as Hne by congruence.
    rewrite map_size_insert_None by (rewrite lookup_delete_ne by done; done).
    rewrite (map_size_delete_Some _ _ (mk_is_Some _ _ He)). unfold maxQuerySummaries in *. split_and!; [lia| |].
    + by rewrite lookup_alter_eq, lookup_insert_eq.
    + right. split_and!; [done | lia |]. exists evicted, item. split_and!; [done..| |done].
      intros other Ho. by rewrite lookup_alter_ne, lookup_insert_ne by done.
  - apply Nat.leb_gt in Hfull. rewrite map_size_insert_None by done. split_and!; [lia| |].
    + by rewrite lookup_alter_eq, lookup_insert_eq.
    + left. intros other Ho. by rewrite lookup_alter_ne, lookup_insert_ne by done.
Qed.
(** at most 100 query shapes are kept: recording a query updates
    the summary of its shape, creating it if needed, and changes no other one,
    except that a new shape beyond the limit first drops one that has been used
    least (and, among those, was seen longest ago). *)
Theorem summaries_keep_most_used label now query m :
  (size m ≤ maxQuerySummaries)%nat →
  let m' := recordSummary label now query m in
  (size m' ≤ maxQuerySummaries)%nat ∧
  m' !! label = Some (updated now query (default new_summary (m !! label))) ∧
  ((∀ other, other ≠ label → m' !! other = m !! other) ∨
   (m !! label = None ∧ size m = maxQuerySummaries ∧
    ∃ evicted item, m !! evicted = Some item ∧ evicted ≠ label ∧
      (∀ other, other ≠ label → m' !! other = delete evicted m !! other) ∧
      ∀ other item', m !! other = Some item' → better_candidate item' item = false)).
Proof. apply recordSummary_bounded. Qed.

Lemma summaries_bounded label now query m :
  (size m ≤ maxQuerySummaries)%nat → (size (recordSummary label now query m) ≤ maxQuerySummaries)%nat.
Proof. intros Hm. by destruct (recordSummary_bounded label now query m Hm). Qed.
End summaries.

(** * Normalised shapes *)

Lemma replace_go_elem m repl prev k s c : c ∈ replace_go m repl prev k s → c ∈ s ∨ c ∈ repl.
Proof.
  revert prev k. induction s as [|d t IH]; intros prev k; [by left|]. cbn [replace_go].
  rewrite elem_of_cons. destruct k as [|k]; [|intros H; destruct (IH _ _ H); tauto].
  destruct (m prev (d :: t)) as [[|n]|].
  - intros [->|H]%elem_of_cons; [tauto | destruct (IH _ _ H); tauto].
  - intros [H|H]%elem_of_app; [tauto | destruct (IH _ _ H); tauto].
  - intros [->|H]%elem_of_cons; [tauto | destruct (IH _ _ H); tauto].
Qed.

(** The number of quotes. *)
Definition quotes (s : bytes) : nat := length (filter (λ c, c = "'"%char) s).
Lemma quotes_cons c s : quotes (c :: s) = ((if decide (c = "'"%char) then 1 else 0) + quotes s)%nat.
Proof. unfold quotes. rewrite filter_cons. by case_decide. Qed.
Lemma quotes_zero s : quotes s = 0%nat → "'"%char ∉ s.
Proof.
  unfold quotes. intros H%length_zero_iff_nil Hin.
  assert ("'"%char ∈ filter (λ c, c = "'"%char) s) as Hf by (by apply list_elem_of_filter).
  rewrite H in Hf. by apply elem_of_nil in Hf.
Qed.

(** Inside a literal, with an odd number of quotes left, the literal is closed
    and an even number is left behind it. *)
Lemma literal_end_odd best n s :
  Nat.odd (quotes s) = true →
  ∃ k, literal_end best n s = Some (n + k)%nat ∧ (0 < k)%nat ∧ Nat.even (quotes (drop k s)) = true.
Proof.
  remember (length s) as len eqn:Hlen. revert best n s Hlen.
  induction (lt_wf len) as [len _ IH]. intros best n s -> Hodd.
  destruct s as [|c t]; [done|]. rewrite quotes_cons in Hodd. cbn [literal_end].
  destruct (decide (c = "'"%char)) as [->|].
  - cbn [plus Nat.add] in Hodd. rewrite Nat.odd_succ in Hodd. destruct t as [|d t]; [exists 1%nat; split_and!; [f_equal; lia | lia | done]|].
    destruct (decide (d = "'"%char)) as [->|].
    + rewrite quotes_cons, decide_True in Hodd by done. cbn [plus Nat.add] in Hodd. rewrite Nat.even_succ in Hodd.
      destruct (IH (length t) ltac:(cbn; lia) (Some (S n)) (S (S n)) t eq_refl Hodd) as (k & -> & Hk & He).
      exists (S (S k)). split_and!; [f_equal; lia | lia | done].
    + exists 1%nat. split_and!; [f_equal; lia | lia | done].
  - destruct (IH (length t) ltac:(cbn; lia) best (S n) t eq_refl Hodd) as (k & -> & Hk & He).
    exists (S k). split_and!; [f_equal; lia | lia | done].
Qed.

Lemma stringValue_skip repl p p' k t :
  replace_go stringValue repl p k t = replace_go stringValue repl p' 0 (drop k t).
Proof.
  revert p p' k. induction t as [|c t IH]; intros p p' [|k]; [done..| |].
  - cbn [drop replace_go]. change (stringValue p (c :: t)) with (stringValue p' (c :: t)).
    by destruct (stringValue p' (c :: t)) as [[|n]|].
  - cbn [drop replace_go]. apply IH.
Qed.

Lemma literals_replaced repl s :
  "'"%char ∉ repl → Nat.even (quotes s) = true → "'"%char ∉ ReplaceAllString stringValue s repl.
Proof.
  unfold ReplaceAllString. intros Hrepl. generalize (@None byte). remember (length s) as len eqn:Hlen. revert s Hlen.
  induction (lt_wf len) as [len _ IH]. intros s Hlen p Heven.
  destruct s as [|c t]; [by apply not_elem_of_nil|]. subst len.
  rewrite quotes_cons in Heven. cbn [replace_go]. destruct (decide (c = "'"%char)) as [->|Hne].
  - cbn [plus Nat.add] in Heven. rewrite Nat.even_succ in Heven.
    destruct (literal_end_odd None 1 t Heven) as (k & Hend & Hk & He).
    change (stringValue p ("'"%char :: t)) with (literal_end None 1 t). rewrite Hend. cbn [plus Nat.add].
    rewrite (stringValue_skip _ _ None), not_elem_of_app. split; [done|].
    apply (IH (length (drop k t))); [rewrite length_drop; cbn; lia | done | done].
  - assert (stringValue p (c :: t) = None) as ->.
    { unfold stringValue. destruct c as [[] [] [] [] [] [] [] []]; try reflexivity. done. }
    apply not_elem_of_cons. split; [congruence|]. apply (IH (length t)); [cbn; lia | done | done].
Qed.

Lemma strip_one_elem encs s s' c : strip_one encs s = Some s' → c ∈ bytes_of s' → c ∈ bytes_of s.
Proof.
  induction encs as [|e encs IH]; [done|]. cbn [strip_one].
  destruct (TrimPrefix_go s e) as [r|] eqn:E; [|exact IH]. intros [= <-]. clear IH. revert s E.
  induction e as [|d e IHe]; intros s E; [by injection E as <-|].
  destruct s as [|x s]; cbn in E; [done|]. destruct (decide (d = x)); [|done].
  intros Hc. right. by eapply IHe.
Qed.
Lemma strip_all_elem encs fuel s c : c ∈ bytes_of (strip_all encs fuel s) → c ∈ bytes_of s.
Proof.
  revert s. induction fuel as [|fuel IH]; intros s; [done|]. cbn [strip_all].
  destruct (strip_one encs s) as [s'|] eqn:E; [|done]. intros H. by eapply strip_one_elem, IH.
Qed.
Lemma reverse_elem s c : c ∈ bytes_of (reverse s) ↔ c ∈ bytes_of s.
Proof. unfold reverse. by rewrite bytes_of_string_of, <- Permutation_rev. Qed.
Lemma TrimSpace_elem s c : c ∈ bytes_of (TrimSpace s) → c ∈ bytes_of s.
Proof.
  unfold TrimSpace. cbv zeta. rewrite reverse_elem. intros H%strip_all_elem. rewrite reverse_elem in H.
  by apply strip_all_elem in H.
Qed.
Lemma take_string_elem n s c : c ∈ bytes_of (take_string n s) → c ∈ bytes_of s.
Proof.
  revert s. induction n as [|n IH]; intros [|d s]; cbn; try done; [by intros ?%elem_of_nil|].
  intros [->|H]%elem_of_cons; [by left | right; auto].
Qed.
Lemma take_string_bounded n s : (String.length (take_string n s) ≤ n)%nat.
Proof. revert s. induction n as [|n IH]; intros [|d s]; cbn; try lia. specialize (IH s). lia. Qed.
Lemma string_length_app s t : String.length (s +:+ t) = (String.length s + String.length t)%nat.
Proof. induction s as [|c s IH]; [done|]. rewrite app_string_cons. cbn. by rewrite IH. Qed.

(** query shapes are bounded and hide literals: a shape is
    never empty and at most 303 bytes long, and when the quotes outside the
    comments pair up no quote, and so no string literal, is left in it. *)
Theorem normalized_shape_bounded sql :
  Normalize sql ≠ "" ∧ (String.length (Normalize sql) ≤ 303)%nat ∧
  (Nat.even (quotes (strip_comments (bytes_of sql))) = true → "'"%char ∉ bytes_of (Normalize sql)).
Proof.
  unfold Normalize. cbv zeta.
  set (r := ReplaceAllString stringValue _ _). set (trimmed := TrimSpace _).
  set (cut := if (300 <? String.length trimmed)%nat then _ else trimmed). split_and!.
  - by case_decide.
  - case_decide; [cbn; lia|]. unfold cut. destruct (300 <? String.length trimmed)%nat eqn:E.
    + rewrite string_length_app. pose proof (take_string_bounded 300 trimmed). change (String.length (string_of ellipsis)) with 3%nat. lia.
    + apply Nat.ltb_ge in E. lia.
  - intros Heven. assert ("'"%char ∉ r) as Hr by (apply literals_replaced; [by_computation | done]).
    assert ("'"%char ∉ bytes_of trimmed) as Ht.
    { intros H%TrimSpace_elem. rewrite bytes_of_string_of in H.
      apply replace_go_elem in H as [H|H]; [|revert H; by_computation].
      apply replace_go_elem in H as [H|H]; [done | revert H; by_computation]. }
    case_decide; [by_computation|]. unfold cut. destruct (_ <? _)%nat; [|done].
    rewrite bytes_of_app, not_elem_of_app. split; [intros Hc; by apply take_string_elem in Hc | by_computation].
Qed.

(** A comment opener inside a literal is taken for a comment: the closing quote
    goes with it and the start of the literal stays in the shape. *)
Lemma comment_in_literal_leaks : Normalize "SELECT 'hunter2--x'" = "SELECT 'hunter2".
Proof. vm_compute. reflexivity. Qed.

(** * The whole collector *)

Definition of_second (p : Z * QueryEvent) : Z * QueryEvent := (p.1 / 1000000000, p.2).

Section collector.
Context `{MapOrder}.

(** The collector after a log of queries and their times in nanoseconds. *)
Definition collect_log (log : list (Z * QueryEvent)) : option Collector :=
  fold_left (λ c p, c ← c; record_query p.1 p.2 c) log (Some newCollector).

Lemma ticks_snoc_inv l p : ticks (l ++ [p]) → ticks l ∧ Forall (λ x, x.1 ≤ p.1) l ∧ 0 < p.1.
Proof.
  intros Ht. inversion Ht as [E|l' t q Hl Hle Hpos E]; [by destruct l|].
  apply app_inj_tail in E as [-> <-]. done.
Qed.

(** recording never panics and loses nothing: after any log of
    queries, from a clock past second 0 that did not go back, the totals and the
    counts per Burrow are those of the log, and both caches are within their
    bounds. *)
Theorem collector_exact log :
  ticks (of_second <$> log) →
  ∃ c, collect_log log = Some c ∧ record_all (of_second <$> log) = Some (buckets c) ∧
    measures (total c) (shards c) (λ g, sum_of g log.*2) ∧
    HistogramCount (latency c) = swrap 64 (Z.of_nat (length log)) ∧
    (size (summaries c) ≤ maxQuerySummaries)%nat ∧ cache_wf (cache c).
Proof.
  induction log as [|[now q] log IH] using rev_ind.
  { intros _. exists newCollector. split_and!; [done..| | | |].
    - split; [done|]. intros n. cbn. by rewrite lookup_empty.
    - done.
    - cbn. rewrite map_size_empty. lia.
    - split; cbn; [apply NoDup_nil_2 | | by intros ? ? ?%lookup_empty_Some | lia | unfold maxSummaryLabels; lia | done].
      intros sql. rewrite lookup_empty, elem_of_nil. split; [by intros [] | done]. }
  rewrite fmap_app. cbn [fmap list_fmap]. intros (Hl & Hle & Hpos)%ticks_snoc_inv.
  destruct (IH Hl) as (c & Hc & Hb & [Ht Hs] & Hh & Hsum & Hcache).
  destruct (label_cache_step (SQL q) (cache c) Hcache) as (cache' & Hcache1 & Hcache').
  pose proof (recordWindow_step _ _ q Hl Hle Hpos) as Hw. rewrite record_all_buckets in Hb by done.
  apply (inj Some) in Hb. rewrite Hb in Hw.
  unfold collect_log in *. rewrite fold_left_app, Hc. cbn [fold_left fst snd mbind option_bind].
  unfold record_query. rewrite Hcache1. cbn [mbind option_bind].
  change (now / 1000000000) with (of_second (now, q)).1. rewrite Hw. cbn [mbind option_bind].
  eexists. split; [done|]. cbn [buckets total shards latency summaries cache].
  split_and!.
  - unfold record_all in *. rewrite fold_left_app. cbn [fold_left].
    pose proof (record_all_buckets _ Hl) as Hr. unfold record_all in Hr. rewrite Hr. cbn [mbind option_bind].
    by rewrite Hb.
  - split; [rewrite Ht; rewrite fmap_app; apply add_statistics_of|].
    intros n. rewrite fmap_app, sum_of_app. cbn [sum_of foldr fmap list_fmap snd]. rewrite Z.add_0_r.
    exact (record_counts _ _ q Hs n).
  - unfold record_latency. cbn [HistogramCount]. rewrite Hh, plus_swrap, length_app. f_equal. cbn. lia.
  - by apply summaries_bounded.
  - done.
Qed.
End collector.

(** * Witnesses *)

Definition sample_query (sql : string) (on : list string) (ok : bool) : QueryEvent :=
  {| Duration := 1500000; Success := ok; Shards := on; SQL := sql; ErrorCategory := "" |}.
Definition sample_log : list (Z * QueryEvent) :=
  [(1000, sample_query "SELECT 1" ["a"; "b"] true); (1603, sample_query "SELECT 2" ["b"] false);
   (1605, sample_query "SELECT 3" ["b"] true)].
Lemma sample_ticks : ticks sample_log.
Proof.
  apply (ticks_snoc [(1000, sample_query "SELECT 1" ["a"; "b"] true); (1603, sample_query "SELECT 2" ["b"] false)]);
    [|by_computation | done].
  apply (ticks_snoc [(1000, sample_query "SELECT 1" ["a"; "b"] true)]); [|by_computation | done].
  apply (ticks_snoc []); [constructor | by_computation | done].
Qed.

Lemma rolling_window_exact_witness :
  ∃ buckets, record_all sample_log = Some buckets ∧
    let '(s, m) := @summarizeBuckets canonical_order buckets 1606 300 in
    measures s m (λ g, sum_of g (in_window 1606 300 sample_log).*2) ∧ Queries s = 2.
Proof.
  destruct (@rolling_window_exact canonical_order sample_log 1606 300 sample_ticks) as (b & Hb & Hm);
    [by_computation | by_computation | by_computation |].
  exists b. split; [exact Hb|]. destruct (summarizeBuckets b 1606 300) as [s m].
  split; [exact Hm|]. destruct Hm as [-> _]. vm_compute. reflexivity.
Defined.

Lemma empty_cache_wf : cache_wf {| labels := ∅; labelOrder := []; labelNext := 0 |}.
Proof.
  split; cbn; [apply NoDup_nil_2 | | by intros ? ? ?%lookup_empty_Some | lia | unfold maxSummaryLabels; lia | done].
  intros sql. rewrite lookup_empty, elem_of_nil. split; [by intros [] | done].
Qed.

Lemma label_cache_fifo_witness :
  ∃ c', summaryLabel "SELECT 1" {| labels := ∅; labelOrder := []; labelNext := 0 |} = Some (Normalize "SELECT 1", c') ∧
    cache_wf c' ∧ queue c' = ["SELECT 1"].
Proof. exact (label_cache_fifo "SELECT 1" _ empty_cache_wf). Defined.

Lemma summaries_keep_most_used_witness :
  let m' := @recordSummary canonical_order "SELECT ?" 5 (sample_query "SELECT 1" ["a"] true) ∅ in
  (size m' ≤ maxQuerySummaries)%nat ∧
  m' !! "SELECT ?" = Some (updated 5 (sample_query "SELECT 1" ["a"] true) new_summary).
Proof.
  destruct (@summaries_keep_most_used canonical_order "SELECT ?" 5 (sample_query "SELECT 1" ["a"] true) ∅) as (H1 & H2 & _);
    [by_computation|]. exact (conj H1 H2).
Defined.

Definition second_log : list (Z * QueryEvent) :=
  (λ p, (p.1 * 1000000000 + 17, p.2)) <$> sample_log.
Lemma collector_exact_witness :
  ∃ c, @collect_log canonical_order second_log = Some c ∧
    measures (total c) (shards c) (λ g, sum_of g second_log.*2) ∧ cache_wf (cache c).
Proof.
  destruct (@collector_exact canonical_order second_log) as (c & Hc & _ & Hm & _ & _ & Hw); [exact sample_ticks|].
  exists c. exact (conj Hc (conj Hm Hw)).
Defined.

End statistics.
