(* ===== verification/Config.v ===== *)
(** The configuration file: [internal/config/config.go].

    [Load] gets the contents of the file, or the error of reading it, and the
    YAML decoder as a parameter; the nested structs of [Config] are one record
    whose fields carry the path. *)
From S2P Require Import Prelude.
From S2P Require Import GoStrings.
From S2P Require Import GoTime.

Module config.

Definition DefaultStatusAddress : string := "127.0.0.1:8080".
Definition DefaultBackendPoolMaxConnections : Z := 8.
Definition DefaultRuntimeMaxProcs : Z := 4.
Definition DefaultTransactionLockTimeout : string := "1s".
Definition DefaultTopologyKey : string := "/hamstergres/topology/v1".
Definition DefaultRegistryKey : string := "/hamstergres/schema-registry/v3".
Definition DefaultSequenceKey : string := "/hamstergres/sequences/global-id/v1".
Definition UnshardedPrimary : string := "primary".
Definition UnshardedReplicated : string := "replicated".

Record Config := {
  Runtime_MaxProcs : Z;
  Listen_Address : string;
  Status_Address : string; Status_Profiling : bool;
  Nest_Endpoint : string; Nest_RegistryKey : string; Nest_TopologyKey : string; Nest_SequenceKey : string;
  Observability_LogFile : string;
  Transactions_TwoPhaseCommit : option bool; Transactions_LockTimeout : string;
  (** The DSN of each physical shard. *)
  PhysicalShards : gmap string string;
  BackendPool_MaxConnections : Z;
  Unsharded_Mode : string; Unsharded_PrimaryBurrow : string;
}.
#[export] Instance Config_eq_dec : EqDecision Config.
Proof. solve_decision. Defined.

Inductive error :=
| Unreadable (message : string) | Unparsable
| NoListenAddress | NegativeMaxProcs | BadLockTimeout | NoBurrow | NegativeMaxConnections
| NoDSN (name : string) | UnknownMode | UnknownPrimary (name : string).

Definition TwoPhaseCommitEnabled (c : Config) : bool :=
  match Transactions_TwoPhaseCommit c with None => true | Some b => b end.

Definition or_default (value fallback : string) : string :=
  if decide (value = "") then fallback else value.

Section with_order.
Context `{MapOrder}.

Definition ShardNames (c : Config) : list string := sort_strings (map_range (PhysicalShards c)).*1.

(** [cfg.ShardNames()[0]]; [Load] has rejected an empty map before. *)
Definition first_shard (c : Config) : string := default "" (head (ShardNames c)).

(** The assignments of [Load]: every empty setting gets its default. *)
Definition with_defaults (c : Config) : Config := {|
  Runtime_MaxProcs := Runtime_MaxProcs c;
  Listen_Address := Listen_Address c;
  Status_Address := or_default (Status_Address c) DefaultStatusAddress;
  Status_Profiling := Status_Profiling c;
  Nest_Endpoint := Nest_Endpoint c;
  Nest_RegistryKey := or_default (Nest_RegistryKey c) DefaultRegistryKey;
  Nest_TopologyKey := or_default (Nest_TopologyKey c) DefaultTopologyKey;
  Nest_SequenceKey := or_default (Nest_SequenceKey c) DefaultSequenceKey;
  Observability_LogFile := Observability_LogFile c;
  Transactions_TwoPhaseCommit := Transactions_TwoPhaseCommit c;
  Transactions_LockTimeout := or_default (Transactions_LockTimeout c) DefaultTransactionLockTimeout;
  PhysicalShards := PhysicalShards c;
  BackendPool_MaxConnections :=
    if BackendPool_MaxConnections c =? 0 then DefaultBackendPoolMaxConnections
    else BackendPool_MaxConnections c;
  Unsharded_Mode := or_default (Unsharded_Mode c) UnshardedPrimary;
  Unsharded_PrimaryBurrow :=
    if decide (or_default (Unsharded_Mode c) UnshardedPrimary = UnshardedPrimary)
    then or_default (Unsharded_PrimaryBurrow c) (first_shard c) else Unsharded_PrimaryBurrow c;
|}.

Definition positive_duration (text : string) : bool :=
  match gotime.ParseDuration text with Some d => 0 <? d | None => false end.

(** The checks of [Load] in their order.  A check reads either a field as it
    was decoded or, after its assignment, with the default; [c] is the decoded
    configuration, [d] the one with all defaults. *)
Definition check (c d : Config) : result error () :=
  fail_if (bool_decide (Listen_Address c = "")) NoListenAddress;;
  fail_if (Runtime_MaxProcs c <? 0) NegativeMaxProcs;;
  fail_if (negb (positive_duration (Transactions_LockTimeout d))) BadLockTimeout;;
  fail_if (bool_decide (size (PhysicalShards c) = 0%nat)) NoBurrow;;
  fail_if (BackendPool_MaxConnections c <? 0) NegativeMaxConnections;;
  check_all (λ p : string * string, fail_if (bool_decide (p.2 = "")) (NoDSN p.1)) (map_range (PhysicalShards c));;
  fail_if (bool_decide (Unsharded_Mode d ≠ UnshardedPrimary ∧ Unsharded_Mode d ≠ UnshardedReplicated)) UnknownMode;;
  fail_if (bool_decide (Unsharded_Mode d = UnshardedPrimary
                        ∧ PhysicalShards d !! Unsharded_PrimaryBurrow d = None))
    (UnknownPrimary (Unsharded_PrimaryBurrow d)).

Definition Load (Unmarshal : bytes → option Config) (contents : result string bytes) : result error Config :=
  contents ← map_err Unreadable contents;
  cfg ← or_fail (Unmarshal contents) Unparsable;
  check cfg (with_defaults cfg);;
  Ok (with_defaults cfg).
End with_order.

Definition TransactionLockTimeout (c : Config) : string :=
  or_default (Transactions_LockTimeout c) DefaultTransactionLockTimeout.

(** [configured] is whether the environment has GOMAXPROCS. *)
Definition RuntimeMaxProcs (configured : bool) (c : Config) : Z :=
  if 0 <? Runtime_MaxProcs c then Runtime_MaxProcs c
  else if configured then 0 else DefaultRuntimeMaxProcs.

Definition BackendPoolMaxConnections (c : Config) : Z :=
  if 0 <? BackendPool_MaxConnections c then BackendPool_MaxConnections c
  else DefaultBackendPoolMaxConnections.

(** * Properties *)

(** What the rest of the program relies on. *)
Record usable (c : Config) : Prop := {
  u_listen : Listen_Address c ≠ "";
  u_status : Status_Address c ≠ "";
  u_keys : Nest_RegistryKey c ≠ "" ∧ Nest_TopologyKey c ≠ "" ∧ Nest_SequenceKey c ≠ "";
  u_procs : 0 ≤ Runtime_MaxProcs c;
  u_timeout : ∃ d, gotime.ParseDuration (Transactions_LockTimeout c) = Some d ∧ 0 < d;
  u_shards : PhysicalShards c ≠ ∅ ∧ ∀ name dsn, PhysicalShards c !! name = Some dsn → dsn ≠ "";
  u_connections : 0 < BackendPool_MaxConnections c;
  u_mode : Unsharded_Mode c = UnshardedPrimary ∧ is_Some (PhysicalShards c !! Unsharded_PrimaryBurrow c)
           ∨ Unsharded_Mode c = UnshardedReplicated;
}.

Lemma or_default_ne value fallback : fallback ≠ "" → or_default value fallback ≠ "".
Proof. unfold or_default. by case_decide. Qed.
Lemma or_default_id value fallback : value ≠ "" → or_default value fallback = value.
Proof. unfold or_default. by case_decide. Qed.
Lemma or_default_twice value fallback : or_default (or_default value fallback) fallback = or_default value fallback.
Proof. unfold or_default. by repeat case_decide. Qed.

Section facts.
Context `{MapOrder}.

Lemma elem_of_ShardNames c name : name ∈ ShardNames c ↔ is_Some (PhysicalShards c !! name).
Proof.
  unfold ShardNames. rewrite sort_strings_perm, list_elem_of_fmap. split.
  - intros ([n dsn] & -> & Hin%elem_of_map_range). by eexists.
  - intros [dsn Hl]. exists (name, dsn). by rewrite elem_of_map_range.
Qed.
Lemma first_shard_known c : PhysicalShards c ≠ ∅ → is_Some (PhysicalShards c !! first_shard c).
Proof.
  intros Hne. apply elem_of_ShardNames. unfold first_shard.
  destruct (ShardNames c) as [|x l] eqn:E; [|by left].
  destruct (map_choose _ Hne) as (name & dsn & Hl).
  assert (name ∈ ShardNames c) as Hin by (by apply elem_of_ShardNames; eexists).
  rewrite E in Hin. by apply elem_of_nil in Hin.
Qed.

Lemma positive_duration_spec text :
  positive_duration text = true ↔ ∃ d, gotime.ParseDuration text = Some d ∧ 0 < d.
Proof.
  unfold positive_duration. destruct (gotime.ParseDuration text) as [d|].
  - rewrite Z.ltb_lt. naive_solver.
  - naive_solver.
Qed.

(** The checks that are left after the defaults. *)
Definition well_formed (c : Config) : Prop :=
  Listen_Address c ≠ "" ∧ 0 ≤ Runtime_MaxProcs c ∧
  (∃ d, gotime.ParseDuration (TransactionLockTimeout c) = Some d ∧ 0 < d) ∧
  PhysicalShards c ≠ ∅ ∧ 0 ≤ BackendPool_MaxConnections c ∧
  (∀ name dsn, PhysicalShards c !! name = Some dsn → dsn ≠ "") ∧
  (Unsharded_Mode c ∈ [""; UnshardedPrimary] ∧
     (Unsharded_PrimaryBurrow c = "" ∨ is_Some (PhysicalShards c !! Unsharded_PrimaryBurrow c))
   ∨ Unsharded_Mode c = UnshardedReplicated).

Lemma mode_check c :
  PhysicalShards c ≠ ∅ →
  (¬ (Unsharded_Mode (with_defaults c) ≠ UnshardedPrimary ∧ Unsharded_Mode (with_defaults c) ≠ UnshardedReplicated)
   ∧ ¬ (Unsharded_Mode (with_defaults c) = UnshardedPrimary
        ∧ PhysicalShards c !! Unsharded_PrimaryBurrow (with_defaults c) = None)) ↔
  (Unsharded_Mode c ∈ [""; UnshardedPrimary] ∧
     (Unsharded_PrimaryBurrow c = "" ∨ is_Some (PhysicalShards c !! Unsharded_PrimaryBurrow c))
   ∨ Unsharded_Mode c = UnshardedReplicated).
Proof.
  intros Hne. pose proof (first_shard_known c Hne) as Hf. cbn. rewrite !list_elem_of_In. cbn.
  unfold or_default, UnshardedPrimary, UnshardedReplicated. rewrite <- !not_eq_None_Some in *.
  destruct (decide (Unsharded_Mode c = "replicated")); repeat case_decide; first [naive_solver | intuition congruence].
Qed.

Lemma check_iff c : check c (with_defaults c) = Ok () ↔ well_formed c.
Proof.
  unfold check, well_formed. rewrite !seq_ok, !fail_if_ok, !bool_decide_eq_false, check_all_ok, Forall_map_range.
  rewrite negb_false_iff, positive_duration_spec, !Z.ltb_ge, map_size_empty_iff.
  assert ((∀ k dsn, PhysicalShards c !! k = Some dsn →
      fail_if (bool_decide (dsn = "")) (NoDSN k) = Ok ()) ↔
    ∀ name dsn, PhysicalShards c !! name = Some dsn → dsn ≠ "") as Hdsn.
  { split; intros Hc k dsn Hl; specialize (Hc k dsn Hl); by rewrite fail_if_ok, bool_decide_eq_false in *. }
  change (Transactions_LockTimeout (with_defaults c)) with (TransactionLockTimeout c).
  change (PhysicalShards (with_defaults c)) with (PhysicalShards c). pose proof (mode_check c). rewrite Hdsn. tauto.
Qed.

Lemma Load_iff Unmarshal contents c :
  Load Unmarshal contents = Ok c ↔
  ∃ text raw, contents = Ok text ∧ Unmarshal text = Some raw ∧ well_formed raw ∧ c = with_defaults raw.
Proof.
  unfold Load. rewrite bind_ok. setoid_rewrite bind_ok. setoid_rewrite or_fail_ok. setoid_rewrite seq_ok.
  setoid_rewrite check_iff. destruct contents as [text|m]; cbn; naive_solver.
Qed.

Lemma with_defaults_usable c : well_formed c → usable (with_defaults c).
Proof.
  intros (Hl & Hp & Ht & Hs & Hn & Hd & Hm). constructor; try done; cbn.
  - by apply or_default_ne.
  - repeat split; by apply or_default_ne.
  - unfold DefaultBackendPoolMaxConnections. destruct (_ =? 0) eqn:E; lia.
  - apply mode_check in Hm as [H1 H2]; [|done]. cbn in H1, H2. rewrite <- not_eq_None_Some.
    destruct (decide (or_default (Unsharded_Mode c) UnshardedPrimary = UnshardedPrimary)) as [E|E].
    + left. split; [done|]. intros E2. apply H2. split; [done|]. done.
    + right. destruct (decide (or_default (Unsharded_Mode c) UnshardedPrimary = UnshardedReplicated)); naive_solver.
Qed.
End facts.

(** [Load] accepts exactly the well-formed files and returns them
    with the defaults filled in; then everything the program relies on holds:
    addresses, Nest keys and DSNs are set, the lock timeout is a positive
    duration, and the primary Burrow is a configured one. *)
Theorem Load_complete `{MapOrder} Unmarshal contents c :
  Load Unmarshal contents = Ok c ↔
  usable c ∧ ∃ text raw, contents = Ok text ∧ Unmarshal text = Some raw ∧ well_formed raw ∧ c = with_defaults raw.
Proof.
  rewrite Load_iff. split; [|naive_solver]. intros (text & raw & Hc & Hu & Hw & ->).
  split; [by apply with_defaults_usable | naive_solver].
Qed.

(** The defaults are stable: a loaded configuration, written back and
    loaded again, is unchanged. *)
Theorem Load_again `{MapOrder} Unmarshal contents c Unmarshal' text :
  Load Unmarshal contents = Ok c → Unmarshal' text = Some c → Load Unmarshal' (Ok text) = Ok c.
Proof.
  rewrite !Load_iff. intros (t & raw & _ & _ & Hw & ->) Hu. exists text, (with_defaults raw).
  split; [done|]. split; [done|]. destruct (with_defaults_usable raw Hw) as [Hl Hs Hk Hp Ht Hd Hn Hm].
  assert (with_defaults (with_defaults raw) = with_defaults raw) as Hid.
  { destruct Hk as (Hk1 & Hk2 & Hk3).
    unfold with_defaults at 1. rewrite (or_default_id (Status_Address _)), !(or_default_id (Nest_RegistryKey _)),
      !(or_default_id (Nest_TopologyKey _)), !(or_default_id (Nest_SequenceKey _)) by done.
    rewrite (or_default_id (Transactions_LockTimeout _)) by (by apply or_default_ne).
    rewrite (or_default_id (Unsharded_Mode _)) by (by apply or_default_ne).
    destruct (_ =? 0) eqn:E0; [lia|]. unfold with_defaults. f_equal. cbn.
    case_decide; [|done]. exact (or_default_twice _ _). }
  split; [|done]. destruct Hw as (W1 & W2 & W3 & W4 & W5 & W6 & W7).
  split; [done|]. split; [done|]. split.
  { unfold TransactionLockTimeout. rewrite or_default_id; [done|]. by apply or_default_ne. }
  split; [done|]. split; [lia|]. split; [done|].
  destruct Hm as [[-> Hm]|]; [left; split; [set_solver | by right] | by right].
Qed.

(** * Witnesses *)

Definition two_burrows : Config := {|
  Runtime_MaxProcs := 0; Listen_Address := "127.0.0.1:6432"; Status_Address := ""; Status_Profiling := false;
  Nest_Endpoint := ""; Nest_RegistryKey := ""; Nest_TopologyKey := ""; Nest_SequenceKey := "";
  Observability_LogFile := ""; Transactions_TwoPhaseCommit := None; Transactions_LockTimeout := "1m";
  PhysicalShards := {["burrow-02" := "postgres://b"; "burrow-01" := "postgres://a"]};
  BackendPool_MaxConnections := 0; Unsharded_Mode := ""; Unsharded_PrimaryBurrow := "" |}.

Definition yaml_of (c : Config) : bytes → option Config := λ _, Some c.

(** A lock timeout of "1m" is a Go duration and is accepted, although
    PostgreSQL, which receives the text unchanged, writes minutes "min". *)
Example go_units_accepted :
  Load (H := canonical_order) (yaml_of two_burrows) (Ok []) = Ok (with_defaults (H := canonical_order) two_burrows) ∧
  TransactionLockTimeout (with_defaults (H := canonical_order) two_burrows) = "1m".
Proof. split; vm_compute; reflexivity. Qed.

Lemma Load_again_witness :
  let c := with_defaults (H := canonical_order) two_burrows in
  Load (H := canonical_order) (yaml_of two_burrows) (Ok []) = Ok c ∧
  Unsharded_PrimaryBurrow c = "burrow-01" ∧
  Load (H := canonical_order) (yaml_of c) (Ok []) = Ok c.
Proof.
  split; [apply go_units_accepted|]. split; [vm_compute; reflexivity|].
  exact (Load_again (H := canonical_order) (yaml_of two_burrows) (Ok []) _ (yaml_of _) []
    (proj1 go_units_accepted) eq_refl).
Defined.

End config.
