(* ===== verification/Backend.v ===== *)
(** The Manager of [internal/backend/backend.go]: reading and comparing the
    schemas of the Burrows, start-up against Nest ([New]), the refresh after
    DDL, global IDs, and queries on all Burrows.

    What the three catalog queries of a Burrow return is part of the
    environment; Nest is reached through the programs of [Nest.v], so a run of
    [New] or [RefreshSchema] may be interleaved with other proxies.  pgx and its
    pools are parameters; a pool is represented by the name of its Burrow. *)
From S2P Require Import Prelude.
From S2P Require Import GoStrings.
From S2P Require Import GoNumbers.
From S2P Require Import GoStd.
From S2P Require Import Schema.
From S2P Require Import Topology.
From S2P Require Import Nest.
From S2P Require Import Config.

Module backend.
Import schema.

(** * The schema of the Burrows *)

(** A row of [primaryKeyQuery], of [shardKeyQuery], and what a Burrow answers
    to the three queries: the rows, or the message of the error that ended
    them. *)
Record primary_row := {
  p_namespace : string; p_table : string; p_column : string; p_ordinality : Z;
  p_identity : string; p_default : string; p_type : string;
}.
Record key_row := { k_namespace : string; k_table : string; k_column : string; k_type : string }.
Record burrow_catalog := {
  primary_rows : result string (list primary_row);
  key_rows : result string (list key_row);
  inventory_rows : result string (list string);
}.

Inductive error :=
| BadDSN (burrow message : string)
| PoolFailed (burrow message : string)
| Inspection (burrow message : string)
| SchemaMismatch (burrow : string) (d : difference)
| Unconfigured (missing : list string)
| PrimaryNotRoutable (burrow : string) (revision : Z)
| NestError (e : nest.error)
| TopologyError (e : topology.error)
| NoNest.

(** [m[k] = append(m[k], v)] *)
Definition append_at (k v : string) (m : gmap string (list string)) : gmap string (list string) :=
  <[k := default [] (m !! k) ++ [v]]> m.

(** The names under which a table is registered. *)
Definition qualified (namespace table : string) : string := namespace +:+ "." +:+ table.
Definition table_names (namespace table : string) : list string :=
  qualified namespace table :: if decide (namespace = "public") then [table] else [].

Definition generated_kind (row : primary_row) : string :=
  if negb (bool_decide (p_identity row = "")) then "identity"
  else if HasPrefix (p_default row) "nextval(" then "sequence" else "".
Definition integer_type (t : string) : bool :=
  bool_decide (t ∈ ["bigint"; "integer"; "smallint"]).

(** The body of the loop over the rows of [primaryKeyQuery]. *)
Definition collect_primary
    (acc : gmap string (list string) * gmap string GeneratedPrimary) (row : primary_row)
    : gmap string (list string) * gmap string GeneratedPrimary :=
  let '(primaryKeys, generated) := acc in
  let names := table_names (p_namespace row) (p_table row) in
  let primaryKeys := fold_left (λ m n, append_at n (p_column row) m) names primaryKeys in
  let kind := generated_kind row in
  let generated :=
    if negb (bool_decide (kind = "")) && integer_type (p_type row)
    then fold_left (λ m n, <[n := {| Column := p_column row; Kind := kind |}]> m) names generated
    else generated in
  (primaryKeys, generated).

(** The two loops that delete entries of [generated]; a loop that deletes while
    ranging over a map visits every entry once. *)
Definition keep_single (primaryKeys : gmap string (list string))
    (generated : gmap string GeneratedPrimary) : gmap string GeneratedPrimary :=
  filter (λ p, length (default [] (primaryKeys !! p.1)) = 1%nat) generated.
Definition keep_shard_keys (shardKeys : gmap string (list string))
    (generated : gmap string GeneratedPrimary) : gmap string GeneratedPrimary :=
  filter (λ p, default [] (shardKeys !! p.1) = [Column p.2]) generated.

Definition appendShardKey (acc : gmap string (list string) * gmap string (list string)) (row : key_row)
    : gmap string (list string) * gmap string (list string) :=
  fold_left (λ acc n, (append_at n (k_column row) acc.1, append_at n (k_type row) acc.2))
    (table_names (k_namespace row) (k_table row)) acc.

(** The body of the loop of [loadSchema] over the Burrows. *)
Definition registry_of (burrow : string) (c : burrow_catalog) : result error Registry :=
  rows ← map_err (Inspection burrow) (primary_rows c);
  let '(primaryKeys, generated) := fold_left collect_primary rows (∅, ∅) in
  let generated := keep_single primaryKeys generated in
  rows ← map_err (Inspection burrow) (key_rows c);
  let '(shardKeys, shardKeyTypes) := fold_left appendShardKey rows (∅, ∅) in
  allTables ← map_err (Inspection burrow) (inventory_rows c);
  let generated := keep_shard_keys shardKeys generated in
  Ok (WithAllTables (NewWithGeneratedAndTypes shardKeys generated shardKeyTypes) allTables).

Section loading.
Context `{MapOrder}.

Definition loadSchema (catalog : string → burrow_catalog) (shards : list string) : result error Registry :=
  match shards with
  | [] => Ok zero_registry
  | first :: rest =>
    expected ← registry_of first (catalog first);
    check_all (λ burrow,
      registry ← registry_of burrow (catalog burrow);
      map_err (SchemaMismatch burrow) (Equal expected registry)) rest;;
    Ok expected
  end.
End loading.

(** * The Manager *)

(** [has_nest] is whether the stores are set; the stores themselves are the
    programs of [Nest.v] under the keys of the configuration. *)
Record Manager := {
  shards : list string; names : list string;
  m_schema : Registry; topologyRevision : Z; has_nest : bool;
  unshardedMode : string; primaryBurrow : string;
}.

Definition configuredDSNs (cfg : config.Config) : gmap string string := config.PhysicalShards cfg.

Fixpoint containsName (l : list string) (want : string) : bool :=
  match l with
  | [] => false
  | name :: l => if decide (name = want) then true else containsName l want
  end.

(** The pools that are kept and the names in routing order; on an error the
    Manager is not used any more. *)
Definition retain_step (acc : gset string * list string) (burrow : string) : gset string * list string :=
  let '(active, kept) := acc in
  if decide (burrow ∈ active) then (active ∖ {[burrow]}, kept ++ [burrow]) else (active, kept).
Definition retainActiveBurrows (routable pools : list string) : result error (list string * list string) :=
  let '(active, kept) := fold_left retain_step pools (list_to_set routable, []) in
  fail_if (bool_decide (active ≠ ∅)) (Unconfigured (sort_strings (elements active)));;
  Ok (kept, routable).

(** ** Programs that use Nest and may fail with an [error] of this package *)
Definition program (A : Type) : Type := nest.action (result error A).
Definition done {A} (r : result error A) : program A := nest.Return r.
Definition next {A B} (m : program A) (f : A → program B) : program B :=
  nest.action_bind_go (λ r, match r with Ok a => f a | Err e => nest.Return (Err e) end) m.
Definition on_nest {A} (m : nest.action A) : program A :=
  nest.action_bind_go (λ r, nest.Return (map_err NestError r)) (nest.attempt m).

Notation "x ⇐ m ; k" := (next m (λ x, k)) (at level 20, m at level 100, k at level 200, right associativity).
Notation "' x ⇐ m ; k" := (next m (λ x, k)) (at level 20, x pattern, m at level 100, k at level 200, right associativity).

Section manager.
Context `{nest.Codec, MapOrder, GoStd}.

(** [pgxpool.ParseConfig] and [pgxpool.NewWithConfig] of a shard with its DSN. *)
Context (parse_pool open_pool : string → string → result string unit).

Definition open_shard (cfg : config.Config) (name : string) : result error unit :=
  let dsn := default "" (config.PhysicalShards cfg !! name) in
  map_err (BadDSN name) (parse_pool name dsn);;
  map_err (PoolFailed name) (open_pool name dsn).

Definition topology_of {A} (r : result topology.error A) : program A := done (map_err TopologyError r).

Definition bootstrap_burrows (cfg : config.Config) : list topology.BootstrapBurrow :=
  (λ name, {| topology.ConfiguredName := name;
              topology.DSN := default "" (config.PhysicalShards cfg !! name) |}) <$> config.ShardNames cfg.

(** The topology to serve: the stored one, or a bootstrap of it. *)
Definition stored_or_bootstrapped (cfg : config.Config) (topologyKey : string) (now : Z)
    (found : option nest.StoredTopology) (verified : nest.VerifiedRegistry) : program nest.StoredTopology :=
  match found with
  | Some stored => done (Ok stored)
  | None =>
    bootstrap ⇐ topology_of (topology.Bootstrap (nest.verified verified) (bootstrap_burrows cfg)
                               (nest.LegacyVShardOwners verified) now);
    on_nest (nest.VerifyOrBootstrap topologyKey bootstrap)
  end.

Definition topology_key (cfg : config.Config) : string :=
  if decide (config.Nest_TopologyKey cfg = "") then config.DefaultTopologyKey else config.Nest_TopologyKey cfg.

(** The part of [New] that needs Nest, after the schema is loaded: the served
    pools, names, registry and topology revision. *)
Definition join_fleet (cfg : config.Config) (now : Z) (found : option nest.StoredTopology)
    (pools : list string) (registry : Registry) : program (list string * list string * Registry * Z) :=
  verified ⇐ on_nest (nest.VerifyOrSeedVersioned (config.Nest_RegistryKey cfg) registry);
  let registry := nest.verified verified in
  stored ⇐ stored_or_bootstrapped cfg (topology_key cfg) now found verified;
  let catalog := nest.Catalog stored in
  _ ⇐ topology_of (topology.ValidateSchema catalog registry);
  _ ⇐ topology_of (topology.ValidateConfigured catalog (configuredDSNs cfg));
  '(pools, names) ⇐ done (retainActiveBurrows (topology.RoutableBurrowNames catalog) pools);
  placements ⇐ topology_of (topology.TablePlacements catalog);
  let registry := WithTableVShards registry placements in
  _ ⇐ (if decide (nest.LegacyVShardOwners verified = []) then done (Ok tt)
       else on_nest (nest.PersistVerified (config.Nest_RegistryKey cfg) registry));
  done (Ok (pools, names, registry, topology.Revision catalog)).

(** The stored topology and the pools that stay open for it. *)
Definition stored_topology (cfg : config.Config) (pools : list string)
    : program (option nest.StoredTopology * list string) :=
  found ⇐ on_nest (nest.Get (topology_key cfg));
  match found with
  | None => done (Ok (None, pools))
  | Some stored =>
    let catalog := nest.Catalog stored in
    _ ⇐ topology_of (topology.ValidateConfigured catalog (configuredDSNs cfg));
    '(pools, _) ⇐ done (retainActiveBurrows (topology.RoutableBurrowNames catalog) pools);
    done (Ok (Some stored, pools))
  end.

Definition New (cfg : config.Config) (catalog : string → burrow_catalog) (now : Z) : program Manager :=
  let mode := config.or_default (config.Unsharded_Mode cfg) config.UnshardedPrimary in
  let primary := config.or_default (config.Unsharded_PrimaryBurrow cfg) (config.first_shard cfg) in
  let pools := config.ShardNames cfg in
  _ ⇐ done (check_all (open_shard cfg) pools);
  let has_nest := bool_decide (config.Nest_Endpoint cfg ≠ "") in
  '(pools, names, registry, revision) ⇐
    (if has_nest then
       '(found, pools) ⇐ stored_topology cfg pools;
       registry ⇐ done (loadSchema catalog pools);
       join_fleet cfg now found pools registry
     else
       registry ⇐ done (loadSchema catalog pools);
       done (Ok (pools, pools,
         WithVShards registry (topology.LegacyModuloOwners pools topology.DefaultVShardCount), 0)));
  _ ⇐ done (fail_if (bool_decide (mode = config.UnshardedPrimary) && negb (containsName names primary))
              (PrimaryNotRoutable primary revision));
  done (Ok {| shards := pools; names := names; m_schema := registry; topologyRevision := revision;
    has_nest := has_nest; unshardedMode := mode; primaryBurrow := primary |}).

(** ** Operations *)

Definition with_schema (registry : Registry) (revision : Z) (m : Manager) : Manager := {|
  shards := shards m; names := names m; m_schema := registry; topologyRevision := revision;
  has_nest := has_nest m; unshardedMode := unshardedMode m; primaryBurrow := primaryBurrow m |}.

Definition schemaUnchanged (m : Manager) (registry : Registry) : bool :=
  is_ok (EqualSchema (m_schema m) registry).

(** [RefreshSchema]: the Manager afterwards, its topology revision and schema
    changed only by a refresh that succeeds. *)
Definition RefreshSchema (registryKey topologyKey : string) (catalog : string → burrow_catalog)
    (now : Z * Z * Z) (m : Manager) : program Manager :=
  registry ⇐ done (loadSchema catalog (shards m));
  if schemaUnchanged m registry then done (Ok m) else
  if has_nest m then
    registry ⇐ on_nest (nest.ReplaceVersioned registryKey registry);
    updated ⇐ on_nest (nest.ReconcileSchema topologyKey registry now);
    let catalog := nest.Catalog updated in
    _ ⇐ topology_of (topology.ValidateSchema catalog registry);
    placements ⇐ topology_of (topology.TablePlacements catalog);
    done (Ok (with_schema (WithTableVShards registry placements) (topology.Revision catalog) m))
  else
    done (Ok (with_schema (WithVShards registry
      (topology.LegacyModuloOwners (names m) topology.DefaultVShardCount)) (topologyRevision m) m)).

(** The operations [recordSchemaRefreshFailure] counts: the text of a
    mismatch contains "schema registry mismatch". *)
Definition recordSchemaRefreshFailure (e : error) : list (string * string) :=
  ("schema_registry_refresh", "failure") ::
  match e with SchemaMismatch _ _ => [("schema_registry_mismatch", "detected")] | _ => [] end.

Definition NextGlobalID (sequenceKey : string) (m : Manager) : program Z :=
  if has_nest m then on_nest (nest.Next sequenceKey) else done (Err NoNest).

Record ShardingInventory := {
  inv_SchemaRevision : Z; inv_TopologyRevision : Z; inv_UnshardedMode : string;
  inv_PrimaryBurrow : string; inv_VirtualShards : Z; inv_Tables : list TableInventory;
}.
Definition sharding_inventory (m : Manager) : ShardingInventory := {|
  inv_SchemaRevision := revision (m_schema m); inv_TopologyRevision := topologyRevision m;
  inv_UnshardedMode := unshardedMode m; inv_PrimaryBurrow := primaryBurrow m;
  inv_VirtualShards := MaximumVShardCount (m_schema m); inv_Tables := Inventory (m_schema m) |}.
End manager.

(** * Lemmas: what is read from a Burrow *)

(** A key map built from rows: [names r] are the entries row [r] goes to. *)
Section key_maps.
Context {R : Type} (names : R → list string) (val : R → string).
Context (names_nodup : ∀ r, NoDup (names r)).

Definition add_row (m : gmap string (list string)) (r : R) : gmap string (list string) :=
  fold_left (λ m n, append_at n (val r) m) (names r) m.

Lemma add_names_lookup l v (m : gmap string (list string)) t :
  NoDup l →
  fold_left (λ m n, append_at n v m) l m !! t =
    if decide (t ∈ l) then Some (default [] (m !! t) ++ [v]) else m !! t.
Proof.
  revert m. induction l as [|n l IH]; intros m Hnd; cbn; [done|].
  apply NoDup_cons in Hnd as [Hn Hnd]. rewrite IH by done. unfold append_at.
  destruct (decide (t = n)) as [->|Hne].
  - rewrite decide_False by done. rewrite decide_True by by left. by rewrite lookup_insert_eq.
  - rewrite lookup_insert_ne by done.
    destruct (decide (t ∈ l)); [rewrite decide_True by by right | rewrite decide_False by set_solver]; done.
Qed.

(** The entry of [t] lists the values of its rows in order; without rows there
    is no entry. *)
Lemma key_map_lookup rows t :
  fold_left add_row rows ∅ !! t =
    match val <$> filter (λ r, t ∈ names r) rows with [] => None | l => Some l end.
Proof.
  induction rows as [|r rows IH] using rev_ind; [done|].
  rewrite fold_left_app, filter_app, fmap_app. cbn [fold_left]. unfold add_row at 1.
  rewrite add_names_lookup by done. rewrite filter_cons, filter_nil, IH.
  destruct (decide (t ∈ names r)); cbn; [|by rewrite app_nil_r].
  by destruct (val <$> filter _ rows).
Qed.

Lemma key_map_default rows t :
  default [] (fold_left add_row rows ∅ !! t) = val <$> filter (λ r, t ∈ names r) rows.
Proof. rewrite key_map_lookup. by destruct (val <$> _). Qed.
End key_maps.

Lemma table_names_nodup namespace table : NoDup (table_names namespace table).
Proof.
  unfold table_names. case_decide; [|apply NoDup_singleton]. apply NoDup_cons. split; [|apply NoDup_singleton].
  rewrite list_elem_of_singleton. intros Hq. apply (f_equal String.length) in Hq. unfold qualified in Hq.
  rewrite !length_app_string in Hq. cbn in Hq. lia.
Qed.

Definition p_names (row : primary_row) : list string := table_names (p_namespace row) (p_table row).
Definition k_names (row : key_row) : list string := table_names (k_namespace row) (k_table row).

Lemma collect_primary_keys rows acc :
  (fold_left collect_primary rows acc).1 = fold_left (add_row p_names p_column) rows acc.1.
Proof. revert acc. induction rows as [|r rows IH]; intros [m g]; [done|]. cbn [fold_left]. by rewrite IH. Qed.

Lemma appendShardKey_pair rows acc :
  fold_left appendShardKey rows acc =
    (fold_left (add_row k_names k_column) rows acc.1, fold_left (add_row k_names k_type) rows acc.2).
Proof.
  revert acc. induction rows as [|r rows IH]; intros [m g]; [done|]. cbn [fold_left]. rewrite IH.
  assert (∀ l a, fold_left (λ acc n, (append_at n (k_column r) acc.1, append_at n (k_type r) acc.2)) l a =
    (fold_left (λ m n, append_at n (k_column r) m) l a.1, fold_left (λ m n, append_at n (k_type r) m) l a.2)) as Hl.
  { induction l as [|n l IHl]; intros [a b]; [done|]. cbn [fold_left]. by rewrite IHl. }
  unfold appendShardKey. by rewrite Hl.
Qed.

(** A generated column comes from a row of the primary key. *)
Definition generated_by (rows : list primary_row) (t : string) (g : GeneratedPrimary) : Prop :=
  ∃ row, row ∈ rows ∧ t ∈ p_names row ∧ Column g = p_column row ∧
    Kind g = generated_kind row ∧ Kind g ≠ "" ∧ integer_type (p_type row) = true.

Lemma fold_insert_lookup {V} l (v : V) (m : gmap string V) t x :
  fold_left (λ m n, <[n := v]> m) l m !! t = Some x → (t ∈ l ∧ x = v) ∨ m !! t = Some x.
Proof.
  revert m. induction l as [|n l IH]; intros m; cbn; [by right|]. intros [[H1 ->]|H1]%IH; [left; set_solver|].
  destruct (decide (n = t)) as [->|Hne].
  - rewrite lookup_insert_eq in H1. left. split; [by left | congruence].
  - rewrite lookup_insert_ne in H1 by done. by right.
Qed.

Lemma collect_primary_generated rows t g :
  (fold_left collect_primary rows (∅, ∅)).2 !! t = Some g → generated_by rows t g.
Proof.
  induction rows as [|r rows IH] using rev_ind; [done|]. rewrite fold_left_app. cbn [fold_left].
  destruct (fold_left collect_primary rows (∅, ∅)) as [m gen]. cbn [collect_primary snd] in *.
  assert (gen !! t = Some g → generated_by (rows ++ [r]) t g) as Hold.
  { intros (row & ? & Hrest)%IH. exists row. split; [set_solver | done]. }
  destruct (negb (bool_decide (generated_kind r = "")) && integer_type (p_type r)) eqn:E; [|exact Hold].
  apply andb_true_iff in E as [Hk Ht]. apply negb_true_iff, bool_decide_eq_false in Hk.
  intros [[Hin ->]|Hg]%fold_insert_lookup; [|by apply Hold].
  exists r. cbn. split; [set_solver | done].
Qed.

Lemma registry_of_inv burrow c r :
  registry_of burrow c = Ok r →
  ∃ prows krows all,
    primary_rows c = Ok prows ∧ key_rows c = Ok krows ∧ inventory_rows c = Ok all ∧
    tables r = fold_left (add_row k_names k_column) krows ∅ ∧
    shardKeyTypes r = fold_left (add_row k_names k_type) krows ∅ ∧
    allTables r = sort_strings all ∧
    generated r = keep_shard_keys (tables r) (keep_single (fold_left (add_row p_names p_column) prows ∅)
      (fold_left collect_primary prows (∅, ∅)).2).
Proof.
  unfold registry_of. intros (prows & Hp & Hr)%bind_ok.
  destruct (fold_left collect_primary prows (∅, ∅)) as [pk gen] eqn:E.
  apply bind_ok in Hr as (krows & Hk & Hr). rewrite appendShardKey_pair in Hr.
  apply bind_ok in Hr as (all & Ha & [= <-]). exists prows, krows, all.
  destruct (primary_rows c), (key_rows c), (inventory_rows c); try discriminate. cbn in *. simplify_eq.
  pose proof (collect_primary_keys prows (∅, ∅)) as Hpk. rewrite E in Hpk. cbn in Hpk. subst pk. rewrite E. done.
Qed.

(** Names that PostgreSQL can return. *)
Definition pg_names (c : burrow_catalog) : Prop :=
  (∀ rows, primary_rows c = Ok rows → Forall (λ r, p_column r ≠ "") rows) ∧
  (∀ rows, key_rows c = Ok rows → Forall (λ r, catalog_name (k_column r) ∧ catalog_name (k_type r)) rows) ∧
  (∀ all, inventory_rows c = Ok all → Forall catalog_name all).

Lemma key_map_values {R} (names : R → list string) (val : R → string) (P : string → Prop) rows :
  (∀ r, NoDup (names r)) → Forall (λ r, P (val r)) rows →
  map_Forall (λ _ l, Forall P l) (fold_left (add_row names val) rows ∅).
Proof.
  intros Hnd Hall t l. rewrite key_map_lookup by done.
  destruct (val <$> filter _ rows) as [|x l'] eqn:E; [done|]. intros [= <-]. rewrite <- E.
  apply Forall_fmap, Forall_forall. intros r [_ Hr]%list_elem_of_filter. rewrite Forall_forall in Hall. by apply Hall.
Qed.

Lemma registry_of_catalog burrow c r : pg_names c → registry_of burrow c = Ok r → catalog_registry r.
Proof.
  intros (Hp & Hk & Ha) (prows & krows & all & H1 & H2 & H3 & Ht & Hty & Hall & Hg)%registry_of_inv.
  specialize (Hp _ H1). specialize (Hk _ H2). specialize (Ha _ H3).
  assert (∀ r, NoDup (k_names r)) as Hnd by (intros; apply table_names_nodup).
  constructor.
  - rewrite Ht. apply key_map_values; [done|]. eapply Forall_impl; [exact Hk|]. by intros ? [].
  - rewrite Hty. apply key_map_values; [done|]. eapply Forall_impl; [exact Hk|]. by intros ? [].
  - rewrite Hg. intros t g Hl. apply map_lookup_filter_Some in Hl as [[Hl _]%map_lookup_filter_Some _].
    apply collect_primary_generated in Hl as (row & Hin & _ & Hc & _).
    rewrite Forall_forall in Hp. specialize (Hp row Hin). intros ->. by rewrite <- Hc in Hp.
  - rewrite Hall. by rewrite sort_strings_perm.
Qed.

Section loading_facts.
Context `{MapOrder, GoStd}.

(** All Burrows have the contract that [loadSchema] returns. *)
Definition agrees (catalog : string → burrow_catalog) (registry : Registry) (burrow : string) : Prop :=
  ∃ r, registry_of burrow (catalog burrow) = Ok r ∧ contract r = contract registry.

Lemma loadSchema_agrees catalog pools registry :
  (∀ b, b ∈ pools → pg_names (catalog b)) →
  loadSchema catalog pools = Ok registry → pools ≠ [] → Forall (agrees catalog registry) pools.
Proof.
  destruct pools as [|first rest]; [done|]. intros Hpg (expected & He & [Hc [= <-]]%seq_ok)%bind_ok _.
  constructor; [by exists expected|]. rewrite check_all_ok in Hc. rewrite Forall_forall in Hc |- *.
  intros b Hb. apply Hc in Hb as Hb'. apply bind_ok in Hb' as (r & Hr & Heq). exists r. split; [done|].
  destruct (Equal expected r) as [[]|d] eqn:E; [|done]. apply seq_ok in E as [E _].
  apply EqualSchema_contract in E; [done| |].
  - eapply registry_of_catalog; [|exact He]. apply Hpg. by left.
  - eapply registry_of_catalog; [|exact Hr]. apply Hpg. by right.
Qed.
End loading_facts.

(** * Lemmas: programs *)

Definition promises {A} (Q : A → Prop) (m : program A) : Prop :=
  nest.ensures (λ r, ∀ a, r = Ok a → Q a) m.

Lemma promises_done {A} (Q : A → Prop) (r : result error A) :
  (∀ a, r = Ok a → Q a) → promises Q (done r).
Proof. done. Qed.

Lemma promises_next {A B} (Q : A → Prop) (R : B → Prop) (m : program A) (f : A → program B) :
  promises Q m → (∀ a, Q a → promises R (f a)) → promises R (next m f).
Proof.
  intros Hm Hf. apply (nest.ensures_bind (λ r, ∀ a, r = Ok a → Q a)); [done|].
  intros [a|e] Ha; [by apply Hf, Ha | by intros ?].
Qed.

Lemma promises_on_nest {A} (Q : A → Prop) (m : nest.action A) : nest.ensures Q m → promises Q (on_nest m).
Proof.
  intros Hm. apply (nest.ensures_bind (λ r, ∀ a, r = Ok a → Q a)); [by apply nest.ensures_attempt|].
  intros [a|e] Ha b; cbn; [intros [= <-]; by apply Ha | done].
Qed.

Lemma promises_true {A} (m : program A) : promises (λ _, True) m.
Proof. unfold promises. induction m as [a|e|q k IH]; cbn; auto. Qed.

Lemma promises_skip {A B} (R : B → Prop) (m : program A) (f : A → program B) :
  (∀ a, promises R (f a)) → promises R (next m f).
Proof. intros Hf. eapply promises_next; [apply promises_true | eauto]. Qed.

Lemma promises_after {A B} (R : B → Prop) (r : result error A) (f : A → program B) :
  (∀ a, r = Ok a → promises R (f a)) → promises R (next (done r) f).
Proof. intros Hf. destruct r as [a|e]; [by apply Hf | by intros ?]. Qed.

Lemma promises_topology {A B} (R : B → Prop) (r : result topology.error A) (f : A → program B) :
  (∀ a, r = Ok a → promises R (f a)) → promises R (next (topology_of r) f).
Proof. intros Hf. destruct r as [a|e]; [by apply Hf | by intros ?]. Qed.

Lemma promises_impl {A} (Q R : A → Prop) (m : program A) :
  promises Q m → (∀ a, Q a → R a) → promises R m.
Proof. intros Hm Hr. eapply nest.ensures_impl; [exact Hm|]. cbn. auto. Qed.

Section fleet_facts.
Context `{nest.Codec, MapOrder, GoStd}.

Lemma VerifyOrSeed_ensures key live :
  nest.ensures (λ v, ∃ rev, nest.verified v = WithRevision live rev) (nest.VerifyOrSeedVersioned key live).
Proof.
  apply (nest.ensures_bind (λ _, True)).
  - generalize (nest.get key). intros m. induction m as [a|e|q k IH]; cbn; auto.
  - intros [stored|] _.
    + destruct (EqualSchema stored live) as [[]|]; cbn; [by eexists | done].
    + apply (nest.ensures_bind (λ _, True)); [|intros _ _; by eexists].
      generalize (nest.put key (WithRevision live 1)). intros m. induction m as [a|e|q k IH]; cbn; auto.
Qed.

Lemma retain_fold pools active kept :
  NoDup pools →
  fold_left retain_step pools (active, kept) =
    (active ∖ list_to_set pools, kept ++ filter (λ b, b ∈ active) pools).
Proof.
  revert active kept. induction pools as [|b pools IH]; intros active kept; cbn [fold_left].
  { intros _. rewrite filter_nil, app_nil_r. f_equal. cbn. set_solver. }
  intros [Hb Hnd]%NoDup_cons. unfold retain_step at 2. rewrite filter_cons. destruct (decide (b ∈ active)) as [Hin|Hout].
  - rewrite IH by done. rewrite <- app_assoc. f_equal; [set_solver|]. f_equal. cbn. f_equal.
    apply filter_ext_in. set_solver.
  - rewrite IH by done. f_equal. set_solver.
Qed.

(** What is retained: exactly the pools of the routable Burrows. *)
Lemma retainActiveBurrows_ok routable pools kept names :
  NoDup pools → NoDup routable → retainActiveBurrows routable pools = Ok (kept, names) →
  names = routable ∧ kept ≡ₚ routable ∧ kept ⊆ pools ∧ NoDup kept.
Proof.
  intros Hp Hr. unfold retainActiveBurrows. rewrite retain_fold by done. cbn [app].
  rewrite seq_ok, fail_if_ok, bool_decide_eq_false. intros [Hsub [= <- <-]].
  apply dec_stable in Hsub. split; [done|]. split; [|split; [|by apply NoDup_filter]].
  - apply NoDup_Permutation; [by apply NoDup_filter | done |]. intros x. rewrite list_elem_of_filter, elem_of_list_to_set.
    split; [tauto|]. intros Hx. split; [done|]. destruct (decide (x ∈ pools)) as [|Hn]; [done|]. exfalso.
    assert (x ∈ list_to_set (C := gset string) routable ∖ list_to_set pools) as Hbad by set_solver.
    rewrite Hsub in Hbad. set_solver.
  - intros x [_ Hx]%list_elem_of_filter. done.
Qed.

Lemma RoutableBurrowNames_nodup c : topology.catalog_wf c → NoDup (topology.RoutableBurrowNames c).
Proof.
  intros Hwf. unfold topology.RoutableBurrowNames. rewrite sort_strings_perm.
  eapply sublist_NoDup; [apply (topology.cw_names _ Hwf)|]. apply fmap_sublist, sublist_filter.
Qed.

Lemma ShardNames_nodup cfg : NoDup (config.ShardNames cfg).
Proof. unfold config.ShardNames. rewrite sort_strings_perm. apply NoDup_fst_map_range. Qed.

Lemma modulo_owner_elem pools n v owner :
  pools ≠ [] → topology.LegacyModuloOwners pools n !! v = Some owner → owner ∈ pools.
Proof.
  intros Hne. unfold topology.LegacyModuloOwners. set (sorted := sort_strings pools).
  assert (sorted ≡ₚ pools) as Hperm by apply sort_strings_perm.
  assert (length sorted ≠ 0%nat) as Hlen by (rewrite Hperm; by destruct pools).
  rewrite decide_False by done. intros (i & -> & _)%list_lookup_fmap_Some. rewrite <- Hperm.
  unfold topology.modulo_owner. case_decide.
  - destruct (last sorted) as [x|] eqn:E; [by apply last_Some_elem_of in E | by apply last_None in E as ->].
  - destruct (sorted !! (i mod length sorted - 1)%nat) as [x|] eqn:E; [by eapply list_elem_of_lookup_2|].
    apply lookup_ge_None in E. pose proof (Nat.mod_upper_bound i (length sorted) Hlen). lia.
Qed.

Lemma LegacyModuloOwners_length pools n : length (topology.LegacyModuloOwners pools n) = n.
Proof.
  unfold topology.LegacyModuloOwners. case_decide; [apply length_replicate|]. by rewrite length_fmap, length_seq.
Qed.

Lemma slice_at_lookup (l : list string) i x : slice_at l i = Some x → l !! Z.to_nat i = Some x.
Proof. unfold slice_at. by case_match. Qed.

(** Placed vshards are owned by routable Burrows. *)
Lemma placement_routable c placements registry t v name :
  topology.Validate c = Ok tt → topology.TablePlacements c = Ok placements → vshards registry = [] →
  VShardOwnerFor (WithTableVShards registry placements) t v = Some name →
  name ∈ topology.RoutableBurrowNames c.
Proof.
  intros Hv Hp Hn. unfold VShardOwnerFor, table_placement. cbn [tableVShards WithTableVShards mbind option_bind].
  destruct (placements !! _) as [owners|] eqn:E.
  - intros Hl%slice_at_lookup. destruct (topology.TablePlacements_only _ _ _ _ Hp E) as [did Hd].
    destruct (topology.TablePlacements_total c Hv) as (p & Hp' & Hall). rewrite Hp in Hp'. injection Hp' as <-.
    destruct (Hall _ _ Hd) as (d & owners' & _ & _ & Ho & _ & Hown). rewrite E in Ho. injection Ho as <-.
    by destruct (Hown _ _ Hl).
  - unfold VShardOwner. cbn. rewrite Hn. intros Hl%slice_at_lookup. by rewrite lookup_nil in Hl.
Qed.

(** The placements of a catalog cover the sharded tables it was validated for. *)
Lemma placements_cover c registry placements t :
  topology.Validate c = Ok tt → topology.ValidateSchema c registry = Ok tt →
  topology.TablePlacements c = Ok placements → t ∈ CanonicalShardedTables registry → is_Some (placements !! t).
Proof.
  intros Hv Hs Hp Ht. unfold topology.ValidateSchema in Hs.
  apply seq_ok in Hs as [_ Hs]. apply seq_ok in Hs as [_ Hs]. apply seq_ok in Hs as [_ Hs]. apply seq_ok in Hs as [Hs _].
  rewrite check_all_ok, Forall_forall in Hs. specialize (Hs t Ht). rewrite fail_if_ok, bool_decide_eq_false in Hs.
  destruct (topology.TableDistributions c !! t) as [did|] eqn:E; [|done].
  destruct (topology.TablePlacements_total c Hv) as (p & Hp' & Hall). rewrite Hp in Hp'. injection Hp' as <-.
  destruct (Hall _ _ E) as (d & owners & _ & _ & Ho & _). by exists owners.
Qed.

(** The vshards of a registry: each one that has an owner is owned by one of
    [served], and under every name of a sharded table there are vshards, all of
    which have an owner. *)
Definition owned_by (r : Registry) (served : list string) : Prop :=
  (∀ t v name, VShardOwnerFor r t v = Some name → name ∈ served) ∧
  ∀ t, CanonicalTable r t ∈ CanonicalShardedTables r →
    0 < VShardCountFor r t ∧ ∀ v, 0 ≤ v < VShardCountFor r t → is_Some (VShardOwnerFor r t v).

Lemma placements_owned c placements registry :
  topology.Validate c = Ok tt → topology.ValidateSchema c registry = Ok tt →
  topology.TablePlacements c = Ok placements → vshards registry = [] →
  owned_by (WithTableVShards registry placements) (topology.RoutableBurrowNames c).
Proof.
  intros Hv Hs Hp Hn. split; [intros t v name; by eapply placement_routable|].
  intros t Ht. change (CanonicalTable registry t ∈ CanonicalShardedTables registry) in Ht.
  destruct (placements_cover _ _ _ _ Hv Hs Hp Ht) as [owners Ho].
  destruct (topology.TablePlacements_only _ _ _ _ Hp Ho) as [did Hd].
  destruct (topology.TablePlacements_total c Hv) as (p & Hp' & Hall). rewrite Hp in Hp'. injection Hp' as <-.
  destruct (Hall _ _ Hd) as (d & owners' & Hin & _ & Ho' & Hlen & _). rewrite Ho in Ho'. injection Ho' as <-.
  apply topology.Validate_wf in Hv. pose proof (topology.cw_distributions _ Hv) as Hwf.
  rewrite Forall_forall in Hwf. pose proof (topology.dw_count _ _ (Hwf d Hin)) as Hpos.
  assert (table_placement (WithTableVShards registry placements) t = Some owners) as Htp by exact Ho.
  unfold VShardCountFor, VShardOwnerFor. rewrite Htp. split; [lia|]. intros v. apply slice_at_is_Some.
Qed.

Lemma registry_of_vshards b c r : registry_of b c = Ok r → vshards r = [] ∧ tableVShards r = None.
Proof.
  unfold registry_of. intros (prows & _ & Hr)%bind_ok. destruct (fold_left collect_primary _ _).
  apply bind_ok in Hr as (krows & _ & Hr). destruct (fold_left appendShardKey _ _).
  by apply bind_ok in Hr as (all & _ & [= <-]).
Qed.
Lemma loadSchema_vshards catalog pools r : loadSchema catalog pools = Ok r → vshards r = [] ∧ tableVShards r = None.
Proof.
  destruct pools as [|b rest]; [by intros [= <-]|]. intros (r' & Hr & [_ [= <-]]%seq_ok)%bind_ok.
  by eapply registry_of_vshards.
Qed.

(** What [New] has joined: the kept pools are those of the names it routes to,
    and every vshard is owned by one of them. *)
Definition joined (pools : list string) (registry : Registry) (p : list string * list string * Registry * Z) : Prop :=
  let '(kept, served, r, _) := p in
  kept ≡ₚ served ∧ kept ⊆ pools ∧ contract r = contract registry ∧ owned_by r served.

Lemma stored_or_bootstrapped_valid cfg key now found verified :
  (∀ st, found = Some st → nest.valid_topology st) →
  promises nest.valid_topology (stored_or_bootstrapped cfg key now found verified).
Proof.
  intros Hf. destruct found as [st|]; cbn [stored_or_bootstrapped].
  - apply promises_done. intros a [= <-]. by apply Hf.
  - apply promises_skip. intros boot. apply promises_on_nest, nest.VerifyOrBootstrap_ensures.
Qed.

Lemma join_fleet_joined cfg now found pools registry :
  NoDup pools → vshards registry = [] → (∀ st, found = Some st → nest.valid_topology st) →
  promises (joined pools registry) (join_fleet cfg now found pools registry).
Proof.
  intros Hnd Hv Hf. unfold join_fleet.
  eapply promises_next; [apply promises_on_nest, VerifyOrSeed_ensures|]. intros verified [rev Hver].
  eapply promises_next; [by apply stored_or_bootstrapped_valid|]. intros stored Hst.
  apply promises_topology. intros [] Hschema. apply promises_skip. intros _.
  apply promises_after. intros [kept served] Hk. pose proof Hst as Hwf. apply topology.Validate_wf in Hwf.
  apply retainActiveBurrows_ok in Hk as (-> & Hperm & Hsub & _); [|done | by apply RoutableBurrowNames_nodup].
  apply promises_topology. intros placements Hp. apply promises_skip. intros _. apply promises_done. intros [[[k n] r] z] [= <- <- <- <-].
  split; [done|]. split; [done|]. split; [by rewrite Hver|].
  eapply placements_owned; [done..|]. by rewrite Hver.
Qed.

Lemma stored_topology_valid cfg pools :
  NoDup pools →
  promises (λ p, (∀ st, p.1 = Some st → nest.valid_topology st) ∧ p.2 ⊆ pools ∧ NoDup p.2) (stored_topology cfg pools).
Proof.
  intros Hnd. unfold stored_topology.
  eapply promises_next; [apply promises_on_nest, nest.Get_ensures|]. intros [stored|] Hf; cbn in Hf.
  - apply promises_skip. intros _.
    apply promises_after. intros [kept served] Hk. pose proof (Hf _ eq_refl) as Hwf. apply topology.Validate_wf in Hwf.
    apply retainActiveBurrows_ok in Hk as (_ & _ & Hsub & Hndk); [|done | by apply RoutableBurrowNames_nodup].
    apply promises_done. intros ? [= <-]. cbn. split; [|done]. intros ? [= <-]. by apply Hf.
  - apply promises_done. by intros ? [= <-].
Qed.
End fleet_facts.

(** * Properties *)

(** What the rest of the proxy relies on: the Burrows it routes to are
    configured and have a pool, own every vshard of every sharded table, include the primary
    when unsharded tables live there, and have the schema of the registry. *)
Record serves `{MapOrder} (cfg : config.Config) (catalog : string → burrow_catalog) (m : Manager) : Prop := {
  sv_pools : shards m ≡ₚ names m;
  sv_configured : shards m ⊆ config.ShardNames cfg;
  sv_owners : owned_by (m_schema m) (names m);
  sv_primary : unshardedMode m = config.UnshardedPrimary → primaryBurrow m ∈ names m;
  sv_schema : Forall (agrees catalog (m_schema m)) (shards m);
}.

Lemma containsName_elem l want : containsName l want = true ↔ want ∈ l.
Proof.
  induction l as [|n l IH]; cbn; [split; [done | by intros ?%elem_of_nil]|].
  rewrite elem_of_cons. case_decide; naive_solver.
Qed.

Lemma agrees_subset catalog r r' kept pools :
  Forall (agrees catalog r) pools → kept ⊆ pools → contract r' = contract r → Forall (agrees catalog r') kept.
Proof.
  rewrite !Forall_forall. intros Hall Hsub Hc b Hb. destruct (Hall b (Hsub b Hb)) as (x & Hx & Hxr).
  exists x. split; [done|]. by rewrite Hc.
Qed.

Section startup.
Context `{nest.Codec, MapOrder, GoStd} (parse_pool open_pool : string → string → result string unit).

Lemma loadSchema_promise {B} catalog pools (R : B → Prop) (f : Registry → program B) :
  (∀ b, pg_names (catalog b)) →
  (∀ r, vshards r = [] → tableVShards r = None → Forall (agrees catalog r) pools → promises R (f r)) →
  promises R (next (done (loadSchema catalog pools)) f).
Proof.
  intros Hpg Hf. apply promises_after. intros r Hr. destruct (loadSchema_vshards _ _ _ Hr).
  apply Hf; [done..|]. destruct (decide (pools = [])) as [->|Hne]; [constructor|].
  by eapply loadSchema_agrees.
Qed.

(** What the two ways of starting produce. *)
Definition started cfg catalog (p : list string * list string * Registry * Z) : Prop :=
  let '(kept, served, r, _) := p in
  kept ≡ₚ served ∧ kept ⊆ config.ShardNames cfg ∧ Forall (agrees catalog r) kept ∧ owned_by r served.

Lemma start_with_nest cfg catalog now :
  (∀ b, pg_names (catalog b)) →
  promises (started cfg catalog)
    ('(found, pools) ⇐ stored_topology cfg (config.ShardNames cfg);
     registry ⇐ done (loadSchema catalog pools);
     join_fleet cfg now found pools registry).
Proof.
  intros Hpg. eapply promises_next; [apply stored_topology_valid, ShardNames_nodup|].
  intros [found pools] (Hf & Hsub & Hnd). cbn in Hf, Hsub, Hnd.
  apply loadSchema_promise; [done|]. intros registry Hv _ Hagree.
  eapply promises_impl; [by apply join_fleet_joined|].
  intros [[[kept served] r] z] (H2 & H3 & H4 & H5). split; [done|]. split; [by etrans|].
  split; [by eapply agrees_subset | done].
Qed.

Lemma start_alone cfg catalog :
  config.PhysicalShards cfg ≠ ∅ → (∀ b, pg_names (catalog b)) →
  promises (started cfg catalog)
    (registry ⇐ done (loadSchema catalog (config.ShardNames cfg));
     done (Ok (config.ShardNames cfg, config.ShardNames cfg,
       WithVShards registry (topology.LegacyModuloOwners (config.ShardNames cfg) topology.DefaultVShardCount), 0))).
Proof.
  intros Hne Hpg. apply loadSchema_promise; [done|]. intros registry Hv Ht Hagree. apply promises_done.
  intros ? [= <-]. cbn. split; [done|]. split; [done|]. split; [by eapply agrees_subset|].
  assert (config.ShardNames cfg ≠ []) as Hnames.
  { pose proof (config.first_shard_known cfg Hne) as Hk. apply config.elem_of_ShardNames in Hk. intros E.
    rewrite E in Hk. by apply elem_of_nil in Hk. }
  assert (∀ t, table_placement (WithVShards registry (topology.LegacyModuloOwners (config.ShardNames cfg)
    topology.DefaultVShardCount)) t = None) as Hplace by (intros t; unfold table_placement; cbn; by rewrite Ht).
  split.
  - intros t v name. unfold VShardOwnerFor. rewrite Hplace. intros Hl%slice_at_lookup. exact (modulo_owner_elem _ _ _ _ Hnames Hl).
  - intros t _. unfold VShardCountFor, VShardOwnerFor. rewrite Hplace. cbn [vshards WithVShards VShardOwner].
    rewrite LegacyModuloOwners_length. split; [unfold topology.DefaultVShardCount; lia|]. intros v Hrange. apply slice_at_is_Some. cbn [vshards WithVShards]. by rewrite LegacyModuloOwners_length.
Qed.

(** C16: a proxy that starts serves a coherent fleet: whatever Nest
    answers and whoever else writes to it meanwhile, a Manager that [New]
    returns routes only to configured Burrows whose pools are open and whose
    schemas agree with its registry; every sharded table, under each of its
    names, has vshards, and each of them has an owner, which is one of these
    Burrows; and so is the primary Burrow when unsharded tables need it. *)
Theorem New_serves_fleet cfg catalog now :
  config.PhysicalShards cfg ≠ ∅ → (∀ b, pg_names (catalog b)) →
  promises (serves cfg catalog) (New parse_pool open_pool cfg catalog now).
Proof.
  intros Hne Hpg. unfold New. apply promises_skip. intros _.
  eapply (promises_next (started cfg catalog)).
  - destruct (bool_decide _); [by apply start_with_nest | by apply start_alone].
  - intros [[[kept served] r] z] (Hperm & Hsub & Hagree & Hown).
    apply promises_after. intros [] Hprim. apply promises_done. intros m [= <-].
    constructor; cbn; try done. intros Hmode. apply fail_if_ok in Hprim.
    rewrite bool_decide_eq_true_2 in Hprim by done. by apply negb_false_iff, containsName_elem in Hprim.
Qed.

Lemma ReplaceVersioned_ensures key live :
  nest.ensures (λ r, ∃ rev, r = WithRevision live rev) (nest.ReplaceVersioned key live).
Proof.
  assert (∀ A (m : nest.action A), nest.ensures (λ _, True) m) as Htrue.
  { intros A m. induction m as [a|e|q k IH]; cbn; auto. }
  assert (∀ rev, nest.ensures (λ r, ∃ rev, r = WithRevision live rev) (nest.write_revision key live rev)) as Hw.
  { intros rev. apply (nest.ensures_bind (λ _, True)); [apply Htrue|]. intros [[]|e] _; cbn; [by eexists | done]. }
  apply (nest.ensures_bind (λ _, True)); [apply Htrue|]. intros [stored|] _; [|apply Hw].
  destruct (is_ok _); [by eexists | apply Hw].
Qed.

Lemma loadSchema_catalog catalog pools r :
  (∀ b, pg_names (catalog b)) → loadSchema catalog pools = Ok r → catalog_registry r.
Proof.
  intros Hpg. destruct pools as [|b rest].
  - intros [= <-]. constructor; cbn; try done; by intros k x; rewrite lookup_empty.
  - intros (r' & Hr & [_ [= <-]]%seq_ok)%bind_ok. by eapply registry_of_catalog.
Qed.

(** What a refresh that changed the registry has fetched from Nest. *)
Definition refreshed_from_nest (m' : Manager) : Prop :=
  ∃ c placements, topology.Validate c = Ok tt ∧ topology.ValidateSchema c (m_schema m') = Ok tt ∧
    topology.TablePlacements c = Ok placements ∧ tableVShards (m_schema m') = Some placements ∧
    topologyRevision m' = topology.Revision c ∧
    ∀ t, t ∈ CanonicalShardedTables (m_schema m') → is_Some (placements !! t).

Lemma refresh_with_nest registryKey topologyKey now m registry :
  promises (λ m', shards m' = shards m ∧ names m' = names m ∧
      contract (m_schema m') = contract registry ∧ refreshed_from_nest m')
    (registry ⇐ on_nest (nest.ReplaceVersioned registryKey registry);
     updated ⇐ on_nest (nest.ReconcileSchema topologyKey registry now);
     let catalog := nest.Catalog updated in
     _ ⇐ topology_of (topology.ValidateSchema catalog registry);
     placements ⇐ topology_of (topology.TablePlacements catalog);
     done (Ok (with_schema (WithTableVShards registry placements) (topology.Revision catalog) m))).
Proof.
  eapply promises_next; [apply promises_on_nest, ReplaceVersioned_ensures|]. intros r [rev ->].
  eapply promises_next; [apply promises_on_nest, nest.ReconcileSchema_ensures|]. intros stored Hst.
  apply promises_topology. intros [] Hvs. apply promises_topology. intros placements Hp.
  apply promises_done. intros ? [= <-]. do 3 (split; [done|]).
  exists (nest.Catalog stored), placements. do 5 (split; [done|]). intros t Ht. by eapply placements_cover.
Qed.

(** C24: after DDL the registry is again the schema of the fleet: a
    refresh that succeeds leaves the pools and the routing names alone and ends
    with a registry that every Burrow agrees with; with Nest, a changed schema is
    served with the placements of a valid catalog that [ValidateSchema] accepts
    for it, and every sharded table has one. *)
Theorem RefreshSchema_agrees registryKey topologyKey catalog now m :
  (∀ b, pg_names (catalog b)) → catalog_registry (m_schema m) →
  promises (λ m', shards m' = shards m ∧ names m' = names m ∧
      Forall (agrees catalog (m_schema m')) (shards m') ∧
      (has_nest m = true → m' = m ∨ refreshed_from_nest m'))
    (RefreshSchema registryKey topologyKey catalog now m).
Proof.
  intros Hpg Hm. unfold RefreshSchema. apply promises_after. intros registry Hr.
  assert (Forall (agrees catalog registry) (shards m)) as Hagree.
  { destruct (decide (shards m = [])) as [->|Hne]; [constructor|]. by eapply loadSchema_agrees. }
  assert (∀ r', contract r' = contract registry → Forall (agrees catalog r') (shards m)) as Hother.
  { intros r' Hc. by eapply agrees_subset. }
  destruct (schemaUnchanged m registry) eqn:Hu.
  - apply promises_done. intros ? [= <-]. do 2 (split; [done|]). split; [|by left]. apply Hother.
    unfold schemaUnchanged in Hu. apply is_ok_true in Hu as [[] Hu].
    apply EqualSchema_contract in Hu; [done..|]. by eapply loadSchema_catalog.
  - destruct (has_nest m).
    + eapply promises_impl; [apply refresh_with_nest|]. intros m' (Hs & Hn & Hc & Hf). rewrite Hs, Hn. auto.
    + apply promises_done. intros ? [= <-]. cbn. do 2 (split; [done|]). split; [|done]. by apply Hother.
Qed.
End startup.

(** the registry read from a Burrow has a shard key for exactly
    the tables with commented columns, under the qualified name and, in schema
    public, under the bare name: the columns, with their types, in the order of
    the query. *)
Theorem loaded_keys_exact burrow c r krows :
  registry_of burrow c = Ok r → key_rows c = Ok krows →
  ∀ t, let rows := filter (λ row, t ∈ k_names row) krows in
    tables r !! t = (match rows with [] => None | _ => Some (k_column <$> rows) end) ∧
    shardKeyTypes r !! t = (match rows with [] => None | _ => Some (k_type <$> rows) end).
Proof.
  intros (prows & krows' & all & _ & Hk & _ & Ht & Hty & _ & _)%registry_of_inv Hk' t rows. rewrite Hk in Hk'. injection Hk' as ->.
  rewrite Ht, Hty, !key_map_lookup by (intros; apply table_names_nodup). subst rows.
  by destruct (filter _ krows).
Qed.

(** a generated key is offered for rewriting only when it is the
    whole shard key and the whole primary key of its table, an integer column
    filled by an identity or a sequence. *)
Theorem generated_key_is_shard_key burrow c r prows t g :
  registry_of burrow c = Ok r → primary_rows c = Ok prows → generated r !! t = Some g →
  ShardKey r t = Some [Column g] ∧ generated_by prows t g ∧
  p_column <$> filter (λ row, t ∈ p_names row) prows = [Column g].
Proof.
  intros (prows' & krows & all & Hp & _ & _ & _ & _ & _ & Hg)%registry_of_inv Hp'. rewrite Hp in Hp'. injection Hp' as ->.
  rewrite Hg. intros Hl. apply map_lookup_filter_Some in Hl as [Hl Hs]. cbn in Hs.
  apply map_lookup_filter_Some in Hl as [Hl H1]. cbn in H1.
  apply collect_primary_generated in Hl as Hby. split; [|split; [done|]].
  - unfold ShardKey, PrimaryKey. by destruct (tables r !! t) as [l|]; cbn in Hs; [rewrite Hs|].
  - rewrite key_map_default in H1 by (intros; apply table_names_nodup).
    destruct Hby as (row & Hin & Hn & Hc & _).
    assert (p_column row ∈ p_column <$> filter (λ row, t ∈ p_names row) prows) as Hx.
    { apply list_elem_of_fmap_2, list_elem_of_filter. done. }
    rewrite Hc. destruct (p_column <$> _) as [|y [|]]; cbn in H1; try lia.
    apply list_elem_of_singleton in Hx. by rewrite Hx.
Qed.

(** * Witnesses *)

Lemma promises_run {A} `{nest.Etcd} (Q : A → Prop) (m : program A) s s' a :
  promises Q m → nest.run s m = (s', Ok (Ok a)) → Q a.
Proof.
  unfold promises, program in *. revert s. induction m as [r|e|q k IH]; intros s Hp; cbn in *.
  - intros [= _ ->]. by apply Hp.
  - done.
  - destruct (nest.serve s q) as [s1 r]. by apply IH.
Qed.

Definition key_columns : list (string * string) := [("tenant_id", "bigint"); ("region", "text")].
Definition accounts_catalog (burrow : string) : burrow_catalog := {|
  primary_rows := Ok ((λ p, {| p_namespace := "public"; p_table := "accounts"; p_column := p.1; p_ordinality := 1;
    p_identity := ""; p_default := ""; p_type := p.2 |}) <$> key_columns);
  key_rows := Ok ((λ p, {| k_namespace := "public"; k_table := "accounts"; k_column := p.1; k_type := p.2 |})
    <$> key_columns);
  inventory_rows := Ok ["public.orders"; "public.accounts"] |}.

Lemma accounts_pg_names b : pg_names (accounts_catalog b).
Proof. split; [|split]; intros rows [= <-]; by_computation. Qed.

(** A table with an identity column as its key. *)
Definition events_catalog : burrow_catalog := {|
  primary_rows := Ok [{| p_namespace := "public"; p_table := "events"; p_column := "id"; p_ordinality := 1;
    p_identity := "d"; p_default := ""; p_type := "bigint" |}];
  key_rows := Ok [{| k_namespace := "public"; k_table := "events"; k_column := "id"; k_type := "bigint" |}];
  inventory_rows := Ok ["public.events"] |}.
Definition events_registry : Registry := WithAllTables (NewWithGeneratedAndTypes
  {["public.events" := ["id"]; "events" := ["id"]]}
  {["public.events" := {| Column := "id"; Kind := "identity" |}; "events" := {| Column := "id"; Kind := "identity" |}]}
  {["public.events" := ["bigint"]; "events" := ["bigint"]]}) ["public.events"].
Lemma events_loaded : registry_of "a" events_catalog = Ok events_registry.
Proof. vm_compute. reflexivity. Qed.

Lemma loaded_keys_exact_witness :
  tables events_registry !! "events" = Some ["id"] ∧ tables events_registry !! "orders" = None.
Proof.
  split.
  - destruct (loaded_keys_exact "a" events_catalog _ _ events_loaded eq_refl "events") as [H _]. exact H.
  - destruct (loaded_keys_exact "a" events_catalog _ _ events_loaded eq_refl "orders") as [H _]. exact H.
Defined.

Lemma generated_key_is_shard_key_witness : ShardKey events_registry "events" = Some ["id"].
Proof.
  destruct (generated_key_is_shard_key "a" events_catalog _ _ "events" {| Column := "id"; Kind := "identity" |}
    events_loaded eq_refl eq_refl) as (H & _). exact H.
Defined.

(** Two configured Burrows and the topology stored for them. *)
Definition fleet_config (endpoint : string) : config.Config := {|
  config.Runtime_MaxProcs := 0; config.Listen_Address := ":6432"; config.Status_Address := ":8080";
  config.Status_Profiling := false; config.Nest_Endpoint := endpoint; config.Nest_RegistryKey := "schema";
  config.Nest_TopologyKey := "topology"; config.Nest_SequenceKey := "ids"; config.Observability_LogFile := "";
  config.Transactions_TwoPhaseCommit := None; config.Transactions_LockTimeout := "1s";
  config.PhysicalShards := {["a" := "pg-a"; "b" := "pg-b"]}; config.BackendPool_MaxConnections := 8;
  config.Unsharded_Mode := "primary"; config.Unsharded_PrimaryBurrow := "b" |}.

Section concrete_fleet.
#[local] Existing Instances canonical_order toy_std nest.history_etcd.

Definition served_burrow (name dsn : string) : topology.Burrow :=
  let '(address, fingerprint) := topology.tunnelMetadata dsn in {|
  topology.BurrowID := "id-" +:+ name; topology.Name := name; topology.State := topology.BurrowReady;
  topology.Tunnels := [{| topology.TunnelName := "primary"; topology.Address := address;
    topology.ConfigurationFingerprint := fingerprint |}];
  topology.Weight := 1; topology.CapacityBytes := 0; topology.Labels := ∅ |}.
Definition served_catalog : topology.Catalog := {|
  topology.FormatVersion := 1; topology.Revision := 3;
  topology.Schema := {| topology.RegistryFormat := 4; topology.SchemaRevision := 1;
    topology.SchemaFingerprint := Fingerprint accounts |};
  topology.Burrows := [served_burrow "a" "pg-a"; served_burrow "b" "pg-b"];
  topology.Distributions := [{| topology.DistributionID := "d"; topology.VShardCount := 3;
    topology.BurrowIDs := ["id-b"; "id-a"]; topology.OwnerIndexes := [0%N; 1%N; 0%N] |}];
  topology.TableDistributions := {["public.accounts" := "d"]};
  topology.Change := {| topology.Actor := "op"; topology.Reason := "r"; topology.Timestamp := 1 |} |}.
Definition fleet_codec : nest.Codec := nest.numbered_codec [served_catalog] accounts.
#[local] Existing Instance fleet_codec.

Definition any_pool (name dsn : string) : result string unit := Ok tt.
Definition fleet_store : nest.etcd := [nest.Stored "schema" "5"; nest.Stored "topology" "0"].
Definition started_manager : Manager := {|
  shards := ["a"; "b"]; names := ["a"; "b"];
  m_schema := WithTableVShards (WithRevision accounts 5) {["public.accounts" := ["b"; "a"; "b"]]};
  topologyRevision := 3; has_nest := true; unshardedMode := "primary"; primaryBurrow := "b" |}.

Lemma New_serves_fleet_witness :
  nest.run fleet_store (New any_pool any_pool (fleet_config "http://nest") accounts_catalog 9)
    = (fleet_store, Ok (Ok started_manager)) ∧
  serves (fleet_config "http://nest") accounts_catalog started_manager.
Proof.
  assert (nest.run fleet_store (New any_pool any_pool (fleet_config "http://nest") accounts_catalog 9)
    = (fleet_store, Ok (Ok started_manager))) as Hrun by (vm_compute; reflexivity).
  split; [exact Hrun|]. eapply promises_run; [|exact Hrun].
  apply (New_serves_fleet any_pool any_pool (fleet_config "http://nest") accounts_catalog 9).
  - by_computation.
  - exact accounts_pg_names.
Defined.

(** The Burrows now have the table events instead of accounts. *)
Definition lone_manager : Manager := {|
  shards := ["a"]; names := ["a"]; m_schema := WithVShards accounts ["a"; "a"]; topologyRevision := 0;
  has_nest := false; unshardedMode := "primary"; primaryBurrow := "a" |}.

Lemma events_pg_names : pg_names events_catalog.
Proof. split; [|split]; intros rows [= <-]; by_computation. Qed.

Lemma RefreshSchema_agrees_witness :
  promises (λ m', Forall (agrees (λ _, events_catalog) (m_schema m')) ["a"])
    (RefreshSchema "schema" "topology" (λ _, events_catalog) (2, 3, 4) lone_manager).
Proof.
  eapply promises_impl; [apply RefreshSchema_agrees|].
  - intros b. exact events_pg_names.
  - constructor; by_computation.
  - intros m' (Hs & _ & Ha & _). rewrite Hs in Ha. exact Ha.
Defined.
End concrete_fleet.

End backend.
