(* ===== verification/Pool.v ===== *)
(** Sessions on pooled connections, from [internal/backend/backend.go]: how a
    [Session] acquires a connection to a Burrow, what is cached about physical
    connections, what is reset before a connection is used by another session,
    and the gate of fleet-wide writes.

    The pool of a Burrow and its PostgreSQL connections are third-party code:
    [PgConn] is what the program calls on a connection, and [PgLaws] is the
    documented behaviour the theorems rely on. A physical connection is known by
    its Burrow and process ID; sessions share the store of connections. *)
From S2P Require Import Prelude.
From S2P Require Import GoStrings.
From S2P Require Import GoNumbers.
From S2P Require Import Schema.
From S2P Require Import PgQuery.
From S2P Require Import Session.

Module pool.

(** The calls on a connection. A call that changes its state returns the new
    state and, on failure, the text of the error. *)
Class PgConn (conn : Type) := {
  TxStatus : conn → byte;
  ParameterStatus : conn → string → string;
  (** [SELECT current_setting($1)] *)
  current_setting : conn → string → result string string;
  (** [SELECT set_config($1, $2, false)] *)
  set_config : conn → string → string → conn * option string;
  (** [SELECT name FROM pg_prepared_statements] *)
  prepared_names : conn → result string (list string);
  DeallocateAll : conn → conn * option string;
  (** A simple query, possibly of several statements. *)
  Exec : conn → string → conn * option string;
  (** A Parse message for a statement, and whether ParseComplete came back. *)
  Parse : conn → string → conn * bool;
  (** Whether the pool keeps a connection that is given back: it destroys one
      that is closed, busy or in a transaction. *)
  pool_keeps : conn → bool;
}.

(** * What the Manager remembers about connections *)

Record runtimeParamState := { baseline : gmap string string; current : gmap string string }.
Record caches := {
  prepared : gmap string (gset string);
  runtimeParams : gmap string runtimeParamState;
}.
Definition is_Some_b {A} (o : option A) : bool := match o with Some _ => true | None => false end.
Definition with_prepared (p : gmap string (gset string)) (m : caches) : caches :=
  {| prepared := p; runtimeParams := runtimeParams m |}.
Definition with_params (p : gmap string runtimeParamState) (m : caches) : caches :=
  {| prepared := prepared m; runtimeParams := p |}.

Definition preparedConnectionKey (burrow : string) (pid : Z) : string := burrow +:+ String "000" (FormatInt pid).

Definition forgetPreparedConnection (burrow : string) (pid : Z) (m : caches) : caches :=
  with_prepared (delete (preparedConnectionKey burrow pid) (prepared m)) m.
Definition forgetRuntimeParams (burrow : string) (pid : Z) (m : caches) : caches :=
  with_params (delete (preparedConnectionKey burrow pid) (runtimeParams m)) m.
Definition forget (burrow : string) (pid : Z) (m : caches) : caches :=
  forgetRuntimeParams burrow pid (forgetPreparedConnection burrow pid m).

Definition no_params : runtimeParamState := {| baseline := ∅; current := ∅ |}.
Definition params_of (key : string) (m : caches) : runtimeParamState := default no_params (runtimeParams m !! key).

Definition rememberRuntimeParamBaseline (key name value : string) (m : caches) : caches :=
  let state := params_of key m in
  with_params (<[key := match baseline state !! name with
    | Some _ => state
    | None => {| baseline := <[name := value]> (baseline state); current := <[name := value]> (current state) |}
    end]> (runtimeParams m)) m.
Definition rememberRuntimeParam (key name value : string) (m : caches) : caches :=
  let state := params_of key m in
  with_params (<[key := {| baseline := baseline state; current := <[name := value]> (current state) |}]>
    (runtimeParams m)) m.

(** The settings that differ from what the session wants. *)
Definition changedRuntimeParams (key : string) (desired : gmap string string) (m : caches) : gmap string string :=
  let state := params_of key m in
  let effective := desired ∪ baseline state in
  filter (λ p, default "" (current state !! p.1) ≠ p.2) effective.

Definition markPrepared (key name : string) (m : caches) : caches :=
  with_prepared (<[key := {[name]} ∪ default ∅ (prepared m !! key)]> (prepared m)) m.

(** The part of a key before its first NUL. *)
Definition key_burrow (key : string) : string := (Cut key "000"%char).1.1.
Definition InvalidatePreparedStatements (burrows : list string) (m : caches) : caches :=
  with_prepared (filter (λ p, key_burrow p.1 ∉ burrows) (prepared m)) m.

(** * Sessions *)

(** The connections of a session are references: Burrow and process ID. *)
Record Session := {
  shards : gmap string Z;
  s_runtimeParams : gmap string string;
  replaySQL : list string;
  fleetWriteLocked : bool;
}.
Definition NewSession (params : gmap string string) (replay : list string) : Session :=
  {| shards := ∅; s_runtimeParams := params; replaySQL := replay; fleetWriteLocked := false |}.
Definition with_shards (l : gmap string Z) (s : Session) : Session :=
  {| shards := l; s_runtimeParams := s_runtimeParams s; replaySQL := replaySQL s; fleetWriteLocked := fleetWriteLocked s |}.
Definition with_lock (b : bool) (s : Session) : Session :=
  {| shards := shards s; s_runtimeParams := s_runtimeParams s; replaySQL := replaySQL s; fleetWriteLocked := b |}.

Definition ConnectedNames (names : list string) (s : Session) : list string :=
  filter (λ name, is_Some (shards s !! name)) names.

Definition Prepared (burrow name : string) (s : Session) (m : caches) : bool :=
  match shards s !! burrow with
  | None => false
  | Some pid => bool_decide (name ∈ (default ∅ (prepared m !! preparedConnectionKey burrow pid) : gset string))
  end.
Definition MarkPrepared (burrows : list string) (name : string) (s : Session) (m : caches) : caches :=
  fold_left (λ m burrow,
    match shards s !! burrow with
    | None => m
    | Some pid => markPrepared (preparedConnectionKey burrow pid) name m
    end) burrows m.

Inductive error :=
| UnknownBurrow (burrow : string)
| ConnectFailed (burrow message : string)
| SyncFailed (burrow message : string)
| InspectFailed (burrow name message : string)
| ApplyFailed (burrow name message : string)
| ReplayFailed (burrow statement message : string).

Section sessions.
Context `{MapOrder} {conn : Type} `{PgConn conn}.

(** ** Checking a connection out *)

Definition syncPreparedStatements (burrow : string) (pid : Z) (c : conn) (m : caches) : result error caches :=
  let key := preparedConnectionKey burrow pid in
  match prepared m !! key with
  | Some _ => Ok m
  | None =>
    match prepared_names c with
    | Err e => Err (SyncFailed burrow e)
    | Ok names => Ok (with_prepared (<[key := list_to_set names]> (prepared m)) m)
    end
  end.

Definition missing_baselines (key : string) (desired : gmap string string) (m : caches) : list string :=
  sort_strings (filter (λ name, baseline (params_of key m) !! name = None) (map_range desired).*1).

Definition ensureRuntimeParamBaselines (burrow : string) (pid : Z) (c : conn) (desired : gmap string string)
    (m : caches) : result error caches :=
  let key := preparedConnectionKey burrow pid in
  mfold (λ m name,
    value ← map_err (InspectFailed burrow name) (current_setting c name);
    Ok (rememberRuntimeParamBaseline key name value m)) m (missing_baselines key desired m).

(** The loop of [applyRuntimeParams]. *)
Definition apply_changes (burrow : string) (pid : Z) (changed : gmap string string) (acc : conn * caches)
    : result error (conn * caches) :=
  mfold (λ acc name,
    let value := default "" (changed !! name) in
    match set_config acc.1 name value with
    | (_, Some e) => Err (ApplyFailed burrow name e)
    | (c, None) => Ok (c, rememberRuntimeParam (preparedConnectionKey burrow pid) name value acc.2)
    end) acc (sort_strings (map_range changed).*1).

(** On an error the caller closes the connection ([discardPooledConnection]). *)
Definition applyRuntimeParams (burrow : string) (pid : Z) (c : conn) (desired : gmap string string) (m : caches)
    : result error (conn * caches) :=
  m ← ensureRuntimeParamBaselines burrow pid c desired m;
  apply_changes burrow pid (changedRuntimeParams (preparedConnectionKey burrow pid) desired m) (c, m).

Definition replaySessionSettings (burrow : string) (c : conn) (statements : list string) : result error conn :=
  mfold (λ c statement,
    match Exec c statement with
    | (_, Some e) => Err (ReplayFailed burrow statement e)
    | (c, None) => Ok c
    end) c statements.

(** What happens to an acquired connection before the session has it. *)
Definition prepare_connection (burrow : string) (pid : Z) (s : Session) (c : conn) (m : caches)
    : result error (conn * caches) :=
  m ← syncPreparedStatements burrow pid c m;
  '(c, m) ← applyRuntimeParams burrow pid c (s_runtimeParams s) m;
  c ← replaySessionSettings burrow c (replaySQL s);
  Ok (c, m).

(** ** Giving a connection back *)

Definition pooledSessionResetSQL : string :=
  "SET SESSION AUTHORIZATION DEFAULT; RESET ALL; CLOSE ALL; UNLISTEN *; SELECT pg_advisory_unlock_all(); DISCARD PLANS; DISCARD SEQUENCES; DISCARD TEMP".

Definition resetSessionState (discardPrepared : bool) (c : conn) : conn * option string :=
  if decide (TxStatus c ≠ "I"%char) then 
    (c, Some ("Tunnel transaction status is '" +:+ String (TxStatus c) "" +:+ "', expected idle")) else
  let '(c, failure) := if discardPrepared then DeallocateAll c else (c, None) in
  match failure with
  | Some e => (c, Some ("clear prepared statement caches: " +:+ e))
  | None =>
    match Exec c (if discardPrepared then "DISCARD ALL" else pooledSessionResetSQL) with
    | (c, Some e) => (c, Some ("discard frontend session state: " +:+ e))
    | (c, None) => (c, None)
    end
  end.

(** The hook on the release of a connection to its pool. *)
Definition AfterRelease (c : conn) : bool := bool_decide (ParameterStatus c "standard_conforming_strings" = "on").

(** ** The process *)

(** All live physical connections; those not in [idle] belong to a session. *)
Record world := {
  conns : gmap (string * Z) conn;
  idle : gset (string * Z);
  sessions : gmap nat Session;
  cache : caches;
}.
Definition with_session (sid : nat) (s : Session) (w : world) : world :=
  {| conns := conns w; idle := idle w; sessions := <[sid := s]> (sessions w); cache := cache w |}.
Definition with_cache (m : caches) (w : world) : world :=
  {| conns := conns w; idle := idle w; sessions := sessions w; cache := m |}.
Definition with_conn (k : string * Z) (c : conn) (w : world) : world :=
  {| conns := <[k := c]> (conns w); idle := idle w; sessions := sessions w; cache := cache w |}.

(** A connection is closed: [BeforeClose], or [Hijack] followed by [Close]. *)
Definition close_connection (k : string * Z) (w : world) : world :=
  {| conns := delete k (conns w); idle := idle w ∖ {[k]}; sessions := sessions w; cache := forget k.1 k.2 (cache w) |}.
(** The pool gets a connection back and keeps or destroys it. *)
Definition release_connection (k : string * Z) (c : conn) (w : world) : world :=
  if pool_keeps c && AfterRelease c then
    {| conns := <[k := c]> (conns w); idle := {[k]} ∪ idle w; sessions := sessions w; cache := cache w |}
  else close_connection k w.

(** The loop of [Session.Close] for one connection; [release] turns false once
    the frontend is gone. *)
Definition close_one (discardPrepared : bool) (cancelled : string → bool) (s : Session)
    (acc : bool * world) (burrow : string) : bool * world :=
  let '(release, w) := acc in
  match pid ← shards s !! burrow; c ← conns w !! (burrow, pid); Some (pid, c) with
  | None => acc
  | Some (pid, c) =>
    let release := release && negb (cancelled burrow) in
    if release then
      match resetSessionState discardPrepared c with
      | (c, None) =>
        let m := if discardPrepared then forgetPreparedConnection burrow pid (cache w) else cache w in
        (release, release_connection (burrow, pid) c (with_cache (forgetRuntimeParams burrow pid m) w))
      | (_, Some _) => (release, close_connection (burrow, pid) w)
      end
    else (release, close_connection (burrow, pid) w)
  end.

(** [Session.Close] without the fleet-write gate. *)
Definition Close (names : list string) (release discardPrepared : bool) (cancelled : string → bool)
    (sid : nat) (s : Session) (w : world) : world :=
  (fold_left (close_one discardPrepared cancelled s) (ConnectedNames names s)
     (release, {| conns := conns w; idle := idle w; sessions := delete sid (sessions w); cache := cache w |})).2.

(** [Session.acquire] of a connection the pool has. *)
Definition acquire (names : list string) (burrow : string) (pooled : result string Z) (sid : nat) (s : Session)
    (w : world) : world * option error :=
  match shards s !! burrow with
  | Some _ => (w, None)
  | None =>
    if decide (burrow ∉ names) then (w, Some (UnknownBurrow burrow)) else
    match pooled with
    | Err e => (w, Some (ConnectFailed burrow e))
    | Ok pid =>
      match conns w !! (burrow, pid) with
      | None => (w, Some (ConnectFailed burrow "closed"))
      | Some c =>
        match prepare_connection burrow pid s c (cache w) with
        | Err e => (close_connection (burrow, pid) w, Some e)
        | Ok (c, m) =>
          (with_session sid (with_shards (<[burrow := pid]> (shards s)) s)
            {| conns := <[(burrow, pid) := c]> (conns w); idle := idle w ∖ {[(burrow, pid)]};
               sessions := sessions w; cache := m |}, None)
        end
      end
    end
  end.

(** [queryShard]: a query on a pooled connection without a session. *)
Definition query_pooled (burrow : string) (pid : Z) (text : string) (w : world) : world :=
  match conns w !! (burrow, pid) with
  | None => w
  | Some c =>
    match applyRuntimeParams burrow pid c ∅ (cache w) with
    | Err _ => close_connection (burrow, pid) w
    | Ok (c, m) => release_connection (burrow, pid) (Exec c text).1 (with_cache m w)
    end
  end.

(** * Steps of the process

    What several frontend sessions, pooled queries and the pools themselves may
    do, in any order. [burrows] are the configured Burrows. A statement is
    executed on a connection only if [runs] allows it there, without a session
    only if [pools] does; a session replays only statements that [replays]
    allows. *)
Context `{PgQuery} (burrows : list string).
Context (fresh : conn → Prop) (runs pools : string * Z → string → conn → Prop) (replays : string → Prop).

Inductive step : world → world → Prop :=
| step_new w sid params replay :
  sessions w !! sid = None → Forall replays replay →
  step w (with_session sid (NewSession params replay) w)
| step_open w burrow pid c :
  burrow ∈ burrows → conns w !! (burrow, pid) = None → fresh c →
  step w {| conns := <[(burrow, pid) := c]> (conns w); idle := {[(burrow, pid)]} ∪ idle w;
            sessions := sessions w; cache := cache w |}
| step_expire w k : k ∈ idle w → step w (close_connection k w)
| step_acquire w sid s burrow pid :
  sessions w !! sid = Some s → (burrow, pid) ∈ idle w →
  step w (acquire burrows burrow (Ok pid) sid s w).1
| step_parse w sid s burrow pid c name c' ok :
  sessions w !! sid = Some s → shards s !! burrow = Some pid → conns w !! (burrow, pid) = Some c →
  Parse c name = (c', ok) →
  step w (with_cache (if ok then MarkPrepared [burrow] name s (cache w) else cache w) (with_conn (burrow, pid) c' w))
| step_query w sid s burrow pid c text targets c' failure :
  sessions w !! sid = Some s → shards s !! burrow = Some pid → conns w !! (burrow, pid) = Some c →
  runs (burrow, pid) text c → burrow ∈ targets → Exec c text = (c', failure) →
  step w (with_cache (if negb (is_Some_b failure) && session.invalidatesPreparedStatements text
                      then InvalidatePreparedStatements targets (cache w) else cache w)
            (with_conn (burrow, pid) c' w))
| step_pooled w burrow pid c text :
  (burrow, pid) ∈ idle w → conns w !! (burrow, pid) = Some c →
  session.requiresSessionBackend text = false → pools (burrow, pid) text c →
  step w (query_pooled burrow pid text
            {| conns := conns w; idle := idle w ∖ {[(burrow, pid)]}; sessions := sessions w; cache := cache w |})
| step_invalidate w targets : step w (with_cache (InvalidatePreparedStatements targets (cache w)) w)
| step_close w sid s release discardPrepared cancelled :
  sessions w !! sid = Some s →
  step w (Close burrows release discardPrepared cancelled sid s w).

Definition start : world := {| conns := ∅; idle := ∅; sessions := ∅; cache := {| prepared := ∅; runtimeParams := ∅ |} |}.
Definition reachable : world → Prop := rtc step start.
End sessions.
Arguments world : clear implicits.

(** * Facts about the caches *)

(** What changes concerns one connection. *)
Definition only (key : string) (m m' : caches) : Prop :=
  ∀ k, k ≠ key → prepared m' !! k = prepared m !! k ∧ runtimeParams m' !! k = runtimeParams m !! k.

Lemma only_refl key m : only key m m.
Proof. by intros k _. Qed.
Lemma only_trans key m1 m2 m3 : only key m1 m2 → only key m2 m3 → only key m1 m3.
Proof. intros H1 H2 k Hk. destruct (H1 k Hk) as [<- <-]. by apply H2. Qed.

Lemma preparedConnectionKey_inj b1 p1 b2 p2 :
  "000"%char ∉ bytes_of b1 → "000"%char ∉ bytes_of b2 →
  preparedConnectionKey b1 p1 = preparedConnectionKey b2 p2 → b1 = b2 ∧ p1 = p2.
Proof.
  unfold preparedConnectionKey. intros H1 H2 E. apply app_sep_inj in E as [-> E]; [|done..].
  split; [done|]. apply (f_equal SetString10) in E. rewrite !SetString10_FormatInt in E. by injection E.
Qed.

Lemma key_burrow_spec b pid : "000"%char ∉ bytes_of b → key_burrow (preparedConnectionKey b pid) = b.
Proof.
  intros Hb. unfold key_burrow, preparedConnectionKey, Cut, IndexByte.
  rewrite IndexFunc_app; [cbn; by rewrite take_string_app| |by apply bool_decide_eq_true].
  apply Forall_forall. intros c Hc. apply negb_true_iff, bool_decide_eq_false. by intros <-.
Qed.

Lemma baseline_only key n v m : only key m (rememberRuntimeParamBaseline key n v m).
Proof. intros k Hk. cbn. split; [done|]. by rewrite lookup_insert_ne. Qed.
Lemma param_only key n v m : only key m (rememberRuntimeParam key n v m).
Proof. intros k Hk. cbn. split; [done|]. by rewrite lookup_insert_ne. Qed.
Lemma params_of_baseline key n v m :
  params_of key (rememberRuntimeParamBaseline key n v m) =
  match baseline (params_of key m) !! n with
  | Some _ => params_of key m
  | None => {| baseline := <[n := v]> (baseline (params_of key m)); current := <[n := v]> (current (params_of key m)) |}
  end.
Proof. unfold params_of at 1. cbn. by rewrite lookup_insert_eq. Qed.
Lemma forget_only b pid m : only (preparedConnectionKey b pid) m (forget b pid m).
Proof. intros k Hk. cbn. by rewrite !lookup_delete_ne. Qed.
Lemma forget_eq b pid m :
  prepared (forget b pid m) !! preparedConnectionKey b pid = None ∧
  runtimeParams (forget b pid m) !! preparedConnectionKey b pid = None.
Proof. cbn. by rewrite !lookup_delete_eq. Qed.

(** * What the program relies on *)

(** The documented behaviour of PostgreSQL behind the calls: [setting] is what
    [current_setting] shows, [reset_value] what RESET restores, [canonical n old
    v] what is shown after [n] is set to [v] when [old] was shown, since some
    settings merge the two ([DateStyle]). A setting is [alone] if setting it
    changes no other one, unlike [role] or [session_authorization]. *)
Class PgLaws (conn : Type) `{PgConn conn} := {
  setting : conn → string → string;
  reset_value : conn → string → string;
  statements : conn → gset string;
  canonical : string → string → string → string;
  alone : string → Prop;
  current_setting_ok c n v : current_setting c n = Ok v → v = setting c n;
  canonical_setting c n : canonical n (setting c n) (setting c n) = setting c n;
  set_config_ok c n v c' : set_config c n v = (c', None) →
    setting c' n = canonical n (setting c n) v ∧
    (alone n → ∀ m, ToLower m ≠ ToLower n → setting c' m = setting c m) ∧
    (∀ m, reset_value c' m = reset_value c m) ∧ statements c' = statements c;
  reset_ok c c' : Exec c pooledSessionResetSQL = (c', None) →
    (∀ n, setting c' n = reset_value c' n) ∧ statements c' = statements c;
  discard_ok c c' : Exec c "DISCARD ALL" = (c', None) → ∀ n, setting c' n = reset_value c' n;
  prepared_names_ok c l n : prepared_names c = Ok l → n ∈ l → n ∈ statements c;
  Parse_ok c n c' ok : Parse c n = (c', ok) → statements c ⊆ statements c' ∧ (ok = true → n ∈ statements c');
}.

Section checkout.
Context `{MapOrder} {conn : Type} `{PgLaws conn}.
Context (burrow : string) (pid : Z).
Abbreviation key := (preparedConnectionKey burrow pid).

(** No setting of a frontend is there under two spellings, and each changes
    itself only. *)
Definition distinct_names (params : gmap string string) : Prop :=
  (∀ n m, n ∈ dom params → m ∈ dom params → ToLower n = ToLower m → n = m) ∧ ∀ n, n ∈ dom params → alone n.

(** A connection as PostgreSQL starts it. *)
Definition clean (c : conn) : Prop := ∀ n, setting c n = reset_value c n.

(** A connection with the settings of a frontend and nothing else. *)
Definition configured (params : gmap string string) (c : conn) : Prop :=
  (∀ n v, params !! n = Some v → setting c n = canonical n (reset_value c n) v) ∧
  (∀ n, (∀ m, m ∈ dom params → ToLower m ≠ ToLower n) → setting c n = reset_value c n).

Lemma map_range_dom {A} (m : gmap string A) n : n ∈ (map_range m).*1 ↔ n ∈ dom m.
Proof.
  rewrite list_elem_of_fmap, elem_of_dom. split.
  - intros ([n' a] & -> & Hn%elem_of_map_range). by exists a.
  - intros [a Ha]. exists (n, a). split; [done|]. by apply elem_of_map_range.
Qed.

Lemma sync_ok c m m' :
  syncPreparedStatements burrow pid c m = Ok m' →
  (∀ l, prepared m !! key = Some l → l ⊆ statements c) →
  only key m m' ∧ runtimeParams m' = runtimeParams m ∧ ∃ l, prepared m' !! key = Some l ∧ l ⊆ statements c.
Proof.
  unfold syncPreparedStatements. intros Hrun Hs. destruct (prepared m !! key) as [l|] eqn:E.
  - injection Hrun as <-. split_and!; [apply only_refl | done |]. exists l. auto.
  - destruct (prepared_names c) as [l|] eqn:El; [|done]. injection Hrun as <-. split_and!; [|done|].
    + intros k Hk. cbn. by rewrite lookup_insert_ne.
    + exists (list_to_set l). split; [apply lookup_insert_eq|]. intros n Hn%elem_of_list_to_set.
      by eapply prepared_names_ok.
Qed.

(** The first inspection of a connection remembers the wanted settings as they are. *)
Definition known (c : conn) (names : list string) (m : caches) : Prop :=
  ∀ n, let v := if bool_decide (n ∈ names) then Some (setting c n) else None in
    baseline (params_of key m) !! n = v ∧ current (params_of key m) !! n = v.

Lemma ensure_ok c desired m m' :
  runtimeParams m !! key = None →
  ensureRuntimeParamBaselines burrow pid c desired m = Ok m' →
  only key m m' ∧ prepared m' = prepared m ∧ known c (elements (dom desired)) m'.
Proof.
  intros Hnone Hrun. assert (params_of key m = no_params) as Hm by (unfold params_of; by rewrite Hnone).
  assert (∀ n, n ∈ missing_baselines key desired m ↔ n ∈ elements (dom desired)) as Hmiss.
  { intros n. unfold missing_baselines.
    rewrite sort_strings_perm, list_elem_of_filter, map_range_dom, Hm, elem_of_elements. cbn.
    rewrite lookup_empty. tauto. }
  assert (only key m m' ∧ prepared m' = prepared m ∧ known c (missing_baselines key desired m) m') as (? & ? & Hk).
  { unfold ensureRuntimeParamBaselines in Hrun. revert Hrun. generalize (missing_baselines key desired m). intros names Hrun.
    apply (mfold_ind _ (λ (names : list string) m', only key m m' ∧ prepared m' = prepared m ∧ known c names m') _ _ _ Hrun).
    - split_and!; [apply only_refl | done |]. intros n. rewrite Hm. cbn. by rewrite !lookup_empty.
    - intros ds n rest m1 m2 _ (Ho & Hp & Hk) Hstep. destruct (current_setting c n) as [v|e] eqn:Ev; [|done].
      injection Hstep as <-. apply current_setting_ok in Ev as ->. split_and!.
      + eapply only_trans; [exact Ho | apply baseline_only].
      + done.
      + intros x. rewrite params_of_baseline. destruct (Hk x) as [Hb Hc]. destruct (Hk n) as [Hbn _].
        cbv zeta in *. destruct (baseline (params_of key m1) !! n) as [w|] eqn:En.
        * assert (n ∈ ds) as Hn by (case_bool_decide; [done | by rewrite Hbn in *]).
          rewrite Hb, Hc. by rewrite (bool_decide_ext (x ∈ ds ++ [n]) (x ∈ ds)) by set_solver.
        * cbn. destruct (decide (x = n)) as [->|Hne].
          -- rewrite !lookup_insert_eq, bool_decide_eq_true_2 by set_solver. done.
          -- rewrite !lookup_insert_ne by done. rewrite Hb, Hc.
             by rewrite (bool_decide_ext (x ∈ ds ++ [n]) (x ∈ ds)) by set_solver. }
  split_and!; try done. intros n. by rewrite (bool_decide_ext _ (n ∈ missing_baselines key desired m)).
Qed.

Lemma apply_changes_only changed acc acc' :
  apply_changes burrow pid changed acc = Ok acc' →
  only key acc.2 acc'.2 ∧ prepared acc'.2 = prepared acc.2 ∧ statements acc'.1 = statements acc.1.
Proof.
  unfold apply_changes. generalize (sort_strings (map_range changed).*1). intros names Hrun.
  apply (mfold_ind _ (λ _ (a : conn * caches),
    only key acc.2 a.2 ∧ prepared a.2 = prepared acc.2 ∧ statements a.1 = statements acc.1) _ _ _ Hrun);
    [by split; [apply only_refl|]|].
  intros ds n rest [c1 m1] acc2 _ (Ho & Hp & Hs) Hstep. cbn in *.
  destruct (set_config c1 n (default "" (changed !! n))) as [c2 [e|]] eqn:Ec; [done|]. injection Hstep as <-.
  apply set_config_ok in Ec as (_ & _ & _ & Ec). split_and!; [|done|cbn; congruence].
  eapply only_trans; [exact Ho | apply param_only].
Qed.

Lemma ensure_only c desired m m' :
  ensureRuntimeParamBaselines burrow pid c desired m = Ok m' → only key m m' ∧ prepared m' = prepared m.
Proof.
  unfold ensureRuntimeParamBaselines. generalize (missing_baselines key desired m). intros names Hrun.
  apply (mfold_ind _ (λ _ m', only key m m' ∧ prepared m' = prepared m) _ _ _ Hrun); [by split; [apply only_refl|]|].
  intros ds n rest m1 m2 _ [Ho Hp] Hstep. destruct (current_setting c n); [|done]. injection Hstep as <-.
  split; [|done]. eapply only_trans; [exact Ho | apply baseline_only].
Qed.

Lemma applyRuntimeParams_only c desired m c' m' :
  applyRuntimeParams burrow pid c desired m = Ok (c', m') →
  only key m m' ∧ prepared m' = prepared m ∧ statements c' = statements c.
Proof.
  unfold applyRuntimeParams. destruct (ensureRuntimeParamBaselines burrow pid c desired m) as [m1|] eqn:Ee; [|done].
  cbn [mbind result_bind]. apply ensure_only in Ee as [Ho1 Hp1]. intros (Ho2 & Hp2 & Hs)%apply_changes_only.
  cbn in *. split_and!; [by eapply only_trans | congruence | done].
Qed.

(** Setting parameters one after the other. *)
Lemma apply_changes_ok changed c m c' m' :
  distinct_names changed →
  apply_changes burrow pid changed (c, m) = Ok (c', m') →
  statements c' = statements c ∧ (∀ n, reset_value c' n = reset_value c n) ∧
  (∀ n v, changed !! n = Some v → setting c' n = canonical n (setting c n) v) ∧
  (∀ n, (∀ d, d ∈ dom changed → ToLower d ≠ ToLower n) → setting c' n = setting c n).
Proof.
  intros [Hdist Halone] Hrun. unfold apply_changes in Hrun. set (names := sort_strings (map_range changed).*1) in Hrun.
  assert (∀ n, n ∈ names ↔ n ∈ dom changed) as Hnames by (intros n; unfold names; by rewrite sort_strings_perm, map_range_dom).
  assert (NoDup names) as Hnd by (unfold names; rewrite sort_strings_perm; apply NoDup_fst_map_range).
  set (P := λ (ds : list string) (acc : conn * caches), statements acc.1 = statements c ∧ (∀ n, reset_value acc.1 n = reset_value c n) ∧
    (∀ n v, n ∈ ds → changed !! n = Some v → setting acc.1 n = canonical n (setting c n) v) ∧
    (∀ n, (∀ d, d ∈ ds → ToLower d ≠ ToLower n) → setting acc.1 n = setting c n)).
  assert (P names (c', m')) as (? & ? & Hset & Hkeep).
  { apply (mfold_ind _ P _ _ _ Hrun).
    - unfold P. split_and!; try done. intros n v Hn. by apply elem_of_nil in Hn.
    - intros ds n rest [c1 m1] acc2 Hsplit (Hs & Hr & Hset & Hkeep) Hstep. cbn in *.
      destruct (set_config c1 n (default "" (changed !! n))) as [c2 [e|]] eqn:Ec; [done|].
      injection Hstep as <-. apply set_config_ok in Ec as (E1 & E2 & E3 & E4). unfold P. cbn.
      assert (∀ d, d ∈ ds → d ≠ n) as Hds.
      { intros d Hd ->. rewrite Hsplit in Hnd. apply NoDup_app in Hnd as (_ & Hd' & _). apply (Hd' n Hd). by left. }
      assert (∀ d, d ∈ ds ++ [n] → d ∈ dom changed) as Hdom.
      { intros d Hd. apply Hnames. rewrite Hsplit. set_solver. }
      assert (alone n) as Hn by (apply Halone, Hdom; set_solver).
      split_and!.
      + congruence.
      + intros x. by rewrite E3.
      + intros x v Hx Hv. apply elem_of_app in Hx as [Hx|Hx]; [|apply list_elem_of_singleton in Hx as ->].
        * rewrite E2; [by apply Hset|done|]. intros E. apply (Hds x Hx). apply Hdist; [apply Hdom; set_solver..|done].
        * rewrite E1, Hv. cbn. f_equal. apply Hkeep. intros d Hd E. apply (Hds d Hd).
          apply Hdist; [apply Hdom; set_solver..|done].
      + intros x Hx. rewrite E2; [apply Hkeep; intros d Hd; apply Hx; set_solver|done|].
        intros E. apply (Hx n); [set_solver | done]. }
  split_and!; try done.
  - intros n v Hv. apply Hset; [|done]. apply Hnames, elem_of_dom. eauto.
  - intros n Hn. apply Hkeep. intros d Hd. apply Hn, Hnames, Hd.
Qed.

Lemma changed_lookup c desired m :
  known c (elements (dom desired)) m →
  ∀ n, changedRuntimeParams key desired m !! n =
    match desired !! n with Some v => if decide (setting c n = v) then None else Some v | None => None end.
Proof.
  intros Hk n. unfold changedRuntimeParams. cbv zeta. destruct (Hk n) as [Hb Hc]. cbv zeta in *.
  rewrite (bool_decide_ext _ (n ∈ dom desired)) in Hb, Hc by apply elem_of_elements.
  rewrite map_lookup_filter, lookup_union, Hb. destruct (desired !! n) as [v|] eqn:Ev.
  - rewrite bool_decide_eq_true_2 in Hc by (apply elem_of_dom; eauto). rewrite union_Some_l. cbn. rewrite Hc. cbn.
    destruct (decide (setting c n = v)) as [E|E]; cbn; case_guard; naive_solver.
  - rewrite bool_decide_eq_false_2 by (by apply not_elem_of_dom). done.
Qed.

Lemma applyRuntimeParams_ok c desired m c' m' :
  clean c → runtimeParams m !! key = None → distinct_names desired →
  applyRuntimeParams burrow pid c desired m = Ok (c', m') →
  only key m m' ∧ prepared m' = prepared m ∧ statements c' = statements c ∧ configured desired c'.
Proof.
  intros Hclean Hnone Hdist Hrun. unfold applyRuntimeParams in Hrun.
  destruct (ensureRuntimeParamBaselines burrow pid c desired m) as [m1|] eqn:Ee; [|done]. cbn [mbind result_bind] in Hrun.
  apply ensure_ok in Ee as (Ho & Hp & Hk); [|done]. pose proof (changed_lookup _ _ _ Hk) as Hchanged.
  assert (dom (changedRuntimeParams key desired m1) ⊆ dom desired) as Hsub.
  { intros n. rewrite !elem_of_dom, Hchanged. intros [v Hv]. destruct (desired !! n); [eauto | done]. }
  pose proof Hrun as (Ho2 & Hp2 & _)%apply_changes_only. cbn in Ho2, Hp2.
  apply apply_changes_ok in Hrun as (Hs & Hr & Hset & Hkeep).
  2:{ destruct Hdist as [Hd1 Hd2]. split; [intros n x Hn Hx; apply Hd1; by apply Hsub | intros n Hn; by apply Hd2, Hsub]. }
  split; [by eapply only_trans|]. split; [congruence|]. split; [done|]. split.
  - intros n v Hv. destruct (decide (setting c n = v)) as [<-|Hne].
    + rewrite Hr, <- Hclean. rewrite Hkeep; [symmetry; apply canonical_setting|]. intros d Hd E.
      assert (d = n) as -> by (apply (proj1 Hdist); [by apply Hsub | apply elem_of_dom; eauto | done]).
      apply elem_of_dom in Hd as [v' Hv']. rewrite Hchanged, Hv, decide_True in Hv' by done. done.
    + rewrite Hr, <- Hclean. apply Hset. by rewrite Hchanged, Hv, decide_False.
  - intros n Hn. rewrite Hkeep, Hr; [apply Hclean|]. intros d Hd. apply Hn, Hsub, Hd.
Qed.

(** Without wanted settings nothing is sent to a connection that nothing is
    remembered about. *)
Lemma applyRuntimeParams_nothing c m :
  runtimeParams m !! key = None → applyRuntimeParams burrow pid c ∅ m = Ok (c, m).
Proof.
  intros Hnone. unfold applyRuntimeParams, ensureRuntimeParamBaselines.
  assert (∀ A, (map_range (∅ : gmap string A)).*1 = []) as Hempty.
  { intros A. assert (map_range (∅ : gmap string A) = []) as ->; [|done].
    apply Permutation_nil_r. by rewrite map_range_perm, map_to_list_empty. }
  unfold missing_baselines. rewrite Hempty. cbn [filter list_filter].
  change (sort_strings []) with (@nil string). cbn [mfold mbind result_bind].
  assert (changedRuntimeParams key ∅ m = ∅) as ->.
  { unfold changedRuntimeParams, params_of. rewrite Hnone. cbn. by rewrite map_union_empty, map_filter_empty. }
  unfold apply_changes. by rewrite Hempty.
Qed.
End checkout.

(** * Every session has its connections to itself *)

Section isolation.
Context `{MapOrder} `{PgQuery} {conn : Type} `{PgLaws conn}.
Context (burrows : list string) (fresh : conn → Prop) (runs pools : string * Z → string → conn → Prop)
  (replays : string → Prop).
(** PostgreSQL identifiers and so Burrow names have no NUL. A connection starts
    with its defaults, among them the start-up parameters of the pool. *)
Hypothesis names_ok : ∀ b, b ∈ burrows → "000"%char ∉ bytes_of b.
Hypothesis fresh_ok : ∀ c, fresh c → clean c ∧ AfterRelease c = true.
Abbreviation step := (step burrows fresh runs pools replays).
Abbreviation reachable := (reachable burrows fresh runs pools replays).

Definition pkey (k : string * Z) : string := preparedConnectionKey k.1 k.2.
Lemma pkey_inj k k' : k.1 ∈ burrows → k'.1 ∈ burrows → pkey k = pkey k' → k = k'.
Proof.
  destruct k as [b p], k' as [b' p']. intros Hb1 Hb2 E. unfold pkey in E; cbn in *.
  apply preparedConnectionKey_inj in E as [-> ->]; auto.
Qed.

(** No query that runs on the connection without a session changes a setting. *)
Definition keeps_settings (k : string * Z) : Prop :=
  ∀ text c, pools k text c → clean c → clean (Exec c text).1.

Definition remembered (k : string * Z) (m : caches) : Prop :=
  prepared m !! pkey k ≠ None ∨ runtimeParams m !! pkey k ≠ None.
(** A connection that any frontend may be given. *)
Definition ready (k : string * Z) (w : world conn) : Prop :=
  ∃ c, conns w !! k = Some c ∧ (keeps_settings k → clean c) ∧ AfterRelease c = true ∧
    runtimeParams (cache w) !! pkey k = None.
Definition holds (s : Session) (k : string * Z) : Prop := shards s !! k.1 = Some k.2.
Definition free (k : string * Z) (w : world conn) : Prop :=
  ∀ sid s, sessions w !! sid = Some s → ¬ holds s k.

Record inv (w : world conn) : Prop := {
  inv_burrow k : k ∈ dom (conns w) → k.1 ∈ burrows;
  inv_idle k : k ∈ idle w → ready k w;
  inv_held sid s k : sessions w !! sid = Some s → holds s k → k ∈ dom (conns w) ∧ k ∉ idle w;
  inv_unique sid s sid' s' k :
    sessions w !! sid = Some s → sessions w !! sid' = Some s' → holds s k → holds s' k → sid = sid';
  inv_dead k : k.1 ∈ burrows → remembered k (cache w) → k ∈ dom (conns w);
  inv_replay sid s : sessions w !! sid = Some s → Forall replays (replaySQL s);
}.

Lemma ready_dom k w : ready k w → k ∈ dom (conns w).
Proof. intros (c & Hc & _). apply elem_of_dom. eauto. Qed.
Lemma idle_free w k : inv w → k ∈ idle w → free k w.
Proof. intros Hi Hk sid s Hs Hh. by destruct (inv_held _ Hi sid s k Hs Hh). Qed.

(** What happens to one connection that no session has. *)
Lemma inv_touch k w w' :
  inv w → k.1 ∈ burrows → free k w → sessions w' = sessions w →
  (∀ k', k' ≠ k → conns w' !! k' = conns w !! k' ∧ (k' ∈ idle w' ↔ k' ∈ idle w)) →
  only (pkey k) (cache w) (cache w') →
  (k ∈ idle w' → ready k w') → (remembered k (cache w') → k ∈ dom (conns w')) → inv w'.
Proof.
  intros Hi Hk Hfree Es Hother Ho Hidle Hdead.
  assert (∀ k', k' ≠ k → k' ∈ dom (conns w') ↔ k' ∈ dom (conns w)) as Hdom.
  { intros k' Hk'. by rewrite !elem_of_dom, (proj1 (Hother k' Hk')). }
  assert (∀ k', k'.1 ∈ burrows → k' ≠ k → pkey k' ≠ pkey k) as Hkey by (intros k' Hb Hk' E; by apply Hk', pkey_inj).
  assert (∀ sid s k', sessions w !! sid = Some s → holds s k' → k' ≠ k) as Hne.
  { intros sid s k' Hs Hh ->. by eapply Hfree. }
  split; rewrite ?Es.
  - intros k' Hk'. destruct (decide (k' = k)) as [->|Hne']; [done|]. apply (inv_burrow _ Hi). by apply Hdom.
  - intros k' Hk'. destruct (decide (k' = k)) as [->|Hne']; [auto|].
    destruct (Hother k' Hne') as [Ec Ei]. apply Ei, (inv_idle _ Hi) in Hk' as Hr.
    pose proof (inv_burrow _ Hi _ (ready_dom _ _ Hr)) as Hb. destruct Hr as (c & Hc & Hcl & Ha & Hp).
    exists c. rewrite Ec, (proj2 (Ho _ (Hkey k' Hb Hne'))). done.
  - intros sid s k' Hs Hh. pose proof (Hne _ _ _ Hs Hh) as Hne'. destruct (Hother k' Hne') as [_ Ei].
    rewrite Hdom, Ei by done. by apply (inv_held _ Hi sid s).
  - apply (inv_unique _ Hi).
  - intros k' Hb Hr. destruct (decide (k' = k)) as [->|Hne']; [auto|]. rewrite Hdom by done.
    apply (inv_dead _ Hi); [done|]. unfold remembered in *. destruct (Ho _ (Hkey k' Hb Hne')) as [<- <-]. done.
  - apply (inv_replay _ Hi).
Qed.

Lemma inv_close_connection k w : inv w → k.1 ∈ burrows → free k w → inv (close_connection k w).
Proof.
  intros Hi Hb Hf. apply (inv_touch k w); try done.
  - intros k' Hk'. cbn. rewrite lookup_delete_ne by done. set_solver.
  - apply forget_only.
  - cbn. set_solver.
  - intros Hr. destruct (forget_eq k.1 k.2 (cache w)) as [E1 E2]. by destruct Hr as [Hr|Hr].
Qed.

(** A connection comes back, and nothing is remembered about its settings. *)
Lemma inv_release_connection k c w m :
  inv w → k.1 ∈ burrows → free k w → (keeps_settings k → clean c) → only (pkey k) (cache w) m →
  runtimeParams m !! pkey k = None → inv (release_connection k c (with_cache m w)).
Proof.
  intros Hi Hb Hf Hc Ho Hp. unfold release_connection.
  assert (only (pkey k) (cache w) (forget k.1 k.2 m)) as Ho' by (eapply only_trans; [exact Ho | apply forget_only]).
  destruct (pool_keeps c && AfterRelease c) eqn:E; apply (inv_touch k w); try done; cbn.
  - intros k' Hk'. rewrite lookup_insert_ne by done. set_solver.
  - intros _. exists c. cbn. rewrite lookup_insert_eq. by apply andb_prop in E as [_ E].
  - intros _. rewrite dom_insert. set_solver.
  - intros k' Hk'. rewrite lookup_delete_ne by done. set_solver.
  - set_solver.
  - intros Hr. destruct (forget_eq k.1 k.2 m) as [E1 E2]. by destruct Hr as [Hr|Hr].
Qed.

(** What a session does on a connection of its own. *)
Lemma inv_held_step sid s k c w m :
  inv w → sessions w !! sid = Some s → holds s k → runtimeParams m = runtimeParams (cache w) →
  (∀ key, prepared m !! key ≠ None → prepared (cache w) !! key ≠ None ∨ key = pkey k) →
  inv (with_cache m (with_conn k c w)).
Proof.
  intros Hi Hs Hh Hp Hm. destruct (inv_held _ Hi _ _ _ Hs Hh) as [Hk Hnk].
  assert (∀ k', k' ∈ dom (<[k := c]> (conns w)) ↔ k' ∈ dom (conns w)) as Hdom.
  { intros k'. rewrite dom_insert. set_solver. }
  split; cbn.
  - intros k'. rewrite Hdom. apply (inv_burrow _ Hi).
  - intros k' Hk'. destruct (inv_idle _ Hi _ Hk') as (c' & Hc & Hcl & Ha & Hpk). exists c'. cbn.
    rewrite lookup_insert_ne by (intros ->; done). by rewrite Hp.
  - intros sid' s' k' Hs' Hh'. rewrite Hdom. by apply (inv_held _ Hi sid' s').
  - apply (inv_unique _ Hi).
  - intros k' Hb Hr. rewrite Hdom. destruct (decide (k' = k)) as [->|Hne]; [done|]. apply (inv_dead _ Hi); [done|].
    unfold remembered in *. rewrite Hp in Hr. destruct Hr as [Hr|Hr]; [|auto]. apply Hm in Hr as [Hr|Hr]; [auto|].
    destruct Hne. apply pkey_inj; [done | by apply (inv_burrow _ Hi) | done].
  - apply (inv_replay _ Hi).
Qed.

(** ** Each step *)

Lemma resetSessionState_clean discardPrepared c c' :
  resetSessionState discardPrepared c = (c', None) → clean c'.
Proof.
  unfold resetSessionState. case_decide; [done|]. destruct discardPrepared.
  - destruct (DeallocateAll c) as [c1 [e|]]; [done|]. destruct (Exec c1 _) as [c2 [e|]] eqn:E; [done|].
    intros [= <-]. intros n. by apply (discard_ok _ _ E).
  - destruct (Exec c _) as [c2 [e|]] eqn:E; [done|]. intros [= <-]. intros n. by apply (reset_ok _ _ E).
Qed.

Lemma sessions_release k c w : sessions (release_connection k c w) = sessions w.
Proof. unfold release_connection. by case_match. Qed.

Lemma inv_close_one discardPrepared cancelled s acc b :
  inv acc.2 → b ∈ burrows → (∀ k, holds s k → free k acc.2) →
  inv (close_one discardPrepared cancelled s acc b).2 ∧
  sessions (close_one discardPrepared cancelled s acc b).2 = sessions acc.2.
Proof.
  destruct acc as [release w]. intros Hi Hb Hfree. cbn [snd] in *. unfold close_one.
  destruct (shards s !! b) as [pid|] eqn:Es; cbn [mbind option_bind]; [|done].
  destruct (conns w !! (b, pid)) as [c|] eqn:Ec; cbn [mbind option_bind]; [|done]. assert (free (b, pid) w) as Hf by (by apply Hfree).
  destruct (release && negb (cancelled b)); [|split; [by apply inv_close_connection | done]].
  destruct (resetSessionState discardPrepared c) as [c' [e|]] eqn:Er; rewrite ?Er; [split; [by apply inv_close_connection | done]|].
  cbn [fst snd]. split; [|by rewrite sessions_release]. apply inv_release_connection; try done.
  - intros _. by eapply resetSessionState_clean.
  - intros k Hk. destruct discardPrepared; cbn; by rewrite ?lookup_delete_ne.
  - cbn. apply lookup_delete_eq.
Qed.

Lemma inv_end sid s w :
  inv w → sessions w !! sid = Some s →
  let w' := {| conns := conns w; idle := idle w; sessions := delete sid (sessions w); cache := cache w |} in
  inv w' ∧ ∀ k, holds s k → free k w'.
Proof.
  intros Hi Hs. cbn. split.
  - split; cbn; try by apply Hi.
    + intros sid' s' k [_ Hs']%lookup_delete_Some Hh. by apply (inv_held _ Hi sid' s').
    + intros s1 x1 s2 x2 k [_ Hs1]%lookup_delete_Some [_ Hs2]%lookup_delete_Some. by apply (inv_unique _ Hi _ x1 _ x2).
    + intros sid' s' [_ Hs']%lookup_delete_Some. by apply (inv_replay _ Hi sid').
  - intros k Hh sid' s' Hs' Hh'. cbn in Hs'. apply lookup_delete_Some in Hs' as [Hne Hs']. apply Hne.
    by apply (inv_unique _ Hi _ s _ s' k).
Qed.

(** What [Close] keeps when it keeps it for each connection. *)
Lemma close_ind (P : world conn → Prop) release discardPrepared cancelled sid s w :
  (∀ acc b, inv acc.2 → b ∈ burrows → P acc.2 → P (close_one discardPrepared cancelled s acc b).2) →
  inv w → sessions w !! sid = Some s →
  P {| conns := conns w; idle := idle w; sessions := delete sid (sessions w); cache := cache w |} →
  inv (Close burrows release discardPrepared cancelled sid s w) ∧
  P (Close burrows release discardPrepared cancelled sid s w).
Proof.
  intros Hone Hi Hs. unfold Close. destruct (inv_end sid s w Hi Hs) as [Hi' Hf]. cbn zeta in *. revert Hi' Hf.
  generalize {| conns := conns w; idle := idle w; sessions := delete sid (sessions w); cache := cache w |}.
  assert (∀ b, b ∈ ConnectedNames burrows s → b ∈ burrows) as Hsub.
  { intros b Hb. unfold ConnectedNames in Hb. by apply list_elem_of_filter in Hb as [_ Hb]. }
  revert release. induction (ConnectedNames burrows s) as [|b bs IH]; intros release w' Hi' Hf HP; [done|]. cbn [fold_left].
  pose proof (Hsub b (list_elem_of_here _ _)) as Hb. pose proof (Hone (release, w') b Hi' Hb HP) as HP1.
  destruct (inv_close_one discardPrepared cancelled s (release, w') b) as [Hi1 Es1]; [done..|].
  destruct (close_one discardPrepared cancelled s (release, w') b) as [release1 w1]. cbn [snd] in *.
  apply IH; [intros; apply Hsub; by right | done | | done]. intros k Hk. unfold free. rewrite Es1. by apply Hf.
Qed.
Lemma inv_close release discardPrepared cancelled sid s w :
  inv w → sessions w !! sid = Some s → inv (Close burrows release discardPrepared cancelled sid s w).
Proof. intros Hi Hs. by apply (close_ind (λ _, True)). Qed.

(** A connection is taken out of the pool. *)
Lemma inv_take w k :
  inv w → k ∈ idle w →
  inv {| conns := conns w; idle := idle w ∖ {[k]}; sessions := sessions w; cache := cache w |}.
Proof.
  intros Hi Hk. pose proof (inv_idle _ Hi _ Hk) as Hr. pose proof (ready_dom _ _ Hr) as Hd.
  apply (inv_touch k w); try done; cbn.
  - by apply (inv_burrow _ Hi).
  - by apply idle_free.
  - set_solver.
Qed.

Lemma inv_query_pooled w burrow pid text c :
  inv w → (burrow, pid) ∈ idle w → conns w !! (burrow, pid) = Some c → pools (burrow, pid) text c →
  inv (query_pooled burrow pid text
         {| conns := conns w; idle := idle w ∖ {[(burrow, pid)]}; sessions := sessions w; cache := cache w |}).
Proof.
  intros Hi Hk Hc Hpool. pose proof (inv_take _ _ Hi Hk) as Hi'. pose proof (idle_free _ _ Hi Hk) as Hf.
  destruct (inv_idle _ Hi _ Hk) as (c' & Hc' & Hcl & _ & Hp). rewrite Hc in Hc'. injection Hc' as <-.
  unfold query_pooled. cbn. rewrite Hc, applyRuntimeParams_nothing by done.
  apply inv_release_connection; try done.
  - apply (inv_burrow _ Hi (burrow, pid)), elem_of_dom. eauto.
  - intros Hkeep. apply Hkeep; [done | by apply Hcl].
Qed.

(** ** Acquiring a connection *)

(** What a session finds when [acquire] gave it a connection of the pool. *)
Lemma acquire_ok w sid s burrow pid w' :
  inv w → (burrow, pid) ∈ idle w → shards s !! burrow = None →
  acquire burrows burrow (Ok pid) sid s w = (w', None) →
  ∃ c c1 c' m, conns w !! (burrow, pid) = Some c ∧
    (keeps_settings (burrow, pid) → distinct_names (s_runtimeParams s) → configured (s_runtimeParams s) c1) ∧
    replaySessionSettings burrow c1 (replaySQL s) = Ok c' ∧
    prepare_connection burrow pid s c (cache w) = Ok (c', m) ∧
    w' = with_session sid (with_shards (<[burrow := pid]> (shards s)) s)
           {| conns := <[(burrow, pid) := c']> (conns w); idle := idle w ∖ {[(burrow, pid)]};
              sessions := sessions w; cache := m |}.
Proof.
  intros Hi Hk Hs Hrun. unfold acquire in Hrun. rewrite Hs in Hrun. case_decide; [done|].
  destruct (inv_idle _ Hi _ Hk) as (c & Hc & Hcl & _ & Hp). rewrite Hc in Hrun.
  destruct (prepare_connection burrow pid s c (cache w)) as [[c' m]|e] eqn:E; [|done]. injection Hrun as <-.
  pose proof E as Erun. unfold prepare_connection in Erun.
  destruct (syncPreparedStatements burrow pid c (cache w)) as [m1|] eqn:E1; [|done]. cbn [mbind result_bind] in Erun.
  destruct (applyRuntimeParams burrow pid c (s_runtimeParams s) m1) as [[c1 m2]|] eqn:E2; [|done].
  cbn [mbind result_bind] in Erun.
  destruct (replaySessionSettings burrow c1 (replaySQL s)) as [c2|] eqn:E3; [|done]. cbn [mbind result_bind] in Erun.
  injection Erun as <- <-. exists c, c1, c2, m2. split_and!; try done.
  intros Hkeep Hdist. eapply applyRuntimeParams_ok; [by apply Hcl | | done | exact E2].
  unfold syncPreparedStatements in E1. destruct (prepared (cache w) !! _); [by injection E1 as <-|].
  destruct (prepared_names c); [|done]. by injection E1 as <-.
Qed.

Lemma sync_only burrow pid c m m' : syncPreparedStatements burrow pid c m = Ok m' →
  only (preparedConnectionKey burrow pid) m m'.
Proof.
  unfold syncPreparedStatements. destruct (prepared m !! _); [intros [= <-]; apply only_refl|].
  destruct (prepared_names c); [|done]. intros [= <-] k Hk. cbn. by rewrite lookup_insert_ne.
Qed.

Lemma prepare_only burrow pid s c m c' m' :
  prepare_connection burrow pid s c m = Ok (c', m') → only (preparedConnectionKey burrow pid) m m'.
Proof.
  unfold prepare_connection. intros Hrun.
  destruct (syncPreparedStatements burrow pid c m) as [m1|] eqn:E1; [|done]. cbn [mbind result_bind] in Hrun.
  destruct (applyRuntimeParams burrow pid c (s_runtimeParams s) m1) as [[c1 m2]|] eqn:E2; [|done].
  cbn [mbind result_bind] in Hrun. destruct (replaySessionSettings _ _ _); [|done]. injection Hrun as <- <-.
  eapply only_trans; [by eapply sync_only|]. by apply applyRuntimeParams_only in E2 as [? _].
Qed.

Lemma inv_acquire w sid s burrow pid :
  inv w → sessions w !! sid = Some s → (burrow, pid) ∈ idle w →
  inv (acquire burrows burrow (Ok pid) sid s w).1.
Proof.
  intros Hi Hs Hk. pose proof (idle_free _ _ Hi Hk) as Hf. pose proof (ready_dom _ _ (inv_idle _ Hi _ Hk)) as Hd.
  pose proof (inv_burrow _ Hi _ Hd) as Hb. unfold acquire. destruct (shards s !! burrow) eqn:Esh; [done|].
  case_decide; [done|]. destruct (conns w !! (burrow, pid)) as [c|] eqn:Ec; [|done].
  destruct (prepare_connection burrow pid s c (cache w)) as [[c' m]|e] eqn:Ep; cbn [fst];
    [|by apply inv_close_connection].
  set (w1 := {| conns := <[(burrow, pid) := c']> (conns w); idle := idle w ∖ {[(burrow, pid)]};
                sessions := sessions w; cache := m |}).
  assert (inv w1) as Hi1.
  { apply (inv_touch (burrow, pid) w); try done; cbn.
    - intros k' Hk'. rewrite lookup_insert_ne by done. set_solver.
    - by eapply prepare_only.
    - set_solver.
    - intros _. rewrite dom_insert. set_solver. }
  assert (∀ s', sessions w1 !! sid = Some s' → s' = s) as Hsid by (cbn; naive_solver).
  set (s1 := with_shards (<[burrow := pid]> (shards s)) s).
  assert (∀ k, holds s1 k → k = (burrow, pid) ∨ holds s k) as Hh.
  { intros [b p]. unfold holds. cbn. destruct (decide (b = burrow)) as [->|Hne]; [rewrite lookup_insert_eq; naive_solver|].
    rewrite lookup_insert_ne by done. auto. }
  destruct Hi1 as [I1 I2 I3 I4 I5 I6]. split; cbn [conns idle sessions cache with_session].
  - exact I1.
  - exact I2.
  - intros sid' s' k Hs' Hk'. apply lookup_insert_Some in Hs' as [[<- <-]|[_ Hs']]; [|by apply (I3 sid' s')].
    apply Hh in Hk' as [->|Hk']; [|by apply (I3 sid s)]. cbn. rewrite dom_insert. set_solver.
  - intros sid1 x1 sid2 x2 k Hs1 Hs2 Hk1 Hk2.
    apply lookup_insert_Some in Hs1 as [[<- <-]|[Hn1 Hs1]], Hs2 as [[<- <-]|[Hn2 Hs2]]; [done|..|by apply (I4 _ x1 _ x2 k)].
    + apply Hh in Hk1 as [->|Hk1]; [by destruct (Hf _ _ Hs2)|by apply (I4 _ s _ x2 k)].
    + apply Hh in Hk2 as [->|Hk2]; [by destruct (Hf _ _ Hs1)|by apply (I4 _ x1 _ s k)].
  - exact I5.
  - intros sid' s' Hs'. apply lookup_insert_Some in Hs' as [[<- <-]|[_ Hs']]; [by apply (I6 sid s)|by apply (I6 sid')].
Qed.

Lemma MarkPrepared_one burrow pid name s m :
  shards s !! burrow = Some pid → MarkPrepared [burrow] name s m = markPrepared (preparedConnectionKey burrow pid) name m.
Proof. intros Hs. cbn. by rewrite Hs. Qed.

Lemma Invalidate_subset targets m key :
  prepared (InvalidatePreparedStatements targets m) !! key ≠ None → prepared m !! key ≠ None.
Proof.
  cbn. intros Hk E. apply Hk. apply map_lookup_filter_None. auto.
Qed.

Lemma inv_start : inv start.
Proof.
  split.
  - intros k Hk. cbn in Hk. by rewrite dom_empty in Hk.
  - intros k Hk. by destruct (not_elem_of_empty (C := gset (string * Z)) k).
  - done.
  - done.
  - intros k _ [Hr|Hr]; by destruct Hr.
  - done.
Qed.

Lemma inv_step w w' : inv w → step w w' → inv w'.
Proof.
  intros Hi Hstep. destruct Hstep as [w sid params replay Hs Hr | w b pid c Hb Hn Hf | w k Hk | w sid s b pid Hs Hk
    | w sid s b pid c name c' ok Hs Hh Hc Hp | w sid s b pid c text targets c' failure Hs Hh Hc Hr Hb He
    | w b pid c text Hk Hc Hq Hp | w targets | w sid s release discardPrepared cancelled Hs].
  - destruct Hi as [I1 I2 I3 I4 I5 I6]. assert (∀ k, ¬ holds (NewSession params replay) k) as Hno by done.
    split; cbn [conns idle sessions cache with_session]; try done.
    + intros sid' s' k Hs' Hk'. apply lookup_insert_Some in Hs' as [[<- <-]|[_ Hs']]; [done | by apply (I3 sid' s')].
    + intros s1 x1 s2 x2 k Hs1 Hs2 Hk1 Hk2.
      apply lookup_insert_Some in Hs1 as [[<- <-]|[_ Hs1]], Hs2 as [[<- <-]|[_ Hs2]]; try done.
      by apply (I4 _ x1 _ x2 k).
    + intros sid' s' Hs'. apply lookup_insert_Some in Hs' as [[<- <-]|[_ Hs']]; [done | by apply (I6 sid')].
  - apply fresh_ok in Hf as [Hcl Ha].
    assert ((b, pid) ∉ dom (conns w)) as Hd by (by apply not_elem_of_dom).
    apply (inv_touch (b, pid) w); try done; cbn.
    + intros sid s Hs Hh. apply Hd. by apply (inv_held _ Hi sid s).
    + intros k' Hk'. rewrite lookup_insert_ne by done. set_solver.
    + intros _. exists c. cbn. rewrite lookup_insert_eq. split_and!; try done.
      destruct (runtimeParams (cache w) !! pkey (b, pid)) eqn:E; [|done]. destruct Hd. apply (inv_dead _ Hi); [done|].
      right. by rewrite E.
    + intros _. rewrite dom_insert. set_solver.
  - apply inv_close_connection; [done | | by apply idle_free].
    by apply (inv_burrow _ Hi), ready_dom, (inv_idle _ Hi).
  - by apply inv_acquire.
  - apply (inv_held_step sid s (b, pid)); [done..|by destruct ok; [rewrite (MarkPrepared_one _ _ _ _ _ Hh)|]|].
    intros key Hkey. destruct ok; [|auto]. rewrite (MarkPrepared_one _ _ _ _ _ Hh) in Hkey. cbn in Hkey.
    destruct (decide (key = pkey (b, pid))) as [->|Hne]; [auto|]. rewrite lookup_insert_ne in Hkey by done. auto.
  - apply (inv_held_step sid s (b, pid)); [done..|by case_match|]. intros key Hkey. left.
    case_match; [by eapply Invalidate_subset | done].
  - by apply (inv_query_pooled _ _ _ _ c).
  - destruct Hi as [I1 I2 I3 I4 I5 I6]. split; try done. cbn [cache with_cache conns].
    intros k Hb [Hr|Hr]; apply I5; try done; [left; by eapply Invalidate_subset | by right].
  - by apply inv_close.
Qed.

Lemma inv_reachable w : reachable w → inv w.
Proof. apply (rtc_ind_r inv); [apply inv_start|]. intros w1 w2 _ Hs Hi. by apply (inv_step w1). Qed.

(** ** What is remembered about prepared statements

    Statements that are replayed drop no prepared statement. On a connection
    that [keeps_statements], neither does a query without a session, and a
    session drops prepared statements only by a text that succeeds and that
    [invalidatesPreparedStatements] recognises. *)
Definition replays_keep : Prop :=
  ∀ text c c', replays text → Exec c text = (c', None) → statements c ⊆ statements c'.
Definition keeps_statements (k : string * Z) : Prop :=
  (∀ text c, pools k text c → statements c ⊆ statements (Exec c text).1) ∧
  (∀ text c c' failure, runs k text c → Exec c text = (c', failure) →
     negb (is_Some_b failure) && session.invalidatesPreparedStatements text = false → statements c ⊆ statements c').

Definition sound (w : world conn) : Prop :=
  ∀ k c l, keeps_statements k → conns w !! k = Some c → prepared (cache w) !! pkey k = Some l → l ⊆ statements c.

Lemma sound_touch k w w' :
  inv w → k.1 ∈ burrows → (∀ k', k' ≠ k → conns w' !! k' = conns w !! k') → only (pkey k) (cache w) (cache w') →
  (∀ c l, keeps_statements k → conns w' !! k = Some c → prepared (cache w') !! pkey k = Some l → l ⊆ statements c) →
  sound w → sound w'.
Proof.
  intros Hi Hb Hc Ho Hk Hs k' c l Hks Hc' Hl. destruct (decide (k' = k)) as [->|Hne]; [by apply (Hk c)|].
  rewrite Hc in Hc' by done.
  assert (pkey k' ≠ pkey k) as Hkey.
  { intros E. apply Hne, pkey_inj; try done. apply (inv_burrow _ Hi), elem_of_dom. eauto. }
  rewrite (proj1 (Ho _ Hkey)) in Hl. by apply (Hs k').
Qed.

Lemma sound_cache w m :
  (∀ key l, prepared m !! key = Some l → prepared (cache w) !! key = Some l) → sound w → sound (with_cache m w).
Proof. intros Hm Hs k c l Hks Hc Hl. by apply (Hs k c l Hks Hc), Hm. Qed.

Lemma Invalidate_lookup targets m key l :
  prepared (InvalidatePreparedStatements targets m) !! key = Some l →
  prepared m !! key = Some l ∧ key_burrow key ∉ targets.
Proof. cbn. by intros [? ?]%map_lookup_filter_Some. Qed.

Lemma sound_close_connection k w : inv w → k.1 ∈ burrows → sound w → sound (close_connection k w).
Proof.
  intros Hi Hb. apply (sound_touch k); try done.
  - intros k' Hk'. cbn. by rewrite lookup_delete_ne.
  - apply forget_only.
  - intros c l _ Hc. cbn in Hc. by rewrite lookup_delete_eq in Hc.
Qed.

Lemma sound_release_connection k c w m :
  inv w → k.1 ∈ burrows → only (pkey k) (cache w) m →
  (keeps_statements k → ∀ l, prepared m !! pkey k = Some l → l ⊆ statements c) →
  sound w → sound (release_connection k c (with_cache m w)).
Proof.
  intros Hi Hb Ho Hl. unfold release_connection. destruct (pool_keeps c && AfterRelease c); apply (sound_touch k); try done; cbn.
  - intros k' Hk'. by rewrite lookup_insert_ne.
  - intros c' l Hks. rewrite lookup_insert_eq. intros [= <-]. by apply Hl.
  - intros k' Hk'. by rewrite lookup_delete_ne.
  - eapply only_trans; [exact Ho | apply forget_only].
  - intros c' l _. by rewrite lookup_delete_eq.
Qed.

Lemma resetSessionState_statements c c' : resetSessionState false c = (c', None) → statements c' = statements c.
Proof.
  unfold resetSessionState. case_decide; [done|]. destruct (Exec c _) as [c2 [e|]] eqn:E; [done|].
  intros [= <-]. by apply (reset_ok _ _ E).
Qed.

Lemma sound_close_one discardPrepared cancelled s acc b :
  inv acc.2 → b ∈ burrows → sound acc.2 → sound (close_one discardPrepared cancelled s acc b).2.
Proof.
  destruct acc as [release w]. intros Hi Hb Hsound. cbn [snd] in *. unfold close_one.
  destruct (shards s !! b) as [pid|] eqn:Es; cbn [mbind option_bind]; [|done].
  destruct (conns w !! (b, pid)) as [c|] eqn:Ec; cbn [mbind option_bind]; [|done].
  destruct (release && negb (cancelled b)); [|by apply sound_close_connection].
  destruct (resetSessionState discardPrepared c) as [c' [e|]] eqn:Er; rewrite ?Er; [by apply sound_close_connection|].
  cbn [snd]. apply sound_release_connection; try done.
  - intros k Hk. destruct discardPrepared; cbn; by rewrite ?lookup_delete_ne.
  - intros Hks l. destruct discardPrepared; cbn; [by rewrite lookup_delete_eq|]. intros Hl.
    rewrite (resetSessionState_statements _ _ Er). by apply (Hsound (b, pid)).
Qed.

Lemma sound_close release discardPrepared cancelled sid s w :
  inv w → sessions w !! sid = Some s → sound w → sound (Close burrows release discardPrepared cancelled sid s w).
Proof. intros Hi Hs Hsound. apply close_ind; [|done..]. intros acc b. by apply sound_close_one. Qed.

Lemma replay_statements burrow c l c' :
  replays_keep → Forall replays l → replaySessionSettings burrow c l = Ok c' → statements c ⊆ statements c'.
Proof.
  intros Hkeep Hl Hrun. unfold replaySessionSettings in Hrun.
  apply (mfold_ind _ (λ _ c', statements c ⊆ statements c') _ _ _ Hrun); [done|].
  intros ds text rest c1 c2 E Hc1 Hstep. destruct (Exec c1 text) as [c3 [e|]] eqn:Ee; [done|]. injection Hstep as <-.
  etrans; [exact Hc1|]. eapply Hkeep; [|exact Ee]. rewrite E, Forall_app, Forall_cons in Hl. by destruct Hl as (_ & ? & _).
Qed.

Lemma prepare_statements burrow pid s c m c' m' :
  replays_keep → Forall replays (replaySQL s) →
  (∀ l, prepared m !! preparedConnectionKey burrow pid = Some l → l ⊆ statements c) →
  prepare_connection burrow pid s c m = Ok (c', m') →
  ∃ l, prepared m' !! preparedConnectionKey burrow pid = Some l ∧ l ⊆ statements c'.
Proof.
  intros Hkeep Hl Hsound Hrun. unfold prepare_connection in Hrun.
  destruct (syncPreparedStatements burrow pid c m) as [m1|] eqn:E1; [|done]. cbn [mbind result_bind] in Hrun.
  destruct (applyRuntimeParams burrow pid c (s_runtimeParams s) m1) as [[c1 m2]|] eqn:E2; [|done].
  cbn [mbind result_bind] in Hrun.
  destruct (replaySessionSettings burrow c1 (replaySQL s)) as [c2|] eqn:E3; [|done]. injection Hrun as <- <-.
  destruct (sync_ok burrow pid c m m1 E1 Hsound) as (_ & _ & l & El & Hls).
  apply applyRuntimeParams_only in E2 as (_ & Ep & Es). exists l. rewrite Ep. split; [done|].
  etrans; [exact Hls|]. rewrite <- Es. by eapply replay_statements.
Qed.

Lemma sound_acquire w sid s b pid :
  replays_keep → inv w → sound w → sessions w !! sid = Some s → (b, pid) ∈ idle w →
  sound (acquire burrows b (Ok pid) sid s w).1.
Proof.
  intros Hreplay Hi Hsound Hs Hk. pose proof (inv_burrow _ Hi _ (ready_dom _ _ (inv_idle _ Hi _ Hk))) as Hb.
  unfold acquire. destruct (shards s !! b); [done|]. case_decide; [done|].
  destruct (conns w !! (b, pid)) as [c|] eqn:Ec; [|done].
  destruct (prepare_connection b pid s c (cache w)) as [[c' m]|e] eqn:Ep; [|by apply sound_close_connection].
  apply (sound_touch (b, pid) w); try done; cbn.
  - intros k' Hk'. by rewrite lookup_insert_ne.
  - by eapply prepare_only.
  - intros c1 l Hks. rewrite lookup_insert_eq. intros [= <-] Hl.
    destruct (prepare_statements b pid s c (cache w) c' m) as (l' & El & Hls); try done.
    + by apply (inv_replay _ Hi sid).
    + intros l' Hl'. by apply (Hsound (b, pid)).
    + unfold pkey in Hl. cbn in Hl. rewrite El in Hl. by injection Hl as <-.
Qed.

Lemma sound_parse w s b pid c name c' ok :
  inv w → sound w → shards s !! b = Some pid → conns w !! (b, pid) = Some c → Parse c name = (c', ok) →
  sound (with_cache (if ok then MarkPrepared [b] name s (cache w) else cache w) (with_conn (b, pid) c' w)).
Proof.
  intros Hi Hsound Hh Hc Hp. assert ((b, pid) ∈ dom (conns w)) as Hd by (apply elem_of_dom; eauto).
  apply Parse_ok in Hp as [Hsub Hin].
  apply (sound_touch (b, pid) w); try done; cbn [conns cache with_cache with_conn].
  - by apply (inv_burrow _ Hi (b, pid)).
  - intros k' Hk'. by rewrite lookup_insert_ne.
  - destruct ok; [|apply only_refl]. rewrite (MarkPrepared_one _ _ _ _ _ Hh). intros k Hk. cbn.
    split; [|done]. by rewrite lookup_insert_ne.
  - intros c1 l Hks. rewrite lookup_insert_eq. intros [= <-].
    destruct ok; [|intros Hl; etrans; [by apply (Hsound (b, pid))|done]].
    rewrite (MarkPrepared_one _ _ _ _ _ Hh). cbn. rewrite lookup_insert_eq. intros [= <-]. specialize (Hin eq_refl).
    destruct (prepared (cache w) !! preparedConnectionKey b pid) as [l|] eqn:El; cbn; [|set_solver].
    specialize (Hsound (b, pid) c l Hks Hc El). set_solver.
Qed.

Lemma sound_query w b pid c text targets c' failure :
  inv w → sound w → conns w !! (b, pid) = Some c → runs (b, pid) text c → b ∈ targets → Exec c text = (c', failure) →
  sound (with_cache (if negb (is_Some_b failure) && session.invalidatesPreparedStatements text
                     then InvalidatePreparedStatements targets (cache w) else cache w) (with_conn (b, pid) c' w)).
Proof.
  intros Hi Hsound Hc Hr Hb He. assert ((b, pid) ∈ dom (conns w)) as Hd by (apply elem_of_dom; eauto).
  pose proof (inv_burrow _ Hi _ Hd) as Hbb.
  destruct (negb (is_Some_b failure) && session.invalidatesPreparedStatements text) eqn:Hinv.
  - intros k c1 l Hks Hc1 Hl. cbn [conns cache with_cache with_conn] in *. apply Invalidate_lookup in Hl as [Hl Hnb].
    destruct (decide (k = (b, pid))) as [->|Hne].
    + destruct Hnb. unfold pkey. cbn. by rewrite key_burrow_spec by (by apply names_ok).
    + rewrite lookup_insert_ne in Hc1 by done. by apply (Hsound k).
  - apply (sound_touch (b, pid) w); try done; cbn [conns cache with_cache with_conn].
    + intros k' Hk'. by rewrite lookup_insert_ne.
    + intros c1 l Hks. rewrite lookup_insert_eq. intros [= <-] Hl.
      etrans; [by apply (Hsound (b, pid)) | by apply (proj2 Hks text c c' failure)].
Qed.

Lemma sound_query_pooled w b pid text c :
  inv w → sound w → (b, pid) ∈ idle w → conns w !! (b, pid) = Some c → pools (b, pid) text c →
  sound (query_pooled b pid text
           {| conns := conns w; idle := idle w ∖ {[(b, pid)]}; sessions := sessions w; cache := cache w |}).
Proof.
  intros Hi Hsound Hk Hc Hp.
  destruct (inv_idle _ Hi _ Hk) as (c' & Hc' & _ & _ & Hnp). rewrite Hc in Hc'. injection Hc' as <-.
  unfold query_pooled. cbn. rewrite Hc, applyRuntimeParams_nothing by done.
  apply sound_release_connection; try done.
  - by apply (inv_take _ _ Hi Hk).
  - apply (inv_burrow _ Hi (b, pid)), elem_of_dom. eauto.
  - intros Hks l Hl. etrans; [by apply (Hsound (b, pid)) | by apply (proj1 Hks)].
Qed.

Lemma sound_step w w' : replays_keep → inv w → sound w → step w w' → sound w'.
Proof.
  intros Hreplay Hi Hsound Hstep.
  destruct Hstep as [w sid params replay Hs Hr | w b pid c Hb Hn Hf | w k Hk | w sid s b pid Hs Hk
    | w sid s b pid c name c' ok Hs Hh Hc Hp | w sid s b pid c text targets c' failure Hs Hh Hc Hr Hb He
    | w b pid c text Hk Hc Hq Hp | w targets | w sid s release discardPrepared cancelled Hs].
  - exact Hsound.
  - apply (sound_touch (b, pid) w); try done; cbn.
    + intros k' Hk'. by rewrite lookup_insert_ne.
    + intros c' l _ _ Hl. assert ((b, pid) ∈ dom (conns w)) as Hd; [|by apply elem_of_dom in Hd as [? Hd]; rewrite Hn in Hd].
      apply (inv_dead _ Hi); [done|]. left. by rewrite Hl.
  - apply sound_close_connection; try done. by apply (inv_burrow _ Hi), ready_dom, (inv_idle _ Hi).
  - by apply sound_acquire.
  - by apply (sound_parse _ _ _ _ c).
  - by apply (sound_query _ _ _ c).
  - by apply (sound_query_pooled _ _ _ _ c).
  - apply sound_cache; [|done]. intros key l Hl. by apply Invalidate_lookup in Hl as [? _].
  - by apply sound_close.
Qed.

Lemma sound_reachable w : replays_keep → reachable w → sound w.
Proof.
  intros Hreplay Hr. cut (inv w ∧ sound w); [by intros [_ ?]|]. revert w Hr.
  apply (rtc_ind_r (λ w, inv w ∧ sound w)); [split; [apply inv_start | done]|].
  intros w1 w2 _ Hs [Hi Hsound]. split; [by apply (inv_step w1) | by apply (sound_step w1)].
Qed.

(** ** The promises *)

(** C8: in every state that the sessions, the pooled queries and the pools can
    reach, a connection a session has is open, is not in the pool and is no
    other session's. A connection in the pool has
    [standard_conforming_strings = on], and has its defaults unless a query that
    ran on it without a session changed a setting: nothing resets a connection
    after such a query. A session that acquires a pooled connection which none
    changed gets it with exactly its own settings, after which its own replay
    statements ran, if no setting is named twice and none changes another; and
    when acquiring fails the connection is closed and the session does not have
    it. No other connection changes. *)
Theorem pooled_connections_isolated w :
  reachable w →
  (∀ sid s b pid, sessions w !! sid = Some s → shards s !! b = Some pid →
     (b, pid) ∈ dom (conns w) ∧ ((b, pid) ∉ idle w) ∧
     ∀ sid' s', sessions w !! sid' = Some s' → shards s' !! b = Some pid → sid' = sid) ∧
  (∀ k, k ∈ idle w → ∃ c, conns w !! k = Some c ∧ (keeps_settings k → clean c) ∧
     ParameterStatus c "standard_conforming_strings" = "on") ∧
  (∀ sid s b pid w' failure, sessions w !! sid = Some s → (b, pid) ∈ idle w → shards s !! b = None →
     acquire burrows b (Ok pid) sid s w = (w', failure) →
     (∀ k, k ≠ (b, pid) → conns w' !! k = conns w !! k) ∧
     match failure with
     | None =>
       sessions w' = <[sid := with_shards (<[b := pid]> (shards s)) s]> (sessions w) ∧
       ∃ c c', (keeps_settings (b, pid) → distinct_names (s_runtimeParams s) → configured (s_runtimeParams s) c) ∧
         replaySessionSettings b c (replaySQL s) = Ok c' ∧ conns w' !! (b, pid) = Some c'
     | Some _ => sessions w' = sessions w ∧ conns w' !! (b, pid) = None
     end).
Proof.
  intros Hi%inv_reachable. split_and!.
  - intros sid s b pid Hs Hh. destruct (inv_held _ Hi sid s (b, pid) Hs Hh) as [Hd Hn]. split_and!; try done.
    intros sid' s' Hs' Hh'. by apply (inv_unique _ Hi sid' s' sid s (b, pid)).
  - intros k Hk. destruct (inv_idle _ Hi _ Hk) as (c & Hc & Hcl & Ha & _). exists c. split_and!; try done.
    by apply bool_decide_eq_true in Ha.
  - intros sid s b pid w' [e|] Hs Hk Hno Hrun.
    + destruct (inv_idle _ Hi _ Hk) as (c & Hc & _).
      assert (b ∈ burrows) by (apply (inv_burrow _ Hi (b, pid)), elem_of_dom; eauto).
      unfold acquire in Hrun. rewrite Hno, Hc, decide_False in Hrun by tauto.
      destruct (prepare_connection _ _ _ _ _) as [[]|]; [done|]. injection Hrun as <- <-. cbn.
      split_and!; [|done|by rewrite lookup_delete_eq]. intros k Hne. by rewrite lookup_delete_ne.
    + destruct (acquire_ok _ _ _ _ _ _ Hi Hk Hno Hrun) as (c & c1 & c' & m & _ & Hconf & Hrep & _ & ->). cbn.
      split_and!; [|done|].
      * intros k Hne. by rewrite lookup_insert_ne.
      * exists c1, c'. by rewrite lookup_insert_eq.
Qed.

(** C9: when [Prepared] answers that a session's connection has a canonical
    statement, so that its Parse is skipped, PostgreSQL has that statement on
    that connection: across sessions that hand connections on, resets, DISCARD
    ALL and pooled queries; provided that nothing dropped statements on the
    connection unseen. This condition is needed: a text that drops the statement
    but does not start with DEALLOCATE or DISCARD, or that drops it and then
    fails, leaves a reachable state in which [Prepared] is wrong. *)
Theorem prepared_cache_sound w sid s b name :
  replays_keep → reachable w → sessions w !! sid = Some s → Prepared b name s (cache w) = true →
  ∃ pid c, shards s !! b = Some pid ∧ conns w !! (b, pid) = Some c ∧
    (keeps_statements (b, pid) → name ∈ statements c) ∧
    ∀ text c' failure, runs (b, pid) text c → Exec c text = (c', failure) → name ∉ statements c' →
      session.invalidatesPreparedStatements text = false ∨ failure ≠ None →
      ∃ w', reachable w' ∧ sessions w' !! sid = Some s ∧ conns w' !! (b, pid) = Some c' ∧
        Prepared b name s (cache w') = true.
Proof.
  intros Hreplay Hr Hs Hp. pose proof (sound_reachable _ Hreplay Hr) as Hsound.
  apply inv_reachable in Hr as Hi. unfold Prepared in Hp. destruct (shards s !! b) as [pid|] eqn:Eh; [|done].
  destruct (inv_held _ Hi sid s (b, pid) Hs Eh) as [[c Hc]%elem_of_dom _].
  exists pid, c. split_and!; try done.
  - intros Hks. apply bool_decide_eq_true in Hp.
    destruct (prepared (cache w) !! preparedConnectionKey b pid) as [l|] eqn:El; cbn in Hp; [|set_solver].
    by apply (Hsound (b, pid) c l Hks Hc El).
  - intros text c' failure Hrun He Hn Hbad.
    eexists. split; [eapply rtc_r; [exact Hr|];
      eapply (step_query _ _ _ _ _ w sid s b pid c text [b] c' failure); try done; by left|].
    assert (negb (is_Some_b failure) && session.invalidatesPreparedStatements text = false) as ->.
    { destruct Hbad as [->|Hf]; [apply andb_false_r | by destruct failure]. }
    cbn. rewrite lookup_insert_eq. unfold Prepared. rewrite Eh. by split_and!.
Qed.
End isolation.

(** * The gate of fleet-wide writes

    The channel holds one token. [None] is a call that waits: to receive from
    the empty channel or to send to the full one. *)
Definition newFleetWriteGate : nat := 1.
Definition receive (gate : nat) : option nat := match gate with O => None | S n => Some n end.
Definition send (gate : nat) : option nat := match gate with O => Some 1%nat | S _ => None end.

(** [cancelled]: the select took [ctx.Done()]. The answer says whether the session has the gate. *)
Definition LockFleetWritesContext (cancelled : bool) (gate : nat) (s : Session) : option (nat * Session * bool) :=
  if fleetWriteLocked s then Some (gate, s, true) else
  if cancelled then Some (gate, s, false) else
  gate ← receive gate; Some (gate, with_lock true s, true).
Definition UnlockFleetWrites (gate : nat) (s : Session) : option (nat * Session) :=
  if negb (fleetWriteLocked s) then Some (gate, s) else
  gate ← send gate; Some (gate, with_lock false s).

(** [closures] are the results of the manager's [LockFleetWrites] that have not been called. *)
Record fleet := { tokens : nat; members : gmap nat Session; closures : gset nat }.
Inductive fleet_step : fleet → fleet → Prop :=
| fleet_new f sid s : members f !! sid = None → fleetWriteLocked s = false →
    fleet_step f {| tokens := tokens f; members := <[sid := s]> (members f); closures := closures f |}
| fleet_lock f sid s cancelled gate s' ok :
    members f !! sid = Some s → LockFleetWritesContext cancelled (tokens f) s = Some (gate, s', ok) →
    fleet_step f {| tokens := gate; members := <[sid := s']> (members f); closures := closures f |}
| fleet_unlock f sid s gate s' :
    members f !! sid = Some s → UnlockFleetWrites (tokens f) s = Some (gate, s') →
    fleet_step f {| tokens := gate; members := <[sid := s']> (members f); closures := closures f |}
| fleet_close f sid s gate s' :
    members f !! sid = Some s → UnlockFleetWrites (tokens f) s = Some (gate, s') →
    fleet_step f {| tokens := gate; members := delete sid (members f); closures := closures f |}
| fleet_manager_lock f n gate : n ∉ closures f → receive (tokens f) = Some gate →
    fleet_step f {| tokens := gate; members := members f; closures := {[n]} ∪ closures f |}
| fleet_manager_unlock f n gate : n ∈ closures f → send (tokens f) = Some gate →
    fleet_step f {| tokens := gate; members := members f; closures := closures f ∖ {[n]} |}.
Definition fleet_start : fleet := {| tokens := newFleetWriteGate; members := ∅; closures := ∅ |}.

(** Who has the gate: a session or a call of the manager. *)
Definition holder (f : fleet) (h : nat + nat) : Prop :=
  match h with
  | inl sid => ∃ s, members f !! sid = Some s ∧ fleetWriteLocked s = true
  | inr n => n ∈ closures f
  end.
Definition fleet_inv (f : fleet) : Prop :=
  (tokens f = 1%nat ∧ ∀ h, ¬ holder f h) ∨ (tokens f = O ∧ ∃ h, holder f h ∧ ∀ h', holder f h' → h' = h).

Lemma holder_update f gate sid s s' h :
  members f !! sid = Some s → fleetWriteLocked s' = fleetWriteLocked s →
  holder {| tokens := gate; members := <[sid := s']> (members f); closures := closures f |} h ↔ holder f h.
Proof.
  intros Hs Hl. destruct h as [sid'|n]; cbn; [|done]. destruct (decide (sid' = sid)) as [->|Hne].
  - rewrite lookup_insert_eq, Hs. naive_solver congruence.
  - by rewrite lookup_insert_ne.
Qed.

Lemma fleet_inv_receive f f' h0 gate :
  fleet_inv f → receive (tokens f) = Some gate → tokens f' = gate → (∀ h, holder f' h ↔ holder f h ∨ h = h0) →
  fleet_inv f'.
Proof.
  intros [[Et Hno]|[Et _]]; rewrite Et; [|done]. intros [= <-] Ef Hh. right. split; [done|]. exists h0.
  split; [apply Hh; auto|]. intros h [Hf|]%Hh; [by destruct (Hno h)|done].
Qed.
Lemma fleet_inv_send f f' h0 gate :
  fleet_inv f → holder f h0 → send (tokens f) = Some gate → tokens f' = gate →
  (∀ h, holder f' h ↔ holder f h ∧ h ≠ h0) → fleet_inv f'.
Proof.
  intros [[Et Hno]|(Et & h & Hh & Hu)] Hh0; [by destruct (Hno h0)|]. rewrite Et. intros [= <-] Ef Hf. left.
  split; [done|]. intros h' [Hh' Hne]%Hf. apply Hne. by rewrite (Hu _ Hh'), (Hu _ Hh0).
Qed.
Lemma fleet_inv_same f f' : fleet_inv f → tokens f' = tokens f → (∀ h, holder f' h ↔ holder f h) → fleet_inv f'.
Proof. unfold fleet_inv. intros Hf -> Hh. setoid_rewrite Hh. done. Qed.

Lemma fleet_inv_unlock f sid s gate s' ms :
  fleet_inv f → members f !! sid = Some s → UnlockFleetWrites (tokens f) s = Some (gate, s') →
  (∀ h, holder {| tokens := gate; members := ms; closures := closures f |} h ↔ holder f h ∧ h ≠ inl sid) →
  fleet_inv {| tokens := gate; members := ms; closures := closures f |}.
Proof.
  intros Hi Hs. unfold UnlockFleetWrites. destruct (fleetWriteLocked s) eqn:El; cbn [negb].
  - destruct (send (tokens f)) as [g|] eqn:Eg; [|done]. cbn. intros [= -> <-] Hh.
    apply (fleet_inv_send f _ (inl sid) gate); try done. by exists s.
  - intros [= <- <-] Hh. apply (fleet_inv_same f); try done. intros h. rewrite Hh. split; [tauto|].
    intros Hhf. split; [done|]. intros ->. destruct Hhf as (s1 & Hs1 & Hl1). congruence.
Qed.

Lemma fleet_inv_step f f' : fleet_inv f → fleet_step f f' → fleet_inv f'.
Proof.
  intros Hi Hstep. destruct Hstep as [f sid s Hn Hl | f sid s cancelled gate s' ok Hs Hlock | f sid s gate s' Hs Hu
    | f sid s gate s' Hs Hu | f n gate Hn Hg | f n gate Hn Hg].
  - apply (fleet_inv_same f); try done. intros [sid'|n]; cbn; [|done].
    destruct (decide (sid' = sid)) as [->|Hne]; [rewrite lookup_insert_eq, Hn | by rewrite lookup_insert_ne].
    naive_solver congruence.
  - unfold LockFleetWritesContext in Hlock. destruct (fleetWriteLocked s) eqn:El; [|destruct cancelled].
    + injection Hlock as <- <- <-. apply (fleet_inv_same f); try done. intros h. by apply (holder_update _ _ _ s s).
    + injection Hlock as <- <- <-. apply (fleet_inv_same f); try done. intros h. by apply (holder_update _ _ _ s s).
    + destruct (receive (tokens f)) as [g|] eqn:Eg; [|done]. injection Hlock as -> <- <-.
      apply (fleet_inv_receive f _ (inl sid) gate); try done. intros [sid'|n]; cbn; [|split; [auto | by intros [|]]].
      destruct (decide (sid' = sid)) as [->|Hne]; [rewrite lookup_insert_eq | rewrite lookup_insert_ne by done].
      * split; [auto|]. intros _. by exists (with_lock true s).
      * split; [auto|]. intros [?|[= ->]]; done.
  - apply (fleet_inv_unlock f sid s gate s'); try done. intros [sid'|n]; cbn; [|split; [done | by intros [? _]]].
    assert (fleetWriteLocked s' = false) as Hs'.
    { unfold UnlockFleetWrites in Hu. destruct (fleetWriteLocked s) eqn:El; [|by injection Hu as _ <-].
      destruct (send (tokens f)); [|done]. by injection Hu as _ <-. }
    destruct (decide (sid' = sid)) as [->|Hne]; [rewrite lookup_insert_eq; naive_solver congruence|].
    rewrite lookup_insert_ne by done. naive_solver.
  - apply (fleet_inv_unlock f sid s gate s'); try done. intros [sid'|n]; cbn; [|split; [done | by intros [? _]]].
    destruct (decide (sid' = sid)) as [->|Hne]; [rewrite lookup_delete_eq; naive_solver|].
    rewrite lookup_delete_ne by done. naive_solver.
  - apply (fleet_inv_receive f _ (inr n) gate); try done. intros [sid'|m]; cbn; [naive_solver | set_solver].
  - apply (fleet_inv_send f _ (inr n) gate); try done. intros [sid'|m]; cbn; [naive_solver | set_solver].
Qed.

(** C21: at most one session or call of the manager has the gate of fleet-wide
    writes; while nobody has it the next one does not wait; and giving it back
    never waits, so that [Close] and the deferred unlocks end. *)
Theorem fleet_writes_exclusive f :
  rtc fleet_step fleet_start f →
  (∀ h h', holder f h → holder f h' → h = h') ∧
  ((∀ h, ¬ holder f h) ↔ receive (tokens f) ≠ None) ∧
  (∀ sid s, members f !! sid = Some s → is_Some (UnlockFleetWrites (tokens f) s)) ∧
  (∀ n, n ∈ closures f → is_Some (send (tokens f))).
Proof.
  intros Hr. assert (fleet_inv f) as Hi.
  { revert f Hr. apply (rtc_ind_r fleet_inv); [|intros f1 f2 _ Hs Hi; by apply (fleet_inv_step f1)].
    left. split; [done|]. intros [sid|n]; cbn; [by intros (s & ? & _)|set_solver]. }
  destruct Hi as [[Et Hno]|(Et & h & Hh & Hu)]; rewrite Et; split_and!.
  - intros h h' Hh. by destruct (Hno h).
  - done.
  - intros sid s Hs. unfold UnlockFleetWrites. destruct (fleetWriteLocked s) eqn:El; [|by eexists].
    destruct (Hno (inl sid)). by exists s.
  - intros n Hn. by destruct (Hno (inr n)).
  - intros h1 h2 H1 H2. by rewrite (Hu _ H1), (Hu _ H2).
  - split; [intros Hno; by destruct (Hno h) | done].
  - intros sid s Hs. unfold UnlockFleetWrites. destruct (fleetWriteLocked s) eqn:El; by eexists.
  - intros n Hn. by eexists.
Qed.

(** * Concrete inputs *)

(** A PostgreSQL session with settings, by lower-case name, and statements. *)
Record toy := { overrides : gmap string string; toy_statements : gset string }.
Definition toy_default (n : string) : string :=
  default "" ((list_to_map [("standard_conforming_strings", "on"); ("timezone", "UTC"); ("datestyle", "ISO, MDY");
    ("intervalstyle", "postgres"); ("lock_timeout", "5s")] : gmap string string) !! n).
Definition toy_setting (c : toy) (n : string) : string := default (toy_default (ToLower n)) (overrides c !! ToLower n).
Definition toy_set (n v : string) (c : toy) : toy :=
  {| overrides := <[ToLower n := v]> (overrides c); toy_statements := toy_statements c |}.
Definition toy_exec (c : toy) (text : string) : toy :=
  if decide (text = pooledSessionResetSQL) then {| overrides := ∅; toy_statements := toy_statements c |} else
  if decide (text = "DISCARD ALL") then {| overrides := ∅; toy_statements := ∅ |} else
  if decide (text = "SET search_path TO app") then toy_set "search_path" "app" c else
  if decide (text = "DEALLOCATE ALL" ∨ text = "SELECT 1; DEALLOCATE ALL")
  then {| overrides := overrides c; toy_statements := ∅ |} else c.
Definition toy_conn : PgConn toy := {|
  TxStatus := λ _, "I"%char;
  ParameterStatus := toy_setting;
  current_setting := λ c n, Ok (toy_setting c n);
  set_config := λ c n v, (toy_set n v c, None);
  prepared_names := λ c, Ok (elements (toy_statements c));
  DeallocateAll := λ c, ({| overrides := overrides c; toy_statements := ∅ |}, None);
  Exec := λ c text, (toy_exec c text, None);
  Parse := λ c name, ({| overrides := overrides c; toy_statements := {[name]} ∪ toy_statements c |}, true);
  pool_keeps := λ _, true;
|}.
#[local] Existing Instance toy_conn.
#[local] Existing Instance canonical_order.

Lemma toy_set_ok c n v c' : (toy_set n v c, @None string) = (c', None) →
  toy_setting c' n = v ∧ (∀ m, ToLower m ≠ ToLower n → toy_setting c' m = toy_setting c m) ∧
  (∀ m, toy_default (ToLower m) = toy_default (ToLower m)) ∧ toy_statements c' = toy_statements c.
Proof.
  intros [= <-]. unfold toy_setting, toy_set. cbn. rewrite lookup_insert_eq. split_and!; try done.
  intros m Hm. by rewrite lookup_insert_ne.
Qed.

Definition toy_laws : PgLaws toy.
Proof.
  refine {| setting := toy_setting; reset_value := λ _ n, toy_default (ToLower n);
            statements := toy_statements; canonical := λ _ _ v, v; alone := λ _, True |}.
  - intros c n v [= <-]. done.
  - done.
  - intros c n v c' (E1 & E2 & E3 & E4)%toy_set_ok. by split_and!.
  - intros c c' [= <-]. done.
  - intros c c' [= <-]. done.
  - intros c l n [= <-]. set_solver.
  - intros c n c' ok [= <- <-]. cbn. set_solver.
Defined.
#[local] Existing Instance toy_laws.

Definition toy_fresh (c : toy) : Prop := c = {| overrides := ∅; toy_statements := ∅ |}.
Definition toy_runs (k : string * Z) (text : string) (c : toy) : Prop :=
  text = "SELECT 1" ∨ text = "DEALLOCATE ALL" ∨ k.2 = 9 ∧ text = "SELECT 1; DEALLOCATE ALL".
Definition toy_pools (k : string * Z) (text : string) (c : toy) : Prop := text = "SELECT 1".
Definition toy_replays (text : string) : Prop := text = "SET search_path TO app".
Definition no_parser : PgQuery := {| PgQuery.Parse := λ _, None; PgQuery.Deparse := λ _, None |}.
#[local] Existing Instance no_parser.
Abbreviation toy_reachable := (reachable ["a"] toy_fresh toy_runs toy_pools toy_replays).
Abbreviation toy_step := (step ["a"] toy_fresh toy_runs toy_pools toy_replays).

(** A session with a time zone and a search path has a connection to Burrow a
    and prepared a statement on it; another connection is in the pool. *)
Definition toy_session : Session := NewSession {["TimeZone" := "CET"]} ["SET search_path TO app"].
Definition toy_connected : Session := with_shards {["a" := 7]} toy_session.
Definition toy_open (pid : Z) (w : world toy) : world toy :=
  {| conns := <[("a", pid) := {| overrides := ∅; toy_statements := ∅ |}]> (conns w); idle := {[("a", pid)]} ∪ idle w;
     sessions := sessions w; cache := cache w |}.
Definition toy_acquired : world toy :=
  (acquire ["a"] "a" (Ok 7) 1 toy_session (toy_open 8 (toy_open 7 (with_session 1 toy_session start)))).1.
Definition toy_settings : toy := {| overrides := {["timezone" := "CET"; "search_path" := "app"]}; toy_statements := ∅ |}.
Definition toy_world : world toy :=
  with_cache (MarkPrepared ["a"] "q" toy_connected (cache toy_acquired))
    (with_conn ("a", 7) (Parse toy_settings "q").1 toy_acquired).

Lemma toy_world_reachable : toy_reachable toy_world.
Proof.
  eapply rtc_r; [eapply rtc_r; [eapply rtc_r; [eapply rtc_r; [apply rtc_once|]|]|]|].
  - apply (step_new _ _ _ _ _ _ 1%nat {["TimeZone" := "CET"]} ["SET search_path TO app"]); [done | by repeat constructor].
  - by apply (step_open _ _ _ _ _ _ "a" 7); [left | vm_compute |].
  - by apply (step_open _ _ _ _ _ _ "a" 8); [left | vm_compute |].
  - apply (step_acquire _ _ _ _ _ _ 1%nat toy_session "a" 7); [by vm_compute | cbn; set_solver].
  - apply (step_parse _ _ _ _ _ toy_acquired 1%nat toy_connected "a" 7 toy_settings "q" (Parse toy_settings "q").1 true);
      by vm_compute.
Qed.

Lemma toy_names : ∀ b, b ∈ ["a"] → "000"%char ∉ bytes_of b.
Proof. intros b Hb. apply list_elem_of_singleton in Hb as ->. by apply (bool_decide_unpack _). Qed.
Lemma toy_fresh_ok : ∀ c, toy_fresh c → clean c ∧ AfterRelease c = true.
Proof. intros c ->. split; [by intros n | by vm_compute]. Qed.
Lemma toy_keeps_settings k : keeps_settings toy_pools k.
Proof. by intros text c ->. Qed.

Lemma pooled_connections_isolated_witness :
  toy_reachable toy_world ∧ ("a", 8) ∈ idle toy_world ∧
  ("a", 7) ∈ dom (conns toy_world) ∧
  ∃ c, conns toy_world !! ("a", 8) = Some c ∧ clean c.
Proof.
  destruct (pooled_connections_isolated ["a"] toy_fresh toy_runs toy_pools toy_replays toy_names toy_fresh_ok
    toy_world toy_world_reachable) as (Hheld & Hidle & _).
  assert (("a", 8) ∈ idle toy_world) as H8 by by_computation.
  split_and!; [apply toy_world_reachable | done | | ].
  - apply (Hheld 1%nat toy_connected "a" 7); by vm_compute.
  - destruct (Hidle _ H8) as (c & Hc & Hcl & _). exists c. split; [exact Hc | exact (Hcl (toy_keeps_settings _))].
Defined.

Lemma toy_replays_keep : replays_keep toy_replays.
Proof. by intros text c c' -> [= <-]. Qed.

Lemma prepared_cache_sound_witness :
  Prepared "a" "q" toy_connected (cache toy_world) = true ∧
  ∃ pid c, shards toy_connected !! "a" = Some pid ∧ conns toy_world !! ("a", pid) = Some c ∧ "q" ∈ statements c.
Proof.
  split; [by vm_compute|].
  destruct (prepared_cache_sound ["a"] toy_fresh toy_runs toy_pools toy_replays toy_names toy_fresh_ok
    toy_world 1%nat toy_connected "a" "q" toy_replays_keep toy_world_reachable eq_refl ltac:(by vm_compute))
    as (pid & c & Hh & Hc & Hq & _).
  exists pid, c. split_and!; [exact Hh | exact Hc|]. apply Hq. injection Hh as <-. split.
  - by intros text c' ->.
  - intros text c0 c' failure [->|[->|[E _]]] [= <- <-]; [done | by vm_compute | discriminate E].
Defined.

Lemma fleet_writes_exclusive_witness :
  let f := {| tokens := 0; members := {[1%nat := with_lock true toy_session]}; closures := ∅ |} in
  rtc fleet_step fleet_start f ∧ holder f (inl 1%nat) ∧ is_Some (UnlockFleetWrites (tokens f) (with_lock true toy_session)).
Proof.
  assert (rtc fleet_step fleet_start {| tokens := 0; members := {[1%nat := with_lock true toy_session]}; closures := ∅ |}) as Hr.
  { eapply rtc_l; [apply (fleet_new _ 1%nat toy_session); by vm_compute|].
    apply rtc_once. exact (fleet_lock {| tokens := 1; members := {[1%nat := toy_session]}; closures := ∅ |}
      1%nat toy_session false 0%nat (with_lock true toy_session) true eq_refl eq_refl). }
  split_and!; [done | by exists (with_lock true toy_session) |].
  by apply (proj1 (proj2 (proj2 (fleet_writes_exclusive _ Hr))) 1%nat).
Defined.
End pool.
