(* ===== verification/Barrier.v ===== *)
(** The schema refresh barrier that the sessions of a Proxy share, from
    [internal/proxy/server.go]: [beginSchemaCommit], [refreshSchemaAfterDDL],
    [refreshSchemaIfPending], [refreshSchemaBarrier] and its call before every
    message, with [RefreshSchema] and [loadSchema] of
    [internal/backend/backend.go].

    A method is a program whose operations are atomic: the loads and stores of
    [schemaRefreshPending], the mutex [schemaRefreshMu], the requests to the
    Burrows.  Sessions interleave between operations, and a Burrow executes a
    statement at any time after it was sent, also after the Proxy gave up
    waiting for its reply.  The pool of a Burrow has a limit: a session keeps
    the connection it took until its message, or its transaction, is over, and
    [loadSchema] waits for a free one without end. *)
From stdpp Require Import functions.
From S2P Require Import Prelude.

Module barrier.

(** * Programs *)

(** What a session learns of a statement: its success, its error, or that the
    connection is lost. *)
Inductive reply := Committed | Rejected | Lost.

Inductive prog :=
| Done (error : option string)
(** [s.schemaRefreshPending.Load()] and [.Store(b)] *)
| LoadPending (k : bool → prog)
| StorePending (b : bool) (k : prog)
(** [s.schemaRefreshMu.Lock()] and [.Unlock()] *)
| LockMutex (k : prog)
| UnlockMutex (k : prog)
(** the catalog queries on one Burrow; [None] is an error, or a catalog that
    differs from that of the first Burrow *)
| LoadCatalog (burrow : string) (k : option nat → prog)
(** from the comparison with the current registry to [m.schema = registry] *)
| PublishSchema (catalogs : gmap string nat) (k : option string → prog)
(** a statement that commits a schema change, and its reply *)
| SendSchema (burrow : string) (k : option nat → prog)
| ReceiveReply (statement : nat) (k : reply → prog)
(** the statement is analysed with the current registry *)
| Route (k : prog)
(** the statement runs; afterwards the transaction of the session holds locks
    on these Burrows, and the session pooled connections to those and to [kept] *)
| Execute (locks kept : gset string) (k : prog)
(** the other pooled connections of the session go back *)
| Release (kept : gset string) (k : prog).

(** * The methods *)

Fixpoint loadSchema (burrows : list string) (loaded : gmap string nat)
  (k : result string (gmap string nat) → prog) : prog :=
  match burrows with
  | [] => k (Ok loaded)
  | burrow :: rest =>
    LoadCatalog burrow (λ catalog,
      match catalog with
      | None => k (Err "inspect schema on Burrow")
      | Some version => loadSchema rest (<[burrow := version]> loaded) k
      end)
  end.

Fixpoint send_all (targets : list string) (sent : list nat) (k : option (list nat) → prog) : prog :=
  match targets with
  | [] => k (Some sent)
  | target :: rest =>
    SendSchema target (λ id,
      match id with None => k None | Some n => send_all rest (sent ++ [n]) k end)
  end.
(** The first lost connection ends the wait; an error is one of the replies. *)
Fixpoint receive_all (sent : list nat) (failed : bool) (k : option bool → prog) : prog :=
  match sent with
  | [] => k (Some failed)
  | n :: rest =>
    ReceiveReply n (λ r,
      match r with
      | Committed => receive_all rest failed k
      | Rejected => receive_all rest true k
      | Lost => k None
      end)
  end.
Definition exchange (targets : list string) (k : option bool → prog) : prog :=
  send_all targets [] (λ sent,
    match sent with None => k None | Some sent => receive_all sent false k end).

(** [k] gets the function that [beginSchemaCommit] returns. *)
Definition beginSchemaCommit (required : bool) (k : (prog → prog) → prog) : prog :=
  if required then LockMutex (StorePending true (k UnlockMutex)) else k (λ p, p).

Section methods.
Context (burrows : list string).

Definition RefreshSchema (k : option string → prog) : prog :=
  loadSchema burrows ∅ (λ r,
    match r with
    | Err e => k (Some e)
    | Ok loaded => PublishSchema loaded k
    end).

Definition refreshSchemaIfPending (k : option string → prog) : prog :=
  LoadPending (λ pending,
    if negb pending then k None else
    LockMutex (LoadPending (λ pending,
      if negb pending then UnlockMutex (k None) else
      RefreshSchema (λ err,
        match err with
        | Some e => UnlockMutex (k (Some e))
        | None => StorePending false (UnlockMutex (k None))
        end)))).

Definition refreshSchemaAfterDDL (k : option string → prog) : prog :=
  StorePending true (refreshSchemaIfPending k).

Definition refreshSchemaBarrier (localDirty : bool) (k : option string → prog) : prog :=
  if localDirty then refreshSchemaAfterDDL k else refreshSchemaIfPending k.

(** A request of a client: a statement after which its transaction holds locks
    on some Burrows (none after COMMIT) and the session pooled connections to
    those and some others, or one that commits a schema change on its targets,
    after which the session keeps some of its connections. For several targets
    the handlers run [commitTwoPhase] in place of the exchange; it sends its
    commands between the same two calls. *)
Inductive request :=
| Statement (locks kept : gset string)
| SchemaChange (targets : list string) (kept : gset string).

Definition handle (r : request) : prog :=
  match r with
  | Statement locks kept => Route (Execute locks kept (Done None))
  | SchemaChange targets kept =>
    Route (beginSchemaCommit true (λ finishSchemaCommit,
      exchange targets (λ failed, finishSchemaCommit
        match failed with
        | None => Release kept (Done (Some "08006"))
        | Some true => Release kept (Done (Some "rejected"))
        | Some false => refreshSchemaAfterDDL (λ err, Release kept (Done err))
        end)))
  end.

(** One message: [dirty] is [state.schemaDirty && !state.transaction]. *)
Definition serve_request (dirty : bool) (r : request) : prog :=
  let refreshed := refreshSchemaBarrier dirty (λ err,
    match err with Some e => Done (Some e) | None => handle r end) in
  if dirty then refreshed else
  LoadPending (λ pending, if pending then refreshed else handle r).
End methods.

(** * The process *)

(** A session: what is left of the request it serves, and the catalog versions
    whose schema changes had been reported when that request began. *)
Record thread := { code : prog; began : string → nat }.
Inductive progress := InFlight | Executed | Refused.
#[export] Instance progress_eq_dec : EqDecision progress.
Proof. solve_decision. Defined.
Record statement := { st_session : nat; st_burrow : string; st_progress : progress }.

(** [catalogs] counts the schema changes each Burrow has executed; [known] is
    the version of each Burrow that the registry [m.schema] agrees with;
    [reported] is the version of the Burrow when the success of a schema change
    was last received from it; [held] are the sessions that have a pooled
    connection to the Burrow. *)
Record process := {
  pending : bool; mutex : option nat;
  catalogs : string → nat; known : string → nat; reported : string → nat;
  statements : list statement; locked : gmap string nat; held : string → gset nat;
  sessions : gmap nat thread;
}.

Definition start (versions : string → nat) : process := {|
  pending := false; mutex := None;
  catalogs := versions; known := versions; reported := versions;
  statements := []; locked := ∅; held := λ _, ∅; sessions := ∅ |}.

Definition with_pending (b : bool) (s : process) : process := {|
  pending := b; mutex := mutex s; catalogs := catalogs s; known := known s; reported := reported s;
  statements := statements s; locked := locked s; held := held s; sessions := sessions s |}.
Definition with_mutex (m : option nat) (s : process) : process := {|
  pending := pending s; mutex := m; catalogs := catalogs s; known := known s; reported := reported s;
  statements := statements s; locked := locked s; held := held s; sessions := sessions s |}.
Definition with_known (loaded : gmap string nat) (s : process) : process := {|
  pending := pending s; mutex := mutex s; catalogs := catalogs s;
  known := λ b, default (known s b) (loaded !! b); reported := reported s;
  statements := statements s; locked := locked s; held := held s; sessions := sessions s |}.
Definition with_reported (b : string) (s : process) : process := {|
  pending := pending s; mutex := mutex s; catalogs := catalogs s; known := known s;
  reported := <[b := catalogs s b]> (reported s);
  statements := statements s; locked := locked s; held := held s; sessions := sessions s |}.
Definition with_statements (l : list statement) (s : process) : process := {|
  pending := pending s; mutex := mutex s; catalogs := catalogs s; known := known s; reported := reported s;
  statements := l; locked := locked s; held := held s; sessions := sessions s |}.
Definition with_locked (l : gmap string nat) (s : process) : process := {|
  pending := pending s; mutex := mutex s; catalogs := catalogs s; known := known s; reported := reported s;
  statements := statements s; locked := l; held := held s; sessions := sessions s |}.
Definition with_held (h : string → gset nat) (s : process) : process := {|
  pending := pending s; mutex := mutex s; catalogs := catalogs s; known := known s; reported := reported s;
  statements := statements s; locked := locked s; held := h; sessions := sessions s |}.
Definition with_executed (b : string) (s : process) : process := {|
  pending := pending s; mutex := mutex s; catalogs := <[b := S (catalogs s b)]> (catalogs s);
  known := known s; reported := reported s;
  statements := statements s; locked := locked s; held := held s; sessions := sessions s |}.
Definition with_thread (i : nat) (t : thread) (s : process) : process := {|
  pending := pending s; mutex := mutex s; catalogs := catalogs s; known := known s; reported := reported s;
  statements := statements s; locked := locked s; held := held s; sessions := <[i := t]> (sessions s) |}.
Definition goto (i : nat) (t : thread) (p : prog) (s : process) : process :=
  with_thread i {| code := p; began := began t |} s.

(** The transaction of another session holds a lock on the Burrow. *)
Definition blocked (s : process) (i : nat) (b : string) : bool :=
  match locked s !! b with Some j => bool_decide (j ≠ i) | None => false end.
Definition take_locks (i : nat) (locks : gset string) (l : gmap string nat) : gmap string nat :=
  gset_to_gmap i locks ∪ filter (λ x, x.2 ≠ i) l.

Section interleaving.
Context (burrows : list string) (limit : string → nat) (lock_timeout : nat → bool).

(** The pool of the Burrow has a connection that no session holds. *)
Definition free (s : process) (b : string) : bool := bool_decide (size (held s b) < limit b)%nat.
(** The session has a connection to the Burrow, or gets one at once. *)
Definition connects (i : nat) (s : process) (b : string) : bool := bool_decide (i ∈ held s b) || free s b.
Definition take_connections (i : nat) (bs : gset string) (h : string → gset nat) : string → gset nat :=
  λ b, if decide (b ∈ bs) then {[i]} ∪ h b else h b.
Definition keep_connections (i : nat) (bs : gset string) (h : string → gset nat) : string → gset nat :=
  λ b, if decide (b ∈ bs) then h b else h b ∖ {[i]}.

(** The next operation of session [i]; [fault] makes it fail if it can. A query
    of [loadSchema] takes a connection of its own and gives it back; it waits
    for a free one, with a context that is never done. *)
Definition act (i : nat) (fault : bool) (t : thread) (s : process) : option process :=
  match code t with
  | Done _ => None
  | LoadPending k => Some (goto i t (k (pending s)) s)
  | StorePending b k => Some (goto i t k (with_pending b s))
  | LockMutex k => match mutex s with None => Some (goto i t k (with_mutex (Some i) s)) | Some _ => None end
  | UnlockMutex k => Some (goto i t k (with_mutex None s))
  | LoadCatalog b k =>
    if free s b then Some (goto i t (k (if fault then None else Some (catalogs s b))) s) else None
  | PublishSchema l k =>
    Some (if fault then goto i t (k (Some "registry")) s else goto i t (k None) (with_known l s))
  | SendSchema b k =>
    if fault then Some (goto i t (k None) s) else
    if connects i s b then
      Some (goto i t (k (Some (length (statements s))))
        (with_statements (statements s ++ [{| st_session := i; st_burrow := b; st_progress := InFlight |}])
          (with_held (take_connections i {[b]} (held s)) s)))
    else None
  | ReceiveReply n k =>
    if fault then Some (goto i t (k Lost) s) else
    st ← statements s !! n;
    match st_progress st with
    | InFlight => None
    | Executed => Some (goto i t (k Committed) (with_reported (st_burrow st) s))
    | Refused => Some (goto i t (k Rejected) s)
    end
  | Route k => Some (goto i t k s)
  | Execute locks kept k =>
    if decide (set_Exists (λ b, blocked s i b = true) locks) then None
    else if decide (set_Forall (λ b, connects i s b = true) (locks ∪ kept)) then
      Some (goto i t k (with_locked (take_locks i locks (locked s))
        (with_held (keep_connections i (locks ∪ kept) (take_connections i (locks ∪ kept) (held s))) s)))
    else None
  | Release kept k => Some (goto i t k (with_held (keep_connections i kept (held s)) s))
  end.

(** What happens next: a session that is idle, or new, begins to serve a
    message; a session does its next operation; a Burrow executes a statement,
    or refuses it. A Burrow waits for locks without end when the session has no
    [lock_timeout]. *)
Inductive event :=
| Begins (i : nat) (dirty : bool) (r : request)
| Acts (i : nat) (fault : bool)
| Executes (n : nat)
| Refuses (n : nat).

Definition idle (i : nat) (s : process) : bool :=
  match sessions s !! i with
  | Some {| code := Done _ |} | None => true
  | Some _ => false
  end.
Definition answer (n : nat) (p : progress) (st : statement) (s : process) : process :=
  with_statements
    (<[n := {| st_session := st_session st; st_burrow := st_burrow st; st_progress := p |}]> (statements s)) s.

Definition happens (e : event) (s : process) : option process :=
  match e with
  | Begins i dirty r =>
    if idle i s then
      Some (with_thread i {| code := serve_request burrows dirty r; began := reported s |} s)
    else None
  | Acts i fault => t ← sessions s !! i; act i fault t s
  | Executes n =>
    st ← statements s !! n;
    match st_progress st with
    | InFlight =>
      if blocked s (st_session st) (st_burrow st) then None
      else Some (answer n Executed st (with_executed (st_burrow st) s))
    | _ => None
    end
  | Refuses n =>
    st ← statements s !! n;
    match st_progress st with
    | InFlight =>
      if blocked s (st_session st) (st_burrow st) && negb (lock_timeout (st_session st)) then None
      else Some (answer n Refused st s)
    | _ => None
    end
  end.
Definition run (es : list event) (s : process) : option process :=
  foldl (λ o e, o ≫= happens e) (Some s) es.

Inductive reachable : process → Prop :=
| reachable_start versions : reachable (start versions)
| reachable_happens e s s' : reachable s → happens e s = Some s' → reachable s'.

(** * What a program may rely on, and what it has to keep *)

(** What a session knows: nothing, that it has the mutex, that it has it and
    the flag is set, the catalogs it has read since, and that the registry
    agrees with all that was reported. *)
Inductive hold := Outside | Inside | Marked | Loading (l : gmap string nat) | Fresh.

Definition loading (h : hold) : gmap string nat := match h with Loading l => l | _ => ∅ end.
Definition mark (h : hold) : hold := match h with Inside => Marked | _ => h end.

(** [own]: statements it has sent; [current]: the registry covers what was
    reported before the request. *)
Fixpoint safe (h : hold) (own : gset nat) (current : bool) (p : prog) : Prop :=
  match p with
  | Done _ => h = Outside
  | LoadPending k => ∀ b, safe h own (current || negb b) (k b)
  | StorePending true k => safe (mark h) own current k
  | StorePending false k => h = Fresh ∧ safe Fresh own current k
  | LockMutex k => h = Outside ∧ safe Inside own current k
  | UnlockMutex k => h ≠ Outside ∧ safe Outside own current k
  | LoadCatalog b k =>
    h ≠ Outside ∧ (∀ v, safe (Loading (<[b := v]> (loading h))) own current (k (Some v))) ∧
    safe Inside own current (k None)
  | PublishSchema l k =>
    h ≠ Outside ∧ l = loading h ∧ (∀ b, b ∈ burrows → is_Some (l !! b)) ∧ safe Fresh own true (k None) ∧
    ∀ e, safe Inside own current (k (Some e))
  | SendSchema b k =>
    h = Marked ∧ (∀ n, safe Marked ({[n]} ∪ own) current (k (Some n))) ∧ safe Marked own current (k None)
  | ReceiveReply n k => h = Marked ∧ n ∈ own ∧ ∀ r, safe Marked own current (k r)
  | Route k => h = Outside ∧ current = true ∧ safe Outside own current k
  | Execute _ _ k | Release _ k => h = Outside ∧ safe Outside own current k
  end.

Definition covers (l : string → nat) (s : process) : Prop :=
  ∀ b, b ∈ burrows → (l b ≤ known s b)%nat.
Definition holds (i : nat) (h : hold) (s : process) : Prop :=
  match h with
  | Outside => mutex s ≠ Some i
  | Inside => mutex s = Some i
  | Marked => mutex s = Some i ∧ pending s = true
  | Loading l => mutex s = Some i ∧
    ∀ b v, l !! b = Some v → (reported s b ≤ v ∧ known s b ≤ v ∧ v ≤ catalogs s b)%nat
  | Fresh => mutex s = Some i ∧ covers (reported s) s
  end.
Definition coherent (i : nat) (t : thread) (s : process) : Prop :=
  ∃ h own current,
    safe h own current (code t) ∧ holds i h s ∧ (current = true → covers (began t) s) ∧
    (∀ b, began t b ≤ reported s b)%nat ∧
    ∀ n, n ∈ own → ∃ st, statements s !! n = Some st ∧ st_session st = i.
Record inv (s : process) : Prop := {
  inv_pending : pending s = false → covers (reported s) s;
  inv_versions b : (reported s b ≤ catalogs s b ∧ known s b ≤ catalogs s b)%nat;
  inv_sessions i t : sessions s !! i = Some t → coherent i t s;
  inv_mutex i : mutex s = Some i → is_Some (sessions s !! i);
}.

(** * What the steps of others leave as it was *)

Record rely (j : nat) (s s' : process) : Prop := {
  rely_mutex : mutex s' = Some j ↔ mutex s = Some j;
  rely_owned : mutex s = Some j →
    (pending s = true → pending s' = true) ∧ reported s' = reported s ∧ known s' = known s;
  rely_known b : (known s b ≤ known s' b)%nat;
  rely_reported b : (reported s b ≤ reported s' b)%nat;
  rely_catalogs b : (catalogs s b ≤ catalogs s' b)%nat;
  rely_statements n st : statements s !! n = Some st →
    ∃ st', statements s' !! n = Some st' ∧ st_session st' = st_session st;
}.

Lemma holds_rely j h s s' : rely j s s' → holds j h s → holds j h s'.
Proof.
  intros R. destruct h; cbn.
  - by rewrite (rely_mutex _ _ _ R).
  - by rewrite (rely_mutex _ _ _ R).
  - intros [Hm Hp]. rewrite (rely_mutex _ _ _ R). destruct (rely_owned _ _ _ R Hm) as (Hk & _). auto.
  - intros [Hm Hl]. rewrite (rely_mutex _ _ _ R). destruct (rely_owned _ _ _ R Hm) as (_ & -> & ->).
    split; [done|]. intros b v Hb. pose proof (Hl b v Hb). pose proof (rely_catalogs _ _ _ R b). lia.
  - intros [Hm Hc]. rewrite (rely_mutex _ _ _ R). destruct (rely_owned _ _ _ R Hm) as (_ & Er & Ek).
    split; [done|]. intros b Hb. rewrite Er, Ek. auto.
Qed.
Lemma covers_rely j l s s' : rely j s s' → covers l s → covers l s'.
Proof. intros R Hl b Hb. pose proof (Hl b Hb). pose proof (rely_known _ _ _ R b). lia. Qed.
Lemma coherent_rely j t s s' : rely j s s' → coherent j t s → coherent j t s'.
Proof.
  intros R (h & own & current & Hs & Hh & Hc & Hb & Ho). exists h, own, current.
  split; [done|]. split; [by eapply holds_rely|]. split; [eauto using covers_rely|]. split.
  - intros b. pose proof (Hb b). pose proof (rely_reported _ _ _ R b). lia.
  - intros n (st & Hst & <-)%Ho. by apply (rely_statements _ _ _ R).
Qed.

(** Session [i] has done an operation that took [s] to [s1]. *)
Lemma goto_inv i t p s s1 :
  inv s → sessions s !! i = Some t → sessions s1 = sessions s → (∀ j, j ≠ i → rely j s s1) →
  (pending s1 = false → covers (reported s1) s1) →
  (∀ b, (reported s1 b ≤ catalogs s1 b ∧ known s1 b ≤ catalogs s1 b)%nat) →
  (mutex s1 = Some i ∨ mutex s1 = None ∨ mutex s1 = mutex s) →
  coherent i {| code := p; began := began t |} s1 → inv (goto i t p s1).
Proof.
  intros Hi Ht Es HR Hp Hv Hm Hc. split; [done|done| |].
  - intros j t'. cbn. rewrite Es. destruct (decide (j = i)) as [->|Hne].
    + rewrite lookup_insert_eq. by intros [= <-].
    + rewrite lookup_insert_ne by done. intros Hj.
      exact (coherent_rely _ _ _ _ (HR j Hne) (inv_sessions _ Hi _ _ Hj)).
  - intros j. cbn. rewrite Es. intros Hj. destruct (decide (j = i)) as [->|Hne].
    + by rewrite lookup_insert_eq.
    + rewrite lookup_insert_ne by done. apply inv_mutex; [done|]. destruct Hm as [Hm|[Hm|Hm]]; congruence.
Qed.

Lemma rely_pending i j b s : j ≠ i → b = true ∨ mutex s = Some i → rely j s (with_pending b s).
Proof. intros Hne Hb. split; cbn; try done; [|eauto]. intros Hm. destruct Hb as [->|]; [done|congruence]. Qed.
Lemma rely_mutex_step i j m s :
  j ≠ i → mutex s = None ∨ mutex s = Some i → m = None ∨ m = Some i → rely j s (with_mutex m s).
Proof. intros Hne Hs Hm. split; cbn; try done; [|eauto]. destruct Hs as [->| ->], Hm as [->| ->]; split; congruence. Qed.
Lemma rely_refl j s : rely j s s.
Proof. split; try done. eauto. Qed.
Lemma rely_publish i j l s :
  j ≠ i → mutex s = Some i → (∀ b v, l !! b = Some v → (known s b ≤ v)%nat) → rely j s (with_known l s).
Proof.
  intros Hne Hs Hl. split; cbn; try done; [congruence| |eauto].
  intros b. destruct (l !! b) as [v|] eqn:E; cbn; [eauto | lia].
Qed.
Lemma rely_report i j b s :
  j ≠ i → mutex s = Some i → (∀ b, (reported s b ≤ catalogs s b)%nat) → rely j s (with_reported b s).
Proof.
  intros Hne Hs Hb. split; cbn; try done; [congruence| |eauto].
  intros b'. destruct (decide (b' = b)) as [->|]; [by rewrite fn_lookup_insert | by rewrite fn_lookup_insert_ne].
Qed.
Lemma rely_send j st h s : rely j s (with_statements (statements s ++ [st]) (with_held h s)).
Proof.
  split; cbn; try done. intros n st' Hn. exists st'. split; [|done].
  rewrite lookup_app_l; eauto using lookup_lt_Some.
Qed.
Lemma rely_locked j l h s : rely j s (with_locked l (with_held h s)).
Proof. split; cbn; try done. eauto. Qed.
Lemma rely_held j h s : rely j s (with_held h s).
Proof. split; cbn; try done. eauto. Qed.

Lemma owned_mutex i h s : h ≠ Outside → holds i h s → mutex s = Some i.
Proof. destruct h; cbn; try done; by intros _ []. Qed.
(** Own steps that leave the shared state as it was. *)
Lemma goto_same i t p s :
  inv s → sessions s !! i = Some t → coherent i {| code := p; began := began t |} s → inv (goto i t p s).
Proof.
  intros Hi Ht Hc. apply (goto_inv i t p s s); try done; [intros; apply rely_refl | apply Hi | apply Hi | by right; right].
Qed.

Lemma load_inv i t s k : inv s → sessions s !! i = Some t → code t = LoadPending k → inv (goto i t (k (pending s)) s).
Proof.
  intros Hi Ht Ec. destruct (inv_sessions _ Hi _ _ Ht) as (h & own & current & Hs & Hh & Hc & Hb & Ho).
  apply goto_same; [done..|]. rewrite Ec in Hs. exists h, own, (current || negb (pending s)).
  split; [apply Hs|]. split; [done|]. split; [|done]. intros [|Hp%negb_true_iff]%orb_true_iff; [auto|].
  intros b Hin. pose proof (inv_pending _ Hi Hp b Hin). pose proof (Hb b). cbn. lia.
Qed.
Lemma store_inv i t s b k :
  inv s → sessions s !! i = Some t → code t = StorePending b k → inv (goto i t k (with_pending b s)).
Proof.
  intros Hi Ht Ec. destruct (inv_sessions _ Hi _ _ Ht) as (h & own & current & Hs & Hh & Hc & Hb & Ho).
  rewrite Ec in Hs. assert (b = true ∨ mutex s = Some i) as Hor.
  { destruct b; [by left|]. destruct Hs as [-> _]. right. apply Hh. }
  apply (goto_inv i t k s); try done; [intros j Hj; by apply (rely_pending i)| |apply Hi|by right; right|].
  - destruct b; [done|]. destruct Hs as [-> _]. intros _. apply Hh.
  - exists (if b then mark h else Fresh), own, current. split; [by destruct b; apply Hs|]. split; [|done].
    destruct b; [destruct h; cbn in *; tauto|]. by destruct Hs as [-> _].
Qed.
Lemma lock_inv i t s k :
  inv s → sessions s !! i = Some t → code t = LockMutex k → mutex s = None →
  inv (goto i t k (with_mutex (Some i) s)).
Proof.
  intros Hi Ht Ec Hn. destruct (inv_sessions _ Hi _ _ Ht) as (h & own & current & Hs & Hh & Hc & Hb & Ho).
  rewrite Ec in Hs. destruct Hs as [-> Hs].
  apply (goto_inv i t k s); try done; [|apply Hi..|by left|].
  - intros j Hj. by apply (rely_mutex_step i); auto.
  - by exists Inside, own, current.
Qed.
Lemma unlock_inv i t s k :
  inv s → sessions s !! i = Some t → code t = UnlockMutex k → inv (goto i t k (with_mutex None s)).
Proof.
  intros Hi Ht Ec. destruct (inv_sessions _ Hi _ _ Ht) as (h & own & current & Hs & Hh & Hc & Hb & Ho).
  rewrite Ec in Hs. destruct Hs as [Hne Hs]. apply owned_mutex in Hh; [|done].
  apply (goto_inv i t k s); try done; [|apply Hi..|by right; left|].
  - intros j Hj. by apply (rely_mutex_step i); auto.
  - by exists Outside, own, current.
Qed.
Lemma catalog_inv i t s b k r :
  inv s → sessions s !! i = Some t → code t = LoadCatalog b k → r = None ∨ r = Some (catalogs s b) →
  inv (goto i t (k r) s).
Proof.
  intros Hi Ht Ec Hr. destruct (inv_sessions _ Hi _ _ Ht) as (h & own & current & Hs & Hh & Hc & Hb & Ho).
  rewrite Ec in Hs. destruct Hs as (Hne & Hsome & Hnone). pose proof (owned_mutex _ _ _ Hne Hh) as Hm.
  apply goto_same; [done..|]. destruct Hr as [-> | ->]; [by exists Inside, own, current|].
  exists (Loading (<[b := catalogs s b]> (loading h))), own, current. split; [apply Hsome|]. split; [|done].
  split; [done|]. intros b' v. destruct (decide (b' = b)) as [->|].
  - rewrite lookup_insert_eq. intros [= <-]. pose proof (inv_versions _ Hi b). lia.
  - rewrite lookup_insert_ne by done. destruct h; cbn; try by rewrite lookup_empty. apply Hh.
Qed.
Lemma publish_inv i t s l k :
  inv s → sessions s !! i = Some t → code t = PublishSchema l k → inv (goto i t (k None) (with_known l s)).
Proof.
  intros Hi Ht Ec. destruct (inv_sessions _ Hi _ _ Ht) as (h & own & current & Hs & Hh & Hc & Hb & Ho).
  rewrite Ec in Hs. destruct Hs as (Hne & -> & Hall & Hs & _). pose proof (owned_mutex _ _ _ Hne Hh) as Hm.
  assert (∀ b v, loading h !! b = Some v → (reported s b ≤ v ∧ known s b ≤ v ∧ v ≤ catalogs s b)%nat) as Hl.
  { destruct h; cbn; try (intros ? ?; by rewrite lookup_empty). apply Hh. }
  assert (covers (reported s) (with_known (loading h) s)) as Hcov.
  { intros b Hin. cbn. destruct (Hall b Hin) as [v Hv]. rewrite Hv. cbn. apply Hl in Hv. lia. }
  apply (goto_inv i t _ s); try done; [| |by left|].
  - intros j Hj. apply (rely_publish i); [done..|]. intros b v Hv. apply Hl in Hv. lia.
  - intros b. cbn. pose proof (inv_versions _ Hi b). destruct (loading h !! b) as [v|] eqn:E; cbn; [|lia].
    apply Hl in E. lia.
  - exists Fresh, own, true. split; [done|]. split; [done|]. split; [|done].
    intros _ b Hin. pose proof (Hb b). pose proof (Hcov b Hin). cbn in *. lia.
Qed.
Lemma reply_inv i t s n st k :
  inv s → sessions s !! i = Some t → code t = ReceiveReply n k → statements s !! n = Some st →
  inv (goto i t (k Committed) (with_reported (st_burrow st) s)).
Proof.
  intros Hi Ht Ec Hn. destruct (inv_sessions _ Hi _ _ Ht) as (h & own & current & Hs & Hh & Hc & Hb & Ho).
  rewrite Ec in Hs. destruct Hs as (-> & _ & Hs). destruct Hh as [Hm Hp].
  apply (goto_inv i t _ s); try done; [| | |by left|].
  - intros j Hj. apply (rely_report i); [done..|]. intros b. apply Hi.
  - cbn. by rewrite Hp.
  - intros b. cbn. pose proof (inv_versions _ Hi b).
    destruct (decide (b = st_burrow st)) as [->|]; [rewrite fn_lookup_insert | rewrite fn_lookup_insert_ne by done]; lia.
  - exists Marked, own, current. split; [apply Hs|]. split; [done|]. split; [done|]. split; [|done].
    intros b. cbn. pose proof (Hb b). pose proof (inv_versions _ Hi b).
    destruct (decide (b = st_burrow st)) as [->|]; [rewrite fn_lookup_insert | rewrite fn_lookup_insert_ne by done]; lia.
Qed.

Lemma act_inv i fault t s s' : inv s → sessions s !! i = Some t → act i fault t s = Some s' → inv s'.
Proof.
  intros Hi Ht. destruct (inv_sessions _ Hi _ _ Ht) as (h & own & current & Hs & Hh & Hc & Hb & Ho).
  unfold act. destruct (code t) as [e|k|b k|k|k|b k|l k|b k|n k|k|locks kept k|kept k] eqn:Ec.
  - done.
  - intros [= <-]. by apply load_inv.
  - intros [= <-]. by apply store_inv.
  - destruct (mutex s) eqn:Em; [done|]. intros [= <-]. by apply lock_inv.
  - intros [= <-]. by apply unlock_inv.
  - destruct (free s b); intros [= <-]. apply (catalog_inv i t s b k); try done. destruct fault; auto.
  - destruct fault; intros [= <-]; [|by apply publish_inv]. destruct Hs as (Hne & _ & _ & _ & Hs).
    apply goto_same; [done..|]. exists Inside, own, current. split; [apply Hs|].
    split; [by eapply owned_mutex|done].
  - destruct Hs as (-> & Hs & Hn). destruct fault; [intros [= <-]|destruct (connects i s b); intros [= <-]].
    { apply goto_same; [done..|]. by exists Marked, own, current. }
    apply (goto_inv i t _ s); try done; [intros; apply rely_send|apply Hi..|by right; right|].
    exists Marked, ({[length (statements s)]} ∪ own), current. split; [apply Hs|]. do 3 (split; [done|]).
    intros n' [->%elem_of_singleton|(st & Hst & Hown)%Ho]%elem_of_union; cbn.
    + eexists. by rewrite lookup_app_r, Nat.sub_diag.
    + exists st. rewrite lookup_app_l; eauto using lookup_lt_Some.
  - assert (∀ r, inv (goto i t (k r) s)) as Hplain.
    { intros r. destruct Hs as (-> & _ & Hs). apply goto_same; [done..|]. exists Marked, own, current. by split; [apply Hs|]. }
    destruct fault; [by intros [= <-]|]. destruct (statements s !! n) as [st|] eqn:En; [|done]. cbn.
    destruct (st_progress st); intros [= <-]; [|done]. by apply (reply_inv i t s n).
  - intros [= <-]. destruct Hs as (-> & -> & Hs). apply goto_same; [done..|]. by exists Outside, own, true.
  - destruct (decide _); [done|]. destruct (decide _); intros [= <-]. destruct Hs as (-> & Hs).
    apply (goto_inv i t _ s); try done; [intros; apply rely_locked|apply Hi..|by right; right|].
    by exists Outside, own, current.
  - intros [= <-]. destruct Hs as (-> & Hs).
    apply (goto_inv i t _ s); try done; [intros; apply rely_held|apply Hi..|by right; right|].
    by exists Outside, own, current.
Qed.

(** * The methods keep what they have to *)

Arguments safe _ _ _ !_ /.
Lemma safe_loadSchema bs h own current k :
  h ≠ Outside →
  (∀ h', h' ≠ Outside → (∀ b, b ∈ bs ∨ is_Some (loading h !! b) → is_Some (loading h' !! b)) →
    safe h' own current (k (Ok (loading h')))) →
  (∀ e, safe Inside own current (k (Err e))) →
  safe h own current (loadSchema bs (loading h) k).
Proof.
  intros Hh Hok Herr. revert h Hh Hok. induction bs as [|b bs IH]; intros h Hh Hok; cbn.
  - apply Hok; [done|]. intros b [?%not_elem_of_nil|]; done.
  - split; [done|]. split; [|apply Herr]. intros v.
    change (safe (Loading (<[b := v]> (loading h))) own current
      (loadSchema bs (loading (Loading (<[b := v]> (loading h)))) k)). apply IH; [done|].
    intros h' Hh' Hl. apply Hok; [done|]. intros b' Hb'. apply Hl. cbn.
    destruct (decide (b' = b)) as [->|]; [right; rewrite lookup_insert_eq; by eexists|].
    rewrite lookup_insert_ne by done. by destruct Hb' as [[|]%elem_of_cons|]; auto.
Qed.
Lemma safe_RefreshSchema own current k :
  safe Fresh own true (k None) → (∀ e, safe Inside own current (k (Some e))) →
  safe Inside own current (RefreshSchema burrows k).
Proof.
  intros Hok Herr. apply (safe_loadSchema burrows Inside); [done| |intros e; apply Herr].
  intros h' Hh' Hl. cbn. repeat split; auto.
Qed.
Lemma safe_refreshSchemaIfPending own current k :
  safe Outside own true (k None) → (∀ e, safe Outside own current (k (Some e))) →
  safe Outside own current (refreshSchemaIfPending burrows k).
Proof.
  intros Hok Herr. intros [|]; cbn [negb]; rewrite ?orb_true_r, ?orb_false_r; [|done].
  split; [done|]. intros [|]; cbn [negb]; rewrite ?orb_true_r, ?orb_false_r; [|by split].
  apply safe_RefreshSchema; [|intros e; by split]. by repeat split.
Qed.
Lemma safe_refreshSchemaBarrier dirty own current k :
  safe Outside own true (k None) → (∀ e, safe Outside own current (k (Some e))) →
  safe Outside own current (refreshSchemaBarrier burrows dirty k).
Proof. destruct dirty; exact (safe_refreshSchemaIfPending own current k). Qed.

Lemma safe_receive_all sent own failed current k :
  (∀ n, n ∈ sent → n ∈ own) → (∀ r, safe Marked own current (k r)) →
  safe Marked own current (receive_all sent failed k).
Proof.
  intros Hs Hk. revert failed. induction sent as [|n sent IH]; intros failed; cbn; [apply Hk|].
  split; [done|]. split; [apply Hs; by left|]. intros []; [| |apply Hk]; apply IH; intros n' Hn; apply Hs; by right.
Qed.
Lemma safe_exchange targets own current k :
  (∀ own r, safe Marked own current (k r)) → safe Marked own current (exchange targets k).
Proof.
  intros Hk. unfold exchange. assert (∀ n, n ∈ @nil nat → n ∈ own) as Hs by (by intros ? ?%not_elem_of_nil).
  revert own Hs. generalize (@nil nat) as sent. induction targets as [|target targets IH]; intros sent own Hs; cbn.
  - by apply safe_receive_all.
  - split; [done|]. split; [|apply Hk]. intros n. apply IH. set_solver.
Qed.
Lemma safe_handle own r : safe Outside own true (handle burrows r).
Proof.
  destruct r as [locks kept|targets kept]; cbn; [done|]. do 3 (split; [done|]). apply safe_exchange.
  intros own' [[|]|]; cbn; try done. split; [done|].
  by apply (safe_refreshSchemaBarrier true own' true (λ err, Release kept (Done err))).
Qed.
Lemma safe_serve_request own dirty r : safe Outside own false (serve_request burrows dirty r).
Proof.
  unfold serve_request. assert (∀ current, safe Outside own current (refreshSchemaBarrier burrows dirty (λ err,
    match err with Some e => Done (Some e) | None => handle burrows r end))) as Hb.
  { intros current. apply safe_refreshSchemaBarrier; [apply safe_handle | done]. }
  destruct dirty; [apply Hb|]. intros [|]; [apply Hb | apply safe_handle].
Qed.

(** * Every step keeps the invariant *)

Lemma answer_rely j n st p s s1 :
  statements s !! n = Some st → s1 = s ∨ s1 = with_executed (st_burrow st) s → rely j s (answer n p st s1).
Proof.
  intros Hn Hs. assert (∀ n' st', statements s !! n' = Some st' → ∃ st'',
    <[n := {| st_session := st_session st; st_burrow := st_burrow st; st_progress := p |}]> (statements s) !! n'
      = Some st'' ∧ st_session st'' = st_session st') as Hst.
  { intros n' st' Hn'. destruct (decide (n' = n)) as [->|].
    - rewrite list_lookup_insert_eq by eauto using lookup_lt_Some. eexists. split; [done|]. cbn. congruence.
    - rewrite list_lookup_insert_ne by done. eauto. }
  destruct Hs as [-> | ->]; split; cbn; try done. intros b.
  destruct (decide (b = st_burrow st)) as [->|]; [rewrite fn_lookup_insert; lia | by rewrite fn_lookup_insert_ne].
Qed.
Lemma inv_rely s s1 :
  inv s → (∀ j, rely j s s1) → sessions s1 = sessions s → mutex s1 = mutex s → pending s1 = pending s →
  reported s1 = reported s → known s1 = known s → inv s1.
Proof.
  intros Hi HR Es Em Ep Er Ek. split.
  - rewrite Ep, Er. intros Hp b Hb. rewrite Ek. by apply Hi.
  - intros b. rewrite Er, Ek. pose proof (inv_versions _ Hi b). pose proof (rely_catalogs _ _ _ (HR O) b). lia.
  - intros i t. rewrite Es. intros Ht. exact (coherent_rely _ _ _ _ (HR i) (inv_sessions _ Hi _ _ Ht)).
  - intros i. rewrite Em, Es. apply Hi.
Qed.
Lemma happens_inv e s s' : inv s → happens e s = Some s' → inv s'.
Proof.
  intros Hi. destruct e as [i dirty r|i fault|n|n]; cbn.
  - destruct (idle i s) eqn:El; [|done]. intros [= <-]. assert (mutex s ≠ Some i) as Hm.
    { unfold idle in El. intros Hm. destruct (inv_mutex _ Hi _ Hm) as [[c b] Ht]. rewrite Ht in El.
      destruct (inv_sessions _ Hi _ _ Ht) as (h & own & current & Hs & Hh & _). destruct c; try done.
      cbn in Hs. by subst h. }
    split; [apply Hi|apply Hi| |].
    + intros j t. cbn. destruct (decide (j = i)) as [->|]; [rewrite lookup_insert_eq; intros [= <-] | rewrite lookup_insert_ne by done; apply (inv_sessions _ Hi)].
      exists Outside, ∅, false. split; [apply safe_serve_request|]. split; [done|]. split; [done|]. split; [done|].
      by intros n ?%not_elem_of_empty.
    + intros j Hj. cbn in *. rewrite lookup_insert_ne by congruence. by apply Hi.
  - destruct (sessions s !! i) as [t|] eqn:Et; [|done]. cbn. by apply act_inv.
  - destruct (statements s !! n) as [st|] eqn:En; [|done]. cbn. destruct (st_progress st); try done.
    destruct (blocked _ _ _); [done|]. intros [= <-]. apply (inv_rely s); try done. intros j. apply answer_rely; auto.
  - destruct (statements s !! n) as [st|] eqn:En; [|done]. cbn. destruct (st_progress st); try done.
    destruct (_ && _); [done|]. intros [= <-]. apply (inv_rely s); try done. intros j. apply answer_rely; auto.
Qed.
Lemma reachable_inv s : reachable s → inv s.
Proof.
  induction 1 as [versions|e s s' _ IH He]; [|by eapply happens_inv]. split; try done. by intros _ b _.
Qed.

Lemma run_reachable es s s' : reachable s → run es s = Some s' → reachable s'.
Proof.
  unfold run. revert s. induction es as [|e es IH]; intros s Hs; cbn [foldl]; [by intros [= <-]|].
  destruct (happens e s) as [s1|] eqn:E; cbn; rewrite E; [apply IH; by eapply reachable_happens|].
  assert (foldl (λ o e, o ≫= happens e) None es = None) as -> by (clear; by induction es). done.
Qed.

(** * A wait without end *)

(** Session 0 has the mutex and waits for a schema change on a Burrow where the
    transaction of session 1 holds a lock; session 1 waits for the mutex. *)
Record stuck (b : string) (s : process) : Prop := {
  stuck_reachable : reachable s;
  stuck_mutex : mutex s = Some 0%nat;
  stuck_waiter : ∃ t n k, sessions s !! 0%nat = Some t ∧ code t = ReceiveReply n k ∧
    statements s !! n = Some {| st_session := 0; st_burrow := b; st_progress := InFlight |};
  stuck_locked : locked s !! b = Some 1%nat;
  stuck_holder : ∃ t k, sessions s !! 1%nat = Some t ∧ code t = LockMutex k;
}.
Definition faultless (e : event) : bool := match e with Acts _ fault => negb fault | _ => true end.

(** What an operation of a session that does not have the mutex leaves. *)
Lemma act_frame i t s s' b :
  inv s → sessions s !! i = Some t → act i false t s = Some s' → mutex s = Some 0%nat → i ≠ 0%nat → i ≠ 1%nat →
  locked s !! b = Some 1%nat →
  mutex s' = Some 0%nat ∧ locked s' !! b = Some 1%nat ∧ (∃ l, statements s' = statements s ++ l) ∧
  ∀ j, j ≠ i → sessions s' !! j = sessions s !! j.
Proof.
  intros Hi Ht Ha Hm H0 H1 Hb.
  destruct (inv_sessions _ Hi _ _ Ht) as (h & own & current & Hs & Hh & _).
  assert (∀ p s1, sessions s1 = sessions s → ∀ j, j ≠ i → sessions (goto i t p s1) !! j = sessions s !! j) as Hj.
  { intros p s1 E j Hne. cbn. rewrite E. by apply lookup_insert_ne. }
  assert (∃ l, statements s = statements s ++ l) as Hnil by (exists []; by rewrite app_nil_r).
  unfold act in Ha. destruct (code t) as [e|k|c k|k|k|c k|l k|c k|n k|k|locks kept k|kept k];
    [done|..]; simplify_eq/=; eauto 10 using lookup_insert_ne.
  - by rewrite Hm in Ha.
  - destruct Hs as [Hne _]. apply owned_mutex in Hh; [congruence|done].
  - destruct (free s c); simplify_eq/=. eauto 10 using lookup_insert_ne.
  - destruct (connects i s c); simplify_eq/=. eauto 10 using lookup_insert_ne.
  - destruct (statements s !! n) as [st|]; [|done]. cbn in Ha.
    destruct (st_progress st); simplify_eq/=; eauto 10 using lookup_insert_ne.
  - destruct (decide _) as [|Hfree]; [done|]. destruct (decide _); simplify_eq/=. split; [done|].
    split; [|split; [done|]; intros; by apply lookup_insert_ne]. unfold take_locks.
    rewrite lookup_union_r.
    + rewrite map_lookup_filter_Some. by split; [|cbn; congruence].
    + apply lookup_gset_to_gmap_None. intros Hin. apply Hfree. exists b. split; [done|].
      unfold blocked. rewrite Hb. apply bool_decide_eq_true. congruence.
Qed.

Lemma stuck_happens b e s s' :
  lock_timeout 0%nat = false → stuck b s → faultless e = true → happens e s = Some s' → stuck b s'.
Proof.
  intros Hl [Hr Hm (t & n & k & Ht & Ec & Hn) Hb (t1 & k1 & Ht1 & Ec1)] Hf He.
  assert (reachable s') as Hr' by (by eapply reachable_happens).
  destruct e as [i dirty r|i fault|n'|n']; cbn in He.
  - destruct (idle i s) eqn:El; [|done]. injection He as <-. unfold idle in El.
    assert (i ≠ 0%nat) by (intros ->; rewrite Ht in El; destruct t; cbn in *; by subst).
    assert (i ≠ 1%nat) by (intros ->; rewrite Ht1 in El; destruct t1; cbn in *; by subst).
    split; [done..| |done|]; cbn; [exists t, n, k|exists t1, k1]; by rewrite lookup_insert_ne.
  - destruct fault; [done|]. destruct (sessions s !! i) as [ti|] eqn:Ei; [|done]. cbn in He.
    destruct (decide (i = 0%nat)) as [->|H0].
    { simplify_eq. unfold act in He. by rewrite Ec, Hn in He. }
    destruct (decide (i = 1%nat)) as [->|H1].
    { simplify_eq. unfold act in He. by rewrite Ec1, Hm in He. }
    destruct (act_frame i ti s s' b) as (Em & El & [l Es] & Hj); try done; [by apply reachable_inv|].
    split; [done..| |done|].
    + exists t, n, k. rewrite Hj by done. split; [done|]. split; [done|]. rewrite Es. by apply lookup_app_l_Some.
    + exists t1, k1. by rewrite Hj.
  - destruct (statements s !! n') as [st|] eqn:En; [|done]. cbn in He. destruct (st_progress st); try done.
    destruct (blocked _ _ _) eqn:Ebl; [done|]. injection He as <-.
    assert (n' ≠ n) as Hne.
    { intros ->. simplify_eq. unfold blocked in Ebl. cbn in Ebl. by rewrite Hb in Ebl. }
    split; [done..| |done|]; cbn; [exists t, n, k|by exists t1, k1]. by rewrite list_lookup_insert_ne.
  - destruct (statements s !! n') as [st|] eqn:En; [|done]. cbn in He. destruct (st_progress st); try done.
    destruct (_ && _) eqn:Ebl; [done|]. injection He as <-.
    assert (n' ≠ n) as Hne.
    { intros ->. simplify_eq. unfold blocked in Ebl. cbn in Ebl. by rewrite Hb, Hl in Ebl. }
    split; [done..| |done|]; cbn; [exists t, n, k|by exists t1, k1]. by rewrite list_lookup_insert_ne.
Qed.
Lemma stuck_run b es s s' :
  lock_timeout 0%nat = false → stuck b s → forallb faultless es = true → run es s = Some s' → stuck b s'.
Proof.
  intros Hl. unfold run. revert s. induction es as [|e es IH]; intros s Hs; cbn [foldl forallb]; [by intros _ [= <-]|].
  intros [He Hes]%andb_true_iff. destruct (happens e s) as [s1|] eqn:E; cbn; rewrite E.
  - apply IH; [by eapply stuck_happens|done].
  - assert (foldl (λ o e, o ≫= happens e) None es = None) as -> by (clear; by induction es). done.
Qed.
(** Session 0 has the mutex and waits for a connection to a Burrow whose only
    connection it holds itself. *)
Record starved (b : string) (s : process) : Prop := {
  starved_inv : inv s;
  starved_mutex : mutex s = Some 0%nat;
  starved_held : 0%nat ∈ held s b ∧ limit b = 1%nat;
  starved_waiter : ∃ t k, sessions s !! 0%nat = Some t ∧ code t = LoadCatalog b k;
}.
Lemma act_keeps i fault t s s' b :
  inv s → sessions s !! i = Some t → act i fault t s = Some s' → mutex s = Some 0%nat → i ≠ 0%nat →
  0%nat ∈ held s b →
  mutex s' = Some 0%nat ∧ 0%nat ∈ held s' b ∧ sessions s' !! 0%nat = sessions s !! 0%nat.
Proof.
  intros Hi Ht Ha Hm H0 Hb.
  destruct (inv_sessions _ Hi _ _ Ht) as (h & own & current & Hs & Hh & _).
  assert (∀ t', <[i := t']> (sessions s) !! 0%nat = sessions s !! 0%nat) as Hj by (intros t'; by apply lookup_insert_ne).
  assert (∀ h bs, 0%nat ∈ h b → 0%nat ∈ take_connections i bs h b) as Htake
    by (intros h' bs; unfold take_connections; case_decide; set_solver).
  assert (∀ h bs, 0%nat ∈ h b → 0%nat ∈ keep_connections i bs h b) as Hkeep
    by (intros h' bs; unfold keep_connections; case_decide; set_solver).
  unfold act in Ha. destruct (code t) as [e|k|c k|k|k|c k|l k|c k|n k|k|locks kept k|kept k]; [done|..].
  4: { destruct Hs as [Hne _]. apply owned_mutex in Hh; [congruence|done]. }
  7: { destruct fault; simplify_eq; [by cbn|]. destruct (statements s !! n) as [st|]; [|done]. cbn in Ha.
    destruct (st_progress st); simplify_eq; by cbn. }
  all: repeat case_match; repeat case_decide; simplify_eq; cbn; auto.
Qed.
Lemma starved_happens b e s s' : starved b s → happens e s = Some s' → starved b s'.
Proof.
  intros [Hi Hm [Hb Hl] (t & k & Ht & Ec)] He.
  assert (inv s') as Hi' by (by eapply happens_inv).
  assert (free s b = false) as Hf.
  { apply bool_decide_eq_false. intros Hlt. rewrite Hl in Hlt.
    assert (size ({[0%nat]} : gset nat) ≤ size (held s b))%nat as Hle by (apply subseteq_size; set_solver).
    rewrite size_singleton in Hle. lia. }
  destruct e as [i dirty r|i fault|n|n]; cbn in He.
  - destruct (idle i s) eqn:El; [|done]. injection He as <-. unfold idle in El.
    assert (i ≠ 0%nat) by (intros ->; rewrite Ht in El; destruct t; cbn in *; by subst).
    split; [done..|]. exists t, k. cbn. by rewrite lookup_insert_ne.
  - destruct (sessions s !! i) as [ti|] eqn:Ei; [|done]. cbn in He. destruct (decide (i = 0%nat)) as [->|H0].
    { simplify_eq. unfold act in He. by rewrite Ec, Hf in He. }
    destruct (act_keeps i fault ti s s' b) as (Em & Eh & Es); try done.
    split; [done..|]. exists t, k. by rewrite Es.
  - destruct (statements s !! n) as [st|]; [|done]. cbn in He. repeat case_match; simplify_eq; split; eauto.
  - destruct (statements s !! n) as [st|]; [|done]. cbn in He. repeat case_match; simplify_eq; split; eauto.
Qed.
Lemma starved_run b es s s' : starved b s → run es s = Some s' → starved b s'.
Proof.
  unfold run. revert s. induction es as [|e es IH]; intros s Hs; cbn [foldl]; [by intros [= <-]|].
  destruct (happens e s) as [s1|] eqn:E; cbn; rewrite E; [apply IH; by eapply starved_happens|].
  assert (foldl (λ o e, o ≫= happens e) None es = None) as -> by (clear; by induction es). done.
Qed.
(** ** Properties *)

(** C22: no session routes a statement with a registry older than what was known
    when its message arrived. Whatever the sessions of a Proxy do, and however
    their operations interleave: a session that is about to route a statement
    has a registry that agrees, for every Burrow, with the catalog the Burrow
    had when the success of a schema change was last received from it before
    the message was read; and whenever the pending flag is clear the registry
    agrees with every schema change reported so far. *)
Theorem routing_current s :
  reachable s →
  (pending s = false → covers (reported s) s) ∧
  ∀ i t k, sessions s !! i = Some t → code t = Route k → covers (began t) s.
Proof.
  intros Hi%reachable_inv. split; [apply Hi|]. intros i t k Ht Ec.
  destruct (inv_sessions _ Hi _ _ Ht) as (h & own & current & Hs & Hh & Hc & _). rewrite Ec in Hs.
  by apply Hc, Hs.
Qed.

(** What session [i], and the Burrows for its statements, may do without a fault. *)
Definition serves (i : nat) (s : process) (e : event) : Prop :=
  match e with
  | Acts j fault => j = i ∧ fault = false
  | Executes n | Refuses n => ∃ st, statements s !! n = Some st ∧ st_session st = i
  | Begins _ _ _ => False
  end.
Inductive served (i : nat) : process → process → Prop :=
| served_done s : served i s s
| served_step e s s1 s2 : serves i s e → happens e s = Some s1 → served i s1 s2 → served i s s2.

(** Besides the connection of session [i] itself, the pool of every Burrow has a
    connection that no session holds. *)
Definition room (i : nat) (s : process) : Prop := ∀ b, (size ({[i]} ∪ held s b) < limit b)%nat.
Lemma room_free i b s : room i s → free s b = true.
Proof.
  intros Hr. apply bool_decide_eq_true. specialize (Hr b).
  assert (size (held s b) ≤ size ({[i]} ∪ held s b))%nat by (apply subseteq_size; set_solver). lia.
Qed.
Lemma room_connects i b s : room i s → connects i s b = true.
Proof. intros Hr. unfold connects. by rewrite (room_free i), orb_true_r. Qed.
Lemma room_step i s s1 :
  (∀ b, held s1 b ⊆ {[i]} ∪ held s b) → room i s → room i s1.
Proof.
  intros Hh Hr b. specialize (Hh b). specialize (Hr b).
  assert (size ({[i]} ∪ held s1 b) ≤ size ({[i]} ∪ held s b))%nat by (apply subseteq_size; set_solver). lia.
Qed.

(** What the holder [i] of the mutex has to be able to do in the state [s]. *)
Definition releases (i : nat) (s : process) : Prop := ∃ s', served i s s' ∧ mutex s' = None.
Definition at_code (i : nat) (p : prog) (s : process) : Prop :=
  inv s ∧ room i s ∧ mutex s = Some i ∧ ∃ t, sessions s !! i = Some t ∧ code t = p.

(** After an own step the rest of the program runs on. *)
Lemma served_act i p t s s1 :
  inv s → room i s → mutex s = Some i → sessions s !! i = Some t → act i false t s = Some s1 →
  sessions s1 !! i = Some {| code := p; began := began t |} → mutex s1 = mutex s →
  (∀ b, held s1 b ⊆ {[i]} ∪ held s b) → (∀ s', at_code i p s' → releases i s') → releases i s.
Proof.
  intros Hi Hr Hm Ht Ha Ht1 Em Hh IH.
  destruct (IH s1) as (s2 & Hs2 & Hn).
  - split; [by eapply act_inv|]. split; [by eapply room_step|]. split; [congruence|]. by eexists.
  - exists s2. split; [|done]. apply (served_step i (Acts i false) s s1); [done| |done]. cbn. by rewrite Ht.
Qed.
Lemma receive_released i n k s :
  (∀ r s, at_code i (k r) s → releases i s) →
  lock_timeout i = true → at_code i (ReceiveReply n k) s → releases i s.
Proof.
  intros IH Hl (Hi & Hr & Hm & t & Ht & Ec).
  assert (∀ s st, inv s → room i s → mutex s = Some i → sessions s !! i = Some t →
    statements s !! n = Some st → st_progress st ≠ InFlight → releases i s) as Hanswered.
  { intros s' st Hi' Hr' Hm' Ht' Hn Hp.
    destruct (st_progress st) eqn:Ep; [done|
      eapply (served_act i (k Committed) t s' (goto i t (k Committed) (with_reported (st_burrow st) s')))|
      apply (served_act i (k Rejected) t s' (goto i t (k Rejected) s'))]; try done;
      try (by unfold act; rewrite Ec, Hn; cbn; rewrite Ep);
      cbn; try apply lookup_insert_eq; try (set_solver +); apply IH. }
  destruct (inv_sessions _ Hi _ _ Ht) as (h & own & current & Hs & _ & _ & _ & Ho).
  rewrite Ec in Hs. destruct Hs as (_ & Hin & _). destruct (Ho n Hin) as (st & Hn & Hown).
  destruct (decide (st_progress st = InFlight)) as [Ep|]; [|by eapply Hanswered].
  assert (happens (Refuses n) s = Some (answer n Refused st s)) as He.
  { cbn. rewrite Hn. cbn. by rewrite Ep, Hown, Hl, andb_false_r. }
  destruct (Hanswered (answer n Refused st s) {| st_session := st_session st; st_burrow := st_burrow st; st_progress := Refused |})
    as (s2 & Hs2 & Hm2); try done.
  { by eapply happens_inv. }
  { apply list_lookup_insert_eq. by eapply lookup_lt_Some. }
  exists s2. split; [|done]. eapply (served_step i (Refuses n)); [|done..]. by exists st.
Qed.

(** C23: the mutex of the barrier is always given back, while the pools have room.
    When PostgreSQL gives up waiting for locks on behalf of the session that has
    the mutex, and the pool of every Burrow has a connection left besides those
    that sessions hold and the one of this session, the session gets to the end
    of its critical section, which runs the schema change or reads the catalogs
    of all Burrows, by its own operations and the Burrows' answers to its own
    statements, whatever every other session does or waits for. Neither
    condition can be left out: [lock_wait_deadlock], [pool_wait_deadlock]. *)
Theorem mutex_released i s :
  reachable s → mutex s = Some i → lock_timeout i = true →
  (∀ b, (size ({[i]} ∪ held s b) < limit b)%nat) →
  ∃ s', served i s s' ∧ mutex s' = None.
Proof.
  intros Hi%reachable_inv Hm Hl Hr. change (releases i s). destruct (inv_mutex _ Hi _ Hm) as [t Ht].
  assert (at_code i (code t) s) as Hs by (split; [done|]; split; [done|]; eauto). clear Hi Hm Hr Ht.
  remember (code t) as p eqn:Ec. clear t Ec. revert s Hs.
  induction p as [e|k IH|b k IH|k IH|k IH|b k IH|l k IH|b k IH|n k IH|k IH|locks kept k IH|kept k IH]; intros s Hs;
    [..|by eapply receive_released| | |]; destruct Hs as (Hi & Hr & Hm & t & Ht & Ec);
    destruct (inv_sessions _ Hi _ _ Ht) as (h & own & current & Hs & Hh & _); rewrite Ec in Hs;
    assert (h ≠ Outside) as Hne by (by intros ->);
    first [by destruct Hs | by destruct Hne; exact Hs |
      eapply served_act; [exact Hi|exact Hr|exact Hm|exact Ht
        |unfold act; rewrite Ec, ?(room_free i), ?room_connects by done; done
        |apply lookup_insert_eq|done
        |intros b'; cbn; unfold take_connections; try case_decide; set_solver +|eauto] | idtac].
  exists (goto i t k (with_mutex None s)). split; [|done].
  eapply (served_step i (Acts i false)); [done| |apply served_done]. cbn. rewrite Ht. cbn. unfold act. by rewrite Ec.
Qed.
End interleaving.

(** * Concrete runs: one Burrow *)

(** The default of [max_connections]. *)
Definition eight : string → nat := λ _, 8%nat.
Definition at_zero : process := start (λ _, O).
Definition acts (i : nat) (n : nat) : list event := repeat (Acts i false) n.
(** Session 0 changes the schema; session 1 refreshes the registry and is about
    to route a statement. *)
Definition change_then_read : list event :=
  Begins 0 false (SchemaChange ["a"] ∅) :: acts 0 5 ++ Executes 0 :: acts 0 2 ++
  Begins 1 false (Statement ∅ ∅) :: acts 1 8.
(** Session 0 waits for the reply to a schema change. *)
Definition change_sent : list event := Begins 0 false (SchemaChange ["a"] ∅) :: acts 0 5.
(** Session 0 has changed the schema and refreshes the registry. *)
Definition change_refreshing : list event := change_sent ++ Executes 0 :: acts 0 6.
(** The connection of session 0 is lost before the Burrow executes its schema
    change; session 1 refreshes the registry in between. *)
Definition late_change : list event :=
  change_sent ++ Acts 0 true :: acts 0 1 ++ Begins 1 false (Statement ∅ ∅) :: acts 1 8 ++ [Executes 0].
(** The transaction of session 1 holds a lock when session 0 changes the schema. *)
Definition locked_change : list event :=
  Begins 1 false (Statement {["a"]} ∅) :: acts 1 3 ++ change_sent ++ Begins 1 false (Statement ∅ ∅) :: acts 1 2.

(** The state after a run that is possible. *)
Definition after (limit : string → nat) (lock_timeout : nat → bool) (es : list event) : process :=
  default at_zero (run ["a"] limit lock_timeout es at_zero).
Definition possible (limit : string → nat) (lock_timeout : nat → bool) (es : list event) : bool :=
  match run ["a"] limit lock_timeout es at_zero with Some _ => true | None => false end.
Lemma after_reachable limit lock_timeout es :
  possible limit lock_timeout es = true → reachable ["a"] limit lock_timeout (after limit lock_timeout es).
Proof.
  unfold possible, after. destruct (run _ _ _ es at_zero) eqn:E; [|done]. intros _.
  eapply run_reachable; [apply reachable_start|exact E].
Qed.

Definition is_route (p : prog) : bool := match p with Route _ => true | _ => false end.
Lemma is_route_inv p : is_route p = true → ∃ k, p = Route k.
Proof. destruct p; try done. eauto. Qed.

Lemma routing_current_witness :
  let s := after eight (λ _, true) change_then_read in
  reachable ["a"] eight (λ _, true) s ∧
  ∃ t, sessions s !! 1%nat = Some t ∧ began t "a" = 1%nat ∧ is_route (code t) = true ∧ (began t "a" ≤ known s "a")%nat.
Proof.
  assert (reachable ["a"] eight (λ _, true) (after eight (λ _, true) change_then_read)) as Hr
    by (apply after_reachable; by vm_compute).
  split; [exact Hr|].
  destruct (sessions (after eight (λ _, true) change_then_read) !! 1%nat) as [t|] eqn:Et; [|exfalso; by vm_compute in Et].
  assert (match sessions (after eight (λ _, true) change_then_read) !! 1%nat with
    | Some t => bool_decide (began t "a" = 1%nat) && is_route (code t) | None => false end = true) as Hb by (by vm_compute).
  rewrite Et in Hb. apply andb_true_iff in Hb as [Hbegan%bool_decide_eq_true Hroute].
  destruct (is_route_inv _ Hroute) as [k Ek]. exists t. do 3 (split; [done|]).
  apply (proj2 (routing_current ["a"] eight (λ _, true) _ Hr) 1%nat t k Et Ek). by left.
Defined.
Lemma mutex_released_witness :
  let s := after eight (λ _, true) change_sent in
  mutex s = Some 0%nat ∧ ∃ s', served ["a"] eight (λ _, true) 0 s s' ∧ mutex s' = None.
Proof.
  assert (mutex (after eight (λ _, true) change_sent) = Some 0%nat) as Hm by (by vm_compute).
  assert (held (after eight (λ _, true) change_sent) = take_connections 0 {["a"]} (λ _, ∅)) as Hh by (by vm_compute).
  split; [exact Hm|]. apply (mutex_released ["a"] eight (λ _, true) 0%nat); [|exact Hm|done|].
  - apply after_reachable. by vm_compute.
  - intros b. rewrite Hh. unfold take_connections. case_decide; by apply Nat.ltb_lt; vm_compute.
Defined.

(** A schema change whose reply is lost is executed after the barrier has been
    lowered: the registry stays behind with no refresh pending. *)
Example late_change_unseen :
  let s := after eight (λ _, true) late_change in
  reachable ["a"] eight (λ _, true) s ∧ pending s = false ∧ known s "a" = 0%nat ∧ catalogs s "a" = 1%nat.
Proof. split; [apply after_reachable; by vm_compute|]. by vm_compute. Qed.

(** Without a [lock_timeout], a schema change that waits for the lock of an open
    transaction is never answered and the mutex never given back, whatever
    happens short of a lost connection: the COMMIT that would release the lock
    waits for the mutex. *)
Example lock_wait_deadlock es s :
  forallb faultless es = true → run ["a"] eight (λ _, false) es (after eight (λ _, false) locked_change) = Some s →
  mutex s = Some 0%nat.
Proof.
  intros Hes Hrun. enough (stuck ["a"] eight (λ _, false) "a" s) as Hs by apply Hs.
  eapply (stuck_run ["a"] eight (λ _, false)); [done| |exact Hes|exact Hrun]. clear es s Hes Hrun.
  split; [apply after_reachable; by vm_compute|by vm_compute| |by vm_compute|].
  - destruct (sessions (after eight (λ _, false) locked_change) !! 0%nat) as [t|] eqn:Et; [|exfalso; by vm_compute in Et].
    vm_compute in Et. injection Et as <-. do 3 eexists. do 2 (split; [vm_compute; reflexivity|]). by vm_compute.
  - destruct (sessions (after eight (λ _, false) locked_change) !! 1%nat) as [t|] eqn:Et; [|exfalso; by vm_compute in Et].
    vm_compute in Et. injection Et as <-. do 2 eexists. split; vm_compute; reflexivity.
Qed.
(** With one connection for each Burrow a session that has changed the schema
    waits for its own connection: it refreshes the registry before it gives the
    connection back, and the mutex is never given back, whatever happens. *)
Example pool_wait_deadlock lock_timeout es s :
  run ["a"] (λ _, 1%nat) lock_timeout es (after (λ _, 1%nat) lock_timeout change_refreshing) = Some s →
  mutex s = Some 0%nat.
Proof.
  intros Hrun. enough (starved ["a"] (λ _, 1%nat) "a" s) as Hs by apply Hs.
  eapply (starved_run ["a"] (λ _, 1%nat) lock_timeout); [|exact Hrun]. clear s Hrun.
  split; [|by vm_compute|split; [by apply (bool_decide_eq_true_1 _); vm_compute|by vm_compute]|].
  - eapply (reachable_inv ["a"] (λ _, 1%nat) lock_timeout), after_reachable. by vm_compute.
  - do 2 eexists. split; vm_compute; reflexivity.
Qed.
End barrier.
