(* ===== verification/Startup.v ===== *)
(** Start-up of a frontend connection, from [internal/proxy/server.go]: the
    negotiation before the first query, what the client is told, and the
    settings its start-up message asks for, which every connection the session
    acquires is given. *)
From S2P Require Import Prelude.
From S2P Require Import GoStrings.
From S2P Require Import GoNumbers.
From S2P Require Import Wire.
From S2P Require Import Pool.

Module startup.
Import wire pool.

(** * The settings of a start-up message *)

(** The loop returns the first parameter it meets with the name, in any case. *)
Definition startupParameter `{MapOrder} (parameters : gmap string string) (wanted : string) : option string :=
  snd <$> head (filter (λ p, EqualFold p.1 wanted = true) (map_range parameters)).

Definition setting_character (c : byte) : bool :=
  bool_decide (c = "_"%char) || is_lower c || is_upper c || is_digit c.
Definition validSettingName (name : string) : bool :=
  negb (bool_decide (name = "")) && forallb setting_character (bytes_of name).

Definition setting_name (name : string) : string :=
  let lower := ToLower name in
  if decide (lower = "datestyle") then "DateStyle" else
  if decide (lower = "timezone") then "TimeZone" else
  if decide (lower = "intervalstyle") then "IntervalStyle" else
  if decide (lower = "standard_conforming_strings") then "standard_conforming_strings" else
  if decide (lower = "application_name") then "application_name" else name.

Definition set_option (parameters : gmap string string) (assignment : string) : gmap string string :=
  let '(name, value, found) := Cut assignment "="%char in
  if negb found || negb (validSettingName name) then parameters
  else <[setting_name name := value]> parameters.

(** The assignments of the fields of [options], one after the other. *)
Fixpoint option_assignments (fields : list string) : list string :=
  match fields with
  | [] => []
  | field :: rest =>
    let joined :=
      (if HasPrefix field "-c" then TrimPrefix field "-c" else
       if HasPrefix field "--" then TrimPrefix field "--" else "") :: option_assignments rest in
    match rest with
    | assignment :: rest => if decide (field = "-c") then assignment :: option_assignments rest else joined
    | [] => joined
    end
  end.
Definition parseStartupOptions (parameters : gmap string string) (options : string) : gmap string string :=
  fold_left set_option (option_assignments (Fields options)) parameters.

Definition direct_parameters : list (string * string) :=
  [("datestyle", "DateStyle"); ("timezone", "TimeZone"); ("application_name", "application_name")].
Definition startupRuntimeParameters `{MapOrder} (startup : option (gmap string string)) : gmap string string :=
  match startup with
  | None => ∅
  | Some message =>
    let parameters :=
      match startupParameter message "options" with
      | Some options => parseStartupOptions ∅ options
      | None => ∅
      end in
    fold_left (λ parameters direct,
      match startupParameter message direct.1 with
      | Some value => <[direct.2 := value]> parameters
      | None => parameters
      end) direct_parameters parameters
  end.

(** * What the client is told *)

Inductive greeting :=
| AuthenticationOk
| ParameterStatus (name value : string)
| BackendKeyData (ProcessID : Z) (SecretKey : bytes)
| ReadyForQuery (TxStatus : byte).

Definition runtimeParamOrDefault (runtimeParams : gmap string string) (name defaultValue : string) : string :=
  let value := default "" (runtimeParams !! name) in
  if decide (value = "") then defaultValue else value.

(** [pid] and [secret] are the results of [randomUint32]. *)
Definition sendStartup (pid secret : Z) (runtimeParams : gmap string string) : list greeting :=
  [AuthenticationOk;
   ParameterStatus "client_encoding" "UTF8";
   ParameterStatus "DateStyle" (runtimeParamOrDefault runtimeParams "DateStyle" "ISO, MDY");
   ParameterStatus "integer_datetimes" "on";
   ParameterStatus "IntervalStyle" (runtimeParamOrDefault runtimeParams "IntervalStyle" "postgres");
   ParameterStatus "server_version" "17.0";
   ParameterStatus "standard_conforming_strings" (runtimeParamOrDefault runtimeParams "standard_conforming_strings" "on");
   ParameterStatus "TimeZone" (runtimeParamOrDefault runtimeParams "TimeZone" "UTC");
   BackendKeyData pid (be_bytes 4 secret);
   ReadyForQuery "I"%char].


(** * The negotiation *)

Inductive startup_message :=
| SSLRequest
| CancelRequest
| StartupMessage (parameters : gmap string string)
| OtherStartup (type : string).
Inductive conn_event :=
| Write (data : string)
| Greet (messages : list greeting).
Inductive conn_end :=
| Serving (runtimeParams : gmap string string)
| Cancelled
| Broken (error : string).

(** [serveConn] until [serveQueries]. The end of the list is the end of the
    client's data; [io] is the outcome of each write to the client. *)
Fixpoint serveConn `{MapOrder} (pid secret : Z) (io : list (option string))
    (messages : list (result string startup_message)) : list conn_event * conn_end :=
  match messages with
  | [] => ([], Broken "EOF")
  | Err e :: _ => ([], Broken e)
  | Ok SSLRequest :: messages =>
    match io with
    | Some e :: _ => ([Write "N"], Broken e)
    | _ => let '(events, ending) := serveConn pid secret (tail io) messages in (Write "N" :: events, ending)
    end
  | Ok CancelRequest :: _ => ([], Cancelled)
  | Ok (StartupMessage parameters) :: _ =>
    let runtimeParams := startupRuntimeParameters (Some parameters) in
    let events := [Greet (sendStartup pid secret runtimeParams)] in
    match io with
    | Some e :: _ => (events, Broken e)
    | _ => (events, Serving runtimeParams)
    end
  | Ok (OtherStartup type) :: _ => ([], Broken ("unexpected startup message " +:+ type))
  end.

(** * Facts *)

(** ** Options *)

Inductive style := Separate | Joined | Long.
Definition option_fields (o : style * (string * string)) : list string :=
  let assignment := o.2.1 +:+ "=" +:+ o.2.2 in
  match o.1 with
  | Separate => ["-c"; assignment]
  | Joined => ["-c" +:+ assignment]
  | Long => ["--" +:+ assignment]
  end.
Definition render_options (l : list (style * (string * string))) : string := Join (concat (option_fields <$> l)) " ".
Definition valid_option (o : style * (string * string)) : Prop :=
  validSettingName o.2.1 = true ∧ all_bytes plain o.2.2.

Lemma setting_character_plain c : setting_character c = true → plain c = true.
Proof. destruct c as [[] [] [] [] [] [] [] []]; intros E; first [reflexivity | discriminate E]. Qed.
Lemma setting_character_equals c : setting_character c = true → bool_decide ("="%char = c) = false.
Proof. destruct c as [[] [] [] [] [] [] [] []]; intros E; first [reflexivity | discriminate E]. Qed.

Lemma valid_name_plain name : validSettingName name = true → all_bytes plain name.
Proof.
  intros [_ Hn]%andb_prop. unfold all_bytes. rewrite forallb_forall in Hn. apply Forall_forall.
  intros c Hc. apply setting_character_plain, Hn. by apply list_elem_of_In.
Qed.

Lemma Cut_assignment name value : validSettingName name = true →
  Cut (name +:+ "=" +:+ value) "="%char = (name, value, true).
Proof.
  intros [_ Hn]%andb_prop. unfold Cut, IndexByte. change (name +:+ "=" +:+ value) with (name +:+ String "=" value).
  rewrite IndexFunc_app; [|apply Forall_forall; intros c Hc|by apply bool_decide_eq_true].
  - by rewrite take_string_app, drop_string_app_S.
  - rewrite forallb_forall in Hn. apply list_elem_of_In in Hc.
    by apply negb_true_iff, setting_character_equals, Hn.
Qed.

Lemma set_option_valid m o : valid_option o → set_option m (o.2.1 +:+ "=" +:+ o.2.2) = <[setting_name o.2.1 := o.2.2]> m.
Proof. intros [Hn _]. unfold set_option. rewrite Cut_assignment by done. by rewrite Hn. Qed.

Lemma option_assignments_rendered l :
  option_assignments (concat (option_fields <$> l)) = (λ o, o.2.1 +:+ "=" +:+ o.2.2) <$> l.
Proof.
  induction l as [|[st [n v]] l IH]; [done|]. cbn [fmap list_fmap concat]. destruct st; cbn [option_fields fst snd app].
  - cbn [option_assignments]. by rewrite decide_True, IH by done.
  - cbn [option_assignments]. rewrite IH.
    assert ("-c" +:+ n +:+ "=" +:+ v ≠ "-c") as Hne.
    { intros E%(f_equal String.length). rewrite !length_app_string in E. cbn in E. lia. }
    assert (HasPrefix ("-c" +:+ n +:+ "=" +:+ v) "-c" = true) as -> by (apply HasPrefix_spec; eauto).
    change (TrimPrefix ("-c" +:+ n +:+ "=" +:+ v) "-c") with (n +:+ "=" +:+ v).
    destruct (concat (option_fields <$> l)); [done|]. by rewrite decide_False.
  - cbn [option_assignments]. rewrite IH.
    change (HasPrefix ("--" +:+ n +:+ "=" +:+ v) "-c") with false.
    change (HasPrefix ("--" +:+ n +:+ "=" +:+ v) "--") with true. cbn iota.
    change (TrimPrefix ("--" +:+ n +:+ "=" +:+ v) "--") with (n +:+ "=" +:+ v).
    destruct (concat (option_fields <$> l)); [done|]. by rewrite decide_False.
Qed.

Lemma rendered_words l : Forall valid_option l → Forall word (concat (option_fields <$> l)).
Proof.
  intros Hl. apply Forall_concat, Forall_fmap. eapply Forall_impl; [exact Hl|]. intros [st [n v]] [Hn%valid_name_plain Hv].
  cbn in *. assert (word (n +:+ "=" +:+ v)) as Hw.
  { split; [|rewrite !all_bytes_app; split_and!; [done | by repeat constructor | done]]. intros E%(f_equal String.length). rewrite !length_app_string in E. cbn in E. lia. }
  assert (∀ p, all_bytes plain p → word (p +:+ n +:+ "=" +:+ v)) as Hp.
  { intros p Hp. destruct Hw as [Hne Hw]. split; [|by rewrite all_bytes_app].
    intros E%(f_equal String.length). rewrite !length_app_string in E. cbn in E. lia. }
  assert (all_bytes plain "-c" ∧ all_bytes plain "--") as [Hc Hd] by (split; by repeat constructor).
  destruct st; cbn; repeat constructor; auto; by destruct Hw.
Qed.

(** whatever of the three spellings PostgreSQL clients use for each of the
    settings in the [options] of their start-up message, the settings are read
    back; the last assignment of a setting wins. *)
Theorem startup_options_roundtrip l :
  Forall valid_option l →
  parseStartupOptions ∅ (render_options l) =
  list_to_map (rev ((λ o, (setting_name o.2.1, o.2.2)) <$> l)).
Proof.
  intros Hl. unfold parseStartupOptions, render_options.
  rewrite Fields_Join by by apply rendered_words. rewrite option_assignments_rendered.
  induction l as [|o l IH] using rev_ind; [done|]. apply Forall_app in Hl as [Hl [Ho _]%Forall_cons].
  rewrite fmap_app, fold_left_app, IH by done. cbn [fmap list_fmap fold_left]. rewrite set_option_valid by done.
  rewrite fmap_app, rev_app_distr. done.
Qed.

(** ** Names of settings *)










(** Encryption is refused as often as it is asked for; then the client is
    greeted and its queries are served with the settings it asked for. *)
Lemma startup_negotiation `{MapOrder} pid secret n parameters rest :
  serveConn pid secret [] (replicate n (Ok SSLRequest) ++ Ok (StartupMessage parameters) :: rest) =
  (replicate n (Write "N") ++ [Greet (sendStartup pid secret (startupRuntimeParameters (Some parameters)))],
   Serving (startupRuntimeParameters (Some parameters))).
Proof. induction n as [|n IH]; [done|]. cbn [replicate app serveConn tail]. by rewrite IH. Qed.

(** * Concrete inputs *)

Definition driver_options : list (style * (string * string)) :=
  [(Separate, ("search_path", "app,public")); (Joined, ("timezone", "CET")); (Long, ("statement_timeout", "5s"));
   (Separate, ("TIMEZONE", "UTC"))].
Lemma startup_options_roundtrip_witness :
  parseStartupOptions ∅ (render_options driver_options) !! "TimeZone" = Some "UTC" ∧
  parseStartupOptions ∅ (render_options driver_options) !! "search_path" = Some "app,public".
Proof.
  rewrite (startup_options_roundtrip driver_options) by (unfold driver_options; repeat constructor).
  split; by vm_compute.
Defined.

#[local] Existing Instance canonical_order.
#[local] Existing Instance toy_conn.
#[local] Existing Instance toy_laws.




(** Two spellings of another setting stay two settings. They are applied in
    the order of their names, so the spelling with the capital letters loses
    although it was given last. *)
Example spelling_decides :
  let params := parseStartupOptions ∅ "-c statement_timeout=1 -c Statement_Timeout=2" in
  sort_strings (map_range params).*1 = ["Statement_Timeout"; "statement_timeout"] ∧
  match applyRuntimeParams "a" 7 {| overrides := ∅; toy_statements := ∅ |} params
          {| prepared := ∅; runtimeParams := ∅ |} with
  | Ok (c, _) => setting c "statement_timeout"
  | Err _ => ""
  end = "1".
Proof. split; by vm_compute. Qed.
End startup.
