(* ===== verification/Fanout.v ===== *)
(** Reading the Burrows' replies and querying all of them, from
    [internal/backend/backend.go]: [cloneBackendMessage], [receiveUntil],
    [ReceiveUntilFromMany], [queryShard], [QueryAll], [QueryOne] and
    [classifyQueryError].

    A value of a row is [None] for the nil slice, which the wire format shows as
    NULL, and [Some v] for a slice that is not nil, possibly empty. *)
From S2P Require Import Prelude.
From S2P Require Import GoStrings.
From S2P Require Import GoNumbers.
From S2P Require Import Wire.

Module fanout.
Import wire.

(** * Copies of messages *)

(** [append([]byte(nil), value...)]: appending nothing to nil is nil. *)
Definition copy_bytes (value : option bytes) : option bytes :=
  match value with Some (c :: l) => Some (c :: l) | _ => None end.

(** The other messages are copied field by field, or shared; an empty name, tag
    or payload that becomes nil is written as the same empty text. *)
Definition cloneBackendMessage (m : BackendMessage) : BackendMessage :=
  match m with
  | DataRow values => DataRow (copy_bytes <$> values)
  | m => m
  end.

(** [receiveUntil]: the messages up to the first that satisfies [finished],
    and what is left on the connection; [None] when the connection fails before. *)
Fixpoint receiveUntil (finished : BackendMessage → bool) (incoming : list BackendMessage)
    : option (list BackendMessage * list BackendMessage) :=
  match incoming with
  | [] => None
  | message :: incoming =>
    if finished message then Some ([cloneBackendMessage message], incoming)
    else '(response, rest) ← receiveUntil finished incoming;
         Some (cloneBackendMessage message :: response, rest)
  end.

Inductive receive_error := NotConnected (burrow : string) | ReceiveFailed (burrow : string).

(** [ReceiveUntilFromMany]: the connections hold what each Burrow has sent. *)
Fixpoint ReceiveUntilFromMany (finished : BackendMessage → bool) (names : list string)
    (connections : gmap string (list BackendMessage))
    : gmap string (list BackendMessage) * result receive_error (list (list BackendMessage)) :=
  match names with
  | [] => (connections, Ok [])
  | name :: names =>
    match connections !! name with
    | None => (connections, Err (NotConnected name))
    | Some incoming =>
      match receiveUntil finished incoming with
      | None => (connections, Err (ReceiveFailed name))
      | Some (response, rest) =>
        let '(connections, responses) := ReceiveUntilFromMany finished names (<[name := rest]> connections) in
        (connections, responses ← responses; Ok (response :: responses))
      end
    end
  end.

(** * Queries on pooled connections *)

(** The error of a query: a [pgconn.PgError], or anything else with its text. *)
Inductive query_error := PgError (e : ErrorResponse) | ConnectionError (message : string).

Definition classifyQueryError (e : query_error) : string :=
  match e with
  | PgError e =>
    let class := take_string 2 (Code e) in
    if decide (class ∈ ["22"; "23"]) then "data_error"
    else if decide (class ∈ ["25"; "40"]) then "transaction_error"
    else if decide (class = "42") then "sql_error"
    else if decide (class = "53") then "resource_exhausted"
    else "postgres_error"
  | ConnectionError _ => "backend_connection"
  end.

(** [queryShard] once it has a connection: the rows that were read are copied;
    an error of the query or of the rows is returned instead. *)
Definition queryShard (reply : result query_error Result) : result query_error Result :=
  r ← reply;
  Ok {| ResultFields := ResultFields r; Rows := fmap (M := list) copy_bytes <$> Rows r;
        CommandTag := CommandTag r |}.

Inductive fan_error :=
| ShardFailed (burrow : string) (e : query_error)
| QueryFailed (e : query_error)
| MergeFailed (e : merge_error)
| UnknownBurrow (burrow : string).

Record outcome := { o_name : string; o_result : result query_error Result }.

(** What a query leaves in the metrics: [success] and [ErrorCategory] of the
    query event, and the outcome of the operation "backend_query", if counted. *)
Record metric := { m_success : bool; m_category : string; m_operation : option string }.

(** The loop over the channel of results. *)
Definition receive_outcome (acc : gmap string Result * option (string * query_error)) (o : outcome)
    : gmap string Result * option (string * query_error) :=
  match o_result o with
  | Err e => (acc.1, match acc.2 with None => Some (o_name o, e) | first => first end)
  | Ok r => (<[o_name o := r]> acc.1, acc.2)
  end.

Section queries.
Context `{MapOrder}.

(** [QueryAll], given the outcomes in the order in which they arrive. *)
Definition QueryAll (arrivals : list outcome) : result fan_error Result * metric :=
  let '(byName, firstErr) := fold_left receive_outcome arrivals (∅, None) in
  match firstErr with
  | Some (name, e) =>
    (Err (ShardFailed name e),
     {| m_success := false; m_category := classifyQueryError e; m_operation := Some "failure" |})
  | None =>
    let names := sort_strings (map_range byName).*1 in
    let ordered := omap (λ name, byName !! name) names in
    match merge ordered with
    | Ok merged => (Ok merged, {| m_success := true; m_category := "query_execution"; m_operation := Some "success" |})
    | Err e => (Err (MergeFailed e),
        {| m_success := false; m_category := "result_mismatch"; m_operation := Some "failure" |})
    end
  end.

(** [QueryOne] over the shards of the Manager; [query] is [queryShard]. *)
Definition QueryOne (shards : list string) (query : string → result query_error Result) (name : string)
    : result fan_error Result * metric :=
  if decide (name ∈ shards) then
    match query name with
    | Ok r => (Ok r, {| m_success := true; m_category := "query_execution"; m_operation := Some "success" |})
    | Err e => (Err (QueryFailed e),
        {| m_success := false; m_category := classifyQueryError e; m_operation := Some "failure" |})
    end
  else (Err (UnknownBurrow name),
        {| m_success := false; m_category := "configuration"; m_operation := None |}).
End queries.

(** * Lemmas *)

Lemma receiveUntil_spec finished incoming response rest :
  receiveUntil finished incoming = Some (response, rest) ↔
  ∃ before last, incoming = before ++ last :: rest ∧ Forall (λ m, finished m = false) before ∧
    finished last = true ∧ response = cloneBackendMessage <$> before ++ [last].
Proof.
  revert response. induction incoming as [|m incoming IH]; intros response; cbn [receiveUntil].
  { split; [done|]. by intros ([|??] & ? & ? & _). }
  destruct (finished m) eqn:Hm.
  - split; [intros [= <- <-]; by exists [], m|].
    intros ([|m' before] & last & E & Hb & Hl & ->); injection E as <- ->; [done|].
    inversion Hb; congruence.
  - split.
    + destruct (receiveUntil finished incoming) as [[r' rest']|] eqn:E; [|done]. intros [= <- <-].
      destruct (proj1 (IH r') eq_refl) as (before & last & -> & Hb & Hl & ->).
      exists (m :: before), last. split; [done|]. split; [by constructor | done].
    + intros ([|m' before] & last & E & Hb & Hl & ->); injection E as <- ->; [congruence|].
      apply Forall_cons in Hb as [_ Hb].
      assert (receiveUntil finished (before ++ last :: rest) =
        Some (cloneBackendMessage <$> before ++ [last], rest)) as Hrec.
      { apply IH. by exists before, last. }
      by rewrite Hrec.
Qed.

Lemma copy_bytes_id value : copy_bytes value = value ↔ value ≠ Some [].
Proof. by destruct value as [[|c l]|]. Qed.

(** The loop of [QueryAll] sees the first error and all results. *)
Lemma receive_all arrivals :
  NoDup (o_name <$> arrivals) →
  let acc := fold_left receive_outcome arrivals (∅, None) in
  (∀ name r, acc.1 !! name = Some r ↔ {| o_name := name; o_result := Ok r |} ∈ arrivals) ∧
  match acc.2 with
  | None => ∀ o, o ∈ arrivals → is_ok (o_result o) = true
  | Some (name, e) => ∃ before after, arrivals = before ++ {| o_name := name; o_result := Err e |} :: after ∧
      ∀ o, o ∈ before → is_ok (o_result o) = true
  end.
Proof.
  induction arrivals as [|o arrivals IH] using rev_ind.
  { cbn. intros _. split; [|by intros ? ?%elem_of_nil]. intros name r. split; [done | by intros ?%elem_of_nil]. }
  rewrite fmap_app, NoDup_app. intros (Hnd & Hnew & _). specialize (IH Hnd). cbn in IH. rewrite fold_left_app. cbn [fold_left].
  destruct (fold_left receive_outcome arrivals (∅, None)) as [byName firstErr]. cbn in IH. destruct IH as [Hmap Herr].
  destruct o as [name [r|e]]; unfold receive_outcome; cbn [o_result o_name fst snd].
  - split.
    + intros n r'. rewrite elem_of_app, list_elem_of_singleton. destruct (decide (name = n)) as [->|Hne].
      * rewrite lookup_insert_eq. split; [intros [= ->]; by right|]. intros [Hin|[= ->]]; [|done]. exfalso.
        apply (Hnew n); [by apply (list_elem_of_fmap_2 o_name _ {| o_name := n; o_result := Ok r' |})|by left].
      * rewrite lookup_insert_ne, Hmap by done. naive_solver.
    + destruct firstErr as [[n e]|].
      * destruct Herr as (before & after & -> & Hb). exists before, (after ++ [{| o_name := name; o_result := Ok r |}]).
        split; [by rewrite <- app_assoc | done].
      * intros o [Ho| ->%list_elem_of_singleton]%elem_of_app; [by apply Herr | done].
  - split.
    + intros n r'. rewrite Hmap, elem_of_app, list_elem_of_singleton. naive_solver.
    + destruct firstErr as [[n e']|].
      * destruct Herr as (before & after & -> & Hb). exists before, (after ++ [{| o_name := name; o_result := Err e |}]).
        split; [by rewrite <- app_assoc | done].
      * by exists arrivals, [].
Qed.

Section fan_facts.
Context `{MapOrder}.

Lemma by_name_dom (arrivals : list outcome) (byName : gmap string Result) :
  NoDup (o_name <$> arrivals) →
  (∀ name r, byName !! name = Some r ↔ {| o_name := name; o_result := Ok r |} ∈ arrivals) →
  (∀ o, o ∈ arrivals → is_ok (o_result o) = true) →
  (map_range byName).*1 ≡ₚ o_name <$> arrivals.
Proof.
  intros Hnd Hmap Hok. apply NoDup_Permutation; [apply NoDup_fst_map_range | done|]. intros n. rewrite !list_elem_of_fmap. split.
  - intros ([n' r] & -> & Hl%elem_of_map_range%Hmap). by exists {| o_name := n'; o_result := Ok r |}.
  - intros ([n' [r|e]] & -> & Hin); [|by specialize (Hok _ Hin)]. exists (n', r). split; [done|].
    by apply elem_of_map_range, Hmap.
Qed.

Lemma omap_lookup_all (byName : gmap string Result) names :
  (∀ n, n ∈ names → is_Some (byName !! n)) →
  Forall2 (λ n r, byName !! n = Some r) names (omap (λ n, byName !! n) names).
Proof.
  induction names as [|n names IH]; intros Hall; [constructor|]. cbn.
  destruct (Hall n ltac:(by left)) as [r Hr]. rewrite Hr. constructor; [done|]. apply IH. intros; apply Hall. by right.
Qed.

(** The results in name order. *)
Definition in_name_order (arrivals : list outcome) (rs : list Result) : Prop :=
  ∃ names, names ≡ₚ o_name <$> arrivals ∧ StronglySorted String.le names ∧
    Forall2 (λ n r, {| o_name := n; o_result := Ok r |} ∈ arrivals) names rs.

Lemma QueryAll_ok arrivals :
  NoDup (o_name <$> arrivals) → (∀ o, o ∈ arrivals → is_ok (o_result o) = true) →
  ∃ rs, in_name_order arrivals rs ∧ (QueryAll arrivals).1 = map_err MergeFailed (merge rs).
Proof.
  intros Hnd Hok. unfold QueryAll. pose proof (receive_all arrivals Hnd) as Hall. cbn in Hall.
  destruct (fold_left receive_outcome arrivals (∅, None)) as [byName [[n e]|]]; cbn in Hall; destruct Hall as [Hmap Herr].
  - destruct Herr as (before & after & -> & _). exfalso.
    discriminate (Hok {| o_name := n; o_result := Err e |}). apply elem_of_app. right. by left.
  - set (names := sort_strings _). exists (omap (λ name, byName !! name) names).
    assert (names ≡ₚ o_name <$> arrivals) as Hperm.
    { etrans; [apply sort_strings_perm | by apply by_name_dom]. }
    split; [|by destruct (merge _)]. exists names. split; [done|]. split; [apply sort_strings_sorted|].
    eapply Forall2_impl; [apply omap_lookup_all | by intros n r ?%Hmap].
    intros n. rewrite Hperm, list_elem_of_fmap. intros ([n' [r|e]] & -> & Hin); [|by specialize (Hok _ Hin)].
    exists r. by apply Hmap.
Qed.

Lemma QueryAll_failed arrivals :
  NoDup (o_name <$> arrivals) → (∃ o, o ∈ arrivals ∧ is_ok (o_result o) = false) →
  ∃ before name e after, arrivals = before ++ {| o_name := name; o_result := Err e |} :: after ∧
    (∀ o, o ∈ before → is_ok (o_result o) = true) ∧ (QueryAll arrivals).1 = Err (ShardFailed name e).
Proof.
  intros Hnd (o & Ho & Hf). unfold QueryAll. pose proof (receive_all arrivals Hnd) as Hall. cbn in Hall.
  destruct (fold_left receive_outcome arrivals (∅, None)) as [byName [[n e]|]]; cbn in Hall; destruct Hall as [Hmap Herr].
  - destruct Herr as (before & after & -> & Hb). by exists before, n, e, after.
  - by rewrite Herr in Hf.
Qed.

Lemma in_name_order_unique arrivals arrivals' rs rs' :
  NoDup (o_name <$> arrivals) → arrivals ≡ₚ arrivals' →
  in_name_order arrivals rs → in_name_order arrivals' rs' → rs = rs'.
Proof.
  intros Hnd Hperm (names & Hn & Hs & Hf) (names' & Hn' & Hs' & Hf').
  assert (names = names') as <-.
  { rewrite <- (sort_strings_id names), <- (sort_strings_id names') by done.
    apply sort_strings_unique. by rewrite Hn, Hn', Hperm. }
  clear Hn Hn' Hs Hs'. revert rs' Hf'. induction Hf as [|n r names rs Hr Hf IH]; intros rs' Hf';
    inversion Hf' as [|? r' ? rs'' Hr' Hf'']; subst; [done|].
  f_equal; [|by apply IH]. rewrite <- Hperm in Hr'.
  by injection (NoDup_fmap_unique o_name arrivals _ _ Hnd Hr Hr' eq_refl).
Qed.
End fan_facts.

(** * Properties *)

(** C27: the order in which the Burrows answer does not matter: when
    all queries succeed the client gets the merge of the results in name order,
    whatever the order of arrival; otherwise it gets the first error that
    arrived, whatever has succeeded. *)
Theorem QueryAll_any_order `{MapOrder} arrivals arrivals' :
  NoDup (o_name <$> arrivals) → arrivals ≡ₚ arrivals' →
  if forallb (λ o, is_ok (o_result o)) arrivals
  then (QueryAll arrivals).1 = (QueryAll arrivals').1 ∧
       ∃ rs, in_name_order arrivals rs ∧ (QueryAll arrivals).1 = map_err MergeFailed (merge rs)
  else ∃ before name e after, arrivals = before ++ {| o_name := name; o_result := Err e |} :: after ∧
       (∀ o, o ∈ before → is_ok (o_result o) = true) ∧ (QueryAll arrivals).1 = Err (ShardFailed name e).
Proof.
  intros Hnd Hperm. destruct (forallb _ _) eqn:E.
  - rewrite forallb_forall in E. assert (∀ o, o ∈ arrivals → is_ok (o_result o) = true) as Hok.
    { intros o Ho. apply E. by apply list_elem_of_In. }
    destruct (QueryAll_ok arrivals Hnd Hok) as (rs & Hrs & Hq).
    destruct (QueryAll_ok arrivals') as (rs' & Hrs' & Hq'); [by rewrite <- Hperm | by setoid_rewrite <- Hperm|].
    split; [|by exists rs]. rewrite Hq, Hq'. by rewrite (in_name_order_unique _ _ _ _ Hnd Hperm Hrs Hrs').
  - apply QueryAll_failed; [done|]. apply not_true_iff_false in E. rewrite forallb_forall in E.
    apply Exists_exists, dec_stable. intros Hn. apply E. intros o Ho. apply not_false_iff_true. intros Hf.
    apply Hn, Exists_exists. exists o. split; [by apply list_elem_of_In | done].
Qed.

Lemma Forall2_members {A B} (P : A → B → Prop) l k : Forall2 P l k → Forall2 (λ x y, x ∈ l ∧ P x y) l k.
Proof.
  induction 1 as [|x y l k Hxy Hf IH]; constructor; [split; [by left | done]|].
  eapply Forall2_impl; [exact IH|]. intros x' y' [Hin HP]. split; [by right | done].
Qed.

(** What a reply takes from the connection of its Burrow. *)
Definition takes (finished : BackendMessage → bool) (connections connections' : gmap string (list BackendMessage))
    (name : string) (response : list BackendMessage) : Prop :=
  ∃ before last rest, connections !! name = Some (before ++ last :: rest) ∧
    Forall (λ m, finished m = false) before ∧ finished last = true ∧
    response = cloneBackendMessage <$> before ++ [last] ∧ connections' !! name = Some rest.

(** reading the replies of several Burrows takes from each of them
    exactly the messages up to the first that ends the reply, in the order in
    which they were sent, and leaves the rest and all other connections alone. *)
Theorem replies_read_exactly finished names connections connections' responses :
  NoDup names →
  ReceiveUntilFromMany finished names connections = (connections', Ok responses) →
  Forall2 (takes finished connections connections') names responses ∧
  ∀ name, name ∉ names → connections' !! name = connections !! name.
Proof.
  revert connections responses. induction names as [|name names IH]; intros connections responses; cbn [ReceiveUntilFromMany].
  { intros _ [= <- <-]. split; [constructor | done]. }
  intros [Hn Hnd]%NoDup_cons. destruct (connections !! name) as [incoming|] eqn:El; [|done].
  destruct (receiveUntil finished incoming) as [[response rest]|] eqn:Er; [|done].
  destruct (ReceiveUntilFromMany finished names (<[name:=rest]> connections)) as [c [rs|e]] eqn:Em; [|done].
  intros [= <- <-]. apply IH in Em as [Hf Ho]; [|done].
  apply receiveUntil_spec in Er as (before & last & -> & Hb & Hl & ->). split; [constructor|].
  - exists before, last, rest. do 4 (split; [done|]). rewrite Ho by done. apply lookup_insert_eq.
  - eapply Forall2_impl; [by apply Forall2_members|]. intros n r [Hin (b & l & rt & Hc & Hrest)].
    exists b, l, rt. rewrite lookup_insert_ne in Hc by congruence. done.
  - intros n [Hne Hnot]%not_elem_of_cons. rewrite Ho by done. by rewrite lookup_insert_ne.
Qed.

(** ** Empty values *)

Definition null_empty (rows : list (list (option bytes))) : list (list (option bytes)) :=
  fmap (M := list) copy_bytes <$> rows.
Definition cloned (c : collected) : collected := {|
  description := description c; rows := null_empty (rows c); tags := tags c; notices := notices c;
  parameterStatuses := parameterStatuses c |}.

Lemma collect_message_clone first c m :
  collect_message first (cloned c) (cloneBackendMessage m) =
    match collect_message first c m with Ok c' => Ok (cloned c') | Err e => Err e end.
Proof.
  destruct m; cbn; try done.
  - destruct (description c); [by case_match | done].
  - unfold cloned, null_empty. cbn. by rewrite fmap_app.
  - by destruct first.
  - by destruct first.
Qed.

Lemma collect_messages_clone first l c :
  mfold (collect_message first) (cloned c) (cloneBackendMessage <$> l) =
    match mfold (collect_message first) c l with Ok c' => Ok (cloned c') | Err e => Err e end.
Proof.
  revert c. induction l as [|m l IH]; intros c; [done|]. cbn [fmap list_fmap mfold].
  rewrite collect_message_clone. destruct (collect_message first c m); cbn; [apply IH | done].
Qed.

Lemma collect_clone_from responses c i :
  mfold (λ c p, mfold (collect_message (bool_decide (p.1 = 0%nat))) c p.2) (cloned c)
    (enumerate_from i (fmap (M := list) cloneBackendMessage <$> responses)) =
  match mfold (λ c p, mfold (collect_message (bool_decide (p.1 = 0%nat))) c p.2) c (enumerate_from i responses) with
  | Ok c' => Ok (cloned c') | Err e => Err e end.
Proof.
  revert c i. induction responses as [|r responses IH]; intros c i; [done|].
  cbn [fmap list_fmap enumerate_from mfold fst snd]. rewrite collect_messages_clone.
  destruct (mfold (collect_message _) c r) as [c'|e]; cbn; [apply IH | done].
Qed.

Lemma fmap_copy_id (row : list (option bytes)) : copy_bytes <$> row = row ↔ Some [] ∉ row.
Proof.
  induction row as [|v row IH]; [split; [by intros _ ?%elem_of_nil | done]|].
  cbn [fmap list_fmap]. rewrite not_elem_of_cons, <- IH. pose proof (copy_bytes_id v). split; [intros [= H1 H2] | intros [H1 H2]].
  - split; [|done]. intros <-. done.
  - f_equal; [|done]. apply H. congruence.
Qed.

(** the copies the proxy makes of the replies are faithful except
    for empty values: the client gets the descriptions, tags, notices and rows
    that the Burrows sent, but every value that is an empty string arrives as
    NULL, in affinity sessions and in pooled queries alike. *)
Theorem empty_values_become_null responses r :
  collect (fmap (M := list) cloneBackendMessage <$> responses) =
    match collect responses with Ok c => Ok (cloned c) | Err e => Err e end ∧
  queryShard (Ok r) = Ok {| ResultFields := ResultFields r; Rows := null_empty (Rows r); CommandTag := CommandTag r |} ∧
  (∀ rows, null_empty rows = rows ↔ Forall (λ row, Some [] ∉ row) rows).
Proof.
  split; [apply (collect_clone_from responses nothing_collected 0)|]. split; [done|]. intros rows.
  induction rows as [|row rows IH]; [split; [constructor | done]|].
  change (null_empty (row :: rows)) with ((copy_bytes <$> row) :: null_empty rows). rewrite Forall_cons, <- IH, <- fmap_copy_id. split; [by intros [= -> ->] | by intros [-> ->]].
Qed.

(** * Witnesses *)

Definition sent_row (id : string) : result query_error Result :=
  Ok {| ResultFields := []; Rows := [[Some (bytes_of id)]]; CommandTag := "SELECT 1" |}.
Definition two_outcomes : list outcome :=
  [{| o_name := "b"; o_result := sent_row "2" |}; {| o_name := "a"; o_result := sent_row "1" |}].

Lemma QueryAll_any_order_witness :
  (QueryAll (H := canonical_order) two_outcomes).1 = (QueryAll (H := canonical_order) (rev two_outcomes)).1 ∧
  (QueryAll (H := canonical_order) two_outcomes).1 =
    Ok {| ResultFields := []; Rows := [[Some (bytes_of "1")]; [Some (bytes_of "2")]]; CommandTag := "SELECT 2" |}.
Proof.
  split; [|vm_compute; reflexivity].
  pose proof (QueryAll_any_order (H := canonical_order) two_outcomes (rev two_outcomes)) as Hq. cbn in Hq.
  apply Hq; [by_computation | apply Permutation_rev].
Defined.

Definition replies_in_flight : gmap string (list BackendMessage) :=
  {["a" := [DataRow [Some []]; ReadyForQuery "I"; NoticeResponse "later"]; "b" := [ReadyForQuery "I"]]}.

Lemma replies_read_exactly_witness :
  ∃ c, ReceiveUntilFromMany isQueryDone ["a"] replies_in_flight = (c, Ok [[DataRow [None]; ReadyForQuery "I"]]) ∧
    c !! "b" = Some [ReadyForQuery "I"].
Proof.
  eexists. split; [vm_compute; reflexivity|].
  refine (proj2 (replies_read_exactly isQueryDone ["a"] replies_in_flight _ [[DataRow [None]; ReadyForQuery "I"]] _ _) "b" _).
  - by_computation.
  - vm_compute. reflexivity.
  - by_computation.
Defined.

Example empty_name_reads_as_null :
  collect [cloneBackendMessage <$> [DataRow [Some []]; CommandComplete "SELECT 1"; ReadyForQuery "I"]] =
    Ok {| description := None; rows := [[None]]; tags := ["SELECT 1"]; notices := []; parameterStatuses := [] |}.
Proof. reflexivity. Qed.

End fanout.
