(* ===== verification/Statements.v ===== *)
(** Prepared statements and bound parameters, from
    [internal/proxy/server.go]: the copies of frontend messages,
    [prepareStatement], [canonicalStatementName], [prepareBind] and
    [routingParameters].

    A parameter of a Bind message is [None] for the nil slice, which the wire
    format shows as NULL, and [Some v] for a slice that is not nil, possibly
    empty.  Decoding binary parameters is done by pgtype and is a parameter. *)
From S2P Require Import Prelude.
From S2P Require Import GoStrings.
From S2P Require Import GoNumbers.
From S2P Require Import GoStd.
From S2P Require Import Schema.
From S2P Require Import ShardKey.
From S2P Require Import PgQuery.
From S2P Require Import Ddl.
From S2P Require Import Router.
From S2P Require Import Session.
From S2P Require Import FleetDdl.
From S2P Require Import Wire.
From S2P Require Import Fanout.

Module statements.
Import schema session fleetddl fanout.

(** * Frontend messages *)

Record ParseMessage := { p_Name : string; p_Query : string; ParameterOIDs : list Z }.
Record BindMessage := {
  DestinationPortal : string; PreparedStatement : string; ParameterFormatCodes : list Z;
  Parameters : list (option bytes); ResultFormatCodes : list Z;
}.
Inductive FrontendMessage :=
| Parse (m : ParseMessage)
| Bind (m : BindMessage)
| Describe (object : byte) (name : string)
| Execute (portal : string) (maxRows : Z)
| Close (object : byte) (name : string)
| Sync | Flush | Terminate
| Query (text : string)
| CopyData (data : bytes) | CopyDone | CopyFail (message : string)
| FunctionCall (arguments : list (option bytes))
| OtherFrontend (kind : string).

(** [cloneParameters] makes the nil elements explicit; its other elements are
    copied by [append([]byte(nil), parameter...)]. *)
Definition cloneParameters (parameters : list (option bytes)) : list (option bytes) := copy_bytes <$> parameters.

Definition with_parameters (codes : list Z) (parameters : list (option bytes)) (m : BindMessage) : BindMessage := {|
  DestinationPortal := DestinationPortal m; PreparedStatement := PreparedStatement m;
  ParameterFormatCodes := codes; Parameters := parameters; ResultFormatCodes := ResultFormatCodes m |}.
Definition with_statement (name : string) (m : BindMessage) : BindMessage := {|
  DestinationPortal := DestinationPortal m; PreparedStatement := name;
  ParameterFormatCodes := ParameterFormatCodes m; Parameters := Parameters m;
  ResultFormatCodes := ResultFormatCodes m |}.

(** The copy the receiving goroutine takes of every message; only the values of
    Bind and FunctionCall can differ from the original. *)
Definition cloneFrontendMessage (m : FrontendMessage) : FrontendMessage :=
  match m with
  | Bind b => Bind (with_parameters (ParameterFormatCodes b) (copy_bytes <$> Parameters b) b)
  | FunctionCall arguments => FunctionCall (copy_bytes <$> arguments)
  | m => m
  end.

(** * Statements *)

Record statementState := {
  st_sql : string; generated : bool; st_schema : bool; backendName : string;
  parse : option ParseMessage; routing : option router.Prepared;
}.
(** What a lookup of an unknown name gives. *)
Definition zero_statement : statementState := {|
  st_sql := ""; generated := false; st_schema := false; backendName := ""; parse := None; routing := None |}.

(** [binary.BigEndian.PutUint32] *)
Definition big_endian (oid : Z) : bytes :=
  [byte_of (Z.shiftr oid 24); byte_of (Z.shiftr oid 16); byte_of (Z.shiftr oid 8); byte_of oid].
(** What is hashed for a statement. *)
Definition statement_key (text : string) (oids : list Z) : bytes :=
  bytes_of text ++ concat (big_endian <$> oids).
Definition canonicalStatementName `{GoStd} (text : string) (oids : list Z) : string :=
  "hamstergres_" +:+ EncodeHex (take 12 (sha256 (statement_key text oids))).

(** [for len(oids) < n { oids = append(oids, 0) }] *)
Definition pad_oids (n : Z) (oids : list Z) : list Z :=
  oids ++ replicate (Z.to_nat n - length oids) 0.

Section prepare.
Context `{GoStd} `{PgQuery}
  (MakeStrNode : string → message) (MakeResTargetNodeWithName : string → Z → message).

Definition prepared_as (text : string) (oids : list Z) (is_generated is_schema : bool)
    (r : router.Prepared) : statementState := {|
  st_sql := text; generated := is_generated; st_schema := is_schema;
  backendName := canonicalStatementName text oids;
  parse := Some {| p_Name := canonicalStatementName text oids; p_Query := text; ParameterOIDs := oids |};
  routing := Some r |}.

(** [RewriteGeneratedInsert] with the next parameter, for an INSERT into a table
    with a generated key. *)
Definition rewritten_insert (text : string) (r : router.Prepared) (registry : Registry) (parameter : Z)
    : option string :=
  if bool_decide (firstSQLKeyword text = "INSERT")
     && bool_decide (is_Some (GeneratedPrimaryKey registry (router.prepared_table (Some r))))
  then router.SQL <$> router.RewriteGeneratedInsert text registry
         ("$" +:+ FormatInt parameter) MakeResTargetNodeWithName
  else None.

Definition prepareStatement (m : ParseMessage) (registry : Registry) : result error statementState :=
  normalized ← normalizeDDL MakeStrNode (p_Query m);
  r ← or_fail (router.Prepare (n_sql normalized)) ParseError;
  let parameter := router.MaxParameter (Some r) + 1 in
  match rewritten_insert (n_sql normalized) r registry parameter with
  | None => Ok (prepared_as (n_sql normalized) (ParameterOIDs m) false (n_schema normalized) r)
  | Some text =>
    rewritten ← or_fail (router.Prepare text) ParseError;
    Ok (prepared_as text (pad_oids parameter (ParameterOIDs m)) true (n_schema normalized) rewritten)
  end.
End prepare.

(** * Binding *)

Section binding.
(** [typeMap.Scan(oid, BinaryFormatCode, value, &decoded)] *)
Context (scan_binary : Z → bytes → option string).

Definition BinaryFormatCode : Z := 1.

(** The format code PostgreSQL applies to a parameter. *)
Definition format_of (codes : list Z) (index : nat) : Z :=
  match codes with
  | [code] => code
  | _ => default 0 (codes !! index)
  end.

Definition routing_parameter (codes oids : list Z) (index : nat) (value : option bytes) : option bytes :=
  match value, oids !! index with
  | Some v, Some oid =>
    if negb (format_of codes index =? BinaryFormatCode) || (oid =? 0) then Some v
    else match scan_binary oid v with Some text => Some (bytes_of text) | None => Some v end
  | value, _ => value
  end.
Definition routingParameters (m : BindMessage) (oids : list Z) : list (option bytes) :=
  (λ p, routing_parameter (ParameterFormatCodes m) oids p.1 p.2) <$> enumerate (cloneParameters (Parameters m)).

(** The format codes with one more text parameter. *)
Definition extended_formats (m : BindMessage) : list Z :=
  match ParameterFormatCodes m with
  | [] => []
  | [code] => replicate (length (Parameters m)) code ++ [0]
  | codes => codes ++ [0]
  end.

Definition bind_error (message : string) : string := "allocate globally unique primary key: " +:+ message.

(** [next_id] is the result of [NextGlobalID]. *)
Definition prepareBind (next_id : result string Z) (m : BindMessage) (st : statementState)
    : result string (BindMessage * list (option bytes)) :=
  let oids := match parse st with Some p => ParameterOIDs p | None => [] end in
  let bound := with_statement (backendName st) m in
  if negb (generated st) then Ok (bound, routingParameters bound oids)
  else
    id ← map_err bind_error next_id;
    let bound := with_parameters (extended_formats m)
      (cloneParameters (Parameters m) ++ [Some (bytes_of (FormatInt id))]) bound in
    Ok (bound, routingParameters bound oids).
End binding.

(** * Lemmas *)

Lemma big_endian_length oid : length (big_endian oid) = 4%nat.
Proof. done. Qed.

Lemma big_endian_head oid : 0 ≤ oid < 2 ^ 24 → ∃ l, big_endian oid = byte_of 0 :: l.
Proof.
  intros Hoid. eexists. unfold big_endian. rewrite Z.shiftr_div_pow2 by lia.
  by rewrite (Z.div_small oid (2 ^ 24)) by lia.
Qed.

Lemma byte_of_eq x y : byte_of x = byte_of y → x mod 256 = y mod 256.
Proof. intros E. by rewrite <- (byte_val_of x), <- (byte_val_of y), E. Qed.

Lemma big_endian_inj a b : 0 ≤ a < 2 ^ 32 → 0 ≤ b < 2 ^ 32 → big_endian a = big_endian b → a = b.
Proof.
  intros Ha Hb [= H0 H1 H2 H3]. apply byte_of_eq in H0, H1, H2, H3.
  rewrite !Z.shiftr_div_pow2 in H0, H1, H2 by lia. change (2 ^ 24) with 16777216 in *.
  change (2 ^ 16) with 65536 in *. change (2 ^ 8) with 256 in *. change (2 ^ 32) with 4294967296 in *.
  clear -Ha Hb H0 H1 H2 H3. Z.to_euclidean_division_equations. lia.
Qed.

(** Bytes up to the first NUL are determined by the whole. *)
Lemma before_nul (l l' t t' : bytes) :
  byte_of 0 ∉ l → byte_of 0 ∉ l' →
  (t = [] ∨ ∃ r, t = byte_of 0 :: r) → (t' = [] ∨ ∃ r, t' = byte_of 0 :: r) →
  l ++ t = l' ++ t' → l = l' ∧ t = t'.
Proof.
  revert l'. induction l as [|c l IH]; intros [|c' l'] Hl Hl' Ht Ht' E; cbn in E.
  - done.
  - destruct Ht as [->|[r ->]]; [done|]. injection E as <- _. destruct Hl'. by left.
  - destruct Ht' as [->|[r ->]]; [done|]. injection E as -> _. destruct Hl. by left.
  - injection E as -> E. apply not_elem_of_cons in Hl as [_ Hl]. apply not_elem_of_cons in Hl' as [_ Hl'].
    by destruct (IH l' Hl Hl' Ht Ht' E) as [-> ->].
Qed.

Lemma encoded_oids_inj oids oids' :
  Forall (λ o, 0 ≤ o < 2 ^ 32) oids → Forall (λ o, 0 ≤ o < 2 ^ 32) oids' →
  concat (big_endian <$> oids) = concat (big_endian <$> oids') → oids = oids'.
Proof.
  revert oids'. induction oids as [|o oids IH]; intros [|o' oids'] Ho Ho' E; [done | by cbn in E.. |].
  apply Forall_cons in Ho as [Ho Hos]. apply Forall_cons in Ho' as [Ho' Hos'].
  cbn [fmap list_fmap concat] in E. apply app_inj_1 in E as [E1 E2]; [|done].
  apply big_endian_inj in E1 as ->; [|done..]. f_equal. by apply IH.
Qed.

Lemma format_app codes codes' i : (i < length codes)%nat → (1 < length codes)%nat →
  format_of (codes ++ codes') i = format_of codes i.
Proof.
  intros Hi Hl. destruct codes as [|a [|b codes]]; cbn in Hi, Hl; [lia..|].
  unfold format_of. cbn [app]. by rewrite !app_comm_cons, lookup_app_l by (cbn; lia).
Qed.

Lemma prepareStatement_coherent `{GoStd} `{PgQuery} MakeStrNode MakeResTargetNodeWithName m registry st :
  prepareStatement MakeStrNode MakeResTargetNodeWithName m registry = Ok st →
  ∃ n r oids, normalizeDDL MakeStrNode (p_Query m) = Ok n ∧ router.Prepare (n_sql n) = Some r ∧
    st_schema st = n_schema n ∧ routing st = router.Prepare (st_sql st) ∧
    backendName st = canonicalStatementName (st_sql st) oids ∧
    parse st = Some {| p_Name := backendName st; p_Query := st_sql st; ParameterOIDs := oids |} ∧
    if generated st then router.MaxParameter (Some r) < Z.of_nat (length oids) ∧ ParameterOIDs m `prefix_of` oids
    else st_sql st = n_sql n ∧ oids = ParameterOIDs m.
Proof.
  unfold prepareStatement. intros (n & Hn & (r & Hr%or_fail_ok & Hst)%bind_ok)%bind_ok.
  destruct (rewritten_insert _ _ _ _ _) as [text|].
  - apply bind_ok in Hst as (r' & Hr'%or_fail_ok & [= <-]). exists n, r. eexists.
    do 3 (split; [done|]). split; [done|]. do 2 (split; [reflexivity|]). cbn. unfold pad_oids. split; [|by eexists].
    rewrite length_app, length_replicate. lia.
  - injection Hst as <-. exists n, r. eexists. do 3 (split; [done|]). split; [by symmetry|]. done.
Qed.

(** The statement that is bound is the one prepared on the Burrows. *)
Lemma prepareBind_statement scan_binary next_id m st bound parameters :
  prepareBind scan_binary next_id m st = Ok (bound, parameters) → PreparedStatement bound = backendName st.
Proof.
  unfold prepareBind. destruct (generated st); cbn [negb]; [|by intros [= <- _]].
  intros (id & _ & [= <- _])%bind_ok. done.
Qed.

(** ** What is bound and what is routed *)

(** What a Burrow reads, as text, from a parameter in the format [code] of type
    [oid]: NULL is NULL, text is itself, and binary data is decoded where pgtype
    knows the type. *)
Inductive reads (scan_binary : Z → bytes → option string) (code oid : Z) : option bytes → option bytes → Prop :=
| reads_null : reads scan_binary code oid None None
| reads_text v : code ≠ 1 → reads scan_binary code oid (Some v) (Some v)
| reads_decoded v text : code = 1 → oid ≠ 0 → scan_binary oid v = Some text →
    reads scan_binary code oid (Some v) (Some (bytes_of text))
| reads_raw v : code = 1 → oid = 0 ∨ scan_binary oid v = None → reads scan_binary code oid (Some v) (Some v).

Definition parse_oids (st : statementState) : list Z :=
  match parse st with Some p => ParameterOIDs p | None => [] end.

(** The formats a Bind message may give: none, one for all, or one each. *)
Definition formats_fit (m : BindMessage) : Prop :=
  length (ParameterFormatCodes m) ∈ [0; 1; length (Parameters m)]%nat.

(** The message [bound] binds the parameters of [m], with the empty string as
    NULL, each in its format, and the new key as text if the statement has one;
    and [routed] is, position by position, what a Burrow reads from [bound]. *)
Definition binds (scan_binary : Z → bytes → option string) (next_id : result string Z) (m : BindMessage)
    (st : statementState) (bound : BindMessage) (routed : list (option bytes)) : Prop :=
  PreparedStatement bound = backendName st ∧ DestinationPortal bound = DestinationPortal m ∧
  ResultFormatCodes bound = ResultFormatCodes m ∧
  (if generated st
   then ∃ id, next_id = Ok id ∧ Parameters bound = (copy_bytes <$> Parameters m) ++ [Some (bytes_of (FormatInt id))] ∧
     (formats_fit m →
       (∀ i, (i < length (Parameters m))%nat →
          format_of (ParameterFormatCodes bound) i = format_of (ParameterFormatCodes m) i) ∧
       format_of (ParameterFormatCodes bound) (length (Parameters m)) = 0)
   else Parameters bound = copy_bytes <$> Parameters m ∧ ParameterFormatCodes bound = ParameterFormatCodes m) ∧
  length routed = length (Parameters bound) ∧
  ∀ i v, Parameters bound !! i = Some v → ∃ w, routed !! i = Some w ∧
    reads scan_binary (format_of (ParameterFormatCodes bound) i) (default 0 (parse_oids st !! i)) v w.

Lemma routing_parameter_reads scan_binary codes oids i v :
  reads scan_binary (format_of codes i) (default 0 (oids !! i)) v (routing_parameter scan_binary codes oids i v).
Proof.
  unfold routing_parameter. destruct v as [v|]; [|constructor]. unfold BinaryFormatCode.
  destruct (Z.eqb_spec (format_of codes i) 1) as [Hc|Hc]; cbn [negb orb].
  - destruct (oids !! i) as [oid|]; cbn [default]; [|by apply reads_raw; auto].
    destruct (Z.eqb_spec oid 0) as [->|Ho]; [by apply reads_raw; auto|].
    destruct (scan_binary oid v) eqn:E; [by apply reads_decoded | by apply reads_raw; auto].
  - by destruct (oids !! i); apply reads_text.
Qed.

Lemma enumerate_fmap_lookup {A B} (f : nat * A → B) l i a :
  l !! i = Some a → (f <$> enumerate l) !! i = Some (f (i, a)).
Proof.
  assert (∀ j, l !! i = Some a → enumerate_from j l !! i = Some ((j + i)%nat, a)) as He.
  { clear f. revert i. induction l as [|x l IH]; intros [|i] j E; [done..| |].
    - cbn in E |- *. injection E as ->. by rewrite Nat.add_0_r.
    - cbn in E. change (enumerate_from (S j) l !! i = Some ((j + S i)%nat, a)). rewrite (IH i (S j) E). do 2 f_equal. lia. }
  intros E. rewrite list_lookup_fmap. unfold enumerate. by rewrite (He 0%nat E).
Qed.

Lemma routingParameters_reads scan_binary m oids :
  Some [] ∉ Parameters m →
  length (routingParameters scan_binary m oids) = length (Parameters m) ∧
  ∀ i v, Parameters m !! i = Some v → ∃ w, routingParameters scan_binary m oids !! i = Some w ∧
    reads scan_binary (format_of (ParameterFormatCodes m) i) (default 0 (oids !! i)) v w.
Proof.
  intros Hm%fmap_copy_id. unfold routingParameters, cloneParameters. rewrite Hm. split.
  - rewrite length_fmap, <- (length_fmap snd). unfold enumerate. by rewrite enumerate_from_snd.
  - intros i v Hi. eexists. split; [by apply enumerate_fmap_lookup|]. apply routing_parameter_reads.
Qed.

Lemma copy_nonempty (l : list (option bytes)) : Some [] ∉ copy_bytes <$> l.
Proof. intros ([[|c v]|] & E & _)%list_elem_of_fmap; discriminate E. Qed.

Lemma extended_formats_keep m :
  formats_fit m →
  (∀ i, (i < length (Parameters m))%nat → format_of (extended_formats m) i = format_of (ParameterFormatCodes m) i) ∧
  format_of (extended_formats m) (length (Parameters m)) = 0.
Proof.
  unfold formats_fit. rewrite !list_elem_of_In. cbn. intros Hlen. unfold extended_formats.
  destruct (ParameterFormatCodes m) as [|a [|b codes]] eqn:E.
  - done.
  - set (n := length (Parameters m)). destruct n as [|n]; [split; [lia | done]|].
    assert (∀ i, format_of (replicate (S n) a ++ [0]) i = default 0 ((replicate (S n) a ++ [0]) !! i)) as Hf.
    { intros i. destruct n; done. }
    split; [intros i Hi|]; rewrite Hf.
    + by rewrite lookup_app_l, lookup_replicate_2 by (rewrite ?length_replicate; lia).
    + rewrite lookup_app_r by (rewrite length_replicate; lia). by rewrite length_replicate, Nat.sub_diag.
  - assert (length (Parameters m) = length (a :: b :: codes)) as Hn by (cbn in *; lia). rewrite Hn. split.
    + intros i Hi. apply format_app; [done | cbn; lia].
    + unfold format_of. cbn [app]. rewrite !app_comm_cons, lookup_app_r by done. by rewrite Nat.sub_diag.
Qed.

Lemma prepareBind_binds scan_binary next_id m st bound routed :
  generated st = true ∨ Some [] ∉ Parameters m →
  prepareBind scan_binary next_id m st = Ok (bound, routed) → binds scan_binary next_id m st bound routed.
Proof.
  unfold prepareBind, binds. fold (parse_oids st). intros Hm. destruct (generated st); cbn [negb].
  - intros (id & Hid & [= <- <-])%bind_ok. assert (next_id = Ok id) as Hid' by (by destruct next_id; [injection Hid as ->|]).
    do 3 (split; [done|]). split; [exists id; do 2 (split; [done|]); by intros Hf%extended_formats_keep|].
    apply routingParameters_reads. cbn. rewrite elem_of_app, list_elem_of_singleton. intros [[]%copy_nonempty|E].
    injection E as E. destruct (FormatInt id) eqn:Ei; [|discriminate E].
    pose proof (SetString10_FormatInt id) as Hs. by rewrite Ei in Hs.
  - destruct Hm as [|Hm]; [done|]. intros [= <- <-]. pose proof (proj2 (fmap_copy_id _) Hm) as Hc.
    do 3 (split; [done|]). split; [done|]. by apply routingParameters_reads.
Qed.

(** The message that is handled is a copy of the client's. *)
Lemma clone_binds scan_binary next_id m st bound routed :
  prepareBind scan_binary next_id (with_parameters (ParameterFormatCodes m) (copy_bytes <$> Parameters m) m) st
    = Ok (bound, routed) →
  binds scan_binary next_id m st bound routed.
Proof.
  assert (copy_bytes <$> (copy_bytes <$> Parameters m) = copy_bytes <$> Parameters m) as Hc
    by apply fmap_copy_id, copy_nonempty.
  intros Hb%prepareBind_binds; [|right; apply copy_nonempty]. revert Hb. unfold binds, formats_fit. cbn.
  rewrite Hc, length_fmap. done.
Qed.

(** * Properties *)

(** a canonical statement name identifies the text and the
    parameter types it was made from: different statements are hashed under
    different bytes, as long as type OIDs are below 2^24. *)
Theorem statement_key_injective text text' oids oids' :
  byte_of 0 ∉ bytes_of text → byte_of 0 ∉ bytes_of text' →
  Forall (λ o, 0 ≤ o < 2 ^ 24) oids → Forall (λ o, 0 ≤ o < 2 ^ 24) oids' →
  statement_key text oids = statement_key text' oids' → text = text' ∧ oids = oids'.
Proof.
  intros Ht Ht' Ho Ho' E.
  assert (∀ l, Forall (λ o, 0 ≤ o < 2 ^ 24) l →
    concat (big_endian <$> l) = [] ∨ ∃ r, concat (big_endian <$> l) = byte_of 0 :: r) as Hnul.
  { intros [|o l] Hl; [by left|]. right. apply Forall_cons in Hl as [Hl _].
    destruct (big_endian_head o Hl) as [r Hr]. cbn [fmap list_fmap concat]. rewrite Hr. by eexists. }
  assert (∀ l, Forall (λ o, 0 ≤ o < 2 ^ 24) l → Forall (λ o, 0 ≤ o < 2 ^ 32) l) as Hwide.
  { intros l Hl. eapply Forall_impl; [exact Hl|]. cbn. lia. }
  apply before_nul in E as [E1 E2]; [|by auto..]. split; [|by apply encoded_oids_inj; auto].
  rewrite <- (string_of_bytes_of text), <- (string_of_bytes_of text'). by rewrite E1.
Qed.

(** a prepared statement is coherent: what is parsed on the
    Burrows, under a name made from it, is the text that was analysed for
    routing; without a generated key it is the normalised text with the
    client's parameter types, with one it has at least one type more than the
    normalised text has parameters. *)
Theorem prepared_statement_coherent `{GoStd} `{PgQuery} MakeStrNode MakeResTargetNodeWithName m registry st :
  prepareStatement MakeStrNode MakeResTargetNodeWithName m registry = Ok st →
  ∃ n r oids, normalizeDDL MakeStrNode (p_Query m) = Ok n ∧ router.Prepare (n_sql n) = Some r ∧
    st_schema st = n_schema n ∧ routing st = router.Prepare (st_sql st) ∧
    backendName st = canonicalStatementName (st_sql st) oids ∧
    parse st = Some {| p_Name := backendName st; p_Query := st_sql st; ParameterOIDs := oids |} ∧
    if generated st then router.MaxParameter (Some r) < Z.of_nat (length oids) ∧ ParameterOIDs m `prefix_of` oids
    else st_sql st = n_sql n ∧ oids = ParameterOIDs m.
Proof. apply prepareStatement_coherent. Qed.

(** C28: binding a statement with a generated key keeps every parameter of the
    client that is NULL or not empty, in its position and format; an empty
    string is bound as NULL (the copy made by [cloneParameters] loses the
    difference); and the new key is bound as one more parameter, in text format,
    which reads back as the allocated number, and is what routing reads there. *)
Theorem generated_parameter_bound scan_binary id m st bound routed :
  generated st = true → min_int64 ≤ id ≤ max_int64 →
  formats_fit m →
  prepareBind scan_binary (Ok id) m st = Ok (bound, routed) →
  let n := length (Parameters m) in
  PreparedStatement bound = backendName st ∧
  length (Parameters bound) = S n ∧
  (∀ i, Parameters m !! i = Some None → Parameters bound !! i = Some None) ∧
  (∀ i v, Parameters m !! i = Some (Some v) → v ≠ [] → Parameters bound !! i = Some (Some v)) ∧
  (∀ i, Parameters m !! i = Some (Some []) → Parameters bound !! i = Some None) ∧
  (∀ i, (i < n)%nat → format_of (ParameterFormatCodes bound) i = format_of (ParameterFormatCodes m) i) ∧
  Parameters bound !! n = Some (Some (bytes_of (FormatInt id))) ∧
  format_of (ParameterFormatCodes bound) n = 0 ∧
  routed !! n = Some (Some (bytes_of (FormatInt id))) ∧
  ParseInt (FormatInt id) = Some id.
Proof.
  intros Hg Hid Hlen Hb n. apply prepareBind_binds in Hb as (Hname & _ & _ & Hp & _ & Hr); [|by left].
  rewrite Hg in Hp. destruct Hp as (id' & [= <-] & Hps & Hf). destruct (Hf Hlen) as [Hfs Hl].
  assert (∀ i v, Parameters m !! i = Some v → Parameters bound !! i = Some (copy_bytes v)) as Hat.
  { intros i v Hi. rewrite Hps. apply lookup_app_l_Some. by rewrite list_lookup_fmap, Hi. }
  assert (Parameters bound !! n = Some (Some (bytes_of (FormatInt id)))) as Hn.
  { rewrite Hps, lookup_app_r by (by rewrite length_fmap). by rewrite length_fmap, Nat.sub_diag. }
  split_and!; try done; [|intros i; apply Hat| |intros i; apply Hat| |by apply ParseInt_FormatInt].
  - rewrite Hps, length_app, length_fmap. cbn. lia.
  - intros i v Hi Hv. rewrite (Hat i _ Hi). by destruct v.
  - destruct (Hr n _ Hn) as (w & -> & Hreads). f_equal. unfold n in Hreads. rewrite Hl in Hreads. by inversion Hreads.
Qed.

(** the proxy's copy of a frontend message is faithful exactly when
    no parameter is the empty string: an empty parameter is sent to the Burrow
    as NULL, and is NULL for routing. *)
Theorem empty_parameters_become_null b :
  (cloneFrontendMessage (Bind b) = Bind b ↔ Some [] ∉ Parameters b) ∧
  (∀ i, Parameters b !! i = Some (Some []) →
     ∃ b', cloneFrontendMessage (Bind b) = Bind b' ∧ Parameters b' !! i = Some None) ∧
  (∀ m, (∀ b, m ≠ Bind b) → (∀ l, m ≠ FunctionCall l) → cloneFrontendMessage m = m).
Proof.
  split; [|split].
  - cbn. rewrite <- fmap_copy_id. destruct b as [d p c ps r]; unfold with_parameters; cbn.
    split; [by intros [= ->] | by intros ->].
  - intros i Hi. eexists. split; [reflexivity|]. cbn. by rewrite list_lookup_fmap, Hi.
  - intros [] H1 H2; try done; [by destruct (H1 m) | by destruct (H2 arguments)].
Qed.

(** * Witnesses *)

Lemma statement_key_injective_witness : statement_key "SELECT $1" [23] ≠ statement_key "SELECT $1" [25].
Proof.
  intros E. destruct (statement_key_injective "SELECT $1" "SELECT $1" [23] [25]) as [_ H];
    [by_computation.. | exact E |]. discriminate H.
Defined.

Definition delete_statement : message := Msg "DeleteStmt" [].
Definition delete_parse : ParseMessage :=
  {| p_Name := "s1"; p_Query := "DELETE FROM t WHERE id = $1"; ParameterOIDs := [23] |}.
Definition delete_prepared : result error statementState :=
  @prepareStatement toy_std (parses_to [delete_statement]) (λ _, delete_statement) (λ _ _, delete_statement) delete_parse zero_registry.

Lemma prepared_statement_coherent_witness :
  ∃ st, delete_prepared = Ok st ∧ generated st = false ∧
    backendName st = @canonicalStatementName toy_std "DELETE FROM t WHERE id = $1" [23].
Proof.
  destruct delete_prepared as [st|e] eqn:E; [|vm_compute in E; discriminate].
  destruct (@prepared_statement_coherent toy_std (parses_to [delete_statement]) (λ _, delete_statement) (λ _ _, delete_statement)
    delete_parse zero_registry st E) as (n & r & oids & _ & _ & _ & _ & Hname & Hparse & _).
  exists st. split; [reflexivity|]. vm_compute in E. injection E as <-. split; [reflexivity|].
  vm_compute in Hparse. injection Hparse as <-. exact Hname.
Defined.

Definition insert_state : statementState := {|
  st_sql := "INSERT INTO events (body, note, id) VALUES ($1, $2, $3)"; generated := true; st_schema := false;
  backendName := "hamstergres_x"; parse := None; routing := None |}.
Definition insert_bind : BindMessage := {|
  DestinationPortal := ""; PreparedStatement := "s1"; ParameterFormatCodes := [1];
  Parameters := [Some (bytes_of "body"); Some []]; ResultFormatCodes := [] |}.

Lemma generated_parameter_bound_witness :
  ∃ bound routed, prepareBind (λ _ _, None) (Ok 42) insert_bind insert_state = Ok (bound, routed) ∧
    Parameters bound !! 0%nat = Some (Some (bytes_of "body")) ∧ Parameters bound !! 1%nat = Some None ∧
    Parameters bound !! 2%nat = Some (Some (bytes_of "42")) ∧ routed !! 2%nat = Some (Some (bytes_of "42")) ∧
    format_of (ParameterFormatCodes bound) 0 = 1 ∧ format_of (ParameterFormatCodes bound) 2 = 0.
Proof.
  eexists _, _. split; [reflexivity|].
  destruct (generated_parameter_bound (λ _ _, None) 42 insert_bind insert_state _ _ eq_refl
    ltac:(by_computation) ltac:(by_computation) eq_refl) as (_ & _ & _ & Hkept & Hempty & Hf & Hid & Hl & Hr & _).
  split; [apply Hkept; [reflexivity | discriminate]|]. split; [apply Hempty; reflexivity|]. split; [exact Hid|].
  split; [exact Hr|]. split; [|exact Hl]. exact (Hf 0%nat ltac:(vm_compute; lia)).
Defined.

(** The value '' of a parameter reaches the Burrow as NULL. *)
Example empty_text_stored_as_null :
  cloneFrontendMessage (Bind (with_parameters [] [Some []] insert_bind)) =
    Bind (with_parameters [] [None] insert_bind).
Proof. reflexivity. Qed.

End statements.
