(* ===== verification/PooledQuery.v ===== *)
(** Simple queries that need no session, from [internal/proxy/server.go]:
    [handleQuery] with [postgresErrorResponse].  The statement runs on pooled
    connections through [QueryOne] and [QueryAll]. *)
From S2P Require Import Prelude.
From S2P Require Import GoStrings.
From S2P Require Import GoNumbers.
From S2P Require Import GoStd.
From S2P Require Import Schema.
From S2P Require Import ShardKey.
From S2P Require Import PgQuery.
From S2P Require Import Router.
From S2P Require Import RoutePlan.
From S2P Require Import Session.
From S2P Require Import FleetDdl.
From S2P Require Import Wire.
From S2P Require Import TwoPhase.
From S2P Require Import QueryHandler.
From S2P Require Import Fanout.

Module pooledquery.
Import schema session fleetddl wire twophase queryhandler fanout.

(** * The errors of the pools *)

Definition query_error_text (e : query_error) : string :=
  match e with
  | PgError e => Severity e +:+ ": " +:+ Message e +:+ " (SQLSTATE " +:+ Code e +:+ ")"
  | ConnectionError message => message
  end.
Definition fan_error_text (e : fan_error) : string :=
  match e with
  | ShardFailed burrow e => "shard " +:+ burrow +:+ ": " +:+ query_error_text e
  | QueryFailed e => query_error_text e
  | MergeFailed NoShards => "no shards configured"
  | MergeFailed (IncompatibleFields shard) =>
    "incompatible row descriptions from shard " +:+ FormatInt (Z.of_nat shard)
  | UnknownBurrow burrow => "unknown Burrow " +:+ burrow
  end.

(** [errors.As] finds a PostgreSQL error inside the error of a Burrow. *)
Definition postgresErrorResponse (e : fan_error) : option ErrorResponse :=
  match e with
  | ShardFailed _ (PgError e) | QueryFailed (PgError e) => Some e
  | _ => None
  end.

(** * The query *)

(** What a pooled query does: the fleet lock, which is waited for without end,
    and the statement on a Burrow with its result. *)
Inductive pool_event :=
| PoolLock
| PoolQuery (burrow text : string) (r : result query_error Result)
| PoolUnlock.

Record pooled := { p_server : server; p_events : list pool_event; p_sent : list output }.

Section pooled.
Context `{Floats} `{PgQuery} `{MapOrder}.

(** What a Burrow answers on a pooled connection, and the order in which the
    answers to a statement arrive. *)
Context (burrow_result : string → string → result query_error Result)
  (arrival : string → list string → list string).

Definition refused (srv : server) (events : list pool_event) (e : ErrorResponse) : pooled :=
  {| p_server := srv; p_events := events; p_sent := sendError e |}.

(** The generated key of an INSERT; every error has its own code. *)
Definition pooled_key (env : environment) (text : string) : result ErrorResponse (string * option router.Prepared) :=
  let routing := router.Prepare text in
  if bool_decide (is_Some routing) && bool_decide (firstSQLKeyword text = "INSERT")
     && bool_decide (is_Some (GeneratedPrimaryKey (registry env) (router.prepared_table routing)))
     && bool_decide (is_Some (router.RewriteGeneratedInsert text (registry env) "0" (MakeResTargetNodeWithName env)))
  then
    id ← map_err key_error (NextGlobalID env);
    let text := rewritten_sql env text (FormatInt id) in
    routing ← or_fail (router.Prepare text) (sql_error "42601" (error_text ParseError));
    Ok (text, Some routing)
  else Ok (text, routing).

Definition run_pooled (text : string) (all : list string) (decision : routeplan.routeDecision)
    : list pool_event * result fan_error Result :=
  if routeplan.routed decision then
    ((if decide (routeplan.target decision ∈ all)
      then [PoolQuery (routeplan.target decision) text (queryShard (burrow_result text (routeplan.target decision)))]
      else []),
     (QueryOne all (λ name, queryShard (burrow_result text name)) (routeplan.target decision)).1)
  else
    let outcomes := (λ name, {| o_name := name; o_result := queryShard (burrow_result text name) |})
      <$> arrival text all in
    ((λ o, PoolQuery (o_name o) text (o_result o)) <$> outcomes, (QueryAll outcomes).1).

(** The result as the client sees it. *)
Definition relayed_result (r : Result) : list BackendMessage :=
  match ResultFields r with
  | [] => []
  | fields => RowDescription fields :: (DataRow <$> Rows r)
  end ++ [CommandComplete (CommandTag r); ReadyForQuery "I"%char].

(** The statement once its route is known. *)
Definition execute_pooled (env : environment) (srv : server) (text : string) (schema : bool)
    (decision : routeplan.routeDecision) : pooled :=
  let targets := if routeplan.routed decision then [routeplan.target decision] else ShardNames env in
  let srv := beginSchemaCommit schema srv in
  let '(events, outcome) := run_pooled text (ShardNames env) decision in
  match outcome with
  | Err e => refused srv events (default (sql_error "XX000" (fan_error_text e)) (postgresErrorResponse e))
  | Ok r =>
    let sent := (if invalidatesPreparedStatements text then [InvalidatePreparedStatements targets] else [])
                ++ (Send <$> relayed_result r) in
    if schema then
      match refreshSchemaAfterDDL env srv with
      | (srv, Some message) => refused srv events (refresh_error message)
      | (srv, None) => {| p_server := srv; p_events := events; p_sent := sent |}
      end
    else {| p_server := srv; p_events := events; p_sent := sent |}
  end.

Definition locked (b : bool) (o : pooled) : pooled :=
  if b then {| p_server := p_server o; p_events := [PoolLock] ++ p_events o ++ [PoolUnlock]; p_sent := p_sent o |}
  else o.

(** [handleQuery]; [None] when the routing analysis panics. *)
Definition handleQuery (env : environment) (text : string) (srv : server) : option pooled :=
  if bool_decide (TrimSpace text = "") then
    Some {| p_server := srv; p_events := []; p_sent := Send <$> [EmptyQueryResponse; ReadyForQuery "I"%char] |}
  else
    match normalizeDDL (MakeStrNode env) text with
    | Err e => Some (refused srv [] (sql_error "42601" (error_text e)))
    | Ok normalized =>
      match pooled_key env (n_sql normalized) with
      | Err e => Some (refused srv [] e)
      | Ok (text, routing) =>
        '(decision, counter) ← routeplan.resolveRouteDecision (policy_of env srv) routing (registry env) (ShardNames env);
        let srv := {| topologyReadIndex := counter; schemaRefreshPending := schemaRefreshPending srv |} in
        Some (locked (requiresFleetWriteOrder text (length (ShardNames env)))
          (if decide (routeplan.scatterError decision ≠ "") then
             refused srv [] (sql_error "0A000" (routeplan.scatterError decision))
           else if routeplan.keyedWrite decision && negb (routeplan.routed decision) then
             refused srv [] (sql_error "0A000" "write to a sharded table must include its annotated shard key")
           else execute_pooled env srv text (n_schema normalized) decision))
      end
    end.

(** * Properties *)

Lemma relayed_result_cycle r : query_cycle true "I"%char (relayed_result r).
Proof.
  unfold relayed_result. assert (∀ body, Forall plain_message body →
    query_cycle true "I"%char (body ++ [CommandComplete (CommandTag r); ReadyForQuery "I"%char])) as Hcycle.
  { intros body Hb. change [CommandComplete (CommandTag r); ReadyForQuery "I"%char] with
      ([CommandComplete (CommandTag r)] ++ [ReadyForQuery "I"%char]). rewrite app_assoc. apply query_cycle_ok, Forall_app.
    split; [done|]. repeat constructor; by intros. }
  apply Hcycle. destruct (ResultFields r) as [|f fields]; [constructor|].
  constructor; [split; [done | by intros]|]. apply Forall_fmap, Forall_true. intros values. split; [done | by intros].
Qed.

(** The client's view of a query that ran. *)
Definition cycle (o : pooled) : Prop := ∃ ok, query_cycle ok "I"%char (client_messages (p_sent o)).
Lemma refused_cycle srv events e : cycle (refused srv events e).
Proof. exists false. apply (query_cycle_error []). constructor. Qed.
Lemma execute_pooled_cycle env srv text schema d : cycle (execute_pooled env srv text schema d).
Proof.
  unfold execute_pooled, refreshSchemaAfterDDL. destruct (run_pooled _ _ _) as [events [r|e]]; [|apply refused_cycle].
  assert (∀ (b : bool) names, client_messages ((if b then [InvalidatePreparedStatements names] else []) ++ (Send <$> relayed_result r))
    = relayed_result r) as E.
  { intros b names. rewrite client_messages_app, client_messages_send. by destruct b. }
  destruct schema; [destruct (refresh env); [apply refused_cycle|]|]; exists true; cbn [p_sent]; rewrite E; apply relayed_result_cycle.
Qed.

(** a query that needs no session is answered by exactly one
    ReadyForQuery, idle and after everything else, with an error message
    exactly when it failed; a blank query included. *)
Theorem pooled_query_answered env text srv o :
  handleQuery env text srv = Some o → cycle o.
Proof.
  unfold handleQuery. destruct (bool_decide _).
  { intros [= <-]. exists true. apply (query_cycle_ok [EmptyQueryResponse]). repeat constructor; by intros. }
  destruct (normalizeDDL _ _) as [n|e]; [|intros [= <-]; apply refused_cycle].
  destruct (pooled_key _ _) as [[text' routing]|e]; [|intros [= <-]; apply refused_cycle].
  destruct (routeplan.resolveRouteDecision _ _ _ _) as [[d counter]|]; [|done]. cbn [mbind option_bind]. intros [= <-].
  assert (∀ b o, cycle o → cycle (locked b o)) as Hlock by (by intros []).
  apply Hlock. destruct (decide _); [apply refused_cycle|]. destruct (_ && _); [apply refused_cycle|]. apply execute_pooled_cycle.
Qed.

(** an INSERT, UPDATE, DELETE or MERGE on a sharded table that runs
    on pooled connections is sent to no Burrow or once to the one that owns its
    shard key, without the fleet lock. *)
Theorem pooled_write_reaches_owner_only env text tree srv o :
  firstSQLKeyword text ∈ write_keywords →
  PgQuery.Parse text = Some tree → routeplan.dml_statement tree →
  IsSharded (registry env) (router.Table (router.plan (router.prepare_tree tree))) = true →
  (firstSQLKeyword text = "INSERT" →
   GeneratedPrimaryKey (registry env) (router.Table (router.plan (router.prepare_tree tree))) = None) →
  handleQuery env text srv = Some o →
  p_events o = [] ∨ ∃ pl columns values r,
    router.Analyze (Some (router.prepare_tree tree)) [] (registry env) (ShardNames env) = Some pl ∧
    router.routed_plan (router.prepare_tree tree) [] (registry env) (ShardNames env) pl columns values ∧
    p_events o = [PoolQuery (router.Target pl) text r].
Proof.
  intros Hk Htree Hdml Hs Hgen. pose proof (write_keyword_plain text Hk) as Hk'. rewrite !Forall_cons in Hk'.
  unfold handleQuery. destruct (bool_decide _); [intros [= <-]; by left|].
  unfold normalizeDDL. rewrite decide_False by tauto. rewrite decide_True by tauto. cbn [n_sql n_schema].
  assert (router.Prepare text = Some (router.prepare_tree tree)) as Hp by (unfold router.Prepare; by rewrite Htree).
  assert (pooled_key env text = Ok (text, Some (router.prepare_tree tree))) as ->.
  { unfold pooled_key. rewrite Hp. cbn [router.prepared_table]. destruct (decide (firstSQLKeyword text = "INSERT")) as [Hi|Hi].
    - by rewrite (Hgen Hi), !andb_false_r.
    - by rewrite (bool_decide_eq_false_2 (firstSQLKeyword text = "INSERT")), !andb_false_r by done. }
  unfold routeplan.resolveRouteDecision, routeplan.routePortal.
  destruct (router.Analyze _ _ _ _) as [pl|] eqn:Ha; [|done]. cbn [mbind option_bind].
  destruct (routeplan.analyze_dml _ _ _ _ _ Hdml Ha) as (HW & HS & Hrouted).
  pose proof (routeplan.sharded_dml_keyed _ _ _ _ _ Hdml Hs Ha) as Hkeyed.
  unfold routeplan.routePlan. rewrite HS, Hkeyed. rewrite HW in Hkeyed. cbn [andb] in Hkeyed.
  rewrite <- orb_assoc, Hkeyed, orb_true_r. cbn [routeplan.scatterError routeplan.keyedWrite routeplan.routed routeplan.target].
  rewrite (dml_no_fleet_order text tree) by done. cbn [locked]. intros [= <-].
  destruct (decide _); [by left|]. destruct (router.Routed pl); [|by left]. cbn [andb negb].
  unfold execute_pooled, run_pooled. cbn [routeplan.routed routeplan.target].
  destruct (Hrouted eq_refl) as (columns & values & Hr). set (r := queryShard _).
  destruct (decide (router.Target pl ∈ ShardNames env)).
  - right. exists pl, columns, values, r. split_and!; [done..|]. destruct ((QueryOne _ _ _).1); [|done].
    destruct (containsFleetDDL text); [|done]. unfold refreshSchemaAfterDDL. by destruct (refresh env).
  - left. destruct ((QueryOne _ _ _).1); [|done].
    destruct (containsFleetDDL text); [|done]. unfold refreshSchemaAfterDDL. by destruct (refresh env).
Qed.
End pooled.

(** * Witnesses *)

#[local] Existing Instances toy_floats delete_parser canonical_order.
Definition one_row (text burrow : string) : result query_error Result :=
  Ok {| ResultFields := []; Rows := []; CommandTag := "DELETE 1" |}.
Definition pooled_delete : option pooled := handleQuery one_row (λ _ names, names) two_burrows delete_sql idle_server.

Lemma pooled_query_answered_witness : ∃ o, pooled_delete = Some o ∧ cycle o.
Proof.
  destruct pooled_delete as [o|] eqn:E; [|vm_compute in E; discriminate]. exists o. split; [reflexivity|].
  exact (pooled_query_answered one_row (λ _ names, names) two_burrows delete_sql idle_server o E).
Defined.

Lemma pooled_write_reaches_owner_only_witness :
  ∃ o, pooled_delete = Some o ∧ (p_events o = [] ∨ ∃ pl columns values r,
    router.Analyze (Some (router.prepare_tree (router.mk_tree delete_account))) [] accounts ["a"; "b"] = Some pl ∧
    router.routed_plan (router.prepare_tree (router.mk_tree delete_account)) [] accounts ["a"; "b"] pl columns values ∧
    p_events o = [PoolQuery (router.Target pl) delete_sql r]).
Proof.
  destruct pooled_delete as [o|] eqn:E; [|vm_compute in E; discriminate]. exists o. split; [reflexivity|].
  refine (pooled_write_reaches_owner_only one_row (λ _ names, names) two_burrows delete_sql (router.mk_tree delete_account)
    idle_server o _ eq_refl _ _ _ E).
  - by_computation.
  - exists (mk_node delete_account), delete_account. split_and!; [reflexivity | reflexivity | by_computation].
  - vm_compute. reflexivity.
  - discriminate.
Defined.
End pooledquery.
