(* ===== verification/Extended.v ===== *)
(** The extended query protocol of a frontend session, from
    [internal/proxy/server.go]: [materializeStatement], [handleBind],
    [handleDescribe], [handleClose], [handleExecute], [flushPendingExtended],
    [handleSync], [relayUniform], [relaySync] and the cases of the message loop
    of [serveQueries] that use them.

    The Burrows and what other sessions do to the shared cache of prepared
    statements are oracles over the history of everything done before.  Metrics
    and tracing are left out. *)
From S2P Require Import Prelude.
From S2P Require Import GoStrings.
From S2P Require Import GoNumbers.
From S2P Require Import GoStd.
From S2P Require Import Schema.
From S2P Require Import ShardKey.
From S2P Require Import PgQuery.
From S2P Require Import Router.
From S2P Require Import RoutePlan.
From S2P Require Import CopyRouter.
From S2P Require Import Session.
From S2P Require Import FleetDdl.
From S2P Require Import Wire.
From S2P Require Import TwoPhase.
From S2P Require Import QueryHandler.
From S2P Require Import Fanout.
From S2P Require Import Statements.
From S2P Require Import PooledQuery.

Module extended.
Import schema session fleetddl wire twophase queryhandler statements.

(** * Messages *)

(** A backend message of the extended protocol; those that carry nothing are
    the other messages of [BackendMessage]. *)
Inductive xmessage :=
| Plain (m : BackendMessage)
| ParameterDescription (oids : list Z)
| CopyDataMessage (data : bytes).
#[export] Instance FieldDescription_eq_dec : EqDecision FieldDescription.
Proof. solve_decision. Defined.
#[export] Instance ErrorResponse_eq_dec : EqDecision ErrorResponse.
Proof. solve_decision. Defined.
#[export] Instance BackendMessage_eq_dec : EqDecision BackendMessage.
Proof. solve_decision. Defined.
#[export] Instance xmessage_eq_dec : EqDecision xmessage.
Proof. solve_decision. Defined.

Definition ParseComplete : BackendMessage := OtherMessage "*pgproto3.ParseComplete".
Definition BindComplete : BackendMessage := OtherMessage "*pgproto3.BindComplete".
Definition CloseComplete : BackendMessage := OtherMessage "*pgproto3.CloseComplete".
Definition NoData : BackendMessage := OtherMessage "*pgproto3.NoData".
Definition PortalSuspended : BackendMessage := OtherMessage "*pgproto3.PortalSuspended".

Definition is_error (m : BackendMessage) : bool := match m with ErrorMessage _ => true | _ => false end.
Definition is_message (kind m : BackendMessage) : bool := bool_decide (m = kind).
Definition isParseDone (m : BackendMessage) : bool := is_message ParseComplete m || is_error m.
Definition isBindDone (m : BackendMessage) : bool := is_message BindComplete m || is_error m.
Definition isDescribeDone (m : BackendMessage) : bool :=
  match m with RowDescription _ => true | m => is_message NoData m || is_error m end.
Definition isCloseDone (m : BackendMessage) : bool := is_message CloseComplete m || is_error m.
Definition isExecuteDone (m : BackendMessage) : bool :=
  match m with
  | CommandComplete _ | EmptyQueryResponse | CopyInResponse => true
  | m => is_message PortalSuspended m || is_error m
  end.

Definition plain_of (x : xmessage) : option BackendMessage :=
  match x with Plain m => Some m | _ => None end.
Definition x_firstError (responses : list (list xmessage)) : option ErrorResponse :=
  firstError ((λ r : list xmessage, omap plain_of r) <$> responses).

(** ** Uniform responses *)

Definition asynchronous (x : xmessage) : bool :=
  match x with
  | Plain (NoticeResponse _) | Plain (ParameterStatus _ _) | Plain (NotificationResponse _) => true
  | _ => false
  end.
Definition protocolMessages (messages : list xmessage) : list xmessage :=
  filter (λ x, asynchronous x = false) messages.

(** The Go type of a message, where the comparison uses nothing else. *)
Definition same_message (l r : xmessage) : bool :=
  match l, r with
  | Plain (RowDescription f), Plain (RowDescription g) => sameRowDescription f g
  | ParameterDescription o, ParameterDescription p => bool_decide (o = p)
  | CopyDataMessage _, CopyDataMessage _ => true
  | Plain (ReadyForQuery t), Plain (ReadyForQuery u) => bool_decide (t = u)
  | Plain (ErrorMessage _), Plain (ErrorMessage _) => true
  | Plain (DataRow _), Plain (DataRow _) => true
  | Plain (CommandComplete _), Plain (CommandComplete _) => true
  | Plain EmptyQueryResponse, Plain EmptyQueryResponse => true
  | Plain CopyInResponse, Plain CopyInResponse => true
  | Plain CopyOutResponse, Plain CopyOutResponse => true
  | Plain CopyBothResponse, Plain CopyBothResponse => true
  | Plain (OtherMessage k), Plain (OtherMessage j) => bool_decide (k = j)
  | _, _ => false
  end.
Definition sameProtocolMessages : list xmessage → list xmessage → bool := same_slices same_message.

(** * What a session does *)

(** What a Burrow has sent in answer, and the error of the connection if it
    broke before the answer was complete. *)
Record reply := { got : list xmessage; broken : option string }.
Definition complete (r : reply) : result string (list xmessage) :=
  match broken r with Some e => Err e | None => Ok (got r) end.
Definition unsent (e : string) : reply := {| got := []; broken := Some e |}.

(** A command of the two-phase protocols, messages sent to a Burrow with its
    reply, a statement marked as prepared on the connections of some Burrows, what
    a query without a session does, or the release of the session's connections. *)
Inductive xevent :=
| Command (e : event)
| Exchanged (burrow : string) (ms : list FrontendMessage) (r : reply)
| Marked (burrows : list string) (name : string)
| PoolEvent (e : pooledquery.pool_event)
| Released.

Inductive xoutput :=
| XSend (x : xmessage)
| XUnlockFleetWrites
| XInvalidate (burrows : list string).

Definition of_output (o : output) : xoutput :=
  match o with
  | Send m => XSend (Plain m)
  | UnlockFleetWrites => XUnlockFleetWrites
  | InvalidatePreparedStatements burrows => XInvalidate burrows
  end.
Definition send (m : BackendMessage) : xoutput := XSend (Plain m).
(** [sendExtendedError] *)
Definition extended_error (code message : string) : xoutput := send (ErrorMessage (sql_error code message)).

Definition X (A : Type) : Type := list xevent → list xevent * A.
#[export] Instance X_ret : MRet X := λ A a h, (h, a).
#[export] Instance X_bind : MBind X := λ A B k m h, let '(h, a) := m h in k a h.
Definition record_event (e : xevent) : X () := λ h, (h ++ [e], tt).

(** * State *)

Record portalState := {
  po_sql : string; po_schema : bool; po_target : string; po_routed : bool; po_keyedWrite : bool;
}.
Definition zero_portal : portalState :=
  {| po_sql := ""; po_schema := false; po_target := ""; po_routed := false; po_keyedWrite := false |}.

Record pendingExtended := {
  pe_targets : list string; pe_bind : BindMessage;
  pe_describe : option (byte * string); pe_execute : option (string * Z);
  pe_portalName : string; pe_portal : portalState; pe_statement : statementState;
}.

(** The stream of sharded COPY input, with the fields that do not change. *)
Record copyStreamState := {
  cs_plan : copyrouter.Plan; cs_registry : Registry; cs_burrows : list string; cs_stream : copyrouter.Stream;
}.
(** No plan stands for the zero plan. *)
Record copyState := {
  copyIn : bool; copyTargets : list string; copyPlan : option copyrouter.Plan;
  copyStream : option copyStreamState;
  copyReplicated : bool; copyAborted : bool;
}.
Definition no_copy : copyState := {| copyIn := false; copyTargets := []; copyPlan := None; copyStream := None;
  copyReplicated := false; copyAborted := false |}.

(** [active] is whether the frontend holds a session. *)
Record xstate := {
  base : extendedState; srv : server; active : bool;
  statements_of : gmap string statementState; portals : gmap string portalState;
  failed : bool; pending : option pendingExtended; syncConsumed : bool; copy : copyState;
}.

Definition with_base (s : extendedState) (x : xstate) : xstate := {|
  base := s; srv := srv x; active := active x; statements_of := statements_of x; portals := portals x;
  failed := failed x; pending := pending x; syncConsumed := syncConsumed x; copy := copy x |}.
Definition with_srv (v : server) (x : xstate) : xstate := {|
  base := base x; srv := v; active := active x; statements_of := statements_of x; portals := portals x;
  failed := failed x; pending := pending x; syncConsumed := syncConsumed x; copy := copy x |}.
Definition with_active (b : bool) (x : xstate) : xstate := {|
  base := base x; srv := srv x; active := b; statements_of := statements_of x; portals := portals x;
  failed := failed x; pending := pending x; syncConsumed := syncConsumed x; copy := copy x |}.
Definition with_statements (m : gmap string statementState) (x : xstate) : xstate := {|
  base := base x; srv := srv x; active := active x; statements_of := m; portals := portals x;
  failed := failed x; pending := pending x; syncConsumed := syncConsumed x; copy := copy x |}.
Definition with_portals (m : gmap string portalState) (x : xstate) : xstate := {|
  base := base x; srv := srv x; active := active x; statements_of := statements_of x; portals := m;
  failed := failed x; pending := pending x; syncConsumed := syncConsumed x; copy := copy x |}.
Definition with_failed (b : bool) (x : xstate) : xstate := {|
  base := base x; srv := srv x; active := active x; statements_of := statements_of x; portals := portals x;
  failed := b; pending := pending x; syncConsumed := syncConsumed x; copy := copy x |}.
Definition with_pending (p : option pendingExtended) (x : xstate) : xstate := {|
  base := base x; srv := srv x; active := active x; statements_of := statements_of x; portals := portals x;
  failed := failed x; pending := p; syncConsumed := syncConsumed x; copy := copy x |}.
Definition with_sync (b : bool) (x : xstate) : xstate := {|
  base := base x; srv := srv x; active := active x; statements_of := statements_of x; portals := portals x;
  failed := failed x; pending := pending x; syncConsumed := b; copy := copy x |}.

Definition with_copy (c : copyState) (x : xstate) : xstate := {|
  base := base x; srv := srv x; active := active x; statements_of := statements_of x; portals := portals x;
  failed := failed x; pending := pending x; syncConsumed := syncConsumed x; copy := c |}.

Definition ready (x : xstate) : xoutput := send (ReadyForQuery (txStatus (base x))).
Definition unlock_idle (s : extendedState) : list xoutput :=
  if transaction s then [] else [XUnlockFleetWrites].

(** * Exchanges *)

(** What the session's connections do, given everything done before: the error
    of connecting to a Burrow, of writing to it, the reply to what was written,
    whether the shared cache has a statement on the connection to a Burrow, and
    the Burrows to which the session has a connection, in configured order.
    Other sessions use the same Burrows and the same cache, so these are not
    determined by what this session does. *)
Class Connections := {
  connect_error : list xevent → string → option string;
  write_error : list xevent → string → list FrontendMessage → option string;
  answer : list xevent → string → list FrontendMessage → reply;
  IsPrepared : list xevent → string → string → bool;
  ConnectedNames : list xevent → list string;
  (** On pooled connections: the result of a query, and the order in which the
      results of several Burrows arrive. *)
  pooled_result : list xevent → string → string → result fanout.query_error Result;
  arrival : list xevent → string → list string → list string;
}.

Section protocol.
Context `{Floats} `{PgQuery} `{GoStd} `{Connections}.
Context (env : environment).

Definition now : X (list xevent) := λ h, (h, h).

(** [SendTo] acquires the connection first. *)
Definition send_failure (h : list xevent) (burrow : string) (ms : list FrontendMessage) : option string :=
  match connect_error h burrow with Some e => Some e | None => write_error h burrow ms end.

(** [exchange] with one message for all targets. *)
Fixpoint x_exchange (ms : list FrontendMessage) (targets : list string)
    : X (result string (list (list xmessage))) :=
  match targets with
  | [] => mret (Ok [])
  | name :: targets => λ h,
    match send_failure h name ms with
    | Some e => (h ++ [Exchanged name ms (unsent e)], Err e)
    | None =>
      let r := answer h name ms in
      let '(h, replies) := x_exchange ms targets (h ++ [Exchanged name ms r]) in
      (h, messages ← complete r; rest ← replies; Ok (messages :: rest))
    end
  end.

(** The commands of the two-phase protocols are simple queries. *)
Definition as_reply (r : result string (list xmessage)) : result string (list BackendMessage) :=
  match r with Ok messages => Ok (omap plain_of messages) | Err e => Err e end.
Definition run_commands {A}
    (m : (list event → string → string → option string) →
         (list event → string → string → result string (list BackendMessage)) → M A) : X A :=
  λ h,
    let '(events, a) := m (λ l burrow text, send_failure (h ++ (Command <$> l)) burrow [Query text; Flush])
                          (λ l burrow text, as_reply (complete (answer (h ++ (Command <$> l)) burrow [Query text; Flush]))) [] in
    (h ++ (Command <$> events), a).

(** ** Relaying *)

Definition relayUniform (responses : result string (list (list xmessage))) (operation : string)
    : list xoutput * bool :=
  match responses with
  | Err e => ([extended_error "08006" e], false)
  | Ok responses =>
    match x_firstError responses with
    | Some e => ([send (ErrorMessage e)], false)
    | None =>
      match responses with
      | [] => ([extended_error "XX000" "no Burrow responses"], false)
      | first :: others =>
        let first := protocolMessages first in
        if forallb (λ r, sameProtocolMessages first (protocolMessages r)) others
        then (XSend <$> first, true)
        else ([extended_error "XX000" ("incompatible " +:+ operation +:+ " responses from Burrows")], false)
      end
    end
  end.

Definition relaySync (responses : list (list xmessage)) (status : byte) : list xoutput * bool :=
  match responses with
  | [] | [] :: _ => ([extended_error "XX000" "no Burrow responses"], false)
  | _ =>
    match x_firstError responses with
    | Some e => ([send (ErrorMessage e)], false)
    | None => ([send (ReadyForQuery status)], true)
    end
  end.

(** ** Statements and portals *)

(** The targets on which the statement is not known to be prepared, or the
    error of a connection. *)
Fixpoint missing_on (name : string) (targets : list string) : X (result string (list string)) :=
  match targets with
  | [] => mret (Ok [])
  | target :: targets =>
    h ← now;
    match connect_error h target with
    | Some e => mret (Err e)
    | None =>
      rest ← missing_on name targets;
      mret (rest ← rest; Ok (if IsPrepared h target name then rest else target :: rest))
    end
  end.

Fixpoint parse_missing (m : ParseMessage) (missing : list string) : X (option xoutput) :=
  match missing with
  | [] => mret None
  | target :: missing =>
    responses ← x_exchange [Parse m; Flush] [target];
    match responses with
    | Err e => mret (Some (extended_error "08006" e))
    | Ok responses =>
      match x_firstError responses with
      | Some e => if decide (Code e = "42P05") then parse_missing m missing
                  else mret (Some (send (ErrorMessage e)))
      | None => parse_missing m missing
      end
    end
  end.

(** The message of [statement.message], which [nil] does not send. *)
Definition parse_of (st : statementState) : ParseMessage :=
  default {| p_Name := ""; p_Query := ""; ParameterOIDs := [] |} (parse st).

(** [None] on success, else what the client is sent. *)
Definition materializeStatement (st : statementState) (targets : list string) : X (option xoutput) :=
  missing ← missing_on (backendName st) targets;
  match missing with
  | Err e => mret (Some (extended_error "08006" e))
  | Ok missing =>
    failure ← parse_missing (parse_of st) missing;
    match failure with
    | Some o => mret (Some o)
    | None =>
      (if decide (missing = []) then mret tt else record_event (Marked missing (backendName st)));;
      mret None
    end
  end.

Definition targets_of (target : string) (routed : bool) : list string :=
  if routed then [target] else ShardNames env.

Definition handleBind (m : BindMessage) (target : string) (routed : bool) (st : statementState)
    : X (list xoutput * bool) :=
  failure ← materializeStatement st (targets_of target routed);
  match failure with
  | Some o => mret ([o], false)
  | None =>
    responses ← x_exchange [Bind m; Flush] (targets_of target routed);
    mret (relayUniform responses "Bind")
  end.

(** [parameters.ParameterOIDs[:len(...)-1]] on every ParameterDescription. *)
Definition drop_generated (x : xmessage) : xmessage :=
  match x with
  | ParameterDescription oids =>
    ParameterDescription (take (length oids - 1) oids)
  | x => x
  end.
Definition described_oids (responses : list (list xmessage)) : list Z :=
  default [] (head (filter (λ oids, oids ≠ [])
    (omap (λ x, match x with ParameterDescription oids => Some oids | _ => None end) (concat responses)))).

(** The relayed result and the parameter types that were described. *)
Definition handleDescribe (object : byte) (name : string) (is_generated : bool) (target : string) (routed : bool)
    : X (list xoutput * bool * list Z) :=
  responses ← x_exchange [Describe object name; Flush] (targets_of target routed);
  let oids := match responses with Ok r => described_oids r | Err _ => [] end in
  let responses := match responses with
    | Ok r => Ok (if is_generated then fmap (M := list) drop_generated <$> r else r)
    | Err e => Err e
    end in
  mret (relayUniform responses "Describe", oids).

Definition handleClose (object : byte) (name : string) (target : string) (routed : bool)
    : X (list xoutput * bool) :=
  responses ← x_exchange [Close object name; Flush] (targets_of target routed);
  mret (relayUniform responses "Close").

(** ** Execute *)

(** COMMIT of a transaction that wrote on several Burrows. *)
Definition execute_commit (x : xstate) : X (xstate * list xoutput * bool) :=
  let s := base x in
  let x := with_srv (beginSchemaCommit (schemaDirty s) (srv x)) x in
  response ← run_commands (λ send_error reply_to,
    commitTwoPhase send_error reply_to (gid env) (ShardNames env) (participantNames (writeParticipants s)));
  match response with
  | Some e => mret (x, [send (ErrorMessage e)], false)
  | None =>
    let finished s := close_transaction (with_writes false (target s) ∅ s) in
    let committed x := (with_base (finished (finishTemporaryTransaction true false (base x))) x,
                        [send (CommandComplete "COMMIT")], true) in
    if schemaDirty s then
      match refreshSchemaAfterDDL env (srv x) with
      | (v, Some message) =>
        mret (with_srv v (with_base (finished s) x),
              [extended_error "55000" ("refresh schema registry after DDL: " +:+ message); XUnlockFleetWrites], false)
      | (v, None) => mret (committed (with_srv v (with_base (clean_schema s) x)))
      end
    else mret (committed x)
  end.

(** The result loop: what is sent at once, and what is sent after it. *)
Record xcollected := {
  x_sent : list xoutput; x_description : option (list FieldDescription);
  x_rows : list (list (option bytes)); x_tags : list string; x_suspended : bool;
}.
Definition nothing_yet : xcollected :=
  {| x_sent := []; x_description := None; x_rows := []; x_tags := []; x_suspended := false |}.

Definition type_name (x : xmessage) : string :=
  match x with
  | Plain (OtherMessage kind) => kind
  | Plain (ReadyForQuery _) => "*pgproto3.ReadyForQuery"
  | Plain (ErrorMessage _) => "*pgproto3.ErrorResponse"
  | ParameterDescription _ => "*pgproto3.ParameterDescription"
  | CopyDataMessage _ => "*pgproto3.CopyData"
  | Plain CopyInResponse => "*pgproto3.CopyInResponse"
  | Plain CopyOutResponse => "*pgproto3.CopyOutResponse"
  | Plain CopyBothResponse => "*pgproto3.CopyBothResponse"
  | Plain (RowDescription _) => "*pgproto3.RowDescription"
  | Plain (DataRow _) => "*pgproto3.DataRow"
  | Plain (CommandComplete _) => "*pgproto3.CommandComplete"
  | Plain (NoticeResponse _) => "*pgproto3.NoticeResponse"
  | Plain (ParameterStatus _ _) => "*pgproto3.ParameterStatus"
  | Plain EmptyQueryResponse => "*pgproto3.EmptyQueryResponse"
  | Plain (NotificationResponse _) => "*pgproto3.NotificationResponse"
  end.

(** On an error, everything sent up to it. *)
Definition collect_execute (first : bool) (c : xcollected) (x : xmessage) : result (list xoutput) xcollected :=
  match x with
  | Plain (RowDescription fields) =>
    match x_description c with
    | None => Ok {| x_sent := x_sent c; x_description := Some fields; x_rows := x_rows c; x_tags := x_tags c;
                    x_suspended := x_suspended c |}
    | Some d => if sameRowDescription d fields then Ok c
                else Err (x_sent c ++ [extended_error "XX000" "incompatible row descriptions from Burrows"])
    end
  | Plain (DataRow values) => Ok {| x_sent := x_sent c; x_description := x_description c;
      x_rows := x_rows c ++ [values]; x_tags := x_tags c; x_suspended := x_suspended c |}
  | Plain (CommandComplete tag) => Ok {| x_sent := x_sent c; x_description := x_description c;
      x_rows := x_rows c; x_tags := x_tags c ++ [tag]; x_suspended := x_suspended c |}
  | Plain (ParameterStatus _ _) => Ok (if first then {| x_sent := x_sent c ++ [XSend x];
      x_description := x_description c; x_rows := x_rows c; x_tags := x_tags c; x_suspended := x_suspended c |} else c)
  | Plain EmptyQueryResponse | Plain (NoticeResponse _) | Plain (NotificationResponse _) => Ok c
  | Plain CopyInResponse | Plain CopyOutResponse | Plain CopyBothResponse =>
    Err (x_sent c ++ [extended_error "0A000" "COPY is not supported by Hamstergres Proxy"])
  | x =>
    if bool_decide (x = Plain PortalSuspended) then
      Ok {| x_sent := x_sent c; x_description := x_description c; x_rows := x_rows c; x_tags := x_tags c;
            x_suspended := true |}
    else Err (x_sent c ++ [extended_error "08P01" ("unexpected Execute response " +:+ type_name x)])
  end.
Definition collect_executes (responses : list (list xmessage)) : result (list xoutput) xcollected :=
  mfold (λ c p, mfold (collect_execute (bool_decide (p.1 = 0%nat))) c p.2) nothing_yet (enumerate responses).

Definition completion (c : xcollected) : xoutput :=
  if x_suspended c then send PortalSuspended
  else match x_tags c with
       | [] => send EmptyQueryResponse
       | tags => send (CommandComplete (mergedCommandTag tags (Z.of_nat (length (x_rows c)))))
       end.
Definition relayed_execute (c : xcollected) : list xoutput :=
  x_sent c ++ match x_description c with Some d => [send (RowDescription d)] | None => [] end
  ++ (send <$> (DataRow <$> x_rows c)) ++ [completion c].

Definition invalidation (text : string) (targets : list string) : list xoutput :=
  if invalidatesPreparedStatements text then [XInvalidate targets] else [].
Definition clean_after_rollback (text : string) (s : extendedState) : extendedState :=
  if negb (transaction s) && bool_decide (firstSQLKeyword text ∈ ["ROLLBACK"; "ABORT"])
  then set_schemaDirty false s else s.

(** The session state after a statement that succeeded on its targets. *)
Definition executed_state (policy : sessionStatePolicy) (po : portalState) (temporaryDDL : bool)
    (targets : list string) (s : extendedState) : extendedState :=
  let s := if po_schema po && negb temporaryDDL then set_schemaDirty true s else s in
  let s := commitSessionState policy s in
  let s := if temporaryDDL then s
    else recordWriteParticipants (po_sql po) (requiresFleetWriteOrder (po_sql po) (length targets)) targets s in
  clean_after_rollback (po_sql po) (applySuccessfulSQLState s (po_sql po)).

(** The statement on its targets, once it may run. *)
Definition execute_on (portal : string) (maxRows : Z) (po : portalState) (policy : sessionStatePolicy)
    (temporaryDDL atomicDDL : bool) (targets : list string) (x : xstate) : X (xstate * list xoutput * bool) :=
  let s := base x in
  begun ← (if atomicDDL then run_commands (λ se rt, beginAtomicFleetDDL se rt targets) else mret None);
  match begun with
  | Some e => mret (x, [send (ErrorMessage e); XUnlockFleetWrites], false)
  | None =>
    let x := with_srv (beginSchemaCommit (negb atomicDDL &&
      (po_schema po && negb temporaryDDL && negb (transaction s)
       || schemaDirty s && transaction s && isTransactionCommit (po_sql po))) (srv x)) x in
    let undo := if atomicDDL then run_commands (λ se rt, rollbackAtomicFleetDDL se rt targets) else mret tt in
    let unlock := if atomicDDL then [XUnlockFleetWrites] else [] in
    responses ← x_exchange [Execute portal maxRows; Flush] targets;
    match responses with
    | Err e => undo;; mret (x, unlock ++ [extended_error "08006" e], false)
    | Ok responses =>
      match x_firstError responses with
      | Some e => undo;; mret (x, unlock ++ [send (ErrorMessage e)], false)
      | None =>
        failed ← (if atomicDDL
          then run_commands (λ se rt, commitAtomicFleetDDL se rt (gid env) (ShardNames env) targets) else mret None);
        match failed with
        | Some e => mret (x, [send (ErrorMessage e); XUnlockFleetWrites], false)
        | None =>
          match collect_executes responses with
          | Err sent => mret (x, sent, false)
          | Ok c => mret (with_base (executed_state policy po temporaryDDL targets s) x,
                          relayed_execute c ++ invalidation (po_sql po) targets, true)
          end
        end
      end
    end
  end.

Definition commits_extended (text : string) (s : extendedState) : bool :=
  transaction s && mutated s && bool_decide (1 < size (writeParticipants s))%nat && twoPhaseCommit env
  && (bool_decide (firstSQLKeyword text = "COMMIT") || bool_decide (firstSQLKeyword text = "END")).

Definition lock_error : xoutput :=
  extended_error "57014" "frontend session ended while waiting to execute a write".

Definition handleExecute (portal : string) (maxRows : Z) (po : portalState) (x : xstate)
    : X (xstate * list xoutput * bool) :=
  let policy := policy_in_state (base x) (classifySessionState (po_sql po)) in
  let x := with_base (beginSessionState policy (base x)) x in
  let s := base x in
  if commits_extended (po_sql po) s then execute_commit x else
  if po_keyedWrite po && negb (po_routed po) then
    mret (x, [extended_error "0A000" "write to a sharded table must include its annotated shard key"], false)
  else
    let targets := if po_routed po && negb (isTransactionControl (po_sql po)) then [po_target po] else ShardNames env in
    match validateAtomicFleetDDL (twoPhaseCommit env) s (po_sql po) (length targets) with
    | Err e => mret (x, [extended_error "0A000" (error_text e)], false)
    | Ok temporaryDDL =>
      let fleet := requiresFleetWriteOrder (po_sql po) (length targets) && negb temporaryDDL in
      let atomicDDL := negb (transaction s) && fleet in
      (if fleet then record_event (Command (LockFleetWrites (lock_acquired env))) else mret tt);;
      if fleet && negb (lock_acquired env) then mret (x, [lock_error], false)
      else execute_on portal maxRows po policy temporaryDDL atomicDDL targets x
    end.

(** ** The pending request *)

Record flush_acc := {
  f_sent : list xoutput; f_failed : bool; f_success : bool; f_marked : bool;
  f_description : option (list FieldDescription); f_parameters : option (list Z);
  f_tags : list string; f_rows : Z; f_bind : bool; f_nodata : bool; f_empty : bool; f_suspended : bool;
}.
Definition f_send (o : xoutput) (a : flush_acc) : flush_acc := {|
  f_sent := f_sent a ++ [o]; f_failed := f_failed a; f_success := f_success a; f_marked := f_marked a;
  f_description := f_description a; f_parameters := f_parameters a; f_tags := f_tags a; f_rows := f_rows a;
  f_bind := f_bind a; f_nodata := f_nodata a; f_empty := f_empty a; f_suspended := f_suspended a |}.
(** [backendFailed = true; success = false] and the error. *)
Definition f_fail (o : xoutput) (a : flush_acc) : flush_acc := {|
  f_sent := f_sent a ++ [o]; f_failed := true; f_success := false; f_marked := f_marked a;
  f_description := f_description a; f_parameters := f_parameters a; f_tags := f_tags a; f_rows := f_rows a;
  f_bind := f_bind a; f_nodata := f_nodata a; f_empty := f_empty a; f_suspended := f_suspended a |}.
Definition f_mark (b : bool) (a : flush_acc) : flush_acc := {|
  f_sent := f_sent a; f_failed := f_failed a; f_success := f_success a; f_marked := b;
  f_description := f_description a; f_parameters := f_parameters a; f_tags := f_tags a; f_rows := f_rows a;
  f_bind := f_bind a; f_nodata := f_nodata a; f_empty := f_empty a; f_suspended := f_suspended a |}.
(** The remaining assignments of the switch. *)
Definition f_set (description : option (list FieldDescription)) (parameters : option (list Z)) (tags : list string)
    (rows : Z) (bind nodata empty suspended : bool) (a : flush_acc) : flush_acc := {|
  f_sent := f_sent a; f_failed := f_failed a; f_success := f_success a; f_marked := f_marked a;
  f_description := description; f_parameters := parameters; f_tags := tags; f_rows := rows;
  f_bind := bind; f_nodata := nodata; f_empty := empty; f_suspended := suspended |}.

(** The switch on one message; [first] is whether it is from the first target.
    An unexpected message ends the request. *)
Definition flush_switch (first : bool) (a : flush_acc) (x : xmessage) : result string flush_acc :=
  let again := f_set (f_description a) (f_parameters a) (f_tags a) (f_rows a) in
  match x with
  | Plain (RowDescription fields) =>
    Ok match f_description a with
    | None => f_send (XSend x) (f_set (Some fields) (f_parameters a) (f_tags a) (f_rows a)
                (f_bind a) (f_nodata a) (f_empty a) (f_suspended a) a)
    | Some d => if sameRowDescription d fields then a
                else f_fail (extended_error "XX000" "incompatible row descriptions from Burrows") a
    end
  | ParameterDescription oids =>
    Ok match f_parameters a with
    | None => f_send (XSend x) (f_set (f_description a) (Some oids) (f_tags a) (f_rows a)
                (f_bind a) (f_nodata a) (f_empty a) (f_suspended a) a)
    | Some o => if decide (o = oids) then a
                else f_fail (extended_error "XX000" "incompatible parameter descriptions from Burrows") a
    end
  | Plain (DataRow _) =>
    Ok (f_send (XSend x) (f_set (f_description a) (f_parameters a) (f_tags a) (f_rows a + 1)
          (f_bind a) (f_nodata a) (f_empty a) (f_suspended a) a))
  | Plain (CommandComplete tag) =>
    Ok (f_set (f_description a) (f_parameters a) (f_tags a ++ [tag]) (f_rows a)
          (f_bind a) (f_nodata a) (f_empty a) (f_suspended a) a)
  | Plain EmptyQueryResponse =>
    Ok (if f_empty a then a else f_send (XSend x) (again (f_bind a) (f_nodata a) true (f_suspended a) a))
  | Plain (ErrorMessage _) => Ok (f_fail (XSend x) a)
  | Plain (ParameterStatus _ _) => Ok (if first then f_send (XSend x) a else a)
  | Plain (ReadyForQuery _) | Plain (NoticeResponse _) | Plain (NotificationResponse _) => Ok a
  | Plain CopyInResponse | Plain CopyOutResponse | Plain CopyBothResponse => Err ("unexpected batched response " +:+ type_name x)
  | CopyDataMessage _ => Err ("unexpected batched response " +:+ type_name x)
  | Plain (OtherMessage kind) =>
    let m := OtherMessage kind in
    if is_message BindComplete m then
      Ok (if f_bind a then a else f_send (XSend x) (again true (f_nodata a) (f_empty a) (f_suspended a) a))
    else if is_message NoData m then
      Ok (if f_nodata a then a else f_send (XSend x) (again (f_bind a) true (f_empty a) (f_suspended a) a))
    else if is_message PortalSuspended m then
      Ok (again (f_bind a) (f_nodata a) (f_empty a) true a)
    else Err ("unexpected batched response " +:+ kind)
  end.

(** The callback: [expected] is whether the statement was parsed on this
    target. *)
Definition flush_message (expected first : bool) (a : flush_acc) (x : xmessage) : result string flush_acc :=
  if bool_decide (x = Plain ParseComplete) then Ok (if expected then f_mark true a else a)
  else if f_failed a then Ok a
  else flush_switch first a x.

(** The fold that keeps what was sent when a message is unexpected. *)
Fixpoint flush_messages (expected first : bool) (a : flush_acc) (ms : list xmessage) : flush_acc * option string :=
  match ms with
  | [] => (a, None)
  | m :: ms =>
    match flush_message expected first a m with
    | Ok a => flush_messages expected first a ms
    | Err e => (a, Some e)
    end
  end.

(** The loop over the targets; [sent] pairs each with whether it was sent the
    Parse and with its reply. *)
Fixpoint receive_batches (name : string) (first : bool) (a : flush_acc) (sent : list (string * bool * reply))
    : X (flush_acc * option string) :=
  match sent with
  | [] => mret (a, None)
  | (target, expected, r) :: sent =>
    let '(a, failure) := flush_messages expected first (f_mark false a) (got r) in
    (if f_marked a then record_event (Marked [target] name) else mret tt);;
    match failure with
    | Some e => mret (a, Some e)
    | None =>
      match broken r with
      | Some e => mret (a, Some e)
      | None => receive_batches name false a sent
      end
    end
  end.

(** The loop that sends the batch to each target. *)
Fixpoint send_batches (st : statementState) (ms : list FrontendMessage) (targets : list string)
    : X (result string (list (string * bool * reply))) :=
  match targets with
  | [] => mret (Ok [])
  | target :: targets => λ h,
    match connect_error h target with
    | Some e => (h, Err e)
    | None =>
      let missing := bool_decide (backendName st ≠ "") && negb (IsPrepared h target (backendName st)) in
      let ms' := if missing then Parse (parse_of st) :: ms else ms in
      match write_error h target ms' with
      | Some e => (h ++ [Exchanged target ms' (unsent e)], Err e)
      | None =>
        let r := answer h target ms' in
        let '(h, rest) := send_batches st ms targets (h ++ [Exchanged target ms' r]) in
        (h, rest ← rest; Ok ((target, missing, r) :: rest))
      end
    end
  end.

(** [failPendingExtended] *)
Definition fail_pending (emitReady : bool) (o : xoutput) (pre : list xoutput) (x : xstate)
    : xstate * list xoutput * bool :=
  (with_failed (negb emitReady) x, pre ++ [o] ++ (if emitReady then [ready x] else []), false).

Definition batch_of (p : pendingExtended) : list FrontendMessage :=
  [Bind (pe_bind p)]
  ++ match pe_describe p with Some (object, name) => [Describe object name] | None => [] end
  ++ match pe_execute p with Some (portal, maxRows) => [Execute portal maxRows] | None => [] end
  ++ [Sync].

(** The end of the request: the two-phase commit of DDL, the completion and the
    new session state. *)
Definition flushed_state (policy : sessionStatePolicy) (p : pendingExtended) (success : bool)
    (s : extendedState) : extendedState :=
  if bool_decide (is_Some (pe_execute p)) && bool_decide (po_sql (pe_portal p) ≠ "") && success then
    let text := po_sql (pe_portal p) in
    let temporaryDDL := referencesTemporaryDDL (temporary s) text in
    let s := if temporaryDDL then s
      else recordWriteParticipants text (requiresFleetWriteOrder text (length (pe_targets p))) (pe_targets p) s in
    let s := if po_schema (pe_portal p) && negb temporaryDDL then set_schemaDirty true s else s in
    clean_after_rollback text (commitSessionState policy (applySuccessfulSQLState s text))
  else s.

Definition flush_completion (p : pendingExtended) (a : flush_acc) : list xoutput :=
  if f_failed a then [] else
  invalidation (po_sql (pe_portal p)) (pe_targets p)
  ++ (if f_suspended a then [send PortalSuspended]
      else match f_tags a with
           | [] => []
           | tags => [send (CommandComplete (mergedCommandTag tags (f_rows a)))]
           end).

Definition finish_flush (policy : sessionStatePolicy) (p : pendingExtended) (emitReady : bool)
    (a : flush_acc) (x : xstate) : xstate * list xoutput * bool :=
  let s := flushed_state policy p (f_success a) (base x) in
  let x := with_base s x in
  let '(x, refreshed, backendFailed) :=
    if schemaDirty s && negb (f_failed a) && negb (transaction s) then
      match refreshSchemaAfterDDL env (srv x) with
      | (v, Some message) => (with_srv v x, [send (ErrorMessage (refresh_error message))], true)
      | (v, None) => (with_srv v (with_base (set_schemaDirty false s) x), [], f_failed a)
      end
    else (x, [], f_failed a) in
  let sent := f_sent a ++ flush_completion p a ++ refreshed in
  let x := if emitReady then x else with_sync true x in
  (with_failed (backendFailed && negb emitReady) x,
   sent ++ (if emitReady then [ready x] else []) ++ unlock_idle (base x), true).

Definition nothing_flushed (executes : bool) : flush_acc := {|
  f_sent := []; f_failed := false; f_success := executes; f_marked := false; f_description := None;
  f_parameters := None; f_tags := []; f_rows := 0; f_bind := false; f_nodata := false; f_empty := false;
  f_suspended := false |}.

(** The request once it may run. *)
Definition run_batch (policy : sessionStatePolicy) (p : pendingExtended) (emitReady fleet atomicDDL : bool)
    (x : xstate) : X (xstate * list xoutput * bool) :=
  let targets := pe_targets p in
  let fail e : X (xstate * list xoutput * bool) :=
    (if atomicDDL then run_commands (λ se rt, rollbackAtomicFleetDDL se rt targets) else mret tt);;
    mret (fail_pending emitReady (extended_error "08006" e)
            (if fleet && negb (transaction (base x)) then [XUnlockFleetWrites] else []) x) in
  sent ← send_batches (pe_statement p) (batch_of p) targets;
  match sent with
  | Err e => fail e
  | Ok sent =>
    '(a, failure) ← receive_batches (backendName (pe_statement p)) true
        (nothing_flushed (bool_decide (is_Some (pe_execute p)))) sent;
    match failure with
    | Some e =>
      '(x, outs, ok) ← fail e; mret (x, f_sent a ++ outs, ok)
    | None =>
      a ← (if atomicDDL then
             if f_failed a then run_commands (λ se rt, rollbackAtomicFleetDDL se rt targets);; mret a
             else failed ← run_commands (λ se rt, commitAtomicFleetDDL se rt (gid env) (ShardNames env) targets);
                  mret match failed with Some e => f_fail (send (ErrorMessage e)) a | None => a end
           else mret a);
      mret (finish_flush policy p emitReady a x)
    end
  end.

Definition flushPendingExtended (emitReady : bool) (x : xstate) : X (xstate * list xoutput * bool) :=
  match pending x with
  | None => mret (x, [], true)
  | Some p =>
    let x := with_pending None x in
    match pe_execute p with
    | None => run_batch no_policy p emitReady false false x
    | Some _ =>
      let text := po_sql (pe_portal p) in
      let policy := policy_in_state (base x) (classifySessionState text) in
      let x := with_base (beginSessionState policy (base x)) x in
      let s := base x in
      match validateAtomicFleetDDL (twoPhaseCommit env) s text (length (pe_targets p)) with
      | Err e => mret (fail_pending emitReady (extended_error "0A000" (error_text e)) [] x)
      | Ok temporaryDDL =>
        let fleet := requiresFleetWriteOrder text (length (pe_targets p)) && negb temporaryDDL in
        let atomicDDL := negb (transaction s) && fleet in
        (if fleet then record_event (Command (LockFleetWrites (lock_acquired env))) else mret tt);;
        if fleet && negb (lock_acquired env) then mret (fail_pending emitReady lock_error [] x) else
        begun ← (if atomicDDL then run_commands (λ se rt, beginAtomicFleetDDL se rt (pe_targets p)) else mret None);
        match begun with
        | Some e => mret (fail_pending emitReady (extended_error (Code e) (Message e)) [XUnlockFleetWrites] x)
        | None =>
          let x := with_srv (beginSchemaCommit (negb atomicDDL &&
            (po_schema (pe_portal p) && negb temporaryDDL && negb (transaction s)
             || schemaDirty s && transaction s && isTransactionCommit text)) (srv x)) x in
          run_batch policy p emitReady fleet atomicDDL x
        end
      end
    end
  end.

(** ** Sync *)

Definition handleSync (x : xstate) : X (xstate * list xoutput * bool) :=
  let s := base x in
  let continue x : X (xstate * list xoutput * bool) :=
    h ← now;
    match ConnectedNames h with
    | [] => mret (x, [ready x], true)
    | connected =>
      responses ← x_exchange [Sync; Flush] connected;
      match responses with
      | Err e => mret (x, [extended_error "08006" e], false)
      | Ok responses =>
        let '(sent, ok) := relaySync responses (txStatus (base x)) in
        mret (x, sent ++ (if ok then unlock_idle (base x) else []), ok)
      end
    end in
  if negb (transaction s) && (schemaDirty s || schemaRefreshPending (srv x)) then
    match refreshSchemaAfterDDL env (srv x) with
    | (v, Some message) =>
      mret (with_srv v x, [send (ErrorMessage (refresh_error message)); ready x; XUnlockFleetWrites], true)
    | (v, None) => continue (with_srv v (with_base (set_schemaDirty false s) x))
    end
  else continue x.
End protocol.
End extended.
