(* ===== verification/CopyHandlers.v ===== *)
(** COPY, from [internal/proxy/server.go]: [handleCopyQuery],
    [handleServerSideCopy], [handleCopyData], [sendCopyChunks], [abortCopy],
    [copyTargets], [markWriteParticipants], [handleCopyOut],
    [handleCopyCompletion] and [mergedCopyFromTag], with the session's
    [SendCopyTo] and [ReceiveUntilFromMany] of [internal/backend/backend.go].
    What a stream does to the rows is in CopyRouter. *)
From S2P Require Import Prelude.
From S2P Require Import GoStrings.
From S2P Require Import GoNumbers.
From S2P Require Import GoStd.
From S2P Require Import Schema.
From S2P Require Import ShardKey.
From S2P Require Import PgQuery.
From S2P Require Import Router.
From S2P Require Import RoutePlan.
From S2P Require Import CopyRouter.
From S2P Require Import Session.
From S2P Require Import FleetDdl.
From S2P Require Import Wire.
From S2P Require Import TwoPhase.
From S2P Require Import QueryHandler.
From S2P Require Import Statements.
From S2P Require Import Extended.

Module copyhandlers.
Import schema session fleetddl wire twophase queryhandler statements extended.

(** * State *)

Definition with_failure (b : bool) (s : extendedState) : extendedState := {|
  transaction := transaction s; transactionFailed := b; mutated := mutated s;
  target := target s; schemaDirty := schemaDirty s; writeParticipants := writeParticipants s;
  sessionAffinity := sessionAffinity s; sessionDestroy := sessionDestroy s;
  sessionDiscardPrepared := sessionDiscardPrepared s; sessionSettings := sessionSettings s;
  temporary := temporary s; temporarySnapshots := temporarySnapshots s |}.
(** [state.transactionFailed = state.transaction] *)
Definition fail_transaction (x : xstate) : xstate := with_base (with_failure (transaction (base x)) (base x)) x.

Definition markWriteParticipants (targets : list string) (s : extendedState) : extendedState :=
  if transaction s
  then with_writes (mutated s) (target s) (writeParticipants s ∪ list_to_set targets) s else s.
(** ... followed by [if state.transaction { state.mutated = true }]. *)
Definition record_copy (targets : list string) (x : xstate) : xstate :=
  let s := markWriteParticipants targets (base x) in
  with_base (if transaction s then with_writes true (target s) (writeParticipants s) s else s) x.

Definition end_copy (aborted : bool) (x : xstate) : xstate :=
  with_copy {| copyIn := false; copyTargets := []; copyPlan := copyPlan (copy x); copyStream := None;
               copyReplicated := false; copyAborted := aborted |} x.

(** An error and ReadyForQuery with the session's status. *)
Definition session_error (code message : string) (x : xstate) : list xoutput :=
  send <$> [ErrorMessage (sql_error code message); ReadyForQuery (txStatus (base x))].
Definition backend_error (e : ErrorResponse) (x : xstate) : list xoutput :=
  send <$> [ErrorMessage e; ReadyForQuery (txStatus (base x))].

Definition CopyDoneMessage : BackendMessage := OtherMessage "*pgproto3.CopyDone".

(** The session, what the client is sent and whether the COPY goes on; nothing
    when the stream panics. *)
Definition copied : Type := option (xstate * list xoutput * bool).
Definition copy_ends (x : xstate) (outs : list xoutput) : X copied := mret (Some (x, outs, false)).
(** The transaction fails with the COPY. *)
Definition copy_fails (code message : string) (x : xstate) : X copied :=
  let x := fail_transaction x in copy_ends x (session_error code message x).
Definition burrow_fails (e : ErrorResponse) (x : xstate) : X copied :=
  let x := fail_transaction x in copy_ends x (backend_error e x).

Definition panics (e : copyrouter.error) : bool :=
  match e with copyrouter.IndexPanic | copyrouter.KeyPanic => true | _ => false end.

Section copy.
Context `{Floats} `{PgQuery} `{GoStd} `{Connections}.
Context (env : environment).
(** The text of the errors of the COPY router. *)
Context (copy_text : copyrouter.error → string).

(** * The session *)

Fixpoint send_each (m : FrontendMessage) (names : list string) : X (option string) :=
  match names with
  | [] => mret None
  | name :: names => λ h,
    match write_error h name [m] with
    | Some e => (h ++ [Exchanged name [m] (unsent e)], Some e)
    | None => send_each m names (h ++ [Exchanged name [m] {| got := []; broken := None |}])
    end
  end.
Definition SendCopyTo (names : list string) (m : FrontendMessage) : X (option string) :=
  h ← now;
  match filter (λ name, name ∉ ConnectedNames h) names with
  | name :: _ => mret (Some ("Burrow " +:+ name +:+ " is not connected for COPY"))
  | [] => send_each m names
  end.

(** What a Burrow still has to say. *)
Definition receive (name : string) : X reply :=
  λ h, let r := answer h name [] in (h ++ [Exchanged name [] r], r).
Fixpoint ReceiveUntilFromMany (names : list string) : X (result string (list (list xmessage))) :=
  match names with
  | [] => mret (Ok [])
  | name :: names =>
    r ← receive name;
    match complete r with
    | Err e => mret (Err e)
    | Ok messages => rest ← ReceiveUntilFromMany names; mret (rest ← rest; Ok (messages :: rest))
    end
  end.

(** * COPY FROM STDIN *)

Definition chunks_for (target : string) (chunks : list copyrouter.Chunk) : bytes :=
  concat (copyrouter.Data <$> filter (λ c, copyrouter.Target c = "" ∨ copyrouter.Target c = target) chunks).

(** The loop over the targets of [sendCopyChunks]. *)
Fixpoint send_chunks (chunks : list copyrouter.Chunk) (targets : list string) : X (option string) :=
  match targets with
  | [] => mret None
  | target :: targets =>
    if decide (chunks_for target chunks = []) then send_chunks chunks targets else
    failure ← SendCopyTo [target] (CopyData (chunks_for target chunks));
    match failure with Some e => mret (Some e) | None => send_chunks chunks targets end
  end.
Definition sendCopyChunks (targets : list string) (chunks : list copyrouter.Chunk) : X (option string) :=
  send_chunks chunks targets.

Definition abortCopy (code cause : string) (x : xstate) : X (xstate * list xoutput) :=
  let targets := copyTargets (copy x) in
  SendCopyTo targets (CopyFail cause);;
  ReceiveUntilFromMany targets;;
  let x := fail_transaction (end_copy true x) in
  mret (x, session_error code cause x).
Definition abort_with (code cause : string) (x : xstate) : X copied :=
  '(x, outs) ← abortCopy code cause x; copy_ends x outs.

Definition with_stream (c : copyStreamState) (stream : copyrouter.Stream) (x : xstate) : xstate :=
  with_copy {| copyIn := copyIn (copy x); copyTargets := copyTargets (copy x); copyPlan := copyPlan (copy x);
    copyStream := Some {| cs_plan := cs_plan c; cs_registry := cs_registry c; cs_burrows := cs_burrows c;
                          cs_stream := stream |};
    copyReplicated := copyReplicated (copy x); copyAborted := copyAborted (copy x) |} x.

Definition handleCopyData (data : bytes) (x : xstate) : X copied :=
  match copyStream (copy x) with
  | None =>
    failure ← SendCopyTo (copyTargets (copy x)) (CopyData data);
    match failure with
    | Some e => abort_with "08006" e x
    | None => mret (Some (x, [], true))
    end
  | Some c =>
    match copyrouter.Write (cs_plan c) (cs_registry c) (cs_burrows c) data (cs_stream c) with
    | Err e => if panics e then mret None else abort_with "22023" (copy_text e) x
    | Ok (chunks, stream) =>
      let x := with_stream c stream x in
      failure ← sendCopyChunks (copyTargets (copy x)) chunks;
      match failure with
      | Some e => abort_with "08006" e x
      | None => mret (Some (x, [], true))
      end
    end
  end.

Definition mergedCopyFromTag (tags : list string) (sharded replicated : bool) (expectedRows : Z)
    : result string string :=
  match tags with
  | [] => Err "no Burrow COPY completion tag"
  | first :: others =>
    if replicated then
      if forallb (λ tag, bool_decide (tag = first)) others then Ok first
      else Err ("replicated COPY row counts differ across Burrows: " +:+ Join tags ", ")
    else
      let tag := mergedCommandTag tags 0 in
      let expected := "COPY " +:+ FormatInt expectedRows in
      if sharded && (0 <=? expectedRows) && negb (bool_decide (tag = expected))
      then Err ("sharded COPY row count is " +:+ quote_message tag +:+ ", expected " +:+ quote_message expected)
      else Ok tag
  end.

Definition tags_of (responses : list (list xmessage)) : list string :=
  omap (λ x, match x with Plain (CommandComplete tag) => Some tag | _ => None end) (concat responses).

(** The stream's last rows, when the client ends the input. *)
Definition finish_stream (m : FrontendMessage) (targets : list string) (x : xstate)
    : X (option (result (string * string) ())) :=
  match m, copyStream (copy x) with
  | CopyDone, Some c =>
    match copyrouter.Finish (cs_plan c) (cs_registry c) (cs_burrows c) (cs_stream c) with
    | Err e => mret (if panics e then None else Some (Err ("22023", copy_text e)))
    | Ok (chunks, _) =>
      failure ← sendCopyChunks targets chunks;
      mret (Some (match failure with Some e => Err ("08006", e) | None => Ok tt end))
    end
  | _, _ => mret (Some (Ok tt))
  end.

(** The rows the stream has routed, after [Finish]. *)
Definition expected_rows (x : xstate) : Z :=
  match copyStream (copy x) with
  | None => -1
  | Some c =>
    match copyrouter.Finish (cs_plan c) (cs_registry c) (cs_burrows c) (cs_stream c) with
    | Ok (_, stream) => copyrouter.Rows stream
    | Err _ => copyrouter.Rows (cs_stream c)
    end
  end.

(** The Burrows' answers to the end of the input. *)
Definition complete_copy (m : FrontendMessage) (targets : list string) (sharded replicated : bool) (rows : Z)
    (x : xstate) : X copied :=
  failure ← SendCopyTo targets m;
  match failure with
  | Some e => copy_fails "08006" e x
  | None =>
    responses ← ReceiveUntilFromMany targets;
    match responses with
    | Err e => copy_fails "08006" e x
    | Ok responses =>
      match x_firstError responses with
      | Some e => burrow_fails e x
      | None =>
        match tags_of responses with
        | [] => mret (Some (x, [ready x], true))
        | tags =>
          match mergedCopyFromTag tags sharded replicated rows with
          | Err e => copy_ends x (session_error "XX000" e x)
          | Ok tag => mret (Some (x, [send (CommandComplete tag); ready x], true))
          end
        end
      end
    end
  end.

(** [CopyDone] or [CopyFail]. *)
Definition handleCopyCompletion (m : FrontendMessage) (x : xstate) : X copied :=
  let c := copy x in
  let x := match m with CopyFail _ => fail_transaction x | _ => x end in
  finished ← finish_stream m (copyTargets c) x;
  match finished with
  | None => mret None
  | Some (Err (code, cause)) =>
    '(x, outs) ← abortCopy code cause x; copy_ends (end_copy false x) outs
  | Some (Ok _) =>
    let rows := match m with CopyDone => expected_rows x
                | _ => match copyStream c with Some c => copyrouter.Rows (cs_stream c) | None => -1 end end in
    let sharded := match copyPlan c with Some p => copyrouter.Sharded p | None => false end in
    complete_copy m (copyTargets c) sharded (copyReplicated c) rows (end_copy (copyAborted c) x)
  end.

(** * COPY TO STDOUT *)

Record copying := {
  co_output : copyrouter.OutputStream; co_tags : list string; co_error : option ErrorResponse;
  co_sent : list xoutput;
}.
Definition forward (parts : list bytes) : list xoutput := XSend <$> (CopyDataMessage <$> parts).

(** The callback: a Burrow's message, or the error that ends the reading. *)
Definition copy_out_message (plan : copyrouter.Plan) (c : copying) (m : xmessage) : result string copying :=
  let keep tags e := Ok {| co_output := co_output c; co_tags := tags; co_error := e; co_sent := co_sent c |} in
  match m with
  | CopyDataMessage data =>
    '(parts, output) ← map_err copy_text (copyrouter.OutputWrite plan data (co_output c));
    Ok {| co_output := output; co_tags := co_tags c; co_error := co_error c; co_sent := co_sent c ++ forward parts |}
  | Plain (CommandComplete tag) => keep (co_tags c ++ [tag]) (co_error c)
  | Plain (ErrorMessage e) => keep (co_tags c) (Some e)
  | Plain (ReadyForQuery _) | Plain (NoticeResponse _) => keep (co_tags c) (co_error c)
  | m => if bool_decide (m = Plain CopyDoneMessage) then keep (co_tags c) (co_error c)
         else Err ("unexpected COPY TO response " +:+ type_name m)
  end.
Fixpoint copy_out_messages (plan : copyrouter.Plan) (c : copying) (ms : list xmessage) : copying * option string :=
  match ms with
  | [] => (c, None)
  | m :: ms =>
    match copy_out_message plan c m with
    | Ok c => copy_out_messages plan c ms
    | Err e => (c, Some e)
    end
  end.

(** One Burrow after the other; [count] is the number of targets. *)
Fixpoint copy_out (plan : copyrouter.Plan) (count : Z) (index : Z) (targets : list string) (tags : list string)
    (sent : list xoutput) (x : xstate) : X copied :=
  match targets with
  | [] => mret (Some (x, sent ++ [send CopyDoneMessage]
      ++ match tags with [] => [] | _ => [send (CommandComplete (mergedCommandTag tags 0))] end ++ [ready x], true))
  | target :: targets =>
    r ← receive target;
    let '(c, failure) := copy_out_messages plan {| co_output := copyrouter.NewOutputStream plan index count;
      co_tags := tags; co_error := None; co_sent := sent |} (got r) in
    match (match failure with Some e => Some e | None => broken r end), co_error c with
    | Some e, _ => let x := fail_transaction x in copy_ends x (co_sent c ++ session_error "08006" e x)
    | None, Some e => let x := fail_transaction x in copy_ends x (co_sent c ++ backend_error e x)
    | None, None =>
      match copyrouter.OutputFinish plan (co_output c) with
      | Err e => copy_ends x (co_sent c ++ session_error "08P01" (copy_text e) x)
      | Ok (parts, _) => copy_out plan count (index + 1) targets (co_tags c) (co_sent c ++ forward parts) x
      end
    end
  end.
Definition handleCopyOut (targets : list string) (plan : copyrouter.Plan) (sent : list xoutput) (x : xstate)
    : X copied :=
  copy_out plan (Z.of_nat (length targets)) 0 targets [] sent x.

(** * The COPY statement *)

Definition handleServerSideCopy (text : string) (plan : copyrouter.Plan) (x : xstate) : X copied :=
  let refuse code message := copy_ends x (session_error code message x) in
  if bool_decide (copyrouter.Table plan = "") || negb (HasTable (registry env) (copyrouter.Table plan)) then
    refuse "0A000" "server-side COPY requires a known unsharded table; use COPY FROM STDIN or COPY TO STDOUT"
  else if copyrouter.Sharded plan then
    refuse "0A000" "server-side COPY for a sharded table is not supported; use COPY FROM STDIN or COPY TO STDOUT"
  else if bool_decide (UnshardedMode env ≠ "primary") then
    refuse "0A000" "server-side COPY is not supported for replicated unsharded tables because file paths are Burrow-local; use COPY FROM STDIN or COPY TO STDOUT"
  else if bool_decide (PrimaryBurrow env = "") then refuse "08006" "no primary Burrow configured"
  else
    let target := PrimaryBurrow env in
    responses ← x_exchange [Query text; Flush] [target];
    match responses with
    | Err e => copy_fails "08006" e x
    | Ok [] | Ok ([] :: _) | Ok (_ :: _ :: _) => copy_ends x (session_error "XX000" "no primary Burrow COPY response" x)
    | Ok [response] =>
      match x_firstError [response] with
      | Some _ =>
        let failed := bool_decide (readyTxStatus [omap plain_of response] = "E"%char) in
        copy_ends (with_base (with_failure failed (base x)) x) (XSend <$> response)
      | None =>
        mret (Some (if copyrouter.From plan then record_copy [target] x else x, XSend <$> response, true))
      end
    end.

(** [copyTargets]: [None] when the analysis panics. *)
Definition copy_targets (text : string) (x : xstate) : option (result string (list string) * xstate) :=
  routed ← routeplan.routeSQL (policy_of env (srv x)) text (registry env) (ShardNames env);
  match routed with
  | Err _ => Some (Err (error_text ParseError), x)
  | Ok (decision, counter) =>
    Some (Ok (targets_of env (routeplan.target decision) (routeplan.routed decision)),
      with_srv {| topologyReadIndex := counter; schemaRefreshPending := schemaRefreshPending (srv x) |} x)
  end.

Definition new_stream (plan : copyrouter.Plan) : result copyrouter.error (option copyStreamState) :=
  if copyrouter.From plan && copyrouter.Sharded plan then
    stream ← copyrouter.NewStream plan;
    Ok (Some {| cs_plan := plan; cs_registry := registry env; cs_burrows := ShardNames env; cs_stream := stream |})
  else Ok None.

(** The Burrows accept the COPY when their last messages have one type. *)
Definition copy_response (responses : list (list xmessage)) : result string xmessage :=
  match last <$> responses with
  | Some first :: others =>
    if forallb (λ m, match m with Some m => bool_decide (type_name m = type_name first) | None => false end) others
    then Ok first else Err "incompatible COPY responses from Burrows"
  | _ => Err "no Burrow COPY response"
  end.

Definition start_copy (plan : copyrouter.Plan) (stream : option copyStreamState) (targets : list string)
    (x : xstate) : xstate :=
  record_copy targets (with_copy {| copyIn := true; copyTargets := targets; copyPlan := Some plan;
    copyStream := stream;
    copyReplicated := copyrouter.From plan && negb (copyrouter.Sharded plan) && (1 <? length targets)%nat;
    copyAborted := false |} x).

Definition handleCopyQuery (text : string) (x : xstate) : X copied :=
  let refuse code message x := copy_ends x (session_error code message x) in
  match copyrouter.Parse text (registry env) with
  | Err e => refuse "0A000" (copy_text e) x
  | Ok plan =>
    if copyrouter.Program plan then refuse "0A000"
      "COPY PROGRAM is not supported by Hamstergres Proxy; use COPY FROM STDIN or COPY TO STDOUT" x
    else if copyrouter.ServerSide plan then handleServerSideCopy text plan x
    else
      match copy_targets text x with
      | None => mret None
      | Some (Err e, x) => refuse "42601" e x
      | Some (Ok targets, x) =>
        match new_stream plan with
        | Err e => refuse "0A000" (copy_text e) x
        | Ok stream =>
          responses ← x_exchange [Query text; Flush] targets;
          match responses with
          | Err e => copy_fails "08006" e x
          | Ok responses =>
            match x_firstError responses with
            | Some e => burrow_fails e x
            | None =>
              match copy_response responses with
              | Err e => refuse "XX000" e x
              | Ok (Plain CopyInResponse) =>
                mret (Some (start_copy plan stream targets x, [send CopyInResponse], true))
              | Ok (Plain CopyOutResponse) => handleCopyOut targets plan [send CopyOutResponse] x
              | Ok (Plain CopyBothResponse) =>
                copy_ends x [extended_error "0A000" "COPY BOTH is not supported by Hamstergres Proxy"]
              | Ok m => copy_ends x [extended_error "08P01" ("unexpected COPY response " +:+ type_name m)]
              end
            end
          end
        end
      end
  end.
End copy.
End copyhandlers.
