(* ===== verification/Serve.v ===== *)
(** The message loop of a frontend session: [serveQueries] of
    [internal/proxy/server.go], with [placeholderRoutingParameters].

    A session is driven by the messages the client sends, each with the
    environment in which it is handled. *)
From S2P Require Import Prelude.
From S2P Require Import GoStrings.
From S2P Require Import GoNumbers.
From S2P Require Import GoStd.
From S2P Require Import Schema.
From S2P Require Import ShardKey.
From S2P Require Import PgQuery.
From S2P Require Import Router.
From S2P Require Import RoutePlan.
From S2P Require Import CopyRouter.
From S2P Require Import Session.
From S2P Require Import FleetDdl.
From S2P Require Import Wire.
From S2P Require Import TwoPhase.
From S2P Require Import QueryHandler.
From S2P Require Import Fanout.
From S2P Require Import Statements.
From S2P Require Import PooledQuery.
From S2P Require Import Extended.
From S2P Require Import CopyHandlers.

Module serve.
Import schema session fleetddl wire twophase queryhandler statements extended copyhandlers.

(** What the handling of a message leaves: a panic, or the session afterwards,
    what the client was sent and whether the connections were used. *)
Definition handled : Type := option (xstate * list xoutput).
Definition stay (x : xstate) (outs : list xoutput) : X handled := mret (Some (x, outs)).
(** [state.failed = true] after an error. *)
Definition fail_with (code message : string) (x : xstate) : X handled :=
  stay (with_failed true x) [extended_error code message].
(** The end of a handler that returns whether it succeeded. *)
Definition checked (r : xstate * list xoutput * bool) : handled :=
  let '(x, outs, ok) := r in Some (if ok then x else with_failed true x, outs).

Definition new_state (v : server) : xstate := {|
  base := new_session; srv := v; active := false; statements_of := ∅; portals := ∅;
  failed := false; pending := None; syncConsumed := false; copy := no_copy |}.

Definition placeholderRoutingParameters (maximum : Z) : list (option string) :=
  replicate (Z.to_nat maximum) (Some "0").

(** [Close] unlocks the fleet lock and the next session has no connection. *)
Definition release (x : xstate) : xstate := with_active false x.
Definition releasable (x : xstate) : bool :=
  active x && negb (transaction (base x)) && negb (sessionAffinity (base x)) && negb (copyIn (copy x))
  && bool_decide (pending x = None) && negb (failed x).
#[export] Instance pending_none_dec (p : option pendingExtended) : Decision (p = None).
Proof. destruct p; [by right | by left]. Defined.

Definition keyed_error : string := "write to a sharded table must include its annotated shard key".

Section loop.
Context `{Floats} `{PgQuery} `{GoStd} `{MapOrder} `{Connections}.
Context (scan_binary : Z → bytes → option string) (runtimeParams : list (string * string)).
Context (copy_text : copyrouter.error → string).

(** A message that needs a session; [NewSession] cannot fail. *)
Definition ensureSession (x : xstate) : xstate := with_active true x.

Definition count_read (counter : Z) (x : xstate) : xstate :=
  with_srv {| topologyReadIndex := counter; schemaRefreshPending := schemaRefreshPending (srv x) |} x.

(** ** The refresh of the schema registry before a message *)

Definition simple_query (m : FrontendMessage) : bool := match m with Query _ => true | _ => false end.

(** The session, or what is sent when the refresh fails. *)
Definition schema_barrier (env : environment) (m : FrontendMessage) (x : xstate)
    : xstate * option (list xoutput) :=
  let localSchemaRefresh := schemaDirty (base x) && negb (transaction (base x)) in
  match m with
  | Terminate | Sync => (x, None)
  | m =>
    if localSchemaRefresh || schemaRefreshPending (srv x) then
      match refreshSchemaAfterDDL env (srv x) with
      | (v, Some message) =>
        let x := with_srv v x in
        if simple_query m
        then (x, Some (send <$> [ErrorMessage (refresh_error message); ReadyForQuery (txStatus (base x))]))
        else (with_failed true x, Some [send (ErrorMessage (refresh_error message))])
      | (v, None) =>
        let x := with_srv v x in
        (if localSchemaRefresh then with_base (set_schemaDirty false (base x)) x else x, None)
      end
    else (x, None)
  end.

(** ** Parse *)

Definition serve_parse (env : environment) (m : ParseMessage) (x : xstate) : X handled :=
  if failed x then stay x [] else
  match prepareStatement (MakeStrNode env) (MakeResTargetNodeWithName env) m (registry env) with
  | Err e => fail_with "42601" (error_text e) x
  | Ok st =>
    match validateAtomicFleetDDL (twoPhaseCommit env) (base x) (st_sql st) (length (ShardNames env)) with
    | Err e => fail_with "0A000" (error_text e) x
    | Ok _ =>
      match routeplan.routePortal (policy_of env (srv x)) (routing st)
              (placeholderRoutingParameters (router.MaxParameter (routing st)))
              (registry env) (ShardNames env) with
      | None => mret None
      | Some (decision, counter) =>
        let x := count_read counter x in
        if decide (routeplan.scatterError decision ≠ "") then fail_with "0A000" (routeplan.scatterError decision) x
        else if routeplan.keyedWrite decision && negb (routeplan.routed decision) then
          fail_with "0A000" "write to a sharded table must include one unambiguous annotated shard key" x
        else stay (with_statements (<[p_Name m := st]> (statements_of x)) x) [send ParseComplete]
      end
    end
  end.

(** ** Query *)

Definition needs_session (env : environment) (text : string) (x : xstate) : bool :=
  active x || bool_decide (runtimeParams ≠ []) || bool_decide (sessionSettings (base x) ≠ [])
  || requiresSessionBackend text || isTransactionControl text || isServerLocalDDL text
  || requiresFleetWriteOrder text (length (ShardNames env)).

(** [handleQuery] does not see the session. *)
Definition pooled_query (env : environment) (text : string) (x : xstate) : X handled :=
  λ h,
    match pooledquery.handleQuery (pooled_result h) (arrival h) env text (srv x) with
    | None => (h, None)
    | Some o => (h ++ (PoolEvent <$> pooledquery.p_events o),
                 Some (with_srv (pooledquery.p_server o) x, of_output <$> pooledquery.p_sent o))
    end.
Definition without_result (r : copied) : handled :=
  match r with None => None | Some (x, outs, _) => Some (x, outs) end.

Definition serve_query (env : environment) (text : string) (x : xstate) : X handled :=
  if failed x then stay x [] else
  if decide (firstSQLKeyword text = "COPY") then
    r ← handleCopyQuery env copy_text text (ensureSession x); mret (without_result r)
  else if containsCopyStatement text then
    stay x (send <$> [ErrorMessage (sql_error "0A000"
        "COPY in a multi-statement query is not supported; send COPY as a standalone statement");
      ReadyForQuery (txStatus (base x))])
  else if needs_session env text x then
    let x := ensureSession x in
    o ← run_commands (λ send_error reply_to, handleSessionQuery send_error reply_to env (srv x) (base x) text);
    mret (match o with
          | None => None
          | Some o => Some (with_srv (o_server o) (with_base (o_state o) x), of_output <$> o_sent o)
          end)
  else pooled_query env text x.

(** ** COPY *)

Definition serve_copy (m : FrontendMessage) (x : xstate) : X handled :=
  let recovered (r : copied) : handled :=
    match r with
    | None => None
    | Some (x, outs, ok) => Some (if ok : bool then x else with_failed false x, outs)
    end in
  match m with
  | CopyData data =>
    if copyAborted (copy x) then stay x []
    else if negb (copyIn (copy x)) || negb (active x) then
      fail_with "08P01" "CopyData received outside COPY FROM STDIN" x
    else r ← handleCopyData copy_text data x; mret (recovered r)
  | m =>
    if copyAborted (copy x) then
      let c := copy x in
      stay (with_failed false (with_copy {| copyIn := copyIn c; copyTargets := copyTargets c;
        copyPlan := copyPlan c; copyStream := copyStream c; copyReplicated := copyReplicated c;
        copyAborted := false |} x)) []
    else if negb (copyIn (copy x)) || negb (active x) then
      fail_with "08P01" "COPY completion received outside COPY FROM STDIN" x
    else r ← handleCopyCompletion copy_text m x; mret (recovered r)
  end.

(** ** Bind *)

Definition statement_named (name : string) (x : xstate) : statementState :=
  default zero_statement (statements_of x !! name).
Definition portal_named (name : string) (x : xstate) : portalState := default zero_portal (portals x !! name).

(** The portal of a routed statement; fleet-wide DDL is not routed. *)
Definition bind_portal (env : environment) (x : xstate) (st : statementState)
    (decision : routeplan.routeDecision) : portalState :=
  let fleet := requiresFleetWriteOrder (st_sql st) (length (ShardNames env))
               && negb (referencesTemporaryDDL (temporary (base x)) (st_sql st)) in
  {| po_sql := st_sql st; po_schema := st_schema st;
     po_target := if fleet then "" else routeplan.target decision;
     po_routed := negb fleet && routeplan.routed decision; po_keyedWrite := routeplan.keyedWrite decision |}.

Definition set_portal (name : string) (po : portalState) (x : xstate) : xstate :=
  with_portals (<[name := po]> (portals x)) x.

(** The bound portal: it opens a pending request unless one is open or the
    statement controls a transaction. *)
Definition serve_portal (env : environment) (portal : string) (bound : BindMessage) (st : statementState)
    (po : portalState) (x : xstate) : X handled :=
  if bool_decide (pending x = None) && negb (isTransactionControl (st_sql st)) then
    stay (with_pending (Some {| pe_targets := targets_of env (po_target po) (po_routed po); pe_bind := bound;
            pe_describe := None; pe_execute := None; pe_portalName := portal; pe_portal := po;
            pe_statement := st |}) (set_portal portal po x)) []
  else
    '(outs, ok) ← handleBind env bound (po_target po) (po_routed po) st;
    stay (if ok : bool then set_portal portal po x else with_failed true x) outs.

Definition serve_bind (env : environment) (m : BindMessage) (x : xstate) : X handled :=
  let x := ensureSession x in
  if failed x then stay x [] else
  let st := statement_named (PreparedStatement m) x in
  match prepareBind scan_binary (NextGlobalID env) m st with
  | Err e => fail_with "55000" e x
  | Ok (bound, parameters) =>
    match routeplan.routePortal (policy_of env (srv x)) (routing st) ((λ v : option bytes, string_of <$> v) <$> parameters)
            (registry env) (ShardNames env) with
    | None => mret None
    | Some (decision, counter) =>
      let x := count_read counter x in
      if decide (routeplan.scatterError decision ≠ "") then fail_with "0A000" (routeplan.scatterError decision) x
      else if routeplan.keyedWrite decision && negb (routeplan.routed decision) then
        fail_with "0A000" keyed_error x
      else serve_portal env (DestinationPortal m) bound st (bind_portal env x st decision) x
    end
  end.

(** ** Describe, Execute and Close *)

(** [k] once no request is pending. *)
Definition after_flush (env : environment) (k : xstate → X handled) (x : xstate) : X handled :=
  match pending x with
  | None => k x
  | Some _ =>
    '(x, outs, ok) ← flushPendingExtended env false x;
    if ok : bool then
      r ← k x;
      mret (match r with None => None | Some (x, more) => Some (x, outs ++ more) end)
    else stay (with_failed true x) outs
  end.

Definition pending_portal (name : string) (x : xstate) : option pendingExtended :=
  match pending x with
  | Some p => if decide (pe_portalName p = name) then Some p else None
  | None => None
  end.
Definition set_describe (object : byte) (name : string) (p : pendingExtended) : pendingExtended := {|
  pe_targets := pe_targets p; pe_bind := pe_bind p; pe_describe := Some (object, name);
  pe_execute := pe_execute p; pe_portalName := pe_portalName p; pe_portal := pe_portal p;
  pe_statement := pe_statement p |}.
Definition set_execute (name : string) (maxRows : Z) (p : pendingExtended) : pendingExtended := {|
  pe_targets := pe_targets p; pe_bind := pe_bind p; pe_describe := pe_describe p;
  pe_execute := Some (name, maxRows); pe_portalName := pe_portalName p; pe_portal := pe_portal p;
  pe_statement := pe_statement p |}.

(** The parameter types a Burrow described are kept for later Parse messages. *)
Definition with_described (oids : list Z) (st : statementState) : statementState := {|
  st_sql := st_sql st; generated := generated st; st_schema := st_schema st; backendName := backendName st;
  parse := Some {| p_Name := p_Name (parse_of st); p_Query := p_Query (parse_of st); ParameterOIDs := oids |};
  routing := routing st |}.

Definition describe_statement (env : environment) (name : string) (x : xstate) : X handled :=
  match statements_of x !! name with
  | None => fail_with "26000" ("prepared statement " +:+ quote_message name +:+ " does not exist") x
  | Some st =>
    match ShardNames env with
    | [] => fail_with "08006" "no Burrows configured" x
    | target :: _ =>
      failure ← materializeStatement st [target];
      match failure with
      | Some o => stay (with_failed true x) [o]
      | None =>
        '(outs, ok, oids) ← handleDescribe env "S"%char (backendName st) (generated st) target true;
        stay (if negb ok then with_failed true x
              else if decide (oids = []) then x
              else with_statements (<[name := with_described oids st]> (statements_of x)) x) outs
      end
    end
  end.

Definition describe_portal (env : environment) (object : byte) (name : string) (x : xstate) : X handled :=
  let po := if decide (object = "P"%char) then portal_named name x else zero_portal in
  '(outs, ok, _) ← handleDescribe env object name false (po_target po) (po_routed po);
  stay (if ok : bool then x else with_failed true x) outs.

Definition serve_describe (env : environment) (object : byte) (name : string) (x : xstate) : X handled :=
  let x := ensureSession x in
  if failed x then stay x [] else
  match (if decide (object = "P"%char) then pending_portal name x else None) with
  | Some p => stay (with_pending (Some (set_describe object name p)) x) []
  | None =>
    after_flush env (if decide (object = "S"%char) then describe_statement env name
                     else describe_portal env object name) x
  end.

Definition serve_execute (env : environment) (portal : string) (maxRows : Z) (x : xstate) : X handled :=
  let x := ensureSession x in
  if failed x then stay x [] else
  match pending_portal portal x with
  | Some p => stay (with_pending (Some (set_execute portal maxRows p)) x) []
  | None => r ← handleExecute env portal maxRows (portal_named portal x) x; mret (checked r)
  end.

Definition close_object (env : environment) (object : byte) (name : string) (x : xstate) : X handled :=
  if decide (object = "S"%char) then
    stay (with_statements (delete name (statements_of x)) x) [send CloseComplete]
  else
    let po := portal_named name x in
    '(outs, ok) ← handleClose env object name (po_target po) (bool_decide (object = "P"%char) && po_routed po);
    stay (if ok : bool then with_portals (delete name (portals x)) x else with_failed true x) outs.
Definition serve_close (env : environment) (object : byte) (name : string) (x : xstate) : X handled :=
  let x := ensureSession x in
  if failed x then stay x [] else after_flush env (close_object env object name) x.

(** ** Sync and Flush *)

Definition serve_sync (env : environment) (x : xstate) : X handled :=
  let recovered (r : xstate * list xoutput * bool) : handled :=
    let '(x, outs, ok) := r in Some (if ok then with_failed false x else x, outs) in
  if negb (active x) then stay (with_failed false x) [ready x]
  else
    match pending x with
    | Some _ => r ← flushPendingExtended env true x; mret (recovered r)
    | None =>
      if syncConsumed x then stay (with_failed false (with_sync false x)) [ready x]
      else r ← handleSync env x; mret (recovered r)
    end.

Definition serve_flush (env : environment) (x : xstate) : X handled :=
  if active x && negb (bool_decide (pending x = None)) then
    r ← flushPendingExtended env false x; mret (checked r)
  else stay x [].

(** ** The loop *)

Definition serve_message (env : environment) (m : FrontendMessage) (x : xstate) : X handled :=
  match m with
  | Parse m => serve_parse env m x
  | Query text => serve_query env text x
  | Bind m => serve_bind env m x
  | Describe object name => serve_describe env object name x
  | Execute portal maxRows => serve_execute env portal maxRows x
  | Close object name => serve_close env object name x
  | Sync => serve_sync env x
  | Flush => serve_flush env x
  | CopyData _ | CopyDone | CopyFail _ => serve_copy m x
  | Terminate => stay x []
  | FunctionCall _ => stay x (of_output <$> sendError (sql_error "0A000"
      "unsupported PostgreSQL frontend message *pgproto3.FunctionCall"))
  | OtherFrontend kind => stay x (of_output <$> sendError (sql_error "0A000"
      ("unsupported PostgreSQL frontend message " +:+ kind)))
  end.

(** The release of the session's connections after a message. *)
Definition release_after (m : FrontendMessage) (x : xstate) : X (xstate * list xoutput) :=
  match m with
  | Sync | Query _ => if releasable x then record_event Released;; mret (release x, [XUnlockFleetWrites])
                      else mret (x, [])
  | _ => mret (x, [])
  end.

(** One iteration of the loop. *)
Definition serve_step (env : environment) (m : FrontendMessage) (x : xstate) : X handled :=
  let m := cloneFrontendMessage m in
  match schema_barrier env m x with
  | (x, Some outs) => stay x outs
  | (x, None) =>
    r ← serve_message env m x;
    match r with
    | None => mret None
    | Some (x, outs) => '(x, more) ← release_after m x; stay x (outs ++ more)
    end
  end.

Fixpoint serveQueries (messages : list (environment * FrontendMessage)) (x : xstate) : X handled :=
  match messages with
  | [] => stay x []
  | (_, Terminate) :: _ => stay x []
  | (env, m) :: messages =>
    r ← serve_step env m x;
    match r with
    | None => mret None
    | Some (x, outs) =>
      r ← serveQueries messages x;
      mret (match r with None => None | Some (x, more) => Some (x, outs ++ more) end)
    end
  end.
End loop.
End serve.
