(* ===== verification/Pipeline.v ===== *)
(** What the message loop guarantees for requests of the extended query
    protocol: the portals and the pending request of a session, who is
    contacted, what is answered. *)
From S2P Require Import Prelude.
From S2P Require Import GoStrings.
From S2P Require Import GoNumbers.
From S2P Require Import GoStd.
From S2P Require Import Schema.
From S2P Require Import ShardKey.
From S2P Require Import PgQuery.
From S2P Require Import Router.
From S2P Require Import RoutePlan.
From S2P Require Import CopyRouter.
From S2P Require Import Session.
From S2P Require Import FleetDdl.
From S2P Require Import Wire.
From S2P Require Import TwoPhase.
From S2P Require Import QueryHandler.
From S2P Require Import Fanout.
From S2P Require Import Statements.
From S2P Require Import PooledQuery.
From S2P Require Import Extended.
From S2P Require Import CopyHandlers.
From S2P Require Import Serve.

Module pipeline.
Import schema session fleetddl wire twophase queryhandler statements extended copyhandlers serve.

(** * Reasoning about runs *)

(** [m] only adds events in [P] to the history and returns a value in [Q]. *)
Definition does {A} (P : xevent → Prop) (Q : A → Prop) (m : X A) : Prop :=
  ∀ h, ∃ l, (m h).1 = h ++ l ∧ Forall P l ∧ Q (m h).2.

Lemma does_ret {A} P (Q : A → Prop) a : Q a → does P Q (mret a).
Proof. intros Ha h. exists []. rewrite app_nil_r. by split_and!. Qed.
Lemma does_bind {A B} P (Q1 : A → Prop) (Q : B → Prop) (m : X A) (k : A → X B) :
  does P Q1 m → (∀ a, Q1 a → does P Q (k a)) → does P Q (m ≫= k).
Proof.
  intros Hm Hk h. unfold mbind, X_bind. destruct (Hm h) as (l & E & Hl & Ha). destruct (m h) as [h' a]. cbn in E, Ha. subst h'.
  destruct (Hk a Ha (h ++ l)) as (l' & E & Hl' & Hb). exists (l ++ l'). rewrite E, app_assoc. split_and!; [done| |done].
  by apply Forall_app.
Qed.
Lemma does_then {A B} P (Q : B → Prop) (m : X A) (k : A → X B) :
  does P (λ _, True) m → (∀ a, does P Q (k a)) → does P Q (m ≫= k).
Proof. intros Hm Hk. by eapply does_bind. Qed.
Lemma does_impl {A} (P P' : xevent → Prop) (Q Q' : A → Prop) (m : X A) :
  does P Q m → (∀ e, P e → P' e) → (∀ a, Q a → Q' a) → does P' Q' m.
Proof.
  intros Hm HP HQ h. destruct (Hm h) as (l & E & Hl & Ha). exists l. split_and!; [done| |by apply HQ].
  by eapply Forall_impl.
Qed.
Lemma does_if {A} P (Q : A → Prop) (b : bool) (m1 m2 : X A) :
  does P Q m1 → does P Q m2 → does P Q (if b then m1 else m2).
Proof. by destruct b. Qed.
Lemma does_decide {A} {B C : Prop} P (Q : A → Prop) (d : {B} + {C}) (m1 m2 : X A) :
  does P Q m1 → does P Q m2 → does P Q (if d then m1 else m2).
Proof. by destruct d. Qed.
Lemma does_nothing {A} P (a : A) : does P (λ _, True) (mret a).
Proof. by apply does_ret. Qed.
Lemma does_record (P : xevent → Prop) e : P e → does P (λ _, True) (record_event e).
Proof. intros He h. exists [e]. by repeat constructor. Qed.
Lemma does_now P : does P (λ _, True) now.
Proof. intros h. exists []. by rewrite app_nil_r. Qed.
Lemma does_commands (P : xevent → Prop) {A} (m : _ → _ → M A) `{Connections} :
  (∀ e, P (Command e)) → does P (λ _, True) (run_commands m).
Proof.
  intros HP h. unfold run_commands. destruct (m _ _ []) as [events a]. exists (Command <$> events). split_and!; [done| |done].
  by apply Forall_fmap, Forall_true.
Qed.

(** The steps of a program whose events and value need no insight. *)
Create HintDb does.
#[export] Hint Resolve does_record does_now does_commands does_if does_decide does_nothing : does.
Ltac run_step :=
  match goal with
  | |- does _ _ (mret _) => apply does_ret
  | |- does _ _ (mbind _ ?m) =>
    first [ apply does_then; [solve [eauto with does] | intros] | eapply does_bind; [solve [eauto with does] | intros] ]
  | |- does _ _ (if ?b then _ else _) => destruct b eqn:?
  | |- does _ _ (match ?t with _ => _ end) => destruct t eqn:?
  | |- does _ _ (let '(_, _) := ?t in _) => destruct t eqn:?
  end.

(** * What a handler leaves unchanged *)

(** Handlers change neither the statements nor the portals. *)
Definition frame (x x' : xstate) : Prop :=
  active x' = active x ∧ statements_of x' = statements_of x ∧ portals x' = portals x ∧ pending x' = pending x.
(** Setting other fields keeps the frame. *)
Ltac framed := solve [reflexivity | repeat split].
#[export] Instance frame_preorder : PreOrder frame.
Proof. split; [intros x; by repeat split|]. intros x y z (?&?&?&?) (?&?&?&?). repeat split; congruence. Qed.

Definition anything (e : xevent) : Prop := True.
Lemma does_anything {A} P (Q : A → Prop) (m : X A) : does P Q m → does anything Q m.
Proof. intros Hm. by eapply does_impl. Qed.

(** A message that parses, binds or runs, and an event without one. *)
Definition requests (m : FrontendMessage) : bool :=
  match m with Parse _ | Bind _ | Execute _ _ => true | _ => false end.
Definition quiet (e : xevent) : Prop :=
  match e with Exchanged _ ms _ => existsb requests ms = false | _ => True end.

Section frames.
Context `{Floats} `{PgQuery} `{GoStd} `{Connections}.

Lemma x_exchange_does (P : xevent → Prop) ms targets :
  (∀ b r, b ∈ targets → P (Exchanged b ms r)) → does P (λ _, True) (x_exchange ms targets).
Proof.
  induction targets as [|b targets IH]; intros HP; cbn [x_exchange]; [by apply does_ret|].
  intros h. destruct (send_failure h b ms) as [e|].
  { eexists. split_and!; [done| |done]. constructor; [apply HP; by left | done]. }
  set (r := answer h b ms). assert (∀ b r, b ∈ targets → P (Exchanged b ms r)) as HP' by (intros; apply HP; by right).
  destruct (IH HP' (h ++ [Exchanged b ms r])) as (l & E & Hl & _). destruct (x_exchange _ _ _) as [h' replies]. cbn in E. subst h'.
  exists (Exchanged b ms r :: l). rewrite <- app_assoc. split_and!; [done| |done]. constructor; [apply HP; by left | done].
Qed.

Lemma handleExecute_frame env portal maxRows po x :
  does anything (λ r, frame x r.1.1) (handleExecute env portal maxRows po x).
Proof.
  assert (∀ ms targets, does anything (λ _, True) (x_exchange ms targets)) as Hx by (intros; by apply x_exchange_does).
  assert (∀ e, anything e) as Hany by done.
  unfold handleExecute, execute_commit, execute_on.
  repeat (cbv zeta; run_step); done.
Qed.

Lemma receive_batches_does P name first a sent :
  (∀ b r, b ∈ sent.*1.*1 → P (Marked [b] r)) → does P (λ _, True) (receive_batches name first a sent).
Proof.
  revert first a. induction sent as [|[[b expected] r] sent IH]; intros first a HP; cbn [receive_batches]; [by apply does_ret|].
  destruct (flush_messages _ _ _ _) as [a' failure]. apply does_then.
  { apply does_if; [apply does_record, HP; by left | by apply does_ret]. }
  intros _. destruct failure; [by apply does_ret|]. destruct (broken r); [by apply does_ret|].
  apply IH. intros; apply HP. by right.
Qed.

(** Only the targets receive the batch, with or without the Parse. *)
Definition batch_event (st : statementState) (ms : list FrontendMessage) (targets : list string) (e : xevent) : Prop :=
  ∃ b r, b ∈ targets ∧ (e = Exchanged b ms r ∨ e = Exchanged b (Parse (parse_of st) :: ms) r).

Lemma send_batches_does st ms targets :
  does (batch_event st ms targets)
    (λ r, ∀ sent, r = Ok sent → sent.*1.*1 = targets) (send_batches st ms targets).
Proof.
  induction targets as [|b targets IH]; cbn [send_batches]; [by (apply does_ret; intros sent [= <-])|].
  intros h. destruct (connect_error h b) as [e|]; [exists []; rewrite app_nil_r; by (split_and!)|].
  set (missing := _ && _). set (ms' := if missing then _ else _).
  assert (∀ r, batch_event st ms (b :: targets) (Exchanged b ms' r)) as Hb.
  { intros r. exists b, r. split; [by left|]. subst ms'. destruct missing; [by right | by left]. }
  destruct (write_error h b ms') as [e|]; [exists [Exchanged b ms' (unsent e)]; split_and!; [done | by constructor | done]|].
  set (r := answer h b ms'). destruct (IH (h ++ [Exchanged b ms' r])) as (l & E & Hl & Hs).
  destruct (send_batches st ms targets _) as [h' rest]. cbn in E, Hs. subst h'.
  exists (Exchanged b ms' r :: l). rewrite <- app_assoc. split_and!; [done| |].
  - constructor; [done|]. eapply Forall_impl; [exact Hl|]. intros e (b' & r' & Hin & He). exists b', r'. split; [by right | done].
  - intros sent. cbn. destruct rest as [rest|]; [|done]. intros [= <-]. cbn. f_equal. by apply Hs.
Qed.

Definition frame_flushed (x x' : xstate) : Prop :=
  active x' = active x ∧ statements_of x' = statements_of x ∧ portals x' = portals x ∧ pending x' = None.

Lemma run_batch_frame env policy p emitReady fleet atomicDDL x :
  pending x = None →
  does anything (λ r, frame_flushed x r.1.1) (run_batch env policy p emitReady fleet atomicDDL x).
Proof.
  intros Hp. assert (∀ e, anything e) as Hany by done.
  assert (∀ st ms targets, does anything (λ _, True) (send_batches st ms targets)) as Hs.
  { intros. eapply does_impl; [apply send_batches_does | done..]. }
  assert (∀ name first a sent, does anything (λ _, True) (receive_batches name first a sent)) as Hr.
  { intros. by apply receive_batches_does. }
  assert (∀ e pre x, pending x = None → frame_flushed x (fail_pending emitReady e pre x).1.1) as Hf by done.
  assert (∀ a x, pending x = None → frame_flushed x (finish_flush env policy p emitReady a x).1.1) as Hfin.
  { intros a x' Hx'. unfold finish_flush, refreshSchemaAfterDDL. cbv zeta. destruct (_ && _ && _); [destruct (refresh env)|]; by destruct emitReady. }
  unfold run_batch. repeat (cbv zeta; run_step); cbn [fst]; eauto.
  - eapply does_bind with (Q1 := λ r, frame_flushed x r.1.1); [|intros [[x' outs] ok] Hx; by apply does_ret].
    repeat (cbv zeta; run_step); cbn [fst]; eauto.
  - eapply does_then; [|intros; apply does_ret; by apply Hfin]. repeat (cbv zeta; run_step); done.
Qed.

Lemma flush_frame env emitReady x :
  does anything (λ r, frame_flushed x r.1.1 ∨ r.1.1 = x ∧ pending x = None) (flushPendingExtended env emitReady x).
Proof.
  assert (∀ e, anything e) as Hany by done.
  assert (∀ policy p fleet atomicDDL x', frame_flushed x x' →
    does anything (λ r, frame_flushed x r.1.1 ∨ r.1.1 = x ∧ pending x = None)
      (run_batch env policy p emitReady fleet atomicDDL x')) as Hb.
  { intros policy p fleet atomicDDL x' Hx. eapply does_impl; [apply run_batch_frame, Hx | done|]. intros r Hr. left.
    destruct Hx as (?&?&?&?), Hr as (?&?&?&?). repeat split; congruence. }
  unfold flushPendingExtended. repeat (cbv zeta; run_step); cbn [fst]; auto; try (left; done); by apply Hb.
Qed.

Lemma any e : anything e.
Proof. done. Qed.

Lemma SendCopyTo_does names m : requests m = false → does quiet (λ _, True) (SendCopyTo names m).
Proof.
  intros Hm. unfold SendCopyTo. apply does_then; [apply does_now|]. intros h0. destruct (filter _ names); [|by apply does_ret].
  induction names as [|n names IH]; cbn [send_each]; [by apply does_ret|]. intros h.
  assert (∀ r, quiet (Exchanged n [m] r)) as Hq by (intros r; cbn; by rewrite Hm).
  destruct (write_error h n [m]); [by eexists; repeat constructor|].
  edestruct IH as (l & E & Hl & _). eexists (_ :: l). cbn [fst]. rewrite E, <- app_assoc. by repeat constructor.
Qed.
Lemma receive_does name : does quiet (λ _, True) (receive name).
Proof. intros h. by eexists; repeat constructor. Qed.
Lemma exchange_quiet ms targets : existsb requests ms = false → does quiet (λ _, True) (x_exchange ms targets).
Proof. intros Hms. by apply x_exchange_does. Qed.
Lemma commands_quiet {A} (m : _ → _ → M A) : does quiet (λ _, True) (run_commands m).
Proof. by apply does_commands. Qed.
Hint Resolve any SendCopyTo_does receive_does commands_quiet : does.
Hint Extern 1 (existsb requests _ = false) => reflexivity : does.
Hint Extern 1 (requests _ = false) => (reflexivity || assumption) : does.
Hint Resolve exchange_quiet : does.

Lemma ReceiveUntilFromMany_does names : does quiet (λ _, True) (ReceiveUntilFromMany names).
Proof. induction names as [|n names IH]; cbn [ReceiveUntilFromMany]; repeat run_step; done. Qed.
Lemma sendCopyChunks_does targets chunks : does quiet (λ _, True) (sendCopyChunks targets chunks).
Proof.
  unfold sendCopyChunks. induction targets as [|n targets IH]; cbn [send_chunks]; repeat run_step; try done.
  all: by destruct (decide _); repeat run_step.
Qed.
Hint Resolve ReceiveUntilFromMany_does sendCopyChunks_does : does.

(** A COPY handler keeps the frame. *)
Definition copy_frame (x : xstate) (r : copied) : Prop := ∀ x' outs ok, r = Some (x', outs, ok) → frame x x'.
Lemma copy_frame_some x x' outs ok : frame x x' → copy_frame x (Some (x', outs, ok)).
Proof. intros Hx ? ? ? [= <- _ _]. done. Qed.
Lemma copy_frame_none x : copy_frame x None.
Proof. done. Qed.
Lemma record_copy_frame targets x : frame x (record_copy targets x).
Proof. by unfold record_copy; destruct (transaction _). Qed.

Lemma abort_frame code cause x : does quiet (λ r, frame x r.1) (abortCopy code cause x).
Proof. unfold abortCopy. repeat run_step. done. Qed.
Lemma handleCopyData_frame copy_text data x : does quiet (copy_frame x) (handleCopyData copy_text data x).
Proof.
  assert (∀ x' code cause, frame x x' → does quiet (copy_frame x) (abort_with code cause x')) as Ha.
  { intros x' code cause Hx. eapply does_bind; [apply abort_frame|]. intros [x2 outs] Hx2. apply does_ret, copy_frame_some.
    cbn in Hx2. by rewrite Hx. }
  unfold handleCopyData. repeat run_step; first [apply copy_frame_none | apply copy_frame_some; framed | apply Ha; framed].
Qed.
Lemma complete_copy_frame m targets sharded replicated rows x :
  requests m = false →
  does quiet (copy_frame x) (complete_copy m targets sharded replicated rows x).
Proof. intros Hm. unfold complete_copy, burrow_fails, copy_fails, copy_ends. cbv zeta. repeat run_step; apply copy_frame_some; framed. Qed.
Lemma handleCopyCompletion_frame copy_text m x :
  requests m = false → does quiet (copy_frame x) (handleCopyCompletion copy_text m x).
Proof.
  intros Hm. unfold handleCopyCompletion. cbv zeta. set (x1 := match m with CopyFail _ => _ | _ => x end).
  assert (frame x x1) as Hx by (subst x1; by destruct m).
  apply does_then. { unfold finish_stream. repeat run_step; done. }
  intros [[[]|[code cause]]|]; [| |apply does_ret, copy_frame_none].
  - eapply does_impl; [by apply complete_copy_frame | done|]. intros r Hr x' outs ok E.
    transitivity x1; [done|]. by apply (Hr _ _ _ E).
  - eapply does_bind; [apply abort_frame|]. intros [x' outs] Hx'. apply does_ret, copy_frame_some. cbn in Hx'. by rewrite Hx.
Qed.
Lemma copy_out_frame copy_text plan count index targets tags sent x :
  does quiet (copy_frame x) (copy_out copy_text plan count index targets tags sent x).
Proof.
  revert index tags sent. induction targets as [|n targets IH]; intros index tags sent; cbn [copy_out].
  { apply does_ret, copy_frame_some; framed. }
  apply does_then; [apply receive_does|]. intros r. destruct (copy_out_messages _ _ _ _) as [c failure].
  unfold copy_ends. cbv zeta. repeat run_step; try first [apply IH | apply copy_frame_some; framed].
Qed.
Lemma handleServerSideCopy_frame env text plan x :
  does quiet (copy_frame x) (handleServerSideCopy env text plan x).
Proof.
  unfold handleServerSideCopy, copy_fails, copy_ends. cbv zeta. repeat run_step; apply copy_frame_some; first [apply record_copy_frame | framed | match goal with |- frame _ (if ?b then _ else _) => destruct b end; [apply record_copy_frame | framed]].
Qed.
Lemma handleCopyQuery_frame env copy_text text x :
  does quiet (copy_frame x) (handleCopyQuery env copy_text text x).
Proof.
  assert (∀ r x', copy_targets env text x = Some (r, x') → frame x x') as Ht.
  { intros r x'. unfold copy_targets. destruct (routeplan.routeSQL _ _ _ _) as [[[]|]|]; [|by intros [= _ <-] | done].
    by intros [= _ <-]. }
  assert (∀ plan targets sent x', frame x x' → does quiet (copy_frame x) (handleCopyOut copy_text targets plan sent x')) as Ho.
  { intros plan targets sent x' Hx'. eapply does_impl; [apply copy_out_frame | done|].
    intros r Hr x2 outs ok E. transitivity x'; [done|]. by apply (Hr _ _ _ E). }
  assert (∀ plan stream targets x', frame x x' → frame x (start_copy plan stream targets x')) as Hs.
  { intros plan stream targets x' Hx'. rewrite Hx'. unfold start_copy. rewrite <- record_copy_frame. done. }
  unfold handleCopyQuery, burrow_fails, copy_fails, copy_ends. cbv zeta.
  repeat first [apply handleServerSideCopy_frame | apply Ho | run_step];
    first [apply copy_frame_none | apply Hs | apply copy_frame_some | idtac]; try framed.
  all: try apply Hs; etrans; [exact (Ht _ _ eq_refl) | framed].
Qed.
End frames.

(** * The requests of a session *)

Section requests.
Context `{Floats} `{PgQuery} `{GoStd} `{MapOrder} `{Connections}.
Context (scan_binary : Z → bytes → option string) (runtimeParams : list (string * string))
  (copy_text : copyrouter.error → string).
Context (all : list string).

(** A keyed write is routed, unless it is fleet-wide DDL. *)
Definition portal_ok (po : portalState) : Prop :=
  po_keyedWrite po = true → po_routed po = true ∨ requiresFleetWriteOrder (po_sql po) (length all) = true.

(** What is parsed on the Burrows is what was analysed. *)
Definition coherent (st : statementState) : Prop :=
  routing st = router.Prepare (st_sql st) ∧ is_Some (parse st) ∧
  p_Query (parse_of st) = st_sql st ∧ p_Name (parse_of st) = backendName st.
(** Or the client named no statement it has prepared. *)
Definition statement_ok (st : statementState) : Prop := st = zero_statement ∨ coherent st.

Definition request_ok (p : pendingExtended) : Prop :=
  portal_ok (pe_portal p) ∧ statement_ok (pe_statement p) ∧
  pe_targets p = (if po_routed (pe_portal p) then [po_target (pe_portal p)] else all) ∧
  po_sql (pe_portal p) = st_sql (pe_statement p) ∧ isTransactionControl (st_sql (pe_statement p)) = false ∧
  PreparedStatement (pe_bind p) = backendName (pe_statement p).

Record session_ok (x : xstate) : Prop := {
  statements_ok : map_Forall (λ _, coherent) (statements_of x);
  portals_ok : map_Forall (λ _, portal_ok) (portals x);
  pending_ok : ∀ p, pending x = Some p → request_ok p;
}.
Definition handled_ok (r : handled) : Prop := ∀ x outs, r = Some (x, outs) → session_ok x.

Lemma handled_some x outs : session_ok x → handled_ok (Some (x, outs)).
Proof. by intros Hx ? ? [= <- _]. Qed.
Lemma handled_none : handled_ok None.
Proof. done. Qed.
Lemma stay_ok x outs : session_ok x → does anything handled_ok (stay x outs).
Proof. intros. by apply does_ret, handled_some. Qed.
Lemma fail_ok code message x : session_ok x → does anything handled_ok (fail_with code message x).
Proof. intros []. by apply stay_ok. Qed.
Lemma session_frame x x' : frame x x' → session_ok x → session_ok x'.
Proof. intros (?&Hs&Hp&Hq) []. split; [by rewrite Hs | by rewrite Hp | by rewrite Hq]. Qed.
Lemma session_flushed x x' : frame_flushed x x' → session_ok x → session_ok x'.
Proof. intros (?&Hs&Hp&Hq) []. split; [by rewrite Hs | by rewrite Hp | by rewrite Hq]. Qed.
Lemma copied_ok x r : session_ok x → copy_frame x r → handled_ok (without_result r).
Proof.
  intros Hx Hr x' outs. destruct r as [[[x2 o2] ok]|]; [|done]. intros [= <- _]. eapply session_frame; [by eapply Hr | done].
Qed.

(** A Burrow's answer is relayed and the state is kept or fails. *)
Lemma relayed_ok {A} (m : X A) (k : A → xstate * list xoutput) :
  does anything (λ _, True) m → (∀ a, session_ok (k a).1) → does anything handled_ok (a ← m; stay (k a).1 (k a).2).
Proof. intros Hm Hk. apply does_then; [done|]. intros a. by apply stay_ok. Qed.

Lemma x_exchange_any ms targets : does anything (λ _, True) (x_exchange ms targets).
Proof. by apply x_exchange_does. Qed.
Hint Resolve any x_exchange_any : does.

Lemma missing_on_does name targets : does anything (λ _, True) (missing_on name targets).
Proof. induction targets as [|n targets IH]; cbn [missing_on]; repeat run_step; done. Qed.
Lemma parse_missing_does m missing : does anything (λ _, True) (parse_missing m missing).
Proof. induction missing as [|n missing IH]; cbn [parse_missing]; repeat run_step; done. Qed.
Hint Resolve missing_on_does parse_missing_does : does.
Lemma materialize_does st targets : does anything (λ _, True) (materializeStatement st targets).
Proof. unfold materializeStatement. repeat run_step; done. Qed.
Hint Resolve materialize_does : does.
Lemma handleBind_does env m target routed st : does anything (λ _, True) (handleBind env m target routed st).
Proof. unfold handleBind. repeat run_step; done. Qed.
Lemma handleDescribe_does env object name g target routed : does anything (λ _, True) (handleDescribe env object name g target routed).
Proof. unfold handleDescribe. repeat run_step; done. Qed.
Lemma handleClose_does env object name target routed : does anything (λ _, True) (handleClose env object name target routed).
Proof. unfold handleClose. repeat run_step; done. Qed.

Lemma flush_ok env emitReady x :
  session_ok x → does anything (λ r, session_ok r.1.1) (flushPendingExtended env emitReady x).
Proof.
  intros Hx. eapply does_impl; [apply flush_frame | done|]. intros r [Hr|[-> _]]; [by eapply session_flushed | done].
Qed.

(** ** The messages *)

Lemma serve_parse_ok env m x : session_ok x → does anything handled_ok (serve_parse env m x).
Proof.
  intros Hx. unfold serve_parse. destruct (failed x); [by apply stay_ok|].
  destruct (prepareStatement _ _ _ _) as [st|e] eqn:Hst; [|by apply fail_ok].
  destruct (validateAtomicFleetDDL _ _ _ _); [|by apply fail_ok].
  destruct (routeplan.routePortal _ _ _ _ _) as [[d counter]|]; [|by apply does_ret]. cbv zeta.
  assert (session_ok (count_read counter x)) as Hc by (by destruct Hx).
  destruct (decide _); [by apply fail_ok|]. destruct (_ && _); [by apply fail_ok|]. apply stay_ok. destruct Hc as [Hs Hp Hq].
  split; [|done..]. apply map_Forall_insert_2; [|done].
  destruct (prepareStatement_coherent _ _ _ _ _ Hst) as (nz & r & oids & _ & _ & _ & Hr & _ & Hparse & _).
  unfold coherent, parse_of. rewrite Hparse. by split_and!.
Qed.

Lemma lookup_statement_ok name x : session_ok x → statement_ok (statement_named name x).
Proof.
  intros [Hs _ _]. unfold statement_named. destruct (statements_of x !! name) as [st|] eqn:E; [right; by eapply Hs | by left].
Qed.

Lemma bind_portal_ok env x st d :
  ShardNames env = all → (routeplan.keyedWrite d && negb (routeplan.routed d)) = false → portal_ok (bind_portal env x st d).
Proof.
  intros He Hd Hk. cbn in Hk |- *. rewrite Hk in Hd. cbn in Hd. apply negb_false_iff in Hd. rewrite Hd, He, andb_true_r.
  destruct (requiresFleetWriteOrder _ _); [by right|]. by left.
Qed.

Lemma serve_portal_ok env portal bound st po x :
  ShardNames env = all → session_ok x → statement_ok st → portal_ok po → po_sql po = st_sql st →
  PreparedStatement bound = backendName st →
  does anything handled_ok (serve_portal env portal bound st po x).
Proof.
  intros He Hx Hst Hpo Hsql Hb. unfold serve_portal.
  assert (session_ok (set_portal portal po x)) as Hset.
  { destruct Hx as [Hs Hp Hq]. split; [done| |done]. by apply map_Forall_insert_2. }
  destruct (_ && _) eqn:Hcond.
  - apply andb_true_iff in Hcond as [_ Hcontrol%negb_true_iff]. apply stay_ok. destruct Hset as [Hs Hp _]. split; [done..|].
    intros p [= <-]. unfold request_ok, targets_of. cbn. rewrite He. by split_and!.
  - apply does_then; [apply handleBind_does|]. intros [outs ok]. apply stay_ok. by destruct ok; [|destruct Hx].
Qed.

Lemma serve_bind_ok env m x :
  ShardNames env = all → session_ok x → does anything handled_ok (serve_bind scan_binary env m x).
Proof.
  intros He Hx. unfold serve_bind. cbv zeta.
  assert (session_ok (ensureSession x)) as Hx' by (by destruct Hx).
  destruct (failed _); [by apply stay_ok|].
  destruct (prepareBind _ _ _ _) as [[bound parameters]|e] eqn:Hb; [|by apply fail_ok].
  destruct (routeplan.routePortal _ _ _ _ _) as [[d counter]|]; [|by apply does_ret].
  assert (session_ok (count_read counter (ensureSession x))) as Hc by (by destruct Hx).
  destruct (decide _); [by apply fail_ok|]. destruct (_ && _) eqn:Hd; [by apply fail_ok|].
  apply serve_portal_ok; [done | done | by apply lookup_statement_ok | by apply bind_portal_ok | done|].
  by eapply prepareBind_statement.
Qed.

Lemma after_flush_ok env k x :
  session_ok x → (∀ x, session_ok x → does anything handled_ok (k x)) → does anything handled_ok (after_flush env k x).
Proof.
  intros Hx Hk. unfold after_flush. destruct (pending x) as [p|]; [|by apply Hk].
  eapply does_bind; [by apply flush_ok|]. intros [[x' outs] ok] Hx'. cbn in Hx'.
  destruct ok; [|apply stay_ok; by destruct Hx'].
  eapply does_bind; [by apply Hk|]. intros [[x2 more]|] Hr; apply does_ret; [|done]. apply handled_some. by eapply Hr.
Qed.

Lemma serve_describe_ok env object name x :
  session_ok x → does anything handled_ok (serve_describe env object name x).
Proof.
  intros Hx. unfold serve_describe. cbv zeta. assert (session_ok (ensureSession x)) as Hx' by (by destruct Hx).
  destruct (failed _); [by apply stay_ok|].
  destruct (if decide (object = "P"%char) then _ else _) as [p|] eqn:Hp.
  - apply stay_ok. destruct Hx' as [Hs Hpo Hq]. split; [done..|]. intros p' [= <-].
    assert (pending (ensureSession x) = Some p) as Hpend.
    { destruct (decide _); [|done]. unfold pending_portal in Hp. destruct (pending _); [|done]. by destruct (decide _); simplify_eq. }
    exact (Hq p Hpend).
  - apply after_flush_ok; [done|]. clear x Hx Hx' Hp. intros x Hx. destruct (decide _).
    + unfold describe_statement. destruct (statements_of x !! name) as [st|] eqn:Hst; [|by apply fail_ok].
      destruct (ShardNames env); [by apply fail_ok|]. apply does_then; [apply materialize_does|].
      intros [o|]; [apply stay_ok; by destruct Hx|]. apply does_then; [apply handleDescribe_does|].
      intros [[outs ok] oids]. apply stay_ok. destruct Hx as [Hs Hp Hq]. destruct ok; [|done]. cbn [negb].
      destruct (decide _); [done|]. split; [|done..]. apply map_Forall_insert_2; [|done].
      destruct (Hs _ _ Hst) as (?&?&?&?); by split_and!.
    + unfold describe_portal. cbv zeta. apply does_then; [apply handleDescribe_does|]. intros [[outs ok] oids].
      apply stay_ok. destruct ok; [done|]. by destruct Hx.
Qed.

Lemma serve_execute_ok env portal maxRows x :
  session_ok x → does anything handled_ok (serve_execute env portal maxRows x).
Proof.
  intros Hx. unfold serve_execute. cbv zeta. assert (session_ok (ensureSession x)) as Hx' by (by destruct Hx).
  destruct (failed _); [by apply stay_ok|]. unfold pending_portal. destruct (pending _) as [p|] eqn:Hp.
  1: destruct (decide _).
  { apply stay_ok. destruct Hx' as [Hs Hpo Hq]. split; [done..|]. intros p' [= <-]. exact (Hq p Hp). }
  all: eapply does_bind; [apply handleExecute_frame|]; intros [[x' outs] ok] Hf; apply does_ret, handled_some;
    apply (session_frame _ _ Hf) in Hx'; destruct ok; [done|]; by destruct Hx'.
Qed.

Lemma serve_close_ok env object name x :
  session_ok x → does anything handled_ok (serve_close env object name x).
Proof.
  intros Hx. unfold serve_close. cbv zeta. assert (session_ok (ensureSession x)) as Hx' by (by destruct Hx).
  destruct (failed _); [by apply stay_ok|]. apply after_flush_ok; [done|]. clear x Hx Hx'. intros x Hx.
  unfold close_object. destruct (decide _).
  - apply stay_ok. destruct Hx as [Hs Hp Hq]. split; [|done..]. by apply map_Forall_delete.
  - cbv zeta. apply does_then; [apply handleClose_does|]. intros [outs ok]. apply stay_ok.
    destruct Hx as [Hs Hp Hq]. destruct ok; [|done]. split; [done| |done]. by apply map_Forall_delete.
Qed.

Lemma handleSync_ok env x : session_ok x → does anything (λ r, session_ok r.1.1) (handleSync env x).
Proof.
  intros Hx. unfold handleSync. cbv zeta.
  assert (∀ x', frame x x' → session_ok x') as Hf by (intros; by eapply session_frame).
  unfold refreshSchemaAfterDDL. repeat run_step; cbn [fst]; apply Hf; framed.
Qed.
Lemma serve_sync_ok env x : session_ok x → does anything handled_ok (serve_sync env x).
Proof.
  intros Hx. unfold serve_sync. cbv zeta. destruct (negb _); [apply stay_ok; by destruct Hx|].
  assert (∀ r : xstate * list xoutput * bool, session_ok r.1.1 →
    handled_ok (let '(x, outs, ok) := r in Some (if ok then with_failed false x else x, outs))) as Hr.
  { intros [[x' outs] ok] Hx'. apply handled_some. cbn in Hx'. destruct ok; [|done]. by destruct Hx'. }
  destruct (pending x).
  - eapply does_bind; [by apply flush_ok|]. intros r ?. by apply does_ret, Hr.
  - destruct (syncConsumed x); [apply stay_ok; by destruct Hx|].
    eapply does_bind; [by apply handleSync_ok|]. intros r ?. by apply does_ret, Hr.
Qed.
Lemma serve_flush_ok env x : session_ok x → does anything handled_ok (serve_flush env x).
Proof.
  intros Hx. unfold serve_flush. destruct (_ && _); [|by apply stay_ok].
  eapply does_bind; [by apply flush_ok|]. intros [[x' outs] ok] Hx'. apply does_ret, handled_some. cbn in Hx'.
  destruct ok; [done|]. by destruct Hx'.
Qed.

Lemma serve_query_ok env text x : session_ok x → does anything handled_ok (serve_query runtimeParams copy_text env text x).
Proof.
  intros Hx. unfold serve_query. destruct (failed x); [by apply stay_ok|].
  assert (session_ok (ensureSession x)) as Hx' by (by destruct Hx).
  destruct (decide _).
  { eapply does_bind; [apply (does_anything quiet), handleCopyQuery_frame|]. intros r Hr. apply does_ret. by eapply copied_ok. }
  destruct (containsCopyStatement _); [by apply stay_ok|]. destruct (needs_session _ _ _ _).
  - cbv zeta. apply does_then; [eauto with does|]. intros [o|]; apply does_ret; [|done]. apply handled_some. by destruct Hx.
  - intros h. unfold pooled_query. destruct (pooledquery.handleQuery _ _ _ _ _) as [o|].
    + eexists. split_and!; [done | by apply Forall_true|]. apply handled_some. by destruct Hx.
    + exists []. rewrite app_nil_r. by split_and!.
Qed.
Lemma serve_copy_ok m x :
  requests m = false → session_ok x → does anything handled_ok (serve_copy copy_text m x).
Proof.
  intros Hm Hx. assert (∀ r : copied, copy_frame x r →
    handled_ok match r with None => None | Some (x, outs, ok) => Some (if ok : bool then x else with_failed false x, outs) end) as Hr.
  { intros [[[x' outs] ok]|] Hf; [|done]. apply handled_some. apply (session_frame x x') in Hx; [|by eapply Hf].
    destruct ok; [done|]. by destruct Hx. }
  assert (∀ c, session_ok (with_failed false (with_copy c x))) by (intros; by destruct Hx).
  unfold serve_copy. cbv zeta. destruct m; try discriminate Hm;
    (destruct (copyAborted _); [by apply stay_ok|]; destruct (_ || _); [by apply fail_ok|];
     eapply does_bind; [first [apply (does_anything quiet), handleCopyData_frame | apply (does_anything quiet), handleCopyCompletion_frame; reflexivity]|];
     intros r Hf; by apply does_ret, Hr).
Qed.

Lemma serve_step_ok env m x :
  ShardNames env = all → session_ok x →
  does anything handled_ok (serve_step scan_binary runtimeParams copy_text env m x).
Proof.
  intros He Hx. unfold serve_step. cbv zeta.
  assert (∀ x' o, schema_barrier env (cloneFrontendMessage m) x = (x', o) → session_ok x') as Hbarrier.
  { intros x' o. unfold schema_barrier, refreshSchemaAfterDDL. destruct (cloneFrontendMessage m); try (by intros [= <- _]).
    all: destruct (_ || _); [|by intros [= <- _]].
    all: destruct (refresh env); cbn [simple_query].
    all: try destruct (_ && _); intros [= <- _]; by destruct Hx. }
  destruct (schema_barrier _ _ _) as [x1 [outs|]]; [apply stay_ok; by eapply Hbarrier|].
  specialize (Hbarrier x1 None eq_refl).
  eapply does_bind with (Q1 := handled_ok).
  - destruct (cloneFrontendMessage m); cbn [serve_message]; auto using serve_parse_ok, serve_bind_ok, serve_describe_ok,
      serve_execute_ok, serve_close_ok, serve_sync_ok, serve_flush_ok, serve_query_ok, serve_copy_ok, stay_ok.
  - intros [[x2 outs]|] Hr; [|by apply does_ret]. assert (session_ok x2) as Hx2 by by eapply Hr.
    eapply does_bind with (Q1 := λ r, session_ok r.1); [|intros [x3 more] ?; by apply stay_ok].
    unfold release_after. destruct (cloneFrontendMessage m); try (by apply does_ret).
    all: destruct (releasable x2); [|by apply does_ret]; apply does_then; [eauto with does|]; intros; apply does_ret; by destruct Hx2.
Qed.

Lemma serveQueries_ok messages x :
  Forall (λ p, ShardNames p.1 = all) messages → session_ok x →
  does anything handled_ok (serveQueries scan_binary runtimeParams copy_text messages x).
Proof.
  revert x. induction messages as [|[env m] messages IH]; intros x Henv Hx; [by apply stay_ok|].
  apply Forall_cons in Henv as [He Henv].
  assert (does anything handled_ok (r ← serve_step scan_binary runtimeParams copy_text env m x;
    match r with None => mret None | Some (x, outs) =>
      r ← serveQueries scan_binary runtimeParams copy_text messages x;
      mret (match r with None => None | Some (x, more) => Some (x, outs ++ more) end) end)) as Hstep.
  { eapply does_bind; [by apply serve_step_ok|]. intros [[x' outs]|] Hr; [|by apply does_ret].
    eapply does_bind; [apply IH; [done|by eapply Hr]|].
    intros [[x2 more]|] Hr2; apply does_ret; [|done]. apply handled_some. by eapply Hr2. }
  destruct m; try exact Hstep. by apply stay_ok.
Qed.
End requests.
End pipeline.
