(* ===== verification/Traffic.v ===== *)
(** What a session sends its Burrows for requests of the extended query
    protocol: which messages, to whom, and how often a portal runs. *)
From S2P Require Import Prelude.
From S2P Require Import GoStrings.
From S2P Require Import GoNumbers.
From S2P Require Import GoStd.
From S2P Require Import Schema.
From S2P Require Import ShardKey.
From S2P Require Import PgQuery.
From S2P Require Import Router.
From S2P Require Import RoutePlan.
From S2P Require Import CopyRouter.
From S2P Require Import Session.
From S2P Require Import FleetDdl.
From S2P Require Import Wire.
From S2P Require Import TwoPhase.
From S2P Require Import QueryHandler.
From S2P Require Import Fanout.
From S2P Require Import Statements.
From S2P Require Import PooledQuery.
From S2P Require Import Extended.
From S2P Require Import CopyHandlers.
From S2P Require Import Serve.
From S2P Require Import Pipeline.

Module traffic.
Import schema session fleetddl wire twophase queryhandler statements extended copyhandlers serve pipeline.

(** * Executions *)

Definition is_execute (m : FrontendMessage) : bool := match m with Execute _ _ => true | _ => false end.
(** The requests that run a portal, with the Burrow that receives them. *)
Definition execution (e : xevent) : option (string * list FrontendMessage) :=
  match e with
  | Exchanged burrow ms _ => if existsb is_execute ms then Some (burrow, ms) else None
  | _ => None
  end.
Definition executions (l : list xevent) : list (string * list FrontendMessage) := omap execution l.
Definition runs_nothing (e : xevent) : Prop := execution e = None.

Lemma executions_execute l burrow ms : executions l = [(burrow, ms)] → existsb is_execute ms = true.
Proof.
  intros E. assert ((burrow, ms) ∈ executions l) as (e & _ & He)%list_elem_of_omap by (rewrite E; by left).
  destruct e; try done. cbn in He. by destruct (existsb _ _) eqn:?; simplify_eq.
Qed.
Lemma executions_app l1 l2 : executions (l1 ++ l2) = executions l1 ++ executions l2.
Proof. apply omap_app. Qed.
Lemma executions_none l : Forall runs_nothing l → executions l = [].
Proof. induction 1 as [|e l He Hl IH]; [done|]. unfold executions. cbn. unfold runs_nothing in He. by rewrite He. Qed.
Lemma executions_cons e l : (executions (e :: l)).*1 = (executions [e]).*1 ++ (executions l).*1.
Proof. change (e :: l) with ([e] ++ l). by rewrite executions_app, fmap_app. Qed.
Lemma executions_sublist b ms r l T :
  (executions l).*1 `sublist_of` T → (executions (Exchanged b ms r :: l)).*1 `sublist_of` b :: T.
Proof.
  intros Hl. rewrite executions_cons. unfold executions at 1. cbn. destruct (existsb _ _); cbn; [by apply sublist_skip | by apply sublist_cons].
Qed.

(** * Messages that run no portal *)

Lemma quiet_nothing e : quiet e → runs_nothing e.
Proof.
  destruct e as [|b ms r| | |]; try done. unfold runs_nothing. cbn. intros Hq.
  assert (existsb is_execute ms = false) as ->; [|done]. induction ms as [|m ms IH]; [done|]. cbn in Hq |- *.
  apply orb_false_iff in Hq as [H1 H2]. rewrite (IH H2). by destruct m.
Qed.

(** [m] adds events in [P], and runs portals on Burrows of [T], in order. *)
Definition emits {A} (P : xevent → Prop) (T : list string) (m : X A) : Prop :=
  ∀ h, ∃ l, (m h).1 = h ++ l ∧ Forall P l ∧ (executions l).*1 `sublist_of` T.

Definition silent (P : xevent → Prop) (e : xevent) : Prop := P e ∧ runs_nothing e.

Section emits.
Context {A B : Type} (P : xevent → Prop) (T : list string).
Lemma emits_silent (Q : A → Prop) (m : X A) : does (silent P) Q m → emits P T m.
Proof.
  intros Hm h. destruct (Hm h) as (l & E & Hl & _). exists l. apply Forall_and in Hl as [? ?]. split_and!; [done..|].
  rewrite executions_none by done. apply sublist_nil_l.
Qed.
Lemma emits_ret (a : A) : emits P T (mret a).
Proof. apply (emits_silent (λ _, True)). by apply does_ret. Qed.
Lemma emits_after (Q : A → Prop) (m : X A) (k : A → X B) :
  does (silent P) Q m → (∀ a, Q a → emits P T (k a)) → emits P T (m ≫= k).
Proof.
  intros Hm Hk h. unfold mbind, X_bind. destruct (Hm h) as (l & E & Hl & Ha). destruct (m h) as [h' a]. cbn in E, Ha. subst h'.
  destruct (Hk a Ha (h ++ l)) as (l' & E & Hl' & Hb). exists (l ++ l'). apply Forall_and in Hl as [? ?].
  rewrite E, app_assoc. split_and!; [done | by apply Forall_app|]. by rewrite executions_app, executions_none.
Qed.
Lemma emits_before (m : X A) (k : A → X B) :
  emits P T m → (∀ a, does (silent P) (λ _, True) (k a)) → emits P T (m ≫= k).
Proof.
  intros Hm Hk h. unfold mbind, X_bind. destruct (Hm h) as (l & E & Hl & Ha). destruct (m h) as [h' a]. cbn in E. subst h'.
  destruct (Hk a (h ++ l)) as (l' & E & Hl' & Hb). exists (l ++ l'). apply Forall_and in Hl' as [? ?].
  rewrite E, app_assoc. split_and!; [done | by apply Forall_app|]. by rewrite executions_app, (executions_none l'), app_nil_r.
Qed.
End emits.

Lemma silent_quiet (P : xevent → Prop) e : (∀ e, quiet e → P e) → quiet e → silent P e.
Proof. intros HP He. split; [by apply HP | by apply quiet_nothing]. Qed.
Lemma does_silent {A} (P : xevent → Prop) (Q : A → Prop) (m : X A) :
  (∀ e, quiet e → P e) → does quiet Q m → does (silent P) Q m.
Proof. intros HP Hm. eapply does_impl; [exact Hm | | done]. intros e. by apply silent_quiet. Qed.

Section quiet.
Context `{Floats} `{PgQuery} `{GoStd} `{MapOrder} `{Connections}.
Context (scan_binary : Z → bytes → option string) (runtimeParams : list (string * string))
  (copy_text : copyrouter.error → string) (env : environment).

Lemma record_quiet e : quiet e → does quiet (λ _, True) (record_event e).
Proof. apply does_record. Qed.
Lemma receive_batches_quiet name first a sent : does quiet (λ _, True) (receive_batches name first a sent).
Proof. by apply receive_batches_does. Qed.
Lemma handleSync_quiet x : does quiet (λ _, True) (handleSync env x).
Proof.
  assert (∀ targets, does quiet (λ _, True) (x_exchange [Sync; Flush] targets)) as Hx by (intros; by apply exchange_quiet).
  unfold handleSync, refreshSchemaAfterDDL. cbv zeta. repeat run_step; done.
Qed.
Lemma handleDescribe_quiet object name g target routed : does quiet (λ _, True) (handleDescribe env object name g target routed).
Proof. unfold handleDescribe. apply does_then; [by apply exchange_quiet|]. intros r. by apply does_ret. Qed.
Lemma handleClose_quiet object name target routed : does quiet (λ _, True) (handleClose env object name target routed).
Proof. unfold handleClose. apply does_then; [by apply exchange_quiet|]. intros r. by apply does_ret. Qed.
Lemma release_quiet m x : does quiet (λ _, True) (release_after m x).
Proof.
  unfold release_after. destruct m; try (by apply does_ret);
    (destruct (releasable x); [|by apply does_ret]; apply does_then; [by apply record_quiet|]; intros; by apply does_ret).
Qed.

End quiet.

(** * The events of a message *)

Section events.
Context `{Floats} `{PgQuery} `{GoStd} `{MapOrder} `{Connections}.
Context (scan_binary : Z → bytes → option string) (runtimeParams : list (string * string))
  (copy_text : copyrouter.error → string) (env : environment).

(** The Burrows of a portal, and those on which it is executed. *)
Definition portal_burrows (po : portalState) : list string :=
  if po_routed po then [po_target po] else ShardNames env.
Definition executed_burrows (po : portalState) : list string :=
  if po_routed po && negb (isTransactionControl (po_sql po)) then [po_target po] else ShardNames env.

(** What the handling of [m] in the session [x] may send: messages that parse,
    bind and run nothing; the batch of the pending request, to its Burrows; the
    Parse of a statement; the Bind that the client asked for, with the statement
    it named, to the Burrows of a portal with that statement's text; and the
    Execute that the client asked for, to the Burrows of the portal it named. *)
Inductive allowed (x : xstate) (m : FrontendMessage) : xevent → Prop :=
| allowed_quiet e : quiet e → allowed x m e
| allowed_pending p b ms r :
    pending x = Some p → b ∈ pe_targets p →
    ms = batch_of p ∨ ms = Parse (parse_of (pe_statement p)) :: batch_of p →
    allowed x m (Exchanged b ms r)
| allowed_parse name b r :
    allowed x m (Exchanged b [Parse (parse_of (statement_named name x)); Flush] r)
| allowed_bind client bound po b r :
    m = Bind client →
    PreparedStatement bound = backendName (statement_named (PreparedStatement client) x) →
    po_sql po = st_sql (statement_named (PreparedStatement client) x) → portal_ok (ShardNames env) po →
    b ∈ portal_burrows po → allowed x m (Exchanged b [Bind bound; Flush] r)
| allowed_execute name maxRows b r :
    m = Execute name maxRows → b ∈ executed_burrows (portal_named name x) →
    allowed x m (Exchanged b [Execute name maxRows; Flush] r).

(** The Burrows on which the handling of [m] may run a portal, each once. *)
Definition execution_burrows (x : xstate) (m : FrontendMessage) : list string :=
  match m with
  | Execute name _ =>
    match pending_portal name x with Some _ => [] | None => executed_burrows (portal_named name x) end
  | _ => match pending x with Some p => pe_targets p | None => [] end
  end.

Lemma allowed_frame x x' m e : frame x x' → allowed x' m e → allowed x m e.
Proof.
  intros (_ & Hs & Hp & Hq) [|p|text|client|text]; unfold statement_named, portal_named in *; rewrite ?Hs, ?Hp, ?Hq in *.
  - by apply allowed_quiet.
  - by eapply allowed_pending.
  - by apply (allowed_parse x m text).
  - by eapply allowed_bind.
  - by eapply allowed_execute.
Qed.

Lemma emits_impl {A} (P P' : xevent → Prop) T (m : X A) : (∀ e, P e → P' e) → emits P T m → emits P' T m.
Proof. intros HP Hm h. destruct (Hm h) as (l & E & Hl & HT). exists l. split_and!; [done| |done]. by eapply Forall_impl. Qed.

(** Each target is sent a message at most once, in order. *)
Lemma x_exchange_emits P ms targets :
  (∀ b r, b ∈ targets → P (Exchanged b ms r)) → emits P targets (x_exchange ms targets).
Proof.
  induction targets as [|b targets IH]; intros HP; cbn [x_exchange]; [apply emits_ret|]. intros h.
  assert (∀ r, P (Exchanged b ms r)) as Hb by (intros r; apply HP; by left).
  destruct (send_failure h b ms) as [e|].
  { eexists. split_and!; [done | by repeat constructor|]. apply executions_sublist, sublist_nil_l. }
  set (r := answer h b ms). assert (∀ b r, b ∈ targets → P (Exchanged b ms r)) as HP' by (intros; apply HP; by right).
  destruct (IH HP' (h ++ [Exchanged b ms r])) as (l & E & Hl & HT). destruct (x_exchange _ _ _) as [h' replies]. cbn in E. subst h'.
  exists (Exchanged b ms r :: l). rewrite <- app_assoc. split_and!; [done | by constructor|]. by apply executions_sublist.
Qed.
Lemma send_batches_emits P st ms targets :
  (∀ b r ms', b ∈ targets → ms' = ms ∨ ms' = Parse (parse_of st) :: ms → P (Exchanged b ms' r)) →
  emits P targets (send_batches st ms targets).
Proof.
  induction targets as [|b targets IH]; intros HP; cbn [send_batches]; [apply emits_ret|]. intros h.
  destruct (connect_error h b) as [e|]; [exists []; rewrite app_nil_r; by (split_and!; [..|apply sublist_nil_l])|].
  set (missing := _ && _). set (ms' := if missing then _ else _).
  assert (∀ r, P (Exchanged b ms' r)) as Hb by (intros r; apply HP; [by left | subst ms'; destruct missing; auto]).
  destruct (write_error h b ms') as [e|].
  { eexists. split_and!; [done | by repeat constructor|]. apply executions_sublist, sublist_nil_l. }
  set (r := answer h b ms'). unshelve epose proof (IH _ (h ++ [Exchanged b ms' r])) as (l & E & Hl & HT).
  { intros. apply HP; [by right | done]. }
  destruct (send_batches st ms targets _) as [h' rest]. cbn in E. subst h'.
  exists (Exchanged b ms' r :: l). rewrite <- app_assoc. split_and!; [done | by constructor|]. by apply executions_sublist.
Qed.

Section allow.
Context (P : xevent → Prop) (HP : ∀ e, quiet e → P e).

Lemma emits_quiet {A} T (Q : A → Prop) (m : X A) : does quiet Q m → emits P T m.
Proof. intros Hm. eapply emits_silent. by apply does_silent. Qed.
Lemma emits_quiet_after {A B} T (m : X A) (k : A → X B) :
  does quiet (λ _, True) m → (∀ a, emits P T (k a)) → emits P T (m ≫= k).
Proof. intros Hm Hk. eapply emits_after; [by apply does_silent | intros a _; apply Hk]. Qed.
Lemma emits_quiet_before {A B} T (m : X A) (k : A → X B) :
  emits P T m → (∀ a, does quiet (λ _, True) (k a)) → emits P T (m ≫= k).
Proof. intros Hm Hk. apply emits_before; [done|]. intros a. by apply does_silent. Qed.

Lemma run_batch_emits policy p emitReady fleet atomicDDL x :
  (∀ b r ms, b ∈ pe_targets p → ms = batch_of p ∨ ms = Parse (parse_of (pe_statement p)) :: batch_of p → P (Exchanged b ms r)) →
  emits P (pe_targets p) (run_batch env policy p emitReady fleet atomicDDL x).
Proof.
  intros Hp. unfold run_batch. cbv zeta.
  assert (∀ e (y : xstate), does quiet (λ _, True)
    ((if atomicDDL then run_commands (λ se rt, rollbackAtomicFleetDDL se rt (pe_targets p)) else mret tt);;
     mret (fail_pending emitReady (extended_error "08006" e)
       (if fleet && negb (transaction (base x)) then [XUnlockFleetWrites] else []) y))) as Hfail.
  { intros e y. apply does_then; [destruct atomicDDL; [by apply commands_quiet | by apply does_ret]|]. intros _. by apply does_ret. }
  apply emits_quiet_before; [by apply send_batches_emits; auto|]. intros [sent|e]; [|apply Hfail].
  apply does_then; [apply receive_batches_quiet|]. intros [a [e|]].
  { apply does_then; [apply Hfail|]. intros [[y o] ok]. by apply does_ret. }
  apply does_then; [|intros; by apply does_ret]. destruct atomicDDL; [|by apply does_ret].
  destruct (f_failed a); (apply does_then; [by apply commands_quiet|]; intros; by apply does_ret).
Qed.

Lemma flush_emits emitReady x :
  (∀ p b r ms, pending x = Some p → b ∈ pe_targets p →
     ms = batch_of p ∨ ms = Parse (parse_of (pe_statement p)) :: batch_of p → P (Exchanged b ms r)) →
  emits P (match pending x with Some p => pe_targets p | None => [] end) (flushPendingExtended env emitReady x).
Proof.
  intros Hp. unfold flushPendingExtended. destruct (pending x) as [p|]; [|apply emits_ret]. cbv zeta.
  assert (∀ b r ms, b ∈ pe_targets p → ms = batch_of p ∨ ms = Parse (parse_of (pe_statement p)) :: batch_of p →
    P (Exchanged b ms r)) as Hp' by (intros; by eapply Hp).
  destruct (pe_execute p); [|by apply run_batch_emits].
  destruct (validateAtomicFleetDDL _ _ _ _); [|apply emits_ret].
  apply emits_quiet_after; [destruct (_ && _); [by apply record_quiet | by apply does_ret]|]. intros _.
  destruct (_ && _ && _); [apply emits_ret|].
  apply emits_quiet_after; [destruct (_ && _); [by apply commands_quiet | by apply does_ret]|].
  intros [e|]; [apply emits_ret | by apply run_batch_emits].
Qed.

Lemma handleExecute_emits portal maxRows po x :
  (∀ b r, b ∈ executed_burrows po → P (Exchanged b [Execute portal maxRows; Flush] r)) →
  emits P (executed_burrows po) (handleExecute env portal maxRows po x).
Proof.
  intros Hp. unfold handleExecute. cbv zeta. destruct (commits_extended _ _ _).
  { unfold execute_commit. cbv zeta. apply emits_quiet_after; [by apply commands_quiet|].
    intros [e|]; [apply emits_ret|]. destruct (schemaDirty _); [|apply emits_ret].
    destruct (refreshSchemaAfterDDL _ _) as [v [message|]]; apply emits_ret. }
  destruct (_ && _); [apply emits_ret|]. fold (executed_burrows po).
  destruct (validateAtomicFleetDDL _ _ _ _) as [temporaryDDL|e]; [|apply emits_ret].
  apply emits_quiet_after; [destruct (_ && _); [by apply record_quiet | by apply does_ret]|]. intros _.
  destruct (_ && _); [apply emits_ret|]. unfold execute_on. cbv zeta.
  apply emits_quiet_after; [destruct (_ && _); [by apply commands_quiet | by apply does_ret]|].
  intros [e|]; [apply emits_ret|]. apply emits_quiet_before; [by apply x_exchange_emits|].
  intros r. repeat (run_step || (apply does_then; [destruct (negb _ && _); [by apply commands_quiet | by apply does_ret]|intros])); try done.
Qed.
End allow.
(** ** Bind *)

Lemma parse_missing_silent P m missing :
  (∀ b r, P (Exchanged b [Parse m; Flush] r)) → does (silent P) (λ _, True) (parse_missing m missing).
Proof.
  intros HP. induction missing as [|n missing IH]; cbn [parse_missing]; [by apply does_ret|].
  apply does_then; [by apply x_exchange_does|]. intros r. repeat run_step; try done; exact IH.
Qed.
Lemma missing_on_quiet name targets : does quiet (λ _, True) (missing_on name targets).
Proof.
  induction targets as [|n targets IH]; cbn [missing_on]; [by apply does_ret|]. apply does_then; [apply does_now|].
  intros h. destruct (connect_error h n); [by apply does_ret|]. apply does_then; [exact IH|]. intros r. by apply does_ret.
Qed.
Lemma materialize_silent (P : xevent → Prop) st targets :
  (∀ e, quiet e → P e) → (∀ b r, P (Exchanged b [Parse (parse_of st); Flush] r)) →
  does (silent P) (λ _, True) (materializeStatement st targets).
Proof.
  intros HP Hparse. unfold materializeStatement. apply does_then; [apply does_silent; [done | apply missing_on_quiet]|].
  intros [missing|e]; [|by apply does_ret]. apply does_then; [by apply parse_missing_silent|].
  intros [o|]; [by apply does_ret|]. apply does_then; [|intros; by apply does_ret].
  destruct (decide _); [by apply does_ret|]. apply does_silent; [done | by apply record_quiet].
Qed.
Lemma handleBind_silent (P : xevent → Prop) m target routed st :
  (∀ e, quiet e → P e) → (∀ b r, P (Exchanged b [Parse (parse_of st); Flush] r)) →
  (∀ b r, b ∈ targets_of env target routed → P (Exchanged b [Bind m; Flush] r)) →
  does (silent P) (λ _, True) (handleBind env m target routed st).
Proof.
  intros HP Hparse Hbind. unfold handleBind. apply does_then; [by apply materialize_silent|].
  intros [o|]; [by apply does_ret|]. apply does_then; [|intros; by apply does_ret].
  apply x_exchange_does. intros b r Hb. split; [by apply Hbind | done].
Qed.

(** ** The loop *)

Lemma after_flush_emits (P : xevent → Prop) k x :
  (∀ e, quiet e → P e) →
  (∀ p b r ms, pending x = Some p → b ∈ pe_targets p →
     ms = batch_of p ∨ ms = Parse (parse_of (pe_statement p)) :: batch_of p → P (Exchanged b ms r)) →
  (∀ x', statements_of x' = statements_of x → does (silent P) (λ _, True) (k x')) →
  emits P (match pending x with Some p => pe_targets p | None => [] end) (after_flush env k x).
Proof.
  intros HP Hp Hk. unfold after_flush. pose proof (flush_emits P HP false x Hp) as Hf.
  destruct (pending x) as [p|] eqn:Hpend; [|by eapply emits_silent, Hk].
  assert (does anything (λ r, statements_of r.1.1 = statements_of x) (flushPendingExtended env false x)) as Hs.
  { eapply does_impl; [apply flush_frame | done|]. intros r [(_&Hr&_)|[-> _]]; done. }
  intros h. destruct (Hf h) as (l & E & Hl & HT). destruct (Hs h) as (_ & _ & _ & Hs').
  unfold mbind, X_bind. destruct (flushPendingExtended env false x h) as [h1 [[x1 outs] ok]]. cbn in E, Hs'. subst h1.
  destruct ok; [|by exists l].
  destruct (Hk x1 Hs' (h ++ l)) as (l' & E & [? ?]%Forall_and & _). destruct (k x1 (h ++ l)) as [h2 r2]. cbn in E. subst h2.
  exists (l ++ l'). cbn. rewrite app_assoc. split_and!; [done | by apply Forall_app|].
  by rewrite executions_app, (executions_none l'), app_nil_r.
Qed.

Lemma serve_portal_emits x0 m portal bound st po x :
  statements_of x = statements_of x0 → pending x = pending x0 → st = statement_named (PreparedStatement m) x0 →
  PreparedStatement bound = backendName st → po_sql po = st_sql st → portal_ok (ShardNames env) po →
  does (silent (allowed x0 (Bind m))) (λ _, True) (serve_portal env portal bound st po x).
Proof.
  intros Hs Hp -> Hb Hsql Hpo. unfold serve_portal. destruct (_ && _); [by apply does_ret|].
  apply does_then; [|intros [outs ok]; by apply does_ret].
  apply handleBind_silent; [apply allowed_quiet | intros; apply allowed_parse|].
  intros b r Hin. by eapply allowed_bind.
Qed.

Lemma serve_bind_emits m x : does (silent (allowed x (Bind m))) (λ _, True) (serve_bind scan_binary env m x).
Proof.
  unfold serve_bind. cbv zeta. destruct (failed _); [by apply does_ret|].
  destruct (prepareBind _ _ _ _) as [[bound parameters]|e] eqn:Hb; [|by apply does_ret].
  destruct (routeplan.routePortal _ _ _ _ _) as [[d counter]|]; [|by apply does_ret].
  destruct (decide _); [by apply does_ret|]. destruct (_ && _) eqn:Hd; [by apply does_ret|].
  apply serve_portal_emits; [done..| | | by apply bind_portal_ok]; [by eapply prepareBind_statement | done].
Qed.

Lemma serve_message_emits m x :
  emits (allowed x m) (execution_burrows x m) (serve_message scan_binary runtimeParams copy_text env m x).
Proof.
  assert (∀ e, quiet e → allowed x m e) as HP by apply allowed_quiet.
  assert (∀ p b r ms, pending x = Some p → b ∈ pe_targets p →
     ms = batch_of p ∨ ms = Parse (parse_of (pe_statement p)) :: batch_of p → allowed x m (Exchanged b ms r)) as Hpend
    by (intros; by eapply allowed_pending).
  assert (∀ T {A} (c : X A) (k : A → handled), does quiet (λ _, True) c → emits (allowed x m) T (r ← c; mret (k r))) as Hq.
  { intros T A c k Hc. apply emits_quiet_after; [done..|]. intros a. apply emits_ret. }
  destruct m as [m|m|object name|name rows|object name| | | |text|data| |text|args|kind]; cbn [serve_message]; try apply emits_ret.
  - unfold serve_parse. destruct (failed x); [apply emits_ret|]. destruct (prepareStatement _ _ _ _); [|apply emits_ret].
    destruct (validateAtomicFleetDDL _ _ _ _); [|apply emits_ret].
    destruct (routeplan.routePortal _ _ _ _ _) as [[d counter]|]; [|apply emits_ret]. cbv zeta.
    destruct (decide _); [apply emits_ret|]. destruct (_ && _); apply emits_ret.
  - eapply emits_silent, serve_bind_emits.
  - unfold serve_describe. cbv zeta. destruct (failed _); [apply emits_ret|].
    destruct (if decide (object = "P"%char) then _ else _); [apply emits_ret|].
    apply (after_flush_emits _ _ (ensureSession x)); [done..|]. intros x' Hx'. destruct (decide _).
    + unfold describe_statement. destruct (statements_of x' !! name) as [st|] eqn:Hst; [|by apply does_ret].
      destruct (ShardNames env) as [|target names]; [by apply does_ret|]. apply does_then.
      { apply materialize_silent; [done|]. intros b r. rewrite Hx' in Hst. cbn in Hst.
        assert (st = statement_named name x) as -> by (unfold statement_named; by rewrite Hst). apply allowed_parse. }
      intros [o|]; [by apply does_ret|]. apply does_then; [apply does_silent; [done | by apply handleDescribe_quiet]|].
      intros [[outs ok] oids]. by apply does_ret.
    + unfold describe_portal. cbv zeta. apply does_then; [apply does_silent; [done | by apply handleDescribe_quiet]|].
      intros [[outs ok] oids]. by apply does_ret.
  - unfold serve_execute, execution_burrows. cbv zeta. destruct (failed _); [apply emits_ret|].
    change (pending_portal name (ensureSession x)) with (pending_portal name x).
    destruct (pending_portal name x); [apply emits_ret|]. change (portal_named name (ensureSession x)) with (portal_named name x).
    apply emits_quiet_before; [done| |intros; by apply does_ret]. apply handleExecute_emits; [done|].
    intros b r Hb. by apply allowed_execute.
  - unfold serve_close. cbv zeta. destruct (failed _); [apply emits_ret|].
    apply (after_flush_emits _ _ (ensureSession x)); [done..|]. intros x' _. unfold close_object.
    destruct (decide _); [by apply does_ret|]. cbv zeta.
    apply does_then; [apply does_silent; [done | by apply handleClose_quiet]|]. intros [outs ok]. by apply does_ret.
  - unfold serve_sync. cbv zeta. destruct (negb _); [apply emits_ret|]. cbn [execution_burrows].
    pose proof (flush_emits _ HP true x Hpend) as Hf. destruct (pending x).
    + apply emits_quiet_before; [done..|]. intros r. by apply does_ret.
    + destruct (syncConsumed x); [apply emits_ret|]. apply Hq. by apply handleSync_quiet.
  - unfold serve_flush. cbn [execution_burrows]. destruct (_ && _); [|apply emits_ret].
    apply emits_quiet_before; [done| by apply flush_emits|]. intros r. by apply does_ret.
  - unfold serve_query. destruct (failed x); [apply emits_ret|]. destruct (decide _).
    { apply Hq. eapply does_impl; [apply handleCopyQuery_frame | done..]. }
    destruct (containsCopyStatement _); [apply emits_ret|]. destruct (needs_session _ _ _ _).
    + cbv zeta. apply Hq. by apply commands_quiet.
    + unfold pooled_query. eapply emits_quiet with (Q := λ _, True); [done|]. intros h.
      destruct (pooledquery.handleQuery _ _ _ _ _) as [o|].
      * eexists. split_and!; [done | | done]. by apply Forall_fmap, Forall_true.
      * exists []. by rewrite app_nil_r.
  - unfold serve_copy. cbv zeta. destruct (copyAborted _); [apply emits_ret|]. destruct (_ || _); [apply emits_ret|].
    apply Hq. eapply does_impl; [apply handleCopyData_frame | done..].
  - unfold serve_copy. cbv zeta. destruct (copyAborted _); [apply emits_ret|]. destruct (_ || _); [apply emits_ret|].
    apply Hq. eapply does_impl; [by apply handleCopyCompletion_frame | done..].
  - unfold serve_copy. cbv zeta. destruct (copyAborted _); [apply emits_ret|]. destruct (_ || _); [apply emits_ret|].
    apply Hq. eapply does_impl; [by apply handleCopyCompletion_frame | done..].
Qed.

Lemma serve_step_emits m x :
  emits (allowed x (cloneFrontendMessage m)) (execution_burrows x (cloneFrontendMessage m))
    (serve_step scan_binary runtimeParams copy_text env m x).
Proof.
  unfold serve_step. cbv zeta. generalize (cloneFrontendMessage m). clear m. intros m.
  destruct (schema_barrier env m x) as [x1 [outs|]] eqn:Hb; [apply emits_ret|].
  assert (frame x x1) as Hx.
  { revert Hb. unfold schema_barrier, refreshSchemaAfterDDL. destruct m; try (intros [= <-]; framed).
    all: destruct (_ || _); [|intros [= <-]; framed].
    all: destruct (refresh env); cbn [simple_query]; try destruct (_ && _); intros [= <-]; framed. }
  assert (execution_burrows x1 m = execution_burrows x m) as <-.
  { destruct Hx as (_ & _ & Hp & Hq). unfold execution_burrows, pending_portal, portal_named. by rewrite Hp, Hq. }
  apply emits_before; [eapply emits_impl, serve_message_emits; intros e; by apply allowed_frame|].
  intros [[x2 outs]|]; [|by apply does_ret].
  apply does_then; [|intros [x3 more]; by apply does_ret].
  apply does_silent; [apply allowed_quiet | by apply release_quiet].
Qed.
End events.
End traffic.
