(* ===== verification/Requests.v ===== *)
(** Requests of the extended query protocol: where they run, what the client
    is answered, and what pipelining loses. *)
From S2P Require Import Prelude.
From S2P Require Import GoStrings.
From S2P Require Import GoNumbers.
From S2P Require Import GoStd.
From S2P Require Import Schema.
From S2P Require Import ShardKey.
From S2P Require Import PgQuery.
From S2P Require Import Router.
From S2P Require Import RoutePlan.
From S2P Require Import CopyRouter.
From S2P Require Import Session.
From S2P Require Import FleetDdl.
From S2P Require Import Wire.
From S2P Require Import TwoPhase.
From S2P Require Import QueryHandler.
From S2P Require Import Fanout.
From S2P Require Import Statements.
From S2P Require Import PooledQuery.
From S2P Require Import Extended.
From S2P Require Import CopyHandlers.
From S2P Require Import Serve.
From S2P Require Import Pipeline.
From S2P Require Import Traffic.

Module requests.
Import schema session fleetddl wire twophase queryhandler statements extended copyhandlers serve pipeline traffic.

(** * Where statements run *)

Section owner.
Context `{Floats} `{PgQuery} `{GoStd} `{MapOrder} `{Connections}.
Context (scan_binary : Z → bytes → option string) (runtimeParams : list (string * string))
  (copy_text : copyrouter.error → string).
Context (env : environment).





(** ** The barrier *)

Lemma barrier_keeps m x x' o :
  schema_barrier env m x = (x', o) →
  frame x x' ∧ (o = None → failed x' = failed x) ∧ (simple_query m = false → is_Some o → failed x' = true).
Proof.
  unfold schema_barrier, refreshSchemaAfterDDL. destruct m;
    try (intros [= <- <-]; split_and!; [framed | done | by intros _ []]).
  all: destruct (_ || _); [|intros [= <- <-]; split_and!; [framed | done | by intros _ []]].
  all: destruct (refresh env); cbn [simple_query]; try destruct (_ && _);
    intros [= <- <-]; split_and!; try framed; try done; by intros _ [].
Qed.

(** A message that is not a simple query: the barrier fails the session, or the
    message is handled. *)
Lemma serve_step_does (P : xevent → Prop) Q m x :
  (∀ text, cloneFrontendMessage m ≠ Query text) → cloneFrontendMessage m ≠ Sync →
  (∀ x', frame x x' → failed x' = true → Q x') →
  (∀ x', frame x x' → failed x' = failed x →
     does P (λ r : handled, ∀ x2 outs, r = Some (x2, outs) → Q x2)
       (serve_message scan_binary runtimeParams copy_text env (cloneFrontendMessage m) x')) →
  does P (λ r : handled, ∀ x2 outs, r = Some (x2, outs) → Q x2) (serve_step scan_binary runtimeParams copy_text env m x).
Proof.
  intros Hq Hs Hfail Hserve. unfold serve_step. cbv zeta.
  destruct (schema_barrier _ _ _) as [x1 o] eqn:Hb. destruct (barrier_keeps _ _ _ _ Hb) as (Hx1 & Hnone & Hsome).
  assert (simple_query (cloneFrontendMessage m) = false) as Hsimple.
  { destruct (cloneFrontendMessage m) eqn:E; try done. by destruct (Hq text). }
  destruct o as [outs|].
  { apply does_ret. intros x2 o2 [= <- _]. apply Hfail; [done|]. by apply Hsome; [|eexists]. }
  eapply does_bind; [apply Hserve; [done | by apply Hnone]|]. intros [[x2 outs]|] Hr; [|by apply does_ret].
  assert (∀ r : xstate * list xoutput, r = (x2, []) →
    does P (λ r : handled, ∀ x3 o, r = Some (x3, o) → Q x3) ('(x, more) ← mret r; stay x (outs ++ more))) as Hstay.
  { intros r ->. apply does_bind with (Q1 := λ r, r = (x2, [])); [by apply does_ret|].
    intros [x3 more] [= -> ->]. apply does_ret. intros x4 o [= <- _]. by eapply Hr. }
  unfold release_after. destruct (cloneFrontendMessage m) eqn:E; try (by apply Hstay); [done|].
  by destruct (Hq text).
Qed.

(** ** Bind, Execute, Sync *)

Context (m : BindMessage) (st : statementState) (tree : message).
Hypothesis Hkeyword : firstSQLKeyword (st_sql st) ∈ write_keywords.
Hypothesis Htree : PgQuery.Parse (st_sql st) = Some tree.
Hypothesis Hdml : routeplan.dml_statement tree.
Hypothesis Hsharded : IsSharded (registry env) (router.Table (router.plan (router.prepare_tree tree))) = true.
Hypothesis Hrouting : routing st = Some (router.prepare_tree tree).












End owner.

(** * Pipelined requests *)

Section pipelined.
Context `{Floats} `{PgQuery} `{GoStd} `{MapOrder} `{Connections}.
Context (scan_binary : Z → bytes → option string) (runtimeParams : list (string * string))
  (copy_text : copyrouter.error → string).
Context (env : environment).

Lemma parse_missing_nothing m missing : does runs_nothing (λ _, True) (parse_missing m missing).
Proof.
  induction missing as [|n missing IH]; cbn [parse_missing]; [by apply does_ret|].
  apply does_then; [by apply x_exchange_does|]. intros r. repeat run_step; try done; exact IH.
Qed.
Lemma missing_on_nothing name targets : does runs_nothing (λ _, True) (missing_on name targets).
Proof.
  induction targets as [|n targets IH]; cbn [missing_on]; [by apply does_ret|]. apply does_then; [apply does_now|].
  intros h. destruct (connect_error h n); [by apply does_ret|]. apply does_then; [exact IH|]. intros r. by apply does_ret.
Qed.
Lemma handleBind_nothing m target routed st : does runs_nothing (λ _, True) (handleBind env m target routed st).
Proof.
  unfold handleBind, materializeStatement. apply does_then.
  - apply does_then; [apply missing_on_nothing|]. intros [missing|e]; [|by apply does_ret].
    apply does_then; [apply parse_missing_nothing|]. intros [o|]; [by apply does_ret|]. apply does_then; [|intros; by apply does_ret].
    destruct (decide _); [by apply does_ret | by apply does_record].
  - intros [o|]; [by apply does_ret|]. apply does_then; [by apply x_exchange_does|]. intros r. by apply does_ret.
Qed.

(** A second Bind keeps the pending request. *)
Lemma serve_bind_pending p m x :
  pending x = Some p →
  does runs_nothing (λ r : handled, ∀ x2 outs, r = Some (x2, outs) → pending x2 = Some p)
    (serve_step scan_binary runtimeParams copy_text env (Bind m) x).
Proof.
  intros Hp. apply serve_step_does; [done | done | intros x' (_&_&_&Hx') _; by rewrite Hx'|].
  intros x' (_&_&_&Hx') _. rewrite Hp in Hx'. cbn [cloneFrontendMessage serve_message]. unfold serve_bind. cbv zeta.
  assert (∀ (o : option (xstate * list xoutput)), (∀ x2 outs, o = Some (x2, outs) → pending x2 = Some p) →
    does runs_nothing (λ r : handled, ∀ x2 outs, r = Some (x2, outs) → pending x2 = Some p) (mret o)) as Hret by (intros; by apply does_ret).
  destruct (failed _); [apply Hret; by intros ? ? [= <- _]|].
  destruct (prepareBind _ _ _ _) as [[bound parameters]|e]; [|apply Hret; by intros ? ? [= <- _]].
  destruct (routeplan.routePortal _ _ _ _ _) as [[d counter]|]; [|by apply Hret].
  destruct (decide _); [apply Hret; by intros ? ? [= <- _]|].
  destruct (_ && _); [apply Hret; by intros ? ? [= <- _]|].
  unfold serve_portal. cbn [pending count_read with_srv ensureSession with_active]. rewrite Hx'.
  rewrite bool_decide_eq_false_2 by done. cbn [andb]. apply does_then; [apply handleBind_nothing|].
  intros [outs ok]. apply Hret. intros x2 o [= <- _]. by destruct ok.
Qed.

Lemma serve_execute_pending p portal maxRows x :
  pending x = Some p → pe_portalName p = portal →
  does runs_nothing (λ r : handled, ∀ x2 outs, r = Some (x2, outs) →
      pending x2 = Some p ∨ pending x2 = Some (set_execute portal maxRows p))
    (serve_step scan_binary runtimeParams copy_text env (Execute portal maxRows) x).
Proof.
  intros Hp Hname. apply serve_step_does; [done | done | intros x' (_&_&_&Hx') _; left; by rewrite Hx'|].
  intros x' (_&_&_&Hx') _. rewrite Hp in Hx'. cbn [cloneFrontendMessage serve_message]. unfold serve_execute. cbv zeta.
  destruct (failed _); [apply does_ret; intros ? ? [= <- _]; by left|].
  unfold pending_portal. cbn [pending ensureSession with_active]. rewrite Hx', decide_True by done.
  apply does_ret. intros x2 o [= <- _]. by right.
Qed.

(** The request that is left runs the first statement, with one of the two
    limits on the number of rows. *)
Definition one_of_limits (p : pendingExtended) (portal : string) (maxRows1 maxRows2 : Z) (p' : pendingExtended) : Prop :=
  p' = set_execute portal maxRows1 p ∨ p' = set_execute portal maxRows2 p.

(** C40: the second of two pipelined statements on one portal is lost.
    While a request with its Execute is pending, a Bind to the same portal, an
    Execute and a Sync, whatever statement, parameters and row limit they name,
    run at most the pending batch, once on each of its Burrows: the batch binds
    the first statement's parameters and executes once, with the first or with
    the last row limit; what the second Bind bound is never executed. *)
Theorem pipelined_execute_lost p m maxRows1 maxRows2 x h :
  pending x = Some p → pe_portalName p = DestinationPortal m → pe_execute p = Some (DestinationPortal m, maxRows1) →
  ∃ l r p', serveQueries scan_binary runtimeParams copy_text
      [(env, Bind m); (env, Execute (DestinationPortal m) maxRows2); (env, Sync)] x h = (h ++ l, r) ∧
    one_of_limits p (DestinationPortal m) maxRows1 maxRows2 p' ∧
    (executions l).*1 `sublist_of` pe_targets p ∧
    Forall (λ e, e.2 = batch_of p' ∨ e.2 = Parse (parse_of (pe_statement p)) :: batch_of p') (executions l).
Proof.
  intros Hp Hname He. set (portal := DestinationPortal m) in *.
  assert (p = set_execute portal maxRows1 p) as Hself by (destruct p; cbn in *; unfold set_execute; cbn; by rewrite He).
  destruct (serve_bind_pending p m x Hp h) as (l1 & E1 & Hl1 & Hx1).
  cbn [serveQueries]. unfold mbind at 1, X_bind at 1. unfold mbind, X_bind, mret, X_ret in E1, Hx1 |- *.
  destruct (serve_step _ _ _ env (Bind m) x h) as [h1 [[x1 outs1]|]]; cbn in E1, Hx1; subst h1.
  2:{ exists l1, None, p. split_and!; [done | by left| |]; rewrite executions_none by done; [apply sublist_nil_l | constructor]. }
  specialize (Hx1 _ _ eq_refl).
  destruct (serve_execute_pending p portal maxRows2 x1 Hx1 Hname (h ++ l1)) as (l2 & E2 & Hl2 & Hx2).
  destruct (serve_step _ _ _ env (Execute _ _) x1 _) as [h2 [[x2 outs2]|]]; cbn in E2, Hx2; subst h2.
  2:{ exists (l1 ++ l2), None, p. rewrite app_assoc. split_and!; [done | by left| |];
        rewrite executions_none by (by apply Forall_app); [apply sublist_nil_l | constructor]. }
  assert (∃ p', pending x2 = Some p' ∧ one_of_limits p portal maxRows1 maxRows2 p') as (p' & Hp' & Hlim).
  { destruct (Hx2 _ _ eq_refl) as [Hx2'|Hx2']; eexists; (split; [exact Hx2'|]); [by left | by right]. }
  destruct (serve_step_emits scan_binary runtimeParams copy_text env Sync x2 ((h ++ l1) ++ l2)) as (l3 & E3 & Hl3 & HT).
  cbn [cloneFrontendMessage execution_burrows] in Hl3, HT. rewrite Hp' in HT.
  assert (pe_targets p' = pe_targets p ∧ pe_statement p' = pe_statement p) as [Ht Hst] by (by destruct Hlim as [-> | ->]).
  rewrite Ht in HT.
  assert (Forall (λ e, e.2 = batch_of p' ∨ e.2 = Parse (parse_of (pe_statement p)) :: batch_of p') (executions l3)) as Hexec.
  { apply Forall_forall. intros [b ms] (e & Hin & Hrun)%list_elem_of_omap.
    rewrite Forall_forall in Hl3. specialize (Hl3 e Hin). destruct Hl3 as [e Hq|q b' ms' r Hq _ Hms|n b' r|c bound po b' r Hm|n rows b' r Hm].
    - apply quiet_nothing in Hq. by rewrite Hq in Hrun.
    - rewrite Hp' in Hq. injection Hq as <-. cbn in Hrun. destruct (existsb _ ms'); [|done]. injection Hrun as <- <-. by rewrite <- Hst.
    - done.
    - done.
    - done. }
  destruct (serve_step _ _ _ env Sync x2 _) as [h3 r3]. cbn in E3. subst h3.
  destruct r3 as [[x3 outs3]|]; eexists (l1 ++ l2 ++ l3), _, p'; rewrite !app_assoc; (split; [reflexivity|]);
    (split; [done|]); by rewrite !executions_app, (executions_none l1), (executions_none l2).
Qed.

(** * COMMIT *)

(** a two-phase commit that fails ends the transaction of a client
    that sent COMMIT as a simple query, but not that of a client that executed
    a prepared COMMIT: the session stays in the transaction with the same
    participants and keeps the fleet lock, although every Burrow was told to
    roll back or the commit is in doubt. *)
Theorem failed_extended_commit_stays_open portal maxRows po x h e h' :
  let s := beginSessionState (policy_in_state (base x) (classifySessionState (po_sql po))) (base x) in
  commits_extended env (po_sql po) s = true →
  run_commands (λ send_error reply_to, commitTwoPhase send_error reply_to (gid env) (ShardNames env)
    (participantNames (writeParticipants s))) h = (h', Some e) →
  (∃ x', handleExecute env portal maxRows po x h = (h', (x', [send (ErrorMessage e)], false)) ∧
     transaction (base x') = true ∧ writeParticipants (base x') = writeParticipants (base x) ∧
     txStatus (base x') = txStatus (base x)) ∧
  (∀ send_error reply_to h0 h1, commitTwoPhase send_error reply_to (gid env) (ShardNames env)
       (participantNames (writeParticipants s)) h0 = (h1, Some e) →
     ∃ s', handleTwoPhaseCommit send_error reply_to (gid env) (ShardNames env) (refresh env) s h0 =
       (h1, (s', [Send (ErrorMessage e); Send (ReadyForQuery "I"%char); UnlockFleetWrites], false)) ∧
       transaction s' = false ∧ writeParticipants s' = ∅).
Proof.
  intros s Hc Hcommit. split.
  - assert (transaction (base x) = true) as Ht.
    { unfold commits_extended in Hc. apply andb_true_iff in Hc as [Hc _]. apply andb_true_iff in Hc as [Hc _].
      apply andb_true_iff in Hc as [Hc _]. by apply andb_true_iff in Hc as [Hc _]. }
    exists (with_srv (beginSchemaCommit (schemaDirty (base x)) (srv x)) (with_base s x)). split; [|by split_and!].
    unfold handleExecute. cbv zeta. change (base (with_base ?a x)) with a. fold s. rewrite Hc.
    unfold execute_commit. cbv zeta. unfold mbind, X_bind. cbn [base with_base with_srv]. by rewrite Hcommit.
  - intros send_error reply_to h0 h1 E. eexists. unfold handleTwoPhaseCommit, mbind, M_bind. rewrite E. by split_and!.
Qed.
End pipelined.

(** * Sync *)

Definition is_ready (o : xoutput) : bool :=
  match o with XSend (Plain (ReadyForQuery _)) => true | _ => false end.
Definition unready (outs : list xoutput) : Prop := Forall (λ o, is_ready o = false) outs.

(** One ReadyForQuery with the status of the session, after everything else. *)
Definition synchronised (x : xstate) (outs : list xoutput) : Prop :=
  ∃ body tail, outs = body ++ ready x :: tail ∧ unready body ∧ Forall (λ o, o = XUnlockFleetWrites) tail.

Section sync.
Context `{Floats} `{PgQuery} `{GoStd} `{MapOrder} `{Connections}.
Context (env : environment).

Lemma unready_app l1 l2 : unready l1 → unready l2 → unready (l1 ++ l2).
Proof. intros. by apply Forall_app. Qed.
Lemma unready_one o : is_ready o = false → unready [o].
Proof. intros. by repeat constructor. Qed.
Lemma unready_nil : unready [].
Proof. constructor. Qed.
Hint Resolve unready_app unready_one unready_nil : core.

Lemma flush_message_unready expected first a m a' :
  flush_message expected first a m = Ok a' → unready (f_sent a) → unready (f_sent a').
Proof.
  unfold flush_message, flush_switch. repeat case_match; intros; simplify_eq; cbn [f_sent f_send f_fail f_set f_mark]; auto.
  all: apply unready_app; [done | by apply unready_one].
Qed.
Lemma flush_messages_unready expected first ms a a' failure :
  flush_messages expected first a ms = (a', failure) → unready (f_sent a) → unready (f_sent a').
Proof.
  revert a. induction ms as [|m ms IH]; intros a; cbn [flush_messages]; [by intros [= <- _]|].
  destruct (flush_message _ _ _ _) as [a1|e] eqn:E; [|by intros [= <- _]].
  intros Hms Ha. eapply IH; [done|]. by eapply flush_message_unready.
Qed.
Lemma receive_batches_unready name sent first a :
  unready (f_sent a) → does anything (λ r, unready (f_sent r.1)) (receive_batches name first a sent).
Proof.
  revert first a. induction sent as [|[[b expected] r] sent IH]; intros first a Ha; cbn [receive_batches]; [by apply does_ret|].
  destruct (flush_messages _ _ _ _) as [a' failure] eqn:E. apply flush_messages_unready in E; [|by destruct a].
  apply does_then; [apply does_if; [by apply does_record | by apply does_ret]|]. intros _.
  destruct failure; [by apply does_ret|]. destruct (broken r); [by apply does_ret | by apply IH].
Qed.

(** What a flushed request leaves: ReadyForQuery exactly when it is asked for. *)
Definition flushed (emitReady : bool) (r : xstate * list xoutput * bool) : Prop :=
  if emitReady then synchronised r.1.1 r.1.2 else unready r.1.2.

Lemma fail_pending_flushed emitReady o pre x : is_ready o = false → unready pre → flushed emitReady (fail_pending emitReady o pre x).
Proof.
  intros Ho Hpre. unfold flushed, fail_pending. destruct emitReady; cbn [fst snd negb].
  - exists (pre ++ [o]), []. rewrite <- app_assoc. split_and!; [done | auto | done].
  - rewrite app_nil_r. auto.
Qed.
Lemma flushed_prefix emitReady pre x outs ok :
  unready pre → flushed emitReady (x, outs, ok) → flushed emitReady (x, pre ++ outs, ok).
Proof.
  intros Hpre. unfold flushed. destruct emitReady; cbn [fst snd]; [|auto].
  intros (body & tail & -> & Hb & Ht). exists (pre ++ body), tail. rewrite app_assoc. split_and!; [done | auto | done].
Qed.

Lemma finish_flush_flushed policy p emitReady a x :
  unready (f_sent a) → flushed emitReady (finish_flush env policy p emitReady a x).
Proof.
  intros Ha. unfold finish_flush, refreshSchemaAfterDDL. cbv zeta.
  assert (unready (flush_completion p a)) as Hc.
  { unfold flush_completion, invalidation. destruct (f_failed a); [done|]. apply unready_app; [by destruct (invalidatesPreparedStatements _); [apply unready_one|]|].
    destruct (f_suspended a); [by apply unready_one|]. destruct (f_tags a); [done | by apply unready_one]. }
  set (r := if _ && _ && _ then _ else _). destruct r as [[x' refreshed] backendFailed] eqn:E.
  assert (unready refreshed) as Hr.
  { subst r. destruct (_ && _ && _); [|by simplify_eq]. destruct (refresh env); simplify_eq; [by apply unready_one | done]. }
  clear r E. unfold flushed, unlock_idle. destruct emitReady; cbn [fst snd negb].
  - eexists (f_sent a ++ flush_completion p a ++ refreshed), _. rewrite andb_false_r. split_and!; [reflexivity | auto |].
    destruct (transaction _); by repeat constructor.
  - apply unready_app; [auto|]. by destruct (transaction _); [|apply unready_one].
Qed.

Lemma run_batch_flushed policy p emitReady fleet atomicDDL x :
  does anything (flushed emitReady) (run_batch env policy p emitReady fleet atomicDDL x).
Proof.
  unfold run_batch. cbv zeta.
  assert (∀ e (y : xstate), does anything (flushed emitReady)
    ((if atomicDDL then run_commands (λ se rt, rollbackAtomicFleetDDL se rt (pe_targets p)) else mret tt);;
     mret (fail_pending emitReady (extended_error "08006" e)
       (if fleet && negb (transaction (base x)) then [XUnlockFleetWrites] else []) y))) as Hfail.
  { intros e y. apply does_then; [destruct atomicDDL; [by apply does_commands | by apply does_ret]|]. intros _.
    apply does_ret, fail_pending_flushed; [done|]. by destruct (_ && _); [apply unready_one|]. }
  apply does_then; [eapply does_impl; [apply send_batches_does | done..]|]. intros [sent|e]; [|apply Hfail].
  eapply does_bind; [by apply receive_batches_unready|]. intros [a failure] Ha. cbn in Ha.
  destruct failure as [e|].
  { eapply does_bind; [apply Hfail|]. intros [[y outs] ok] Hr. apply does_ret. by apply flushed_prefix. }
  eapply does_bind with (Q1 := λ a, unready (f_sent a)); [|intros; by apply does_ret, finish_flush_flushed].
  destruct atomicDDL; [|by apply does_ret]. destruct (f_failed a).
  - apply does_then; [by apply does_commands|]. intros. by apply does_ret.
  - apply does_then; [by apply does_commands|]. intros [e|]; apply does_ret; [|done]. cbn. auto.
Qed.

Lemma flush_flushed emitReady x :
  is_Some (pending x) → does anything (flushed emitReady) (flushPendingExtended env emitReady x).
Proof.
  intros [p Hp]. unfold flushPendingExtended. rewrite Hp. cbv zeta.
  destruct (pe_execute p); [|apply run_batch_flushed].
  destruct (validateAtomicFleetDDL _ _ _ _); [|by apply does_ret, fail_pending_flushed].
  apply does_then; [destruct (_ && _); [by apply does_record | by apply does_ret]|]. intros _.
  destruct (_ && _ && _); [by apply does_ret, fail_pending_flushed|].
  apply does_then; [destruct (_ && _); [by apply does_commands | by apply does_ret]|].
  intros [e|]; [|apply run_batch_flushed]. apply does_ret, fail_pending_flushed; [done|]. by apply unready_one.
Qed.

(** A Burrow did not answer a Sync as it should: the connection broke, before
    or after the message was written, or it sent nothing, or an error. *)
Definition burrow_failed (e : xevent) : Prop :=
  match e with
  | Exchanged _ ms r => ms = [Sync; Flush] ∧
      (is_Some (broken r) ∨ got r = [] ∨ ∃ e, Plain (ErrorMessage e) ∈ got r)
  | _ => False
  end.

(** The answers of an exchange are those of its events. *)
Lemma x_exchange_traced ms targets h :
  ∃ l, (x_exchange ms targets h).1 = h ++ l ∧
  match (x_exchange ms targets h).2 with
  | Ok responses => length responses = length targets ∧
      Forall (λ messages, ∃ b r, Exchanged b ms r ∈ l ∧ got r = messages) responses
  | Err _ => ∃ b r, Exchanged b ms r ∈ l ∧ is_Some (broken r)
  end.
Proof.
  revert h. induction targets as [|b targets IH]; intros h; cbn [x_exchange].
  { exists []. rewrite app_nil_r. by repeat constructor. }
  destruct (send_failure h b ms) as [e|].
  { eexists. split; [reflexivity|]. exists b, (unsent e). split; [by left | by eexists]. }
  set (r := answer h b ms). destruct (IH (h ++ [Exchanged b ms r])) as (l & E & Hr). destruct (x_exchange _ _ _) as [h' replies].
  cbn in E, Hr. subst h'. exists (Exchanged b ms r :: l). rewrite <- app_assoc. split; [done|]. cbn [snd].
  unfold complete. destruct (broken r) as [e|] eqn:Hb; cbn [mbind result_bind].
  { exists b, r. split; [by left | by rewrite Hb]. }
  destruct replies as [rest|e]; cbn.
  - destruct Hr as [Hlen Hall]. split; [by rewrite Hlen|]. constructor; [exists b, r; split; [by left | done]|].
    eapply Forall_impl; [exact Hall|]. intros m (b' & r' & Hin & Hg). exists b', r'. split; [by right | done].
  - destruct Hr as (b' & r' & Hin & Hbr). exists b', r'. split; [by right | done].
Qed.

Lemma firstError_elem responses e : firstError responses = Some e → ∃ r, r ∈ responses ∧ ErrorMessage e ∈ r.
Proof.
  induction responses as [|r responses IH]; cbn; [done|]. destruct (first_error_in r) as [e'|] eqn:Hr.
  - intros [= ->]. exists r. split; [by left|]. clear IH. induction r as [|m r IH]; [done|]. cbn in Hr.
    destruct m; try (right; by apply IH). injection Hr as ->. by left.
  - intros (r' & Hin & He)%IH. exists r'. split; [by right | done].
Qed.
Lemma x_firstError_elem responses e : x_firstError responses = Some e → ∃ r, r ∈ responses ∧ Plain (ErrorMessage e) ∈ r.
Proof.
  unfold x_firstError. intros (r & Hr & He)%firstError_elem. apply list_elem_of_fmap in Hr as (r' & -> & Hr').
  exists r'. split; [done|]. apply list_elem_of_omap in He as (m & Hm & Hp). destruct m; cbn in Hp; by simplify_eq.
Qed.

(** A Sync that is forwarded is answered by ReadyForQuery, or by an error of a
    Burrow. *)
Definition sync_answer (x : xstate) (l : list xevent) (r : xstate * list xoutput * bool) : Prop :=
  if r.2 then synchronised r.1.1 r.1.2
  else frame x r.1.1 ∧ failed r.1.1 = failed x ∧ (∃ e, r.1.2 = [send (ErrorMessage e)]) ∧ Exists burrow_failed l.
Lemma handleSync_answers x h :
  ∃ l, (handleSync env x h).1 = h ++ l ∧ sync_answer x l (handleSync env x h).2.
Proof.
  assert (∀ y tail, Forall (λ o, o = XUnlockFleetWrites) tail → synchronised y (ready y :: tail)) as Hs.
  { intros y tail Ht. exists [], tail. by split_and!. }
  assert (∀ b r l, Exchanged b [Sync; Flush] r ∈ l → is_Some (broken r) ∨ got r = [] ∨ (∃ e, Plain (ErrorMessage e) ∈ got r) →
    Exists burrow_failed l) as Hfailed by (intros b r l Hin Hr; apply Exists_exists; by exists (Exchanged b [Sync; Flush] r)).
  assert (∀ y, frame x y → failed y = failed x → ∃ l, ((h ← now; match ConnectedNames h with
     | [] => mret (y, [ready y], true)
     | connected => responses ← x_exchange [Sync; Flush] connected;
       match responses with
       | Err e => mret (y, [extended_error "08006" e], false)
       | Ok responses => let '(sent, ok) := relaySync responses (txStatus (base y)) in
           mret (y, sent ++ (if ok then unlock_idle (base y) else []), ok)
       end
     end) h).1 = h ++ l ∧ sync_answer x l ((h ← now; match ConnectedNames h with
     | [] => mret (y, [ready y], true)
     | connected => responses ← x_exchange [Sync; Flush] connected;
       match responses with
       | Err e => mret (y, [extended_error "08006" e], false)
       | Ok responses => let '(sent, ok) := relaySync responses (txStatus (base y)) in
           mret (y, sent ++ (if ok then unlock_idle (base y) else []), ok)
       end
     end) h).2) as Hcont.
  { intros y Hy Hf. unfold now, mbind, X_bind, mret, X_ret.
    destruct (ConnectedNames h) as [|n names]; [exists []; rewrite app_nil_r; split; [done | by apply Hs]|].
    destruct (x_exchange_traced [Sync; Flush] (n :: names) h) as (l & E & Hr).
    destruct (x_exchange _ _ h) as [h' [responses|e]]; cbn in E, Hr; subst h'; exists l.
    2:{ split; [done|]. destruct Hr as (b & r & Hin & Hbr). unfold sync_answer. cbn [fst snd]. eauto 10. }
    destruct Hr as [Hlen Hall]. assert (unlock_idle (base y) = [] ∨ unlock_idle (base y) = [XUnlockFleetWrites]) as Hu
      by (unfold unlock_idle; destruct (transaction _); auto).
    destruct (relaySync responses (txStatus (base y))) as [sent ok] eqn:Hrelay. split; [done|]. revert Hrelay.
    unfold relaySync. destruct responses as [|first rs]; [done|]. destruct first as [|m first].
    { intros [= <- <-]. apply Forall_cons in Hall as [(b & r & Hin & Hg) _]. unfold sync_answer. cbn [fst snd app]. eauto 10. }
    destruct (x_firstError _) as [e|] eqn:He; intros [= <- <-]; unfold sync_answer; cbn [fst snd app].
    - split_and!; [done..| by eexists|]. apply x_firstError_elem in He as (r & Hin & Herr).
      rewrite Forall_forall in Hall. destruct (Hall r Hin) as (b & r' & Hin' & <-). eauto 10.
    - apply Hs. destruct Hu as [-> | ->]; by repeat constructor. }
  unfold handleSync, refreshSchemaAfterDDL. cbv zeta. destruct (_ && _); [|by apply Hcont].
  destruct (refresh env) as [e|]; [|by apply Hcont]. exists []. rewrite app_nil_r. split; [done|]. unfold sync_answer. cbn [fst snd].
  eexists [_], [XUnlockFleetWrites]. split_and!; [done | by apply unready_one | by repeat constructor].
Qed.

(** C19: Sync is answered by exactly one ReadyForQuery, after everything
    else and with the transaction status of the session, in all cases but one:
    when it is forwarded to the Burrows and the connection to a Burrow breaks,
    or a Burrow answers nothing or an error, the client gets one error and no
    ReadyForQuery, so that it waits for an answer that never comes. *)
Theorem sync_answered_once x h h' x' outs :
  serve_sync env x h = (h', Some (x', outs)) →
  synchronised x' outs ∨
  (active x = true ∧ pending x = None ∧ syncConsumed x = false ∧ failed x' = failed x ∧
   (∃ e, outs = [send (ErrorMessage e)]) ∧ ∃ l, h' = h ++ l ∧ Exists burrow_failed l).
Proof.
  unfold serve_sync. cbv zeta. assert (∀ y, synchronised (with_failed false y) [ready y]) as Hone by (intros y; by exists [], []).
  destruct (active x); cbn [negb]; [|intros [= _ <- <-]; left; apply Hone].
  destruct (pending x) as [p|] eqn:Hp.
  - destruct (flush_flushed true x ltac:(by rewrite Hp) h) as (l & E & _ & Hf). unfold mbind, X_bind, mret, X_ret.
    destruct (flushPendingExtended env true x h) as [h1 [[y o] ok]]. cbn in Hf. intros [= _ <- <-]. left. by destruct ok.
  - destruct (syncConsumed x); [intros [= _ <- <-]; left; by exists [], []|].
    destruct (handleSync_answers x h) as (l & E & Hf). unfold mbind, X_bind, mret, X_ret.
    destruct (handleSync env x h) as [h1 [[y o] ok]]. cbn in E, Hf. intros [= <- <- <-]. destruct ok; [by left|].
    right. destruct Hf as (_ & Hfail & He & Hl). split_and!; eauto.
Qed.
End sync.



(** * Witnesses *)

(** Burrows that answer every batch with one completion. *)
Definition answered_with (tag : string) (ms : list FrontendMessage) : list xmessage :=
  omap (λ m, match m with
    | Parse _ => Some (Plain ParseComplete) | Bind _ => Some (Plain BindComplete)
    | Execute _ _ => Some (Plain (CommandComplete tag)) | Sync => Some (Plain (ReadyForQuery "I"%char))
    | _ => None end) ms.
Definition steady : Connections := {|
  connect_error := λ _ _, None; write_error := λ _ _ _, None;
  answer := λ _ _ ms, {| got := answered_with "DELETE 1" ms; broken := None |};
  IsPrepared := λ _ _ _, false; ConnectedNames := λ _, ["a"; "b"];
  pooled_result := λ _ _ _, Err (fanout.ConnectionError ""); arrival := λ _ _ names, names |}.
#[local] Existing Instances toy_floats delete_parser toy_std canonical_order steady.

Definition text_errors (e : copyrouter.error) : string := "".
Definition no_binary (oid : Z) (value : bytes) : option string := None.
Definition delete_prepared : statementState :=
  prepared_as delete_sql [] false false (router.prepare_tree (router.mk_tree delete_account)).
Definition bind_delete : BindMessage := {| DestinationPortal := ""; PreparedStatement := "s1";
  ParameterFormatCodes := []; Parameters := []; ResultFormatCodes := [] |}.
Definition prepared_session : xstate :=
  with_active true (with_statements {["s1" := delete_prepared]} (new_state idle_server)).


(** Two rows of a batch: the second is never inserted. *)
Definition pending_delete : pendingExtended := {|
  pe_targets := ["a"]; pe_bind := bind_delete; pe_describe := None; pe_execute := Some ("", 0);
  pe_portalName := ""; pe_portal := zero_portal; pe_statement := delete_prepared |}.
Definition second_statement : list xevent * handled :=
  serveQueries no_binary [] text_errors [(two_burrows, Bind bind_delete); (two_burrows, Execute "" 7); (two_burrows, Sync)]
    (with_pending (Some pending_delete) prepared_session) [].
Lemma pipelined_execute_lost_witness :
  (executions second_statement.1).*1 = ["a"] ∧
  ∃ p', one_of_limits pending_delete "" 0 7 p' ∧
    Forall (λ e, e.2 = batch_of p' ∨ e.2 = Parse (parse_of delete_prepared) :: batch_of p') (executions second_statement.1).
Proof.
  destruct (pipelined_execute_lost no_binary [] text_errors two_burrows pending_delete bind_delete 0 7
    (with_pending (Some pending_delete) prepared_session) [] eq_refl eq_refl eq_refl) as (l & r & p' & E & Hlim & _ & Hl).
  change (serveQueries _ _ _ _ _ _) with second_statement in E. split; [vm_compute; reflexivity|].
  exists p'. split; [exact Hlim|]. rewrite E. exact Hl.
Defined.

Example batch_of_two_runs_once :
  length (executions (serveQueries no_binary [] text_errors
    [(two_burrows, Bind bind_delete); (two_burrows, Execute "" 0);
     (two_burrows, Bind bind_delete); (two_burrows, Execute "" 0); (two_burrows, Sync)] prepared_session []).1) = 1%nat.
Proof. vm_compute. reflexivity. Qed.

(** Burrow [b] cannot prepare the transaction. *)
Definition refusing : Connections := {|
  connect_error := λ _ _, None; write_error := λ _ _ _, None;
  answer := λ _ burrow ms,
    if bool_decide (burrow = "b") && existsb (λ m, match m with Query text => HasPrefix text "PREPARE" | _ => false end) ms
    then {| got := Plain <$> [ErrorMessage (sql_error "53400" "no slots"); ReadyForQuery "I"%char]; broken := None |}
    else {| got := Plain <$> [CommandComplete ""; ReadyForQuery "T"%char]; broken := None |};
  IsPrepared := λ _ _ _, true; ConnectedNames := λ _, ["a"; "b"];
  pooled_result := λ _ _ _, Err (fanout.ConnectionError ""); arrival := λ _ _ names, names |}.
Definition commit_portal : portalState :=
  {| po_sql := "COMMIT"; po_schema := false; po_target := ""; po_routed := false; po_keyedWrite := false |}.
Definition writing : xstate := with_base writing_session prepared_session.

Lemma failed_extended_commit_stays_open_witness :
  ∃ h' x' e, handleExecute (H2 := refusing) two_burrows "" 0 commit_portal writing [] = (h', (x', [send (ErrorMessage e)], false)) ∧
    Code e = "53400" ∧ txStatus (base x') = "T"%char.
Proof.
  destruct (run_commands (H2 := refusing) (λ send_error reply_to, commitTwoPhase send_error reply_to (gid two_burrows)
    (ShardNames two_burrows) (participantNames (writeParticipants writing_session))) []) as [h' [e|]] eqn:E;
    [|vm_compute in E; discriminate].
  destruct (failed_extended_commit_stays_open (H3 := refusing) two_burrows "" 0 commit_portal writing [] e h'
    ltac:(vm_compute; reflexivity) E) as [(x' & Hrun & _ & _ & Hs) _].
  exists h', x', e. split; [exact Hrun|]. split; [|rewrite Hs; reflexivity].
  vm_compute in E. injection E as _ <-. reflexivity.
Defined.

Lemma sync_answered_once_witness :
  ∃ x' outs, (serve_sync two_burrows (with_pending (Some pending_delete) prepared_session) []).2 = Some (x', outs) ∧
  (synchronised x' outs ∨
   (true = true ∧ Some pending_delete = None ∧ false = false ∧ failed x' = false ∧ (∃ e, outs = [send (ErrorMessage e)]) ∧
    ∃ l, (serve_sync two_burrows (with_pending (Some pending_delete) prepared_session) []).1 = [] ++ l ∧ Exists burrow_failed l)).
Proof.
  destruct (serve_sync two_burrows (with_pending (Some pending_delete) prepared_session) []) as [h' [[x' outs]|]] eqn:E;
    [|vm_compute in E; discriminate].
  exists x', outs. split; [reflexivity|]. cbn [fst].
  exact (sync_answered_once two_burrows (with_pending (Some pending_delete) prepared_session) [] h' x' outs E).
Defined.

(** A Sync that a Burrow answers with an error. *)
Example failed_sync_unanswered :
  (λ r, r.2) <$> (serve_sync (H3 := {| connect_error := λ _ _, None; write_error := λ _ _ _, None;
    answer := λ _ _ ms, {| got := [Plain (ErrorMessage (sql_error "57P01" "terminating"))]; broken := None |};
    IsPrepared := λ _ _ _, true; ConnectedNames := λ _, ["a"]; pooled_result := λ _ _ _, Err (fanout.ConnectionError "");
    arrival := λ _ _ names, names |}) two_burrows prepared_session []).2
  = Some [send (ErrorMessage (sql_error "57P01" "terminating"))].
Proof. vm_compute. reflexivity. Qed.

End requests.
