(* ===== verification/CopySessions.v ===== *)
(** COPY sessions: where the rows of COPY FROM STDIN go, what the client is
    told at the end, and what is lost when a step fails. *)
From S2P Require Import Prelude.
From S2P Require Import GoStrings.
From S2P Require Import GoNumbers.
From S2P Require Import GoStd.
From S2P Require Import Schema.
From S2P Require Import ShardKey.
From S2P Require Import PgQuery.
From S2P Require Import Router.
From S2P Require Import RoutePlan.
From S2P Require Import CopyRouter.
From S2P Require Import Session.
From S2P Require Import FleetDdl.
From S2P Require Import Wire.
From S2P Require Import TwoPhase.
From S2P Require Import QueryHandler.
From S2P Require Import Fanout.
From S2P Require Import Statements.
From S2P Require Import PooledQuery.
From S2P Require Import Extended.
From S2P Require Import CopyHandlers.
From S2P Require Import Serve.
From S2P Require Import Pipeline.

Module copysessions.
Import schema session fleetddl wire twophase queryhandler statements extended copyhandlers serve pipeline.

(** * Input that reaches a Burrow *)

Definition data_of (m : FrontendMessage) : bytes := match m with CopyData d => d | _ => [] end.
(** The COPY data that was written to a Burrow. *)
Definition delivery (burrow : string) (e : xevent) : bytes :=
  match e with
  | Exchanged b ms r => if bool_decide (b = burrow) && bool_decide (broken r = None) then concat (data_of <$> ms) else []
  | _ => []
  end.
Definition delivered (burrow : string) (l : list xevent) : bytes := concat (delivery burrow <$> l).

Lemma delivered_app burrow l1 l2 : delivered burrow (l1 ++ l2) = delivered burrow l1 ++ delivered burrow l2.
Proof. unfold delivered. by rewrite fmap_app, concat_app. Qed.
Lemma delivered_none burrow l : Forall (λ e, delivery burrow e = []) l → delivered burrow l = [].
Proof. induction 1 as [|e l He Hl IH]; [done|]. unfold delivered. cbn. rewrite He. exact IH. Qed.

Lemma chunks_for_app target c1 c2 : chunks_for target (c1 ++ c2) = chunks_for target c1 ++ chunks_for target c2.
Proof. unfold chunks_for. by rewrite filter_app, fmap_app, concat_app. Qed.

(** What a Burrow should get: its rows, and what goes to every Burrow. *)
Definition meant_for (burrow : string) (chunks : list copyrouter.Chunk) : bytes :=
  concat ((λ c, if bool_decide (copyrouter.Target c ∈ [""; burrow]) then copyrouter.Data c else []) <$> chunks).
Lemma chunks_meant burrow chunks : chunks_for burrow chunks = meant_for burrow chunks.
Proof.
  unfold chunks_for, meant_for. induction chunks as [|c chunks IH]; [done|]. cbn [fmap list_fmap]. rewrite filter_cons.
  assert (copyrouter.Target c ∈ [""; burrow] ↔ copyrouter.Target c = "" ∨ copyrouter.Target c = burrow) as E by set_solver.
  destruct (decide _) as [H|H]; cbn; [rewrite bool_decide_eq_true_2 by tauto | rewrite bool_decide_eq_false_2 by tauto];
    by rewrite IH.
Qed.

Definition written (m : FrontendMessage) (burrow : string) : xevent :=
  Exchanged burrow [m] {| got := []; broken := None |}.

Section copy.
Context `{Floats} `{PgQuery} `{GoStd} `{MapOrder} `{Connections}.
Context (copy_text : copyrouter.error → string).

Lemma SendCopyTo_ok names m h h' : SendCopyTo names m h = (h', None) → h' = h ++ (written m <$> names).
Proof.
  unfold SendCopyTo, mbind, X_bind, now. destruct (filter _ names); [|done]. cbn. revert h.
  induction names as [|n names IH]; intros h; cbn [send_each]; [intros [= <-]; by rewrite app_nil_r|].
  destruct (write_error h n [m]); [done|]. intros ->%IH. by rewrite <- app_assoc.
Qed.

Lemma send_chunks_ok chunks targets h h' :
  send_chunks chunks targets h = (h', None) →
  h' = h ++ ((λ b, written (CopyData (chunks_for b chunks)) b) <$> filter (λ b, chunks_for b chunks ≠ []) targets).
Proof.
  revert h. induction targets as [|b targets IH]; intros h; cbn [send_chunks]; [intros [= <-]; by rewrite app_nil_r|].
  rewrite filter_cons. destruct (decide (chunks_for b chunks = [])) as [E|E].
  - intros ->%IH. by rewrite decide_False by tauto.
  - rewrite decide_True by done. unfold mbind, X_bind. destruct (SendCopyTo _ _ _) as [h1 [e|]] eqn:Hs; [done|].
    apply SendCopyTo_ok in Hs as ->. intros ->%IH. by rewrite <- app_assoc.
Qed.

Lemma delivered_chunks chunks targets b :
  NoDup targets → b ∈ targets →
  delivered b ((λ b, written (CopyData (chunks_for b chunks)) b) <$> filter (λ b, chunks_for b chunks ≠ []) targets)
  = chunks_for b chunks.
Proof.
  assert (∀ l, b ∉ l → delivered b ((λ b, written (CopyData (chunks_for b chunks)) b) <$> l) = []) as Hnone.
  { intros l Hb. apply delivered_none, Forall_fmap, Forall_forall. intros b' Hb'. cbn.
    by rewrite bool_decide_eq_false_2 by (intros ->; done). }
  induction targets as [|b' targets IH]; intros Hnd Hb; [by apply elem_of_nil in Hb|].
  apply NoDup_cons in Hnd as [Hb' Hnd]. rewrite filter_cons. apply elem_of_cons in Hb as [<-|Hb].
  - assert (b ∉ filter (λ b, chunks_for b chunks ≠ []) targets) as Hf by (rewrite list_elem_of_filter; tauto).
    destruct (decide _) as [E|E]; [|rewrite Hnone by done; destruct (chunks_for b chunks); [done | by destruct E]].
    cbn [fmap list_fmap]. unfold delivered. cbn. rewrite bool_decide_eq_true_2 by done. cbn. rewrite app_nil_r.
    fold (delivered b ((λ b, written (CopyData (chunks_for b chunks)) b) <$> filter (λ b, chunks_for b chunks ≠ []) targets)).
    by rewrite Hnone, app_nil_r.
  - destruct (decide _); [|by apply IH]. cbn [fmap list_fmap]. unfold delivered. cbn.
    rewrite bool_decide_eq_false_2 by (intros ->; done). cbn. by apply IH.
Qed.

(** The chunks have reached their targets, and no other Burrow was written to. *)
Definition reaches (targets : list string) (chunks : list copyrouter.Chunk) (l : list xevent) : Prop :=
  ∀ b, delivered b l = if bool_decide (b ∈ targets) then chunks_for b chunks else [].

Lemma reaches_app targets c1 c2 l1 l2 :
  reaches targets c1 l1 → reaches targets c2 l2 → reaches targets (c1 ++ c2) (l1 ++ l2).
Proof. intros Hr1 Hr2 b. rewrite delivered_app, chunks_for_app, Hr1, Hr2. by destruct (bool_decide _). Qed.
Lemma reaches_nothing targets l : (∀ b, delivered b l = []) → reaches targets [] l.
Proof. intros Hl b. rewrite Hl. by destruct (bool_decide _). Qed.

Lemma chunks_reach chunks targets :
  NoDup targets →
  reaches targets chunks ((λ b, written (CopyData (chunks_for b chunks)) b) <$> filter (λ b, chunks_for b chunks ≠ []) targets).
Proof.
  intros Hnd b. case_bool_decide as Hb; [by apply delivered_chunks|].
  apply delivered_none, Forall_fmap, Forall_forall. intros b' [_ Hb']%list_elem_of_filter. cbn.
  by rewrite bool_decide_eq_false_2 by (intros ->; done).
Qed.

(** ** COPY data *)

Definition stream_of (c : copyStreamState) (fragments : list bytes) (s : copyrouter.Stream) :=
  copyrouter.feed (cs_plan c) (cs_registry c) (cs_burrows c) fragments s.

Lemma feed_cons plan registry burrows d s cs1 s1 fragments cs2 s2 :
  copyrouter.Write plan registry burrows d s = Ok (cs1, s1) →
  copyrouter.feed plan registry burrows fragments s1 = Ok (cs2, s2) →
  copyrouter.feed plan registry burrows (d :: fragments) s = Ok (cs1 ++ cs2, s2).
Proof.
  intros Hw. unfold copyrouter.feed. cbn [mfold fst snd]. rewrite Hw. cbn [mbind result_bind app].
  revert cs2 s2. induction fragments as [|e f IH] using rev_ind; intros cs2 s2.
  - intros [= <- <-]. cbn. by rewrite app_nil_r.
  - rewrite !mfold_snoc_ok. intros ([c0 s0] & E0 & E1). exists (cs1 ++ c0, s0). split; [by apply IH|].
    cbn in E1 |- *. destruct (copyrouter.Write _ _ _ e s0) as [[c1 s3]|]; [|done]. cbn in E1 |- *.
    injection E1 as <- <-. by rewrite app_assoc.
Qed.

Lemma abort_not_ok code cause x h h' x' outs : abort_with code cause x h ≠ (h', Some (x', outs, true)).
Proof. unfold abort_with, abortCopy, mbind, X_bind. repeat case_match; cbn; intros ?; simplify_eq. Qed.

Lemma handleCopyData_ok d x c h h' x' outs :
  copyStream (copy x) = Some c → NoDup (copyTargets (copy x)) →
  handleCopyData copy_text d x h = (h', Some (x', outs, true)) →
  ∃ chunks stream l, copyrouter.Write (cs_plan c) (cs_registry c) (cs_burrows c) d (cs_stream c) = Ok (chunks, stream) ∧
    x' = with_stream c stream x ∧ outs = [] ∧ h' = h ++ l ∧
    reaches (copyTargets (copy x)) chunks l.
Proof.
  intros Hc Hnd. unfold handleCopyData. rewrite Hc.
  destruct (copyrouter.Write _ _ _ _ _) as [[chunks stream]|e].
  2:{ destruct (panics e); [done|]. by intros ?%abort_not_ok. }
  unfold sendCopyChunks, mbind, X_bind. destruct (send_chunks _ _ _) as [h1 [e|]] eqn:Hs; [by intros ?%abort_not_ok|].
  apply send_chunks_ok in Hs as ->. intros [= <- <- <-]. exists chunks, stream. eexists. split_and!; [done..|].
  by apply chunks_reach.
Qed.

(** ** The end of the input *)

Lemma receive_many_delivers names h b :
  ∃ l, (copyhandlers.ReceiveUntilFromMany names h).1 = h ++ l ∧ delivered b l = [].
Proof.
  revert h. induction names as [|n names IH]; intros h; cbn [copyhandlers.ReceiveUntilFromMany]; [exists []; by rewrite app_nil_r|].
  unfold mbind, X_bind, receive. set (r := answer h n []).
  assert (delivered b [Exchanged n [] r] = []) as Hr by (unfold delivered; cbn; by destruct (_ && _)).
  destruct (complete r) as [messages|e]; cbn [mret X_ret fst]; [|by exists [Exchanged n [] r]].
  destruct (IH (h ++ [Exchanged n [] r])) as (l & E & Hl). destruct (copyhandlers.ReceiveUntilFromMany names _) as [h' rest].
  cbn in E |- *. exists (Exchanged n [] r :: l). rewrite E, <- app_assoc. split; [done|].
  change (Exchanged n [] r :: l) with ([Exchanged n [] r] ++ l). by rewrite delivered_app, Hr, Hl.
Qed.

Lemma complete_copy_ok targets sharded replicated rows x h h' x' outs b :
  complete_copy CopyDone targets sharded replicated rows x h = (h', Some (x', outs, true)) →
  (∃ l, h' = h ++ l ∧ delivered b l = []) ∧ x' = x ∧
  (outs = [ready x] ∨ ∃ tags tag, mergedCopyFromTag tags sharded replicated rows = Ok tag ∧
     outs = [send (CommandComplete tag); ready x]).
Proof.
  unfold complete_copy, burrow_fails, copy_fails, copy_ends, mbind, X_bind.
  destruct (SendCopyTo targets CopyDone h) as [h1 [e|]] eqn:Hs; [done|]. apply SendCopyTo_ok in Hs as ->.
  assert (delivered b (written CopyDone <$> targets) = []) as Hd.
  { apply delivered_none, Forall_fmap, Forall_true. intros n. cbn. by destruct (_ && _). }
  destruct (receive_many_delivers targets (h ++ (written CopyDone <$> targets)) b) as (l & E & Hl).
  destruct (copyhandlers.ReceiveUntilFromMany targets _) as [h2 [responses|e]]; [|done]. cbn in E. subst h2.
  destruct (x_firstError responses); [done|].
  assert (∃ l', (h ++ (written CopyDone <$> targets)) ++ l = h ++ l' ∧ delivered b l' = []) as Hall.
  { eexists. rewrite <- app_assoc. split; [done|]. by rewrite delivered_app, Hd, Hl. }
  destruct (tags_of responses) as [|tag tags]; [intros [= <- <- <-]; auto|].
  destruct (mergedCopyFromTag _ _ _ _) as [merged|e] eqn:Hm; [|done]. intros [= <- <- <-]. split_and!; [done..|].
  right. eauto.
Qed.

Lemma merged_sharded_tag tags rows tag :
  mergedCopyFromTag tags true false rows = Ok tag → 0 ≤ rows → tag = "COPY " +:+ FormatInt rows.
Proof.
  unfold mergedCopyFromTag. destruct tags; [done|]. intros Hm Hr. rewrite (proj2 (Z.leb_le _ _) Hr) in Hm. cbn [andb] in Hm.
  destruct (bool_decide (mergedCommandTag _ _ = _)) eqn:Hb; cbn in Hm; [|done]. apply bool_decide_eq_true in Hb. by simplify_eq.
Qed.

Lemma handleCopyCompletion_ok c x h h' x' outs :
  copyStream (copy x) = Some c → NoDup (copyTargets (copy x)) →
  handleCopyCompletion copy_text CopyDone x h = (h', Some (x', outs, true)) →
  ∃ chunks stream l, copyrouter.Finish (cs_plan c) (cs_registry c) (cs_burrows c) (cs_stream c) = Ok (chunks, stream) ∧
    h' = h ++ l ∧ reaches (copyTargets (copy x)) chunks l ∧
    copyIn (copy x') = false ∧ base x' = base x ∧
    (outs = [ready x'] ∨ ∃ tags tag, mergedCopyFromTag tags
       (match copyPlan (copy x) with Some p => copyrouter.Sharded p | None => false end)
       (copyReplicated (copy x)) (copyrouter.Rows stream) = Ok tag ∧ outs = [send (CommandComplete tag); ready x']).
Proof.
  intros Hc Hnd. unfold handleCopyCompletion. cbv zeta. unfold finish_stream, expected_rows. rewrite Hc.
  destruct (copyrouter.Finish _ _ _ _) as [[chunks stream]|e].
  2:{ unfold mbind, X_bind, mret, X_ret. destruct (panics e); [done|]. destruct (abortCopy _ _ _ _) as [h1 [y o]]. done. }
  unfold sendCopyChunks, mbind, X_bind. destruct (send_chunks _ _ _) as [h1 [e|]] eqn:Hs; cbn [mret X_ret].
  { destruct (abortCopy _ _ _ _) as [h2 [y o]]. done. }
  apply send_chunks_ok in Hs as ->. intros Hrun. exists chunks, stream.
  pose proof (λ b, complete_copy_ok _ _ _ _ _ _ _ _ _ b Hrun) as Hok. destruct (Hok "") as ((l & E & _) & -> & Houts).
  eexists. split; [done|]. split; [rewrite E, <- app_assoc; done|]. split_and!; try done.
  rewrite <- (app_nil_r chunks). apply reaches_app; [rewrite app_nil_r; by apply chunks_reach|].
  apply reaches_nothing. intros b. destruct (Hok b) as ((l' & E' & Hl') & _). rewrite E in E'.
  apply app_inv_head in E'. by subst l'.
Qed.

(** ** Failures are told *)

(** The client is told of an error. *)
Definition told (outs : list xoutput) : Prop := ∃ e, send (ErrorMessage e) ∈ outs.
Lemma told_spec outs :
  told outs ↔ Exists (λ o, match o with XSend (Plain (ErrorMessage _)) => true | _ => false end = true) outs.
Proof.
  rewrite Exists_exists. split.
  - intros (e & He). by exists (send (ErrorMessage e)).
  - intros (o & Ho & Hm). repeat case_match; try done. by eexists; subst.
Qed.
#[export] Instance told_dec outs : Decision (told outs).
Proof.
  destruct (decide (Exists (λ o, match o with XSend (Plain (ErrorMessage _)) => true | _ => false end = true) outs))
    as [Ht|Ht]; [left; by apply told_spec | right; by intros ?%told_spec].
Defined.
Lemma told_app outs1 outs2 : told (outs1 ++ outs2) ↔ told outs1 ∨ told outs2.
Proof.
  split.
  - intros (e & [He|He]%elem_of_app); [left|right]; by exists e.
  - intros [(e & He)|(e & He)]; exists e; apply elem_of_app; auto.
Qed.
(** A COPY that ends with a failure says so. *)
Definition aloud (r : copied) : Prop := ∀ x outs, r = Some (x, outs, false) → told outs.
Lemma aloud_ends x outs h : told outs → aloud (copy_ends x outs h).2.
Proof. by intros Ht ? ? [= _ <-]. Qed.
Lemma told_session code message x : told (session_error code message x).
Proof. eexists. by left. Qed.
Lemma told_backend e x : told (backend_error e x).
Proof. exists e. by left. Qed.
Lemma told_extended code message : told [extended_error code message].
Proof. eexists. by left. Qed.
Hint Resolve aloud_ends told_session told_backend told_extended : core.
Lemma aloud_fails code message x h : aloud (copy_fails code message x h).2.
Proof. unfold copy_fails. auto. Qed.
Lemma aloud_burrow e x h : aloud (burrow_fails e x h).2.
Proof. unfold burrow_fails. auto. Qed.
Lemma aloud_ok x outs h : aloud ((mret (Some (x, outs, true)) : X copied) h).2.
Proof. by intros ? ? [=]. Qed.
Lemma aloud_none h : aloud ((mret None : X copied) h).2.
Proof. by intros ? ? [=]. Qed.
Lemma aloud_abort code cause x h : aloud (abort_with code cause x h).2.
Proof.
  unfold abort_with, abortCopy, mbind, X_bind, mret, X_ret. destruct (SendCopyTo _ _ _) as [h1 r1].
  destruct (copyhandlers.ReceiveUntilFromMany _ _) as [h2 r2]. auto.
Qed.
Lemma aloud_bind {A} (m : X A) (k : A → X copied) h : (∀ a h, aloud (k a h).2) → aloud ((m ≫= k) h).2.
Proof. intros Hk. unfold mbind, X_bind. by destruct (m h). Qed.
Hint Resolve aloud_fails aloud_burrow aloud_ok aloud_none aloud_abort : core.

Lemma aloud_data d x h : aloud (handleCopyData copy_text d x h).2.
Proof.
  unfold handleCopyData. destruct (copyStream (copy x)) as [c|]; [|apply aloud_bind; intros [e|] ?; auto].
  destruct (copyrouter.Write _ _ _ _ _) as [[chunks stream]|e]; [|destruct (panics e); auto].
  apply aloud_bind. intros [e|] ?; auto.
Qed.
Lemma aloud_complete m targets sharded replicated rows x h :
  aloud (complete_copy m targets sharded replicated rows x h).2.
Proof.
  unfold complete_copy. apply aloud_bind. intros [e|] ?; [auto|]. apply aloud_bind. intros [responses|e] ?; [|auto].
  destruct (x_firstError responses); [auto|]. destruct (tags_of responses); [auto|].
  destruct (mergedCopyFromTag _ _ _ _); auto.
Qed.
Lemma aloud_completion m x h : aloud (handleCopyCompletion copy_text m x h).2.
Proof.
  unfold handleCopyCompletion. cbv zeta. apply aloud_bind. intros [[[]|[code cause]]|] ?; [apply aloud_complete| |auto].
  unfold abortCopy, mbind, X_bind, mret, X_ret. destruct (SendCopyTo _ _ _) as [h1 r1].
  destruct (copyhandlers.ReceiveUntilFromMany _ _) as [h2 r2]. auto.
Qed.

(** ** The messages of a COPY *)

Section session.
Context (scan_binary : Z → bytes → option string) (runtimeParams : list (string * string)).
Abbreviation serve_step := (serve_step scan_binary runtimeParams copy_text).
Abbreviation serveQueries := (serveQueries scan_binary runtimeParams copy_text).

Lemma schema_barrier_spec env m x x' o :
  schema_barrier env m x = (x', o) →
  match o with
  | Some outs => told outs
  | None => copy x' = copy x ∧ active x' = active x ∧ failed x' = failed x
  end.
Proof.
  unfold schema_barrier, refreshSchemaAfterDDL. intros E.
  assert (∀ e (l : list xoutput), told (send (ErrorMessage e) :: l)) as Ht by (intros e l; exists e; by left).
  destruct m; repeat (case_match; simplify_eq/=); try done; by apply Ht.
Qed.
Lemma serveQueries_cons env m ms x h h' x' outs :
  m ≠ Terminate → serveQueries ((env, m) :: ms) x h = (h', Some (x', outs)) →
  ∃ h1 x1 o1 o2, serve_step env m x h = (h1, Some (x1, o1)) ∧ serveQueries ms x1 h1 = (h', Some (x', o2)) ∧
    outs = o1 ++ o2.
Proof.
  intros Hm Hs. assert (serveQueries ((env, m) :: ms) x h = (r ← serve_step env m x;
    match r with
    | None => mret None
    | Some (x, outs) =>
      r ← serveQueries ms x;
      mret (match r with None => None | Some (x, more) => Some (x, outs ++ more) end)
    end) h) as E by (by destruct m).
  rewrite E in Hs. unfold mbind, X_bind in Hs. destruct (serve_step env m x h) as [h1 [[x1 o1]|]]; [|done].
  destruct (serveQueries ms x1 h1) as [h2 [[x2 o2]|]] eqn:E2; [|done]. injection Hs as <- <- <-. eauto 10.
Qed.

(** A COPY is going on. *)
Definition copying (c : copyStreamState) (targets : list string) (x : xstate) : Prop :=
  copy x = {| copyIn := true; copyTargets := targets; copyPlan := Some (cs_plan c); copyStream := Some c;
              copyReplicated := false; copyAborted := false |} ∧ active x = true.
Definition with_rest (c : copyStreamState) (stream : copyrouter.Stream) : copyStreamState := {|
  cs_plan := cs_plan c; cs_registry := cs_registry c; cs_burrows := cs_burrows c; cs_stream := stream |}.

Lemma serve_data env d c targets x h h' x' outs :
  copying c targets x → NoDup targets → serve_step env (CopyData d) x h = (h', Some (x', outs)) → ¬ told outs →
  ∃ chunks stream l, copyrouter.Write (cs_plan c) (cs_registry c) (cs_burrows c) d (cs_stream c) = Ok (chunks, stream) ∧
    copying (with_rest c stream) targets x' ∧ outs = [] ∧ h' = h ++ l ∧ reaches targets chunks l.
Proof.
  intros [Hc Ha] Hnd. unfold serve.serve_step. cbn [cloneFrontendMessage].
  destruct (schema_barrier env (CopyData d) x) as [x1 [o|]] eqn:Hb; apply schema_barrier_spec in Hb.
  { by intros [= _ _ <-]. }
  destruct Hb as (Hc1 & Ha1 & _). cbn [serve_message serve_copy]. rewrite Hc1, Hc, Ha1, Ha. cbn [copyIn copyAborted negb orb].
  unfold mbind, X_bind. pose proof (aloud_data d x1 h) as Hal.
  destruct (handleCopyData copy_text d x1 h) as [h1 [[[x2 o] [|]]|]] eqn:Hd; cbn [mret X_ret]; [| |done].
  - destruct (handleCopyData_ok d x1 c h h1 x2 o) as (chunks & stream & l & Hw & -> & -> & -> & Hl);
      [by rewrite Hc1, Hc|by rewrite Hc1, Hc|exact Hd|]. cbn. intros [= <- <- <-] _.
    exists chunks, stream, l. rewrite Hc1, Hc in Hl. split_and!; try done.
    split; [|exact (eq_trans Ha1 Ha)]. cbn. by rewrite Hc1, Hc.
  - cbn. rewrite app_nil_r. intros [= _ _ <-] []. by eapply Hal.
Qed.
Lemma serve_data_all fragments c targets x h h' x' outs rest :
  copying c targets x → NoDup targets →
  serveQueries (((λ f : environment * bytes, (f.1, CopyData f.2)) <$> fragments) ++ rest) x h = (h', Some (x', outs)) →
  ¬ told outs →
  ∃ chunks stream l x1, stream_of c fragments.*2 (cs_stream c) = Ok (chunks, stream) ∧
    copying (with_rest c stream) targets x1 ∧ reaches targets chunks l ∧
    serveQueries rest x1 (h ++ l) = (h', Some (x', outs)).
Proof.
  revert c x h outs. induction fragments as [|[env d] fragments IH]; intros c x h outs Hc Hnd.
  { cbn [fmap list_fmap app]. intros Hr _. exists [], (cs_stream c), [], x. rewrite app_nil_r.
    split_and!; try done; [by destruct c|by apply reaches_nothing]. }
  cbn [fmap list_fmap app fst snd]. intros (h1 & x1 & o1 & o2 & Hs & Hr & ->)%serveQueries_cons Ht; [|done].
  rewrite told_app in Ht.
  destruct (serve_data env d c targets x h h1 x1 o1) as (chunks & stream & l & Hw & Hc1 & -> & -> & Hl); [exact Hc|exact Hnd|exact Hs|tauto|].
  edestruct IH as (chunks2 & stream2 & l2 & x2 & Hf & Hc2 & Hl2 & Hr2); [exact Hc1|exact Hnd|exact Hr|tauto|].
  exists (chunks ++ chunks2), stream2, (l ++ l2), x2. rewrite app_assoc. split_and!; try done.
  - by eapply feed_cons.
  - by apply reaches_app.
Qed.
Lemma serve_done env c targets x h h' x' outs :
  copying c targets x → NoDup targets → copyrouter.Sharded (cs_plan c) = true →
  serve_step env CopyDone x h = (h', Some (x', outs)) → ¬ told outs →
  ∃ chunks stream l, copyrouter.Finish (cs_plan c) (cs_registry c) (cs_burrows c) (cs_stream c) = Ok (chunks, stream) ∧
    h' = h ++ l ∧ reaches targets chunks l ∧ copyIn (copy x') = false ∧
    (outs = [ready x'] ∨ ∃ tags tag, mergedCopyFromTag tags true false (copyrouter.Rows stream) = Ok tag ∧
       outs = [send (CommandComplete tag); ready x']).
Proof.
  intros [Hc Ha] Hnd Hsh. unfold serve.serve_step. cbn [cloneFrontendMessage].
  destruct (schema_barrier env CopyDone x) as [x1 [o|]] eqn:Hb; apply schema_barrier_spec in Hb.
  { by intros [= _ _ <-]. }
  destruct Hb as (Hc1 & Ha1 & _). cbn [serve_message serve_copy]. rewrite Hc1, Hc, Ha1, Ha. cbn [copyIn copyAborted negb orb].
  unfold mbind, X_bind. pose proof (aloud_completion CopyDone x1 h) as Hal.
  destruct (handleCopyCompletion copy_text CopyDone x1 h) as [h1 [[[x2 o] [|]]|]] eqn:Hd; cbn [mret X_ret]; [| |done].
  - destruct (handleCopyCompletion_ok c x1 h h1 x2 o) as (chunks & stream & l & Hf & -> & Hl & Hin & _ & Houts);
      [by rewrite Hc1, Hc|by rewrite Hc1, Hc|exact Hd|]. cbn. rewrite app_nil_r. intros [= <- <- <-] _.
    rewrite Hc1, Hc in Hl, Houts. cbn in Hl, Houts. rewrite Hsh in Houts. eauto 10.
  - cbn. rewrite app_nil_r. intros [= _ _ <-] []. by eapply Hal.
Qed.
Lemma serve_done_idle env x h h' x' outs :
  copyIn (copy x) = false → copyAborted (copy x) = false →
  serve_step env CopyDone x h = (h', Some (x', outs)) → told outs.
Proof.
  intros Hin Hab. unfold serve.serve_step. cbn [cloneFrontendMessage].
  destruct (schema_barrier env CopyDone x) as [x1 [o|]] eqn:Hb; apply schema_barrier_spec in Hb.
  { by intros [= _ _ <-]. }
  destruct Hb as (Hc1 & _). cbn [serve_message serve_copy]. rewrite Hc1, Hin, Hab. intros [= _ _ <-]. eexists. by left.
Qed.
Lemma serve_data_idle env d x h h' x' outs :
  copyIn (copy x) = false → copyAborted (copy x) = false →
  serve_step env (CopyData d) x h = (h', Some (x', outs)) → told outs.
Proof.
  intros Hin Hab. unfold serve.serve_step. cbn [cloneFrontendMessage].
  destruct (schema_barrier env (CopyData d) x) as [x1 [o|]] eqn:Hb; apply schema_barrier_spec in Hb.
  { by intros [= _ _ <-]. }
  destruct Hb as (Hc1 & _). cbn [serve_message serve_copy]. rewrite Hc1, Hin, Hab. intros [= _ _ <-]. eexists. by left.
Qed.

(** ** The start *)

Lemma copy_out_copy plan count index targets tags sent x h h' x' outs ok :
  copy_out copy_text plan count index targets tags sent x h = (h', Some (x', outs, ok)) → copy x' = copy x.
Proof.
  revert index tags sent h. induction targets as [|n targets IH]; intros index tags sent h; cbn [copy_out]; [by intros [= _ <- _ _]|].
  unfold mbind, X_bind, receive. destruct (copy_out_messages _ _ _ _) as [c failure].
  destruct (match failure with Some _ => _ | None => _ end); [by intros [= _ <- _ _]|].
  destruct (co_error c); [by intros [= _ <- _ _]|].
  destruct (copyrouter.OutputFinish _ _) as [[parts o]|]; [apply IH|by intros [= _ <- _ _]].
Qed.

(** The COPY of a sharded table is not routed: it goes to every Burrow. *)
Lemma copy_keys_sharded p keys unsupported registry p' :
  copyrouter.copy_keys p keys unsupported registry = Ok p' → copyrouter.Sharded p' = copyrouter.Sharded p.
Proof.
  unfold copyrouter.copy_keys. intros Hk.
  repeat match type of Hk with mbind _ ?m = _ => destruct m; [|done]; cbn [mbind result_bind] in Hk end.
  by injection Hk as <-.
Qed.
Lemma parse_copy_relation statement registry p :
  copyrouter.parse_copy statement registry = Ok p → copyrouter.Sharded p = true →
  ∃ rel, get_msg (Some statement) "Relation" = Some rel ∧ IsSharded registry (router.relationName (Some rel)) = true.
Proof.
  unfold copyrouter.parse_copy. cbv zeta. destruct (get_msg (Some statement) "Relation") as [rel|].
  2:{ destruct (fail_if _ copyrouter.MustNameRelation); [|done]. cbn [mbind result_bind].
      destruct (fail_if _ copyrouter.ServerSideRelation); [|done]. by intros [= <-]. }
  intros Hp Hs. exists rel. split; [done|]. revert Hp.
  destruct (copyrouter.copy_columns _) as [columns|]; [|done]. cbn [mbind result_bind].
  destruct (_ || _); [by intros [= <-]|]. set (p0 := {| copyrouter.Table := _ |}).
  destruct (mfold copyrouter.copy_option (p0, ∅, []) _) as [[[p1 seen] u]|] eqn:Ho; [|done]. cbn [mbind result_bind].
  apply copyrouter.copy_options_target in Ho as (_ & _ & _ & _ & _ & S1 & _).
  destruct (copyrouter.copy_format p1 seen) as [p2|] eqn:Hf; [|done]. cbn [mbind result_bind].
  apply copyrouter.copy_format_target in Hf as (_ & _ & _ & _ & _ & S2 & _).
  destruct (fail_if _ copyrouter.InvalidDelimiter); [|done]. cbn [mbind result_bind].
  destruct (fail_if _ copyrouter.QuoteIsDelimiter); [|done]. cbn [mbind result_bind].
  change (IsSharded registry (router.relationName (Some rel))) with (copyrouter.Sharded p0). rewrite S1, S2, <- Hs.
  destruct (ShardKey registry _); [|by intros [= <-]]. destruct (copyrouter.From p2); [|by intros [= <-]].
  intros Hk. by apply copy_keys_sharded in Hk.
Qed.
Lemma copy_statement_unrouted tree st statement rel registry burrows pl :
  router.single_statement tree = Some st → as_node "CopyStmt" (Some st) = Some statement →
  get_msg (Some statement) "Relation" = Some rel → IsSharded registry (router.relationName (Some rel)) = true →
  router.Analyze (Some (router.prepare_tree tree)) [] registry burrows = Some pl →
  router.SingleBurrow pl = false ∧ router.Sharded pl = true ∧ router.Routed pl = false.
Proof.
  intros Hst Hcopy Hrel Hs. unfold router.prepare_tree. rewrite Hst. pose proof (as_node_name _ _ _ Hcopy) as Hname.
  unfold as_node in Hcopy. unfold router.finish_prepare, router.prepare_statement, router.prepare_dml.
  destruct (GetNode (Some st)) as [m|]; [|done]. cbn [mbind option_bind] in *.
  destruct (decide (msg_name m = "CopyStmt")) as [Hm|]; [|done]. injection Hcopy as ->.
  rewrite !decide_False by (rewrite Hname; done). rewrite Hrel.
  unfold router.Analyze. cbn [router.read router.set_relations router.set_target router.new_prepared].
  unfold router.resolve. cbn -[router.relationName IsSharded]. rewrite Hs. cbn [negb orb].
  destruct (_ || _); [by intros [= <-]|]. destruct (negb _); [by intros [= <-]|]. by intros [= <-].
Qed.
Lemma copy_targets_all env text plan x targets x1 :
  copyrouter.Parse text (registry env) = Ok plan → copyrouter.Sharded plan = true →
  copy_targets env text x = Some (Ok targets, x1) →
  targets = ShardNames env ∧ copy x1 = copy x ∧ active x1 = active x.
Proof.
  unfold copyrouter.Parse, copy_targets, routeplan.routeSQL, router.Prepare.
  destruct (PgQuery.Parse text) as [tree|]; [|done]. cbn [or_fail mbind result_bind fmap option_fmap option_map].
  destruct (router.single_statement tree) as [st|] eqn:Hst; [|done]. cbn [mbind option_bind].
  destruct (as_node "CopyStmt" (Some st)) as [statement|] eqn:Hc; [|done]. cbn [or_fail mbind result_bind].
  intros Hp Hs. destruct (parse_copy_relation _ _ _ Hp Hs) as (rel & Hrel & Hsh).
  destruct (router.Analyze _ _ _ _) as [pl|] eqn:Ha; [|done]. cbn [mbind option_bind].
  destruct (copy_statement_unrouted _ _ _ _ _ _ _ Hst Hc Hrel Hsh Ha) as (HS & Hshard & HR).
  unfold routeplan.routePlan. rewrite HS, Hshard, HR, !orb_true_r. cbn. by intros [= <- <-].
Qed.

Lemma exchange_delivers_nothing text targets b h :
  ∃ l, (x_exchange [Query text; Flush] targets h).1 = h ++ l ∧ delivered b l = [].
Proof.
  destruct (x_exchange_does (λ e, delivery b e = []) [Query text; Flush] targets) with (h := h) as (l & E & Hl & _).
  { intros b' r _. cbn. by destruct (_ && _). }
  exists l. split; [done|]. by apply delivered_none.
Qed.

Lemma copy_starts env text plan x h h' x' outs ok :
  copyrouter.Parse text (registry env) = Ok plan →
  copyrouter.From plan = true → copyrouter.Sharded plan = true →
  copyrouter.ServerSide plan = false → copyrouter.Program plan = false →
  copyIn (copy x) = false → copyAborted (copy x) = false → active x = true →
  handleCopyQuery env copy_text text x h = (h', Some (x', outs, ok)) → ¬ told outs →
  (copyIn (copy x') = false ∧ copyAborted (copy x') = false) ∨
  ∃ stream l, copyrouter.NewStream plan = Ok stream ∧ outs = [send CopyInResponse] ∧
    copying {| cs_plan := plan; cs_registry := registry env; cs_burrows := ShardNames env; cs_stream := stream |}
      (ShardNames env) x' ∧
    h' = h ++ l ∧ ∀ b, delivered b l = [].
Proof.
  intros Hp Hfrom Hsh Hside Hprog Hin Hab Hact. unfold handleCopyQuery. rewrite Hp, Hprog, Hside.
  destruct (copy_targets env text x) as [[[targets|e] x1]|] eqn:Ht; [|by intros [= _ _ <- _] []|done].
  destruct (copy_targets_all _ _ _ _ _ _ Hp Hsh Ht) as (-> & Hc1 & Ha1).
  unfold new_stream. rewrite Hfrom, Hsh. cbn [andb].
  destruct (copyrouter.NewStream plan) as [stream|e] eqn:Hs; cbn [mbind result_bind]; [|by intros [= _ _ <- _] []].
  unfold mbind, X_bind. pose proof (λ b, exchange_delivers_nothing text (ShardNames env) b h) as Hx.
  destruct (x_exchange [Query text; Flush] (ShardNames env) h) as [h1 [responses|e]]; [|by intros [= _ _ <- _] []].
  destruct (x_firstError responses); [by intros [= _ _ <- _] []|].
  destruct (copy_response responses) as [[m| |]|e]; try by intros [= _ _ <- _] [].
  destruct m; try by intros [= _ _ <- _] [].
  all: try (intros Hrun _; left; apply copy_out_copy in Hrun as ->; by rewrite Hc1).
  intros [= <- <- <- <-] _. right. destruct (Hx "") as (l & E & _). cbn in E. subst h1.
  exists stream, l. split_and!; try done.
  - split; [|cbn; congruence]. cbn. by rewrite Hfrom, Hsh.
  - intros b. destruct (Hx b) as (l' & E & Hl). cbn in E. apply app_inv_head in E. by subst l'.
Qed.
Lemma serve_copy_query env text plan x h h' x' outs :
  copyrouter.Parse text (registry env) = Ok plan →
  copyrouter.From plan = true → copyrouter.Sharded plan = true →
  copyrouter.ServerSide plan = false → copyrouter.Program plan = false →
  failed x = false → firstSQLKeyword text = "COPY" → copyIn (copy x) = false → copyAborted (copy x) = false →
  serve_step env (Query text) x h = (h', Some (x', outs)) → ¬ told outs →
  (copyIn (copy x') = false ∧ copyAborted (copy x') = false) ∨
  ∃ stream l, copyrouter.NewStream plan = Ok stream ∧ outs = [send CopyInResponse] ∧
    copying {| cs_plan := plan; cs_registry := registry env; cs_burrows := ShardNames env; cs_stream := stream |}
      (ShardNames env) x' ∧
    h' = h ++ l ∧ ∀ b, delivered b l = [].
Proof.
  intros Hp Hfrom Hsh Hside Hprog Hfail Hk Hin Hab. unfold serve.serve_step. cbn [cloneFrontendMessage].
  destruct (schema_barrier env (Query text) x) as [x1 [o|]] eqn:Hb; apply schema_barrier_spec in Hb.
  { by intros [= _ _ <-]. }
  destruct Hb as (Hc1 & _ & Hf1). cbn [serve_message]. unfold serve_query. rewrite Hf1, Hfail, decide_True by done.
  unfold mbind, X_bind.
  destruct (handleCopyQuery env copy_text text _ h) as [h1 [[[x2 o] ok]|]] eqn:Hq; cbn [mret X_ret without_result]; [|done].
  intros Hrel Ht. assert (copy x' = copy x2 ∧ (copyIn (copy x2) = true → x' = x2 ∧ outs = o ∧ h' = h1) ∧
    ∃ more, outs = o ++ more) as (Hc' & Hkeep & more & ->).
  { unfold release_after, releasable, mbind, X_bind in Hrel. destruct (copyIn (copy x2)) eqn:E2.
    - rewrite andb_false_r in Hrel. cbn [negb] in Hrel. rewrite ?andb_false_r in Hrel. cbn in Hrel. injection Hrel as <- <- <-.
      rewrite app_nil_r. split_and!; try done. exists []. by rewrite app_nil_r.
    - destruct (_ && _); cbn in Hrel; injection Hrel as <- <- <-; split_and!; try done; by eexists. }
  rewrite told_app in Ht.
  destruct (copy_starts env text plan (ensureSession x1) h h1 x2 o ok) as [[Hi2 Ha2]|(stream & l & Hs & -> & Hcop & -> & Hl)];
    try done; [cbn; by rewrite Hc1..|tauto| |].
  - left. by rewrite Hc'.
  - right. destruct Hcop as [Hcop Hact]. destruct Hkeep as (-> & Ho & ->); [by rewrite Hcop|]. exists stream, l.
    by rewrite Ho.
Qed.

(** C6: a COPY FROM STDIN into a sharded table delivers the client's rows. A
    client that is in no COPY sends the statement, its data in any number of
    messages and CopyDone; the environment may change between the messages.
    Unless it is told of an error, the COPY was accepted and ended, and what
    was written to the Burrows is the client's data, cut into lines or tuples:
    each row once, to the Burrow that owns its shard key when the COPY began
    and to no other, with the header, the binary envelope and the end markers
    on every Burrow. The client receives the Burrows' common answer, a tag with
    the number of rows and ReadyForQuery. The registry is one whose placements
    name only served Burrows, as [New] and every refresh of the topology leave
    it. (An error does not end the COPY when it is that of a schema refresh
    between two messages: [refresh_failure_drops_copy_data].) *)
Theorem copy_in_delivers_rows env text plan fragments env_done x h h' x' outs :
  copyrouter.Parse text (registry env) = Ok plan →
  copyrouter.From plan = true → copyrouter.Sharded plan = true →
  copyrouter.ServerSide plan = false → copyrouter.Program plan = false →
  firstSQLKeyword text = "COPY" → failed x = false → copyIn (copy x) = false → copyAborted (copy x) = false →
  NoDup (ShardNames env) →
  (∀ values types b, shardkey.owns (copyrouter.Table plan) values types (registry env) (ShardNames env) b → b ∈ ShardNames env) →
  serveQueries ((env, Query text) :: ((λ f : environment * bytes, (f.1, CopyData f.2)) <$> fragments) ++ [(env_done, CopyDone)])
    x h = (h', Some (x', outs)) →
  told outs ∨
  ∃ chunks l, h' = h ++ l ∧ copyIn (copy x') = false ∧
    copyrouter.partitioned plan (registry env) (ShardNames env) chunks ∧
    concat (copyrouter.Data <$> chunks) = concat fragments.*2 ∧
    Forall (λ c, copyrouter.Target c ≠ "" → copyrouter.Target c ∈ ShardNames env) chunks ∧
    (∀ b, delivered b l = if bool_decide (b ∈ ShardNames env) then meant_for b chunks else []) ∧
    (outs = [send CopyInResponse; ready x'] ∨
     ∃ tag, outs = [send CopyInResponse; send (CommandComplete tag); ready x'] ∧
       let rows := Z.of_nat (length (copyrouter.row_chunks chunks)) in
       (rows ≤ max_int64 → tag = "COPY " +:+ FormatInt rows)).
Proof.
  intros Hp Hfrom Hsh Hside Hprog Hk Hfail Hin Hab Hnd Howns (h1 & x1 & o1 & o2 & Hq & Hrest & ->)%serveQueries_cons; [|done].
  rewrite told_app. destruct (decide (told o1)) as [|Ho1]; [by left; left|]. destruct (decide (told o2)) as [|Ho2]; [by left; right|]. right.
  destruct (serve_copy_query _ _ _ _ _ _ _ _ Hp Hfrom Hsh Hside Hprog Hfail Hk Hin Hab Hq Ho1)
    as [[Hin1 Hab1]|(stream & l0 & Hnew & -> & Hcop & -> & Hl0)].
  { destruct Ho2. destruct fragments as [|[e d] fragments].
    - apply serveQueries_cons in Hrest as (h2 & x2 & o3 & o4 & Hs & _ & ->); [|done].
      apply told_app. left. by eapply serve_done_idle.
    - apply serveQueries_cons in Hrest as (h2 & x2 & o3 & o4 & Hs & _ & ->); [|done].
      apply told_app. left. by eapply serve_data_idle. }
  set (c := {| cs_plan := plan |}) in Hcop.
  destruct (serve_data_all fragments c (ShardNames env) x1 (h ++ l0) h' x' o2 [(env_done, CopyDone)] Hcop Hnd Hrest Ho2)
    as (cs1 & s1 & l1 & x2 & Hf & Hcop2 & Hl1 & Hd).
  apply serveQueries_cons in Hd as (h2 & x3 & o3 & o4 & Hd & [= <- <- <-] & ->); [|done]. rewrite app_nil_r in *.
  destruct (serve_done env_done _ _ _ _ _ _ _ Hcop2 Hnd Hsh Hd Ho2) as (cs2 & s2 & l2 & Hfin & -> & Hl2 & Hin' & Houts).
  cbn in Hf, Hfin. exists (cs1 ++ cs2), (l0 ++ l1 ++ l2).
  pose proof (copyrouter.stream_partitioned _ _ _ _ _ _ _ _ _ Hnew Hf Hfin) as Hpart.
  split_and!; try done.
  - by rewrite !app_assoc.
  - pose proof Hnew as Hnew'. unfold copyrouter.NewStream in Hnew'. destruct (fail_if _ _); [|done]. injection Hnew' as Hnew'.
    apply copyrouter.Finish_prefix in Hfin as [Hfin _]. apply copyrouter.feed_app, copyrouter.Write_prefix in Hf.
    rewrite <- Hnew' in Hf. cbn in Hf. by rewrite fmap_app, concat_app, <- Hfin.
  - apply copyrouter.partitioned_owned in Hpart. eapply Forall_impl; [exact Hpart|]. intros ch Hch Hne. cbn in Hch.
    destruct (Hch Hne) as (values & types & Ho). by eapply Howns.
  - intros b. rewrite <- chunks_meant, delivered_app, Hl0. by apply reaches_app.
  - destruct Houts as [->|(tags & tag & Hm & ->)]; [by left|]. right. exists tag. split; [done|]. cbv zeta. intros Hrows.
    pose proof (copyrouter.stream_rows _ _ _ _ _ _ _ _ _ Hnew Hf Hfin) as Hcount.
    rewrite swrap_small in Hcount by (split; [unfold min_int64; lia | exact Hrows]). rewrite Hcount in Hm.
    eapply merged_sharded_tag; [exact Hm | lia].
Qed.
End session.
(** * Failures *)

(** when the refresh of the schema registry that another session
    owes fails, COPY data that has just arrived is thrown away and the COPY
    goes on: the Burrows then receive the later data, and commit it, as if the
    lost data had never been sent. *)
Theorem refresh_failure_drops_copy_data scan_binary runtimeParams bad good d1 m x h message :
  schemaRefreshPending (srv x) = true → refresh bad = Some message →
  ∃ x', serve_step scan_binary runtimeParams copy_text bad (CopyData d1) x h =
      (h, Some (x', [send (ErrorMessage (refresh_error message))])) ∧
    copy x' = copy x ∧ base x' = base x ∧
    serveQueries scan_binary runtimeParams copy_text [(bad, CopyData d1); (good, m)] x h =
      (r ← serveQueries scan_binary runtimeParams copy_text [(good, m)] x';
       mret (match r with
             | None => None
             | Some (x2, outs) => Some (x2, send (ErrorMessage (refresh_error message)) :: outs)
             end)) h.
Proof.
  intros Hp Hr. eexists. split; [|split; [|split]].
  - unfold serve_step. cbn [cloneFrontendMessage schema_barrier]. rewrite Hp, orb_true_r. unfold refreshSchemaAfterDDL. rewrite Hr.
    cbn [simple_query]. reflexivity.
  - done.
  - done.
  - cbn [serveQueries]. unfold mbind at 1, X_bind at 1.
    unfold serve_step at 1. cbn [cloneFrontendMessage schema_barrier]. rewrite Hp, orb_true_r. unfold refreshSchemaAfterDDL. rewrite Hr.
    cbn [simple_query]. done.
Qed.

(** when a Burrow fails during COPY TO STDOUT, the Burrows after it
    are not read at all: what they have already been asked to send stays on
    their connections. *)
Theorem copy_out_failure_leaves_unread plan count index target targets tags sent x h e :
  let r := answer h target [] in
  (copy_out_messages copy_text plan {| co_output := copyrouter.NewOutputStream plan index count;
     co_tags := tags; co_error := None; co_sent := sent |} (got r)).2 = None →
  broken r = None →
  co_error (copy_out_messages copy_text plan {| co_output := copyrouter.NewOutputStream plan index count;
     co_tags := tags; co_error := None; co_sent := sent |} (got r)).1 = Some e →
  ∃ x' outs, copy_out copy_text plan count index (target :: targets) tags sent x h =
      (h ++ [Exchanged target [] r], Some (x', outs ++ backend_error e x', false)) ∧
    transactionFailed (base x') = transaction (base x).
Proof.
  intros r Hm Hb He. cbn [copy_out]. unfold mbind, X_bind, receive. fold r.
  destruct (copy_out_messages _ _ _ _) as [c failure]. cbn in Hm, He. rewrite Hm, Hb, He. eexists _, (co_sent c). split; [done|]. done.
Qed.
End copy.

(** * Witnesses *)

(** Burrows that accept a COPY, take the data and count one row for each message. *)
Definition writes (burrow : string) (h : list xevent) : Z :=
  Z.of_nat (length (filter (λ e, delivery burrow e ≠ []) h)).
Definition copying_burrows : Connections := {|
  connect_error := λ _ _, None; write_error := λ _ _ _, None;
  answer := λ h burrow ms,
    {| got := match ms with
              | Query _ :: _ => [Plain CopyInResponse]
              | _ => [Plain (CommandComplete ("COPY " +:+ FormatInt (writes burrow h))); Plain (ReadyForQuery "I"%char)]
              end; broken := None |};
  IsPrepared := λ _ _ _, false; ConnectedNames := λ _, ["a"; "b"];
  pooled_result := λ _ _ _, Err (fanout.ConnectionError ""); arrival := λ _ _ names, names |}.
#[local] Existing Instances toy_floats delete_parser toy_std canonical_order copying_burrows.

Definition text_errors (e : copyrouter.error) : string := "".
Definition accounts_plan : copyrouter.Plan := copyrouter.accounts_copy_plan copyrouter.FormatText.
Definition accounts_stream : copyStreamState := {|
  cs_plan := accounts_plan; cs_registry := accounts; cs_burrows := ["a"; "b"]; cs_stream := copyrouter.start |}.
Definition in_copy : xstate := with_active true (with_copy {|
  copyIn := true; copyTargets := ["a"; "b"]; copyPlan := Some accounts_plan; copyStream := Some accounts_stream;
  copyReplicated := false; copyAborted := false |} (new_state idle_server)).


Definition no_binary (oid : Z) (value : bytes) : option string := None.
(** A COPY of two rows in three messages. *)
Definition copy_text_sql : string := "COPY accounts (name, region, tenant_id) FROM STDIN".
Definition copy_parser : PgQuery := parses_to [raw_stmt copyrouter.accounts_copy].
Definition copy_messages : list (environment * FrontendMessage) :=
  (two_burrows, Query copy_text_sql)
  :: ((λ f : environment * bytes, (f.1, CopyData f.2)) <$> ((two_burrows,.) <$> copyrouter.accounts_fragments))
  ++ [(two_burrows, CopyDone)].
Definition parsed_plan : copyrouter.Plan := copyrouter.set_syntax accounts_plan copyrouter.TAB "\N" false copyrouter.ZERO copyrouter.ZERO "UTF8".
Lemma accounts_owned table values types b :
  shardkey.owns table values types accounts ["a"; "b"] b → b ∈ ["a"; "b"].
Proof.
  intros (canonical & _ & [[Hn _]|(_ & _ & _ & Hb)]); [|done]. exfalso. revert Hn.
  unfold VShardCountFor, table_placement. destruct (tableVShards accounts) as [m|] eqn:E; by vm_compute in E.
Qed.

Lemma copy_in_delivers_rows_witness :
  ∃ h' x' tag,
    serveQueries (H0 := copy_parser) no_binary [] text_errors copy_messages (new_state idle_server) [] =
      (h', Some (x', [send CopyInResponse; send (CommandComplete tag); ready x'])) ∧
    ∃ chunks l, h' = l ∧ copyIn (copy x') = false ∧
      copyrouter.partitioned parsed_plan accounts ["a"; "b"] chunks ∧
      concat (copyrouter.Data <$> chunks) = concat copyrouter.accounts_fragments ∧
      (∀ b, delivered b l = if bool_decide (b ∈ ["a"; "b"]) then meant_for b chunks else []) ∧
      tag = "COPY 2".
Proof.
  destruct (serveQueries (H0 := copy_parser) no_binary [] text_errors copy_messages (new_state idle_server) []) as [h' [[x' outs]|]] eqn:E;
    [|vm_compute in E; discriminate].
  assert (outs = [send CopyInResponse; send (CommandComplete "COPY 2"); ready x']) as ->
    by (vm_compute in E; injection E as _ <- <-; vm_compute; reflexivity).
  exists h', x', "COPY 2". split; [reflexivity|].
  destruct (copy_in_delivers_rows (H0 := copy_parser) text_errors no_binary [] two_burrows copy_text_sql parsed_plan
    ((two_burrows,.) <$> copyrouter.accounts_fragments) two_burrows (new_state idle_server) [] h' x' _
    ltac:(vm_compute; reflexivity) eq_refl eq_refl eq_refl eq_refl ltac:(vm_compute; reflexivity) eq_refl eq_refl eq_refl
    ltac:(by_computation) (λ values types b, accounts_owned _ values types b) E)
    as [Ht|(chunks & l & -> & Hin & Hpart & Hbytes & _ & Hdel & _)].
  - exfalso. apply told_spec in Ht. rewrite !Exists_cons in Ht. by destruct Ht as [?|[?|[?|?%Exists_nil]]].
  - exists chunks, l. split; [reflexivity|]. split; [exact Hin|]. split; [exact Hpart|].
    split; [exact Hbytes|]. split; [exact Hdel|reflexivity].
Defined.

(** The first row of two is lost; the COPY ends with the second. *)
Definition stale_copy : xstate := with_srv {| topologyReadIndex := 0; schemaRefreshPending := true |} in_copy.
Definition etcd_down : environment := {|
  twoPhaseCommit := true; ShardNames := ["a"; "b"]; registry := accounts; UnshardedMode := ""; PrimaryBurrow := "";
  random := None; gid := "g"; NextGlobalID := Ok 1; lock_acquired := true; refresh := Some "etcd unavailable";
  MakeStrNode := router.mk_string; MakeResTargetNodeWithName := λ _ _, router.mk_string "" |}.
Definition row_1 : bytes := bytes_of "Ann" ++ [copyrouter.TAB] ++ bytes_of "eu" ++ [copyrouter.TAB] ++ bytes_of "7" ++ [copyrouter.NL].
Definition row_2 : bytes := bytes_of "Bo" ++ [copyrouter.TAB] ++ bytes_of "us" ++ [copyrouter.TAB] ++ bytes_of "8" ++ [copyrouter.NL].

Lemma refresh_failure_drops_copy_data_witness :
  ∃ x', serve_step no_binary [] text_errors etcd_down (CopyData row_1) stale_copy [] =
      ([], Some (x', [send (ErrorMessage (refresh_error "etcd unavailable"))])) ∧
    copy x' = copy stale_copy.
Proof.
  destruct (refresh_failure_drops_copy_data text_errors no_binary [] etcd_down two_burrows row_1 (CopyData row_2) stale_copy []
    "etcd unavailable" eq_refl eq_refl) as (x' & E & Hc & _). by exists x'.
Defined.


(** The client is told of an error, then that one row was copied. *)
Definition lossy_copy : list xevent * handled := serveQueries no_binary [] text_errors
  [(etcd_down, CopyData row_1); (two_burrows, CopyData row_2); (two_burrows, CopyDone)] stale_copy [].
Example only_second_row_copied :
  delivered "a" lossy_copy.1 ++ delivered "b" lossy_copy.1 = row_2 ∧
  (snd <$> lossy_copy.2) = Some [send (ErrorMessage (refresh_error "etcd unavailable"));
                                 send (CommandComplete "COPY 1"); send (ReadyForQuery "I"%char)].
Proof. vm_compute. by split. Qed.

Definition failing_burrow : Connections := {|
  connect_error := λ _ _, None; write_error := λ _ _ _, None;
  answer := λ _ _ _, {| got := [CopyDataMessage row_1; Plain (ErrorMessage (sql_error "58030" "could not read block"));
                                Plain (ReadyForQuery "I"%char)]; broken := None |};
  IsPrepared := λ _ _ _, false; ConnectedNames := λ _, ["a"; "b"];
  pooled_result := λ _ _ _, Err (fanout.ConnectionError ""); arrival := λ _ _ names, names |}.
Lemma copy_out_failure_leaves_unread_witness :
  ∃ r x' outs, copy_out (H2 := failing_burrow) text_errors accounts_plan 2 0 ["a"; "b"] [] [] in_copy [] =
    ([Exchanged "a" [] r], Some (x', outs, false)).
Proof.
  destruct (copy_out_failure_leaves_unread (H3 := failing_burrow) text_errors accounts_plan 2 0 "a" ["b"] [] [] in_copy []
    (sql_error "58030" "could not read block") ltac:(vm_compute; reflexivity) eq_refl ltac:(vm_compute; reflexivity)) as (x' & outs & E & _).
  eexists _, x', _. exact E.
Defined.
End copysessions.
