(* ===== verification/Report.v ===== *)
(** The PostgreSQL compatibility report, from [internal/pgcompat/report.go] and
    the command [tools/pgcompat/main.go]: reading the output of pg_regress and
    its schedule, regressions against a baseline, reviewed differences, and the
    exit status that decides whether a change may be merged.

    JSON files, output files and their regular expressions are parameters; the
    expression that recognises a TAP result is translated to the scanner it is. *)
From S2P Require Import Prelude.
From S2P Require Import GoStrings.
From S2P Require Import GoNumbers.
From S2P Require Import GoStd.

Module report.

(** * Data *)

Inductive TestStatus := StatusPass | StatusFail | StatusMissing.
#[export] Instance TestStatus_eq_dec : EqDecision TestStatus.
Proof. solve_decision. Defined.
Record TestResult := { Name : string; Status : TestStatus; DurationMS : Z }.
Record Results := {
  PostgreSQLVersion : string;
  ExpectedTests : Z; PassedTests : Z; FailedTests : Z;
  MissingTests : list string;
  ProxyCrashes : Z;
  Tests : list TestResult;
}.
Record Regression := { r_name : string; Previous : TestStatus; Current : TestStatus }.
Record OutputNormalization := { Pattern : string; Replacement : string; ExpectedMatches : Z }.
Record ExpectedDifference := {
  Test : string; OutputSHA256 : string; Reason : string; Normalizations : list OutputNormalization }.
Record DifferenceVerification := {
  Difference : ExpectedDifference; ActualSHA256 : string; Matched : bool; Problem : string }.
Record BadgeEndpoint := { Label : string; Message : string; Color : string }.

Inductive error :=
| DuplicateResult (name : string) | BadDuration (name : string)
| ReadFailed (what error : string) | NoResults | NoScheduledTests
| DuplicateScheduled (name : string)
| Incomplete (completed scheduled : Z) (missing : list string)
| Undecodable (path error : string)
| WrongFormatVersion (path : string) (version : Z)
| OmittedDifferences (path : string)
| InvalidTestName (path test : string) | DuplicateTest (path test : string)
| InvalidDigest (path test : string) | NoReason (path test : string)
| InvalidNormalization (path test error : string) | NonPositiveMatches (path test : string)
| NoTestResultsDirectory | WrongVersion (expected tested : string).

(** * Reading lines *)

(** What a reader delivers, and the error it ends with if it is not the end. *)
Record reader := { contents : string; read_error : option string }.

(** [bufio.ScanLines]: [line] is the reversed line so far. *)
Fixpoint lines_go (line s : string) : list string :=
  match s with
  | EmptyString => if decide (line = "") then [] else [reverse line]
  | String c s =>
    if decide (c = "010"%char) then reverse line :: lines_go "" s else lines_go (String c line) s
  end.
Definition drop_carriage_return (line : string) : string := TrimSuffix line (String "013" "").
(** A [bufio.Scanner] has room for 65536 bytes, the newline included. *)
Definition scannable (line : string) : bool := bool_decide (Z.of_nat (String.length line) < 65536).
Fixpoint take_scannable (lines : list string) : list string * bool :=
  match lines with
  | [] => ([], true)
  | line :: lines =>
    if scannable line then let '(rest, all) := take_scannable lines in (drop_carriage_return line :: rest, all)
    else ([], false)
  end.
(** The lines of a scan, and the error it ends with. *)
Definition scan (r : reader) : list string * option string :=
  let '(lines, all) := take_scannable (lines_go "" (contents r)) in
  (lines, if all then read_error r else Some "bufio.Scanner: token too long").

(** * TAP results *)

Definition re_space (c : byte) : bool := bool_decide (c ∈ ["009"; "010"; "012"; "013"; " "]%char).
Definition skip_spaces (s : string) : string := TrimLeftFunc re_space s.
Definition some_spaces (s : string) : option string :=
  match s with String c s => if re_space c then Some (skip_spaces s) else None | EmptyString => None end.
Fixpoint span (f : byte → bool) (s : string) : string * string :=
  match s with
  | EmptyString => ("", "")
  | String c s' => if f c then let '(t, rest) := span f s' in (String c t, rest) else ("", s)
  end.
Definition some_span (f : byte → bool) (s : string) : option (string * string) :=
  let '(t, rest) := span f s in if decide (t = "") then None else Some (t, rest).

(** [tapResultPattern]. Each part of the pattern ends where the next begins, so
    there is one way to match. The result is the three groups, the first by
    whether it is there. *)
Definition match_result (failed : bool) (s : string) : option (bool * string * string) :=
  s ← TrimPrefix_go s "ok";
  s ← some_spaces s;
  '(_, s) ← some_span is_digit s;
  s ← some_spaces s;
  s ← match s with String c s => if bool_decide (c ∈ ["+"; "-"]%char) then Some s else None | EmptyString => None end;
  s ← some_spaces s;
  '(name, s) ← some_span (λ c, negb (re_space c)) s;
  s ← some_spaces s;
  '(duration, s) ← some_span is_digit s;
  s ← some_spaces s;
  s ← TrimPrefix_go s "ms";
  if decide (skip_spaces s = "") then Some (failed, name, duration) else None.
Definition match_tap (line : string) : option (bool * string * string) :=
  let s := skip_spaces line in
  let s := match TrimPrefix_go s "#" with Some s => skip_spaces s | None => s end in
  match TrimPrefix_go s "not " with Some s => match_result true s | None => match_result false s end.

Definition tests_with (status : TestStatus) (tests : list TestResult) : Z :=
  Z.of_nat (length (filter (λ t, Status t = status) tests)).
Definition recount (r : Results) : Results := {|
  PostgreSQLVersion := PostgreSQLVersion r; ExpectedTests := ExpectedTests r;
  PassedTests := tests_with StatusPass (Tests r);
  FailedTests := tests_with StatusFail (Tests r) + tests_with StatusMissing (Tests r);
  MissingTests := MissingTests r; ProxyCrashes := ProxyCrashes r; Tests := Tests r |}.

Definition tap_line (acc : gset string * list TestResult) (line : string) : result error (gset string * list TestResult) :=
  match match_tap line with
  | None => Ok acc
  | Some (failed, name, duration) =>
    if decide (name ∈ acc.1) then Err (DuplicateResult name) else
    match Atoi duration with
    | None => Err (BadDuration name)
    | Some d =>
      Ok ({[name]} ∪ acc.1,
          acc.2 ++ [{| Name := name; Status := if failed : bool then StatusFail else StatusPass; DurationMS := d |}])
    end
  end.
Definition ParseTAP (r : reader) (version : string) : result error Results :=
  let '(lines, failure) := scan r in
  acc ← mfold tap_line (∅, []) lines;
  match failure with
  | Some e => Err (ReadFailed "pg_regress output" e)
  | None =>
    if decide (acc.2 = []) then Err NoResults else
    Ok (recount {| PostgreSQLVersion := version; ExpectedTests := 0; PassedTests := 0; FailedTests := 0;
                   MissingTests := []; ProxyCrashes := 0; Tests := acc.2 |})
  end.

Definition schedule_name (acc : gset string * list string) (name : string) : result error (gset string * list string) :=
  if decide (name ∈ acc.1) then Err (DuplicateScheduled name) else Ok ({[name]} ∪ acc.1, acc.2 ++ [name]).
Definition schedule_line (acc : gset string * list string) (line : string) : result error (gset string * list string) :=
  let line := TrimSpace line in
  if negb (HasPrefix line "test:") then Ok acc
  else mfold schedule_name acc (Fields (TrimSpace (TrimPrefix line "test:"))).
Definition ParseSchedule (r : reader) : result error (list string) :=
  let '(lines, failure) := scan r in
  acc ← mfold schedule_line (∅, []) lines;
  match failure with
  | Some e => Err (ReadFailed "PostgreSQL schedule" e)
  | None => if decide (acc.2 = []) then Err NoScheduledTests else Ok acc.2
  end.

(** The results with the missing tests added, and the error if there are any. *)
Definition ValidateCompleteness (r : Results) (scheduled : list string) : Results * option error :=
  let actual : gset string := list_to_set (Name <$> Tests r) in
  let missing := filter (λ name, name ∉ actual) scheduled in
  (recount {| PostgreSQLVersion := PostgreSQLVersion r; ExpectedTests := Z.of_nat (length scheduled);
              PassedTests := PassedTests r; FailedTests := FailedTests r; MissingTests := missing;
              ProxyCrashes := ProxyCrashes r;
              Tests := Tests r ++ ((λ name, {| Name := name; Status := StatusMissing; DurationMS := 0 |}) <$> missing) |},
   if decide (missing = []) then None
   else Some (Incomplete (Z.of_nat (length (Tests r))) (Z.of_nat (length scheduled)) missing)).

Definition CountProxyCrashes (r : reader) : result error Z :=
  let '(lines, failure) := scan r in
  match failure with
  | Some e => Err (ReadFailed "Proxy log" e)
  | None => Ok (Z.of_nat (length (filter (λ line, HasPrefix line "panic:" = true) lines)))
  end.

(** * Regressions *)

Definition by_regression (a b : Regression) : Prop := String.le (r_name a) (r_name b).
#[export] Instance by_regression_dec : RelDecision by_regression.
Proof. intros a b. unfold by_regression. apply _. Defined.

Definition status_by_name (tests : list TestResult) : gmap string TestStatus :=
  fold_left (λ m t, <[Name t := Status t]> m) tests ∅.
Definition proxy_process : string := "Hamstergres Proxy process".
Definition test_regression (current : gmap string TestStatus) (previous : TestResult) : option Regression :=
  if decide (Status previous ≠ StatusPass) then None else
  let status := default StatusMissing (current !! Name previous) in
  if decide (status = StatusPass) then None
  else Some {| r_name := Name previous; Previous := Status previous; Current := status |}.
Definition FindRegressions (baseline current : Results) : list Regression :=
  merge_sort by_regression
    (omap (test_regression (status_by_name (Tests current))) (Tests baseline)
     ++ if bool_decide (ProxyCrashes baseline = 0) && (0 <? ProxyCrashes current)
        then [{| r_name := proxy_process; Previous := StatusPass; Current := StatusFail |}] else []).

(** * Files *)

Inductive json_rest := AtEOF | AnotherValue | BadRest (error : string).

(** The file system, and what the program decodes or matches with. [regex] is a
    compiled expression. *)
Class Files := {
  Open : string → result string reader;
  Close : string → option string;
  ReadFile : string → result string string;
  MkdirAll : string → option string;
  WriteFile : string → option string;
  JoinPath : list string → string;
  UnmarshalResults : string → result string (Z * Results);
  DecodeDifferences : string → result string (Z * string * option (list ExpectedDifference));
  DecodeRest : string → json_rest;
  regex : Type;
  Compile : string → result string regex;
  CountMatches : regex → string → Z;
  ReplaceAllString : regex → string → string → string;
}.

Definition ResultsFormatVersion : Z := 1.
Definition ExpectedDifferencesFormatVersion : Z := 1.

Definition name_character (c : byte) : bool := bool_decide (c = "_"%char) || is_lower c || is_upper c || is_digit c.
(** [testNamePattern] and [sha256Pattern] *)
Definition test_name (s : string) : bool := negb (bool_decide (s = "")) && forallb name_character (bytes_of s).
Definition hex_character (c : byte) : bool := is_digit c || byte_in 97 102 c.
Definition is_digest (s : string) : bool := bool_decide (String.length s = 64%nat) && forallb hex_character (bytes_of s).

Section files.
Context `{GoStd} `{Files}.

Definition ReadResults (path : string) : result error Results :=
  match ReadFile path with
  | Err e => Err (ReadFailed path e)
  | Ok contents =>
    match UnmarshalResults contents with
    | Err e => Err (Undecodable path e)
    | Ok (version, results) =>
      if decide (version ≠ ResultsFormatVersion) then Err (WrongFormatVersion path version) else Ok results
    end
  end.

Definition check_normalization (path test : string) (n : OutputNormalization) : result error unit :=
  match Compile (Pattern n) with
  | Err e => Err (InvalidNormalization path test e)
  | Ok _ => if decide (ExpectedMatches n ≤ 0) then Err (NonPositiveMatches path test) else Ok tt
  end.
Definition check_difference (path : string) (seen : gset string) (d : ExpectedDifference) : result error (gset string) :=
  if negb (test_name (Test d)) then Err (InvalidTestName path (Test d)) else
  if decide (Test d ∈ seen) then Err (DuplicateTest path (Test d)) else
  if negb (is_digest (OutputSHA256 d)) then Err (InvalidDigest path (Test d)) else
  if decide (TrimSpace (Reason d) = "") then Err (NoReason path (Test d)) else
  _ ← mfold (λ _ n, check_normalization path (Test d) n) tt (Normalizations d);
  Ok ({[Test d]} ∪ seen).
(** The version of PostgreSQL and the differences. *)
Definition ReadExpectedDifferences (path : string) : result error (string * list ExpectedDifference) :=
  match ReadFile path with
  | Err e => Err (ReadFailed path e)
  | Ok contents =>
    match DecodeDifferences contents with
    | Err e => Err (Undecodable path e)
    | Ok (version, postgresql, differences) =>
      match DecodeRest contents with
      | AnotherValue => Err (Undecodable path "multiple JSON values")
      | BadRest e => Err (Undecodable path e)
      | AtEOF =>
        if decide (version ≠ ExpectedDifferencesFormatVersion) then Err (WrongFormatVersion path version) else
        match differences with
        | None => Err (OmittedDifferences path)
        | Some differences =>
          _ ← mfold (check_difference path) ∅ differences;
          Ok (postgresql, differences)
        end
      end
    end
  end.

(** * Reviewed differences *)

Definition normalize (output : string) (n : OutputNormalization) : result string string :=
  match Compile (Pattern n) with
  | Err e => Err ("invalid normalization " +:+ quote_message (Pattern n) +:+ ": " +:+ e)
  | Ok pattern =>
    let matches := CountMatches pattern output in
    if decide (matches ≠ ExpectedMatches n) then
      Err ("normalization " +:+ quote_message (Pattern n) +:+ " matched " +:+ FormatInt matches
           +:+ " time(s), want " +:+ FormatInt (ExpectedMatches n))
    else Ok (ReplaceAllString pattern output (Replacement n))
  end.
Definition digest (output : string) : string := EncodeHex (sha256 (bytes_of output)).

Definition verify_output (directory : string) (d : ExpectedDifference) : DifferenceVerification :=
  let problem actual text := {| Difference := d; ActualSHA256 := actual; Matched := false; Problem := text |} in
  match ReadFile (JoinPath [directory; Test d +:+ ".out"]) with
  | Err e => problem "" ("read test output: " +:+ e)
  | Ok contents =>
    match mfold normalize contents (Normalizations d) with
    | Err e => problem "" e
    | Ok normalized =>
      let actual := digest normalized in
      if decide (actual ≠ OutputSHA256 d) then problem actual ("output changed: got SHA-256 " +:+ actual)
      else {| Difference := d; ActualSHA256 := actual; Matched := true; Problem := "" |}
    end
  end.
Definition verify_difference (statuses : gmap string TestStatus) (directory : string) (d : ExpectedDifference)
    : DifferenceVerification :=
  let problem text := {| Difference := d; ActualSHA256 := ""; Matched := false; Problem := text |} in
  match statuses !! Test d with
  | None => problem "test was not present in the compatibility results"
  | Some StatusPass => problem "test now passes; remove the stale expected difference"
  | Some StatusMissing => problem "test did not complete"
  | Some StatusFail => verify_output directory d
  end.
Definition by_difference (a b : DifferenceVerification) : Prop := String.le (Test (Difference a)) (Test (Difference b)).
#[export] Instance by_difference_dec : RelDecision by_difference.
Proof. intros a b. unfold by_difference. apply _. Defined.
Definition VerifyExpectedDifferences (r : Results) (directory : string) (expected : list ExpectedDifference)
    : list DifferenceVerification :=
  merge_sort by_difference (verify_difference (status_by_name (Tests r)) directory <$> expected).

(** The expected regressions and the unexpected ones. *)
Definition verified_names (verifications : list DifferenceVerification) : gset string :=
  list_to_set ((λ v, Test (Difference v)) <$> filter (λ v, Matched v = true) verifications).
Definition SeparateExpectedRegressions (regressions : list Regression) (verifications : list DifferenceVerification)
    : list Regression * list Regression :=
  let verified := verified_names verifications in
  (filter (λ r, r_name r ∈ verified) regressions, filter (λ r, r_name r ∉ verified) regressions).
Definition DifferenceVerificationProblems (verifications : list DifferenceVerification) : list DifferenceVerification :=
  filter (λ v, Matched v = false) verifications.
End files.

(** * What is written *)

Definition badgeColor (passed total : Z) : string :=
  if decide (total = 0) then "lightgrey" else
  if decide (passed = total) then "brightgreen" else
  let percentage := passed * 100 `quot` total in
  if 80 <=? percentage then "yellow" else if 50 <=? percentage then "orange" else "red".
Definition badge (r : Results) : BadgeEndpoint :=
  let total := if decide (ExpectedTests r = 0) then Z.of_nat (length (Tests r)) else ExpectedTests r in
  {| Label := "PostgreSQL " +:+ PostgreSQLVersion r;
     Message := FormatInt (PassedTests r) +:+ "/" +:+ FormatInt total +:+ " passing"
       +:+ (if decide (MissingTests r = []) then "" else " (incomplete)");
     Color := badgeColor (PassedTests r) total |}.

Definition status_text (s : TestStatus) : string :=
  match s with StatusPass => "pass" | StatusFail => "fail" | StatusMissing => "missing" end.
Definition status_cell (s : TestStatus) : string :=
  match s with StatusPass => "PASS" | StatusFail => "GAP" | StatusMissing => "MISSING" end.
Definition NL : string := String "010" "".
Definition NLNL : string := NL +:+ NL.
Definition summary_text (r : Results) : string :=
  "## PostgreSQL Compatibility Report" +:+ NLNL
  +:+ "PostgreSQL `" +:+ PostgreSQLVersion r +:+ "`: **" +:+ FormatInt (PassedTests r) +:+ "/" +:+ FormatInt (ExpectedTests r)
  +:+ " passing**, " +:+ FormatInt (FailedTests r) +:+ " compatibility gaps." +:+ NLNL
  +:+ (if 0 <? ProxyCrashes r then
        "> **Hamstergres Proxy crashed " +:+ FormatInt (ProxyCrashes r)
        +:+ " time(s).** Results after the first crash can reflect connection loss as well as statement incompatibility. See `proxy.log`."
        +:+ NLNL else "")
  +:+ (if decide (MissingTests r = []) then "" else
        "> **Harness incomplete:** " +:+ FormatInt (Z.of_nat (length (MissingTests r)))
        +:+ " scheduled test(s) produced no result: `" +:+ Join (MissingTests r) "`, `"
        +:+ "`. The partial inventory is shown below." +:+ NLNL).
Definition regression_text (unexpected expected : list Regression) (compared : bool) : string :=
  (if negb compared then
     "No compatible baseline was supplied. This run records the current inventory but cannot detect pass-to-fail regressions." +:+ NLNL
   else if decide (unexpected = []) then "No unexpected pass-to-fail regressions were found." +:+ NLNL
   else
     "**" +:+ FormatInt (Z.of_nat (length unexpected)) +:+ " unexpected regression(s) in previously passing tests:**" +:+ NLNL
     +:+ Join ((λ r, "- `" +:+ r_name r +:+ "`: " +:+ status_text (Previous r) +:+ " -> " +:+ status_text (Current r) +:+ NL)
                 <$> unexpected) ""
     +:+ NL)
  +:+ (if decide (expected = []) then "" else
        FormatInt (Z.of_nat (length expected))
        +:+ " pass-to-fail regression(s) matched reviewed intentional-difference signatures." +:+ NLNL).
Definition difference_text (verifications : list DifferenceVerification) : string :=
  let problems := DifferenceVerificationProblems verifications in
  if decide (verifications = []) then "" else
  if decide (problems = []) then
    "**" +:+ FormatInt (Z.of_nat (length verifications))
    +:+ " intentional PostgreSQL difference(s) verified by exact output signature.** The raw PostgreSQL score remains unchanged."
    +:+ NLNL
  else
    "**" +:+ FormatInt (Z.of_nat (length problems)) +:+ " intentional-difference signature problem(s):**" +:+ NLNL
    +:+ Join ((λ v, "- `" +:+ Test (Difference v) +:+ "`: " +:+ Problem v +:+ NL) <$> problems) "" +:+ NL.
Definition test_row (t : TestResult) : string :=
  "| `" +:+ Name t +:+ "` | " +:+ status_cell (Status t) +:+ " | " +:+ FormatInt (DurationMS t) +:+ " ms |" +:+ NL.
Definition Markdown (r : Results) (unexpected expected : list Regression) (verifications : list DifferenceVerification)
    (compared : bool) : string :=
  summary_text r +:+ regression_text unexpected expected compared +:+ difference_text verifications
  +:+ "| Test | Status | Duration |" +:+ NL +:+ "|---|---:|---:|" +:+ NL +:+ Join (test_row <$> Tests r) "".

(** * The command *)

Record flags := {
  logPath : string; schedulePath : string; outputDirectory : string; baselinePath : string;
  expectedDifferencesPath : string; testResultsDirectory : string; postgresqlVersion : string; proxyLogPath : string;
}.
Inductive document :=
| ResultsDocument (r : Results)
| ReportDocument (markdown : string)
| BadgeDocument (b : BadgeEndpoint).

(** Everything the command finds out before it writes. *)
Record findings := {
  f_results : Results; f_complete : bool; f_compared : bool;
  f_expected : list Regression; f_unexpected : list Regression; f_verifications : list DifferenceVerification;
}.

(** [fatalIf]: exit status 2. *)
Definition fatal {E A} (r : result E A) : result Z A := map_err (λ _, 2) r.
Definition fatal_if (error : option string) : result Z unit := match error with Some _ => Err 2 | None => Ok tt end.

Section command.
Context `{GoStd} `{Files}.

Definition baseline_regressions (f : flags) (r : Results) : result Z (bool * list Regression) :=
  if decide (baselinePath f = "") then Ok (false, []) else
  baseline ← fatal (ReadResults (baselinePath f));
  if decide (PostgreSQLVersion baseline ≠ PostgreSQLVersion r) then Ok (false, [])
  else Ok (true, FindRegressions baseline r).
Definition reviewed_differences (f : flags) (r : Results) : result Z (list DifferenceVerification) :=
  if decide (expectedDifferencesPath f = "") then Ok [] else
  if decide (testResultsDirectory f = "") then Err 2 else
  '(version, expected) ← fatal (ReadExpectedDifferences (expectedDifferencesPath f));
  if decide (version ≠ PostgreSQLVersion r) then Err 2
  else Ok (VerifyExpectedDifferences r (testResultsDirectory f) expected).
Definition with_crashes (crashes : Z) (r : Results) : Results := {|
  PostgreSQLVersion := PostgreSQLVersion r; ExpectedTests := ExpectedTests r; PassedTests := PassedTests r;
  FailedTests := FailedTests r; MissingTests := MissingTests r; ProxyCrashes := crashes; Tests := Tests r |}.
Definition count_crashes (f : flags) (r : Results) : result Z Results :=
  if decide (proxyLogPath f = "") then Ok r else
  log ← fatal (Open (proxyLogPath f));
  crashes ← fatal (CountProxyCrashes log);
  _ ← fatal_if (Close (proxyLogPath f));
  Ok (with_crashes crashes r).

Definition inspect (f : flags) : result Z findings :=
  log ← fatal (Open (logPath f));
  r ← fatal (ParseTAP log (postgresqlVersion f));
  schedule ← fatal (Open (schedulePath f));
  scheduled ← fatal (ParseSchedule schedule);
  let '(r, incomplete) := ValidateCompleteness r scheduled in
  r ← count_crashes f r;
  '(compared, regressions) ← baseline_regressions f r;
  verifications ← reviewed_differences f r;
  let '(expected, unexpected) := SeparateExpectedRegressions regressions verifications in
  Ok {| f_results := r; f_complete := match incomplete with None => true | Some _ => false end; f_compared := compared;
        f_expected := expected; f_unexpected := unexpected; f_verifications := verifications |}.

(** The documents in the order they are written; a failed write is fatal. *)
Definition documents (f : flags) (x : findings) : list (string * document) :=
  [(JoinPath [outputDirectory f; "results.json"], ResultsDocument (f_results x));
   (JoinPath [outputDirectory f; "compatibility-report.md"],
    ReportDocument (Markdown (f_results x) (f_unexpected x) (f_expected x) (f_verifications x) (f_compared x)))].
Definition badge_path (f : flags) : string := JoinPath [outputDirectory f; "badges"; "overall.json"].
Definition write (f : flags) (x : findings) : result Z (list (string * document)) :=
  _ ← fatal_if (MkdirAll (outputDirectory f));
  _ ← mfold (λ _ d, fatal_if (WriteFile d.1)) tt (documents f x);
  _ ← fatal_if (MkdirAll (JoinPath [outputDirectory f; "badges"]));
  _ ← fatal_if (WriteFile (badge_path f));
  Ok (documents f x ++ [(badge_path f, BadgeDocument (badge (f_results x)))]).

Definition exit_code (x : findings) : Z :=
  if negb (f_complete x) then 2 else
  if decide (DifferenceVerificationProblems (f_verifications x) = []) then
    if decide (f_unexpected x = []) then 0 else 1
  else 1.

(** The exit status and the documents, if all of them were written. *)
Definition main (f : flags) : Z * list (string * document) :=
  if decide (logPath f = "" ∨ schedulePath f = "" ∨ outputDirectory f = "" ∨ postgresqlVersion f = "") then (2, []) else
  match x ← inspect f; written ← write f x; Ok (exit_code x, written) with
  | Ok outcome => outcome
  | Err status => (status, [])
  end.
End command.

(** * The exit status *)

Lemma status_by_name_spec tests n st : NoDup (Name <$> tests) →
  status_by_name tests !! n = Some st ↔ ∃ t, t ∈ tests ∧ Name t = n ∧ Status t = st.
Proof.
  unfold status_by_name. induction tests as [|t tests IH] using rev_ind; intros Hnd.
  - cbn. rewrite lookup_empty. set_solver.
  - rewrite fold_left_app. cbn [fold_left]. rewrite fmap_app in Hnd. apply NoDup_app in Hnd as (Hnd & Hdis & _).
    destruct (decide (Name t = n)) as [<-|Hne].
    + rewrite lookup_insert_eq. split.
      * intros [= <-]. exists t. set_solver.
      * intros (t' & Ht' & E & <-). apply elem_of_app in Ht' as [Ht'|Ht']; [|set_solver].
        destruct (Hdis (Name t')); [by apply list_elem_of_fmap_2|]. rewrite E. set_solver.
    + rewrite lookup_insert_ne, IH by done. set_solver.
Qed.

(** Results of pg_regress: no name twice and none missing. *)
Definition reported (tests : list TestResult) : Prop :=
  NoDup (Name <$> tests) ∧ Forall (λ t, Status t ≠ StatusMissing) tests.

Lemma ParseTAP_reported r version results :
  ParseTAP r version = Ok results → reported (Tests results) ∧ PostgreSQLVersion results = version.
Proof.
  unfold ParseTAP. destruct (scan r) as [lines failure].
  destruct (mfold tap_line (∅, []) lines) as [[seen tests]|e] eqn:Efold; [|done]. cbn [mbind result_bind].
  destruct failure; [done|]. case_decide; [done|]. intros [= <-]. split; [|done]. cbn [Tests recount].
  assert (reported tests ∧ ∀ n, n ∈ seen ↔ n ∈ Name <$> tests) as [? _]; [|done].
  apply (mfold_ind _ (λ _ (acc : gset string * list TestResult), reported acc.2 ∧ ∀ n, n ∈ acc.1 ↔ n ∈ Name <$> acc.2) _ _ _ Efold).
  - cbn. split; [split; constructor|]. set_solver.
  - intros ds line rest [seen1 tests1] acc2 _ [[Hnd Hmiss] Hseen] Hstep. unfold tap_line in Hstep.
    destruct (match_tap line) as [[[failed name] duration]|]; [|by injection Hstep as <-].
    case_decide as Hnew; [done|]. destruct (Atoi duration) as [d|]; [|done]. injection Hstep as <-.
    cbn [fst snd] in *. split; [split|]; rewrite ?fmap_app.
    + apply NoDup_app. split; [done|]. split; [|apply NoDup_singleton]. intros n Hn ->%list_elem_of_singleton.
      by apply Hnew, Hseen.
    + apply Forall_app. split; [done|]. constructor; [by destruct failed|constructor].
    + intros n. cbn [fmap list_fmap Name]. rewrite elem_of_union, elem_of_app, Hseen, elem_of_singleton, list_elem_of_singleton. tauto.
Qed.

Lemma ParseSchedule_NoDup r scheduled : ParseSchedule r = Ok scheduled → NoDup scheduled.
Proof.
  unfold ParseSchedule. destruct (scan r) as [lines failure].
  destruct (mfold schedule_line (∅, []) lines) as [[seen names]|e] eqn:Efold; [|done]. cbn [mbind result_bind].
  destruct failure; [done|]. case_decide; [done|]. intros [= <-]. cbn.
  set (P := λ acc : gset string * list string, NoDup acc.2 ∧ ∀ n, n ∈ acc.1 ↔ n ∈ acc.2).
  assert (P (seen, names)) as [? _]; [|done].
  apply (mfold_ind _ (λ _, P) _ _ _ Efold); [split; [constructor | set_solver]|].
  intros ds line rest acc1 acc2 _ HP Hstep. unfold schedule_line in Hstep. cbv zeta in Hstep.
  destruct (negb _); [by injection Hstep as <-|]. apply (mfold_ind _ (λ _, P) _ _ _ Hstep); [done|].
  intros ds' n rest' [seen1 names1] acc3 _ [Hnd Hseen] Hn. unfold schedule_name in Hn. case_decide as Hnew; [done|].
  injection Hn as <-. unfold P in *. cbn in *. split.
  - apply NoDup_app. split; [done|]. split; [|apply NoDup_singleton]. intros m Hm ->%list_elem_of_singleton.
    by apply Hnew, Hseen.
  - intros m. rewrite elem_of_union, elem_of_app, Hseen, elem_of_singleton, list_elem_of_singleton. tauto.
Qed.

Lemma ValidateCompleteness_tests r scheduled r' e :
  ValidateCompleteness r scheduled = (r', e) → reported (Tests r) → NoDup scheduled →
  NoDup (Name <$> Tests r') ∧ PostgreSQLVersion r' = PostgreSQLVersion r ∧
  (∀ t, t ∈ Tests r' ∧ Status t ≠ StatusMissing ↔ t ∈ Tests r) ∧
  (e = None ↔ ∀ n, n ∈ scheduled → n ∈ Name <$> Tests r).
Proof.
  unfold ValidateCompleteness. intros [= <- <-] [Hnd Hmiss] Hs. cbn [Tests recount PostgreSQLVersion].
  set (missing := filter (λ name, name ∉ (list_to_set (Name <$> Tests r) : gset string)) scheduled).
  assert (∀ n, n ∈ missing ↔ n ∈ scheduled ∧ n ∉ Name <$> Tests r) as Hm.
  { intros n. unfold missing. rewrite list_elem_of_filter, elem_of_list_to_set. tauto. }
  split_and!; [..|].
  - rewrite fmap_app. apply NoDup_app. split; [done|].
    assert (Name <$> ((λ name, {| Name := name; Status := StatusMissing; DurationMS := 0 |}) <$> missing) = missing) as ->.
    { rewrite <- list_fmap_compose. apply list_fmap_id. }
    split; [|by apply NoDup_filter]. intros n Hn [_ Hno]%Hm. done.
  - done.
  - intros t. rewrite elem_of_app, list_elem_of_fmap. rewrite Forall_forall in Hmiss. split; [|naive_solver].
    intros [[Ht|(n & -> & _)] Hst]; [done | by destruct Hst].
  - case_decide as E; [split; [|done]|split; [done|]].
    + intros _ n Hn. destruct (decide (n ∈ Name <$> Tests r)) as [|Hno]; [done|].
      assert (n ∈ missing) as Hin by (by apply Hm). rewrite E in Hin. by apply elem_of_nil in Hin.
    + intros Hall. destruct E. apply elem_of_nil_inv. intros n [Hn Hno]%Hm. by apply Hno, Hall.
Qed.

Lemma filter_nil_iff {A} (P : A → Prop) `{∀ x, Decision (P x)} l : filter P l = [] ↔ ∀ x, x ∈ l → ¬ P x.
Proof.
  split.
  - intros E x Hx HP. assert (x ∈ filter P l) as Hin by (by apply list_elem_of_filter).
    rewrite E in Hin. by apply elem_of_nil in Hin.
  - intros Hall. apply elem_of_nil_inv. intros x [HP Hx]%list_elem_of_filter. by apply (Hall x).
Qed.

(** A test passed, and the output of a failed test is as a reviewed difference
    says. *)
Definition passes (tests : list TestResult) (n : string) : Prop := ∃ t, t ∈ tests ∧ Name t = n ∧ Status t = StatusPass.
Definition fails (tests : list TestResult) (n : string) : Prop := ∃ t, t ∈ tests ∧ Name t = n ∧ Status t = StatusFail.

#[export] Instance passes_dec tests n : Decision (passes tests n).
Proof.
  refine (cast_if (decide (Exists (λ t, Name t = n ∧ Status t = StatusPass) tests))); unfold passes;
    rewrite Exists_exists in *; naive_solver.
Defined.

Section exit.
Context `{GoStd} `{Files}.

Definition output_reviewed (directory : string) (d : ExpectedDifference) : Prop :=
  ∃ contents normalized, ReadFile (JoinPath [directory; Test d +:+ ".out"]) = Ok contents ∧
    mfold normalize contents (Normalizations d) = Ok normalized ∧ digest normalized = OutputSHA256 d.

Lemma verify_difference_matched statuses directory d :
  Matched (verify_difference statuses directory d) = true ↔
  statuses !! Test d = Some StatusFail ∧ output_reviewed directory d.
Proof.
  unfold verify_difference. destruct (statuses !! Test d) as [[| |]|]; cbn; try naive_solver.
  unfold verify_output, output_reviewed. destruct (ReadFile _) as [contents|]; cbn; [|naive_solver].
  destruct (mfold normalize contents (Normalizations d)) as [normalized|] eqn:En; cbn.
  - case_decide as Hd; cbn; [|naive_solver]. split; [done|].
    intros (_ & contents' & normalized' & [= <-] & En' & E). rewrite En in En'. congruence.
  - split; [done|]. intros (_ & contents' & normalized' & [= <-] & En' & E). congruence.
Qed.

Lemma VerifyExpectedDifferences_elem r directory expected v :
  v ∈ VerifyExpectedDifferences r directory expected ↔
  ∃ d, d ∈ expected ∧ v = verify_difference (status_by_name (Tests r)) directory d.
Proof. unfold VerifyExpectedDifferences. rewrite merge_sort_Permutation, list_elem_of_fmap. naive_solver. Qed.

Lemma verify_difference_test statuses directory d : Difference (verify_difference statuses directory d) = d.
Proof.
  unfold verify_difference, verify_output. repeat case_match; done.
Qed.

Lemma verified_names_spec r directory expected n :
  n ∈ verified_names (VerifyExpectedDifferences r directory expected) ↔
  ∃ d, d ∈ expected ∧ Test d = n ∧ status_by_name (Tests r) !! n = Some StatusFail ∧ output_reviewed directory d.
Proof.
  unfold verified_names. rewrite elem_of_list_to_set, list_elem_of_fmap. split.
  - intros (v & -> & [Hv (d & Hd & ->)%VerifyExpectedDifferences_elem]%list_elem_of_filter).
    rewrite verify_difference_test in *. apply verify_difference_matched in Hv as [Hs Ho]. by exists d.
  - intros (d & Hd & <- & Hs & Ho). exists (verify_difference (status_by_name (Tests r)) directory d).
    rewrite verify_difference_test. split; [done|]. apply list_elem_of_filter. split.
    + by apply verify_difference_matched.
    + apply VerifyExpectedDifferences_elem. eauto.
Qed.

Lemma ReadExpectedDifferences_names path version expected d :
  ReadExpectedDifferences path = Ok (version, expected) → d ∈ expected → test_name (Test d) = true.
Proof.
  unfold ReadExpectedDifferences. destruct (ReadFile path); [|done]. destruct (DecodeDifferences _) as [[[]]|]; [|done].
  destruct (DecodeRest _); try done. case_decide; [done|]. destruct o as [differences|]; [|done].
  destruct (mfold (check_difference path) ∅ differences) as [seen|] eqn:Efold; [|done].
  cbn [mbind result_bind]. intros [= <- <-]. revert d.
  apply (mfold_ind _ (λ (ds : list ExpectedDifference) _, ∀ d, d ∈ ds → test_name (Test d) = true) _ _ _ Efold);
    [set_solver|].
  intros ds d' rest seen1 seen2 _ IH Hstep d Hd. apply elem_of_app in Hd as [Hd|Hd]; [auto|].
  apply list_elem_of_singleton in Hd as ->. unfold check_difference in Hstep. by destruct (test_name (Test d')).
Qed.

(** The regressions, by the tests of the baseline. *)
Lemma FindRegressions_names baseline r n : NoDup (Name <$> Tests r) →
  n ∈ r_name <$> FindRegressions baseline r ↔
  (passes (Tests baseline) n ∧ ¬ passes (Tests r) n) ∨
  (n = proxy_process ∧ ProxyCrashes baseline = 0 ∧ 0 < ProxyCrashes r).
Proof.
  intros Hnd. unfold FindRegressions. rewrite merge_sort_Permutation, fmap_app, elem_of_app.
  assert (n ∈ r_name <$> omap (test_regression (status_by_name (Tests r))) (Tests baseline) ↔
    passes (Tests baseline) n ∧ ¬ passes (Tests r) n) as ->.
  { rewrite list_elem_of_fmap. setoid_rewrite list_elem_of_omap. unfold test_regression, passes at 1. split.
    - intros (reg & -> & t & Ht & E). case_decide; [done|]. case_decide as Hne; [done|]. injection E as <-. cbn.
      split; [exists t; naive_solver|]. intros Hp%status_by_name_spec; [|done]. by rewrite Hp in Hne.
    - intros [(t & Ht & <- & Hst) Hno].
      assert (default StatusMissing (status_by_name (Tests r) !! Name t) ≠ StatusPass) as Hne.
      { intros E. apply Hno. apply status_by_name_spec; [done|]. by destruct (status_by_name (Tests r) !! Name t); cbn in E; subst. }
      eexists. split; [|exists t; split; [done|]; rewrite decide_False, decide_False by tauto; reflexivity]. done. }
  apply or_iff_compat_l. destruct (bool_decide (ProxyCrashes baseline = 0)) eqn:E1;
    destruct (0 <? ProxyCrashes r) eqn:E2; cbn; rewrite ?bool_decide_eq_true, ?bool_decide_eq_false, ?Z.ltb_lt, ?Z.ltb_ge in *;
    rewrite ?list_elem_of_singleton, ?elem_of_nil; split; try tauto; intros (? & ? & ?); try done; lia.
Qed.

(** What [inspect] found. *)
Lemma inspect_inv f x log r0 schedule scheduled :
  inspect f = Ok x →
  Open (logPath f) = Ok log → ParseTAP log (postgresqlVersion f) = Ok r0 →
  Open (schedulePath f) = Ok schedule → ParseSchedule schedule = Ok scheduled →
  ∃ compared regressions,
    Tests (f_results x) = Tests (ValidateCompleteness r0 scheduled).1 ∧
    PostgreSQLVersion (f_results x) = postgresqlVersion f ∧
    f_complete x = (match (ValidateCompleteness r0 scheduled).2 with None => true | Some _ => false end) ∧
    baseline_regressions f (f_results x) = Ok (compared, regressions) ∧
    reviewed_differences f (f_results x) = Ok (f_verifications x) ∧
    f_unexpected x = filter (λ r, r_name r ∉ verified_names (f_verifications x)) regressions.
Proof.
  intros Hrun Hlog Htap Hsch Hschd. unfold inspect in Hrun. unfold fatal in *.
  rewrite Hlog in Hrun. cbn [map_err mbind result_bind] in Hrun. rewrite Htap in Hrun. cbn [map_err mbind result_bind] in Hrun.
  rewrite Hsch in Hrun. cbn [map_err mbind result_bind] in Hrun. rewrite Hschd in Hrun. cbn [map_err mbind result_bind] in Hrun.
  apply ParseTAP_reported in Htap as [_ Hversion].
  destruct (ValidateCompleteness r0 scheduled) as [r1 incomplete] eqn:Ev. cbn [mbind result_bind] in Hrun.
  assert (PostgreSQLVersion r1 = postgresqlVersion f) as Hv1 by (injection Ev as <- _; done).
  destruct (count_crashes f r1) as [r2|] eqn:Ec; [|done]. cbn [mbind result_bind] in Hrun.
  assert (Tests r2 = Tests r1 ∧ PostgreSQLVersion r2 = PostgreSQLVersion r1) as [Et Hv2].
  { unfold count_crashes, fatal in Ec. case_decide; [by injection Ec as <-|].
    destruct (Open (proxyLogPath f)) as [l|]; [|done]. cbn [map_err mbind result_bind] in Ec.
    destruct (CountProxyCrashes l) as [n|]; [|done]. cbn [map_err mbind result_bind] in Ec.
    destruct (Close (proxyLogPath f)); [done|]. by injection Ec as <-. }
  destruct (baseline_regressions f r2) as [[compared regressions]|] eqn:Eb; [|done]. cbn [mbind result_bind] in Hrun.
  destruct (reviewed_differences f r2) as [verifications|] eqn:Er; [|done]. cbn [mbind result_bind] in Hrun.
  unfold SeparateExpectedRegressions in Hrun. injection Hrun as <-. cbn.
  exists compared, regressions. rewrite Et, Hv2. done.
Qed.

(** The expected difference of a test, which the output has. *)
Definition reviewed (f : flags) (r : Results) (n : string) : Prop :=
  expectedDifferencesPath f ≠ "" ∧ fails (Tests r) n ∧
  ∃ expected d, ReadExpectedDifferences (expectedDifferencesPath f) = Ok (postgresqlVersion f, expected) ∧
    d ∈ expected ∧ Test d = n ∧ output_reviewed (testResultsDirectory f) d.

Lemma reviewed_spec f r verifications n :
  NoDup (Name <$> Tests r) → PostgreSQLVersion r = postgresqlVersion f →
  reviewed_differences f r = Ok verifications →
  n ∈ verified_names verifications ↔ reviewed f r n.
Proof.
  intros Hnd Hv. unfold reviewed_differences, reviewed, fatal. case_decide as Hp; [intros [= <-]; set_solver|].
  case_decide; [done|]. destruct (ReadExpectedDifferences _) as [[version expected]|]; [|done].
  cbn [map_err mbind result_bind]. case_decide as Hver; [done|]. intros [= <-].
  rewrite verified_names_spec. setoid_rewrite (λ st, status_by_name_spec (Tests r) n st Hnd). unfold fails. split.
  - intros (d & Hd & Ht & Hf & Ho). split_and!; [done..|]. exists expected, d. split_and!; try done. congruence.
  - intros (_ & Hf & expected' & d & [= _ <-] & Hd & Ht & Ho). by exists d.
Qed.

Lemma proxy_process_not_reviewed f r : ¬ reviewed f r proxy_process.
Proof.
  intros (_ & _ & expected & d & Hr & Hd & Ht & _). pose proof (ReadExpectedDifferences_names _ _ _ _ Hr Hd) as Hn.
  by rewrite Ht in Hn.
Qed.

(** C35: the exit status of the report is 0, so that a change may be merged,
    exactly when the run is complete, every reviewed difference of the policy
    is still there, and, against a baseline of the same PostgreSQL release,
    every test that passed passes now or failed with exactly the output that a
    reviewed difference has; and the proxy crashed only if it did before. A
    crash cannot be excused. *)
Theorem exit_zero_iff f x log r0 schedule scheduled :
  inspect f = Ok x →
  Open (logPath f) = Ok log → ParseTAP log (postgresqlVersion f) = Ok r0 →
  Open (schedulePath f) = Ok schedule → ParseSchedule schedule = Ok scheduled →
  exit_code x = 0 ↔
  (∀ n, n ∈ scheduled → n ∈ Name <$> Tests r0) ∧
  (∀ v, v ∈ f_verifications x → Matched v = true) ∧
  (∀ baseline, baselinePath f ≠ "" → ReadResults (baselinePath f) = Ok baseline →
     PostgreSQLVersion baseline = postgresqlVersion f →
     (∀ n, passes (Tests baseline) n → passes (Tests r0) n ∨ reviewed f (f_results x) n) ∧
     (ProxyCrashes baseline = 0 → ProxyCrashes (f_results x) ≤ 0)).
Proof.
  intros Hrun Hlog Htap Hsch Hschd.
  destruct (inspect_inv _ _ _ _ _ _ Hrun Hlog Htap Hsch Hschd) as (compared & regressions & Et & Ev & Ec & Eb & Er & Eu).
  apply ParseTAP_reported in Htap as [Hrep _]. apply ParseSchedule_NoDup in Hschd.
  destruct (ValidateCompleteness r0 scheduled) as [r1 incomplete] eqn:Eval. cbn [fst snd] in *.
  destruct (ValidateCompleteness_tests _ _ _ _ Eval Hrep Hschd) as (Hnd & _ & Helem & Hcomplete). rewrite <- Et in *.
  assert (∀ n, passes (Tests (f_results x)) n ↔ passes (Tests r0) n) as Hpass.
  { intros n. unfold passes. split; intros (t & Ht & Hn & Hst); exists t; (split; [|done]).
    - apply Helem. split; [done | by rewrite Hst].
    - by apply Helem in Ht as [? _]. }
  assert (exit_code x = 0 ↔ f_complete x = true ∧ DifferenceVerificationProblems (f_verifications x) = [] ∧
    f_unexpected x = []) as ->.
  { unfold exit_code. destruct (f_complete x); cbn; [|split; [done | by intros [? _]]].
    repeat case_decide; split; (done || tauto). }
  assert (f_complete x = true ↔ ∀ n, n ∈ scheduled → n ∈ Name <$> Tests r0) as ->.
  { rewrite <- Hcomplete, Ec. by destruct incomplete. }
  assert (DifferenceVerificationProblems (f_verifications x) = [] ↔ ∀ v, v ∈ f_verifications x → Matched v = true) as ->.
  { unfold DifferenceVerificationProblems. rewrite filter_nil_iff.
    apply forall_proper. intros v. destruct (Matched v); naive_solver. }
  apply and_iff_compat_l, and_iff_compat_l. rewrite Eu.
  rewrite filter_nil_iff.
  assert ((∀ r, r ∈ regressions → ¬ (r_name r ∉ verified_names (f_verifications x))) ↔
    ∀ n, n ∈ r_name <$> regressions → reviewed f (f_results x) n) as ->.
  { setoid_rewrite <- (λ n, reviewed_spec f _ _ n Hnd Ev Er). setoid_rewrite list_elem_of_fmap. split.
    - intros Hall n (r & -> & Hr). by apply dec_stable, Hall.
    - intros Hall r Hr Hno. apply Hno, Hall. eauto. }
  unfold baseline_regressions, fatal in Eb. case_decide as Hb; [injection Eb as <- <-; set_solver|].
  destruct (ReadResults (baselinePath f)) as [baseline|]; [|done]. cbn [map_err mbind result_bind] in Eb.
  case_decide as Hver; injection Eb as <- <-.
  - split; [|set_solver]. intros _ baseline' _ [= <-] E. congruence.
  - setoid_rewrite (λ n, FindRegressions_names baseline _ n Hnd). setoid_rewrite Hpass. split.
    + intros Hall baseline' _ [= <-] _. split.
      * intros n Hn. destruct (decide (passes (Tests r0) n)); [by left | right; apply Hall; by left].
      * intros Hz. destruct (decide (ProxyCrashes (f_results x) ≤ 0)) as [|Hc]; [done|].
        destruct (proxy_process_not_reviewed f (f_results x)). apply Hall. right. split_and!; [done|done|lia].
    + intros Hall n Hn. destruct (Hall baseline) as [Ht Hc]; [done..|congruence|]. destruct Hn as [[Hn Hno]|(-> & Hz & Hpos)].
      * by destruct (Ht n Hn).
      * specialize (Hc Hz). lia.
Qed.
End exit.

(** * The output of pg_regress *)

(** How a result is laid out in the output: the padding between its parts, the
    number of the test, whether it ran in a group, and whether a diagnostic
    mark got in front of it. *)
Record layout := {
  pad_start : string; diagnostic : option string; pad_ok : string; number : string; pad_number : string; in_group : bool;
  pad_group : string; pad_name : string; pad_duration : string;
}.
Definition tap_text (y : layout) (t : TestResult) : string :=
  pad_start y +:+ (match diagnostic y with Some pad => "#" +:+ pad | None => "" end)
  +:+ (if decide (Status t = StatusPass) then "" else "not ") +:+ "ok" +:+ pad_ok y +:+ number y +:+ pad_number y
  +:+ (if in_group y then "+" else "-") +:+ pad_group y +:+ Name t +:+ pad_name y +:+ FormatInt (DurationMS t)
  +:+ pad_duration y +:+ "ms".
Inductive log_line :=
| Reported (y : layout) (t : TestResult)
| Diagnostic (text : string).
Definition line_text (l : log_line) : string :=
  match l with Reported y t => tap_text y t | Diagnostic text => text end.
Definition log_text (l : list log_line) : string := Join ((λ l, line_text l +:+ NL) <$> l) "".
Definition log_tests (l : list log_line) : list TestResult :=
  omap (λ l, match l with Reported _ t => Some t | Diagnostic _ => None end) l.

Definition blank (c : byte) : bool := re_space c && negb (bool_decide (c = "010"%char)).
Definition padding (s : string) : Prop := s ≠ "" ∧ all_bytes blank s.
Definition valid_layout (y : layout) : Prop :=
  all_bytes blank (pad_start y) ∧
  (∀ pad, diagnostic y = Some pad → all_bytes blank pad) ∧
  padding (pad_ok y) ∧ padding (pad_number y) ∧ padding (pad_group y) ∧ padding (pad_name y) ∧ padding (pad_duration y) ∧
  number y ≠ "" ∧ all_bytes is_digit (number y).
Definition valid_line (l : log_line) : Prop :=
  scannable (line_text l) = true ∧
  match l with
  | Reported y t =>
    valid_layout y ∧ Name t ≠ "" ∧ all_bytes (λ c, negb (re_space c)) (Name t) ∧
    Status t ≠ StatusMissing ∧ 0 ≤ DurationMS t ≤ max_int64
  | Diagnostic text => ("010"%char ∉ bytes_of text) ∧ match_tap (drop_carriage_return text) = None
  end.

Definition stops (f : byte → bool) (s : string) : Prop := match s with String c _ => f c = false | EmptyString => True end.

Lemma span_app f t s : all_bytes f t → stops f s → span f (t +:+ s) = (t, s).
Proof.
  intros Ht Hs. induction t as [|c t IH].
  - rewrite app_string_nil_l. destruct s as [|c s]; [done|]. cbn in *. by rewrite Hs.
  - apply all_bytes_cons in Ht as [Hc Ht]. rewrite app_string_cons. cbn. by rewrite Hc, IH.
Qed.
Lemma some_span_app f t s : t ≠ "" → all_bytes f t → stops f s → some_span f (t +:+ s) = Some (t, s).
Proof. intros Hne Ht Hs. unfold some_span. rewrite span_app by done. by rewrite decide_False. Qed.
Lemma skip_spaces_app p s : all_bytes re_space p → stops re_space s → skip_spaces (p +:+ s) = s.
Proof.
  intros Hp Hs. unfold skip_spaces. induction p as [|c p IH].
  - rewrite app_string_nil_l. destruct s as [|c s]; [done|]. cbn in *. by rewrite Hs.
  - apply all_bytes_cons in Hp as [Hc Hp]. rewrite app_string_cons. cbn. by rewrite Hc, IH.
Qed.
Lemma some_spaces_app p s : padding p → stops re_space s → some_spaces (p +:+ s) = Some s.
Proof.
  intros [Hne Hp] Hs. destruct p as [|c p]; [done|]. apply all_bytes_cons in Hp as [[Hc _]%andb_prop Hp].
  rewrite app_string_cons. cbn. rewrite Hc, skip_spaces_app; [done| |done].
  revert Hp. apply all_bytes_impl. by intros d [? _]%andb_prop.
Qed.

Lemma blank_space c : blank c = true → re_space c = true.
Proof. by intros [? _]%andb_prop. Qed.
Lemma digit_stops s t : s ≠ "" → all_bytes is_digit s → stops re_space (s +:+ t).
Proof.
  intros Hne Hs. destruct s as [|c s]; [done|]. apply all_bytes_cons in Hs as [Hc _]. rewrite app_string_cons. cbn.
  revert Hc. destruct c as [[] [] [] [] [] [] [] []]; intros E; first [reflexivity | discriminate E].
Qed.
Lemma padding_stops f p t : (∀ c, blank c = true → f c = false) → padding p → stops f (p +:+ t).
Proof.
  intros Hf [Hne Hp]. destruct p as [|c p]; [done|]. apply all_bytes_cons in Hp as [Hc _].
  rewrite app_string_cons. cbn. by apply Hf.
Qed.
Lemma blank_not_digit c : blank c = true → is_digit c = false.
Proof. destruct c as [[] [] [] [] [] [] [] []]; intros E; first [reflexivity | discriminate E]. Qed.
Lemma blank_not_name c : blank c = true → negb (re_space c) = false.
Proof. intros Hc%blank_space. by rewrite Hc. Qed.

Lemma FormatInt_digits z : 0 ≤ z → FormatInt z ≠ "" ∧ all_bytes is_digit (FormatInt z).
Proof.
  intros Hz. destruct (FormatInt_spec z) as (sign & w & -> & Hsign & Hw & Hne & Hminus & E).
  assert (w ≠ "") as Hw' by (destruct Hne as [->|(d & u & -> & _)]; done). apply num_bounds in Hw as Hb.
  destruct Hsign as [->| ->]; [done|]. exfalso. apply (Hminus eq_refl).
  rewrite decide_True in E by done. assert (num w = 0) as H0 by lia.
  destruct Hne as [|(d & u & -> & Hd)]; [done|]. apply all_bytes_cons in Hw as [Hdig Hu].
  pose proof (num_pos d u Hdig Hd Hu) as Hpos. assert (0 < 10 ^ Z.of_nat (String.length u)) by lia. lia.
Qed.

Lemma match_result_text failed (y : layout) name duration :
  valid_layout y → name ≠ "" → all_bytes (λ c, negb (re_space c)) name →
  duration ≠ "" → all_bytes is_digit duration →
  match_result failed ("ok" +:+ pad_ok y +:+ number y +:+ pad_number y +:+ (if in_group y then "+" else "-")
    +:+ pad_group y +:+ name +:+ pad_name y +:+ duration +:+ pad_duration y +:+ "ms") = Some (failed, name, duration).
Proof.
  intros (_ & _ & Hp1 & Hp2 & Hp3 & Hp4 & Hp5 & Hn & Hnd) Hne Hname Hdne Hdur. unfold match_result.
  assert (∀ t, stops re_space (name +:+ t)) as Hstop.
  { intros t. destruct name as [|c name]; [done|]. apply all_bytes_cons in Hname as [Hc _]. rewrite app_string_cons. cbn.
    by apply negb_true_iff. }
  change (TrimPrefix_go ("ok" +:+ pad_ok y +:+ number y +:+ pad_number y +:+ (if in_group y then "+" else "-")
    +:+ pad_group y +:+ name +:+ pad_name y +:+ duration +:+ pad_duration y +:+ "ms") "ok")
    with (Some (pad_ok y +:+ number y +:+ pad_number y +:+ (if in_group y then "+" else "-")
    +:+ pad_group y +:+ name +:+ pad_name y +:+ duration +:+ pad_duration y +:+ "ms")).
  cbn [mbind option_bind]. rewrite some_spaces_app by (done || by apply digit_stops). cbn [mbind option_bind].
  rewrite some_span_app; [|done|done|by apply padding_stops; [apply blank_not_digit|]]. cbn [mbind option_bind].
  rewrite some_spaces_app by (done || by destruct (in_group y)). cbn [mbind option_bind].
  assert (match (if in_group y then "+" else "-") +:+ pad_group y +:+ name +:+ pad_name y +:+ duration +:+ pad_duration y +:+ "ms"
    with String c s => if bool_decide (c ∈ ["+"; "-"]%char) then Some s else None | EmptyString => None end =
    Some (pad_group y +:+ name +:+ pad_name y +:+ duration +:+ pad_duration y +:+ "ms")) as -> by (by destruct (in_group y)).
  cbn [mbind option_bind]. rewrite some_spaces_app by (done || apply Hstop). cbn [mbind option_bind].
  rewrite some_span_app; [|done|done|by apply padding_stops; [apply blank_not_name|]]. cbn [mbind option_bind].
  rewrite some_spaces_app by (done || by apply digit_stops). cbn [mbind option_bind].
  rewrite some_span_app; [|done|done|by apply padding_stops; [apply blank_not_digit|]]. cbn [mbind option_bind].
  rewrite some_spaces_app by done. done.
Qed.

Lemma match_tap_text y t : valid_line (Reported y t) →
  match_tap (tap_text y t) = Some (bool_decide (Status t ≠ StatusPass), Name t, FormatInt (DurationMS t)).
Proof.
  intros (_ & Hy & Hne & Hname & Hst & Hdur). destruct (FormatInt_digits (DurationMS t)) as [Hd1 Hd2]; [lia|].
  pose proof Hy as (Hp0 & Hdiag & _). unfold match_tap, tap_text. cbv zeta.
  set (body := "ok" +:+ _).
  assert (∀ failed, match_result failed body = Some (failed, Name t, FormatInt (DurationMS t))) as Hbody
    by (intros failed; by apply match_result_text).
  assert (∀ r : string, TrimPrefix_go ("ok" +:+ r) "not " = None) as Hnot by done.
  assert (match TrimPrefix_go ((if decide (Status t = StatusPass) then "" else "not ") +:+ body) "not " with
    | Some s => match_result true s
    | None => match_result false ((if decide (Status t = StatusPass) then "" else "not ") +:+ body) end =
    Some (bool_decide (Status t ≠ StatusPass), Name t, FormatInt (DurationMS t))) as Hres.
  { case_decide as Es.
    - rewrite app_string_nil_l. unfold body at 1. rewrite Hnot, Hbody. by rewrite bool_decide_eq_false_2 by tauto.
    - change (TrimPrefix_go ("not " +:+ body) "not ") with (Some body). cbv iota. rewrite Hbody.
      by rewrite bool_decide_eq_true_2. }
  assert (stops re_space ((if decide (Status t = StatusPass) then "" else "not ") +:+ body)) as Hstops by by case_decide.
  rewrite skip_spaces_app; [|by apply (all_bytes_impl _ _ _ blank_space)|by destruct (diagnostic y)].
  destruct (diagnostic y) as [pad|].
  - change (TrimPrefix_go (("#" +:+ pad) +:+ (if decide (Status t = StatusPass) then "" else "not ") +:+ body) "#") with
      (Some (pad +:+ (if decide (Status t = StatusPass) then "" else "not ") +:+ body)). cbv iota.
    rewrite skip_spaces_app; [done| |done]. by apply (all_bytes_impl _ _ _ blank_space), Hdiag.
  - rewrite app_string_nil_l.
    assert (TrimPrefix_go ((if decide (Status t = StatusPass) then "" else "not ") +:+ body) "#" = None) as -> by by case_decide.
    done.
Qed.

(** ** Lines *)

Lemma lines_go_line cur l s : "010"%char ∉ bytes_of l →
  lines_go cur (l +:+ String "010" s) = (reverse cur +:+ l) :: lines_go "" s.
Proof.
  revert cur. induction l as [|c l IH]; intros cur Hl.
  - rewrite app_string_nil_l, app_string_nil_r. done.
  - change (bytes_of (String c l)) with (c :: bytes_of l) in Hl. apply not_elem_of_cons in Hl as [Hc Hl].
    rewrite app_string_cons. cbn [lines_go]. rewrite decide_False by congruence. rewrite IH by done.
    change (String c cur) with (String c "" +:+ cur). by rewrite reverse_app, app_string_assoc.
Qed.

Lemma lines_of_log (lines : list string) : Forall (λ l, "010"%char ∉ bytes_of l) lines →
  lines_go "" (Join ((λ l, l +:+ NL) <$> lines) "") = lines.
Proof.
  induction 1 as [|l lines Hl Hlines IH]; [done|]. cbn [fmap list_fmap].
  assert (Join ((l +:+ NL) :: ((λ l, l +:+ NL) <$> lines)) "" = l +:+ String "010" (Join ((λ l, l +:+ NL) <$> lines) "")) as ->.
  { destruct lines as [|l' lines]; [done|]. cbn [fmap list_fmap].
    change (Join ((l +:+ NL) :: (l' +:+ NL) :: ((λ l, l +:+ NL) <$> lines)) "") with
      ((l +:+ NL) +:+ "" +:+ Join ((l' +:+ NL) :: ((λ l, l +:+ NL) <$> lines)) "").
    by rewrite app_string_nil_l, app_string_assoc. }
  rewrite lines_go_line by done. by rewrite IH.
Qed.

Lemma take_scannable_all lines : Forall (λ l, scannable l = true) lines →
  take_scannable lines = (drop_carriage_return <$> lines, true).
Proof. induction 1 as [|l lines Hl Hlines IH]; [done|]. cbn. by rewrite Hl, IH. Qed.

Lemma drop_carriage_return_ms s : drop_carriage_return (s +:+ "ms") = s +:+ "ms".
Proof. unfold drop_carriage_return, TrimSuffix, HasSuffix. by rewrite reverse_app. Qed.

Lemma tap_text_end y t : ∃ s, tap_text y t = s +:+ "ms".
Proof.
  unfold tap_text.
  generalize (match diagnostic y with Some pad => "#" +:+ pad | None => "" end)
    (if decide (Status t = StatusPass) then "" else "not ") (if in_group y then "+" else "-").
  intros a b c. exists (pad_start y +:+ a +:+ b +:+ "ok" +:+ pad_ok y +:+ number y +:+ pad_number y
    +:+ c +:+ pad_group y +:+ Name t +:+ pad_name y +:+ FormatInt (DurationMS t) +:+ pad_duration y).
  by rewrite !app_string_assoc.
Qed.

Lemma no_newline (f : byte → bool) s : (∀ c, f c = true → c ≠ "010"%char) → all_bytes f s → "010"%char ∉ bytes_of s.
Proof. intros Hf Hs Hin. unfold all_bytes in Hs. rewrite Forall_forall in Hs. by apply (Hf "010"%char); [apply Hs|]. Qed.

Lemma line_text_no_newline l : valid_line l → "010"%char ∉ bytes_of (line_text l).
Proof.
  destruct l as [y t|text]; [|by intros (_ & ? & _)].
  intros (_ & (Hp0 & Hdiag & [_ Hp1] & [_ Hp2] & [_ Hp3] & [_ Hp4] & [_ Hp5] & _ & Hnum) & _ & Hname & _ & Hdur).
  destruct (FormatInt_digits (DurationMS t)) as [_ Hd]; [lia|]. cbn [line_text]. unfold tap_text.
  set (ok := λ c, negb (bool_decide (c = "010"%char))).
  assert (∀ s, all_bytes blank s → all_bytes ok s) as Hblank by (intros s; apply all_bytes_impl; by intros c [_ ?]%andb_prop).
  assert (∀ s, all_bytes is_digit s → all_bytes ok s) as Hdigit.
  { intros s. apply all_bytes_impl. intros c Hc. unfold ok. case_bool_decide; [by subst|done]. }
  apply (no_newline ok); [intros c Hc ->; done|]. rewrite !all_bytes_app. split_and!; auto.
  - destruct (diagnostic y) as [pad|]; [|by apply all_bytes_nil]. rewrite all_bytes_app. split; [by repeat constructor|auto].
  - case_decide; by repeat constructor.
  - by repeat constructor.
  - destruct (in_group y); by repeat constructor.
  - revert Hname. apply all_bytes_impl. intros c Hc. unfold ok. case_bool_decide; [by subst|done].
  - by repeat constructor.
Qed.

Lemma log_text_lines l : log_text l = Join ((λ l, l +:+ NL) <$> (line_text <$> l)) "".
Proof. unfold log_text. by rewrite <- list_fmap_compose. Qed.

(** One line of the output after the lines [before]. *)
Lemma tap_line_text l seen tests :
  valid_line l → (∀ n, n ∈ seen ↔ n ∈ Name <$> tests) → NoDup (Name <$> tests ++ log_tests [l]) →
  ∃ seen', tap_line (seen, tests) (drop_carriage_return (line_text l)) = Ok (seen', tests ++ log_tests [l]) ∧
    ∀ n, n ∈ seen' ↔ n ∈ Name <$> tests ++ log_tests [l].
Proof.
  intros Hl Hseen Hnd. destruct l as [y t|text]; cbn [log_tests omap list_omap line_text] in *.
  - destruct (tap_text_end y t) as [s Es]. rewrite Es, drop_carriage_return_ms, <- Es. unfold tap_line.
    rewrite match_tap_text by done. cbn [fst snd]. rewrite fmap_app in Hnd. cbn in Hnd.
    apply NoDup_app in Hnd as (_ & Hdis & _). rewrite decide_False.
    2:{ intros Hn%Hseen. apply (Hdis _ Hn). by left. }
    destruct Hl as (_ & _ & _ & _ & Hst & Hdur). unfold Atoi, ParseInt. rewrite SetString10_FormatInt. cbn [mbind option_bind].
    rewrite decide_True by (unfold min_int64 in *; lia).
    eexists. split.
    + assert ({| Name := Name t; Status := if bool_decide (Status t ≠ StatusPass) then StatusFail else StatusPass;
                 DurationMS := DurationMS t |} = t) as -> by (destruct t as [n st d]; cbn in *; by destruct st).
      reflexivity.
    + intros n. rewrite fmap_app, elem_of_union, elem_of_app, Hseen, elem_of_singleton. cbn.
      rewrite list_elem_of_singleton. tauto.
  - destruct Hl as (_ & _ & Hm). unfold tap_line. rewrite Hm. exists seen. by rewrite app_nil_r.
Qed.

Lemma mfold_tap_lines l seen tests :
  Forall valid_line l → (∀ n, n ∈ seen ↔ n ∈ Name <$> tests) → NoDup (Name <$> tests ++ log_tests l) →
  ∃ seen', mfold tap_line (seen, tests) (drop_carriage_return <$> (line_text <$> l)) = Ok (seen', tests ++ log_tests l).
Proof.
  revert seen tests. induction l as [|x l IH]; intros seen tests Hl Hseen Hnd.
  - exists seen. by rewrite app_nil_r.
  - apply Forall_cons in Hl as [Hx Hl]. change (x :: l) with ([x] ++ l) in *. unfold log_tests in *.
    rewrite omap_app, app_assoc in *.
    destruct (tap_line_text x seen tests) as (seen1 & E & Hseen1); [done|done|by rewrite fmap_app in Hnd; apply NoDup_app in Hnd as [? _]|].
    cbn [app fmap list_fmap]. cbn [mfold]. rewrite E. cbn [mbind result_bind]. by apply IH.
Qed.

(** the results that pg_regress prints are read back: from an output of any
    number of result lines, in its layout and also behind a diagnostic mark,
    between lines that are not results, with every test at most once, each test
    is reported in order with its outcome and time, and the totals count the
    tests that passed and failed. *)
Theorem tap_report_roundtrip l version :
  Forall valid_line l → NoDup (Name <$> log_tests l) → log_tests l ≠ [] →
  ParseTAP {| contents := log_text l; read_error := None |} version =
  Ok {| PostgreSQLVersion := version; ExpectedTests := 0;
        PassedTests := Z.of_nat (length (filter (λ t, Status t = StatusPass) (log_tests l)));
        FailedTests := Z.of_nat (length (filter (λ t, Status t ≠ StatusPass) (log_tests l)));
        MissingTests := []; ProxyCrashes := 0; Tests := log_tests l |}.
Proof.
  intros Hl Hnd Hne. unfold ParseTAP, scan. cbn [contents read_error]. rewrite log_text_lines, lines_of_log.
  2:{ apply Forall_fmap. exact (Forall_impl _ _ _ Hl line_text_no_newline). }
  rewrite take_scannable_all.
  2:{ apply Forall_fmap. eapply Forall_impl; [exact Hl|]. by intros x [? _]. }
  destruct (mfold_tap_lines l ∅ []) as [seen E]; [done|set_solver|done|]. rewrite E. cbn [mbind result_bind snd app].
  rewrite decide_False by done. unfold recount. do 2 f_equal. cbn [Tests]. unfold tests_with.
  assert (Forall (λ t, Status t ≠ StatusMissing) (log_tests l)) as Hmiss.
  { apply Forall_forall. intros t (x & Hx & Et)%list_elem_of_omap. rewrite Forall_forall in Hl. specialize (Hl x Hx).
    destruct x; [|done]. injection Et as ->. by destruct Hl as (_ & _ & _ & _ & ? & _). }
  rewrite <- Nat2Z.inj_add. f_equal. clear -Hmiss. induction Hmiss as [|t tests Ht Hmiss IH]; [done|].
  rewrite !filter_cons. destruct (Status t) eqn:E; repeat case_decide; try congruence; cbn [length]; by rewrite <- IH.
Qed.

(** * Concrete inputs *)

Definition usual : layout := {|
  pad_start := ""; diagnostic := None; pad_ok := " "; number := "1"; pad_number := "     "; in_group := true;
  pad_group := " "; pad_name := "        "; pad_duration := " " |}.
Definition interleaved : layout := {|
  pad_start := ""; diagnostic := Some " "; pad_ok := " "; number := "2"; pad_number := " "; in_group := false;
  pad_group := " "; pad_name := " "; pad_duration := " " |}.
Definition boolean_result : TestResult := {| Name := "boolean"; Status := StatusPass; DurationMS := 101 |}.
Definition char_result : TestResult := {| Name := "char"; Status := StatusFail; DurationMS := 5 |}.
Definition sample_log : list log_line :=
  [Diagnostic "# using postmaster on Unix socket"; Reported usual boolean_result; Reported interleaved char_result;
   Diagnostic "1..2"].

Lemma usual_valid : valid_layout usual.
Proof. unfold valid_layout, padding. split_and!; try done; apply all_bytes_forallb; by vm_compute. Qed.
Lemma interleaved_valid : valid_layout interleaved.
Proof.
  unfold valid_layout, padding. split_and!; try done; try (apply all_bytes_forallb; by vm_compute).
  intros pad [= <-]. apply all_bytes_forallb. by vm_compute.
Qed.

Lemma tap_report_roundtrip_witness :
  ParseTAP {| contents := log_text sample_log; read_error := None |} "17.10" =
  Ok {| PostgreSQLVersion := "17.10"; ExpectedTests := 0; PassedTests := 1; FailedTests := 1; MissingTests := [];
        ProxyCrashes := 0; Tests := [boolean_result; char_result] |}.
Proof.
  apply (tap_report_roundtrip sample_log "17.10"); [|by_computation|done]. unfold sample_log. rewrite !Forall_cons.
  split_and!; [| | | |by apply Forall_nil].
  1,4: split; [by_computation|split; [by_computation | by vm_compute]].
  all: split; [by_computation|].
  - split; [apply usual_valid|]. split_and!; [done | apply all_bytes_forallb; by vm_compute | done | by vm_compute..].
  - split; [apply interleaved_valid|]. split_and!; [done | apply all_bytes_forallb; by vm_compute | done | by vm_compute..].
Defined.

(** A run in which char fails with its reviewed output, against a baseline in
    which both tests passed. *)
#[local] Existing Instance toy_std.
Definition char_output : string := "ERROR: char is not supported yet".
Definition char_difference : ExpectedDifference := {|
  Test := "char"; OutputSHA256 := digest char_output; Reason := "reviewed"; Normalizations := [] |}.
Definition baseline_results : Results := {|
  PostgreSQLVersion := "17.10"; ExpectedTests := 2; PassedTests := 2; FailedTests := 0; MissingTests := [];
  ProxyCrashes := 0;
  Tests := [boolean_result; {| Name := "char"; Status := StatusPass; DurationMS := 4 |}] |}.
Definition sample_schedule : string := "# parallel" +:+ NL +:+ "test: boolean char" +:+ NL.
Definition toy_files : Files := {|
  Open := λ path,
    if decide (path = "log") then Ok {| contents := log_text sample_log; read_error := None |} else
    if decide (path = "schedule") then Ok {| contents := sample_schedule; read_error := None |} else Err "no such file";
  Close := λ _, None;
  ReadFile := λ path,
    if decide (path = "baseline") then Ok "baseline" else if decide (path = "policy") then Ok "policy" else
    if decide (path = "results/char.out") then Ok char_output else Err "no such file";
  MkdirAll := λ _, None; WriteFile := λ _, None; JoinPath := λ l, Join l "/";
  UnmarshalResults := λ _, Ok (1, baseline_results);
  DecodeDifferences := λ _, Ok (1, "17.10", Some [char_difference]);
  DecodeRest := λ _, AtEOF;
  regex := unit; Compile := λ _, Ok tt; CountMatches := λ _ _, 0; ReplaceAllString := λ _ s _, s;
|}.
#[local] Existing Instance toy_files.
Definition sample_flags : flags := {|
  logPath := "log"; schedulePath := "schedule"; outputDirectory := "out"; baselinePath := "baseline";
  expectedDifferencesPath := "policy"; testResultsDirectory := "results"; postgresqlVersion := "17.10"; proxyLogPath := "" |}.
Definition sample_results : Results := {|
  PostgreSQLVersion := "17.10"; ExpectedTests := 2; PassedTests := 1; FailedTests := 1; MissingTests := [];
  ProxyCrashes := 0; Tests := [boolean_result; char_result] |}.
Definition char_regression : Regression := {| r_name := "char"; Previous := StatusPass; Current := StatusFail |}.
Definition sample_findings : findings := {|
  f_results := sample_results; f_complete := true; f_compared := true; f_expected := [char_regression]; f_unexpected := [];
  f_verifications := [{| Difference := char_difference; ActualSHA256 := digest char_output; Matched := true; Problem := "" |}] |}.

Example sample_exit : main sample_flags = (0,
  [("out/results.json", ResultsDocument sample_results);
   ("out/compatibility-report.md", ReportDocument (Markdown sample_results [] [char_regression]
      (f_verifications sample_findings) true));
   ("out/badges/overall.json", BadgeDocument {| Label := "PostgreSQL 17.10"; Message := "1/2 passing"; Color := "orange" |})]).
Proof. by vm_compute. Qed.

Lemma exit_zero_iff_witness :
  exit_code sample_findings = 0 ∧
  (∀ n, passes (Tests baseline_results) n →
     passes [boolean_result; char_result] n ∨ reviewed sample_flags sample_results n).
Proof.
  split; [done|].
  apply (exit_zero_iff sample_flags sample_findings {| contents := log_text sample_log; read_error := None |}
    {| PostgreSQLVersion := "17.10"; ExpectedTests := 0; PassedTests := 1; FailedTests := 1; MissingTests := [];
       ProxyCrashes := 0; Tests := [boolean_result; char_result] |}
    {| contents := sample_schedule; read_error := None |} ["boolean"; "char"]); try done; by vm_compute.
Defined.
End report.
