(* ===== verification/Status.v ===== *)
(** The status views, from [internal/status/server.go], the health checks of
    [internal/backend/backend.go], the [status] command of
    [cmd/hamstergres-proxy/main.go] and the tracing switch of
    [internal/observability/tracing.go].

    The HTML page and the JSON encoding are templates of libraries; the text of
    the metrics and of the command, and the health answer, are modelled. The
    statistics of a pool and the outcome of a ping come from [pgxpool]. *)
From S2P Require Import Prelude.
From S2P Require Import GoStrings.
From S2P Require Import GoStd.
From S2P Require Import GoTime.
From S2P Require Import Schema.
From S2P Require Import Statistics.
From S2P Require Import Backend.

Module status.
Import schema statistics backend.

(** * Health checks *)

(** [shard.last]: when a Burrow was last checked and what the check said. *)
Record check := { checkedAt : Z; check_error : string }.
Definition unchecked : check := {| checkedAt := 0; check_error := "" |}.
Abbreviation checks := (gmap string check).

(** The end of one goroutine of [ShardStatuses]: [outcome] is the error of the ping. *)
Definition record_check (now : Z) (name : string) (outcome : option string) (l : checks) : checks :=
  <[name := {| checkedAt := now; check_error := default "" outcome |}]> l.

(** [pgxpool.Stat] *)
Record pool_stat := {
  TotalConns : Z; AcquiredConns : Z; IdleConns : Z; MaxConns : Z;
  AcquireCount : Z; EmptyAcquireCount : Z; CanceledAcquireCount : Z; AcquireDuration : gotime.float;
}.
Record ShardStatus := {
  b_name : string; Healthy : bool; LastCheckedAt : Z; LastError : string; b_stat : pool_stat }.

(** What [ShardStatuses] reads once its pings have ended. *)
Definition read_statuses (names : list string) (stat : string → pool_stat) (l : checks) : list ShardStatus :=
  (λ name, let last := default unchecked (l !! name) in
    {| b_name := name; Healthy := bool_decide (check_error last = ""); LastCheckedAt := checkedAt last;
       LastError := check_error last; b_stat := stat name |}) <$> names.

(** The pings of one call end in some order. *)
Definition ping_all (order : list (Z * string)) (ping : string → option string) (l : checks) : checks :=
  fold_left (λ l p, record_check p.1 p.2 (ping p.2) l) order l.
Definition ShardStatuses (names : list string) (order : list (Z * string)) (ping : string → option string)
    (stat : string → pool_stat) (l : checks) : list ShardStatus * checks :=
  let l := ping_all order ping l in (read_statuses names stat l, l).

Record answer := { StatusCode : Z; Body : string }.
Definition NL : string := String "010" "".
Definition handleHealth (burrows : list ShardStatus) : answer :=
  if forallb Healthy burrows then {| StatusCode := 200; Body := "ok" +:+ NL |}
  else {| StatusCode := 503; Body := "a Burrow is unhealthy" +:+ NL |}.

(** * Metrics *)

Record view := {
  UptimeSeconds : Z; Connections : Z; ActiveConnections : Z; QueryMetrics : Snapshot;
  Burrows : list ShardStatus; Sharding : ShardingInventory;
}.

(** A label value is written as it is, or by [%q]. *)
Inductive label_value := Raw (v : string) | Quoted (v : string).
Inductive line :=
| Help (name help : string)
| Type_ (name kind : string)
| Sample (name : string) (labels : list (string * label_value)) (value : string)
| EndOfFile.

Section text.
Context `{GoStd} (format_g : gotime.float → string).

Definition label_text (l : string * label_value) : string :=
  l.1 +:+ "=" +:+ match l.2 with Raw v => String "034" "" +:+ v +:+ String "034" "" | Quoted v => quote_message v end.
Definition line_text (l : line) : string :=
  match l with
  | Help name help => "# HELP " +:+ name +:+ " " +:+ help
  | Type_ name kind => "# TYPE " +:+ name +:+ " " +:+ kind
  | Sample name [] value => name +:+ " " +:+ value
  | Sample name labels value => name +:+ "{" +:+ Join (label_text <$> labels) "," +:+ "} " +:+ value
  | EndOfFile => "# EOF"
  end +:+ NL.

Definition metric (name kind help : string) : list line := [Help name help; Type_ name kind].
Definition process_lines (x : view) : list line :=
  let q := Total (QueryMetrics x) in
  metric "hamstergres_proxy_uptime_seconds" "gauge" "Seconds since the Proxy started." ++
  [Sample "hamstergres_proxy_uptime_seconds" [] (FormatInt (UptimeSeconds x))] ++
  metric "hamstergres_proxy_frontend_connections" "gauge" "Frontend connections by state." ++
  [Sample "hamstergres_proxy_frontend_connections" [("state", Raw "active")] (FormatInt (ActiveConnections x));
   Sample "hamstergres_proxy_frontend_connections" [("state", Raw "total")] (FormatInt (Connections x))] ++
  metric "hamstergres_proxy_queries_total" "counter" "Client queries by outcome and routing decision." ++
  [Sample "hamstergres_proxy_queries_total" [("outcome", Raw "success")] (FormatInt (swrap 64 (Queries q - FailedQueries q)));
   Sample "hamstergres_proxy_queries_total" [("outcome", Raw "failure")] (FormatInt (FailedQueries q))] ++
  metric "hamstergres_proxy_query_routes_total" "counter" "Client query routing decisions." ++
  [Sample "hamstergres_proxy_query_routes_total" [("route", Raw "single_burrow")] (FormatInt (SingleShardQueries q));
   Sample "hamstergres_proxy_query_routes_total" [("route", Raw "scatter")] (FormatInt (ScatteredQueries q))].
Definition query_lines (x : view) : list line :=
  let m := QueryMetrics x in
  let latency := Latency m in
  metric "hamstergres_proxy_query_failures_total" "counter" "Failed client queries by stable error category." ++
  ((λ f : string * Z, Sample "hamstergres_proxy_query_failures_total" [("category", Quoted f.1)] (FormatInt f.2)) <$> Failures m) ++
  metric "hamstergres_proxy_query_duration_seconds" "histogram" "Client query latency in seconds." ++
  ((λ b, Sample "hamstergres_proxy_query_duration_seconds_bucket" [("le", Quoted (format_g (UpperBound b)))]
      (FormatInt (BucketCount b))) <$> Buckets latency) ++
  [Sample "hamstergres_proxy_query_duration_seconds_bucket" [("le", Raw "+Inf")] (FormatInt (HistogramCount latency));
   Sample "hamstergres_proxy_query_duration_seconds_sum" [] (format_g (Sum latency));
   Sample "hamstergres_proxy_query_duration_seconds_count" [] (FormatInt (HistogramCount latency))] ++
  metric "hamstergres_proxy_burrow_executions_total" "counter" "Query executions sent through Tunnels to each Burrow." ++
  ((λ s : string * Z, Sample "hamstergres_proxy_burrow_executions_total" [("burrow", Quoted s.1)] (FormatInt s.2))
     <$> ShardExecutions m) ++
  metric "hamstergres_proxy_operations_total" "counter" "Operational events by stable operation and outcome." ++
  ((λ o : (string * string) * Z, Sample "hamstergres_proxy_operations_total"
      [("operation", Quoted o.1.1); ("outcome", Quoted o.1.2)] (FormatInt o.2)) <$> Operations m).
Definition inventory_lines (x : view) : list line :=
  let s := Sharding x in
  metric "hamstergres_proxy_burrow_up" "gauge" "Whether the latest Burrow health check succeeded." ++
  metric "hamstergres_proxy_schema_revision" "gauge" "Schema revision applied by this Proxy." ++
  [Sample "hamstergres_proxy_schema_revision" [] (FormatInt (inv_SchemaRevision s))] ++
  metric "hamstergres_proxy_topology_revision" "gauge" "Topology revision applied by this Proxy." ++
  [Sample "hamstergres_proxy_topology_revision" [] (FormatInt (inv_TopologyRevision s))] ++
  metric "hamstergres_proxy_table_sharded" "gauge"
    "Whether a table is sharded according to the cached Hamstergres Nest inventory." ++
  ((λ t, Sample "hamstergres_proxy_table_sharded" [("table", Quoted (Table t))] (if Sharded t then "1" else "0"))
     <$> inv_Tables s).
Definition burrow_lines (b : ShardStatus) : list line :=
  let burrow := ("burrow", Quoted (b_name b)) in
  let pool := "hamstergres_proxy_backend_pool_connections" in
  [Sample "hamstergres_proxy_burrow_up" [burrow] (if Healthy b then "1" else "0");
   Sample pool [burrow; ("state", Raw "capacity")] (FormatInt (MaxConns (b_stat b)));
   Sample pool [burrow; ("state", Raw "in_use")] (FormatInt (AcquiredConns (b_stat b)));
   Sample pool [burrow; ("state", Raw "idle")] (FormatInt (IdleConns (b_stat b)));
   Sample "hamstergres_proxy_backend_pool_acquire_total" [burrow; ("outcome", Raw "success")]
     (FormatInt (AcquireCount (b_stat b)));
   Sample "hamstergres_proxy_backend_pool_acquire_total" [burrow; ("outcome", Raw "canceled")]
     (FormatInt (CanceledAcquireCount (b_stat b)));
   Sample "hamstergres_proxy_backend_pool_wait_total" [burrow] (FormatInt (EmptyAcquireCount (b_stat b)));
   Sample "hamstergres_proxy_backend_pool_acquire_duration_seconds_total" [burrow] (format_g (AcquireDuration (b_stat b)))].
Definition pool_lines (x : view) : list line :=
  metric "hamstergres_proxy_backend_pool_connections" "gauge" "Backend pool connections by Burrow and state." ++
  metric "hamstergres_proxy_backend_pool_acquire_total" "counter" "Backend pool acquisition attempts by Burrow and outcome." ++
  metric "hamstergres_proxy_backend_pool_wait_total" "counter" "Backend pool acquisitions that had to wait for capacity." ++
  metric "hamstergres_proxy_backend_pool_acquire_duration_seconds_total" "counter"
    "Total time spent acquiring backend connections." ++
  mjoin (burrow_lines <$> Burrows x).
Definition metrics (x : view) : list line :=
  process_lines x ++ query_lines x ++ inventory_lines x ++ pool_lines x ++ [EndOfFile].
Definition handleMetrics (x : view) : string := Join (line_text <$> metrics x) "".
End text.

(** * The status command *)

Definition table_text (t : TableInventory) : string :=
  "  " +:+ Table t +:+ (if Sharded t then ": sharded by (" +:+ Join (ShardKeys t) ", " +:+ ")" else ": unsharded") +:+ NL.
Definition window_text (w : WindowStatistics) : string :=
  let q := w_statistics w in
  "  " +:+ w_name w +:+ ": " +:+ FormatInt (Queries q) +:+ " queries, " +:+ FormatInt (FailedQueries q) +:+ " failed, "
  +:+ FormatInt (ScatteredQueries q) +:+ " scattered, " +:+ FormatInt (SingleShardQueries q) +:+ " single-shard, "
  +:+ FormatInt (AverageDurationMillis q) +:+ "ms average" +:+ NL
  +:+ Join ((λ s : string * Z, "    " +:+ s.1 +:+ ": " +:+ FormatInt s.2 +:+ " executions" +:+ NL) <$> w_shards w) "".
Definition query_summary_text (q : QuerySummary) : string :=
  "  " +:+ QueryShape q +:+ " [" +:+ QueryFingerprint q +:+ "] (" +:+ Statement q +:+ "): "
  +:+ FormatInt (Queries (q_statistics q)) +:+ " queries, " +:+ FormatInt (FailedQueries (q_statistics q)) +:+ " failures, "
  +:+ FormatInt (ScatteredQueries (q_statistics q)) +:+ " scattered" +:+ NL.
Definition burrow_text (b : ShardStatus) : string :=
  b_name b +:+ ": " +:+ (if Healthy b then "healthy" else "unhealthy: " +:+ LastError b) +:+ " ("
  +:+ FormatInt (AcquiredConns (b_stat b)) +:+ " acquired, " +:+ FormatInt (IdleConns (b_stat b)) +:+ " idle, "
  +:+ FormatInt (TotalConns (b_stat b)) +:+ " total connections)" +:+ NL.

(** What [statusCommand] prints of a decoded snapshot; [now] and [source] are
    its time as text and the source of its inventory. *)
Definition statusCommand (now source : string) (x : view) : string :=
  let q := Total (QueryMetrics x) in
  let s := Sharding x in
  "Hamstergres status (" +:+ now +:+ ")" +:+ NL
  +:+ "Uptime: " +:+ FormatInt (UptimeSeconds x) +:+ "s" +:+ NL
  +:+ "Frontend: " +:+ FormatInt (ActiveConnections x) +:+ " active / " +:+ FormatInt (Connections x) +:+ " total connections" +:+ NL
  +:+ "Queries: " +:+ FormatInt (Queries q) +:+ " total / " +:+ FormatInt (FailedQueries q) +:+ " failed (average "
  +:+ FormatInt (AverageDurationMillis q) +:+ "ms)" +:+ NL
  +:+ "Routing: " +:+ FormatInt (ScatteredQueries q) +:+ " scattered / " +:+ FormatInt (SingleShardQueries q) +:+ " single-shard" +:+ NL
  +:+ "Sharding inventory: " +:+ source +:+ " (schema revision " +:+ FormatInt (inv_SchemaRevision s) +:+ ", topology revision "
  +:+ FormatInt (inv_TopologyRevision s) +:+ ", " +:+ FormatInt (inv_VirtualShards s) +:+ " vshards, unsharded mode "
  +:+ inv_UnshardedMode s +:+ ")" +:+ NL
  +:+ Join (table_text <$> inv_Tables s) ""
  +:+ "Rolling query traffic:" +:+ NL
  +:+ Join (window_text <$> Windows (QueryMetrics x)) ""
  +:+ (if decide (length (QuerySummaries (QueryMetrics x)) = 0%nat) then ""
       else "Query summaries:" +:+ NL +:+ Join (query_summary_text <$> QuerySummaries (QueryMetrics x)) "")
  +:+ Join (burrow_text <$> Burrows x) "".

(** * Tracing *)

(** [getenv] is the process environment; a variable that is not set is empty. *)
Definition Contains (s p : string) : bool := match Index s p with Some _ => true | None => false end.
Definition tracingEnabled (getenv : string → string) : bool :=
  if EqualFold (getenv "OTEL_SDK_DISABLED") "true" || EqualFold (getenv "OTEL_TRACES_EXPORTER") "none" then false
  else negb (bool_decide (getenv "OTEL_EXPORTER_OTLP_ENDPOINT" = ""))
    || negb (bool_decide (getenv "OTEL_EXPORTER_OTLP_TRACES_ENDPOINT" = ""))
    || Contains (getenv "OTEL_TRACES_EXPORTER") "otlp".
Definition configuredServiceName (getenv : string → string) : string :=
  let name := getenv "OTEL_SERVICE_NAME" in if decide (name = "") then "hamstergres-proxy" else name.

(** * What the health endpoint promises *)

Lemma ping_all_lookup order ping l name :
  name ∈ order.*2 → ∃ now, ping_all order ping l !! name = Some {| checkedAt := now; check_error := default "" (ping name) |}.
Proof.
  unfold ping_all. induction order as [|[now n] order IH] using rev_ind; [set_solver|].
  rewrite fmap_app, fold_left_app, elem_of_app. cbn [fold_left]. revert IH. generalize (fold_left (λ l p, record_check p.1 p.2 (ping p.2) l) order l).
  intros l1 IH Hn. unfold record_check. cbn.
  destruct (decide (n = name)) as [->|Hne]; [rewrite lookup_insert_eq; eauto|].
  rewrite lookup_insert_ne by done. apply IH. set_solver.
Qed.

(** whatever earlier checks said and in whatever order the pings of this
    request end, a health request that runs alone is answered with 200 exactly
    when every Burrow answered its ping; every Burrow is listed, in configured
    order, with the outcome of its own ping; and the metrics of the same
    snapshot say [burrow_up] 1 of exactly the Burrows that answered. *)
Theorem health_endpoint_exact `{GoStd} format_g names order ping stat l statuses l' :
  order.*2 ≡ₚ names → (∀ name e, ping name = Some e → e ≠ "") →
  ShardStatuses names order ping stat l = (statuses, l') →
  (StatusCode (handleHealth statuses) = 200 ↔ ∀ name, name ∈ names → ping name = None) ∧
  b_name <$> statuses = names ∧
  (∀ b, b ∈ statuses → LastError b = default "" (ping (b_name b)) ∧ (Healthy b = true ↔ ping (b_name b) = None)) ∧
  ∀ x, Burrows x = statuses → ∀ name, name ∈ names →
    Sample "hamstergres_proxy_burrow_up" [("burrow", Quoted name)] (match ping name with Some _ => "0" | None => "1" end) ∈ metrics format_g x.
Proof.
  intros Horder Hping [= <- <-].
  assert (∀ b, b ∈ read_statuses names stat (ping_all order ping l) →
    b_name b ∈ names ∧ LastError b = default "" (ping (b_name b)) ∧ (Healthy b = true ↔ ping (b_name b) = None)) as Hb.
  { intros b (name & -> & Hname)%list_elem_of_fmap. cbn. destruct (ping_all_lookup order ping l name) as [now ->].
    { by rewrite Horder. }
    cbn. split_and!; try done. rewrite bool_decide_eq_true. destruct (ping name) as [e|] eqn:Ep; cbn; [|done].
    split; [intros ->; by destruct (Hping _ _ Ep) | done]. }
  assert (b_name <$> read_statuses names stat (ping_all order ping l) = names) as Hnames.
  { unfold read_statuses. rewrite <- list_fmap_compose. apply list_fmap_id. }
  split_and!; [|done|naive_solver|].
  - unfold handleHealth. transitivity (∀ b, b ∈ read_statuses names stat (ping_all order ping l) → Healthy b = true).
    + destruct (forallb Healthy _) eqn:E; cbn.
      * rewrite forallb_forall in E. split; [|done]. intros _ b Hin. by apply E, list_elem_of_In.
      * split; [done|]. intros Hall. assert (forallb Healthy (read_statuses names stat (ping_all order ping l)) = true) as E'; [|congruence].
        apply forallb_forall. intros b Hin. by apply Hall, list_elem_of_In.
    + split.
      * intros Hall name Hname. rewrite <- Hnames in Hname. apply list_elem_of_fmap in Hname as (b & -> & Hin).
        destruct (Hb b Hin) as (_ & _ & Hiff). by apply Hiff, Hall.
      * intros Hall b Hin. destruct (Hb b Hin) as (Hname & _ & Hiff). by apply Hiff, Hall.
  - intros x Hx name Hname. rewrite <- Hnames in Hname. apply list_elem_of_fmap in Hname as (b & -> & Hin).
    destruct (Hb b Hin) as (_ & _ & Hiff).
    assert ((match ping (b_name b) with Some _ => "0" | None => "1" end) = (if Healthy b then "1" else "0")) as ->.
    { destruct (Healthy b), (ping (b_name b)); try done; [by assert (Some s = None) by (by apply Hiff)|].
      assert (false = true) by (by apply Hiff). done. }
    unfold metrics, pool_lines. do 3 (apply elem_of_app; right). apply elem_of_app; left. do 4 (apply elem_of_app; right).
    rewrite Hx. apply list_elem_of_join. exists (burrow_lines format_g b). split; [by left | by apply list_elem_of_fmap_2].
Qed.

Definition no_connections : pool_stat := {|
  TotalConns := 0; AcquiredConns := 0; IdleConns := 0; MaxConns := 0; AcquireCount := 0; EmptyAcquireCount := 0;
  CanceledAcquireCount := 0; AcquireDuration := gotime.float_of_int 0 |}.

(** A request that was given up overwrites what another request has just found
    out: its cancelled pings count as failures of the Burrows. *)
Example health_race : ∃ names stat ping cancelled,
  (∀ name, name ∈ names → ping name = None) ∧
  let l := ping_all [(1, "a")] ping ∅ in
  StatusCode (handleHealth (read_statuses names stat l)) = 200 ∧
  StatusCode (handleHealth (read_statuses names stat (ping_all [(2, "a")] cancelled l))) = 503.
Proof.
  exists ["a"], (λ _, no_connections), (λ _, None), (λ _, Some "context canceled").
  split; [done|]. split; by vm_compute.
Qed.

(** Two Burrows, of which one does not answer. *)
Lemma health_endpoint_exact_witness :
  let ping := λ name, if decide (name = "b") then Some "connection refused" else None in
  let statuses := (ShardStatuses ["a"; "b"] [(1, "b"); (2, "a")] ping (λ _, no_connections) ∅).1 in
  StatusCode (handleHealth statuses) ≠ 200 ∧ b_name <$> statuses = ["a"; "b"].
Proof.
  destruct (@health_endpoint_exact toy_std (λ _, "0") ["a"; "b"] [(1, "b"); (2, "a")]
    (λ name, if decide (name = "b") then Some "connection refused" else None) (λ _, no_connections) ∅
    (ShardStatuses ["a"; "b"] [(1, "b"); (2, "a")] (λ name, if decide (name = "b") then Some "connection refused" else None)
       (λ _, no_connections) ∅).1
    (ShardStatuses ["a"; "b"] [(1, "b"); (2, "a")] (λ name, if decide (name = "b") then Some "connection refused" else None)
       (λ _, no_connections) ∅).2) as (Hcode & Hnames & _).
  - cbn. apply Permutation_swap.
  - intros name e. cbn. case_decide; [by intros [= <-]|done].
  - by rewrite <- surjective_pairing.
  - split; [|exact Hnames]. intros E. assert (Some "connection refused" = None) as Hno; [|done].
    apply (proj1 Hcode E "b"). set_solver.
Defined.
End status.
